(* ===== verification/_CoqProject ===== *)
-Q . S2P
Prelude.v
Floats.v
Types.v
Counter.v
Json.v
Base64.v
Record.v
CounterPatch.v
BTree.v
PkIndex.v
SecIndex.v
Hint.v
Meta.v
Store.v
SecMaint.v
IndexStep.v
LogSpec.v
Invariant.v
Ops.v
Contents.v
Caps.v
PutProofs.v
Load.v
Recovery.v
Batch.v
Compact.v
Frame.v
HintInv.v
Crash.v
CounterProofs.v
RangeProofs.v
Query.v
BatchProofs.v
CompactProofs.v
RelieveProofs.v
Clock.v
TimedMap.v
Destroy.v
Lock.v
Gate.v
GateProofs.v
GateLive.v
Text.v
BlobFiles.v
Net.v
Proto.v
Embed.v
DocParse.v
Auth.v
ServerSchema.v
Server.v
ServerProofs.v
AuthProofs.v
Framing.v
Records.v
Flags.v
Startup.v
CommandLine.v
Policy.v
Shutdown.v
ShutdownProofs.v
ShutdownLive.v
COptions.v
CApi.v
CApiProofs.v
CApiData.v
Samples.v
TimedMapSamples.v
Findings.v
ServerSamples.v
GateSamples.v
CApiSamples.v
ShutdownSamples.v
