(* ===== verification/Prelude.v ===== *)
(** * A verification of ntee-db

    ntee-db is an embedded key-value store with secondary indexes, blobs,
    counters, times to live and batches (src/nteedb-core), a TCP server over it
    (src/nteedb-server) and a C interface for JavaScript (src/nteedb-js/capi).
    This library models the three and proves what makes them correct.  This
    first file is also its prelude: bytes, machine integers,
    tactics, hint databases and general lemmas.

    ** The program and its model

    A store is a directory: an append-only log [main.jsonl] of JSON lines, blob
    files by generation, an index hint and a metadata file.  In memory it keeps
    a primary index (key to location) and declared secondary indexes.  A write
    appends a line and updates the indexes; a read looks the location up and
    reads the line; opening replays the log, helped by the hint; compaction
    writes a new log with the live records and renames it into place.

    Data and codecs:
    - [Floats], [Json], [Base64]: float64 (SpecFloat), encoding/json and
      encoding/base64 at the byte level, as far as the program uses them;
    - [Types]: values, errors and the state-and-error monad of the model;
    - [Record] (record.go), [Counter] and [CounterPatch] (counter.go's codec and
      the in-place patch of a line), [Hint] (indexhint.go), [Meta] (meta.go).
    Indexes:
    - [BTree]: the interface [BTreeG] of the third-party tidwall/btree, its laws
      [BTreeGLaws] and a list implementation that satisfies them;
    - [PkIndex] (pkindex.go), [SecIndex] (secindex.go's index), [SecMaint] and
      [IndexStep] (their maintenance and the invariant between the two).
    The store (db.go, mainlog.go, blob.go, ttl.go, rangedel.go, batch.go,
    compact.go, reindex.go, destroy.go, lock.go):
    - [BlobFiles]: the names of the blob files and what a listing finds;
    - [Store]: the state [DB] (the Go struct, with the files of the directory)
      and the write path; [Ops]: the exported operations; [Load]: [Open] and
      recovery; [Batch], [Compact], [Destroy]; [Lock]: the directory lock;
    - [LogSpec], [Invariant], [Contents]: the log as a sequence of records, the
      representation invariant [Inv], and the abstract view of a store as a map
      ([contents]), which the operation theorems refine;
    - [Caps], [PutProofs], [Recovery], [CounterProofs], [RangeProofs],
      [BatchProofs], [CompactProofs], [RelieveProofs]: the theorems; [Query]:
      queries by index against a scan of the primary index;
    - [Frame]: what a computation leaves alone, by the shape of the code; with
      it, [Clock]: the clock never goes back, and [HintInv]: the hint file and
      the snapshot of the background writer describe a prefix of the log;
      [Crash]: what a killed process leaves opens as the store it was;
      [TimedMap]: whole histories of a store, restarts and kills included,
      against a map whose keys expire;
    - [Gate], [GateProofs], [GateLive]: the concurrency of the core, as a step
      relation on goroutines.
    The server (proto.go, auth.go, schema.go, handlers.go, server.go, main.go):
    - [Text], [Net]: what it uses of packages strings, strconv and net;
    - [Proto]: lines, data blocks and responses; [Embed]: stored JSON inside a
      response line; [Auth]; [ServerSchema]: schema.json and the configuration;
      [Server]: the commands and the loop of a connection; [ServerProofs],
      [AuthProofs], [Framing], [Records]: theorems about connections;
      [Flags], [CommandLine]: packages flag and time as main uses them, and main;
      [Startup]: the checks before the first connection; [Policy]: automatic
      compaction;
    - [Shutdown]: the accept loops, the connections' goroutines, Serve, Close
      and the end of run as a step relation; [ShutdownProofs], [ShutdownLive]:
      its invariant, what Close achieves, and that shutting down ends.
    The C interface (capi/handles.go, options.go, exports.go):
    - [DocParse]: every document the interface marshals parses back;
    - [COptions]: nteedb_open's JSON options and extraction by path; [CApi]: the
      stores of a process, the table of handles and every exported function;
    - [CApiProofs]: theorems about histories of calls; [CApiData]: about the
      data that crosses the interface.
    [Samples], [TimedMapSamples], [ServerSamples], [GateSamples],
    [CApiSamples] and [ShutdownSamples] apply the theorems to a concrete store,
    history, server, interleavings, library and shutdowns; [Findings] runs the
    store where it does not do what its comments say.

    ** How the code is rendered

    A Go function that reads or changes the store is a function of the monad
    [M DB]: it returns a value or an error together with the state, so an error
    keeps the effects made before it, as in Go.  A panic is the error [EPanic],
    which nothing recovers.  int64, int32 and uint32 values are integers with
    their wrap-around written out ([wrap64], [wrap32]); lengths of files and
    slices are unbounded, and theorems that depend on their fitting say so
    ([rec_good], [write_fits], [rewrite_fits], [pass_fits]).  Everything the
    operating system decides is an oracle, the class [Env], indexed by a tick
    that every use advances: the clock, failing writes (with the number of
    bytes that still reached the file), failing syncs and other calls, and the
    order in which a Go map is ranged over.  Operations are modelled one at a
    time; [Gate] justifies this for the core, and on the server the commands of
    different connections interleave as whole commands; a command of several
    core calls (ixrec, ixprec, stats) is taken as one step, though a command of
    another connection may come between its calls.

    ** What the theorems show

    - A store is a map whose keys expire ([history_refines]): for a store
      without capped indexes, the answers to any sequence of operations,
      restarts, kills and steps of the background hint writer, and the
      contents at the end, are those of a finite map from keys to values with
      expiries, some of them counters, under the clock as it was read.  A kill
      is one between two operations or in the first record of one; one
      inside a rewrite is harmless before the rename; after it the next process
      is unharmed when the old hint covers more than the new log has
      ([rename_kill_safe]), and misled otherwise, or later
      ([stale_hint_misleads], [stale_hint_returns]).
    - Operations refine a map: a successful [PutIndexed], [Delete], counter
      update, range delete or batch changes [contents] as the corresponding map
      operation does, up to the evictions the caps demand, keeps [Inv], and
      returns what it should; [Get] and [PrefixScan] return the unexpired part
      of the map; index queries return what a scan of all records would.
    - Durability: after a crash at any byte, [Open] recovers exactly the
      complete records; with or without a valid hint the result is the same;
      [Close] and [Open] round-trip; the codecs round-trip; [Drop] leaves an
      empty directory.
    - Rewriting: [Compact], [Reindex] and [BlobsRelieve] keep values and
      expiries of the unexpired keys; the reaper and the automatic compaction
      cannot be noticed by a reader.
    - Concurrency: every interleaving is equivalent to a sequence of whole
      critical sections; the locking invariant (exclusion, frozen store during
      a rebuild, no lost wake-up); no deadlock and bounded executions; one
      process per directory.
    - Server: every connection ends and answers each command with one line;
      framed requests are read exactly and errors keep the stream in place;
      responses parse back to what was stored; an unauthenticated connection
      neither changes nor learns anything; administration needs the role; an
      auth file admits exactly the users it names; without credentials and
      without -insecure on the command line only loopback addresses are bound; shutting down ends, with the listeners
      closed, the handlers gone and the store closed, unless a connection was
      accepted just before Close and entered in the table just after it.
    - C interface: after any history of calls handles name different stores and
      no two open stores share a directory; a call touches the store its handle
      names; a released handle stays dead; what is put is what the client
      decodes; a binary batch is cut into exactly its items or refused.

    ** Assumptions, bounds and fuel

    Theorems about stores assume the laws of [BTreeG] and of [Env] (both are
    instantiated in [Samples]) and say which failures they allow: [no_faults],
    or [clean_faults] (a failing write writes nothing).  Loops that are not
    structural have fuel: parsers get one unit per input byte and then some,
    which their lemmas show to be enough; a connection's loop gets one turn per
    input byte, and [connection_terminates] shows it never runs out; the IPv6
    parser has the eight groups of its Go loop.  The wording of the server's
    failures is a parameter ([failure_text]); an input stream is the bytes a
    client sends and the way it ends; TLS is the function that accepts a key
    pair, and encryption is not modelled.  In the C interface a call is one
    step, the directory a path resolves to ([dir_of]) and the wording of errors
    ([error_text]) are parameters, and [EMisuse] ends a history that breaks a
    documented precondition (destroying a directory that is open).  In [Gate] the bodies of critical
    sections are abstract lists of actions, the foreground holds [hintMu] for
    one step, and the background writer's deferred releases are one step.

    ** Not modelled

    The memory of C and its release (nteedb_free).  The help text, and log lines
    other than those of a server that starts.  A signal that arrives before Serve has started its
    goroutines, and writes that wait for a client that does not read.  The
    setting of deadlines: one that passes is an end of the input.  Temporary
    files inside a store directory; a path with characters special to
    filepath.Glob. *)

From Stdlib Require Export ZArith Lia.
From Stdlib Require Strings.Byte.
From stdpp Require Export base gmap strings fin_maps sorting numbers.
From stdpp Require Export list.
Export list_basics.list list_relations.list list_monad.list.

#[global] Open Scope Z_scope.

(** ** Bytes and Go strings

    A Go [string] is an immutable byte sequence and a [[]byte] a mutable one;
    both are modelled by [list byte].  Nothing in the program depends on
    sharing the backing array of a slice, except where the model says so. *)

Abbreviation byte := Byte.byte.
Abbreviation gostring := (list Byte.byte).

#[global] Instance byte_eq_dec : EqDecision byte := Byte.byte_eq_dec.

#[global] Program Instance byte_countable : Countable byte :=
  inj_countable Byte.to_N Byte.of_N Byte.of_to_N.

(** The numeric value of a byte, and the byte of a number (Go's [byte(z)],
    which keeps the low eight bits). *)
Definition bZ (b : byte) : Z := Z.of_N (Byte.to_N b).

Definition Zb (z : Z) : byte :=
  match Byte.of_N (Z.to_N (z mod 256)) with
  | Some b => b
  | None => Byte.x00
  end.

Definition bs (s : String.string) : gostring := String.list_byte_of_string s.

(** A literal in which the apostrophe stands for the double quote, so that
    JSON text can be written without escapes. *)
Definition qs (s : String.string) : gostring :=
  (fun b => if decide (b = Byte.x27) then Byte.x22 else b) <$> bs s.

Lemma bZ_range b : 0 <= bZ b < 256.
Proof. unfold bZ. pose proof (Byte.to_N_bounded b). lia. Qed.

Lemma bZ_inj b c : bZ b = bZ c -> b = c.
Proof.
  unfold bZ. intros H%N2Z.inj.
  pose proof (Byte.of_to_N b) as Hb. pose proof (Byte.of_to_N c) as Hc.
  rewrite H in Hb. congruence.
Qed.

Lemma Zb_bZ b : Zb (bZ b) = b.
Proof.
  unfold Zb, bZ. pose proof (Byte.to_N_bounded b).
  rewrite Z.mod_small by lia. rewrite N2Z.id. by rewrite Byte.of_to_N.
Qed.

Lemma bZ_Zb z : bZ (Zb z) = z mod 256.
Proof.
  unfold Zb, bZ. pose proof (Z.mod_pos_bound z 256 eq_refl) as Hm.
  destruct (Byte.of_N (Z.to_N (z mod 256))) as [b|] eqn:Hb.
  - apply Byte.to_of_N in Hb. rewrite Hb. lia.
  - apply Byte.of_N_None_iff in Hb. lia.
Qed.

Lemma bZ_Zb_small z : 0 <= z < 256 -> bZ (Zb z) = z.
Proof. intros. rewrite bZ_Zb. by apply Z.mod_small. Qed.

(** Changing one element of a list changes the sum by that element. *)
Lemma sum_insert {A} (f : A -> nat) (ts : list A) i p p' : ts !! i = Some p ->
  (sum_list_with f (<[i := p']> ts) + f p = sum_list_with f ts + f p')%nat.
Proof.
  revert i. induction ts as [|t ts IH]; intros [|i] Hi; try done; simpl in *.
  - injection Hi as ->. lia.
  - specialize (IH i Hi). lia.
Qed.

(** ** Go's order on strings: bytewise lexicographic *)

Fixpoint str_ltb (a b : gostring) : bool :=
  match a, b with
  | _, [] => false
  | [], _ :: _ => true
  | x :: a', y :: b' =>
      if bZ x <? bZ y then true
      else if bZ y <? bZ x then false
      else str_ltb a' b'
  end.

Definition str_leb (a b : gostring) : bool := negb (str_ltb b a).

(** [strings.HasPrefix]. *)
Fixpoint has_prefix (p s : gostring) : bool :=
  match p, s with
  | [], _ => true
  | _ :: _, [] => false
  | x :: p', y :: s' => bool_decide (x = y) && has_prefix p' s'
  end.

(** A strict total order given by a boolean test. *)
Class StrictTotal {T} (ltb : T -> T -> bool) : Prop := {
  st_irrefl x : ltb x x = false;
  st_trans x y z : ltb x y = true -> ltb y z = true -> ltb x z = true;
  st_total x y : ltb x y = false -> ltb y x = false -> x = y
}.

Lemma bZ_eq_of_ge x y : (bZ x <? bZ y) = false -> (bZ y <? bZ x) = false -> x = y.
Proof. intros. apply bZ_inj. lia. Qed.

#[global] Instance str_ltb_total : StrictTotal str_ltb.
Proof.
  split.
  - induction x as [|b x IH]; simpl; [done|]. by rewrite Z.ltb_irrefl.
  - induction x as [|b x IH]; intros [|c y] [|d z]; simpl; try done.
    destruct (Z.ltb_spec (bZ b) (bZ c)), (Z.ltb_spec (bZ c) (bZ b)),
      (Z.ltb_spec (bZ c) (bZ d)), (Z.ltb_spec (bZ d) (bZ c)),
      (Z.ltb_spec (bZ b) (bZ d)), (Z.ltb_spec (bZ d) (bZ b)); try done; try lia; eauto.
  - induction x as [|b x IH]; intros [|c y]; simpl; try done.
    destruct (bZ b <? bZ c) eqn:H1, (bZ c <? bZ b) eqn:H2; try done.
    intros. f_equal; [by apply bZ_eq_of_ge | by apply IH].
Qed.

Section order_facts.
Context {T} (ltb : T -> T -> bool) `{!StrictTotal ltb}.

Lemma st_asym x y : ltb x y = true -> ltb y x = false.
Proof.
  intros H. destruct (ltb y x) eqn:H'; [|done].
  pose proof (st_trans (ltb:=ltb) _ _ _ H H') as Hx. by rewrite st_irrefl in Hx.
Qed.

Lemma st_neq x y : ltb x y = true -> x <> y.
Proof. intros H ->. by rewrite st_irrefl in H. Qed.

(** Negative transitivity: [<=] composes. *)
Lemma st_ntrans x y z : ltb y x = false -> ltb z y = false -> ltb z x = false.
Proof.
  intros H1 H2. destruct (ltb z x) eqn:H; [|done].
  destruct (ltb x y) eqn:Hxy.
  - rewrite (st_trans z x y) in H2; done.
  - rewrite (st_total x y Hxy H1) in H. congruence.
Qed.

Lemma st_lt_le x y z : ltb x y = true -> ltb z y = false -> ltb x z = true.
Proof.
  intros H1 H2. destruct (ltb x z) eqn:H; [done|].
  destruct (ltb y z) eqn:Hyz.
  - rewrite (st_trans x y z) in H; done.
  - by rewrite (st_total y z Hyz H2), H in H1.
Qed.

Lemma st_le_lt x y z : ltb y x = false -> ltb y z = true -> ltb x z = true.
Proof.
  intros H1 H2. destruct (ltb x z) eqn:H; [done|].
  destruct (ltb x y) eqn:Hxy.
  - rewrite (st_trans x y z) in H; done.
  - by rewrite (st_total x y Hxy H1), H2 in H.
Qed.
End order_facts.

Lemma str_ltb_nil_r s : str_ltb s [] = false.
Proof. by destruct s. Qed.

(** [v ++ "\x00"] is the immediate successor of [v]. *)
Lemma str_ltb_succ v w : str_ltb v w = true -> str_ltb w (v ++ [Byte.x00]) = false.
Proof.
  revert w. induction v as [|x v IH]; intros [|y w]; simpl; try done.
  - intros _. pose proof (bZ_range y). change (bZ Byte.x00) with 0.
    destruct (Z.ltb_spec (bZ y) 0), (Z.ltb_spec 0 (bZ y)); try done; try lia.
    by destruct w.
  - destruct (Z.ltb_spec (bZ x) (bZ y)), (Z.ltb_spec (bZ y) (bZ x)); try done; try lia.
    intros; by apply IH.
Qed.

Lemma str_ltb_app_zero v : str_ltb v (v ++ [Byte.x00]) = true.
Proof. induction v as [|x v IH]; simpl; [done|]. by rewrite Z.ltb_irrefl. Qed.

Lemma has_prefix_spec p s : has_prefix p s = true <-> exists k, s = p ++ k.
Proof.
  revert s. induction p as [|x p IH]; intros s; simpl.
  - split; eauto.
  - destruct s as [|y s]; [split; [done|]; by intros [k ?]|].
    rewrite andb_true_iff, bool_decide_eq_true, IH. split.
    + intros [-> [k ->]]. by exists k.
    + intros [k [= -> ->]]. split; [done|]. by exists k.
Qed.

(** A string with prefix [p] is at least [p], and between two strings [p <= s <= t]
    the prefix cannot be lost and regained: once a string at or above [p] lacks
    the prefix, every larger one does. *)
Lemma has_prefix_ge p s : has_prefix p s = true -> str_ltb s p = false.
Proof.
  revert s. induction p as [|x p IH]; intros [|y s]; simpl; try done.
  rewrite andb_true_iff, bool_decide_eq_true. intros [-> H].
  rewrite Z.ltb_irrefl. by apply IH.
Qed.

Lemma has_prefix_convex p s t :
  str_ltb s p = false -> str_ltb t s = false ->
  has_prefix p t = true -> has_prefix p s = true.
Proof.
  revert s t. induction p as [|x p IH]; intros [|y s] [|z t]; simpl; try done.
  rewrite !andb_true_iff, !bool_decide_eq_true.
  destruct (Z.ltb_spec (bZ y) (bZ x)), (Z.ltb_spec (bZ x) (bZ y)),
    (Z.ltb_spec (bZ z) (bZ y)), (Z.ltb_spec (bZ y) (bZ z)); try done; try lia.
  all: intros H1' H2' [-> ?]; try lia.
  split; [apply bZ_inj; lia | eauto].
Qed.

(** ** Machine integers

    Go's fixed-width integers wrap around on overflow. *)

Definition MaxInt64 : Z := 2 ^ 63 - 1.
Definition MinInt64 : Z := - 2 ^ 63.

Definition wrap64 (z : Z) : Z := (z + 2 ^ 63) mod 2 ^ 64 - 2 ^ 63.
Definition wrap32 (z : Z) : Z := (z + 2 ^ 31) mod 2 ^ 32 - 2 ^ 31.
Definition uwrap64 (z : Z) : Z := z mod 2 ^ 64.

Definition in64 (z : Z) : Prop := MinInt64 <= z <= MaxInt64.
Definition in32 (z : Z) : Prop := - 2 ^ 31 <= z <= 2 ^ 31 - 1.

#[global] Instance in64_dec z : Decision (in64 z).
Proof. unfold in64. apply _. Defined.
#[global] Instance in32_dec z : Decision (in32 z).
Proof. unfold in32. apply _. Defined.

Lemma wrap64_in z : in64 (wrap64 z).
Proof.
  unfold in64, wrap64, MinInt64, MaxInt64.
  pose proof (Z.mod_pos_bound (z + 2 ^ 63) (2 ^ 64) eq_refl). lia.
Qed.

Lemma wrap64_id z : in64 z -> wrap64 z = z.
Proof.
  unfold in64, wrap64, MinInt64, MaxInt64. intros. rewrite Z.mod_small; lia.
Qed.

Lemma wrap32_id z : in32 z -> wrap32 z = z.
Proof. unfold in32, wrap32. intros. rewrite Z.mod_small; lia. Qed.

Lemma uwrap64_id z : 0 <= z < 2 ^ 64 -> uwrap64 z = z.
Proof. intros. by apply Z.mod_small. Qed.

(** The length of a slice, as a Go [int]. *)
Definition zlen {A} (l : list A) : Z := Z.of_nat (length l).

Lemma zlen_nonneg {A} (l : list A) : 0 <= zlen l.
Proof. unfold zlen. lia. Qed.

Lemma zlen_app {A} (l k : list A) : zlen (l ++ k) = zlen l + zlen k.
Proof. unfold zlen. rewrite length_app. lia. Qed.

Lemma zlen_cons {A} (x : A) l : zlen (x :: l) = zlen l + 1.
Proof. unfold zlen. simpl. lia. Qed.

Lemma zlen_nil {A} : zlen (@nil A) = 0.
Proof. done. Qed.

(** ** Generic list facts *)

Lemma filter_all {A} (P : A -> Prop) `{!forall x, Decision (P x)} (l : list A) :
  Forall P l -> filter P l = l.
Proof.
  induction 1 as [|x l Hx HF IH]; [done|]. rewrite filter_cons_True by done. by rewrite IH.
Qed.

Lemma filter_none {A} (P : A -> Prop) `{!forall x, Decision (P x)} (l : list A) :
  Forall (fun x => ~ P x) l -> filter P l = [].
Proof.
  induction 1 as [|x l Hx HF IH]; [done|]. by rewrite filter_cons_False.
Qed.

Lemma list_filter_iff' {A} (P Q : A -> Prop) `{!forall x, Decision (P x)} `{!forall x, Decision (Q x)} (l : list A) :
  (forall x, x ∈ l -> P x <-> Q x) -> filter P l = filter Q l.
Proof.
  induction l as [|x l IH]; intros HPQ; [done|].
  assert (IH' : filter P l = filter Q l) by (apply IH; intros; apply HPQ; by right).
  destruct (decide (P x)) as [Hp|Hp].
  - rewrite !filter_cons_True, IH'; [done|apply HPQ; [by left|done]|done].
  - rewrite !filter_cons_False, IH'; [done|rewrite <- HPQ by (by left); done|done].
Qed.

Lemma filter_fmap {A B} (f : A -> B) (P : B -> Prop) `{!forall x, Decision (P x)} (l : list A) :
  filter P (f <$> l) = f <$> filter (fun x => P (f x)) l.
Proof.
  induction l as [|x l IH]; [done|]. rewrite fmap_cons. destruct (decide (P (f x))).
  - rewrite !filter_cons_True by done. by rewrite fmap_cons, IH.
  - rewrite !filter_cons_False by done. done.
Qed.

(** The elements a callback visits before it first returns false. *)
Fixpoint take_while {A} (f : A -> bool) (l : list A) : list A :=
  match l with
  | [] => []
  | x :: l' => if f x then x :: take_while f l' else []
  end.

Lemma take_while_app {A} (f : A -> bool) (l k : list A) :
  Forall (fun x => f x = true) l -> match k with [] => True | x :: _ => f x = false end ->
  take_while f (l ++ k) = l.
Proof.
  induction 1 as [|x l Hx HF IH]; intros Hk; simpl.
  - destruct k as [|x k]; [done|]. simpl. by rewrite Hk.
  - by rewrite Hx, IH.
Qed.

(** A test that stays false once it is false selects a prefix. *)
Lemma take_while_filter {A} (f : A -> bool) (l : list A) :
  (forall i j x y, (i < j)%nat -> l !! i = Some x -> l !! j = Some y -> f y = true -> f x = true) ->
  take_while f l = filter (fun x => f x = true) l.
Proof.
  induction l as [|x l IH]; intros H; [done|]. cbn [take_while]. destruct (f x) eqn:Hx.
  - rewrite filter_cons_True by done. f_equal. apply IH.
    intros i j a b Hij Ha Hb. eapply (H (S i) (S j)); [lia|done..].
  - rewrite filter_cons_False by congruence. symmetry. apply filter_none, Forall_lookup.
    intros j y Hy Hfy. rewrite (H 0%nat (S j) x y) in Hx; [done|lia|done..].
Qed.

Lemma lookup_drop_Some_head {A} (l : list A) i x k : drop i l = x :: k -> l !! i = Some x.
Proof. intros H. replace i with (i + 0)%nat by lia. by rewrite <- lookup_drop, H. Qed.

(** ** Lines *)

(** The bytes before the first newline and those after it. *)
Fixpoint cut_line (s : gostring) : option (gostring * gostring) :=
  match s with
  | [] => None
  | b :: s' =>
      if decide (b = Byte.x0a) then Some ([], s')
      else match cut_line s' with
           | Some (l, r) => Some (b :: l, r)
           | None => None
           end
  end.

Lemma cut_line_app l r : Byte.x0a ∉ l -> cut_line (l ++ Byte.x0a :: r) = Some (l, r).
Proof.
  induction l as [|b l IH]; intros Hl; simpl; [done|]. apply not_elem_of_cons in Hl as [Hb Hl].
  rewrite decide_False by congruence. by rewrite IH.
Qed.

Lemma cut_line_None s : Byte.x0a ∉ s -> cut_line s = None.
Proof.
  induction s as [|b s IH]; intros Hs; simpl; [done|]. apply not_elem_of_cons in Hs as [Hb Hs].
  rewrite decide_False by congruence. by rewrite IH.
Qed.

Lemma cut_line_Some s l r : cut_line s = Some (l, r) -> s = l ++ Byte.x0a :: r /\ Byte.x0a ∉ l.
Proof.
  revert l. induction s as [|b s IH]; intros l; simpl; [done|]. destruct (decide (b = Byte.x0a)) as [->|Hb].
  - intros [= <- <-]. split; [done|]. apply not_elem_of_nil.
  - destruct (cut_line s) as [[l' r']|]; [|done]. intros [= <- <-].
    destruct (IH l' eq_refl) as [-> Hl]. split; [done|]. apply not_elem_of_cons. by split; [congruence|].
Qed.

(** ** Tactics *)

(** Closes a decidable closed proposition by evaluating its decision. *)
Ltac decide_now :=
  lazymatch goal with |- ?P => refine (@bool_decide_unpack P _ _); vm_compute; exact I end.
