(* ===== verification/Floats.v ===== *)
(** * IEEE-754 numbers: Go's [float64] and [float32]

    Number indexes hold [float64] values.  They are modelled by the standard
    library's executable specification of IEEE-754 ([SpecFloat]), with the
    comparisons of the language, the integer conversions, and the two
    conversions of [strconv] that [encoding/json] uses on numbers: correctly
    rounded decimal parsing and shortest decimal printing. *)

From S2P Require Import Prelude.
From Stdlib Require Export Floats.SpecFloat.
#[local] Open Scope Z_scope.

Abbreviation f64 := spec_float.

Definition f64_ltb (a b : f64) : bool := SFltb a b.
Definition f64_eqb (a b : f64) : bool := SFeqb a b.
Definition f64_isnan (a : f64) : bool := match a with S754_nan => true | _ => false end.
Definition f64_isinf (a : f64) : bool := match a with S754_infinity _ => true | _ => false end.
Definition f64_finite (a : f64) : bool := negb (f64_isnan a) && negb (f64_isinf a).

#[global] Instance f64_eq_dec : EqDecision f64.
Proof. solve_decision. Defined.

(** [float64(n)] for an integer [n], and the exact widening of a [float32]. *)
Definition f64_of_Z (n : Z) : f64 := binary_normalize 53 1024 n 0 false.

Definition f64_of_f32 (f : spec_float) : f64 :=
  match f with
  | S754_finite s m e => binary_normalize 53 1024 (if s then Z.neg m else Z.pos m) e s
  | g => g
  end.

(** ** Decimal to binary: [D * 10^E], correctly rounded

    [prec]/[emax] select the format (53/1024 for [float64], 24/128 for
    [float32]).  For a negative exponent the quotient is taken with more than
    64 significant bits and a sticky bit, so one rounding step is exact.  The
    two early answers only avoid building huge powers of ten. *)
Definition dec_round (prec emax : Z) (neg : bool) (D E : Z) : spec_float :=
  let sgn (z : Z) := if neg then - z else z in
  if D =? 0 then S754_zero neg
  else if 400 <? E then S754_infinity neg
  else if Z.log2 D / 3 + 1 + E <? -400 then S754_zero neg
  else if 0 <=? E then binary_normalize prec emax (sgn (D * 10 ^ E)) 0 neg
  else
    let den := 10 ^ (- E) in
    let k := Z.log2 den + 66 in
    let q := (D * 2 ^ k) / den in
    let r := (D * 2 ^ k) mod den in
    let m := 2 * q + (if r =? 0 then 0 else 1) in
    binary_normalize prec emax (sgn m) (- k - 1) neg.

(** ** Scanning decimal literals *)

Definition is_digit (b : byte) : bool := (48 <=? bZ b) && (bZ b <=? 57).

Fixpoint span_digits (s : gostring) : gostring * gostring :=
  match s with
  | b :: s' => if is_digit b then let '(d, r) := span_digits s' in (b :: d, r) else ([], s)
  | [] => ([], [])
  end.

Definition digits_val (ds : gostring) : Z :=
  fold_left (fun a b => a * 10 + (bZ b - 48)) ds 0.

Definition strip_sign (s : gostring) : bool * gostring :=
  match s with
  | b :: s' => if decide (b = Byte.x2d) then (true, s')
               else if decide (b = Byte.x2b) then (false, s') else (false, s)
  | [] => (false, [])
  end.

Definition scan_frac (s : gostring) : gostring * gostring :=
  match s with
  | b :: s' => if decide (b = Byte.x2e) then span_digits s' else ([], s)
  | [] => ([], [])
  end.

(** The optional exponent: [None] when an ['e'] has no digits after it. *)
Definition scan_exp (s : gostring) : option (Z * gostring) :=
  match s with
  | b :: s' =>
      if decide (b = Byte.x65 \/ b = Byte.x45) then
        let '(neg, s1) := strip_sign s' in
        let '(ds, r) := span_digits s1 in
        match ds with
        | [] => None
        | _ => Some (if neg then - digits_val ds else digits_val ds, r)
        end
      else Some (0, s)
  | [] => Some (0, [])
  end.

Definition lower (b : byte) : byte :=
  if (65 <=? bZ b) && (bZ b <=? 90) then Zb (bZ b + 32) else b.

(** [strconv.ParseFloat(s, bits)] on decimal syntax and the special names; a
    value out of range is an error ([None]).  Hexadecimal floats are not part
    of the model. *)
Definition parse_float_gen (prec emax : Z) (s : gostring) : option spec_float :=
  let '(neg, s1) := strip_sign s in
  let low := lower <$> s1 in
  if decide (low = bs "inf" \/ low = bs "infinity") then Some (S754_infinity neg)
  else if decide ((lower <$> s) = bs "nan") then Some S754_nan
  else
    let '(ip, s2) := span_digits s1 in
    let '(fp, s3) := scan_frac s2 in
    match ip ++ fp with
    | [] => None
    | ds =>
        match scan_exp s3 with
        | Some (e, []) =>
            let f := dec_round prec emax neg (digits_val ds) (e - zlen fp) in
            if f64_isinf f then None else Some f
        | _ => None
        end
    end.

Definition parse_float (s : gostring) : option f64 := parse_float_gen 53 1024 s.

(** ** Shortest decimal printing *)

(** Decimal digits of a non-negative integer, [strconv.FormatInt] base 10. *)
Fixpoint dec_digits (fuel : nat) (n : Z) (acc : gostring) : gostring :=
  match fuel with
  | O => acc
  | S fuel' =>
      let acc' := Zb (48 + n mod 10) :: acc in
      if n / 10 =? 0 then acc' else dec_digits fuel' (n / 10) acc'
  end.

Definition nat_dec (n : Z) : gostring := dec_digits (S (Z.to_nat (Z.log2 n))) n [].

Definition format_int (n : Z) : gostring :=
  if n <? 0 then Byte.x2d :: nat_dec (- n) else nat_dec n.

(** [10^(k-1) <= num/den < 10^k], starting from an estimate. *)
Fixpoint adjust_k (fuel : nat) (num den k : Z) : Z :=
  let ge z := if 0 <=? z then 10 ^ z * den <=? num else den <=? num * 10 ^ (- z) in
  match fuel with
  | O => k
  | S f => if ge k then adjust_k f num den (k + 1)
           else if ge (k - 1) then k else adjust_k f num den (k - 1)
  end.

(** The [n]-digit decimals next to the value; the closest one that reads back
    as [f] is returned. *)
Definition try_digits (prec emax : Z) (f : spec_float) (num den k n : Z) : option Z :=
  let p := n - k in
  let sn := if 0 <=? p then num * 10 ^ p else num in
  let sd := if 0 <=? p then den else den * 10 ^ (- p) in
  let lo := sn / sd in
  let back c := bool_decide (dec_round prec emax false c (- p) = f) in
  let close_lo := (sn - lo * sd) * 2 <=? sd in
  match back lo, back (lo + 1) with
  | true, true => Some (if close_lo then lo else lo + 1)
  | true, false => Some lo
  | false, true => Some (lo + 1)
  | false, false => None
  end.

Fixpoint search_digits (fuel : nat) (prec emax : Z) (f : spec_float) (num den k n : Z) : Z * Z :=
  match fuel with
  | O => (0, 1)
  | S fuel' =>
      match try_digits prec emax f num den k n with
      | Some c => (c, n)
      | None => search_digits fuel' prec emax f num den k (n + 1)
      end
  end.

Definition strip_zeros (ds : gostring) : gostring :=
  reverse ((fix go (l : gostring) : gostring :=
     match l with
     | [b] => [b]
     | b :: l' => if decide (b = Byte.x30) then go l' else l
     | [] => []
     end) (reverse ds)).

(** [shortest f] is the digit string [d1 d2 ...] and the exponent [k] of
    [0.d1d2... * 10^k], for a positive finite [f]. *)
Definition shortest (prec emax : Z) (m : positive) (e : Z) : gostring * Z :=
  let num := if 0 <=? e then Z.pos m * 2 ^ e else Z.pos m in
  let den := if 0 <=? e then 1 else 2 ^ (- e) in
  let k := adjust_k 8 num den ((Z.log2 (Z.pos m) + e) * 1233 / 4096 + 1) in
  let '(c, n) := search_digits 17 prec emax (S754_finite false m e) num den k 1 in
  let ds := nat_dec c in
  (strip_zeros ds, k + (zlen ds - n)).

Definition zeros (n : Z) : gostring := replicate (Z.to_nat n) Byte.x30.

Definition fmt_f (ds : gostring) (k : Z) : gostring :=
  if k <=? 0 then bs "0." ++ zeros (- k) ++ ds
  else if zlen ds <=? k then ds ++ zeros (k - zlen ds)
  else take (Z.to_nat k) ds ++ bs "." ++ drop (Z.to_nat k) ds.

Definition fmt_e (ds : gostring) (k : Z) : gostring :=
  let x := k - 1 in
  let mant := match ds with
              | [d] => [d]
              | d :: r => d :: bs "." ++ r
              | [] => []
              end in
  let ex := nat_dec (Z.abs x) in
  mant ++ bs "e" ++
    (if x <? 0 then bs "-" ++ ex
     else bs "+" ++ (if zlen ex =? 1 then bs "0" ++ ex else ex)).

(** The text [encoding/json] gives a finite float: plain notation except below
    [1e-6] and from [1e21] on; a negative one-digit exponent loses its zero. *)
Definition format_float_gen (prec emax : Z) (f : spec_float) : gostring :=
  match f with
  | S754_zero s => (if s then bs "-" else []) ++ bs "0"
  | S754_finite s m e =>
      let a := S754_finite false m e in
      let '(ds, k) := shortest prec emax m e in
      (if s then bs "-" else []) ++
      (if SFltb a (dec_round prec emax false 1 (-6))
          || negb (SFltb a (dec_round prec emax false 1 21))
       then fmt_e ds k else fmt_f ds k)
  | _ => []
  end.

Definition format_float64 := format_float_gen 53 1024.
Definition format_float32 := format_float_gen 24 128.

(** A float whose JSON text reads back as itself.  [strconv] documents this
    of every finite [float64]; the predicate is decidable, so a particular
    value is checked by evaluation. *)
Definition float_ok (f : f64) : bool :=
  f64_finite f && bool_decide (parse_float (format_float64 f) = Some f).

(** ** The order of the non-NaN floats

    Comparison agrees with the lexicographic order of an integer triple. *)
Definition f64_code (f : f64) : Z * Z * Z :=
  match f with
  | S754_infinity true => (-2, 0, 0)
  | S754_finite true m e => (-1, - e, - Z.pos m)
  | S754_zero _ | S754_nan => (0, 0, 0)
  | S754_finite false m e => (1, e, Z.pos m)
  | S754_infinity false => (2, 0, 0)
  end.

Definition code_lt (a b : Z * Z * Z) : Prop :=
  let '(a1, a2, a3) := a in
  let '(b1, b2, b3) := b in
  a1 < b1 \/ (a1 = b1 /\ (a2 < b2 \/ (a2 = b2 /\ a3 < b3))).

Lemma f64_compare_code a b :
  f64_isnan a = false -> f64_isnan b = false ->
  match SFcompare a b with
  | Some Lt => code_lt (f64_code a) (f64_code b)
  | Some Eq => f64_code a = f64_code b
  | Some Gt => code_lt (f64_code b) (f64_code a)
  | None => False
  end.
Proof.
  destruct a as [sa|[]| |[] ma ea], b as [sb|[]| |[] mb eb]; simpl; intros Ha Hb;
    try done; try lia.
  - destruct (Z.compare_spec ea eb); simpl; try lia.
    change (Pos.compare_cont Eq ma mb) with (Pos.compare ma mb).
    destruct (Pos.compare_spec ma mb); simpl; subst; try done; try lia.
  - destruct (Z.compare_spec ea eb); simpl; try lia.
    change (Pos.compare_cont Eq ma mb) with (Pos.compare ma mb).
    destruct (Pos.compare_spec ma mb); simpl; subst; try done; try lia.
Qed.

Lemma f64_ltb_code a b :
  f64_isnan a = false -> f64_isnan b = false ->
  f64_ltb a b = true <-> code_lt (f64_code a) (f64_code b).
Proof.
  intros Ha Hb. pose proof (f64_compare_code a b Ha Hb) as H.
  unfold f64_ltb, SFltb.
  destruct (f64_code a) as [[a1 a2] a3], (f64_code b) as [[b1 b2] b3].
  destruct (SFcompare a b) as [[]|]; simpl in *; simplify_eq; split; done || lia.
Qed.

Lemma f64_eqb_code a b :
  f64_isnan a = false -> f64_isnan b = false ->
  f64_eqb a b = true <-> f64_code a = f64_code b.
Proof.
  intros Ha Hb. pose proof (f64_compare_code a b Ha Hb) as H.
  unfold f64_eqb, SFeqb.
  destruct (f64_code a) as [[a1 a2] a3], (f64_code b) as [[b1 b2] b3].
  destruct (SFcompare a b) as [[]|]; simpl in *; simplify_eq; split; try done; intros; simplify_eq; lia.
Qed.

Lemma code_total (x y : Z * Z * Z) : code_lt x y \/ x = y \/ code_lt y x.
Proof.
  destruct x as [[x1 x2] x3], y as [[y1 y2] y3]. simpl.
  destruct (Z.lt_trichotomy x1 y1) as [?|[->|?]]; [lia| |lia].
  destruct (Z.lt_trichotomy x2 y2) as [?|[->|?]]; [lia| |lia].
  destruct (Z.lt_trichotomy x3 y3) as [?|[->|?]]; [lia|auto|lia].
Qed.

(** ** Rounding never yields NaN *)

Lemma shr_1_nonneg r : 0 <= shr_m r -> 0 <= shr_m (shr_1 r).
Proof. destruct r as [m rr ss]. destruct m as [|[]|]; simpl; lia. Qed.

Lemma iter_pos_nonneg n r : 0 <= shr_m r -> 0 <= shr_m (iter_pos shr_1 n r).
Proof.
  revert r. induction n as [n IH|n IH|]; intros r Hr; simpl; auto using shr_1_nonneg.
Qed.

Lemma shr_fexp_nonneg prec emax m e l : 0 <= m -> 0 <= shr_m (shr_fexp prec emax m e l).1.
Proof.
  intros Hm. unfold shr_fexp. assert (Hr : 0 <= shr_m (shr_record_of_loc m l)).
  { by destruct l as [|[]]. }
  unfold shr. destruct (_ - e); simpl; auto using iter_pos_nonneg.
Qed.

Lemma round_nonneg m l : 0 <= m -> 0 <= round_nearest_even m l.
Proof. intros Hm. destruct l as [|[]]; simpl; try case_match; lia. Qed.

Lemma binary_normalize_not_nan prec emax m e s : f64_isnan (binary_normalize prec emax m e s) = false.
Proof.
  assert (Haux : forall sx mx ex, f64_isnan (binary_round prec emax sx mx ex) = false).
  { intros sx mx ex. unfold binary_round. destruct (shl_align mx ex _) as [mz ez]. unfold binary_round_aux.
    pose proof (shr_fexp_nonneg prec emax (Z.pos mz) ez loc_Exact ltac:(lia)) as H1.
    destruct (shr_fexp prec emax (Z.pos mz) ez loc_Exact) as [r1 e1]. simpl in H1.
    pose proof (shr_fexp_nonneg prec emax _ e1 loc_Exact (round_nonneg _ (loc_of_shr_record r1) H1)) as H2.
    destruct (shr_fexp prec emax _ e1 loc_Exact) as [r2 e2]. simpl in H2.
    destruct (shr_m r2); [done| |lia]. by destruct (_ <=? _). }
  unfold binary_normalize. by destruct m.
Qed.

Lemma f64_of_Z_not_nan n : f64_isnan (f64_of_Z n) = false.
Proof. apply binary_normalize_not_nan. Qed.

Lemma dec_round_not_nan prec emax neg D E : f64_isnan (dec_round prec emax neg D E) = false.
Proof. unfold dec_round. repeat case_match; try done; apply binary_normalize_not_nan. Qed.

(** A literal that starts like a number does not read as NaN. *)
Lemma parse_float_not_nan s f : parse_float s = Some f -> (lower <$> s) <> bs "nan" -> f64_isnan f = false.
Proof.
  unfold parse_float, parse_float_gen. intros H Hn. destruct (strip_sign s) as [neg s1].
  destruct (decide _) in H; [by injection H as <-|]. rewrite decide_False in H by done.
  destruct (span_digits s1) as [ip s2]. destruct (scan_frac s2) as [fp s3]. destruct (ip ++ fp); [done|].
  destruct (scan_exp s3) as [[e [|]]|]; try done. destruct (f64_isinf _); [done|].
  injection H as <-. apply dec_round_not_nan.
Qed.
