(* ===== verification/Types.v ===== *)
(** * Errors, dynamic values and the state-and-error monad

    The vocabulary every component shares: the sentinel and formatted errors
    the store returns, Go's [any] as far as index values use it, and the monad
    in which stateful operations are written. *)

From S2P Require Import Prelude Floats.
#[local] Open Scope Z_scope.
#[local] Set Warnings "-register-all".

(** ** Errors *)

Inductive error :=
  | ErrClosed
  | ErrLocked
  | ErrInvalidTTL
  | ErrNotCounter
  | ErrCounterOverflow
  | ErrNegativeAmount
  | EIO                                   (** a system call failed *)
  | EMarshal                              (** json.Marshal refused a value *)
  | EUnmarshal                            (** json.Unmarshal refused a line *)
  | EUnknownIndex (name : gostring)
  | EKind (name : gostring)               (** value of the wrong kind for an index *)
  | ENotObject (key : gostring)           (** index values on an immediate value *)
  | ESelfEvict (key name : gostring)
  | EPrefixKind (name : gostring)         (** prefix query on a number index *)
  | EBlobGen (gen : Z)                    (** a blob generation is missing *)
  | EBatch (i : Z) (cause : error)
  | EDirRequired
  | EIndexName
  | EDupIndex (name : gostring)
  | EFailStop (cause : error)
  | ErrLineTooLong                        (** server: no newline within the line limit *)
  | ErrValueTooBig                        (** server: a data block over the limit *)
  | ErrBadDataEnd                         (** server: a data block without its newline *)
  | EEOF                                  (** the peer closed the stream *)
  | EUnexpectedEOF                        (** the stream ended inside a data block *)
  | ENet                                  (** another network error, timeouts included *)
  | EPanic                                (** a run-time panic *)
  | EMisuse                               (** a caller broke a documented precondition: not modelled further *)
  | EFuel.                                (** a loop bound of the model was exceeded *)

(** ** Results: a Go [(value, error)] pair whose value is meaningless on error *)

Inductive res (A : Type) :=
  | Ok (a : A)
  | Err (e : error).
Arguments Ok {A} a.
Arguments Err {A} e.

Definition is_ok {A} (r : res A) : bool := match r with Ok _ => true | Err _ => false end.

Definition res_bind {A B} (m : res A) (k : A -> res B) : res B :=
  match m with Ok a => k a | Err e => Err e end.

(** A stateful operation that may fail.  State changes made before a failure
    persist, as they do in Go. *)
Definition M (S A : Type) : Type := S -> res A * S.

Definition mok {S A} (a : A) : M S A := fun s => (Ok a, s).
Definition merr {S A} (e : error) : M S A := fun s => (Err e, s).
Definition mbnd {S A B} (m : M S A) (k : A -> M S B) : M S B := fun s =>
  match m s with
  | (Ok a, s') => k a s'
  | (Err e, s') => (Err e, s')
  end.
Definition mget {S} : M S S := fun s => (Ok s, s).
Definition mput {S} (s : S) : M S unit := fun _ => (Ok tt, s).
Definition mmodify {S} (f : S -> S) : M S unit := fun s => (Ok tt, f s).
Definition mres {S A} (r : res A) : M S A := fun s => (r, s).

(** [err := m; if err != nil { ... }] where the caller handles the error. *)
Definition mtry {S A} (m : M S A) : M S (res A) := fun s =>
  let '(r, s') := m s in (Ok r, s').

Declare Scope go_scope.
Notation "x <- m ;; k" := (mbnd m (fun x => k))
  (at level 60, m at next level, right associativity) : go_scope.
Notation "m ;;; k" := (mbnd m (fun _ => k))
  (at level 60, right associativity) : go_scope.
#[global] Open Scope go_scope.

(** [for _, x := range l { ... }] with a body that may fail: the first error
    ends the loop. *)
Fixpoint mfor {S A} (f : A -> M S unit) (l : list A) : M S unit :=
  match l with
  | [] => mok tt
  | x :: l' => f x ;;; mfor f l'
  end.

Lemma mbnd_ok {S A B} (m : M S A) (k : A -> M S B) s a s' :
  m s = (Ok a, s') -> mbnd m k s = k a s'.
Proof. unfold mbnd. by intros ->. Qed.

Lemma mbnd_err {S A B} (m : M S A) (k : A -> M S B) s e s' :
  m s = (Err e, s') -> mbnd m k s = (Err e, s').
Proof. unfold mbnd. by intros ->. Qed.

Lemma mget_bnd {S B} (k : S -> M S B) s : mbnd mget k s = k s s.
Proof. done. Qed.

Lemma mbnd_inv {S A B} (m : M S A) (k : A -> M S B) s b s' :
  mbnd m k s = (Ok b, s') -> exists a s1, m s = (Ok a, s1) /\ k a s1 = (Ok b, s').
Proof. unfold mbnd. destruct (m s) as [[a|e] s1]; [eauto|done]. Qed.

(** An invariant kept by the loop body is kept by the loop. *)
Lemma mfor_inv {S A} (I : S -> Prop) (f : A -> M S unit) l s r s' :
  (forall x s r s', x ∈ l -> I s -> f x s = (r, s') -> I s') ->
  I s -> mfor f l s = (r, s') -> I s'.
Proof.
  revert s. induction l as [|x l IH]; intros s Hf HI; simpl.
  - by intros [= _ <-].
  - unfold mbnd. destruct (f x s) as [[u|e] s1] eqn:Hx.
    + apply IH; [intros; eapply Hf; eauto; by right|]. eapply Hf; eauto. by left.
    + intros [= _ <-]. eapply Hf; eauto. by left.
Qed.

(** ** Dynamic values

    What an index value (Go's [any]) can be: the numeric types [toFloat]
    accepts, strings, and what [encoding/json] decodes into an [any]. *)
Inductive any :=
  | ANil
  | ABool (b : bool)
  | AString (s : gostring)
  | AFloat64 (f : f64)
  | AFloat32 (f : spec_float)
  | AInt (n : Z)
  | AInt64 (n : Z)
  | AInt32 (n : Z)
  | AJSONNumber (lit : gostring)
  | AArr (l : list any)
  | AObj (l : list (gostring * any)).

(** secindex.go: [IndexValues], a map from index names to values. *)
Abbreviation IndexValues := (gmap gostring any).
