(* ===== verification/Counter.v ===== *)
(** * Counters: the fixed-width text form and the update steps

    counter.go.  [formatCounter]/[parseCounter] are the on-disk codec, and the
    three closures that [Incr], [Topup] and [Take] hand to [counterUpdate] are
    the functions [incr_step], [topup_step] and [take_step].  All arithmetic is
    the 64-bit arithmetic of the source. *)

From S2P Require Import Prelude Floats Types.
#[local] Open Scope Z_scope.

Definition counterWidth : nat := 20.

(** The loop [for i := counterWidth-1; i >= 1; i--] fills the digits from the
    right. *)
Fixpoint fill_digits (n : nat) (mag : Z) (acc : gostring) : gostring :=
  match n with
  | O => acc
  | S n' => fill_digits n' (mag / 10) (Zb (48 + mag mod 10) :: acc)
  end.

Definition formatCounter (v : Z) : gostring :=
  let sign := if v <? 0 then Byte.x2d else Byte.x2b in
  let mag := if v <? 0 then uwrap64 (uwrap64 (wrap64 (- wrap64 (v + 1))) + 1)
             else uwrap64 v in
  sign :: fill_digits (counterWidth - 1) mag [].

(** The accumulation loop over [b[1:]]. *)
Fixpoint parse_mag (ds : gostring) (mag : Z) : option Z :=
  match ds with
  | [] => Some mag
  | c :: ds' =>
      if (bZ c <? 48) || (57 <? bZ c) then None
      else parse_mag ds' (uwrap64 (uwrap64 (mag * 10) + (bZ c - 48)))
  end.

Definition parseCounter (b : gostring) : option Z :=
  match b with
  | sign :: ds =>
      if negb (bool_decide (length b = counterWidth))
         || (negb (bool_decide (sign = Byte.x2b)) && negb (bool_decide (sign = Byte.x2d)))
      then None
      else
        match parse_mag ds 0 with
        | None => None
        | Some mag =>
            if bool_decide (sign = Byte.x2b) then
              if MaxInt64 <? mag then None else Some (wrap64 mag)
            else if MaxInt64 + 1 <? mag then None
            else Some (wrap64 (wrap64 (- wrap64 (uwrap64 (mag - 1))) - 1))
        end
  | [] => None
  end.

(** A step answers the next value and whether it applies. *)
Definition incr_step (delta cur : Z) : res (Z * bool) :=
  if ((0 <? delta) && (wrap64 (MaxInt64 - delta) <? cur))
     || ((delta <? 0) && (cur <? wrap64 (MinInt64 - delta)))
  then Err ErrCounterOverflow
  else Ok (wrap64 (cur + delta), true).

(** [topup_applied] is the [switch] of [Topup]. *)
Definition topup_applied (amount max cur : Z) : Z :=
  if max <=? cur then 0
  else if (wrap64 (MaxInt64 - amount) <? cur) || (max <? wrap64 (cur + amount))
  then wrap64 (max - cur)
  else amount.

Definition topup_step (amount max cur : Z) : res (Z * bool) :=
  let applied := topup_applied amount max cur in
  if applied =? 0 then Ok (0, false) else Ok (wrap64 (cur + applied), true).

(** The variable [overflow] captured by [Topup]'s closure. *)
Definition topup_overflow (amount max cur : Z) : Z :=
  wrap64 (amount - topup_applied amount max cur).

Definition take_step (amount left cur : Z) : res (Z * bool) :=
  if cur <? wrap64 (MinInt64 + amount) then Ok (0, false)
  else let next := wrap64 (cur - amount) in
       if next <? left then Ok (0, false) else Ok (next, true).

(** ** The digit loops *)

Lemma fill_digits_app n mag acc : fill_digits n mag acc = fill_digits n mag [] ++ acc.
Proof.
  revert mag acc. induction n as [|n IH]; intros mag acc; simpl; [done|].
  rewrite IH, (IH _ [_]). by rewrite <- app_assoc.
Qed.

Lemma length_fill_digits n mag : length (fill_digits n mag []) = n.
Proof.
  revert mag. induction n as [|n IH]; intros mag; simpl; [done|].
  rewrite fill_digits_app, length_app, IH. simpl. lia.
Qed.

Lemma digit_byte d : 0 <= d <= 9 -> bZ (Zb (48 + d)) = 48 + d.
Proof. intros. rewrite bZ_Zb_small; lia. Qed.

Lemma fill_digits_digits n mag : Forall (fun b => is_digit b = true) (fill_digits n mag []).
Proof.
  revert mag. induction n as [|n IH]; intros mag; simpl; [constructor|].
  rewrite fill_digits_app. apply Forall_app. split; [apply IH|].
  constructor; [|constructor]. pose proof (Z.mod_pos_bound mag 10 eq_refl).
  unfold is_digit. rewrite digit_byte by lia. lia.
Qed.

Lemma parse_mag_app a b m : parse_mag (a ++ b) m =
  match parse_mag a m with Some m' => parse_mag b m' | None => None end.
Proof.
  revert m. induction a as [|c a IH]; intros m; simpl; [done|].
  destruct (_ || _); [done|]. apply IH.
Qed.

Lemma pow10_S n : 10 ^ Z.of_nat (S n) = 10 * 10 ^ Z.of_nat n.
Proof. rewrite Nat2Z.inj_succ, Z.pow_succ_r; lia. Qed.

Lemma pow10_pos n : 0 < 10 ^ Z.of_nat n.
Proof. apply Z.pow_pos_nonneg; lia. Qed.

Lemma pow10_19 : forall n, (n <= 19)%nat -> 10 ^ Z.of_nat n <= 10 ^ 19.
Proof. intros. apply Z.pow_le_mono_r; lia. Qed.

Lemma parse_fill n mag :
  (n <= 19)%nat -> 0 <= mag < 10 ^ Z.of_nat n ->
  parse_mag (fill_digits n mag []) 0 = Some mag.
Proof.
  revert mag. induction n as [|n IH]; intros mag Hn Hm.
  - change (10 ^ Z.of_nat 0) with 1 in Hm. simpl. f_equal. lia.
  - rewrite pow10_S in Hm. pose proof (pow10_19 (S n) Hn) as H19.
    rewrite pow10_S in H19. simpl. rewrite fill_digits_app, parse_mag_app.
    pose proof (Z.mod_pos_bound mag 10 eq_refl) as Hmod.
    pose proof (Z.div_mod mag 10 ltac:(lia)) as Hdm.
    rewrite IH by lia. simpl. rewrite digit_byte by lia.
    replace ((48 + mag mod 10 <? 48) || (57 <? 48 + mag mod 10)) with false by lia.
    rewrite (uwrap64_id (mag / 10 * 10)) by lia. rewrite uwrap64_id by lia. f_equal. lia.
Qed.

Lemma parse_mag_bound ds mag m :
  parse_mag ds m = Some mag ->
  (length ds <= 19)%nat -> 0 <= m -> (m + 1) * 10 ^ zlen ds <= 10 ^ 19 ->
  Forall (fun b => is_digit b = true) ds /\ m * 10 ^ zlen ds <= mag < (m + 1) * 10 ^ zlen ds
  /\ fill_digits (length ds) (mag - m * 10 ^ zlen ds) [] = ds.
Proof.
  revert m mag. induction ds as [|c ds IH] using rev_ind; intros m mag Hp Hl Hm Hb; simpl in *.
  - change (zlen (@nil byte)) with 0 in *. rewrite Z.mul_1_r in *. injection Hp as <-.
    repeat split; [constructor|lia..].
  - rewrite parse_mag_app in Hp. destruct (parse_mag ds m) as [m1|] eqn:H1; [|done].
    rewrite zlen_app in *. change (zlen [c]) with 1 in *.
    rewrite length_app in *. simpl in *.
    rewrite Z.pow_add_r in * by (unfold zlen; lia). change (10 ^ 1) with 10 in *.
    pose proof (pow10_pos (length ds)) as Hpos. fold (zlen ds) in Hpos.
    assert (0 <= (m + 1) * 10 ^ zlen ds) by (apply Z.mul_nonneg_nonneg; lia).
    edestruct IH as (HF & Hr & Hfill); [done|lia|lia|lia|].
    assert (0 <= m * 10 ^ zlen ds) by (apply Z.mul_nonneg_nonneg; lia).
    change (10 ^ 19) with 10000000000000000000 in Hb.
    destruct (_ || _) eqn:Hc; [done|]. injection Hp as Hp.
    rewrite (uwrap64_id (m1 * 10)) in Hp by lia. rewrite uwrap64_id in Hp by lia.
    repeat split; try lia.
    + apply Forall_app. split; [done|]. constructor; [|constructor]. unfold is_digit. lia.
    + rewrite Nat.add_comm. simpl. rewrite fill_digits_app.
      replace ((mag - m * (10 ^ zlen ds * 10)) / 10) with (m1 - m * 10 ^ zlen ds).
      2:{ apply Z.div_unique with (bZ c - 48); lia. }
      rewrite Hfill. f_equal. f_equal.
      replace ((mag - m * (10 ^ zlen ds * 10)) mod 10) with (bZ c - 48).
      2:{ apply Z.mod_unique with (m1 - m * 10 ^ zlen ds); lia. }
      rewrite <- (Zb_bZ c) at 2. f_equal. lia.
Qed.

(** ** The codec *)

Lemma format_mag v : in64 v ->
  formatCounter v = (if v <? 0 then Byte.x2d else Byte.x2b) :: fill_digits 19 (Z.abs v) [].
Proof.
  unfold in64, MinInt64, MaxInt64. intros Hv. unfold formatCounter.
  change (counterWidth - 1)%nat with 19%nat. f_equal. f_equal.
  destruct (Z.ltb_spec v 0); [|rewrite uwrap64_id; lia].
  rewrite (wrap64_id (v + 1)) by (unfold in64, MinInt64, MaxInt64; lia).
  rewrite (wrap64_id (- (v + 1))) by (unfold in64, MinInt64, MaxInt64; lia).
  rewrite (uwrap64_id (- (v + 1))) by lia. rewrite uwrap64_id; lia.
Qed.

Lemma length_formatCounter v : length (formatCounter v) = counterWidth.
Proof. unfold formatCounter. cbn [length]. by rewrite length_fill_digits. Qed.

(** The characters a counter's text is made of. *)
Definition counter_char (b : byte) : bool :=
  is_digit b || bool_decide (b = Byte.x2b) || bool_decide (b = Byte.x2d).

(** The shape [parseCounter] checks before the range: a sign and 19 digits. *)
Definition counter_shape (b : gostring) : bool :=
  match b with
  | s :: ds => (bool_decide (s = Byte.x2b) || bool_decide (s = Byte.x2d))
               && bool_decide (length ds = 19%nat) && forallb is_digit ds
  | [] => false
  end.

Lemma format_shape v : counter_shape (formatCounter v) = true.
Proof.
  unfold formatCounter, counter_shape. rewrite length_fill_digits.
  change (counterWidth - 1)%nat with 19%nat.
  rewrite !andb_true_iff. split; [split|].
  - by destruct (v <? 0).
  - done.
  - apply forallb_forall. apply List.Forall_forall, fill_digits_digits.
Qed.

Lemma parse_neg_value mag : 0 <= mag <= MaxInt64 + 1 ->
  wrap64 (wrap64 (- wrap64 (uwrap64 (mag - 1))) - 1) = - mag.
Proof.
  unfold MaxInt64. intros Hm. destruct (decide (mag = 0)) as [->|]; [done|].
  rewrite uwrap64_id by lia.
  rewrite (wrap64_id (mag - 1)) by (unfold in64, MinInt64, MaxInt64; lia).
  rewrite (wrap64_id (- (mag - 1))) by (unfold in64, MinInt64, MaxInt64; lia).
  rewrite wrap64_id by (unfold in64, MinInt64, MaxInt64; lia). lia.
Qed.

Lemma parse_format v : in64 v -> parseCounter (formatCounter v) = Some v.
Proof.
  intros Hv. pose proof (length_formatCounter v) as Hl. rewrite format_mag in * by done.
  unfold parseCounter. rewrite Hl. simpl negb. unfold in64, MinInt64 in Hv.
  rewrite parse_fill; [|lia|].
  2:{ change (10 ^ Z.of_nat 19) with 10000000000000000000. unfold MaxInt64 in Hv. lia. }
  destruct (Z.ltb_spec v 0); simpl.
  - replace (MaxInt64 + 1 <? Z.abs v) with false by (unfold MaxInt64 in *; lia).
    f_equal. rewrite parse_neg_value; lia || (unfold MaxInt64 in *; lia).
  - replace (MaxInt64 <? Z.abs v) with false by lia.
    rewrite wrap64_id; [f_equal; lia|]. unfold in64, MinInt64. lia.
Qed.

(** Every int64 survives the counter codec: its text is exactly
    [counterWidth] = 20 bytes, a sign character followed by 19 digits, and
    [parseCounter] reads the same number back (including [MinInt64], whose
    negation does not exist in 64 bits). *)
Theorem counter_roundtrip v : in64 v ->
  parseCounter (formatCounter v) = Some v
  /\ length (formatCounter v) = counterWidth
  /\ counter_shape (formatCounter v) = true.
Proof.
  intros Hv. split; [by apply parse_format|].
  split; [apply length_formatCounter | apply format_shape].
Qed.

Lemma counter_roundtrip_witness :
  parseCounter (formatCounter MinInt64) = Some MinInt64
  /\ formatCounter MinInt64 = bs "-9223372036854775808".
Proof. split; [apply (counter_roundtrip MinInt64); by vm_compute | by vm_compute]. Defined.

(** What [parseCounter] accepts. *)
Lemma parse_canonical b v :
  parseCounter b = Some v ->
  in64 v /\ (b = formatCounter v \/ (v = 0 /\ b = Byte.x2d :: replicate 19 Byte.x30)).
Proof.
  destruct b as [|sg ds]; [done|]. unfold parseCounter.
  destruct (bool_decide (length (sg :: ds) = counterWidth)) eqn:Hl; [|done].
  apply bool_decide_eq_true in Hl. simpl in Hl. injection Hl as Hl.
  assert (Hz : zlen ds = 19) by (unfold zlen; lia).
  destruct (_ && _) eqn:Hsg; [done|].
  destruct (parse_mag ds 0) as [mag|] eqn:Hp; [|done].
  apply parse_mag_bound in Hp as (HF & Hr & Hfill); [|lia|lia|rewrite Hz; lia].
  rewrite Z.mul_0_l, Z.sub_0_r, Hl in Hfill. simpl orb. cbv iota.
  destruct (bool_decide (sg = Byte.x2b)) eqn:Hplus.
  - apply bool_decide_eq_true in Hplus as ->.
    destruct (Z.ltb_spec MaxInt64 mag); [done|]. intros [= <-].
    assert (in64 mag) by (unfold in64, MinInt64; lia).
    rewrite wrap64_id by done. split; [done|left]. rewrite format_mag by done.
    replace (mag <? 0) with false by lia. by rewrite Z.abs_eq, Hfill by lia.
  - simpl in Hsg. apply negb_false_iff, bool_decide_eq_true in Hsg as ->.
    destruct (Z.ltb_spec (MaxInt64 + 1) mag); [done|]. intros [= <-].
    rewrite parse_neg_value by lia.
    assert (in64 (- mag)) by (unfold in64, MinInt64, MaxInt64 in *; lia). split; [done|].
    destruct (decide (mag = 0)) as [->|]; [right; split; [done|]; by rewrite <- Hfill|left].
    rewrite format_mag by done. replace (- mag <? 0) with true by lia.
    by rewrite Z.abs_opp, Z.abs_eq, Hfill by lia.
Qed.

(** The codec is canonical up to a signed zero: whatever [parseCounter]
    accepts is an int64 in range, and the accepted text is the one
    [formatCounter] writes, or the text of minus zero. *)
Theorem counter_parse_canonical b v :
  parseCounter b = Some v ->
  in64 v /\ (b = formatCounter v \/ (v = 0 /\ b = Byte.x2d :: replicate 19 Byte.x30)).
Proof. apply parse_canonical. Qed.

Lemma counter_parse_canonical_witness :
  in64 (-42) /\ (bs "-0000000000000000042" = formatCounter (-42)
    \/ (-42 = 0 /\ bs "-0000000000000000042" = Byte.x2d :: replicate 19 Byte.x30)).
Proof. apply counter_parse_canonical. by vm_compute. Defined.

(** A torn in-place write: each byte is the old one or the new one. *)
Definition torn_mix (old new mix : gostring) : Prop :=
  length mix = length old /\
  forall i b, mix !! i = Some b -> old !! i = Some b \/ new !! i = Some b.

Lemma counter_shape_lookup b : counter_shape b = true <->
  length b = counterWidth
  /\ (exists s, b !! 0%nat = Some s /\ (s = Byte.x2b \/ s = Byte.x2d))
  /\ (forall i c, b !! S i = Some c -> is_digit c = true).
Proof.
  destruct b as [|s ds]; simpl.
  - split; [done|]. by intros (? & _).
  - rewrite !andb_true_iff, orb_true_iff, !bool_decide_eq_true, forallb_forall. split.
    + intros [[Hs Hl] Hd]. split; [by rewrite Hl|]. split; [eauto|].
      intros i c Hc. apply Hd, list_elem_of_In. by eapply list_elem_of_lookup_2.
    + intros (Hl & (s' & [= <-] & Hs) & Hd). split; [split; [done|by injection Hl]|].
      intros c [i Hc]%list_elem_of_In%list_elem_of_lookup_1. by eapply Hd.
Qed.

(** A torn in-place counter write is structurally harmless: any byte-wise
    mixture of the old and the new text is again a sign followed by 19 digits
    (it may denote a third number, or one outside the int64 range). *)
Theorem counter_torn_shape v w mix :
  torn_mix (formatCounter v) (formatCounter w) mix -> counter_shape mix = true.
Proof.
  intros [Hl Hmix].
  destruct (proj1 (counter_shape_lookup _) (format_shape v)) as (Hlv & (sv & Hsv & Hv) & Hdv).
  destruct (proj1 (counter_shape_lookup _) (format_shape w)) as (Hlw & (sw & Hsw & Hw) & Hdw).
  apply counter_shape_lookup. split; [congruence|]. split.
  - destruct (lookup_lt_is_Some_2 mix 0) as [s Hs]; [rewrite Hl, Hlv; unfold counterWidth; lia|].
    exists s. split; [done|]. destruct (Hmix _ _ Hs); simplify_eq; auto.
  - intros i c Hc. destruct (Hmix _ _ Hc); eauto.
Qed.

Lemma counter_torn_shape_witness :
  counter_shape (bs "+0999999999999999999") = true.
Proof.
  apply (counter_torn_shape 0 (-999999999999999999)). split; [by vm_compute|].
  intros i b. do 20 (destruct i as [|i]; [vm_compute; by auto|]). by destruct i.
Defined.

(** ** The update steps *)

(** [Incr]'s step is exact: it answers the sum when the sum is an int64
    and [ErrCounterOverflow] otherwise, although the guard itself is computed
    in wrapping 64-bit arithmetic. *)
Lemma incr_step_exact delta cur :
  in64 delta -> in64 cur ->
  incr_step delta cur =
    if decide (in64 (cur + delta)) then Ok (cur + delta, true) else Err ErrCounterOverflow.
Proof.
  intros Hd Hc. unfold incr_step.
  assert (Hg : ((0 <? delta) && (wrap64 (MaxInt64 - delta) <? cur))
     || ((delta <? 0) && (cur <? wrap64 (MinInt64 - delta))) = negb (bool_decide (in64 (cur + delta)))).
  { unfold in64, MinInt64, MaxInt64 in *.
    destruct (Z.ltb_spec 0 delta), (Z.ltb_spec delta 0); try lia; simpl.
    - rewrite wrap64_id by (unfold in64, MinInt64, MaxInt64; lia).
      rewrite orb_false_r. case_bool_decide; lia.
    - rewrite wrap64_id by (unfold in64, MinInt64, MaxInt64; lia). case_bool_decide; lia.
    - case_bool_decide; lia. }
  rewrite Hg. case_bool_decide; case_decide; try done. simpl. by rewrite wrap64_id.
Qed.

Lemma topup_applied_clamp amount max cur :
  0 <= amount <= MaxInt64 -> in64 max -> in64 cur ->
  topup_applied amount max cur = Z.max 0 (Z.min amount (max - cur)).
Proof.
  unfold in64, MinInt64, MaxInt64. intros Ha Hm Hc. unfold topup_applied, MaxInt64.
  destruct (Z.leb_spec max cur); [lia|].
  rewrite (wrap64_id (2 ^ 63 - 1 - amount)) by (unfold in64, MinInt64, MaxInt64; lia).
  destruct (Z.ltb_spec (2 ^ 63 - 1 - amount) cur); simpl.
  - rewrite wrap64_id; [lia|]. unfold in64, MinInt64, MaxInt64. lia.
  - rewrite (wrap64_id (cur + amount)) by (unfold in64, MinInt64, MaxInt64; lia).
    destruct (Z.ltb_spec max (cur + amount)); [|lia].
    rewrite wrap64_id; [lia|]. unfold in64, MinInt64, MaxInt64. lia.
Qed.

(** [Topup] clamps exactly: what is applied is the part of [amount] that
    fits under [max] (nothing when the counter is already there), the reported
    overflow is the rest, the new value never leaves int64, never passes [max],
    and a step that adds nothing declines to write. *)
Lemma topup_step_clamps amount max cur :
  0 <= amount <= MaxInt64 -> in64 max -> in64 cur ->
  let applied := Z.max 0 (Z.min amount (max - cur)) in
  topup_overflow amount max cur = amount - applied
  /\ topup_step amount max cur =
       (if decide (applied = 0) then Ok (0, false) else Ok (cur + applied, true))
  /\ in64 (cur + applied) /\ cur + applied <= Z.max cur max.
Proof.
  intros Ha Hm Hc applied. unfold topup_overflow, topup_step.
  rewrite topup_applied_clamp by done. fold applied.
  assert (in64 (cur + applied)) by (unfold in64, MinInt64, MaxInt64 in *; lia).
  split; [apply wrap64_id; unfold in64, MinInt64, MaxInt64 in *; lia|].
  split; [|split; [done|lia]].
  rewrite wrap64_id by done. case_decide; destruct (Z.eqb_spec applied 0); done || lia.
Qed.

(** [Take] is all-or-nothing: it subtracts exactly when the difference
    stays at or above [left]; a difference below the int64 range is refused,
    never wrapped. *)
Lemma take_step_guard amount left cur :
  0 <= amount <= MaxInt64 -> in64 left -> in64 cur ->
  take_step amount left cur =
    if decide (left <= cur - amount) then Ok (cur - amount, true) else Ok (0, false).
Proof.
  unfold in64, MinInt64, MaxInt64. intros Ha Hl Hc. unfold take_step, MinInt64.
  rewrite wrap64_id by (unfold in64, MinInt64, MaxInt64; lia).
  destruct (Z.ltb_spec cur (- 2 ^ 63 + amount)); [case_decide; [lia|done]|].
  rewrite wrap64_id by (unfold in64, MinInt64, MaxInt64; lia).
  destruct (Z.ltb_spec (cur - amount) left); case_decide; done || lia.
Qed.
