(* ===== verification/Json.v ===== *)
(** * UTF-8 and JSON text

    What the store uses of Go's [unicode/utf8] and [encoding/json]: the
    validity test, the string escaping of [json.Marshal] (HTML-escaping on),
    and the decoder of [json.Unmarshal] on an arbitrary line.  A value is
    printed from, and parsed into, a syntax tree; the struct mapping of each
    record type is in the component that declares it. *)

From S2P Require Import Prelude Floats.
#[local] Open Scope Z_scope.
#[local] Set Warnings "-register-all".

(** ** UTF-8 *)

Definition cont (b : byte) : bool := (128 <=? bZ b) && (bZ b <=? 191).
Definition within (b : byte) (lo hi : Z) : bool := (lo <=? bZ b) && (bZ b <=? hi).

Definition is2 (a b : byte) : bool := within a 194 223 && cont b.

Definition is3 (a b c : byte) : bool :=
  (if bZ a =? 224 then within b 160 191
   else if bZ a =? 237 then within b 128 159
   else within a 225 239 && cont b) && cont c.

Definition is4 (a b c d : byte) : bool :=
  (if bZ a =? 240 then within b 144 191
   else if bZ a =? 244 then within b 128 143
   else within a 241 243 && cont b) && cont c && cont d.

(** [utf8.Valid]. *)
Fixpoint utf8_valid (s : gostring) : bool :=
  match s with
  | [] => true
  | a :: s1 =>
      if bZ a <? 128 then utf8_valid s1
      else match s1 with
           | b :: s2 =>
               if is2 a b then utf8_valid s2
               else match s2 with
                    | c :: s3 =>
                        if is3 a b c then utf8_valid s3
                        else match s3 with
                             | d :: s4 => is4 a b c d && utf8_valid s4
                             | [] => false
                             end
                    | [] => false
                    end
           | [] => false
           end
  end.

(** [utf8.EncodeRune]; surrogates and numbers past U+10FFFF give U+FFFD. *)
Definition encode_rune (r : Z) : gostring :=
  if r <? 128 then [Zb r]
  else if r <? 2048 then [Zb (192 + r / 64); Zb (128 + r mod 64)]
  else if ((55296 <=? r) && (r <=? 57343)) || (1114111 <? r)
  then [Byte.xef; Byte.xbf; Byte.xbd]
  else if r <? 65536 then [Zb (224 + r / 4096); Zb (128 + r / 64 mod 64); Zb (128 + r mod 64)]
  else [Zb (240 + r / 262144); Zb (128 + r / 4096 mod 64); Zb (128 + r / 64 mod 64); Zb (128 + r mod 64)].

(** ** String escaping *)

Definition hex_digit (n : Z) : byte := if n <? 10 then Zb (48 + n) else Zb (87 + n).

(** The escape of an ASCII byte; ['<'], ['>'] and ['&'] are escaped too. *)
Definition esc_ascii (a : byte) : gostring :=
  let n := bZ a in
  if (n =? 34) || (n =? 92) then [Byte.x5c; a]
  else if n =? 8 then [Byte.x5c; Byte.x62]
  else if n =? 12 then [Byte.x5c; Byte.x66]
  else if n =? 10 then [Byte.x5c; Byte.x6e]
  else if n =? 13 then [Byte.x5c; Byte.x72]
  else if n =? 9 then [Byte.x5c; Byte.x74]
  else if (n <? 32) || (n =? 60) || (n =? 62) || (n =? 38)
  then bs "\u00" ++ [hex_digit (n / 16); hex_digit (n mod 16)]
  else [a].

(** A three-byte sequence is copied, except U+2028 and U+2029. *)
Definition esc3 (a b c : byte) : gostring :=
  if (bZ a =? 226) && (bZ b =? 128) && ((bZ c =? 168) || (bZ c =? 169))
  then bs "\u202" ++ [hex_digit (bZ c - 160)]
  else [a; b; c].

(** Invalid UTF-8 becomes the escape of U+FFFD, one byte at a time. *)
Fixpoint escape (s : gostring) : gostring :=
  match s with
  | [] => []
  | a :: s1 =>
      if bZ a <? 128 then esc_ascii a ++ escape s1
      else match s1 with
           | b :: s2 =>
               if is2 a b then [a; b] ++ escape s2
               else match s2 with
                    | c :: s3 =>
                        if is3 a b c then esc3 a b c ++ escape s3
                        else match s3 with
                             | d :: s4 => if is4 a b c d then [a; b; c; d] ++ escape s4
                                          else bs "\ufffd" ++ escape s1
                             | [] => bs "\ufffd" ++ escape s1
                             end
                    | [] => bs "\ufffd" ++ escape s1
                    end
           | [] => bs "\ufffd" ++ escape s1
           end
  end.

Definition quote (s : gostring) : gostring := [Byte.x22] ++ escape s ++ [Byte.x22].

(** ** String decoding *)

Definition hex_val (b : byte) : option Z :=
  let n := bZ b in
  if (48 <=? n) && (n <=? 57) then Some (n - 48)
  else if (97 <=? n) && (n <=? 102) then Some (n - 87)
  else if (65 <=? n) && (n <=? 70) then Some (n - 55)
  else None.

Definition hex4 (a b c d : byte) : option Z :=
  match hex_val a, hex_val b, hex_val c, hex_val d with
  | Some x, Some y, Some z, Some w => Some (x * 4096 + y * 256 + z * 16 + w)
  | _, _, _, _ => None
  end.

(** One step through the body of a string literal: its end, a decoded chunk,
    or a syntax error. *)
Inductive ustep :=
  | UEnd (rest : gostring)
  | UOut (out rest : gostring)
  | UErr.

Definition surrogate (r : Z) : bool := (55296 <=? r) && (r <=? 57343).

(** After [\uXXXX] with value [r]: a high surrogate followed by an escaped low
    one is combined, any other surrogate decodes to U+FFFD. *)
Definition u_escape (r : Z) (rest : gostring) : ustep :=
  if surrogate r then
    match rest with
    | x :: y :: a :: b :: c :: d :: rest' =>
        match hex4 a b c d with
        | Some r2 =>
            if bool_decide (x = Byte.x5c) && bool_decide (y = Byte.x75)
               && (r <? 56320) && (56320 <=? r2) && (r2 <=? 57343)
            then UOut (encode_rune ((r - 55296) * 1024 + (r2 - 56320) + 65536)) rest'
            else UOut [Byte.xef; Byte.xbf; Byte.xbd] rest
        | None => UOut [Byte.xef; Byte.xbf; Byte.xbd] rest
        end
    | _ => UOut [Byte.xef; Byte.xbf; Byte.xbd] rest
    end
  else UOut (encode_rune r) rest.

Definition unq_escape (s : gostring) : ustep :=
  match s with
  | e :: r =>
      let n := bZ e in
      if (n =? 34) || (n =? 92) || (n =? 47) then UOut [e] r
      else if n =? 98 then UOut [Byte.x08] r
      else if n =? 102 then UOut [Byte.x0c] r
      else if n =? 110 then UOut [Byte.x0a] r
      else if n =? 114 then UOut [Byte.x0d] r
      else if n =? 116 then UOut [Byte.x09] r
      else if n =? 117 then
        match r with
        | a :: b :: c :: d :: r' =>
            match hex4 a b c d with
            | Some v => u_escape v r'
            | None => UErr
            end
        | _ => UErr
        end
      else UErr
  | [] => UErr
  end.

Definition unq_step (s : gostring) : ustep :=
  match s with
  | [] => UErr
  | a :: s1 =>
      let n := bZ a in
      if n =? 34 then UEnd s1
      else if n =? 92 then unq_escape s1
      else if n <? 32 then UErr
      else if n <? 128 then UOut [a] s1
      else
        let bad := UOut [Byte.xef; Byte.xbf; Byte.xbd] s1 in
        match s1 with
        | b :: s2 =>
            if is2 a b then UOut [a; b] s2
            else match s2 with
                 | c :: s3 =>
                     if is3 a b c then UOut [a; b; c] s3
                     else match s3 with
                          | d :: s4 => if is4 a b c d then UOut [a; b; c; d] s4 else bad
                          | [] => bad
                          end
                 | [] => bad
                 end
        | [] => bad
        end
  end.

(** The body of a string literal, after its opening quote. *)
Fixpoint unquote (fuel : nat) (s : gostring) : option (gostring * gostring) :=
  match fuel with
  | O => None
  | S f =>
      match unq_step s with
      | UEnd r => Some ([], r)
      | UOut o r => match unquote f r with
                    | Some (o', r') => Some (o ++ o', r')
                    | None => None
                    end
      | UErr => None
      end
  end.

(** ** Syntax trees, printing and parsing *)

Inductive json :=
  | JNull
  | JBool (b : bool)
  | JNum (lit : gostring)
  | JStr (s : gostring)
  | JArr (l : list json)
  | JObj (l : list (gostring * json)).

Definition comma : gostring := [Byte.x2c].

(** Elements separated by commas. *)
Fixpoint join (l : list gostring) : gostring :=
  match l with
  | [] => []
  | [x] => x
  | x :: l' => x ++ comma ++ join l'
  end.

Fixpoint print (j : json) : gostring :=
  match j with
  | JNull => bs "null"
  | JBool true => bs "true"
  | JBool false => bs "false"
  | JNum lit => lit
  | JStr s => quote s
  | JArr l => bs "[" ++ join (List.map print l) ++ bs "]"
  | JObj l => bs "{" ++ join (List.map (fun kv => quote (fst kv) ++ bs ":" ++ print (snd kv)) l) ++ bs "}"
  end.

Definition is_ws (b : byte) : bool :=
  (bZ b =? 32) || (bZ b =? 9) || (bZ b =? 10) || (bZ b =? 13).

Fixpoint skip_ws (s : gostring) : gostring :=
  match s with
  | b :: s' => if is_ws b then skip_ws s' else s
  | [] => []
  end.

(** A number of the JSON grammar at the start of [s]: its text and the rest. *)
Definition scan_int (s : gostring) : option (gostring * gostring) :=
  match s with
  | b :: r => if bZ b =? 48 then Some ([b], r)
              else if is_digit b then Some (span_digits s) else None
  | [] => None
  end.

Definition scan_fraction (s : gostring) : option (gostring * gostring) :=
  match s with
  | b :: r =>
      if bZ b =? 46 then
        match span_digits r with
        | ([], _) => None
        | (ds, r') => Some (b :: ds, r')
        end
      else Some ([], s)
  | [] => Some ([], [])
  end.

Definition scan_sign (s : gostring) : gostring * gostring :=
  match s with
  | b :: r => if (bZ b =? 43) || (bZ b =? 45) then ([b], r) else ([], s)
  | [] => ([], [])
  end.

Definition scan_exponent (s : gostring) : option (gostring * gostring) :=
  match s with
  | b :: r =>
      if (bZ b =? 101) || (bZ b =? 69) then
        let '(sg, r1) := scan_sign r in
        match span_digits r1 with
        | ([], _) => None
        | (ds, r') => Some (b :: sg ++ ds, r')
        end
      else Some ([], s)
  | [] => Some ([], [])
  end.

Definition scan_number (s : gostring) : option (gostring * gostring) :=
  let '(neg, s0) := match s with
                    | b :: r => if bZ b =? 45 then ([b], r) else ([], s)
                    | [] => ([], [])
                    end in
  match scan_int s0 with
  | None => None
  | Some (ip, s1) =>
      match scan_fraction s1 with
      | None => None
      | Some (fp, s2) =>
          match scan_exponent s2 with
          | None => None
          | Some (ep, s3) => Some (neg ++ ip ++ fp ++ ep, s3)
          end
      end
  end.

(** The text of exactly one JSON number. *)
Definition is_json_number (lit : gostring) : bool :=
  match scan_number lit with
  | Some (l, []) => bool_decide (l = lit)
  | _ => false
  end.

(** Nesting beyond this depth is refused, as [encoding/json] does. *)
Definition maxNestingDepth : N := 10000.

Fixpoint parse_value (fuel : nat) (depth : N) (s : gostring) : option (json * gostring) :=
  match fuel with
  | O => None
  | S f =>
      match skip_ws s with
      | [] => None
      | b :: r =>
          let n := bZ b in
          if n =? 123 then
            if (depth =? 0)%N then None
            else match skip_ws r with
                 | b2 :: r2 =>
                     if bZ b2 =? 125 then Some (JObj [], r2)
                     else match parse_members f (N.pred depth) r with
                          | Some (l, r') => Some (JObj l, r')
                          | None => None
                          end
                 | [] => None
                 end
          else if n =? 91 then
            if (depth =? 0)%N then None
            else match skip_ws r with
                 | b2 :: r2 =>
                     if bZ b2 =? 93 then Some (JArr [], r2)
                     else match parse_elems f (N.pred depth) r with
                          | Some (l, r') => Some (JArr l, r')
                          | None => None
                          end
                 | [] => None
                 end
          else if n =? 34 then
            match unquote (S (length r)) r with
            | Some (str, r') => Some (JStr str, r')
            | None => None
            end
          else if has_prefix (bs "null") (b :: r) then Some (JNull, drop 4 (b :: r))
          else if has_prefix (bs "true") (b :: r) then Some (JBool true, drop 4 (b :: r))
          else if has_prefix (bs "false") (b :: r) then Some (JBool false, drop 5 (b :: r))
          else match scan_number (b :: r) with
               | Some (lit, r') => Some (JNum lit, r')
               | None => None
               end
      end
  end
with parse_members (fuel : nat) (depth : N) (s : gostring)
    : option (list (gostring * json) * gostring) :=
  match fuel with
  | O => None
  | S f =>
      match skip_ws s with
      | q :: r =>
          if bZ q =? 34 then
            match unquote (S (length r)) r with
            | Some (k, r1) =>
                match skip_ws r1 with
                | c :: r2 =>
                    if bZ c =? 58 then
                      match parse_value f depth r2 with
                      | Some (v, r3) =>
                          match skip_ws r3 with
                          | e :: r4 =>
                              if bZ e =? 125 then Some ([(k, v)], r4)
                              else if bZ e =? 44 then
                                match parse_members f depth r4 with
                                | Some (l, r5) => Some ((k, v) :: l, r5)
                                | None => None
                                end
                              else None
                          | [] => None
                          end
                      | None => None
                      end
                    else None
                | [] => None
                end
            | None => None
            end
          else None
      | [] => None
      end
  end
with parse_elems (fuel : nat) (depth : N) (s : gostring) : option (list json * gostring) :=
  match fuel with
  | O => None
  | S f =>
      match parse_value f depth s with
      | Some (v, r) =>
          match skip_ws r with
          | e :: r1 =>
              if bZ e =? 93 then Some ([v], r1)
              else if bZ e =? 44 then
                match parse_elems f depth r1 with
                | Some (l, r2) => Some (v :: l, r2)
                | None => None
                end
              else None
          | [] => None
          end
      | None => None
      end
  end.

(** The syntax half of [json.Unmarshal]: one value and nothing after it. *)
Definition json_parse (s : gostring) : option json :=
  match parse_value (2 * length s + 2) maxNestingDepth s with
  | Some (j, r) => match skip_ws r with [] => Some j | _ => None end
  | None => None
  end.

(** ** Induction over valid UTF-8, one encoded character at a time *)

Lemma is3_lead a b c : is3 a b c = true -> 224 <= bZ a <= 239.
Proof. unfold is3, within. destruct (Z.eqb_spec (bZ a) 224), (Z.eqb_spec (bZ a) 237); lia. Qed.

Lemma is4_lead a b c d : is4 a b c d = true -> 240 <= bZ a <= 244.
Proof. unfold is4, within. destruct (Z.eqb_spec (bZ a) 240), (Z.eqb_spec (bZ a) 244); lia. Qed.

Lemma is2_lead a b : is2 a b = true -> 194 <= bZ a <= 223.
Proof. unfold is2, within. lia. Qed.

Lemma utf8_ind (P : gostring -> Prop) :
  P [] ->
  (forall a s, bZ a < 128 -> utf8_valid s = true -> P s -> P (a :: s)) ->
  (forall a b s, is2 a b = true -> utf8_valid s = true -> P s -> P (a :: b :: s)) ->
  (forall a b c s, is3 a b c = true -> utf8_valid s = true -> P s -> P (a :: b :: c :: s)) ->
  (forall a b c d s, is4 a b c d = true -> utf8_valid s = true -> P s -> P (a :: b :: c :: d :: s)) ->
  forall s, utf8_valid s = true -> P s.
Proof.
  intros H0 H1 H2 H3 H4 s. remember (length s) as n eqn:Hn.
  revert s Hn. induction (lt_wf n) as [n _ IH]. intros s -> Hv.
  assert (IH' : forall t, (length t < length s)%nat -> utf8_valid t = true -> P t) by eauto.
  clear IH. destruct s as [|a s1]; [done|]. simpl in Hv.
  destruct (Z.ltb_spec (bZ a) 128).
  { apply H1; [lia|done|]. apply IH'; [simpl; lia|done]. }
  destruct s1 as [|b s2]; [done|]. destruct (is2 a b) eqn:E2.
  { apply H2; [done..|]. apply IH'; [simpl; lia|done]. }
  destruct s2 as [|c s3]; [done|]. destruct (is3 a b c) eqn:E3.
  { apply H3; [done..|]. apply IH'; [simpl; lia|done]. }
  destruct s3 as [|d s4]; [done|]. apply andb_true_iff in Hv as [E4 Hv].
  apply H4; [done..|]. apply IH'; [simpl; lia|done].
Qed.

(** ** Escaping and unescaping are inverse on valid UTF-8 *)

Lemma esc_ascii_step a t : bZ a < 128 -> unq_step (esc_ascii a ++ t) = UOut [a] t.
Proof. intros H. destruct a; solve [reflexivity | by vm_compute in H]. Qed.

Lemma esc3_step a b c t : is3 a b c = true -> unq_step (esc3 a b c ++ t) = UOut [a; b; c] t.
Proof.
  intros H. pose proof (is3_lead _ _ _ H) as Hl. unfold esc3.
  destruct (_ && _) eqn:Hsp.
  - assert (Ha : a = Byte.xe2) by (apply bZ_inj; change (bZ Byte.xe2) with 226; lia).
    assert (Hb : b = Byte.x80) by (apply bZ_inj; change (bZ Byte.x80) with 128; lia).
    assert (Hc : c = Byte.xa8 \/ c = Byte.xa9).
    { destruct (Z.eqb_spec (bZ c) 168); [left|right]; apply bZ_inj;
        [change (bZ Byte.xa8) with 168 | change (bZ Byte.xa9) with 169]; lia. }
    subst. destruct Hc; subst; reflexivity.
  - assert (is2 a b = false) as E2 by (unfold is2, within; lia).
    simpl app. unfold unq_step. rewrite E2, H.
    replace (bZ a =? 34) with false by lia. replace (bZ a =? 92) with false by lia.
    replace (bZ a <? 32) with false by lia. by replace (bZ a <? 128) with false by lia.
Qed.

Lemma raw2_step a b t : is2 a b = true -> unq_step ([a; b] ++ t) = UOut [a; b] t.
Proof.
  intros H. pose proof (is2_lead _ _ H). simpl app. unfold unq_step. rewrite H.
  replace (bZ a =? 34) with false by lia. replace (bZ a =? 92) with false by lia.
  replace (bZ a <? 32) with false by lia. by replace (bZ a <? 128) with false by lia.
Qed.

Lemma raw4_step a b c d t : is4 a b c d = true -> unq_step ([a; b; c; d] ++ t) = UOut [a; b; c; d] t.
Proof.
  intros H. pose proof (is4_lead _ _ _ _ H). simpl app. unfold unq_step.
  assert (is2 a b = false) as -> by (unfold is2, within; lia).
  assert (is3 a b c = false) as ->.
  { unfold is3, within. replace (bZ a =? 224) with false by lia.
    replace (bZ a =? 237) with false by lia. lia. }
  rewrite H.
  replace (bZ a =? 34) with false by lia. replace (bZ a =? 92) with false by lia.
  replace (bZ a <? 32) with false by lia. by replace (bZ a <? 128) with false by lia.
Qed.

Lemma escape1 a s : bZ a < 128 -> escape (a :: s) = esc_ascii a ++ escape s.
Proof. intros. simpl. by replace (bZ a <? 128) with true by lia. Qed.

Lemma escape2 a b s : is2 a b = true -> escape (a :: b :: s) = [a; b] ++ escape s.
Proof.
  intros H. pose proof (is2_lead _ _ H). cbn [escape].
  replace (bZ a <? 128) with false by lia. by rewrite H.
Qed.

Lemma escape3 a b c s : is3 a b c = true -> escape (a :: b :: c :: s) = esc3 a b c ++ escape s.
Proof.
  intros H. pose proof (is3_lead _ _ _ H). cbn [escape].
  replace (bZ a <? 128) with false by lia.
  assert (is2 a b = false) as -> by (unfold is2, within; lia). by rewrite H.
Qed.

Lemma escape4 a b c d s : is4 a b c d = true -> escape (a :: b :: c :: d :: s) = [a; b; c; d] ++ escape s.
Proof.
  intros H. pose proof (is4_lead _ _ _ _ H). cbn [escape].
  replace (bZ a <? 128) with false by lia.
  assert (is2 a b = false) as -> by (unfold is2, within; lia).
  assert (is3 a b c = false) as ->.
  { unfold is3, within. replace (bZ a =? 224) with false by lia.
    replace (bZ a =? 237) with false by lia. lia. }
  by rewrite H.
Qed.

Lemma unquote_step fuel u o t res r :
  unq_step (u ++ t) = UOut o t -> unquote fuel t = Some (res, r) ->
  unquote (S fuel) (u ++ t) = Some (o ++ res, r).
Proof. intros H1 H2. simpl. by rewrite H1, H2. Qed.

Lemma esc_ascii_nonempty a : (0 < length (esc_ascii a))%nat.
Proof. destruct a; vm_compute; lia. Qed.

Lemma esc3_nonempty a b c : (0 < length (esc3 a b c))%nat.
Proof. unfold esc3. destruct (_ && _); simpl; lia. Qed.

Lemma unquote_escape s : utf8_valid s = true -> forall fuel rest,
  (length (escape s) < fuel)%nat ->
  unquote fuel (escape s ++ Byte.x22 :: rest) = Some (s, rest).
Proof.
  revert s. refine (utf8_ind _ _ _ _ _ _);
    [|intros a s Ha Hv IH|intros a b s Hab Hv IH|intros a b c s Habc Hv IH
     |intros a b c d s Habcd Hv IH]; intros fuel rest Hf;
    [|rewrite escape1 in * by done|rewrite escape2 in * by done
     |rewrite escape3 in * by done|rewrite escape4 in * by done];
    (destruct fuel as [|fuel]; [simpl in Hf; lia|]); [done|..];
    rewrite <- app_assoc; rewrite length_app in Hf.
  - pose proof (esc_ascii_nonempty a).
    apply (unquote_step _ _ [a]); [by apply esc_ascii_step | apply IH; lia].
  - simpl length in Hf.
    apply (unquote_step _ _ [a; b]); [by apply raw2_step | apply IH; lia].
  - pose proof (esc3_nonempty a b c).
    apply (unquote_step _ _ [a; b; c]); [by apply esc3_step | apply IH; lia].
  - simpl length in Hf.
    apply (unquote_step _ _ [a; b; c; d]); [by apply raw4_step | apply IH; lia].
Qed.

(** ** Printing and parsing are inverse *)

(** Trees whose text is faithful: valid UTF-8 in strings and field names,
    and number literals of the JSON grammar. *)
Fixpoint json_ok (j : json) : bool :=
  match j with
  | JNull | JBool _ => true
  | JNum lit => is_json_number lit
  | JStr s => utf8_valid s
  | JArr l => forallb json_ok l
  | JObj l => forallb (fun kv => utf8_valid (fst kv) && json_ok (snd kv)) l
  end.

Fixpoint json_depth (j : json) : N :=
  match j with
  | JArr l => 1 + fold_right (fun x d => N.max (json_depth x) d) 0%N l
  | JObj l => 1 + fold_right (fun kv d => N.max (json_depth (snd kv)) d) 0%N l
  | _ => 0
  end%N.

Fixpoint json_ind' (P : json -> Prop)
  (H0 : P JNull) (H1 : forall b, P (JBool b)) (H2 : forall l, P (JNum l)) (H3 : forall s, P (JStr s))
  (H4 : forall l, Forall P l -> P (JArr l))
  (H5 : forall l, Forall (fun kv => P (snd kv)) l -> P (JObj l)) (j : json) : P j :=
  match j with
  | JNull => H0
  | JBool b => H1 b
  | JNum l => H2 l
  | JStr s => H3 s
  | JArr l => H4 l ((fix go (l : list json) : Forall P l :=
      match l with
      | [] => @List.Forall_nil _ P
      | x :: l' => @List.Forall_cons _ P x l' (json_ind' P H0 H1 H2 H3 H4 H5 x) (go l')
      end) l)
  | JObj l => H5 l ((fix go (l : list (gostring * json)) : Forall (fun kv => P (snd kv)) l :=
      match l with
      | [] => @List.Forall_nil _ _
      | x :: l' => @List.Forall_cons _ _ x l' (json_ind' P H0 H1 H2 H3 H4 H5 (snd x)) (go l')
      end) l)
  end.

(** A byte that cannot continue a number. *)
Definition num_stop (rest : gostring) : Prop :=
  match rest with
  | [] => True
  | b :: _ => bZ b = 44 \/ bZ b = 125 \/ bZ b = 93
  end.

Lemma span_digits_stop ds rest :
  span_digits ds = (ds, []) -> num_stop rest -> span_digits (ds ++ rest) = (ds, rest).
Proof.
  induction ds as [|b ds IH]; simpl.
  - intros _ Hr. destruct rest as [|c rest]; [done|]. simpl in *.
    unfold is_digit. by replace ((48 <=? bZ c) && (bZ c <=? 57)) with false by lia.
  - destruct (is_digit b); [|done]. destruct (span_digits ds) as [d r] eqn:E.
    intros [= -> ->] Hr. by rewrite IH.
Qed.

Lemma span_digits_app s d r : span_digits s = (d, r) -> s = d ++ r /\ span_digits d = (d, []).
Proof.
  revert d r. induction s as [|b s IH]; simpl; intros d r.
  - by intros [= <- <-].
  - destruct (is_digit b) eqn:Hb.
    + destruct (span_digits s) as [d' r'] eqn:E. intros [= <- <-].
      destruct (IH d' r') as [-> Hd]; [done|]. simpl. by rewrite Hb, Hd.
    + by intros [= <- <-].
Qed.

(** The scanners consume a prefix, and stop where a number cannot go on. *)
Lemma span_digits_ext s d r rest :
  span_digits s = (d, r) -> num_stop rest -> span_digits (s ++ rest) = (d, r ++ rest).
Proof.
  revert d r. induction s as [|b s IH]; intros d r; simpl.
  - intros [= <- <-] Hr. by apply (span_digits_stop []).
  - destruct (is_digit b).
    + destruct (span_digits s) as [d' r'] eqn:E. intros [= <- <-] Hr. by rewrite (IH d' r').
    + by intros [= <- <-].
Qed.

Lemma scan_fraction_ext s f r rest :
  scan_fraction s = Some (f, r) -> num_stop rest -> scan_fraction (s ++ rest) = Some (f, r ++ rest).
Proof.
  intros H Hr. destruct s as [|b s]; simpl in *.
  - injection H as <- <-. destruct rest as [|c rest]; [done|]. simpl in *.
    by replace (bZ c =? 46) with false by lia.
  - destruct (bZ b =? 46); [|by injection H as <- <-].
    destruct (span_digits s) as [[|x d] r'] eqn:E; [done|]. injection H as <- <-.
    by rewrite (span_digits_ext _ _ _ _ E).
Qed.

Lemma scan_exponent_ext s f r rest :
  scan_exponent s = Some (f, r) -> num_stop rest -> scan_exponent (s ++ rest) = Some (f, r ++ rest).
Proof.
  intros H Hr. destruct s as [|b s]; simpl in *.
  - injection H as <- <-. destruct rest as [|c rest]; [done|]. simpl in *.
    by replace ((bZ c =? 101) || (bZ c =? 69)) with false by lia.
  - destruct ((bZ b =? 101) || (bZ b =? 69)); [|by injection H as <- <-].
    destruct s as [|c s]; simpl in *; [done|].
    destruct ((bZ c =? 43) || (bZ c =? 45)).
    + destruct (span_digits s) as [[|x d] r'] eqn:E; [done|]. injection H as <- <-.
      by rewrite (span_digits_ext _ _ _ _ E).
    + destruct (span_digits (c :: s)) as [[|x d] r'] eqn:E; [done|]. injection H as <- <-.
      change (c :: s ++ rest) with ((c :: s) ++ rest). by rewrite (span_digits_ext _ _ _ _ E).
Qed.

Lemma scan_int_ext s f r rest :
  scan_int s = Some (f, r) -> num_stop rest -> scan_int (s ++ rest) = Some (f, r ++ rest).
Proof.
  intros H Hr. destruct s as [|b s]; [done|]. cbn [scan_int app] in *.
  destruct (bZ b =? 48); [by injection H as <- <-|].
  destruct (is_digit b) eqn:Hb; [|done]. injection H as H.
  change (b :: s ++ rest) with ((b :: s) ++ rest). by rewrite (span_digits_ext (b :: s) f r rest).
Qed.

Lemma scan_number_stop lit rest :
  is_json_number lit = true -> num_stop rest -> scan_number (lit ++ rest) = Some (lit, rest).
Proof.
  unfold is_json_number. intros H Hr.
  destruct (scan_number lit) as [[l [|x r]]|] eqn:E; [|done..].
  apply bool_decide_eq_true in H as ->. revert E. unfold scan_number.
  destruct lit as [|b lit]; [done|]. cbn [app].
  set (neg := if bZ b =? 45 then ([b], lit) else ([], b :: lit)).
  assert (Hneg : (if bZ b =? 45 then ([b], lit ++ rest) else ([], b :: lit ++ rest))
                 = (neg.1, neg.2 ++ rest)) by (unfold neg; by destruct (bZ b =? 45)).
  rewrite Hneg. destruct neg as [ng s0]. clear Hneg. cbn [fst snd].
  destruct (scan_int s0) as [[ip s1]|] eqn:E1; [|done]. rewrite (scan_int_ext _ _ _ _ E1 Hr).
  destruct (scan_fraction s1) as [[fp s2]|] eqn:E2; [|done]. rewrite (scan_fraction_ext _ _ _ _ E2 Hr).
  destruct (scan_exponent s2) as [[ep s3]|] eqn:E3; [|done]. rewrite (scan_exponent_ext _ _ _ _ E3 Hr).
  by intros [= <- ->].
Qed.

Lemma json_number_head lit : is_json_number lit = true ->
  exists b t, lit = b :: t /\ (bZ b = 45 \/ 48 <= bZ b <= 57).
Proof.
  unfold is_json_number. destruct lit as [|b t]; [done|]. intros H. exists b, t.
  split; [done|]. unfold scan_number in H.
  destruct (Z.eqb_spec (bZ b) 45); [by left|]. right. cbn [scan_int] in H.
  destruct (Z.eqb_spec (bZ b) 48); [lia|].
  destruct (is_digit b) eqn:Hd; [|done]. unfold is_digit in Hd. lia.
Qed.

Lemma skip_ws_head b t : is_ws b = false -> skip_ws (b :: t) = b :: t.
Proof. simpl. by intros ->. Qed.

Lemma print_head j : json_ok j = true ->
  exists b t, print j = b :: t /\ is_ws b = false /\ bZ b <> 93.
Proof.
  destruct j as [|[]|lit|s|l|l]; intros H; try by eexists _, _.
  destruct (json_number_head lit H) as (b & t & -> & Hb). exists b, t.
  unfold is_ws. repeat split; lia.
Qed.

Lemma print_head_app j rest : json_ok j = true ->
  skip_ws (print j ++ rest) = print j ++ rest.
Proof. intros (b & t & -> & Hb & _)%print_head. by apply skip_ws_head. Qed.

Definition member (kv : gostring * json) : gostring := quote (fst kv) ++ bs ":" ++ print (snd kv).

(** What the induction proves of one value. *)
Definition parses (j : json) : Prop := forall f d rest,
  json_ok j = true -> (2 * length (print j) <= f)%nat -> (json_depth j <= d)%N -> num_stop rest ->
  parse_value f d (print j ++ rest) = Some (j, rest).

Lemma unquote_quote s rest : utf8_valid s = true ->
  unquote (S (length (escape s ++ Byte.x22 :: rest))) (escape s ++ Byte.x22 :: rest) = Some (s, rest).
Proof. intros. apply unquote_escape; [done|]. rewrite length_app. lia. Qed.

Lemma parse_member f d k v rest : parses v ->
  utf8_valid k = true -> json_ok v = true ->
  (2 * length (print v) <= f)%nat -> (json_depth v <= d)%N -> num_stop rest -> rest <> [] ->
  parse_members (S f) d (member (k, v) ++ rest) =
    match skip_ws rest with
    | e :: r4 =>
        if bZ e =? 125 then Some ([(k, v)], r4)
        else if bZ e =? 44 then
          match parse_members f d r4 with
          | Some (l, r5) => Some ((k, v) :: l, r5)
          | None => None
          end
        else None
    | [] => None
    end.
Proof.
  intros Hv Hk Hok Hf Hd Hr Hne. unfold member. cbn [fst snd].
  unfold quote. rewrite <- !app_assoc. cbn [app].
  cbn [parse_members]. rewrite (skip_ws_head Byte.x22) by done.
  change (bZ Byte.x22 =? 34) with true. cbv iota.
  rewrite unquote_quote by done. change (bs ":" ++ ?x) with (Byte.x3a :: x).
  rewrite (skip_ws_head Byte.x3a) by done. change (bZ Byte.x3a =? 58) with true. cbv iota.
  by rewrite Hv.
Qed.

Lemma join_cons x y l : join (x :: y :: l) = x ++ comma ++ join (y :: l).
Proof. done. Qed.

Lemma parse_members_join l : l <> [] -> Forall (fun kv => parses (snd kv)) l ->
  forall f d rest,
  forallb (fun kv => utf8_valid (fst kv) && json_ok (snd kv)) l = true ->
  (2 * length (join (List.map member l)) + 1 <= f)%nat ->
  (fold_right (fun kv d => N.max (json_depth (snd kv)) d) 0%N l <= d)%N ->
  parse_members f d (join (List.map member l) ++ Byte.x7d :: rest) = Some (l, rest).
Proof.
  intros Hne HF. induction HF as [|[k v] l Hv HF IH]; [done|]. intros f d rest Hok Hf Hd.
  cbn [forallb fst snd] in Hok. apply andb_true_iff in Hok as [[Hk Hj]%andb_true_iff Hl].
  cbn [fold_right snd] in Hd.
  destruct f as [|f]; [lia|]. destruct l as [|kv2 l].
  - cbn [List.map join]. cbn [List.map join] in Hf.
    unfold member in Hf; rewrite !length_app in Hf; cbn [fst snd] in Hf.
    rewrite parse_member; [|done..|lia|lia|simpl; auto|done].
    by rewrite (skip_ws_head Byte.x7d).
  - cbn [List.map] in *. rewrite join_cons in *. rewrite !length_app in Hf.
    unfold member in Hf at 1; rewrite !length_app in Hf; cbn [fst snd] in Hf.
    rewrite <- !app_assoc. change (comma ++ ?x) with (Byte.x2c :: x).
    rewrite parse_member; [|done..|lia|lia|simpl; auto|done].
    rewrite (skip_ws_head Byte.x2c) by done. change (bZ Byte.x2c =? 125) with false.
    change (bZ Byte.x2c =? 44) with true. cbv iota.
    rewrite IH; [done|done|done| |lia]. unfold comma in Hf. simpl in *. lia.
Qed.

Lemma parse_elems_join l : l <> [] -> Forall parses l ->
  forall f d rest, forallb json_ok l = true ->
  (2 * length (join (List.map print l)) + 1 <= f)%nat ->
  (fold_right (fun x d => N.max (json_depth x) d) 0%N l <= d)%N ->
  parse_elems f d (join (List.map print l) ++ Byte.x5d :: rest) = Some (l, rest).
Proof.
  intros Hne HF. induction HF as [|v l Hv HF IH]; [done|]. intros f d rest Hok Hf Hd.
  cbn [forallb] in Hok. apply andb_true_iff in Hok as [Hj Hl]. cbn [fold_right] in Hd.
  destruct f as [|f]; [lia|]. destruct l as [|v2 l].
  - cbn [List.map join] in *. cbn [parse_elems]. rewrite Hv; [|done|lia|lia|simpl; auto].
    by rewrite (skip_ws_head Byte.x5d).
  - cbn [List.map] in *. rewrite join_cons in *. rewrite !length_app in Hf.
    rewrite <- !app_assoc. change (comma ++ ?x) with (Byte.x2c :: x).
    cbn [parse_elems]. rewrite Hv; [|done|lia|lia|simpl; auto].
    rewrite (skip_ws_head Byte.x2c) by done. change (bZ Byte.x2c =? 93) with false.
    change (bZ Byte.x2c =? 44) with true. cbv iota.
    rewrite IH; [done|done|done| |lia]. unfold comma in Hf. simpl in *. lia.
Qed.

Lemma print_obj l : print (JObj l) = Byte.x7b :: join (List.map member l) ++ [Byte.x7d].
Proof. done. Qed.

Lemma print_arr l : print (JArr l) = Byte.x5b :: join (List.map print l) ++ [Byte.x5d].
Proof. done. Qed.

Lemma json_depth_arr l :
  json_depth (JArr l) = (1 + fold_right (fun x d => N.max (json_depth x) d) 0 l)%N.
Proof. done. Qed.

Lemma json_depth_obj l :
  json_depth (JObj l) = (1 + fold_right (fun kv d => N.max (json_depth (snd kv)) d) 0 l)%N.
Proof. done. Qed.

Lemma join_head x l b t : x = b :: t -> exists t', join (x :: l) = b :: t'.
Proof. intros ->. destruct l; simpl; eauto. Qed.

Lemma parse_number_value lit f d rest :
  is_json_number lit = true -> num_stop rest ->
  parse_value (S f) d (lit ++ rest) = Some (JNum lit, rest).
Proof.
  intros Hn Hr. pose proof (scan_number_stop lit rest Hn Hr) as Hs.
  destruct (json_number_head lit Hn) as (b & t & -> & Hb). cbn [app] in *.
  cbn [parse_value]. rewrite skip_ws_head by (unfold is_ws; lia).
  replace (bZ b =? 123) with false by lia. replace (bZ b =? 91) with false by lia.
  replace (bZ b =? 34) with false by lia.
  assert (Hne : forall c, bZ c = 110 \/ bZ c = 116 \/ bZ c = 102 -> bool_decide (c = b) = false).
  { intros c Hc. apply bool_decide_eq_false. intros ->. lia. }
  cbn [has_prefix bs String.list_byte_of_string]. change (bs ?s) with (String.list_byte_of_string s).
  cbn. rewrite !Hne by (vm_compute; auto). cbn [andb]. by rewrite Hs.
Qed.

Lemma parse_string_value s f d rest : utf8_valid s = true ->
  parse_value (S f) d (quote s ++ rest) = Some (JStr s, rest).
Proof.
  intros Hs. unfold quote. rewrite <- !app_assoc. cbn [app parse_value].
  rewrite (skip_ws_head Byte.x22) by done.
  change (bZ Byte.x22 =? 123) with false. change (bZ Byte.x22 =? 91) with false.
  change (bZ Byte.x22 =? 34) with true. cbv iota. by rewrite unquote_quote.
Qed.

Lemma parses_all j : parses j.
Proof.
  induction j as [|b|lit|s|l IH|l IH] using json_ind'; intros f d rest Hok Hf Hd Hr;
    (destruct f as [|f]; [exfalso; destruct (print_head _ Hok) as (?&?&Hp&_); rewrite Hp in Hf; simpl in Hf; lia|]).
  - by destruct rest.
  - by destruct b, rest.
  - by apply parse_number_value.
  - by apply parse_string_value.
  - rewrite print_arr in *. rewrite <- app_comm_cons, <- app_assoc. cbn [app].
    cbn [parse_value]. rewrite (skip_ws_head Byte.x5b) by done.
    change (bZ Byte.x5b =? 123) with false. change (bZ Byte.x5b =? 91) with true. cbv iota.
    rewrite json_depth_arr in Hd. rewrite (proj2 (N.eqb_neq d 0)) by lia.
    destruct l as [|v l]; [done|]. cbn [json_ok forallb] in Hok.
    destruct (andb_true_iff (json_ok v) (forallb json_ok l)) as [Hsp _].
    destruct (print_head v (proj1 (Hsp Hok))) as (b & t & Hp & Hws & H93).
    destruct (join_head (print v) (List.map print l) b t Hp) as [t' Ht'].
    cbn [List.map]. rewrite Ht'. cbn [app]. rewrite skip_ws_head by done.
    replace (bZ b =? 93) with false by lia. rewrite app_comm_cons, <- Ht'.
    rewrite (parse_elems_join (v :: l)); [done|done|done|done| |lia].
    cbn [length] in Hf. rewrite length_app in Hf. simpl in *. lia.
  - rewrite print_obj in *. rewrite <- app_comm_cons, <- app_assoc. cbn [app].
    cbn [parse_value]. rewrite (skip_ws_head Byte.x7b) by done.
    change (bZ Byte.x7b =? 123) with true. cbv iota.
    rewrite json_depth_obj in Hd. rewrite (proj2 (N.eqb_neq d 0)) by lia.
    destruct l as [|[k v] l]; [done|].
    destruct (join_head (member (k, v)) (List.map member l) Byte.x22
                (escape k ++ [Byte.x22] ++ bs ":" ++ print v)) as [t' Ht'].
    { unfold member, quote. cbn [fst snd app]. by rewrite <- app_assoc. }
    cbn [List.map]. rewrite Ht'. cbn [app]. rewrite (skip_ws_head Byte.x22) by done.
    change (bZ Byte.x22 =? 125) with false. cbv iota. rewrite app_comm_cons, <- Ht'.
    rewrite (parse_members_join ((k, v) :: l)); [done|done|done|done| |lia].
    cbn [length] in Hf. rewrite length_app in Hf. simpl in *. lia.
Qed.

Lemma json_parse_print j :
  json_ok j = true -> (json_depth j <= maxNestingDepth)%N -> json_parse (print j) = Some j.
Proof.
  intros Hok Hd. unfold json_parse.
  pose proof (parses_all j (2 * length (print j) + 2)%nat maxNestingDepth [] Hok) as H.
  rewrite app_nil_r in H. by rewrite H; [|lia|done|].
Qed.

(** ** The bytes of printed text *)

(** Printed text holds no control characters, so a record line holds no
    newline but its terminator. *)
Definition no_ctl (s : gostring) : bool := forallb (fun b => 32 <=? bZ b) s.

Lemma no_ctl_app s t : no_ctl (s ++ t) = no_ctl s && no_ctl t.
Proof. apply forallb_app. Qed.

Lemma esc_ascii_no_ctl a : no_ctl (esc_ascii a) = true.
Proof. destruct a; reflexivity. Qed.

Lemma no_ctl_cons b s : no_ctl (b :: s) = (32 <=? bZ b) && no_ctl s.
Proof. done. Qed.

Lemma esc3_no_ctl a b c : is3 a b c = true -> no_ctl (esc3 a b c) = true.
Proof.
  intros H. pose proof (is3_lead _ _ _ H). unfold esc3. destruct (_ && _) eqn:E.
  - assert (Hc : c = Byte.xa8 \/ c = Byte.xa9).
    { destruct (Z.eqb_spec (bZ c) 168); [left|right]; apply bZ_inj;
        [change (bZ Byte.xa8) with 168 | change (bZ Byte.xa9) with 169]; lia. }
    by destruct Hc as [-> | ->].
  - rewrite !no_ctl_cons. unfold is3, within, cont in H.
    destruct (Z.eqb_spec (bZ a) 224), (Z.eqb_spec (bZ a) 237); simpl; lia.
Qed.

Lemma escape_no_ctl s : no_ctl (escape s) = true.
Proof.
  remember (length s) as n eqn:Hn. revert s Hn. induction (lt_wf n) as [n _ IH]. intros s ->.
  assert (IH' : forall t, (length t < length s)%nat -> no_ctl (escape t) = true) by eauto.
  clear IH. destruct s as [|a s1]; [done|]. cbn [escape].
  destruct (Z.ltb_spec (bZ a) 128).
  { rewrite no_ctl_app, esc_ascii_no_ctl. apply IH'. simpl. lia. }
  assert (Hbad : no_ctl (bs "\ufffd" ++ escape s1) = true).
  { rewrite no_ctl_app. rewrite IH' by (simpl; lia). done. }
  destruct s1 as [|b s2]; [done|]. destruct (is2 a b) eqn:E2.
  { rewrite no_ctl_app, (IH' s2) by (simpl; lia). rewrite !no_ctl_cons.
    unfold is2, cont, within in E2. simpl. lia. }
  destruct s2 as [|c s3]; [done|]. destruct (is3 a b c) eqn:E3.
  { rewrite no_ctl_app, (IH' s3) by (simpl; lia). by rewrite esc3_no_ctl. }
  destruct s3 as [|d s4]; [done|]. destruct (is4 a b c d) eqn:E4; [|done].
  rewrite no_ctl_app, (IH' s4) by (simpl; lia). rewrite !no_ctl_cons.
  pose proof (is4_lead _ _ _ _ E4). unfold is4, cont, within in E4.
  destruct (Z.eqb_spec (bZ a) 240), (Z.eqb_spec (bZ a) 244); simpl; lia.
Qed.

Lemma quote_no_ctl s : no_ctl (quote s) = true.
Proof. unfold quote. by rewrite !no_ctl_app, escape_no_ctl. Qed.

Lemma span_digits_no_ctl s d r : span_digits s = (d, r) -> no_ctl d = true.
Proof.
  revert d r. induction s as [|b s IH]; intros d r; simpl; [by intros [= <- <-]|].
  destruct (is_digit b) eqn:Hb; [|by intros [= <- <-]].
  destruct (span_digits s) as [d' r']. intros [= <- <-].
  rewrite no_ctl_cons, (IH d' r') by done. unfold is_digit in Hb. lia.
Qed.

Lemma json_number_no_ctl lit : is_json_number lit = true -> no_ctl lit = true.
Proof.
  unfold is_json_number. destruct (scan_number lit) as [[l [|]]|] eqn:E; [|done..].
  intros ->%bool_decide_eq_true. revert E. unfold scan_number.
  set (neg := match lit with
              | b :: r => if bZ b =? 45 then ([b], r) else ([], lit)
              | [] => ([], [])
              end).
  assert (Hneg : no_ctl neg.1 = true).
  { unfold neg. destruct lit as [|b r]; [done|]. destruct (Z.eqb_spec (bZ b) 45); [|done].
    cbn [fst]. rewrite no_ctl_cons. simpl. lia. }
  destruct neg as [ng s0]. cbn [fst] in Hneg.
  destruct (scan_int s0) as [[ip s1]|] eqn:E1; [|done].
  destruct (scan_fraction s1) as [[fp s2]|] eqn:E2; [|done].
  destruct (scan_exponent s2) as [[ep s3]|] eqn:E3; [|done].
  intros [= <- ->]. rewrite !no_ctl_app, Hneg.
  assert (no_ctl ip = true) as ->.
  { destruct s0 as [|b s0]; [done|]. cbn [scan_int] in E1.
    destruct (Z.eqb_spec (bZ b) 48); [injection E1 as <- <-; rewrite no_ctl_cons; simpl; lia|].
    destruct (is_digit b) eqn:Hd; [|done]. injection E1 as E1.
    apply (span_digits_no_ctl (b :: s0) _ s1). simpl. by rewrite Hd in *. }
  assert (no_ctl fp = true) as ->.
  { destruct s1 as [|b s1]; [by injection E2 as <- <-|]. cbn [scan_fraction] in E2.
    destruct (Z.eqb_spec (bZ b) 46); [|by injection E2 as <- <-].
    destruct (span_digits s1) as [[|x d] r] eqn:Ed; [done|]. injection E2 as <- <-.
    rewrite no_ctl_cons, (span_digits_no_ctl _ _ _ Ed). lia. }
  destruct s2 as [|b s2]; [by simplify_eq/=|]. cbn [scan_exponent] in E3.
  destruct ((bZ b =? 101) || (bZ b =? 69)) eqn:Hb; [|by simplify_eq/=].
  destruct (scan_sign s2) as [sg r1] eqn:Es.
  destruct (span_digits r1) as [[|x d] r] eqn:Ed; [done|]. injection E3 as <- ->.
  rewrite no_ctl_cons, no_ctl_app, (span_digits_no_ctl _ _ _ Ed).
  assert (no_ctl sg = true) as ->; [|simpl; lia].
  destruct s2 as [|c s2]; [by injection Es as <- <-|]. cbn [scan_sign] in Es.
  destruct ((bZ c =? 43) || (bZ c =? 45)) eqn:Hc; [|by injection Es as <- <-].
  injection Es as <- <-. rewrite no_ctl_cons. simpl. lia.
Qed.

Lemma join_no_ctl l : Forall (fun s => no_ctl s = true) l -> no_ctl (join l) = true.
Proof.
  induction 1 as [|x l Hx HF IH]; [done|]. destruct l as [|y l]; [done|].
  rewrite join_cons, !no_ctl_app, Hx. by rewrite IH.
Qed.

Lemma print_no_ctl j : json_ok j = true -> no_ctl (print j) = true.
Proof.
  induction j as [|b|lit|s|l IH|l IH] using json_ind'; intros Hok.
  - done.
  - by destruct b.
  - by apply json_number_no_ctl.
  - apply quote_no_ctl.
  - rewrite print_arr, no_ctl_cons, no_ctl_app. rewrite join_no_ctl; [done|].
    cbn [json_ok] in Hok. rewrite forallb_forall in Hok. apply Forall_fmap, Forall_forall.
    intros x Hx. rewrite Forall_forall in IH. apply IH; [done|]. by apply Hok, list_elem_of_In.
  - rewrite print_obj, no_ctl_cons, no_ctl_app. rewrite join_no_ctl; [done|].
    cbn [json_ok] in Hok. rewrite forallb_forall in Hok. apply Forall_fmap, Forall_forall.
    intros [k v] Hx. rewrite Forall_forall in IH.
    pose proof (Hok _ (proj1 (list_elem_of_In _ _) Hx)) as Hin. cbn in Hin. apply andb_true_iff in Hin as [_ Hj].
    pose proof (IH (k, v) Hx Hj) as Hv. cbn [snd] in Hv.
    change (no_ctl (member (k, v)) = true). unfold member. cbn [fst snd].
    rewrite no_ctl_app, quote_no_ctl, no_ctl_app, Hv. done.
Qed.
