(* ===== verification/Base64.v ===== *)
(** * Standard base64

    [encoding/base64.StdEncoding], which [encoding/json] uses for [[]byte]
    fields: binary record values travel in this form. *)

From S2P Require Import Prelude Floats Json.
#[local] Open Scope Z_scope.

Definition b64_char (i : Z) : byte :=
  if i <? 26 then Zb (65 + i)
  else if i <? 52 then Zb (71 + i)
  else if i <? 62 then Zb (i - 4)
  else if i =? 62 then Byte.x2b else Byte.x2f.

Definition b64_val (b : byte) : option Z :=
  let n := bZ b in
  if (65 <=? n) && (n <=? 90) then Some (n - 65)
  else if (97 <=? n) && (n <=? 122) then Some (n - 71)
  else if (48 <=? n) && (n <=? 57) then Some (n + 4)
  else if n =? 43 then Some 62
  else if n =? 47 then Some 63
  else None.

Fixpoint b64_encode (s : gostring) : gostring :=
  match s with
  | a :: b :: c :: t =>
      let n := bZ a * 65536 + bZ b * 256 + bZ c in
      b64_char (n / 262144) :: b64_char (n / 4096 mod 64) ::
      b64_char (n / 64 mod 64) :: b64_char (n mod 64) :: b64_encode t
  | [a; b] =>
      let n := bZ a * 65536 + bZ b * 256 in
      [b64_char (n / 262144); b64_char (n / 4096 mod 64); b64_char (n / 64 mod 64); Byte.x3d]
  | [a] =>
      let n := bZ a * 65536 in
      [b64_char (n / 262144); b64_char (n / 4096 mod 64); Byte.x3d; Byte.x3d]
  | [] => []
  end.

(** Groups of four; padding only in the last one. *)
Fixpoint b64_groups (s : gostring) : option gostring :=
  match s with
  | [] => Some []
  | a :: b :: c :: d :: t =>
      match b64_val a, b64_val b with
      | Some w, Some x =>
          if bool_decide (d = Byte.x3d) then
            match t with
            | [] =>
                if bool_decide (c = Byte.x3d) then Some [Zb ((w * 64 + x) / 16)]
                else match b64_val c with
                     | Some y => let m := w * 4096 + x * 64 + y in
                                 Some [Zb (m / 1024); Zb (m / 4 mod 256)]
                     | None => None
                     end
            | _ => None
            end
          else match b64_val c, b64_val d, b64_groups t with
               | Some y, Some z, Some r =>
                   let m := w * 262144 + x * 4096 + y * 64 + z in
                   Some (Zb (m / 65536) :: Zb (m / 256 mod 256) :: Zb (m mod 256) :: r)
               | _, _, _ => None
               end
      | _, _ => None
      end
  | _ => None
  end.

(** The decoder skips carriage returns and newlines. *)
Definition b64_decode (s : gostring) : option gostring :=
  b64_groups (filter (fun b => b <> Byte.x0a /\ b <> Byte.x0d) s).

Lemma b64_table :
  forallb (fun i => bool_decide (b64_val (b64_char i) = Some i)
    && negb (bool_decide (b64_char i = Byte.x3d)) && (bZ (b64_char i) <? 128) && (42 <? bZ (b64_char i))
    && negb (bool_decide (b64_char i = Byte.x5c)) && negb (bool_decide (b64_char i = Byte.x3c))
    && negb (bool_decide (b64_char i = Byte.x3e)))
    (seqZ 0 64) = true.
Proof. by vm_compute. Qed.

Lemma b64_char_facts i : 0 <= i < 64 ->
  b64_val (b64_char i) = Some i /\ bool_decide (b64_char i = Byte.x3d) = false
  /\ 42 < bZ (b64_char i) < 128.
Proof.
  intros Hi. pose proof b64_table as H. rewrite forallb_forall in H.
  specialize (H i). rewrite !andb_true_iff, bool_decide_eq_true, negb_true_iff in H.
  destruct H as [[[[[[H1 H2] H3] H4] _] _] _]; [|repeat split; [done|done|lia..]].
  apply list_elem_of_In, elem_of_seqZ. lia.
Qed.

Lemma b64_val_char i : 0 <= i < 64 -> b64_val (b64_char i) = Some i.
Proof. intros H. by destruct (b64_char_facts i H). Qed.

Lemma b64_char_pad i : 0 <= i < 64 -> bool_decide (b64_char i = Byte.x3d) = false.
Proof. intros H. by destruct (b64_char_facts i H) as (_ & ? & _). Qed.

Lemma list_ind3 {A} (P : list A -> Prop) :
  P [] -> (forall a, P [a]) -> (forall a b, P [a; b]) ->
  (forall a b c t, P t -> P (a :: b :: c :: t)) -> forall l, P l.
Proof.
  intros H0 H1 H2 H3.
  assert (H : forall l, P l /\ (forall a, P (a :: l)) /\ (forall a b, P (a :: b :: l))).
  { induction l as [|x l (IH1 & IH2 & IH3)]; auto. }
  intros l. apply H.
Qed.

Ltac bytes_lia :=
  repeat match goal with
  | |- context [bZ ?b] => lazymatch goal with
      | _ : 0 <= bZ b < 256 |- _ => fail
      | _ => pose proof (bZ_range b)
      end
  end; Z.to_euclidean_division_equations; lia.

Lemma b64_groups_encode s : b64_groups (b64_encode s) = Some s.
Proof.
  induction s as [|a|a b|a b c t IH] using list_ind3; [done|..]; cbn [b64_encode b64_groups].
  - rewrite !b64_val_char by bytes_lia. simpl. do 2 f_equal.
    rewrite <- (Zb_bZ a) at 3. f_equal. bytes_lia.
  - rewrite !b64_val_char, b64_char_pad by bytes_lia. simpl. repeat f_equal.
    + rewrite <- (Zb_bZ a) at 4. f_equal. bytes_lia.
    + rewrite <- (Zb_bZ b) at 4. f_equal. bytes_lia.
  - rewrite !b64_val_char, b64_char_pad, IH by bytes_lia. repeat f_equal.
    + rewrite <- (Zb_bZ a) at 5. f_equal. bytes_lia.
    + rewrite <- (Zb_bZ b) at 5. f_equal. bytes_lia.
    + rewrite <- (Zb_bZ c) at 5. f_equal. bytes_lia.
Qed.

Lemma b64_encode_ascii s : Forall (fun b => 42 < bZ b < 128) (b64_encode s).
Proof.
  assert (Hc : forall i, 0 <= i < 64 -> 42 < bZ (b64_char i) < 128).
  { intros i Hi. by destruct (b64_char_facts i Hi) as (_ & _ & ?). }
  assert (Hp : 42 < bZ Byte.x3d < 128) by (vm_compute; done).
  induction s as [|a|a b|a b c t IH] using list_ind3; cbn [b64_encode];
    repeat apply Forall_cons_2; try done; try apply Hc; try bytes_lia; constructor.
Qed.

Lemma b64_decode_encode s : b64_decode (b64_encode s) = Some s.
Proof.
  unfold b64_decode. rewrite filter_all; [apply b64_groups_encode|].
  eapply Forall_impl; [apply b64_encode_ascii|]. intros b Hb. cbn in Hb.
  split; intros ->; vm_compute in Hb; destruct Hb; discriminate.
Qed.

Lemma utf8_valid_ascii s : Forall (fun b => bZ b < 128) s -> utf8_valid s = true.
Proof.
  induction 1 as [|b s Hb HF IH]; [done|]. simpl. by replace (bZ b <? 128) with true by lia.
Qed.

Lemma b64_utf8 s : utf8_valid (b64_encode s) = true.
Proof.
  apply utf8_valid_ascii. eapply Forall_impl; [apply b64_encode_ascii|]. intros b. cbn. lia.
Qed.

Lemma b64_encode_nil s : b64_encode s = [] -> s = [].
Proof. by destruct s as [|a [|b [|c t]]]. Qed.
