(* ===== verification/Record.v ===== *)
(** * Log records: record.go

    [record] and [blobRef] are the source's structs.  [marshalRecord] is
    concrete down to the bytes: the in-place counter patch and the crash
    arguments depend on them.  [unmarshalRecord] is the decoder of
    [encoding/json] on the struct's tags: unknown fields are ignored, names
    match up to case folding, a later duplicate wins, [null] leaves a field,
    and a value of the wrong type is an error. *)

From S2P Require Import Prelude Floats Types Json Base64.
#[local] Open Scope Z_scope.

Record blobRef := BlobRef { br_Off : Z; br_Size : Z; br_Gen : Z }.

Record record := MkRecord {
  r_Key : gostring;
  r_Text : gostring;
  r_Value : gostring;
  r_Blob : option blobRef;
  r_Deleted : bool;
  r_IX : IndexValues;
  r_Counter : bool;
  r_Exp : Z
}.

Definition zero_record : record := MkRecord [] [] [] None false ∅ false 0.

Definition isTombstone (r : record) : bool := r_Deleted r.

Definition with_key (k : gostring) (r : record) : record :=
  MkRecord k (r_Text r) (r_Value r) (r_Blob r) (r_Deleted r) (r_IX r) (r_Counter r) (r_Exp r).
Definition with_text (t : gostring) (r : record) : record :=
  MkRecord (r_Key r) t (r_Value r) (r_Blob r) (r_Deleted r) (r_IX r) (r_Counter r) (r_Exp r).
Definition with_value (v : gostring) (r : record) : record :=
  MkRecord (r_Key r) (r_Text r) v (r_Blob r) (r_Deleted r) (r_IX r) (r_Counter r) (r_Exp r).
Definition with_blob (b : option blobRef) (r : record) : record :=
  MkRecord (r_Key r) (r_Text r) (r_Value r) b (r_Deleted r) (r_IX r) (r_Counter r) (r_Exp r).
Definition with_del (d : bool) (r : record) : record :=
  MkRecord (r_Key r) (r_Text r) (r_Value r) (r_Blob r) d (r_IX r) (r_Counter r) (r_Exp r).
Definition with_ix (ix : IndexValues) (r : record) : record :=
  MkRecord (r_Key r) (r_Text r) (r_Value r) (r_Blob r) (r_Deleted r) ix (r_Counter r) (r_Exp r).
Definition with_counter (c : bool) (r : record) : record :=
  MkRecord (r_Key r) (r_Text r) (r_Value r) (r_Blob r) (r_Deleted r) (r_IX r) c (r_Exp r).
Definition with_exp (e : Z) (r : record) : record :=
  MkRecord (r_Key r) (r_Text r) (r_Value r) (r_Blob r) (r_Deleted r) (r_IX r) (r_Counter r) e.

(** ** Encoding *)

(** Map keys are printed in sorted order. *)
Definition key_le {A} (a b : gostring * A) : Prop := str_leb a.1 b.1 = true.
#[global] Instance key_le_dec {A} : forall a b : gostring * A, Decision (key_le a b).
Proof. unfold key_le. apply _. Defined.

Definition sort_fields {A} (l : list (gostring * A)) : list (gostring * A) := merge_sort key_le l.

(** A dynamic value as JSON; [None] when [json.Marshal] refuses it (NaN, the
    infinities, a malformed [json.Number]). *)
Fixpoint any_json (v : any) : option json :=
  match v with
  | ANil => Some JNull
  | ABool b => Some (JBool b)
  | AString s => Some (JStr s)
  | AFloat64 f => if f64_finite f then Some (JNum (format_float64 f)) else None
  | AFloat32 f => if f64_finite f then Some (JNum (format_float32 f)) else None
  | AInt n | AInt64 n | AInt32 n => Some (JNum (format_int n))
  | AJSONNumber lit =>
      match lit with
      | [] => Some (JNum (bs "0"))
      | _ => if is_json_number lit then Some (JNum lit) else None
      end
  | AArr l =>
      match (fix go (l : list any) : option (list json) :=
               match l with
               | [] => Some []
               | x :: l' => match any_json x, go l' with
                            | Some j, Some r => Some (j :: r)
                            | _, _ => None
                            end
               end) l with
      | Some js => Some (JArr js)
      | None => None
      end
  | AObj l =>
      match (fix go (l : list (gostring * any)) : option (list (gostring * json)) :=
               match l with
               | [] => Some []
               | (k, x) :: l' => match any_json x, go l' with
                                 | Some j, Some r => Some ((k, j) :: r)
                                 | _, _ => None
                                 end
               end) l with
      | Some js => Some (JObj (sort_fields js))
      | None => None
      end
  end.

Fixpoint fields_json (l : list (gostring * any)) : option (list (gostring * json)) :=
  match l with
  | [] => Some []
  | (k, v) :: l' => match any_json v, fields_json l' with
                    | Some j, Some r => Some ((k, j) :: r)
                    | _, _ => None
                    end
  end.

Definition ix_json (ix : IndexValues) : option (list (gostring * json)) :=
  fields_json (sort_fields (map_to_list ix)).

Definition blob_json (b : blobRef) : json :=
  JObj ([(bs "o", JNum (format_int (br_Off b))); (bs "n", JNum (format_int (br_Size b)))]
        ++ if br_Gen b =? 0 then [] else [(bs "g", JNum (format_int (br_Gen b)))]).

(** A field with [omitempty]. *)
Definition opt_field (present : bool) (name : gostring) (j : json) : list (gostring * json) :=
  if present then [(name, j)] else [].

Definition nonempty {A} (l : list A) : bool := match l with [] => false | _ => true end.

Definition record_fields (r : record) (ixf : list (gostring * json)) : list (gostring * json) :=
  [(bs "k", JStr (r_Key r))]
  ++ opt_field (nonempty (r_Text r)) (bs "s") (JStr (r_Text r))
  ++ opt_field (nonempty (r_Value r)) (bs "v") (JStr (b64_encode (r_Value r)))
  ++ match r_Blob r with Some b => [(bs "b", blob_json b)] | None => [] end
  ++ opt_field (r_Deleted r) (bs "del") (JBool true)
  ++ opt_field (nonempty ixf) (bs "ix") (JObj ixf)
  ++ opt_field (r_Counter r) (bs "c") (JBool true)
  ++ opt_field (negb (r_Exp r =? 0)) (bs "exp") (JNum (format_int (r_Exp r))).

(** [json.Marshal(r)]. *)
Definition json_marshal_record (r : record) : option gostring :=
  match ix_json (r_IX r) with
  | Some ixf => Some (print (JObj (record_fields r ixf)))
  | None => None
  end.

(** The inline value moves to the readable field when it is valid UTF-8. *)
Definition to_text (r : record) : record :=
  if nonempty (r_Value r) && utf8_valid (r_Value r)
  then with_value [] (with_text (r_Value r) r) else r.

Definition marshalRecord (r : record) : option gostring := json_marshal_record (to_text r).

(** ** Decoding *)

(** ASCII letters fold by case; the Kelvin sign and the long s fold to
    ['k'] and ['s']. *)
Fixpoint fold_name (s : gostring) : gostring :=
  match s with
  | Byte.xe2 :: Byte.x84 :: Byte.xaa :: t => Byte.x6b :: fold_name t
  | Byte.xc5 :: Byte.xbf :: t => Byte.x73 :: fold_name t
  | b :: t => lower b :: fold_name t
  | [] => []
  end.

(** A later duplicate key replaces the value of an earlier one. *)
Fixpoint last_wins {A} (l : list (gostring * A)) : list (gostring * A) :=
  match l with
  | [] => []
  | (k, v) :: l' => if existsb (fun kv => bool_decide (kv.1 = k)) l'
                    then last_wins l' else (k, v) :: last_wins l'
  end.

(** Decoding into an [any]. *)
Fixpoint decode_any (j : json) : option any :=
  match j with
  | JNull => Some ANil
  | JBool b => Some (ABool b)
  | JNum lit => AFloat64 <$> parse_float lit
  | JStr s => Some (AString s)
  | JArr l =>
      AArr <$> (fix go (l : list json) : option (list any) :=
        match l with
        | [] => Some []
        | x :: l' => match decode_any x, go l' with
                     | Some v, Some r => Some (v :: r)
                     | _, _ => None
                     end
        end) l
  | JObj l =>
      (fun f => AObj (last_wins f)) <$> (fix go (l : list (gostring * json)) : option (list (gostring * any)) :=
        match l with
        | [] => Some []
        | (k, x) :: l' => match decode_any x, go l' with
                          | Some v, Some r => Some ((k, v) :: r)
                          | _, _ => None
                          end
        end) l
  end.

Definition dec_string (cur : gostring) (j : json) : option gostring :=
  match j with JStr s => Some s | JNull => Some cur | _ => None end.

Definition dec_bool (cur : bool) (j : json) : option bool :=
  match j with JBool b => Some b | JNull => Some cur | _ => None end.

(** [strconv.ParseInt] of a JSON literal, with the field's range. *)
Definition lit_int (lit : gostring) : option Z :=
  let '(neg, ds) := match lit with
                    | b :: r => if bZ b =? 45 then (true, r) else (false, lit)
                    | [] => (false, [])
                    end in
  if nonempty ds && forallb is_digit ds
  then Some (if neg then - digits_val ds else digits_val ds) else None.

Definition dec_int (lo hi cur : Z) (j : json) : option Z :=
  match j with
  | JNum lit => match lit_int lit with
                | Some n => if (lo <=? n) && (n <=? hi) then Some n else None
                | None => None
                end
  | JNull => Some cur
  | _ => None
  end.

(** A [[]byte] field: base64 text, or an array of small numbers. *)
Definition dec_bytes (j : json) : option gostring :=
  match j with
  | JStr s => b64_decode s
  | JNull => Some []
  | JArr l => mapM (fun x => Zb <$> dec_int 0 255 0 x) l
  | _ => None
  end.

Definition set_blob_field (b : blobRef) (kj : gostring * json) : option blobRef :=
  let '(k, j) := kj in
  let f := fold_name k in
  if decide (f = bs "o") then
    (fun n => BlobRef n (br_Size b) (br_Gen b)) <$> dec_int MinInt64 MaxInt64 (br_Off b) j
  else if decide (f = bs "n") then
    (fun n => BlobRef (br_Off b) n (br_Gen b)) <$> dec_int (- 2 ^ 31) (2 ^ 31 - 1) (br_Size b) j
  else if decide (f = bs "g") then
    (fun n => BlobRef (br_Off b) (br_Size b) n) <$> dec_int MinInt64 MaxInt64 (br_Gen b) j
  else Some b.

(** Left-to-right assignment of the fields of an object. *)
Fixpoint set_fields {R} (f : R -> gostring * json -> option R) (l : list (gostring * json)) (r : R) : option R :=
  match l with
  | [] => Some r
  | kj :: l' => match f r kj with Some r' => set_fields f l' r' | None => None end
  end.

Definition dec_blob (cur : option blobRef) (j : json) : option (option blobRef) :=
  match j with
  | JNull => Some None
  | JObj l => Some <$> set_fields set_blob_field l (default (BlobRef 0 0 0) cur)
  | _ => None
  end.

Definition set_ix_field (ix : IndexValues) (kj : gostring * json) : option IndexValues :=
  (fun v => <[kj.1 := v]> ix) <$> decode_any kj.2.

Definition dec_ix (cur : IndexValues) (j : json) : option IndexValues :=
  match j with
  | JNull => Some ∅
  | JObj l => set_fields set_ix_field l cur
  | _ => None
  end.

Definition set_record_field (r : record) (kj : gostring * json) : option record :=
  let '(k, j) := kj in
  let f := fold_name k in
  if decide (f = bs "k") then (fun x => with_key x r) <$> dec_string (r_Key r) j
  else if decide (f = bs "s") then (fun x => with_text x r) <$> dec_string (r_Text r) j
  else if decide (f = bs "v") then (fun x => with_value x r) <$> dec_bytes j
  else if decide (f = bs "b") then (fun x => with_blob x r) <$> dec_blob (r_Blob r) j
  else if decide (f = bs "del") then (fun x => with_del x r) <$> dec_bool (r_Deleted r) j
  else if decide (f = bs "ix") then (fun x => with_ix x r) <$> dec_ix (r_IX r) j
  else if decide (f = bs "c") then (fun x => with_counter x r) <$> dec_bool (r_Counter r) j
  else if decide (f = bs "exp") then
    (fun x => with_exp x r) <$> dec_int MinInt64 MaxInt64 (r_Exp r) j
  else Some r.

(** [json.Unmarshal(line, &r)]. *)
Definition json_unmarshal_record (line : gostring) : option record :=
  match json_parse line with
  | Some (JObj l) => set_fields set_record_field l zero_record
  | Some JNull => Some zero_record
  | _ => None
  end.

Definition unmarshalRecord (line : gostring) : option record :=
  match json_unmarshal_record line with
  | Some r => Some (if nonempty (r_Text r) then with_text [] (with_value (r_Text r) r) else r)
  | None => None
  end.

(** ** Decimal integers *)

Lemma digits_val_app ds d : digits_val (ds ++ [d]) = digits_val ds * 10 + (bZ d - 48).
Proof. unfold digits_val. by rewrite fold_left_app. Qed.

Lemma dec_digits_spec fuel n acc :
  0 <= n < 2 ^ Z.of_nat fuel -> (0 < fuel)%nat ->
  exists b ds, dec_digits fuel n acc = (b :: ds) ++ acc
    /\ forallb is_digit (b :: ds) = true /\ digits_val (b :: ds) = n
    /\ (n = 0 /\ ds = [] /\ bZ b = 48 \/ 0 < n /\ bZ b <> 48).
Proof.
  revert n acc. induction fuel as [|fuel IH]; intros n acc Hn Hf; [lia|]. cbn [dec_digits].
  pose proof (Z.mod_pos_bound n 10 eq_refl) as Hm. pose proof (Z.div_mod n 10 ltac:(lia)) as Hd.
  assert (Hb : bZ (Zb (48 + n mod 10)) = 48 + n mod 10) by (rewrite bZ_Zb_small; lia).
  destruct (Z.eqb_spec (n / 10) 0) as [H0|H0].
  - exists (Zb (48 + n mod 10)), []. split; [done|]. split.
    { cbn [forallb]. unfold is_digit. rewrite Hb. lia. }
    split; [unfold digits_val; cbn [fold_left]; rewrite Hb; lia|].
    rewrite Hb. destruct (decide (n = 0)) as [->|]; [left; auto|right]. lia.
  - rewrite Nat2Z.inj_succ, Z.pow_succ_r in Hn by lia.
    assert (0 < n / 10) by (pose proof (Z.div_pos n 10); lia).
    assert (Hfuel : (0 < fuel)%nat).
    { destruct fuel; [|lia]. change (2 ^ Z.of_nat 0) with 1 in Hn. lia. }
    destruct (IH (n / 10) (Zb (48 + n mod 10) :: acc)) as (b & ds & -> & Hds & Hv & Hz); [lia|done|].
    exists b, (ds ++ [Zb (48 + n mod 10)]). split; [simpl; by rewrite <- app_assoc|]. split.
    { change (b :: ds ++ ?x) with ((b :: ds) ++ x). rewrite forallb_app, Hds.
      cbn [forallb andb]. unfold is_digit. rewrite Hb. lia. }
    split; [change (b :: ds ++ ?x) with ((b :: ds) ++ x); rewrite digits_val_app, Hv, Hb; lia|].
    right. lia.
Qed.

Lemma nat_dec_spec n : 0 <= n ->
  exists b ds, nat_dec n = b :: ds
    /\ forallb is_digit (b :: ds) = true /\ digits_val (b :: ds) = n
    /\ (n = 0 /\ ds = [] /\ bZ b = 48 \/ 0 < n /\ bZ b <> 48).
Proof.
  intros Hn. unfold nat_dec.
  destruct (dec_digits_spec (S (Z.to_nat (Z.log2 n))) n []) as (b & ds & H & ?); [|lia|].
  - split; [done|]. pose proof (Z.log2_nonneg n).
    rewrite Nat2Z.inj_succ, Z2Nat.id by done.
    destruct (decide (n = 0)) as [->|]; [done|]. by apply Z.log2_spec; lia.
  - exists b, ds. rewrite app_nil_r in H. done.
Qed.

Lemma span_digits_all ds : forallb is_digit ds = true -> span_digits ds = (ds, []).
Proof.
  induction ds as [|b ds IH]; [done|]. simpl. intros [-> H]%andb_true_iff. by rewrite IH.
Qed.

Lemma scan_int_nat n : 0 <= n -> scan_int (nat_dec n) = Some (nat_dec n, []).
Proof.
  intros Hn. destruct (nat_dec_spec n Hn) as (b & ds & -> & Hds & _ & Hz). cbn [scan_int].
  destruct Hz as [(-> & -> & ->)|[_ Hb]]; [done|].
  replace (bZ b =? 48) with false by lia.
  cbn [forallb] in Hds. apply andb_true_iff in Hds as Hds'. destruct Hds' as [-> _].
  by rewrite span_digits_all.
Qed.

Lemma nat_dec_head n : 0 <= n -> exists b ds, nat_dec n = b :: ds /\ 48 <= bZ b <= 57.
Proof.
  intros Hn. destruct (nat_dec_spec n Hn) as (b & ds & -> & Hds & _). exists b, ds. split; [done|].
  cbn [forallb] in Hds. apply andb_true_iff in Hds as [Hb _]. unfold is_digit in Hb. lia.
Qed.

Lemma is_json_number_int n : is_json_number (format_int n) = true.
Proof.
  unfold format_int, is_json_number, scan_number.
  destruct (Z.ltb_spec n 0).
  - change (bZ Byte.x2d =? 45) with true. cbv iota. rewrite scan_int_nat by lia. simpl.
    rewrite !app_nil_r. by apply bool_decide_eq_true.
  - destruct (nat_dec_head n) as (b & ds & Hn & Hb); [lia|].
    pose proof (scan_int_nat n ltac:(lia)) as Hs. rewrite Hn in *.
    replace (bZ b =? 45) with false by lia. rewrite Hs. simpl. rewrite !app_nil_r.
    by apply bool_decide_eq_true.
Qed.

Lemma lit_int_format n : lit_int (format_int n) = Some n.
Proof.
  unfold lit_int, format_int. destruct (Z.ltb_spec n 0).
  - change (bZ Byte.x2d =? 45) with true. cbv iota.
    destruct (nat_dec_spec (- n)) as (b & ds & -> & Hds & Hv & _); [lia|].
    rewrite Hds. cbn [nonempty andb]. rewrite Hv. f_equal. lia.
  - destruct (nat_dec_head n) as (b0 & ds0 & Hn & Hb); [lia|].
    destruct (nat_dec_spec n) as (b & ds & Hn' & Hds & Hv & _); [lia|].
    rewrite Hn' in *. replace (bZ b =? 45) with false by (simplify_eq; lia).
    rewrite Hds. cbn [nonempty andb]. by rewrite Hv.
Qed.

Lemma dec_int_format lo hi cur n : lo <= n <= hi -> dec_int lo hi cur (JNum (format_int n)) = Some n.
Proof.
  intros H. cbn [dec_int]. rewrite lit_int_format.
  by replace ((lo <=? n) && (n <=? hi)) with true by lia.
Qed.

#[local] Arguments dec_int : simpl never.

(** ** What survives a trip through the log

    [norm_any v] is the dynamic value read back from the JSON text of [v]:
    every number comes back as a [float64].  It is undefined when the text is
    not faithful (invalid UTF-8, NaN, extreme nesting). *)
Definition norm_any (v : any) : option any :=
  match any_json v with
  | Some j => if json_ok j && (json_depth j <=? 1000)%N then decode_any j else None
  | None => None
  end.

Definition norm_ix (ix : IndexValues) : IndexValues := omap norm_any ix.

Definition ix_ok (ix : IndexValues) : Prop :=
  map_Forall (fun k v => utf8_valid k = true /\ is_Some (norm_any v)) ix.

#[global] Instance ix_ok_dec ix : Decision (ix_ok ix).
Proof. unfold ix_ok. apply _. Defined.

Definition blob_ok (b : option blobRef) : Prop :=
  match b with
  | Some b => in64 (br_Off b) /\ in32 (br_Size b) /\ in64 (br_Gen b)
  | None => True
  end.

#[global] Instance blob_ok_dec b : Decision (blob_ok b).
Proof. destruct b; unfold blob_ok; apply _. Defined.

(** Records in canonical form ([Text] empty) whose key and index values are
    faithful in JSON. *)
Definition record_ok (r : record) : Prop :=
  utf8_valid (r_Key r) = true /\ r_Text r = [] /\ ix_ok (r_IX r)
  /\ blob_ok (r_Blob r) /\ in64 (r_Exp r).

#[global] Instance record_ok_dec r : Decision (record_ok r).
Proof. unfold record_ok. apply _. Defined.

Definition norm_record (r : record) : record := with_ix (norm_ix (r_IX r)) r.

Lemma set_fields_app {R} (f : R -> gostring * json -> option R) l1 l2 r :
  set_fields f (l1 ++ l2) r =
  match set_fields f l1 r with Some r' => set_fields f l2 r' | None => None end.
Proof.
  revert r. induction l1 as [|kj l1 IH]; intros r; simpl; [done|]. destruct (f r kj); [apply IH|done].
Qed.

(** Insertion of the read-back values of a field list. *)
Definition ins_norm (m : IndexValues) (kv : gostring * any) : IndexValues :=
  match norm_any kv.2 with Some v => <[kv.1 := v]> m | None => m end.

Lemma norm_any_inv v w : norm_any v = Some w ->
  exists j, any_json v = Some j /\ json_ok j = true /\ (json_depth j <= 1000)%N /\ decode_any j = Some w.
Proof.
  unfold norm_any. destruct (any_json v) as [j|]; [|done].
  destruct (json_ok j && (json_depth j <=? 1000)%N) eqn:H; [|done]. intros Hd.
  apply andb_true_iff in H as [H1 H2%N.leb_le]. eauto.
Qed.

Lemma fields_json_spec l :
  Forall (fun kv => utf8_valid kv.1 = true /\ is_Some (norm_any kv.2)) l ->
  exists fs, fields_json l = Some fs
    /\ forallb (fun kv => utf8_valid (fst kv) && json_ok (snd kv)) fs = true
    /\ (fold_right (fun kv d => N.max (json_depth (snd kv)) d) 0%N fs <= 1000)%N
    /\ length fs = length l
    /\ forall m, set_fields set_ix_field fs m = Some (foldl ins_norm m l).
Proof.
  induction 1 as [|[k v] l [Hk [w Hw]] HF (fs & IH1 & IH2 & IH3 & IH4 & IH5)]; cbn [fst snd] in *.
  - exists []. repeat split; simpl; lia || done.
  - destruct (norm_any_inv v w Hw) as (j & Hj & Hok & Hdep & Hdec).
    exists ((k, j) :: fs). cbn [fields_json]. rewrite Hj, IH1. split; [done|].
    cbn [forallb fold_right fst snd length]. rewrite Hk, Hok, IH2. repeat split; [lia|lia|].
    intros m. cbn [set_fields foldl]. unfold set_ix_field at 1, ins_norm at 2. cbn [fst snd].
    rewrite Hdec, Hw. apply IH5.
Qed.

Lemma foldl_ins_norm l m : NoDup l.*1 ->
  forall k, foldl ins_norm m l !! k =
    match (list_to_map l : gmap gostring any) !! k with
    | Some v => match norm_any v with Some w => Some w | None => m !! k end
    | None => m !! k
    end.
Proof.
  revert m. induction l as [|[k0 v0] l IH]; intros m Hnd k; [done|].
  apply NoDup_cons in Hnd as [Hnin Hnd]. cbn [foldl list_to_map foldr]. rewrite IH by done.
  simpl. unfold ins_norm. cbn [fst snd].
  destruct (decide (k0 = k)) as [->|Hne].
  - rewrite lookup_insert_eq. rewrite (not_elem_of_list_to_map_1 l) by done.
    destruct (norm_any v0); [by rewrite lookup_insert_eq|done].
  - rewrite lookup_insert_ne by done.
    destruct (list_to_map l !! k), (norm_any v0); simpl;
      try rewrite !lookup_insert_ne by done; done.
Qed.

Lemma sort_fields_perm {A} (l : list (gostring * A)) : sort_fields l ≡ₚ l.
Proof. apply merge_sort_Permutation. Qed.

Lemma norm_ix_fold ix :
  foldl ins_norm ∅ (sort_fields (map_to_list ix)) = norm_ix ix.
Proof.
  apply map_eq. intros k.
  assert (Hnd : NoDup (sort_fields (map_to_list ix)).*1).
  { rewrite sort_fields_perm. apply NoDup_fst_map_to_list. }
  rewrite foldl_ins_norm by done. unfold norm_ix. rewrite lookup_omap.
  rewrite (list_to_map_proper _ (map_to_list ix)); [|done|apply sort_fields_perm].
  rewrite list_to_map_to_list. destruct (ix !! k) as [v|]; simpl; [|done].
  by destruct (norm_any v).
Qed.

Lemma ix_json_spec ix : ix_ok ix ->
  exists fs, ix_json ix = Some fs
    /\ forallb (fun kv => utf8_valid (fst kv) && json_ok (snd kv)) fs = true
    /\ (fold_right (fun kv d => N.max (json_depth (snd kv)) d) 0%N fs <= 1000)%N
    /\ (nonempty fs = false -> ix = ∅)
    /\ set_fields set_ix_field fs ∅ = Some (norm_ix ix).
Proof.
  intros Hix. unfold ix_json.
  destruct (fields_json_spec (sort_fields (map_to_list ix))) as (fs & H1 & H2 & H3 & H4 & H5).
  { rewrite sort_fields_perm. apply map_Forall_to_list in Hix.
    eapply Forall_impl; [exact Hix|]. by intros [k v] ?. }
  exists fs. rewrite H1, H5, norm_ix_fold. repeat split; try done.
  intros Hn. destruct fs; [|done]. simpl in H4.
  rewrite sort_fields_perm in H4. symmetry in H4.
  apply nil_length_inv in H4. by apply map_to_list_empty_iff in H4.
Qed.

Lemma blob_json_ok b : json_ok (blob_json b) = true.
Proof.
  unfold blob_json. destruct (br_Gen b =? 0); cbn; by rewrite !is_json_number_int.
Qed.

Lemma dec_blob_json b : blob_ok (Some b) -> dec_blob None (blob_json b) = Some (Some b).
Proof.
  destruct b as [o n g]. unfold blob_ok, in64, in32, dec_blob, blob_json. cbn [br_Off br_Size br_Gen].
  intros (Ho & Hn & Hg).
  assert (Hs : forall g0, set_fields set_blob_field
     [(bs "o", JNum (format_int o)); (bs "n", JNum (format_int n))] (BlobRef 0 0 g0)
     = Some (BlobRef o n g0)).
  { intros g0. cbn [set_fields]. unfold set_blob_field at 1.
    change (fold_name (bs "o")) with (bs "o"). rewrite decide_True by done.
    rewrite dec_int_format by done. cbn.
    change (fold_name (bs "n")) with (bs "n").
    rewrite decide_False by done. rewrite decide_True by done. cbn [br_Size].
    by rewrite dec_int_format. }
  rewrite set_fields_app. cbn [default]. rewrite Hs.
  destruct (Z.eqb_spec g 0) as [->|]; [done|].
  cbn [set_fields]. unfold set_blob_field. change (fold_name (bs "g")) with (bs "g").
  rewrite !decide_False, decide_True by done. cbn. by rewrite dec_int_format.
Qed.

(** The fields of a record, decoded in order, rebuild it.  Each lemma is one
    segment of [record_fields]. *)
Lemma dec_seg_k k r : set_fields set_record_field [(bs "k", JStr k)] r = Some (with_key k r).
Proof. done. Qed.

Lemma dec_seg_s t r : r_Text r = [] ->
  set_fields set_record_field (opt_field (nonempty t) (bs "s") (JStr t)) r = Some (with_text t r).
Proof. intros H. destruct t; [|done]. destruct r; simpl in *; by subst. Qed.

Lemma dec_seg_v v r : r_Value r = [] ->
  set_fields set_record_field (opt_field (nonempty v) (bs "v") (JStr (b64_encode v))) r
  = Some (with_value v r).
Proof.
  intros H. destruct v as [|b v]; [destruct r; simpl in *; by subst|].
  cbn [nonempty opt_field set_fields]. unfold set_record_field.
  change (fold_name (bs "v")) with (bs "v").
  rewrite !decide_False, decide_True by done. unfold dec_bytes. by rewrite b64_decode_encode.
Qed.

Lemma dec_seg_b b r : blob_ok b -> r_Blob r = None ->
  set_fields set_record_field (match b with Some b => [(bs "b", blob_json b)] | None => [] end) r
  = Some (with_blob b r).
Proof.
  intros Hb H. destruct b as [b|]; [|destruct r; simpl in *; by subst].
  cbn [set_fields]. unfold set_record_field. change (fold_name (bs "b")) with (bs "b").
  rewrite !decide_False, decide_True by done. rewrite H. by rewrite dec_blob_json.
Qed.

Lemma dec_seg_del d r : r_Deleted r = false ->
  set_fields set_record_field (opt_field d (bs "del") (JBool true)) r = Some (with_del d r).
Proof. intros H. destruct d; [done|]. destruct r; simpl in *; by subst. Qed.

Lemma dec_seg_ix ix fs r : r_IX r = ∅ -> set_fields set_ix_field fs ∅ = Some (norm_ix ix) ->
  (nonempty fs = false -> ix = ∅) ->
  set_fields set_record_field (opt_field (nonempty fs) (bs "ix") (JObj fs)) r
  = Some (with_ix (norm_ix ix) r).
Proof.
  intros H Hfs Hn. destruct (nonempty fs) eqn:E.
  - cbn [opt_field set_fields]. unfold set_record_field. change (fold_name (bs "ix")) with (bs "ix").
    rewrite !decide_False, decide_True by done. cbn [dec_ix]. rewrite H. by rewrite Hfs.
  - rewrite Hn by done. destruct r; simpl in *; by subst.
Qed.

Lemma dec_seg_c c r : r_Counter r = false ->
  set_fields set_record_field (opt_field c (bs "c") (JBool true)) r = Some (with_counter c r).
Proof. intros H. destruct c; [done|]. destruct r; simpl in *; by subst. Qed.

Lemma dec_seg_exp e r : r_Exp r = 0 -> in64 e ->
  set_fields set_record_field (opt_field (negb (e =? 0)) (bs "exp") (JNum (format_int e))) r
  = Some (with_exp e r).
Proof.
  intros H He. destruct (Z.eqb_spec e 0) as [->|]; [destruct r; simpl in *; by subst|].
  cbn [negb opt_field set_fields]. unfold set_record_field.
  change (fold_name (bs "exp")) with (bs "exp").
  rewrite !decide_False, decide_True by done. by rewrite dec_int_format.
Qed.

Lemma set_record_fields r fs : blob_ok (r_Blob r) -> in64 (r_Exp r) ->
  set_fields set_ix_field fs ∅ = Some (norm_ix (r_IX r)) ->
  (nonempty fs = false -> r_IX r = ∅) ->
  set_fields set_record_field (record_fields r fs) zero_record = Some (norm_record r).
Proof.
  intros Hb He Hfs Hn. unfold record_fields.
  rewrite set_fields_app, dec_seg_k; cbv iota.
  rewrite set_fields_app, dec_seg_s by done; cbv iota.
  rewrite set_fields_app, dec_seg_v by done; cbv iota.
  rewrite set_fields_app, dec_seg_b by done; cbv iota.
  rewrite set_fields_app, dec_seg_del by done; cbv iota.
  rewrite set_fields_app, (dec_seg_ix (r_IX r)) by done; cbv iota.
  rewrite set_fields_app, dec_seg_c by done; cbv iota.
  rewrite dec_seg_exp by done. by destruct r.
Qed.

Lemma json_ok_opt b n j : utf8_valid n = true -> (b = true -> json_ok j = true) ->
  forallb (fun kv => utf8_valid (fst kv) && json_ok (snd kv)) (opt_field b n j) = true.
Proof. intros Hn Hj. destruct b; [|done]. cbn. by rewrite Hn, Hj. Qed.

Lemma record_fields_ok r fs :
  utf8_valid (r_Key r) = true -> utf8_valid (r_Text r) = true ->
  forallb (fun kv => utf8_valid (fst kv) && json_ok (snd kv)) fs = true ->
  json_ok (JObj (record_fields r fs)) = true.
Proof.
  intros Hk Ht Hfs. cbn [json_ok]. unfold record_fields. rewrite !forallb_app.
  rewrite !json_ok_opt by (done || (intros _; first [apply is_json_number_int | apply b64_utf8 | done])).
  cbn [forallb fst snd json_ok andb]. rewrite Hk. cbn.
  destruct (r_Blob r) as [b|]; [|done]. cbn [forallb fst snd]. by rewrite blob_json_ok.
Qed.

Definition fields_depth (l : list (gostring * json)) : N :=
  fold_right (fun kv d => N.max (json_depth (snd kv)) d) 0%N l.

Lemma fields_depth_app l1 l2 : fields_depth (l1 ++ l2) = N.max (fields_depth l1) (fields_depth l2).
Proof. induction l1 as [|kv l1 IH]; simpl; [lia|]. unfold fields_depth in *. simpl. lia. Qed.

Lemma fields_depth_opt b n j : (fields_depth (opt_field b n j) <= json_depth j)%N.
Proof. destruct b; cbn; lia. Qed.

Lemma record_depth r fs : (fields_depth fs <= 1000)%N ->
  (json_depth (JObj (record_fields r fs)) <= maxNestingDepth)%N.
Proof.
  intros Hfs. rewrite json_depth_obj. fold (fields_depth (record_fields r fs)).
  unfold record_fields. rewrite !fields_depth_app.
  assert (Hb : (fields_depth (match r_Blob r with Some b => [(bs "b", blob_json b)] | None => [] end) <= 1)%N).
  { destruct (r_Blob r) as [b|]; [|cbn; lia]. unfold blob_json. by destruct (br_Gen b =? 0). }
  assert (Hix : (fields_depth (opt_field (nonempty fs) (bs "ix") (JObj fs)) <= 1001)%N).
  { etransitivity; [apply fields_depth_opt|]. rewrite json_depth_obj. fold (fields_depth fs). lia. }
  pose proof (fields_depth_opt (nonempty (r_Text r)) (bs "s") (JStr (r_Text r))) as H1.
  pose proof (fields_depth_opt (nonempty (r_Value r)) (bs "v") (JStr (b64_encode (r_Value r)))) as H2.
  pose proof (fields_depth_opt (r_Deleted r) (bs "del") (JBool true)) as H3.
  pose proof (fields_depth_opt (r_Counter r) (bs "c") (JBool true)) as H4.
  pose proof (fields_depth_opt (negb (r_Exp r =? 0)) (bs "exp") (JNum (format_int (r_Exp r)))) as H5.
  cbn [json_depth] in *. unfold maxNestingDepth.
  assert (fields_depth [(bs "k", JStr (r_Key r))] = 0%N) as -> by done. lia.
Qed.

Lemma to_text_key r : r_Key (to_text r) = r_Key r.
Proof. unfold to_text. by destruct (_ && _). Qed.
Lemma to_text_ix r : r_IX (to_text r) = r_IX r.
Proof. unfold to_text. by destruct (_ && _). Qed.
Lemma to_text_blob r : r_Blob (to_text r) = r_Blob r.
Proof. unfold to_text. by destruct (_ && _). Qed.
Lemma to_text_exp r : r_Exp (to_text r) = r_Exp r.
Proof. unfold to_text. by destruct (_ && _). Qed.

Lemma to_text_utf8 r : r_Text r = [] -> utf8_valid (r_Text (to_text r)) = true.
Proof.
  intros H. unfold to_text. destruct (_ && _) eqn:E; [|by rewrite H].
  by apply andb_true_iff in E as [_ E].
Qed.

(** The text of a well-formed record. *)
Lemma marshalRecord_text r : record_ok r ->
  exists fs, ix_json (r_IX r) = Some fs
    /\ marshalRecord r = Some (print (JObj (record_fields (to_text r) fs)))
    /\ json_ok (JObj (record_fields (to_text r) fs)) = true
    /\ (json_depth (JObj (record_fields (to_text r) fs)) <= maxNestingDepth)%N
    /\ set_fields set_record_field (record_fields (to_text r) fs) zero_record
       = Some (norm_record (to_text r)).
Proof.
  intros (Hk & Ht & Hix & Hb & He).
  destruct (ix_json_spec _ Hix) as (fs & H1 & H2 & H3 & H4 & H5).
  exists fs. split; [done|].
  unfold marshalRecord, json_marshal_record. rewrite to_text_ix, H1. split; [done|].
  split; [apply record_fields_ok; [by rewrite to_text_key|by apply to_text_utf8|done]|].
  split; [by apply record_depth|].
  apply set_record_fields; rewrite ?to_text_blob, ?to_text_exp, ?to_text_ix; done.
Qed.

Lemma untext_norm r : r_Text r = [] ->
  (let r' := norm_record (to_text r) in
   if nonempty (r_Text r') then with_text [] (with_value (r_Text r') r') else r') = norm_record r.
Proof.
  intros Ht. unfold norm_record, to_text. destruct (_ && _) eqn:E; cbn.
  - apply andb_true_iff in E as [E _]. rewrite E. destruct r; simpl in *; by subst.
  - by rewrite Ht.
Qed.

Lemma unmarshal_marshal r line : record_ok r -> marshalRecord r = Some line ->
  unmarshalRecord line = Some (norm_record r) /\ no_ctl line = true /\ line <> [].
Proof.
  intros Hr Hm. destruct (marshalRecord_text r Hr) as (fs & _ & H2 & H3 & H4 & H5).
  rewrite Hm in H2. apply (inj Some) in H2. subst line. split; [|split; [by apply print_no_ctl|done]].
  unfold unmarshalRecord, json_unmarshal_record. rewrite json_parse_print by done.
  rewrite H5. f_equal. apply untext_norm. by destruct Hr as (_ & ? & _).
Qed.

Lemma marshal_total r : record_ok r -> exists line, marshalRecord r = Some line.
Proof. intros Hr. destruct (marshalRecord_text r Hr) as (fs & _ & ? & _). eauto. Qed.

(** C16. Records survive the log: every well-formed record marshals to a line
    without control characters (so the only newline in the log is the one
    that terminates it), and the line unmarshals to the same record, with the
    key, the value (text or binary), the blob reference, the flags and the
    expiry intact and each index value replaced by what JSON gives back. *)
Theorem record_roundtrip r : record_ok r ->
  exists line, marshalRecord r = Some line
    /\ no_ctl line = true
    /\ unmarshalRecord line = Some (norm_record r).
Proof.
  intros Hr. destruct (marshal_total r Hr) as [line Hl]. exists line.
  by destruct (unmarshal_marshal r line Hr Hl) as (? & ? & _).
Qed.

Lemma record_roundtrip_witness :
  let r := MkRecord (bs "call:1") [] [Byte.xff; Byte.x00] (Some (BlobRef 7 2 1)) false
             {[ bs "status" := AInt 200 ]} false 1700000000000 in
  exists line, marshalRecord r = Some line /\ no_ctl line = true
    /\ unmarshalRecord line = Some (norm_record r).
Proof. apply record_roundtrip. decide_now. Defined.
