(* ===== verification/CounterPatch.v ===== *)
(** * The in-place counter patch at the byte level

    counter.go (the fast path of [counterUpdate]) overwrites the 20 value
    bytes of a counter's line.  It finds them by searching the marshaled line
    for the value field, quotes included.  This file shows that the search finds the
    value field and nothing else, whatever the key holds, and that the patched
    line is exactly the line of the updated record. *)

From S2P Require Import Prelude Floats Types Counter Json Base64 Record.
#[local] Open Scope Z_scope.

(** [bytes.Index]: the offset of the first occurrence. *)
Fixpoint bytes_index (s pat : gostring) : option nat :=
  if has_prefix pat s then Some 0%nat
  else match s with
       | [] => None
       | _ :: s' => S <$> bytes_index s' pat
       end.

(** The pattern [counterUpdate] builds around the current value. *)
Definition counter_pat (value : gostring) : gostring := qs "'s':'" ++ value ++ [Byte.x22].

(** Overwriting [data] at offset [off] of a byte sequence that reaches at
    least that far. *)
Definition splice (off : nat) (data s : gostring) : gostring :=
  take off s ++ data ++ drop (off + length data) s.

(** ** The bytes before the value field *)

(** Some place where the letter s, a quote and a colon occur in a row. *)
Fixpoint has3 (l : gostring) : bool :=
  match l with
  | a :: (b :: c :: _) as t =>
      (bool_decide (a = Byte.x73) && bool_decide (b = Byte.x22) && bool_decide (c = Byte.x3a)) || has3 t
  | _ => false
  end.

(** Every quote is preceded by a backslash. *)
Fixpoint qesc (prev : byte) (l : gostring) : bool :=
  match l with
  | [] => true
  | b :: l' => (negb (bool_decide (b = Byte.x22)) || bool_decide (prev = Byte.x5c)) && qesc b l'
  end.

Lemma bytes_index_skip pre q rest :
  has3 (pre ++ [Byte.x22; Byte.x73; Byte.x22]) = false ->
  bytes_index (pre ++ (Byte.x22 :: Byte.x73 :: Byte.x22 :: Byte.x3a :: q) ++ rest)
    (Byte.x22 :: Byte.x73 :: Byte.x22 :: Byte.x3a :: q) = Some (length pre).
Proof.
  set (pat := Byte.x22 :: Byte.x73 :: Byte.x22 :: Byte.x3a :: q).
  induction pre as [|a pre IH]; intros H3.
  - assert (Hp : has_prefix pat (pat ++ rest) = true) by (apply has_prefix_spec; eauto).
    cbn [app length]. destruct (pat ++ rest) as [|x t]; [done|]. cbn [bytes_index]. by rewrite Hp.
  - cbn [app bytes_index length].
    destruct (has_prefix pat (a :: pre ++ pat ++ rest)) eqn:Hp.
    + exfalso. apply has_prefix_spec in Hp as [k Hk]. unfold pat in Hk at 2. cbn [app] in Hk.
      injection Hk as -> Hk. destruct pre as [|b1 [|b2 [|b3 pre]]]; unfold pat in Hk;
        cbn [app] in Hk; simplify_eq.
    + rewrite IH; [done|]. cbn [app] in H3.
      destruct (pre ++ [Byte.x22; Byte.x73; Byte.x22]) as [|b [|c t]] eqn:E; [done..|].
      cbn [has3] in H3 |- *. by apply orb_false_iff in H3 as [_ H3].
Qed.

Lemma qesc_has3 l : forall prev, qesc prev l = true ->
  has3 (prev :: l ++ [Byte.x22; Byte.x2c; Byte.x22; Byte.x73; Byte.x22]) = false.
Proof.
  induction l as [|b l IH]; intros prev Hq.
  - cbn. by rewrite !andb_false_r.
  - cbn [qesc] in Hq. apply andb_true_iff in Hq as [Hb Hq]. cbn [app].
    specialize (IH b Hq).
    destruct (l ++ [Byte.x22; Byte.x2c; Byte.x22; Byte.x73; Byte.x22]) as [|c t] eqn:E; [by destruct l|].
    cbn [has3]. cbn [has3] in IH. rewrite IH, orb_false_r.
    destruct (decide (b = Byte.x22)) as [->|]; [|by rewrite (bool_decide_eq_false_2 (b = Byte.x22)), andb_false_r].
    cbn in Hb. apply bool_decide_eq_true in Hb as ->. done.
Qed.

(** In escaped text every quote has its backslash. *)
Lemma qesc_ascii a prev t : bZ a < 128 ->
  (forall p, qesc p t = true) -> qesc prev (esc_ascii a ++ t) = true.
Proof. intros Ha Ht. destruct a; solve [cbn; rewrite ?Ht; done | by vm_compute in Ha]. Qed.

Lemma qesc_raw a prev t : 128 <= bZ a -> qesc prev (a :: t) = qesc a t.
Proof.
  intros Ha. cbn [qesc]. rewrite (bool_decide_eq_false_2 (a = Byte.x22)); [done|].
  intros ->. by vm_compute in Ha.
Qed.

Lemma cont_high b : cont b = true -> 128 <= bZ b.
Proof. unfold cont. lia. Qed.

Lemma qesc_esc3 a b c prev t : is3 a b c = true ->
  (forall p, qesc p t = true) -> qesc prev (esc3 a b c ++ t) = true.
Proof.
  intros H Ht. pose proof (is3_lead _ _ _ H). unfold esc3. destruct (_ && _) eqn:E.
  - assert (Hc : c = Byte.xa8 \/ c = Byte.xa9).
    { destruct (Z.eqb_spec (bZ c) 168); [left|right]; apply bZ_inj;
        [change (bZ Byte.xa8) with 168 | change (bZ Byte.xa9) with 169]; lia. }
    destruct Hc as [-> | ->]; cbn; by rewrite Ht.
  - assert (128 <= bZ b /\ 128 <= bZ c).
    { unfold is3, within, cont in H. destruct (Z.eqb_spec (bZ a) 224), (Z.eqb_spec (bZ a) 237); lia. }
    cbn [app]. by rewrite !qesc_raw by lia.
Qed.

Lemma escape_qesc s : forall prev, qesc prev (escape s) = true.
Proof.
  remember (length s) as n eqn:Hn. revert s Hn. induction (lt_wf n) as [n _ IH]. intros s ->.
  assert (IH' : forall t, (length t < length s)%nat -> forall p, qesc p (escape t) = true) by eauto.
  clear IH. intros prev. destruct s as [|a s1]; [done|]. cbn [escape].
  destruct (Z.ltb_spec (bZ a) 128).
  { apply qesc_ascii; [lia|]. apply IH'. simpl. lia. }
  assert (Hbad : qesc prev (bs "\ufffd" ++ escape s1) = true) by (cbn; apply IH'; simpl; lia).
  destruct s1 as [|b s2]; [done|]. destruct (is2 a b) eqn:E2.
  { unfold is2, within, cont in E2. cbn [app]. rewrite !qesc_raw by lia. apply IH'. simpl. lia. }
  destruct s2 as [|c s3]; [done|]. destruct (is3 a b c) eqn:E3.
  { apply qesc_esc3; [done|]. apply IH'. simpl. lia. }
  destruct s3 as [|d s4]; [done|]. destruct (is4 a b c d) eqn:E4; [|done].
  pose proof (is4_lead _ _ _ _ E4).
  assert (128 <= bZ b /\ 128 <= bZ c /\ 128 <= bZ d).
  { unfold is4, within, cont in E4. destruct (Z.eqb_spec (bZ a) 240), (Z.eqb_spec (bZ a) 244); lia. }
  cbn [app]. rewrite !qesc_raw by lia. apply IH'. simpl. lia.
Qed.

(** ** The layout of a counter's line *)

Definition plain (b : byte) : bool :=
  bool_decide (esc_ascii b = [b]) && (bZ b <? 128).

Lemma escape_plain s : forallb plain s = true -> escape s = s.
Proof.
  induction s as [|b s IH]; [done|]. cbn [forallb]. intros [Hb Hs]%andb_true_iff.
  unfold plain in Hb. apply andb_true_iff in Hb as [Hb%bool_decide_eq_true Hl].
  rewrite escape1 by lia. rewrite Hb, IH; done.
Qed.

Lemma plain_utf8 s : forallb plain s = true -> utf8_valid s = true.
Proof.
  intros H. apply utf8_valid_ascii, Forall_forall. intros b Hb.
  rewrite forallb_forall in H. specialize (H b (proj1 (list_elem_of_In _ _) Hb)).
  unfold plain in H. apply andb_true_iff in H as [_ H]. lia.
Qed.

Lemma counter_shape_plain v : counter_shape v = true -> forallb plain v = true.
Proof.
  assert (Hd : forall b, is_digit b = true -> plain b = true).
  { intros b. destruct b; cbn; done. }
  destruct v as [|s ds]; [done|]. cbn [counter_shape forallb].
  rewrite !andb_true_iff, orb_true_iff, !bool_decide_eq_true, forallb_forall.
  intros [[Hs _] Hds]. split; [by destruct Hs as [-> | ->]|].
  apply forallb_forall. eauto.
Qed.

Lemma counter_shape_length v : counter_shape v = true -> length v = counterWidth.
Proof. intros H. by apply counter_shape_lookup in H as (? & _). Qed.

(** What [parseCounter] accepts has the shape. *)
Lemma parse_shape v n : parseCounter v = Some n -> counter_shape v = true.
Proof.
  unfold parseCounter, counter_shape. destruct v as [|s ds]; [done|].
  destruct (bool_decide (length (s :: ds) = counterWidth)) eqn:Hl; [|done].
  apply bool_decide_eq_true in Hl. simpl in Hl. injection Hl as Hl.
  destruct (bool_decide (s = Byte.x2b)) eqn:H1, (bool_decide (s = Byte.x2d)) eqn:H2; try done;
    cbn [negb andb orb]; rewrite bool_decide_eq_true_2 by done; cbn [andb];
    (destruct (parse_mag ds 0) as [m|] eqn:Hp; [|done]); intros _;
    apply parse_mag_bound in Hp as (HF & _); try (unfold zlen; rewrite Hl; simpl; lia);
    try lia; apply forallb_forall; intros x Hx%list_elem_of_In;
    by eapply (proj1 (Forall_forall _ _) HF).
Qed.

Definition join_tail (l : list gostring) : gostring :=
  match l with [] => [] | _ => comma ++ join l end.

Lemma join_cons_tail x l : join (x :: l) = x ++ join_tail l.
Proof. destruct l; simpl; [by rewrite app_nil_r|done]. Qed.

(** The fields after the value, which an increment leaves alone. *)
Definition after_value (r : record) (fs : list (gostring * json)) : list (gostring * json) :=
  match r_Blob r with Some b => [(bs "b", blob_json b)] | None => [] end
  ++ opt_field (r_Deleted r) (bs "del") (JBool true)
  ++ opt_field (nonempty fs) (bs "ix") (JObj fs)
  ++ opt_field (r_Counter r) (bs "c") (JBool true)
  ++ opt_field (negb (r_Exp r =? 0)) (bs "exp") (JNum (format_int (r_Exp r))).

Definition line_head (key : gostring) : gostring := qs "{'k':" ++ quote key ++ comma.
Definition line_tail (r : record) (fs : list (gostring * json)) : gostring :=
  join_tail (List.map member (after_value r fs)) ++ [Byte.x7d].

Lemma text_line r fs v : counter_shape v = true -> r_Text r = [] -> r_Value r = v ->
  print (JObj (record_fields (to_text r) fs))
  = line_head (r_Key r) ++ counter_pat v ++ line_tail r fs.
Proof.
  intros Hv Ht <-. pose proof (counter_shape_plain _ Hv) as Hp.
  assert (Hne : nonempty (r_Value r) = true) by (by destruct (r_Value r)).
  unfold to_text. rewrite Hne, plain_utf8 by done. cbn [andb].
  rewrite print_obj. unfold record_fields. cbn -[member join line_tail opt_field].
  unfold opt_field at 1. rewrite Hne. unfold opt_field at 1. cbn [nonempty].
  fold (after_value r fs). cbn [app List.map]. rewrite join_cons, join_cons_tail.
  unfold line_head, line_tail, counter_pat, member at 1 2, quote. cbn [fst snd print].
  unfold quote. rewrite (escape_plain (r_Value r)) by done.
  change (escape (bs "k")) with (bs "k"). change (escape (bs "s")) with (bs "s").
  rewrite <- !app_assoc. reflexivity.
Qed.

Lemma head_no_match key : has3 (line_head key ++ [Byte.x22; Byte.x73; Byte.x22]) = false.
Proof.
  unfold line_head, quote, comma. rewrite <- !app_assoc.
  pose proof (qesc_has3 (escape key) Byte.x22 (escape_qesc key _)) as H.
  change (qs "{'k':") with [Byte.x7b; Byte.x22; Byte.x6b; Byte.x22; Byte.x3a].
  cbn [app] in *. remember (escape key ++ _) as t eqn:E.
  destruct t as [|b [|c t]]; [by destruct (escape key) as [|? [|? ?]]..|].
  cbn [has3] in *. cbn. apply orb_false_iff in H as [_ H]. exact H.
Qed.

(** The search finds the value field: its offset is that of the field,
    whatever bytes the key is made of. *)
Lemma bytes_index_line r fs v : counter_shape v = true ->
  bytes_index (line_head (r_Key r) ++ counter_pat v ++ line_tail r fs) (counter_pat v)
  = Some (length (line_head (r_Key r))).
Proof. intros. apply (bytes_index_skip _ (Byte.x22 :: v ++ [Byte.x22])), head_no_match. Qed.

Lemma splice_app pre data new post :
  length new = length data ->
  splice (length pre) new (pre ++ data ++ post) = pre ++ new ++ post.
Proof.
  intros Hl. unfold splice. rewrite take_app_length. f_equal. f_equal.
  rewrite Hl, app_assoc. rewrite drop_app_ge by (rewrite length_app; lia).
  rewrite length_app. replace (_ - _)%nat with 0%nat by lia. done.
Qed.

Lemma splice_line r fs v w : counter_shape v = true -> counter_shape w = true ->
  splice (length (line_head (r_Key r)) + 5) w (line_head (r_Key r) ++ counter_pat v ++ line_tail r fs)
  = line_head (r_Key r) ++ counter_pat w ++ line_tail r fs.
Proof.
  intros Hv Hw. unfold counter_pat. rewrite <- !app_assoc.
  rewrite (app_assoc (line_head _)). rewrite (app_assoc (line_head _) _ (w ++ _)).
  replace (length (line_head (r_Key r)) + 5)%nat
    with (length (line_head (r_Key r) ++ qs "'s':'")) by (rewrite length_app; done).
  apply splice_app. by rewrite !counter_shape_length.
Qed.

Lemma patch_marshal r line w : record_ok r -> counter_shape (r_Value r) = true ->
  counter_shape w = true -> marshalRecord r = Some line ->
  bytes_index line (counter_pat (r_Value r)) = Some (length (line_head (r_Key r)))
  /\ marshalRecord (with_value w r) = Some (splice (length (line_head (r_Key r)) + 5) w line)
  /\ (length (line_head (r_Key r)) + 5 + counterWidth <= length line)%nat.
Proof.
  intros Hr Hv Hw Hm. destruct (marshalRecord_text r Hr) as (fs & Hfs & Hm' & _).
  rewrite Hm in Hm'. apply (inj Some) in Hm'. subst line. pose proof Hr as (_ & Ht & _).
  rewrite (text_line r fs (r_Value r)) by done. split; [by apply bytes_index_line|].
  rewrite splice_line by done. split.
  - unfold marshalRecord, json_marshal_record. rewrite to_text_ix. cbn [with_value r_IX].
    rewrite Hfs. f_equal. by rewrite (text_line (with_value w r) fs w).
  - unfold counter_pat. rewrite !length_app, (counter_shape_length (r_Value r)) by done.
    change (length (qs "'s':'")) with 5%nat. lia.
Qed.

(** The in-place increment is exact: in the line of a counter record the
    pattern search finds the value field and no other place, even when the
    key itself contains the pattern, and overwriting the 20 bytes found gives
    byte for byte the line that marshaling the updated record would give. *)
Theorem counter_patch_exact r line next :
  record_ok r -> is_Some (parseCounter (r_Value r)) -> marshalRecord r = Some line ->
  exists idx, bytes_index line (counter_pat (r_Value r)) = Some idx
    /\ marshalRecord (with_value (formatCounter next) r)
       = Some (splice (idx + 5) (formatCounter next) line).
Proof.
  intros Hr [v Hv] Hm. exists (length (line_head (r_Key r))).
  destruct (patch_marshal r line (formatCounter next)) as (? & ? & _); [done| |apply format_shape|done|done].
  by eapply parse_shape.
Qed.

(** A key that spells out a value field. *)
Definition tricky_counter : record :=
  MkRecord (qs "'s':'+0000000000000000007'") [] (formatCounter 7) None false ∅ true 0.

Lemma counter_patch_exact_witness :
  exists line, marshalRecord tricky_counter = Some line /\
  exists idx, bytes_index line (counter_pat (formatCounter 7)) = Some idx
    /\ marshalRecord (with_value (formatCounter 8) tricky_counter)
       = Some (splice (idx + 5) (formatCounter 8) line).
Proof.
  destruct (marshalRecord tricky_counter) as [line|] eqn:E; [|by vm_compute in E].
  exists line. split; [done|].
  apply (counter_patch_exact tricky_counter line 8);
    [decide_now | by eexists; vm_compute | done].
Defined.
