(* ===== verification/BTree.v ===== *)
(** * The ordered index structure: an interface for tidwall/btree

    Both indexes are B-trees of the third-party package
    github.com/tidwall/btree, used through the operations below.  The package
    is a parameter of the model: a class of operations, and a class of laws
    that states its documented behaviour in terms of the sequence [bt_scan]
    that an in-order traversal visits.  Every law is conditional on the tree
    being ordered by a strict weak order on the elements involved, which is
    what the package requires of its [less] function.  The sorted list at the
    end of the file is a concrete instance. *)

From S2P Require Import Prelude.
#[local] Open Scope Z_scope.

(** [less] is a strict weak order on the elements that satisfy [P]. *)
Class WeakOrder {E} (P : E -> Prop) (less : E -> E -> bool) : Prop := {
  wo_irrefl x : P x -> less x x = false;
  wo_trans x y z : P x -> P y -> P z -> less x y = true -> less y z = true -> less x z = true;
  wo_ntrans x y z : P x -> P y -> P z -> less x y = false -> less y z = false -> less x z = false
}.

(** Elements the order does not separate. *)
Definition equiv {E} (less : E -> E -> bool) (x y : E) : bool := negb (less x y) && negb (less y x).

Create HintDb nteedb.

(** ** The reference: strictly sorted lists *)

Fixpoint sl_set {E} (less : E -> E -> bool) (x : E) (l : list E) : list E :=
  match l with
  | [] => [x]
  | y :: l' => if less x y then x :: l
               else if less y x then y :: sl_set less x l'
               else x :: l'
  end.

Fixpoint sl_del {E} (less : E -> E -> bool) (x : E) (l : list E) : list E :=
  match l with
  | [] => []
  | y :: l' => if less x y then l
               else if less y x then y :: sl_del less x l'
               else l'
  end.

Fixpoint sl_get {E} (less : E -> E -> bool) (x : E) (l : list E) : option E :=
  match l with
  | [] => None
  | y :: l' => if less y x then sl_get less x l'
               else if less x y then None else Some y
  end.

(** The elements not below [x]. *)
Fixpoint sl_from {E} (less : E -> E -> bool) (x : E) (l : list E) : list E :=
  match l with
  | [] => []
  | y :: l' => if less y x then sl_from less x l' else l
  end.

Definition sl_sorted {E} (less : E -> E -> bool) (l : list E) : Prop :=
  StronglySorted (fun x y => less x y = true) l.

(** ** Operations *)

Class BTreeG := {
  bt : Type -> Type;
  bt_new : forall {E}, (E -> E -> bool) -> bt E;           (* NewBTreeG *)
  bt_less : forall {E}, bt E -> E -> E -> bool;            (* the order it was built with *)
  bt_scan : forall {E}, bt E -> list E;                    (* Scan: what is visited *)
  bt_len : forall {E}, bt E -> Z;                          (* Len *)
  bt_get : forall {E}, bt E -> E -> option E;              (* Get *)
  bt_set : forall {E}, bt E -> E -> bt E;                  (* Set *)
  bt_delete : forall {E}, bt E -> E -> option E * bt E;    (* Delete *)
  bt_load : forall {E}, bt E -> E -> bt E;                 (* Load *)
  bt_ascend : forall {E}, bt E -> E -> list E;             (* Ascend: what is visited *)
  bt_get_at : forall {E}, bt E -> Z -> option E;           (* GetAt *)
  bt_clear : forall {E}, bt E -> bt E;                     (* Clear *)
  bt_copy : forall {E}, bt E -> bt E;                      (* Copy *)
  (* Iter: a cursor over the tree *)
  bt_iter : Type -> Type;
  it_new : forall {E}, bt E -> bt_iter E;
  it_seek : forall {E}, bt_iter E -> E -> bool * bt_iter E;
  it_next : forall {E}, bt_iter E -> bool * bt_iter E;
  it_prev : forall {E}, bt_iter E -> bool * bt_iter E;
  it_last : forall {E}, bt_iter E -> bool * bt_iter E;
  it_item : forall {E}, bt_iter E -> option E;             (* Item, when positioned *)
  (* the sequence a cursor walks, and where it stands *)
  it_seq : forall {E}, bt_iter E -> list E;
  it_pos : forall {E}, bt_iter E -> option nat;
  it_less : forall {E}, bt_iter E -> E -> E -> bool
}.

(** A tree in order: its elements satisfy [P], on which its order is weak, and
    they are strictly increasing. *)
Definition tree_ok `{BTreeG} {E} (P : E -> Prop) (t : bt E) : Prop :=
  WeakOrder P (bt_less t) /\ Forall P (bt_scan t) /\ sl_sorted (bt_less t) (bt_scan t).

(** Index of the first element not below [x]. *)
Definition sl_rank {E} (less : E -> E -> bool) (x : E) (l : list E) : nat :=
  (length l - length (sl_from less x l))%nat.

(** A boolean movement that lands on position [i] when it is in range. *)
Definition lands {E} (l : list E) (i : nat) (ok : bool) (pos : option nat) : Prop :=
  if decide (i < length l)%nat then ok = true /\ pos = Some i else ok = false /\ pos = None.

Class BTreeGLaws (BT : BTreeG) : Prop := {
  law_new_less E less : bt_less (bt_new (E:=E) less) = less;
  law_new_scan E less : bt_scan (bt_new (E:=E) less) = [];
  law_len E (t : bt E) : bt_len t = zlen (bt_scan t);
  law_get E P (t : bt E) x : tree_ok P t -> P x -> bt_get t x = sl_get (bt_less t) x (bt_scan t);
  law_set_less E (t : bt E) x : bt_less (bt_set t x) = bt_less t;
  law_set E P (t : bt E) x : tree_ok P t -> P x -> bt_scan (bt_set t x) = sl_set (bt_less t) x (bt_scan t);
  law_delete_less E (t : bt E) x : bt_less (bt_delete t x).2 = bt_less t;
  law_delete_res E P (t : bt E) x : tree_ok P t -> P x ->
    (bt_delete t x).1 = sl_get (bt_less t) x (bt_scan t);
  law_delete E P (t : bt E) x : tree_ok P t -> P x ->
    bt_scan (bt_delete t x).2 = sl_del (bt_less t) x (bt_scan t);
  law_load_less E (t : bt E) x : bt_less (bt_load t x) = bt_less t;
  law_load E P (t : bt E) x : tree_ok P t -> P x -> bt_scan (bt_load t x) = sl_set (bt_less t) x (bt_scan t);
  law_ascend E P (t : bt E) x : tree_ok P t -> P x -> bt_ascend t x = sl_from (bt_less t) x (bt_scan t);
  law_get_at E (t : bt E) i : bt_get_at t i = if i <? 0 then None else bt_scan t !! Z.to_nat i;
  law_clear_less E (t : bt E) : bt_less (bt_clear t) = bt_less t;
  law_clear E (t : bt E) : bt_scan (bt_clear t) = [];
  law_copy_less E (t : bt E) : bt_less (bt_copy t) = bt_less t;
  law_copy E (t : bt E) : bt_scan (bt_copy t) = bt_scan t;
  law_iter E (t : bt E) : it_seq (it_new t) = bt_scan t /\ it_less (it_new t) = bt_less t;
  law_item E (it : bt_iter E) : it_item it = match it_pos it with Some i => it_seq it !! i | None => None end;
  law_seek E P (it : bt_iter E) x ok it' :
    WeakOrder P (it_less it) -> Forall P (it_seq it) -> sl_sorted (it_less it) (it_seq it) -> P x ->
    it_seek it x = (ok, it') ->
    it_seq it' = it_seq it /\ it_less it' = it_less it
    /\ lands (it_seq it) (sl_rank (it_less it) x (it_seq it)) ok (it_pos it');
  law_next E (it : bt_iter E) i ok it' :
    it_pos it = Some i -> it_next it = (ok, it') ->
    it_seq it' = it_seq it /\ it_less it' = it_less it /\ lands (it_seq it) (S i) ok (it_pos it');
  law_prev E (it : bt_iter E) i ok it' :
    it_pos it = Some i -> it_prev it = (ok, it') ->
    it_seq it' = it_seq it /\ it_less it' = it_less it
    /\ match i with
       | O => ok = false /\ it_pos it' = None
       | S j => ok = true /\ it_pos it' = Some j
       end;
  law_last E (it : bt_iter E) ok it' :
    it_last it = (ok, it') ->
    it_seq it' = it_seq it /\ it_less it' = it_less it
    /\ match length (it_seq it) with
       | O => ok = false /\ it_pos it' = None
       | S j => ok = true /\ it_pos it' = Some j
       end
}.

(** ** Facts about the reference *)

Section sorted_lists.
Context {E} (P : E -> Prop) (less : E -> E -> bool) `{!WeakOrder P less}.
Implicit Types (x y : E) (l : list E).

Lemma wo_asym x y : P x -> P y -> less x y = true -> less y x = false.
Proof.
  intros Hx Hy H. destruct (less y x) eqn:H'; [|done].
  pose proof (wo_trans x y x Hx Hy Hx H H') as Hc. by rewrite wo_irrefl in Hc.
Qed.

Lemma wo_lt_le x y z : P x -> P y -> P z -> less x y = true -> less z y = false -> less x z = true.
Proof.
  intros Hx Hy Hz H1 H2. destruct (less x z) eqn:H; [done|].
  by rewrite (wo_ntrans x z y) in H1.
Qed.

Lemma wo_le_lt x y z : P x -> P y -> P z -> less y x = false -> less y z = true -> less x z = true.
Proof.
  intros Hx Hy Hz H1 H2. destruct (less x z) eqn:H; [done|].
  by rewrite (wo_ntrans y x z) in H2.
Qed.

Lemma equiv_refl x : P x -> equiv less x x = true.
Proof. intros Hx. unfold equiv. by rewrite (wo_irrefl (less:=less)). Qed.

Lemma equiv_true x y : equiv less x y = true <-> less x y = false /\ less y x = false.
Proof. unfold equiv. by rewrite andb_true_iff, !negb_true_iff. Qed.

Lemma equiv_sym x y : equiv less x y = equiv less y x.
Proof. unfold equiv. by rewrite andb_comm. Qed.

Lemma less_not_equiv x y : less x y = true -> equiv less x y = false.
Proof. unfold equiv. by intros ->. Qed.

Lemma greater_not_equiv x y : less y x = true -> equiv less x y = false.
Proof. unfold equiv. intros ->. by rewrite andb_false_r. Qed.

Lemma equiv_trans x y z : P x -> P y -> P z ->
  equiv less x y = true -> equiv less y z = true -> equiv less x z = true.
Proof. rewrite !equiv_true. intros Hx Hy Hz [] []. split; [eapply (wo_ntrans x y z) | eapply (wo_ntrans z y x)]; eauto. Qed.

Lemma sorted_cons_inv x l : sl_sorted less (x :: l) ->
  sl_sorted less l /\ forall y, y ∈ l -> less x y = true.
Proof. intros [Hs HF]%StronglySorted_inv. split; [done|]. by rewrite Forall_forall in HF. Qed.

Lemma sorted_cons x l : sl_sorted less l -> (forall y, y ∈ l -> less x y = true) -> sl_sorted less (x :: l).
Proof. intros. constructor; [done|]. by apply Forall_forall. Qed.

Lemma sorted_lookup l i j x y : sl_sorted less l -> (i < j)%nat ->
  l !! i = Some x -> l !! j = Some y -> less x y = true.
Proof.
  revert i j. induction l as [|z l IH]; intros [|i] [|j] Hs Hij Hx Hy; try done; try lia;
    apply sorted_cons_inv in Hs as [Hs Hlt]; simplify_eq/=.
  - by eapply Hlt, list_elem_of_lookup_2.
  - eapply (IH i j); [done|lia|done..].
Qed.

Lemma sl_set_elem x l y : Forall P l -> P x -> sl_sorted less l ->
  y ∈ sl_set less x l <-> y = x \/ (y ∈ l /\ equiv less x y = false).
Proof.
  intros HP Hx. induction l as [|z l IH]; intros Hs; cbn [sl_set].
  { set_solver. }
  apply Forall_cons in HP as [Hz HP]. apply sorted_cons_inv in Hs as [Hs Hlt].
  pose proof (proj1 (Forall_forall _ _) HP) as HP'.
  destruct (less x z) eqn:Hxz; [|destruct (less z x) eqn:Hzx].
  - assert (Hall : forall w, w ∈ z :: l -> equiv less x w = false).
    { intros w [->|Hw]%elem_of_cons; [by apply less_not_equiv|].
      apply less_not_equiv. eapply (wo_trans x z w); eauto. }
    rewrite (elem_of_cons _ y x). clear -Hall. naive_solver.
  - rewrite elem_of_cons, IH, elem_of_cons by done.
    assert (Hne : equiv less x z = false) by (by apply greater_not_equiv).
    clear -Hne. naive_solver.
  - assert (Heq : equiv less x z = true) by (by apply equiv_true).
    assert (Hall : forall w, w ∈ l -> equiv less x w = false).
    { intros w Hw. apply less_not_equiv. eapply (wo_le_lt x z w); eauto. }
    rewrite !elem_of_cons. clear -Hall Heq. naive_solver congruence.
Qed.

Lemma sl_set_P x l : Forall P l -> P x -> Forall P (sl_set less x l).
Proof.
  intros HP Hx. induction HP as [|z l Hz HP IH]; cbn [sl_set]; [by repeat constructor|].
  destruct (less x z); [by repeat constructor|]. destruct (less z x); by constructor.
Qed.

Lemma sl_set_sorted x l : Forall P l -> P x -> sl_sorted less l -> sl_sorted less (sl_set less x l).
Proof.
  intros HP Hx. induction l as [|z l IH]; intros Hs; cbn [sl_set].
  { by repeat constructor. }
  apply Forall_cons in HP as [Hz HP]. pose proof Hs as Hs'. apply sorted_cons_inv in Hs as [Hs Hlt].
  pose proof (proj1 (Forall_forall _ _) HP) as HP'.
  destruct (less x z) eqn:Hxz; [|destruct (less z x) eqn:Hzx].
  - apply sorted_cons; [done|]. intros y [->|Hy]%elem_of_cons; [done|]. eapply (wo_trans x z y); eauto.
  - apply sorted_cons; [by apply IH|]. intros y [->|[Hy _]]%sl_set_elem; eauto.
  - apply sorted_cons; [done|]. intros y Hy. eapply (wo_le_lt x z y); eauto.
Qed.

Lemma sl_del_elem x l y : Forall P l -> P x -> sl_sorted less l ->
  y ∈ sl_del less x l <-> y ∈ l /\ equiv less x y = false.
Proof.
  intros HP Hx. induction l as [|z l IH]; intros Hs; cbn [sl_del].
  { set_solver. }
  apply Forall_cons in HP as [Hz HP]. apply sorted_cons_inv in Hs as [Hs Hlt].
  pose proof (proj1 (Forall_forall _ _) HP) as HP'.
  destruct (less x z) eqn:Hxz; [|destruct (less z x) eqn:Hzx].
  - assert (Hall : forall w, w ∈ z :: l -> equiv less x w = false).
    { intros w [->|Hw]%elem_of_cons; [by apply less_not_equiv|].
      apply less_not_equiv. eapply (wo_trans x z w); eauto. }
    clear -Hall. naive_solver.
  - rewrite elem_of_cons, IH, elem_of_cons by done.
    assert (Hne : equiv less x z = false) by (by apply greater_not_equiv).
    clear -Hne. naive_solver.
  - assert (Heq : equiv less x z = true) by (by apply equiv_true).
    assert (Hall : forall w, w ∈ l -> equiv less x w = false).
    { intros w Hw. apply less_not_equiv. eapply (wo_le_lt x z w); eauto. }
    rewrite !elem_of_cons. clear -Hall Heq. naive_solver congruence.
Qed.

Lemma sl_del_sublist x l : sublist (sl_del less x l) l.
Proof.
  induction l as [|z l IH]; cbn [sl_del]; [done|].
  destruct (less x z); [done|]. destruct (less z x); by constructor.
Qed.

Lemma sl_del_P x l : Forall P l -> Forall P (sl_del less x l).
Proof.
  rewrite !Forall_forall. intros HP y Hy. apply HP. eapply elem_of_sublist; [done|apply sl_del_sublist].
Qed.

Lemma sorted_sublist l k : sublist k l -> sl_sorted less l -> sl_sorted less k.
Proof.
  induction 1 as [|x k l Hk IH|x k l Hk IH]; intros Hs; [done|..];
    apply sorted_cons_inv in Hs as [Hs Hlt]; [|by apply IH].
  apply sorted_cons; [by apply IH|]. intros y Hy. eapply Hlt, elem_of_sublist; eauto.
Qed.

Lemma sl_del_sorted x l : sl_sorted less l -> sl_sorted less (sl_del less x l).
Proof. apply sorted_sublist, sl_del_sublist. Qed.

Lemma sl_get_spec x l y : Forall P l -> P x -> sl_sorted less l ->
  sl_get less x l = Some y <-> y ∈ l /\ equiv less x y = true.
Proof.
  intros HP Hx. induction l as [|z l IH]; intros Hs; cbn [sl_get].
  { set_solver. }
  apply Forall_cons in HP as [Hz HP]. apply sorted_cons_inv in Hs as [Hs Hlt].
  pose proof (proj1 (Forall_forall _ _) HP) as HP'.
  destruct (less z x) eqn:Hzx; [|destruct (less x z) eqn:Hxz].
  - rewrite IH, elem_of_cons by done.
    assert (Hne : equiv less x z = false) by (by apply greater_not_equiv).
    split; [intros [??]; split; [by right|done] | intros [[->|?] He]; [congruence|done]].
  - assert (Hall : forall w, w ∈ z :: l -> equiv less x w = false).
    { intros w [->|Hw]%elem_of_cons; [by apply less_not_equiv|].
      apply less_not_equiv. eapply (wo_trans x z w); eauto. }
    clear -Hall. split; [done|]. intros [Hy He]. by rewrite Hall in He.
  - assert (Heq : equiv less x z = true) by (by apply equiv_true).
    assert (Hall : forall w, w ∈ l -> equiv less x w = false).
    { intros w Hw. apply less_not_equiv. eapply (wo_le_lt x z w); eauto. }
    rewrite elem_of_cons. split; [intros [= <-]; split; [by left|done]|].
    intros [[->|Hy] He]; [done|]. by rewrite Hall in He.
Qed.

Lemma sl_get_None x l : Forall P l -> P x -> sl_sorted less l ->
  sl_get less x l = None <-> forall y, y ∈ l -> equiv less x y = false.
Proof.
  intros HP Hx Hs. split.
  - intros Hn y Hy. destruct (equiv less x y) eqn:He; [|done].
    assert (sl_get less x l = Some y) by (by apply sl_get_spec). congruence.
  - intros Hall. destruct (sl_get less x l) as [y|] eqn:Hy; [|done].
    apply sl_get_spec in Hy as [Hy He]; [|done..]. by rewrite Hall in He.
Qed.

Lemma sl_from_filter x l : Forall P l -> P x -> sl_sorted less l ->
  sl_from less x l = filter (fun y => less y x = false) l.
Proof.
  intros HP Hx. induction l as [|z l IH]; intros Hs; cbn [sl_from]; [done|].
  apply Forall_cons in HP as [Hz HP]. apply sorted_cons_inv in Hs as [Hs Hlt].
  pose proof (proj1 (Forall_forall _ _) HP) as HP'.
  destruct (less z x) eqn:Hzx.
  - rewrite filter_cons_False by congruence. by apply IH.
  - rewrite filter_all; [done|]. apply Forall_forall. intros y [->|Hy]%elem_of_cons; [done|].
    destruct (less y x) eqn:Hyx; [|done]. rewrite (wo_trans z y x) in Hzx; eauto.
Qed.

Lemma sl_from_drop x l : sl_from less x l = drop (sl_rank less x l) l.
Proof.
  unfold sl_rank. assert (H : suffix (sl_from less x l) l).
  { induction l as [|z l IH]; cbn [sl_from]; [done|].
    destruct (less z x); [by apply suffix_cons_r|done]. }
  revert H. generalize (sl_from less x l). intros f [k ->]. rewrite length_app.
  replace (length k + length f - length f)%nat with (length k) by lia. by rewrite drop_app_length.
Qed.

(** Strictly sorted lists with the same elements are equal. *)
Lemma sorted_ext l k : Forall P l -> Forall P k -> sl_sorted less l -> sl_sorted less k ->
  (forall y, y ∈ l <-> y ∈ k) -> l = k.
Proof.
  revert k. induction l as [|x l IH]; intros k HPl HPk Hl Hk Hlk.
  - destruct k as [|y k]; [done|]. exfalso. apply (not_elem_of_nil y), Hlk. by left.
  - destruct k as [|y k]; [exfalso; apply (not_elem_of_nil x), Hlk; by left|].
    apply Forall_cons in HPl as [Px HPl]. apply Forall_cons in HPk as [Py HPk].
    apply sorted_cons_inv in Hl as [Hl Hx]. apply sorted_cons_inv in Hk as [Hk Hy].
    assert (Hirr : forall z, P z -> less z z = true -> False).
    { intros z Hz H. by rewrite wo_irrefl in H. }
    assert (x = y) as <-.
    { assert (x ∈ y :: k) as Hxk by (apply Hlk; by left).
      assert (y ∈ x :: l) as Hyl by (apply Hlk; by left).
      apply elem_of_cons in Hxk as [->|Hxy]; [done|]. apply elem_of_cons in Hyl as [->|Hyx]; [done|].
      pose proof (Hy _ Hxy) as H1. pose proof (Hx _ Hyx) as H2.
      exfalso. by rewrite (wo_asym y x) in H2. }
    f_equal. apply IH; try done. intros z. specialize (Hlk z). rewrite !elem_of_cons in Hlk.
    split; intros Hz.
    + destruct (proj1 Hlk) as [->|]; [by right| |done]. exfalso. eapply Hirr; eauto.
    + destruct (proj2 Hlk) as [->|]; [by right| |done]. exfalso. eapply Hirr; eauto.
Qed.
End sorted_lists.

#[export] Hint Resolve sl_set_P sl_set_sorted sl_del_P sl_del_sorted : nteedb.

(** ** Trees *)

Section trees.
Context {BT : BTreeG} {BL : BTreeGLaws BT} {E : Type} (P : E -> Prop).
Implicit Types (t : bt E) (x y : E).

Lemma tree_new_ok less : WeakOrder P less -> tree_ok P (bt_new less).
Proof.
  intros HW. unfold tree_ok. rewrite law_new_less, law_new_scan. repeat split; try apply HW; constructor.
Qed.

Lemma tree_set_ok t x : tree_ok P t -> P x -> tree_ok P (bt_set t x).
Proof.
  intros Ht Hx. pose proof Ht as (HW & HF & Hs).
  unfold tree_ok. rewrite law_set_less, (law_set E P) by done. eauto with nteedb.
Qed.

Lemma tree_load_ok t x : tree_ok P t -> P x -> tree_ok P (bt_load t x).
Proof.
  intros Ht Hx. pose proof Ht as (HW & HF & Hs).
  unfold tree_ok. rewrite law_load_less, (law_load E P) by done. eauto with nteedb.
Qed.

Lemma tree_delete_ok t x : tree_ok P t -> P x -> tree_ok P (bt_delete t x).2.
Proof.
  intros Ht Hx. pose proof Ht as (HW & HF & Hs).
  unfold tree_ok. rewrite law_delete_less, (law_delete E P) by done. eauto with nteedb.
Qed.

Lemma tree_clear_ok t : tree_ok P t -> tree_ok P (bt_clear t).
Proof.
  intros (HW & HF & Hs). unfold tree_ok. rewrite law_clear_less, law_clear.
  repeat split; try apply HW; constructor.
Qed.

Lemma tree_set_elem t x y : tree_ok P t -> P x ->
  y ∈ bt_scan (bt_set t x) <-> y = x \/ (y ∈ bt_scan t /\ equiv (bt_less t) x y = false).
Proof.
  intros Ht Hx. rewrite (law_set E P) by done. destruct Ht as (HW & HF & Hs). by apply (sl_set_elem P).
Qed.

Lemma tree_delete_elem t x y : tree_ok P t -> P x ->
  y ∈ bt_scan (bt_delete t x).2 <-> y ∈ bt_scan t /\ equiv (bt_less t) x y = false.
Proof.
  intros Ht Hx. rewrite (law_delete E P) by done. destruct Ht as (HW & HF & Hs). by apply (sl_del_elem P).
Qed.

Lemma tree_get_elem t x y : tree_ok P t -> P x ->
  bt_get t x = Some y <-> y ∈ bt_scan t /\ equiv (bt_less t) x y = true.
Proof.
  intros Ht Hx. rewrite (law_get E P) by done. destruct Ht as (HW & HF & Hs). by apply (sl_get_spec P).
Qed.

Lemma tree_get_None t x : tree_ok P t -> P x ->
  bt_get t x = None <-> forall y, y ∈ bt_scan t -> equiv (bt_less t) x y = false.
Proof.
  intros Ht Hx. rewrite (law_get E P) by done. destruct Ht as (HW & HF & Hs). by apply (sl_get_None P).
Qed.
End trees.

#[export] Hint Resolve tree_new_ok tree_set_ok tree_load_ok tree_delete_ok tree_clear_ok : nteedb.

(** ** Cursors

    A cursor that walks the sequence [l] and stands on its [i]-th element. *)

Section cursors.
Context {BT : BTreeG} {BL : BTreeGLaws BT} {E : Type} (P : E -> Prop).
Implicit Types (it : bt_iter E) (less : E -> E -> bool) (l : list E).

Definition walks less l it : Prop := it_seq it = l /\ it_less it = less.

Lemma walks_new less l (t : bt E) : bt_less t = less -> bt_scan t = l -> walks less l (it_new t).
Proof. intros <- <-. split; apply law_iter. Qed.

Lemma walks_item less l it i e k : walks less l it -> it_pos it = Some i -> drop i l = e :: k -> it_item it = Some e.
Proof. intros [<- _] Hp Hd. rewrite law_item, Hp. by eapply lookup_drop_Some_head. Qed.

Lemma walks_next less l it i e k ok it' : walks less l it -> it_pos it = Some i -> drop i l = e :: k ->
  it_next it = (ok, it') ->
  walks less l it' /\ drop (S i) l = k
  /\ match k with [] => ok = false | _ :: _ => ok = true /\ it_pos it' = Some (S i) end.
Proof.
  intros [<- <-] Hp Hd Hn. destruct (law_next _ _ _ _ _ Hp Hn) as (? & ? & Hl).
  assert (Hk : drop (S i) (it_seq it) = k).
  { change (S i) with (1 + i)%nat. rewrite Nat.add_comm, <- drop_drop, Hd. done. }
  split_and!; [by split|done|]. unfold lands in Hl.
  assert (Hlen : length k = (length (it_seq it) - S i)%nat) by (by rewrite <- Hk, length_drop).
  destruct k; case_decide; simpl in *; [lia|by destruct Hl|done|lia].
Qed.

Lemma walks_seek less l it x ok it' : WeakOrder P less -> Forall P l -> sl_sorted less l -> P x ->
  walks less l it -> it_seek it x = (ok, it') ->
  walks less l it'
  /\ match sl_from less x l with
     | [] => ok = false
     | e :: k => ok = true /\ it_pos it' = Some (sl_rank less x l) /\ drop (sl_rank less x l) l = e :: k
     end.
Proof.
  intros HW HF Hs Hx [<- <-] Hn. destruct (law_seek _ P _ _ _ _ HW HF Hs Hx Hn) as (? & ? & Hl).
  split; [by split|]. unfold lands in Hl.
  pose proof (sl_from_drop (it_less it) x (it_seq it)) as Hd.
  assert (Hlen : length (sl_from (it_less it) x (it_seq it))
                 = (length (it_seq it) - sl_rank (it_less it) x (it_seq it))%nat).
  { by rewrite Hd at 1; rewrite length_drop. }
  destruct (sl_from (it_less it) x (it_seq it)) as [|e k]; case_decide; simpl in *; [lia|by destruct Hl| |lia].
  destruct Hl as [-> ->]. by rewrite <- Hd.
Qed.
End cursors.

(** ** A concrete instance *)

Record list_tree (E : Type) := ListTree { lt_less : E -> E -> bool; lt_items : list E }.
Arguments ListTree {E}. Arguments lt_less {E}. Arguments lt_items {E}.

Record list_iter (E : Type) := ListIter {
  li_less : E -> E -> bool; li_items : list E; li_pos : option nat }.
Arguments ListIter {E}. Arguments li_less {E}. Arguments li_items {E}. Arguments li_pos {E}.

Definition li_move {E} (it : list_iter E) (pos : option nat) : bool * list_iter E :=
  (match pos with Some _ => true | None => false end, ListIter (li_less it) (li_items it) pos).

Definition in_range {E} (l : list E) (i : nat) : option nat :=
  if decide (i < length l)%nat then Some i else None.

#[export] Instance ListBTree : BTreeG := {|
  bt := list_tree;
  bt_new E less := ListTree less [];
  bt_less E t := lt_less t;
  bt_scan E t := lt_items t;
  bt_len E t := zlen (lt_items t);
  bt_get E t x := sl_get (lt_less t) x (lt_items t);
  bt_set E t x := ListTree (lt_less t) (sl_set (lt_less t) x (lt_items t));
  bt_delete E t x := (sl_get (lt_less t) x (lt_items t),
                      ListTree (lt_less t) (sl_del (lt_less t) x (lt_items t)));
  bt_load E t x := ListTree (lt_less t) (sl_set (lt_less t) x (lt_items t));
  bt_ascend E t x := sl_from (lt_less t) x (lt_items t);
  bt_get_at E t i := if i <? 0 then None else lt_items t !! Z.to_nat i;
  bt_clear E t := ListTree (lt_less t) [];
  bt_copy E t := t;
  bt_iter := list_iter;
  it_new E t := ListIter (lt_less t) (lt_items t) None;
  it_seek E it x := li_move it (in_range (li_items it) (sl_rank (li_less it) x (li_items it)));
  it_next E it := li_move it (match li_pos it with Some i => in_range (li_items it) (S i) | None => None end);
  it_prev E it := li_move it (match li_pos it with Some (S i) => Some i | _ => None end);
  it_last E it := li_move it (match length (li_items it) with S i => Some i | O => None end);
  it_item E it := match li_pos it with Some i => li_items it !! i | None => None end;
  it_seq E it := li_items it;
  it_pos E it := li_pos it;
  it_less E it := li_less it
|}.

#[export] Instance ListBTreeLaws : BTreeGLaws ListBTree.
Proof.
  split; try done; unfold lands; cbn; intros;
    unfold li_move, in_range in *; simplify_eq;
    repeat match goal with H : li_pos _ = _ |- _ => rewrite H end; cbn.
  all: repeat case_decide; repeat case_match; repeat split; simplify_eq; try done.
Qed.
