(* ===== verification/PkIndex.v ===== *)
(** * The primary-key index (pkindex.go)

    One entry per live key: where the key's latest record lies in the main
    log, the index values the key currently carries and its expiry.  The index
    is a B-tree ordered by key; the lemmas below read it as a finite map from
    keys to entries. *)

From S2P Require Import Prelude Types BTree.
#[local] Open Scope Z_scope.

Record pkEntry := PkEntry {
  e_key : gostring;
  e_off : Z;
  e_n : Z;
  e_ix : IndexValues;
  e_exp : Z
}.

(** A probe [pkEntry{key: key}]: the other fields are zero. *)
Definition pk_probe (key : gostring) : pkEntry := PkEntry key 0 0 ∅ 0.

Definition expiredAt (e : pkEntry) (now : Z) : bool := negb (e_exp e =? 0) && (e_exp e <=? now).

Definition pkLess (a b : pkEntry) : bool := str_ltb (e_key a) (e_key b).

Definition set_ix (e : pkEntry) (ix : IndexValues) : pkEntry :=
  PkEntry (e_key e) (e_off e) (e_n e) ix (e_exp e).

Section pkindex.
Context {BT : BTreeG}.

Definition pkIndex : Type := bt pkEntry.

Definition newPkIndex : pkIndex := bt_new pkLess.

Definition pk_len (t : pkIndex) : Z := bt_len t.

Definition pk_get (t : pkIndex) (key : gostring) : option pkEntry := bt_get t (pk_probe key).

Definition pk_upsert (t : pkIndex) (e : pkEntry) : pkIndex :=
  let e := match bt_get t e with
           | Some prev => set_ix e (e_ix prev)
           | None => e
           end in
  bt_set t e.

Definition pk_setIX (t : pkIndex) (key : gostring) (ixv : IndexValues) : pkIndex :=
  match bt_get t (pk_probe key) with
  | Some e => bt_set t (set_ix e ixv)
  | None => t
  end.

Definition pk_remove (t : pkIndex) (key : gostring) : bool * pkIndex :=
  let '(old, t') := bt_delete t (pk_probe key) in
  (match old with Some _ => true | None => false end, t').

Definition pk_load (t : pkIndex) (e : pkEntry) : pkIndex := bt_load t e.

(** [scan] and [ascendFrom] with a callback: the entries it is called on. *)
Definition pk_scan (t : pkIndex) : list pkEntry := bt_scan t.
Definition pk_ascendFrom (t : pkIndex) (from : gostring) : list pkEntry := bt_ascend t (pk_probe from).

Definition pk_prefix (t : pkIndex) (p : gostring) : list pkEntry :=
  take_while (fun e => has_prefix p (e_key e)) (bt_ascend t (pk_probe p)).

Definition pk_copy (t : pkIndex) : pkIndex := bt_copy t.

(** The invariant: a tree in key order. *)
Definition pk_ok (t : pkIndex) : Prop := tree_ok (fun _ => True) t /\ bt_less t = pkLess.
End pkindex.

#[export] Instance pkLess_weak : WeakOrder (fun _ => True) pkLess.
Proof.
  split; unfold pkLess; intros.
  - apply st_irrefl.
  - by eapply (st_trans _ (e_key y)).
  - by eapply (st_ntrans _ _ (e_key y)).
Qed.

Lemma pk_equiv a b : equiv pkLess a b = bool_decide (e_key a = e_key b).
Proof.
  unfold equiv, pkLess. destruct (bool_decide_reflect (e_key a = e_key b)) as [->|Hne].
  - by rewrite (st_irrefl (ltb:=str_ltb)).
  - destruct (str_ltb (e_key a) (e_key b)) eqn:H1, (str_ltb (e_key b) (e_key a)) eqn:H2; try done.
    by destruct Hne; apply st_total.
Qed.

Section laws.
Context {BT : BTreeG} {BL : BTreeGLaws BT}.
Implicit Types (t : pkIndex) (e : pkEntry) (k : gostring).

(** The finite map an index stands for. *)
Definition pk_map t : gmap gostring pkEntry := list_to_map ((fun e => (e_key e, e)) <$> pk_scan t).

Lemma pk_sorted t : pk_ok t -> sl_sorted pkLess (pk_scan t).
Proof. by intros [(?&?&?) <-]. Qed.

Lemma pk_get_elem t k e : pk_ok t -> pk_get t k = Some e <-> e ∈ pk_scan t /\ e_key e = k.
Proof.
  intros [Ht Hl]. unfold pk_get. rewrite (tree_get_elem (fun _ => True)) by done.
  rewrite Hl, pk_equiv, bool_decide_eq_true. simpl. by rewrite (symmetry_iff (=) k).
Qed.

Lemma pk_get_key t k e : pk_ok t -> pk_get t k = Some e -> e_key e = k.
Proof. intros Ht He. by apply pk_get_elem in He as []. Qed.

Lemma pk_key_inj t a b : pk_ok t -> a ∈ pk_scan t -> b ∈ pk_scan t -> e_key a = e_key b -> a = b.
Proof.
  intros Ht Ha Hb Hk. assert (pk_get t (e_key a) = Some a) as H1 by (by apply pk_get_elem).
  assert (pk_get t (e_key a) = Some b) as H2 by (by apply pk_get_elem). congruence.
Qed.

Lemma pk_keys_NoDup t : pk_ok t -> NoDup (e_key <$> pk_scan t).
Proof.
  intros Ht%pk_sorted. induction (pk_scan t) as [|e l IH]; [constructor|].
  apply StronglySorted_inv in Ht as [Hs HF]. rewrite fmap_cons. constructor; [|by apply IH].
  intros (e' & Hk & He')%list_elem_of_fmap. rewrite Forall_forall in HF. apply HF in He'.
  unfold pkLess in He'. rewrite Hk in He'. by rewrite st_irrefl in He'.
Qed.

Lemma pk_map_get t k : pk_ok t -> pk_map t !! k = pk_get t k.
Proof.
  intros Ht. apply option_eq. intros e. rewrite pk_get_elem by done. unfold pk_map.
  rewrite <- elem_of_list_to_map.
  - rewrite list_elem_of_fmap. split; [by intros (? & [= -> ->] & ?)|intros [? <-]; eauto].
  - rewrite <- list_fmap_compose. by apply pk_keys_NoDup.
Qed.

Lemma pk_scan_elem t e : pk_ok t -> e ∈ pk_scan t <-> pk_map t !! e_key e = Some e.
Proof. intros Ht. rewrite pk_map_get, pk_get_elem by done. naive_solver. Qed.

Lemma pk_map_key t k e : pk_ok t -> pk_map t !! k = Some e -> e_key e = k.
Proof. intros Ht. rewrite pk_map_get by done. by apply pk_get_key. Qed.

Lemma newPkIndex_ok : pk_ok newPkIndex.
Proof. split; [apply (tree_new_ok (fun _ => True)), pkLess_weak|apply law_new_less]. Qed.

Lemma newPkIndex_map : pk_map newPkIndex = ∅.
Proof. unfold pk_map, pk_scan, newPkIndex. by rewrite law_new_scan. Qed.

Lemma bt_set_pk_ok t e : pk_ok t -> pk_ok (bt_set t e).
Proof. intros [Ht Hl]. split; [by apply tree_set_ok|by rewrite law_set_less]. Qed.

Lemma bt_set_pk_map t e : pk_ok t -> pk_map (bt_set t e) = <[e_key e := e]> (pk_map t).
Proof.
  intros Ht. apply map_eq. intros k. rewrite pk_map_get by (by apply bt_set_pk_ok).
  apply option_eq. intros e'. rewrite pk_get_elem by (by apply bt_set_pk_ok).
  unfold pk_scan. destruct (Ht) as [Hto Hl]. rewrite (tree_set_elem (fun _ => True)) by done.
  rewrite Hl, pk_equiv, bool_decide_eq_false, lookup_insert_Some, pk_map_get, pk_get_elem by done.
  unfold pk_scan. naive_solver.
Qed.

Lemma bt_load_pk_ok t e : pk_ok t -> pk_ok (bt_load t e).
Proof. intros [Ht Hl]. split; [by apply tree_load_ok|by rewrite law_load_less]. Qed.

Lemma pk_load_map t e : pk_ok t -> pk_map (pk_load t e) = <[e_key e := e]> (pk_map t).
Proof.
  intros Ht. rewrite <- bt_set_pk_map by done. unfold pk_map, pk_scan, pk_load.
  destruct Ht as [Ht Hl]. by rewrite (law_load _ (fun _ => True)), (law_set _ (fun _ => True)).
Qed.

Lemma bt_get_pk t e : pk_ok t -> bt_get t e = pk_get t (e_key e).
Proof.
  intros Ht. apply option_eq. intros e'. rewrite pk_get_elem by done. destruct Ht as [Ht Hl].
  rewrite (tree_get_elem (fun _ => True)) by done. rewrite Hl, pk_equiv, bool_decide_eq_true.
  unfold pk_scan. naive_solver.
Qed.

(** The index values an existing entry keeps. *)
Definition kept_ix t k : IndexValues := match pk_map t !! k with Some e => e_ix e | None => ∅ end.

Lemma pk_upsert_ok t e : pk_ok t -> pk_ok (pk_upsert t e).
Proof. intros Ht. unfold pk_upsert. by apply bt_set_pk_ok. Qed.

Lemma pk_upsert_map t e : pk_ok t -> e_ix e = ∅ ->
  pk_map (pk_upsert t e) = <[e_key e := set_ix e (kept_ix t (e_key e))]> (pk_map t).
Proof.
  intros Ht He. unfold pk_upsert. rewrite bt_set_pk_map, bt_get_pk by done.
  unfold kept_ix. rewrite pk_map_get by done. destruct (pk_get t (e_key e)); [done|].
  f_equal. destruct e. simpl in *. by subst.
Qed.

Lemma pk_setIX_ok t k v : pk_ok t -> pk_ok (pk_setIX t k v).
Proof. intros Ht. unfold pk_setIX. case_match; [by apply bt_set_pk_ok|done]. Qed.

Lemma pk_setIX_map t k v : pk_ok t -> pk_map (pk_setIX t k v) = alter (fun e => set_ix e v) k (pk_map t).
Proof.
  intros Ht. unfold pk_setIX. fold (pk_get t k). destruct (pk_get t k) as [e|] eqn:He.
  - pose proof (pk_get_key _ _ _ Ht He) as <-. rewrite bt_set_pk_map by done. simpl.
    rewrite <- pk_map_get in He by done. apply map_eq. intros k'.
    destruct (decide (k' = e_key e)) as [->|Hne].
    + by rewrite lookup_insert_eq, lookup_alter_eq, He.
    + by rewrite lookup_insert_ne, lookup_alter_ne.
  - rewrite <- pk_map_get in He by done. symmetry. apply map_eq. intros k'.
    destruct (decide (k' = k)) as [->|Hne]; [by rewrite lookup_alter_eq, He|by rewrite lookup_alter_ne].
Qed.

Lemma pk_remove_ok t k : pk_ok t -> pk_ok (pk_remove t k).2.
Proof.
  intros [Ht Hl]. unfold pk_remove. destruct (bt_delete t (pk_probe k)) as [old t'] eqn:Hd. simpl.
  change t' with (old, t').2. rewrite <- Hd.
  split; [by apply tree_delete_ok|by rewrite law_delete_less].
Qed.

Lemma pk_remove_map t k : pk_ok t -> pk_map (pk_remove t k).2 = delete k (pk_map t).
Proof.
  intros Ht. pose proof (pk_remove_ok t k Ht) as Ht'. apply map_eq. intros k'.
  rewrite pk_map_get by done. apply option_eq. intros e'. rewrite pk_get_elem by done.
  rewrite lookup_delete_Some, pk_map_get, pk_get_elem by done. unfold pk_scan, pk_remove in *.
  destruct Ht as [Ht Hl]. pose proof (tree_delete_elem (fun _ => True) t (pk_probe k) e' Ht I) as Hd.
  destruct (bt_delete t (pk_probe k)) as [old t'] eqn:Hdel. simpl in *. rewrite Hd, Hl, pk_equiv.
  rewrite bool_decide_eq_false. simpl. naive_solver.
Qed.

Lemma pk_remove_present t k : pk_ok t -> (pk_remove t k).1 = bool_decide (is_Some (pk_map t !! k)).
Proof.
  intros Ht. rewrite pk_map_get by done. unfold pk_remove, pk_get. destruct Ht as [Ht Hl].
  pose proof (law_delete_res _ (fun _ => True) t (pk_probe k) Ht I) as Hd.
  rewrite (law_get _ (fun _ => True)) by done.
  destruct (bt_delete t (pk_probe k)) as [old t']. simpl in *. rewrite <- Hd. by destruct old.
Qed.

Lemma pk_copy_ok t : pk_ok t -> pk_ok (pk_copy t) /\ pk_scan (pk_copy t) = pk_scan t.
Proof.
  intros [Ht Hl]. unfold pk_ok, tree_ok, pk_scan, pk_copy. rewrite law_copy, law_copy_less. by repeat split; try apply Ht.
Qed.

Lemma pk_len_size t : pk_ok t -> pk_len t = Z.of_nat (size (pk_map t)).
Proof.
  intros Ht. unfold pk_len. rewrite law_len. unfold zlen. f_equal. unfold pk_map.
  rewrite map_size_list_to_map, length_fmap; [done|].
  rewrite <- list_fmap_compose. by apply pk_keys_NoDup.
Qed.

(** What a prefix walk returns: exactly the entries with the prefix, in key
    order. *)
Lemma pk_prefix_spec t p : pk_ok t ->
  pk_prefix t p = filter (fun e => has_prefix p (e_key e) = true) (pk_scan t).
Proof.
  intros Ht. pose proof (pk_sorted t Ht) as Hs. destruct Ht as [Ht Hl].
  unfold pk_prefix, pk_scan. rewrite (law_ascend _ (fun _ => True)) by done.
  destruct Ht as (HW & HF & _). rewrite Hl, (sl_from_filter (fun _ => True)) by (done || by rewrite <- Hl).
  rewrite take_while_filter.
  - rewrite list_filter_filter. apply list_filter_iff. intros e. simpl.
    split; [by intros []|]. intros Hp. split; [done|]. unfold pkLess. simpl. by apply has_prefix_ge.
  - intros i j x y Hij Hx Hy Hp.
    assert (Hs' : sl_sorted pkLess (filter (fun y => pkLess y (pk_probe p) = false) (bt_scan t))).
    { eapply sorted_sublist; [apply sublist_filter|done]. }
    assert (Hxp : pkLess x (pk_probe p) = false).
    { apply list_elem_of_lookup_2, list_elem_of_filter in Hx. by destruct Hx. }
    eapply has_prefix_convex; [exact Hxp| |exact Hp].
    apply st_asym; [apply _|]. exact (sorted_lookup pkLess _ i j x y Hs' Hij Hx Hy).
Qed.
End laws.

#[export] Hint Resolve newPkIndex_ok bt_set_pk_ok bt_load_pk_ok pk_upsert_ok pk_setIX_ok pk_remove_ok : nteedb.
