(* ===== verification/SecIndex.v ===== *)
(** * Secondary indexes (secindex.go)

    A secondary index is a B-tree of (value, primary key) pairs, ordered by
    value and then by key.  This file models one index: the conversion of a
    dynamic value to an entry, the order, positional binary search, updates,
    the queries with their cursor loops, and the self-eviction test of a capped
    index.  The theorems relate each query to a filter of the index's
    contents. *)

From S2P Require Import Prelude Floats Types BTree.
#[local] Open Scope Z_scope.

(** ** Data *)

Inductive ValueKind := KindString | KindNumber.

#[global] Instance ValueKind_eq_dec : EqDecision ValueKind.
Proof. solve_decision. Defined.

Definition kind_String (k : ValueKind) : gostring :=
  match k with KindNumber => bs "number" | KindString => bs "string" end.

Record IndexDef := mkIndexDef {
  d_Name : gostring;
  d_Kind : ValueKind;
  d_Extract : option (gostring -> gostring -> option any);
  d_MaxPerValue : Z
}.

Record secEntry := SecEntry { se_s : gostring; se_f : f64; se_pk : gostring }.

#[global] Instance secEntry_eq_dec : EqDecision secEntry.
Proof. solve_decision. Defined.

Definition zero_entry : secEntry := SecEntry [] (S754_zero false) [].

(** [toFloat]. *)
Definition toFloat (v : any) : option f64 :=
  match v with
  | AFloat64 n => Some n
  | AFloat32 n => Some (f64_of_f32 n)
  | AInt n => Some (f64_of_Z n)
  | AInt64 n => Some (f64_of_Z n)
  | AInt32 n => Some (f64_of_Z n)
  | AJSONNumber lit => parse_float lit
  | _ => None
  end.

(** ** The order *)

(** [less]: by value, then by primary key. *)
Definition sec_less (kind : ValueKind) (a b : secEntry) : bool :=
  match kind with
  | KindNumber =>
      if negb (f64_eqb (se_f a) (se_f b)) then f64_ltb (se_f a) (se_f b)
      else str_ltb (se_pk a) (se_pk b)
  | KindString =>
      if negb (bool_decide (se_s a = se_s b)) then str_ltb (se_s a) (se_s b)
      else str_ltb (se_pk a) (se_pk b)
  end.

Definition valueEqual (kind : ValueKind) (a b : secEntry) : bool :=
  match kind with
  | KindNumber => f64_eqb (se_f a) (se_f b)
  | KindString => bool_decide (se_s a = se_s b)
  end.

Definition valueGreater (kind : ValueKind) (a b : secEntry) : bool :=
  match kind with
  | KindNumber => f64_ltb (se_f b) (se_f a)
  | KindString => str_ltb (se_s b) (se_s a)
  end.

(** ** [sort.Search] *)

Fixpoint search_loop (fuel : nat) (f : Z -> bool) (i j : Z) : Z :=
  match fuel with
  | O => i
  | S fuel' =>
      if i <? j then
        let h := (i + j) / 2 in
        if f h then search_loop fuel' f i h else search_loop fuel' f (h + 1) j
      else i
  end.

Definition sort_Search (n : Z) (f : Z -> bool) : Z := search_loop (Z.to_nat n) f 0 n.

Section secindex.
Context {BT : BTreeG}.

Record secIndex := SecIndex {
  si_name : gostring;
  si_kind : ValueKind;
  si_max : Z;
  si_tree : bt secEntry
}.

Definition with_tree (si : secIndex) (t : bt secEntry) : secIndex :=
  SecIndex (si_name si) (si_kind si) (si_max si) t.

Definition newSecIndex (def : IndexDef) : secIndex :=
  SecIndex (d_Name def) (d_Kind def) (d_MaxPerValue def) (bt_new (sec_less (d_Kind def))).

Definition si_count (si : secIndex) : Z := bt_len (si_tree si).

Definition si_at (si : secIndex) (i : Z) : secEntry := default zero_entry (bt_get_at (si_tree si) i).

Definition makeEntry (si : secIndex) (val : any) (pk : gostring) : res secEntry :=
  match si_kind si with
  | KindNumber =>
      match toFloat val with
      | Some f => Ok (SecEntry [] f pk)
      | None => Err (EKind (si_name si))
      end
  | KindString =>
      match val with
      | AString s => Ok (SecEntry s (S754_zero false) pk)
      | _ => Err (EKind (si_name si))
      end
  end.

Definition lowerBound (si : secIndex) (e : secEntry) : Z :=
  sort_Search (si_count si) (fun i => negb (sec_less (si_kind si) (si_at si i) e)).

Definition upperBoundValue (si : secIndex) (e : secEntry) : Z :=
  sort_Search (si_count si) (fun i => valueGreater (si_kind si) (si_at si i) e).

(** ** Updates *)

Definition si_insert (si : secIndex) (e : secEntry) : secIndex := with_tree si (bt_set (si_tree si) e).

Definition si_remove (si : secIndex) (e : secEntry) : secIndex :=
  with_tree si (bt_delete (si_tree si) e).2.

Definition removePKs (si : secIndex) (pks : gset gostring) : secIndex :=
  let doomed := filter (fun e => se_pk e ∈ pks) (bt_scan (si_tree si)) in
  with_tree si (fold_left (fun t e => (bt_delete t e).2) doomed (si_tree si)).

(** ** Queries *)

Definition item (it : bt_iter secEntry) : secEntry := default zero_entry (it_item it).

(** A cursor loop moves forward at every turn, so it makes at most one turn
    per entry; this bound is enough. *)
Definition loop_fuel (si : secIndex) : nat := S (Z.to_nat (si_count si)).

(** The forward loop of [exact]; with [limit = 0] it collects the group. *)
Fixpoint exact_loop (fuel : nat) (si : secIndex) (probe : secEntry) (limit : Z)
    (it : bt_iter secEntry) (out : list gostring) : res (list gostring) :=
  match fuel with
  | O => Err EFuel
  | S fuel' =>
      let e := item it in
      if negb (valueEqual (si_kind si) e probe) then Ok out
      else
        let out := out ++ [se_pk e] in
        if (0 <? limit) && (zlen out =? limit) then Ok out
        else
          let '(ok, it) := it_next it in
          if negb ok then Ok out else exact_loop fuel' si probe limit it out
  end.

(** The last [n] of [grp], last first. *)
Definition last_desc {A} (n : Z) (grp : list A) : list A := take (Z.to_nat n) (reverse grp).

Definition exact (si : secIndex) (val : any) (limit : Z) : res (list gostring) :=
  res_bind (makeEntry si val []) (fun probe =>
  let '(ok, it) := it_seek (it_new (si_tree si)) probe in
  if negb ok then Ok []
  else if 0 <=? limit then exact_loop (loop_fuel si) si probe limit it []
  else
    res_bind (exact_loop (loop_fuel si) si probe 0 it []) (fun grp =>
    let n := wrap64 (- limit) in
    let n := if zlen grp <? n then zlen grp else n in
    if n <? 0 then Err EPanic            (* make([]string, 0, n) *)
    else Ok (last_desc n grp))).

Definition exists_ (si : secIndex) (val : any) : res bool :=
  res_bind (makeEntry si val []) (fun probe =>
  let '(ok, it) := it_seek (it_new (si_tree si)) probe in
  Ok (ok && valueEqual (si_kind si) (item it) probe)).

(** [limit == 0]: [for ok && it.Item().s == v]. *)
Fixpoint prefix_all (fuel : nat) (v : gostring) (ok : bool) (it : bt_iter secEntry)
    (out : list gostring) : res (list gostring * bool * bt_iter secEntry) :=
  match fuel with
  | O => Err EFuel
  | S fuel' =>
      if ok && bool_decide (se_s (item it) = v) then
        let out := out ++ [se_pk (item it)] in
        let '(ok, it) := it_next it in
        prefix_all fuel' v ok it out
      else Ok (out, ok, it)
  end.

(** [limit > 0]: [for cnt := 0; ok && it.Item().s == v && cnt < limit; cnt++]. *)
Fixpoint prefix_first (fuel : nat) (v : gostring) (limit cnt : Z) (ok : bool) (it : bt_iter secEntry)
    (out : list gostring) : res (list gostring * bool * bt_iter secEntry) :=
  match fuel with
  | O => Err EFuel
  | S fuel' =>
      if ok && bool_decide (se_s (item it) = v) && (cnt <? limit) then
        let out := out ++ [se_pk (item it)] in
        let '(ok, it) := it_next it in
        prefix_first fuel' v limit (cnt + 1) ok it out
      else Ok (out, ok, it)
  end.

(** [limit < 0]: [for cnt := 0; back && it.Item().s == v && cnt < -limit; cnt++]. *)
Fixpoint prefix_last (fuel : nat) (v : gostring) (limit cnt : Z) (back : bool) (it : bt_iter secEntry)
    (out : list gostring) : res (list gostring * bt_iter secEntry) :=
  match fuel with
  | O => Err EFuel
  | S fuel' =>
      if back && bool_decide (se_s (item it) = v) && (cnt <? wrap64 (- limit)) then
        let out := out ++ [se_pk (item it)] in
        let '(back, it) := it_prev it in
        prefix_last fuel' v limit (cnt + 1) back it out
      else Ok (out, it)
  end.

(** One turn of the outer loop of [prefix], on the group of value [v]. *)
Definition prefix_group (fuel : nat) (limit : Z) (v : gostring) (ok : bool) (it : bt_iter secEntry)
    (out : list gostring) : res (list gostring * bool * bt_iter secEntry) :=
  let next := SecEntry (v ++ [Byte.x00]) (S754_zero false) [] in
  if limit =? 0 then prefix_all fuel v ok it out
  else if 0 <? limit then
    res_bind (prefix_first fuel v limit 0 ok it out) (fun '(out, ok, it) =>
    if ok && bool_decide (se_s (item it) = v) then
      let '(ok, it) := it_seek it next in Ok (out, ok, it)
    else Ok (out, ok, it))
  else
    let '(sk, it) := it_seek it next in
    let '(back, it) := if sk then it_prev it else it_last it in
    res_bind (prefix_last fuel v limit 0 back it out) (fun '(out, it) =>
    let '(ok, it) := it_seek it next in Ok (out, ok, it)).

Fixpoint prefix_loop (outer fuel : nat) (p : gostring) (limit : Z) (ok : bool)
    (it : bt_iter secEntry) (out : list gostring) : res (list gostring) :=
  match outer with
  | O => Err EFuel
  | S outer' =>
      if negb ok then Ok out
      else
        let v := se_s (item it) in
        if negb (has_prefix p v) then Ok out
        else res_bind (prefix_group fuel limit v ok it out) (fun '(out, ok, it) =>
             prefix_loop outer' fuel p limit ok it out)
  end.

Definition prefix (si : secIndex) (p : gostring) (limit : Z) : res (list gostring) :=
  match si_kind si with
  | KindNumber => Err (EPrefixKind (si_name si))
  | KindString =>
      let '(ok, it) := it_seek (it_new (si_tree si)) (SecEntry p (S754_zero false) []) in
      prefix_loop (loop_fuel si) (loop_fuel si) p limit ok it []
  end.

Fixpoint range_loop (fuel : nat) (kind : ValueKind) (hiE : secEntry) (ok : bool)
    (it : bt_iter secEntry) (out : list gostring) : res (list gostring) :=
  match fuel with
  | O => Err EFuel
  | S fuel' =>
      if negb ok then Ok out
      else
        let e := item it in
        if valueGreater kind e hiE then Ok out
        else
          let out := out ++ [se_pk e] in
          let '(ok, it) := it_next it in
          range_loop fuel' kind hiE ok it out
  end.

Definition rangeQuery (si : secIndex) (lo hi : any) : res (list gostring) :=
  res_bind (makeEntry si lo []) (fun loE =>
  res_bind (makeEntry si hi []) (fun hiE =>
  let '(ok, it) := it_seek (it_new (si_tree si)) loE in
  range_loop (loop_fuel si) (si_kind si) hiE ok it [])).

(** ** Self-eviction *)

Definition wouldSelfEvict (si : secIndex) (val : any) (key : gostring) : res bool :=
  if si_max si <=? 0 then Ok false
  else
    res_bind (makeEntry si val []) (fun probe =>
    let lo := lowerBound si probe in
    let hi := upperBoundValue si probe in
    let excess := (hi - lo) + 1 - si_max si in
    if excess <=? 0 then Ok false
    else
      res_bind (makeEntry si val key) (fun self =>
      let i := lowerBound si self in
      if (i <? hi) && bool_decide (se_pk (si_at si i) = key) then Ok false
      else Ok (str_leb key (se_pk (si_at si (lo + excess - 1)))))).

(** ** The invariant: a tree in (value, key) order, without NaN. *)

Definition not_nan (e : secEntry) : Prop := f64_isnan (se_f e) = false.

Definition sec_ok (si : secIndex) : Prop :=
  tree_ok not_nan (si_tree si) /\ bt_less (si_tree si) = sec_less (si_kind si).

(** The entries of the value group a probe belongs to. *)
Definition group (si : secIndex) (probe : secEntry) : list secEntry :=
  filter (fun e => valueEqual (si_kind si) e probe = true) (bt_scan (si_tree si)).
End secindex.

Arguments loop_fuel : simpl never.

(** ** Facts about the order *)

Definition vless (kind : ValueKind) (a b : secEntry) : bool := valueGreater kind b a.

Lemma code_lt_irrefl c : ~ code_lt c c.
Proof. destruct c as [[]]. simpl. lia. Qed.

Lemma code_lt_trans a b c : code_lt a b -> code_lt b c -> code_lt a c.
Proof. destruct a as [[]], b as [[]], c as [[]]. simpl. lia. Qed.

Lemma f64_ltb_weak a b c :
  f64_isnan a = false -> f64_isnan b = false -> f64_isnan c = false ->
  f64_ltb a b = false -> f64_ltb b c = false -> f64_ltb a c = false.
Proof.
  intros Ha Hb Hc. rewrite <- !not_true_iff_false, !f64_ltb_code by done. intros Hab Hbc Hac.
  destruct (code_total (f64_code a) (f64_code b)) as [?|[Heq|Hlt]]; [done|by rewrite <- Heq in Hbc|].
  apply Hbc. by eapply code_lt_trans.
Qed.

#[export] Instance vless_weak kind : WeakOrder not_nan (vless kind).
Proof.
  destruct kind; split; unfold vless, valueGreater, not_nan; intros.
  - apply st_irrefl.
  - by eapply (st_trans _ (se_s y)).
  - by eapply (st_ntrans _ _ (se_s y)).
  - apply not_true_iff_false. rewrite f64_ltb_code by done. apply code_lt_irrefl.
  - rewrite f64_ltb_code in * by done. by eapply code_lt_trans.
  - by eapply (f64_ltb_weak _ (se_f y)).
Qed.

Lemma valueEqual_equiv kind a b : not_nan a -> not_nan b ->
  valueEqual kind a b = equiv (vless kind) a b.
Proof.
  unfold not_nan, equiv, vless. intros Ha Hb. apply eq_true_iff_eq.
  rewrite andb_true_iff, !negb_true_iff. destruct kind; simpl.
  - rewrite bool_decide_eq_true. split; [intros ->; by rewrite (st_irrefl (ltb:=str_ltb))|].
    intros []. by apply st_total.
  - rewrite f64_eqb_code, <- !not_true_iff_false, !f64_ltb_code by done. split.
    + intros ->. split; apply code_lt_irrefl.
    + intros []. by destruct (code_total (f64_code (se_f a)) (f64_code (se_f b))) as [?|[]].
Qed.

(** The order is lexicographic: value first, then key. *)
Lemma sec_less_lex kind a b : not_nan a -> not_nan b ->
  sec_less kind a b = vless kind a b || (valueEqual kind a b && str_ltb (se_pk a) (se_pk b)).
Proof.
  intros Ha Hb. pose proof (valueEqual_equiv kind a b Ha Hb) as Hv.
  destruct (valueEqual kind a b) eqn:He.
  - symmetry in Hv. apply equiv_true in Hv as [Hv _]. rewrite Hv.
    destruct kind; simpl in *; by rewrite He.
  - rewrite orb_false_r. destruct kind; simpl in *; by rewrite He.
Qed.

Lemma vless_sec_less kind a b : not_nan a -> not_nan b -> vless kind a b = true -> sec_less kind a b = true.
Proof. intros Ha Hb Hv. by rewrite sec_less_lex, Hv. Qed.

Lemma sec_less_vless kind a b : not_nan a -> not_nan b -> sec_less kind a b = true -> vless kind b a = false.
Proof.
  intros Ha Hb. rewrite sec_less_lex by done. intros [Hv|[He _]%andb_true_iff]%orb_true_iff.
  - by apply (wo_asym not_nan (vless kind)).
  - rewrite valueEqual_equiv in He by done. by apply equiv_true in He as [].
Qed.

#[export] Instance sec_less_weak kind : WeakOrder not_nan (sec_less kind).
Proof.
  split.
  - intros x Hx. rewrite sec_less_lex, (wo_irrefl (less:=vless kind)), (st_irrefl (ltb:=str_ltb)) by done.
    by rewrite andb_false_r.
  - intros x y z Hx Hy Hz. rewrite !sec_less_lex, !valueEqual_equiv by done.
    rewrite !orb_true_iff, !andb_true_iff. intros [H1|[H1 H1']] [H2|[H2 H2']].
    + left. by eapply (wo_trans x y z).
    + left. eapply (wo_lt_le not_nan _ x y z); eauto. by apply equiv_true in H2 as [].
    + left. eapply (wo_le_lt not_nan _ x y z); eauto. by apply equiv_true in H1 as [].
    + right. split; [by eapply (equiv_trans not_nan _ x y z)|by eapply (st_trans _ (se_pk y))].
  - intros x y z Hx Hy Hz. rewrite !sec_less_lex, !valueEqual_equiv by done.
    rewrite !orb_false_iff. intros [H1 H1'] [H2 H2'].
    assert (Hxz : vless kind x z = false) by (by eapply (wo_ntrans x y z)). split; [done|].
    destruct (equiv (vless kind) x z) eqn:He; [|done]. simpl.
    apply equiv_true in He as [_ Hzx].
    assert (Hyx : vless kind y x = false) by (by eapply (wo_ntrans y z x)).
    assert (Hzy : vless kind z y = false) by (by eapply (wo_ntrans z x y)).
    assert (equiv (vless kind) x y = true) as Hxy by (by apply equiv_true).
    assert (equiv (vless kind) y z = true) as Hyz by (by apply equiv_true).
    rewrite Hxy in H1'. rewrite Hyz in H2'. simpl in *. by eapply (st_ntrans _ _ (se_pk y)).
Qed.

(** Two entries the order does not separate have the same key and equal
    values. *)
Lemma sec_equiv kind a b : not_nan a -> not_nan b ->
  equiv (sec_less kind) a b = valueEqual kind a b && bool_decide (se_pk a = se_pk b).
Proof.
  intros Ha Hb. apply eq_true_iff_eq. rewrite equiv_true, !sec_less_lex by done.
  assert (Hsym : valueEqual kind b a = valueEqual kind a b) by (by rewrite !valueEqual_equiv, equiv_sym).
  rewrite Hsym, andb_true_iff, bool_decide_eq_true, !orb_false_iff.
  rewrite valueEqual_equiv by done. split.
  - intros [[H1 H2] [H3 H4]]. assert (He : equiv (vless kind) a b = true) by (by apply equiv_true).
    rewrite He in *. split; [done|]. by apply st_total.
  - intros [He Hpk]. rewrite He, Hpk. apply equiv_true in He as [-> ->].
    by rewrite (st_irrefl (ltb:=str_ltb)).
Qed.

(** A probe with the empty key stands before its group. *)
Lemma sec_less_probe kind a b : not_nan a -> not_nan b -> se_pk b = [] ->
  sec_less kind a b = vless kind a b.
Proof. intros Ha Hb Hpk. rewrite sec_less_lex, Hpk, str_ltb_nil_r by done. by rewrite andb_false_r, orb_false_r. Qed.

Lemma sec_less_probe_le kind a b : not_nan a -> not_nan b -> se_pk a = [] -> se_pk b <> [] ->
  sec_less kind a b = negb (vless kind b a).
Proof.
  intros Ha Hb Hpk Hne. rewrite sec_less_lex, Hpk, valueEqual_equiv by done. unfold equiv.
  assert (str_ltb [] (se_pk b) = true) as -> by (by destruct (se_pk b)).
  destruct (vless kind a b) eqn:H1, (vless kind b a) eqn:H2; try done.
  by rewrite (wo_asym not_nan (vless kind) a b) in H2.
Qed.

(** ** Positional search *)

(** [sort.Search]: with a test that stays true once true, the first position
    where it holds. *)
Lemma search_loop_spec fuel f i j n :
  0 <= i <= j -> j <= n -> j - i <= Z.of_nat fuel ->
  (forall a b, 0 <= a <= b -> b < n -> f a = true -> f b = true) ->
  (forall a, 0 <= a < i -> f a = false) -> (forall a, j <= a < n -> f a = true) ->
  let r := search_loop fuel f i j in
  i <= r <= j /\ (forall a, 0 <= a < r -> f a = false) /\ (forall a, r <= a < n -> f a = true).
Proof.
  revert i j. induction fuel as [|fuel IH]; intros i j Hij Hjn Hf Hmono Hlo Hhi; simpl.
  { replace j with i in * by lia. eauto with lia. }
  destruct (Z.ltb_spec i j) as [Hlt|]; [|replace j with i in * by lia; eauto with lia].
  assert (Hh : i <= (i + j) / 2 < j) by (split; [apply Z.div_le_lower_bound|apply Z.div_lt_upper_bound]; lia).
  set (h := (i + j) / 2) in *. destruct (f h) eqn:Hfh.
  - destruct (IH i h) as (? & ? & ?); try done; try lia.
    { intros a Ha. apply (Hmono h a); [lia|lia|done]. }
    eauto with lia.
  - destruct (IH (h + 1) j) as (? & ? & ?); try done; try lia.
    { intros a Ha. destruct (f a) eqn:Hfa; [|done]. rewrite (Hmono a h) in Hfh; [done|lia|lia|done]. }
    eauto with lia.
Qed.

Lemma sort_Search_ext n f g : (forall i, f i = g i) -> sort_Search n f = sort_Search n g.
Proof.
  intros H. unfold sort_Search. generalize 0, n at 2 4.
  induction (Z.to_nat n) as [|k IH]; intros i j; simpl; [done|]. by rewrite H, !IH.
Qed.

(** [g] holds on a prefix of [l]. *)
Definition antitone {A} (g : A -> bool) (l : list A) : Prop :=
  forall i j x y, (i < j)%nat -> l !! i = Some x -> l !! j = Some y -> g y = true -> g x = true.

Lemma antitone_split {A} (g : A -> bool) (l : list A) : antitone g l ->
  l = filter (fun x => g x = true) l ++ filter (fun x => g x = false) l.
Proof.
  intros Hg. rewrite <- take_while_filter by done. induction l as [|x l IH]; [done|].
  cbn [take_while]. destruct (g x) eqn:Hx.
  - rewrite filter_cons_False by congruence. simpl. f_equal. apply IH.
    intros i j a b Hij Ha Hb. eapply (Hg (S i) (S j)); [lia|done..].
  - symmetry. apply filter_all, Forall_lookup. intros i y Hy.
    destruct i as [|i]; simplify_eq/=; [done|].
    destruct (g y) eqn:Hgy; [|done]. rewrite (Hg 0%nat (S i) x y) in Hx; [done|lia|done..].
Qed.

Lemma search_count {A} (g : A -> bool) (d : A) (l : list A) : antitone g l ->
  sort_Search (zlen l) (fun i => negb (g (default d (if i <? 0 then None else l !! Z.to_nat i))))
  = zlen (filter (fun x => g x = true) l).
Proof.
  intros Hg. pose proof (antitone_split g l Hg) as Hl.
  set (a := filter (fun x => g x = true) l) in *. set (b := filter (fun x => g x = false) l) in *.
  set (f := fun i => negb _). assert (Hf : forall i, 0 <= i < zlen l -> f i = (zlen a <=? i)).
  { intros i Hi. unfold f. destruct (Z.ltb_spec i 0); [lia|]. rewrite Hl.
    destruct (Z.leb_spec (zlen a) i) as [Hai|Hai]; unfold zlen in *.
    - rewrite lookup_app_r by lia.
      destruct (lookup_lt_is_Some_2 b (Z.to_nat i - length a)) as [y Hy].
      { rewrite Hl in Hi. rewrite length_app in Hi. lia. }
      rewrite Hy. apply list_elem_of_lookup_2, list_elem_of_filter in Hy as [Hy _]. simpl. by rewrite Hy.
    - rewrite lookup_app_l by lia. destruct (lookup_lt_is_Some_2 a (Z.to_nat i)) as [y Hy]; [lia|].
      rewrite Hy. apply list_elem_of_lookup_2, list_elem_of_filter in Hy as [Hy _]. simpl. by rewrite Hy. }
  assert (Hal : zlen a <= zlen l) by (rewrite Hl, zlen_app; pose proof (zlen_nonneg b); lia).
  pose proof (zlen_nonneg a). pose proof (zlen_nonneg l).
  destruct (search_loop_spec (Z.to_nat (zlen l)) f 0 (zlen l) (zlen l)) as (Hr & Hr1 & Hr2); try lia.
  { intros x y Hxy Hy. rewrite !Hf by lia. lia. }
  fold (sort_Search (zlen l) f) in *. set (r := sort_Search (zlen l) f) in *.
  destruct (Z.lt_trichotomy r (zlen a)) as [Hlt|[?|Hgt]]; [|done|].
  - specialize (Hr2 r). rewrite Hf in Hr2 by lia. lia.
  - specialize (Hr1 (zlen a)). rewrite Hf in Hr1 by lia. lia.
Qed.

Section laws.
Context {BT : BTreeG} {BL : BTreeGLaws BT}.
Implicit Types (si : secIndex) (e probe : secEntry).

Lemma sec_sorted si : sec_ok si -> sl_sorted (sec_less (si_kind si)) (bt_scan (si_tree si)).
Proof. by intros [(_ & _ & ?) <-]. Qed.

Lemma sec_not_nan si : sec_ok si -> Forall not_nan (bt_scan (si_tree si)).
Proof. by intros [(_ & ? & _) _]. Qed.

Lemma sec_lookup si i j a b : sec_ok si -> (i < j)%nat ->
  bt_scan (si_tree si) !! i = Some a -> bt_scan (si_tree si) !! j = Some b ->
  not_nan a /\ not_nan b /\ sec_less (si_kind si) a b = true.
Proof.
  intros Hsi Hij Ha Hb. pose proof (sec_not_nan si Hsi) as HF. rewrite Forall_lookup in HF.
  split_and!; eauto. eapply (sorted_lookup (sec_less (si_kind si))); eauto using sec_sorted.
Qed.

Lemma below_antitone si e : sec_ok si -> not_nan e ->
  antitone (fun x => sec_less (si_kind si) x e) (bt_scan (si_tree si)).
Proof.
  intros Hsi He i j x y Hij Hx Hy Hye. destruct (sec_lookup si i j x y) as (? & ? & Hxy); [done..|].
  by eapply (wo_trans x y e).
Qed.

Lemma vless_antitone si e : sec_ok si -> not_nan e ->
  antitone (fun x => vless (si_kind si) x e) (bt_scan (si_tree si)).
Proof.
  intros Hsi He i j x y Hij Hx Hy Hye. destruct (sec_lookup si i j x y) as (? & ? & Hxy); [done..|].
  eapply (wo_le_lt not_nan (vless (si_kind si)) x y e); eauto. by apply sec_less_vless.
Qed.

Lemma vle_antitone si e : sec_ok si -> not_nan e ->
  antitone (fun x => negb (valueGreater (si_kind si) x e)) (bt_scan (si_tree si)).
Proof.
  intros Hsi He i j x y Hij Hx Hy. rewrite !negb_true_iff.
  destruct (sec_lookup si i j x y) as (? & ? & Hxy); [done..|].
  intros Hye. change (vless (si_kind si) e y = false) in Hye. change (vless (si_kind si) e x = false).
  eapply (wo_ntrans e y x); eauto. by apply sec_less_vless.
Qed.

Lemma si_count_zlen si : si_count si = zlen (bt_scan (si_tree si)).
Proof. apply law_len. Qed.

Lemma lowerBound_spec si e : sec_ok si -> not_nan e ->
  lowerBound si e = zlen (filter (fun x => sec_less (si_kind si) x e = true) (bt_scan (si_tree si))).
Proof.
  intros Hsi He. rewrite <- (search_count _ zero_entry) by (by apply below_antitone).
  unfold lowerBound, si_at. rewrite si_count_zlen. apply sort_Search_ext. intros i. by rewrite law_get_at.
Qed.

Lemma upperBoundValue_spec si e : sec_ok si -> not_nan e ->
  upperBoundValue si e
  = zlen (filter (fun x => negb (valueGreater (si_kind si) x e) = true) (bt_scan (si_tree si))).
Proof.
  intros Hsi He. rewrite <- (search_count _ zero_entry) by (by apply vle_antitone).
  unfold upperBoundValue, si_at. rewrite si_count_zlen. apply sort_Search_ext. intros i. by rewrite law_get_at, negb_involutive.
Qed.

(** The entries below a group, the group, and those above it. *)
Lemma group_split si probe : sec_ok si -> not_nan probe ->
  bt_scan (si_tree si)
  = filter (fun x => vless (si_kind si) x probe = true) (bt_scan (si_tree si))
    ++ group si probe
    ++ filter (fun x => valueGreater (si_kind si) x probe = true) (bt_scan (si_tree si)).
Proof.
  intros Hsi Hp. set (l := bt_scan (si_tree si)). set (k := si_kind si).
  pose proof (sec_not_nan si Hsi) as HF. fold l in HF.
  rewrite (antitone_split (fun x => vless k x probe) l) at 1 by (by apply vless_antitone). f_equal.
  assert (Hle : antitone (fun x => negb (valueGreater k x probe)) (filter (fun x => vless k x probe = false) l)).
  { intros i j x y Hij Hx Hy Hye.
    assert (Hs : sl_sorted (sec_less k) (filter (fun x => vless k x probe = false) l)).
    { eapply sorted_sublist; [apply sublist_filter|by apply sec_sorted]. }
    pose proof (sorted_lookup _ _ i j x y Hs Hij Hx Hy) as Hxy.
    apply list_elem_of_lookup_2, list_elem_of_filter in Hx as [_ Hx].
    apply list_elem_of_lookup_2, list_elem_of_filter in Hy as [_ Hy].
    rewrite Forall_forall in HF. rewrite negb_true_iff in *.
    apply (wo_ntrans (less:=vless k) probe y x); auto. by apply sec_less_vless; auto. }
  rewrite (antitone_split _ _ Hle), !list_filter_filter. f_equal.
  - unfold group. fold l k. apply list_filter_iff'. intros x Hx. rewrite Forall_forall in HF.
    rewrite valueEqual_equiv, equiv_true, negb_true_iff by auto. unfold vless. naive_solver.
  - apply list_filter_iff'. intros x Hx. rewrite negb_false_iff. split; [by intros []|].
    intros Hg. split; [done|]. rewrite Forall_forall in HF.
    by apply (wo_asym not_nan (vless k) probe x); auto.
Qed.

Lemma group_tail si probe : sec_ok si -> not_nan probe -> se_pk probe = [] ->
  sl_from (sec_less (si_kind si)) probe (bt_scan (si_tree si))
  = group si probe ++ filter (fun x => valueGreater (si_kind si) x probe = true) (bt_scan (si_tree si)).
Proof.
  intros Hsi Hp Hpk. pose proof (sec_not_nan si Hsi) as HF.
  rewrite (sl_from_filter not_nan) by (done || apply _ || by apply sec_sorted).
  apply (app_inv_head (filter (fun x => vless (si_kind si) x probe = true) (bt_scan (si_tree si)))).
  rewrite <- group_split by done. symmetry. etrans; [by apply (antitone_split _ _ (vless_antitone si probe Hsi Hp))|].
  f_equal. apply list_filter_iff'. intros x Hx. rewrite Forall_forall in HF. by rewrite sec_less_probe by auto.
Qed.

(** ** Updates keep the invariant and change the contents as expected *)

Lemma newSecIndex_ok def : sec_ok (newSecIndex def).
Proof. split; simpl; [apply (tree_new_ok not_nan), _|apply law_new_less]. Qed.

Lemma si_insert_ok si e : sec_ok si -> not_nan e -> sec_ok (si_insert si e).
Proof. intros [Ht Hl] He. split; simpl; [by apply tree_set_ok|by rewrite law_set_less]. Qed.

Lemma si_remove_ok si e : sec_ok si -> not_nan e -> sec_ok (si_remove si e).
Proof. intros [Ht Hl] He. split; simpl; [by apply tree_delete_ok|by rewrite law_delete_less]. Qed.

Definition same_entry si a b : bool := valueEqual (si_kind si) a b && bool_decide (se_pk a = se_pk b).

Lemma si_insert_elem si e x : sec_ok si -> not_nan e ->
  x ∈ bt_scan (si_tree (si_insert si e)) <->
  x = e \/ (x ∈ bt_scan (si_tree si) /\ same_entry si e x = false).
Proof.
  intros Hsi He. pose proof (sec_not_nan si Hsi) as HF. rewrite Forall_forall in HF. destruct Hsi as [Ht Hl].
  simpl. rewrite (tree_set_elem not_nan), Hl by done.
  split; (intros [->|[Hx Hq]]; [by left|right]); (split; [done|]);
    [rewrite sec_equiv in Hq by auto|unfold same_entry in Hq; rewrite sec_equiv by auto]; done.
Qed.

Lemma si_remove_elem si e x : sec_ok si -> not_nan e ->
  x ∈ bt_scan (si_tree (si_remove si e)) <-> x ∈ bt_scan (si_tree si) /\ same_entry si e x = false.
Proof.
  intros Hsi He. pose proof (sec_not_nan si Hsi) as HF. rewrite Forall_forall in HF. destruct Hsi as [Ht Hl].
  simpl. rewrite (tree_delete_elem not_nan), Hl by done.
  split; intros [Hx Hq]; (split; [done|]);
    [rewrite sec_equiv in Hq by auto|unfold same_entry in Hq; rewrite sec_equiv by auto]; done.
Qed.

(** ** Cursor loops *)

Section loops.
Context (si : secIndex) (Hsi : sec_ok si).
#[local] Notation l := (bt_scan (si_tree si)).
#[local] Notation less := (sec_less (si_kind si)).
#[local] Notation walks := (walks less l).

Lemma item_walks it i e k : walks it -> it_pos it = Some i -> drop i l = e :: k -> item it = e.
Proof. intros Hw Hp Hd. unfold item. by rewrite (walks_item less l it i e k). Qed.

Lemma seek_walks it x ok it' : walks it -> not_nan x -> it_seek it x = (ok, it') ->
  walks it' /\ match sl_from less x l with
               | [] => ok = false
               | e :: k => ok = true /\ exists i, it_pos it' = Some i /\ drop i l = e :: k
               end.
Proof.
  intros Hw Hx Hs. destruct (walks_seek not_nan less l it x ok it') as [Hw' Hm];
    [apply _|by apply sec_not_nan|by apply sec_sorted|done..|].
  split; [done|]. destruct (sl_from less x l); [done|]. destruct Hm as (? & ? & ?). eauto.
Qed.

Lemma walks_start : walks (it_new (si_tree si)).
Proof. apply walks_new; [apply Hsi|done]. Qed.

(** What the limit of [exact] leaves to collect after [n] keys. *)
Definition limited (limit n : Z) {A} (g : list A) : list A :=
  if 0 <? limit then take (Z.to_nat (limit - n)) g else g.

Lemma exact_loop_spec fuel probe limit it i e k out :
  walks it -> it_pos it = Some i -> drop i l = e :: k -> (length k < fuel)%nat ->
  (0 < limit -> zlen out < limit) ->
  exact_loop fuel si probe limit it out
  = Ok (out ++ limited limit (zlen out)
                 (se_pk <$> take_while (fun x => valueEqual (si_kind si) x probe) (e :: k))).
Proof.
  revert it i e k out. induction fuel as [|fuel IH]; intros it i e k out Hw Hp Hd Hf Hlim; [lia|].
  cbn [exact_loop]. rewrite (item_walks it i e k) by done. cbn [take_while].
  destruct (valueEqual (si_kind si) e probe); simpl negb; cbv iota; last first.
  { unfold limited. rewrite fmap_nil, take_nil. destruct (0 <? limit); by rewrite app_nil_r. }
  rewrite fmap_cons. destruct (it_next it) as [ok it'] eqn:Hn.
  destruct (walks_next less l it i e k ok it' Hw Hp Hd Hn) as (Hw' & Hd' & Hk).
  rewrite zlen_app. change (zlen [se_pk e]) with 1. pose proof (zlen_nonneg out).
  assert (Hstep : forall g : list gostring, 0 < limit -> limited limit (zlen out) (se_pk e :: g) = se_pk e :: limited limit (zlen out + 1) g).
  { intros g Hl. unfold limited. destruct (Z.ltb_spec 0 limit); [|lia]. specialize (Hlim Hl).
    replace (Z.to_nat (limit - zlen out)) with (S (Z.to_nat (limit - (zlen out + 1)))) by lia. done. }
  assert (Hstep' : forall g : list gostring, limited limit (zlen out) (se_pk e :: g) = se_pk e :: limited limit (zlen out + 1) g).
  { intros g. destruct (Z.ltb_spec 0 limit) as [|Hle]; [by apply Hstep|]. unfold limited.
    by rewrite (proj2 (Z.ltb_ge 0 limit) Hle). }
  rewrite Hstep'. destruct (Z.ltb_spec 0 limit) as [Hpos|Hneg]; simpl.
  - destruct (Z.eqb_spec (zlen out + 1) limit) as [Heq|Hne].
    + unfold limited. rewrite (proj2 (Z.ltb_lt 0 limit) Hpos). by rewrite Heq, Z.sub_diag.
    + destruct k as [|e' k]; [subst ok; simpl; by unfold limited; rewrite take_nil; destruct (0 <? limit)|].
      destruct Hk as [-> Hp']. simpl negb. cbv iota. rewrite (IH it' (S i) e' k); try done.
      * rewrite <- app_assoc, zlen_app. done.
      * simpl in Hf. lia.
      * rewrite zlen_app. change (zlen [se_pk e]) with 1. lia.
  - destruct k as [|e' k]; [subst ok; simpl; by unfold limited; rewrite take_nil; destruct (0 <? limit)|].
    destruct Hk as [-> Hp']. simpl negb. cbv iota. rewrite (IH it' (S i) e' k); try done.
    + rewrite <- app_assoc, zlen_app. done.
    + simpl in Hf. lia.
    + lia.
Qed.

Lemma loop_fuel_length : loop_fuel si = S (length l).
Proof. unfold loop_fuel. rewrite si_count_zlen. unfold zlen. lia. Qed.

Lemma group_not_greater probe x : not_nan probe -> x ∈ l ->
  valueGreater (si_kind si) x probe = true -> valueEqual (si_kind si) x probe = false.
Proof.
  intros Hp Hx Hg. pose proof (sec_not_nan si Hsi) as HF. rewrite Forall_forall in HF.
  rewrite valueEqual_equiv by auto. by apply greater_not_equiv.
Qed.

Lemma group_take_while probe : not_nan probe -> se_pk probe = [] ->
  take_while (fun x => valueEqual (si_kind si) x probe) (sl_from less probe l) = group si probe.
Proof.
  intros Hp Hpk. rewrite group_tail by done. apply take_while_app.
  - apply Forall_forall. intros x. unfold group. by intros [? _]%list_elem_of_filter.
  - destruct (filter _ l) as [|x r] eqn:Hr; [done|]. simpl.
    assert (x ∈ filter (fun x => valueGreater (si_kind si) x probe = true) l) as Hx by (rewrite Hr; by left).
    apply list_elem_of_filter in Hx as [Hg Hx]. by apply group_not_greater.
Qed.

Lemma range_loop_spec fuel hiE ok it k out :
  walks it -> (length k < fuel)%nat ->
  match k with [] => ok = false | _ :: _ => ok = true /\ exists i, it_pos it = Some i /\ drop i l = k end ->
  range_loop fuel (si_kind si) hiE ok it out
  = Ok (out ++ (se_pk <$> take_while (fun x => negb (valueGreater (si_kind si) x hiE)) k)).
Proof.
  revert ok it k out. induction fuel as [|fuel IH]; intros ok it k out Hw Hf Hk; [lia|]. cbn [range_loop].
  destruct k as [|e k]; [subst; simpl; by rewrite app_nil_r|]. destruct Hk as (-> & i & Hp & Hd).
  rewrite (item_walks it i e k) by done. simpl negb. cbv iota. cbn [take_while].
  destruct (valueGreater (si_kind si) e hiE); simpl negb; cbv iota; [by rewrite fmap_nil, app_nil_r|].
  destruct (it_next it) as [ok it'] eqn:Hn.
  destruct (walks_next less l it i e k ok it' Hw Hp Hd Hn) as (Hw' & Hd' & Hk').
  rewrite (IH ok it' k); [by rewrite <- app_assoc, fmap_cons|done|simpl in Hf; lia|].
  destruct k; [done|]. destruct Hk' as [-> ?]. split; [done|]. eauto.
Qed.
End loops.

Definition select {A} (limit : Z) (g : list A) : list A :=
  if limit =? 0 then g
  else if 0 <? limit then take (Z.to_nat limit) g
  else take (Z.to_nat (- limit)) (reverse g).

Lemma makeEntry_pk si v k e : makeEntry si v k = Ok e -> se_pk e = k.
Proof. unfold makeEntry. intros. repeat case_match; by simplify_eq/=. Qed.

Lemma makeEntry_any si v k k' e : makeEntry si v k = Ok e ->
  makeEntry si v k' = Ok (SecEntry (se_s e) (se_f e) k').
Proof. unfold makeEntry. intros. repeat case_match; by simplify_eq/=. Qed.

(** [exact]: with a limit of 0 the primary keys of the value's group in
    ascending order, with N > 0 its first N, with N < 0 its last |N|, last
    first.  The result is what filtering the whole index would give. *)
Theorem exact_spec si val limit probe :
  sec_ok si -> makeEntry si val [] = Ok probe -> not_nan probe -> MinInt64 < limit <= MaxInt64 ->
  exact si val limit = Ok (select limit (se_pk <$> group si probe)).
Proof.
  intros Hsi Hm Hn Hl. pose proof (makeEntry_pk _ _ _ _ Hm) as Hpk. unfold exact. rewrite Hm. cbn [res_bind].
  pose proof (group_take_while si Hsi probe Hn Hpk) as Hg.
  destruct (it_seek _ probe) as [ok it] eqn:Hs.
  destruct (seek_walks si Hsi _ _ _ _ (walks_start si Hsi) Hn Hs) as [Hw Hk].
  destruct (sl_from _ probe _) as [|e k] eqn:Hfr.
  { subst ok. assert (group si probe = []) as -> by (by rewrite <- Hg). unfold select.
    destruct (limit =? 0), (0 <? limit); cbn; by rewrite ?take_nil. }
  destruct Hk as (-> & i & Hp & Hd). simpl negb. cbv iota.
  assert (Hlen : (length k < loop_fuel si)%nat).
  { rewrite loop_fuel_length. pose proof (f_equal length Hd) as H. rewrite length_drop in H. simpl in H. lia. }
  assert (Hall : forall lim, 0 <= lim -> exact_loop (loop_fuel si) si probe lim it []
                 = Ok (limited lim 0 (se_pk <$> group si probe))).
  { intros lim H0. rewrite (exact_loop_spec si _ _ _ it i e k) by done. by rewrite Hg. }
  destruct (Z.leb_spec 0 limit) as [Hle|Hlt].
  - rewrite Hall by done. unfold limited, select. rewrite Z.sub_0_r.
    destruct (Z.eqb_spec limit 0), (Z.ltb_spec 0 limit); try done; lia.
  - rewrite Hall by lia. cbn [res_bind]. unfold limited. rewrite Z.ltb_irrefl.
    assert (Hw64 : wrap64 (- limit) = - limit) by (apply wrap64_id; unfold in64, MaxInt64, MinInt64 in *; lia).
    rewrite Hw64. set (g := se_pk <$> group si probe). pose proof (zlen_nonneg g).
    unfold last_desc, select. rewrite (proj2 (Z.eqb_neq limit 0)), (proj2 (Z.ltb_ge 0 limit)) by lia.
    destruct (Z.ltb_spec (zlen g) (- limit)).
    + rewrite (proj2 (Z.ltb_ge (zlen g) 0)) by lia. f_equal. unfold zlen in *.
      rewrite !take_ge by (rewrite length_reverse; lia). done.
    + by rewrite (proj2 (Z.ltb_ge (- limit) 0)) by lia.
Qed.

(** [exists] answers whether the value's group is inhabited. *)
Theorem exists_spec si val probe :
  sec_ok si -> makeEntry si val [] = Ok probe -> not_nan probe ->
  exists_ si val = Ok (bool_decide (group si probe <> [])).
Proof.
  intros Hsi Hm Hn. pose proof (makeEntry_pk _ _ _ _ Hm) as Hpk. unfold exists_. rewrite Hm. cbn [res_bind].
  pose proof (group_take_while si Hsi probe Hn Hpk) as Hg.
  destruct (it_seek _ probe) as [ok it] eqn:Hs.
  destruct (seek_walks si Hsi _ _ _ _ (walks_start si Hsi) Hn Hs) as [Hw Hk].
  destruct (sl_from _ probe _) as [|e k] eqn:Hfr.
  { subst ok. rewrite <- Hg. by rewrite bool_decide_eq_false_2 by (simpl; tauto). }
  destruct Hk as (-> & i & Hp & Hd). rewrite (item_walks si it i e k) by done. simpl in *.
  by destruct (valueEqual (si_kind si) e probe); rewrite <- Hg.
Qed.

(** [rangeQuery] returns the keys of exactly the entries whose value lies in
    the closed interval, in (value, key) order; in particular none when the
    interval is empty. *)
Theorem rangeQuery_spec si lo hi loE hiE :
  sec_ok si -> makeEntry si lo [] = Ok loE -> makeEntry si hi [] = Ok hiE -> not_nan loE -> not_nan hiE ->
  rangeQuery si lo hi
  = Ok (se_pk <$> filter (fun e => valueGreater (si_kind si) loE e = false
                                   /\ valueGreater (si_kind si) e hiE = false) (bt_scan (si_tree si))).
Proof.
  intros Hsi Hlo Hhi Hnl Hnh. pose proof (makeEntry_pk _ _ _ _ Hlo) as Hpk. unfold rangeQuery.
  rewrite Hlo, Hhi. cbn [res_bind]. pose proof (sec_not_nan si Hsi) as HF. rewrite Forall_forall in HF.
  destruct (it_seek _ loE) as [ok it] eqn:Hs.
  destruct (seek_walks si Hsi _ _ _ _ (walks_start si Hsi) Hnl Hs) as [Hw Hk].
  rewrite (range_loop_spec si (loop_fuel si) hiE ok it (sl_from (sec_less (si_kind si)) loE (bt_scan (si_tree si)))).
  - f_equal. simpl. f_equal.
    rewrite (sl_from_filter not_nan) by (apply _ || done || by (apply sec_not_nan || apply sec_sorted)).
    rewrite take_while_filter.
    + rewrite list_filter_filter. apply list_filter_iff'. intros x Hx.
      rewrite negb_true_iff, sec_less_probe by auto. unfold vless. tauto.
    + intros i j x y Hij Hx Hy. rewrite !negb_true_iff. intros Hg.
      assert (Hs' : sl_sorted (sec_less (si_kind si)) (filter (fun y => sec_less (si_kind si) y loE = false) (bt_scan (si_tree si)))).
      { eapply sorted_sublist; [apply sublist_filter|by apply sec_sorted]. }
      pose proof (sorted_lookup _ _ i j x y Hs' Hij Hx Hy) as Hxy.
      apply list_elem_of_lookup_2, list_elem_of_filter in Hx as [_ Hx].
      apply list_elem_of_lookup_2, list_elem_of_filter in Hy as [_ Hy].
      apply (wo_ntrans (less:=vless (si_kind si)) hiE y x); auto. apply sec_less_vless; auto.
  - done.
  - rewrite loop_fuel_length, sl_from_drop, length_drop. lia.
  - destruct (sl_from _ loE _); [done|]. destruct Hk as (-> & i & ? & ?). eauto.
Qed.

(** ** Prefix queries

    The walk of [prefix] over one index of strings. *)

Section prefix_walk.
Context (si : secIndex) (Hsi : sec_ok si) (Hkind : si_kind si = KindString).
#[local] Notation l := (bt_scan (si_tree si)).
#[local] Notation less := (sec_less (si_kind si)).
#[local] Notation walks := (walks less l).

(** The cursor has the suffix [k] of the index still before it. *)
Definition ahead (ok : bool) (it : bt_iter secEntry) (k : list secEntry) : Prop :=
  walks it /\ match k with
              | [] => ok = false
              | _ :: _ => ok = true /\ exists i, it_pos it = Some i /\ drop i l = k
              end.

(** The cursor has the prefix of length [n] behind it, its own element included. *)
Definition behind (back : bool) (it : bt_iter secEntry) (n : nat) : Prop :=
  walks it /\ (n <= length l)%nat
  /\ match n with O => back = false | S i => back = true /\ it_pos it = Some i end.

Lemma ahead_item ok it e k : ahead ok it (e :: k) -> ok = true /\ item it = e.
Proof. intros (Hw & -> & i & Hp & Hd). split; [done|]. by eapply item_walks. Qed.

Lemma ahead_next ok it e k ok' it' : ahead ok it (e :: k) -> it_next it = (ok', it') -> ahead ok' it' k.
Proof.
  intros (Hw & -> & i & Hp & Hd) Hn.
  destruct (walks_next less l it i e k ok' it' Hw Hp Hd Hn) as (? & ? & Hk). split; [done|].
  destruct k; [done|]. destruct Hk as [-> ?]. eauto.
Qed.

Lemma ahead_seek it x ok it' : walks it -> not_nan x -> it_seek it x = (ok, it') ->
  ahead ok it' (sl_from less x l).
Proof.
  intros Hw Hx Hs. destruct (seek_walks si Hsi it x ok it' Hw Hx Hs) as [? Hk]. split; [done|].
  by destruct (sl_from less x l).
Qed.

Lemma ahead_fuel ok it k : ahead ok it k -> (length k < loop_fuel si)%nat.
Proof.
  intros [_ Hk]. rewrite loop_fuel_length. destruct k as [|e k]; [simpl; lia|].
  destruct Hk as (_ & i & _ & Hd). rewrite <- Hd, length_drop. lia.
Qed.

Lemma behind_prev back it i back' it' : behind back it (S i) -> it_prev it = (back', it') -> behind back' it' i.
Proof.
  intros ([Hw1 Hw2] & Hle & -> & Hp) Hn. destruct (law_prev _ _ _ _ _ Hp Hn) as (? & ? & Hl).
  split; [split; congruence|]. split; [lia|]. by destruct i, Hl.
Qed.

Lemma behind_item back it i : behind back it (S i) ->
  back = true /\ l !! i = Some (item it).
Proof.
  intros ([Hw1 Hw2] & Hle & -> & Hp). split; [done|]. unfold item. rewrite law_item, Hp, Hw1.
  destruct (lookup_lt_is_Some_2 l i) as [e He]; [lia|]. by rewrite He.
Qed.

Lemma behind_last it ok it' : walks it -> it_last it = (ok, it') -> behind ok it' (length l).
Proof.
  intros [Hw1 Hw2] Hl. destruct (law_last _ _ _ _ Hl) as (? & ? & Hm).
  split; [split; congruence|]. split; [done|]. rewrite Hw1 in Hm. by destruct (length l), Hm.
Qed.

Lemma prefix_all_spec fuel v ok it G R out :
  ahead ok it (G ++ R) -> (length (G ++ R) < fuel)%nat -> Forall (fun x => se_s x = v) G ->
  match R with [] => True | x :: _ => se_s x <> v end ->
  exists ok' it', prefix_all fuel v ok it out = Ok (out ++ (se_pk <$> G), ok', it') /\ ahead ok' it' R.
Proof.
  revert ok it G out. induction fuel as [|fuel IH]; intros ok it G out Ha Hf HG HR; [lia|]. cbn [prefix_all].
  destruct G as [|e G].
  - rewrite app_nil_r. exists ok, it. simpl in *. destruct R as [|x R].
    + destruct Ha as [Hw ->]. split; [done|]. by split.
    + destruct (ahead_item _ _ _ _ Ha) as [-> ->]. by rewrite bool_decide_eq_false_2.
  - apply Forall_cons in HG as [He HG]. destruct (ahead_item _ _ _ _ Ha) as [-> Hi].
    rewrite Hi, bool_decide_eq_true_2 by done. simpl. destruct (it_next it) as [ok' it'] eqn:Hn.
    destruct (IH ok' it' G (out ++ [se_pk e])) as (ok2 & it2 & -> & ?); try done.
    { by eapply ahead_next. }
    { simpl in Hf. lia. }
    exists ok2, it2. by rewrite <- app_assoc.
Qed.

Lemma prefix_first_spec fuel v limit cnt ok it G R out :
  ahead ok it (G ++ R) -> (length (G ++ R) < fuel)%nat -> Forall (fun x => se_s x = v) G ->
  match R with [] => True | x :: _ => se_s x <> v end -> cnt <= limit ->
  let n := Z.to_nat (limit - cnt) in
  exists ok' it', prefix_first fuel v limit cnt ok it out = Ok (out ++ (se_pk <$> take n G), ok', it')
    /\ ahead ok' it' (drop n G ++ R).
Proof.
  revert ok it G out cnt. induction fuel as [|fuel IH]; intros ok it G out cnt Ha Hf HG HR Hc n; [lia|].
  cbn [prefix_first]. destruct G as [|e G].
  - rewrite take_nil, drop_nil, fmap_nil, app_nil_r. exists ok, it. simpl in *. destruct R as [|x R].
    + destruct Ha as [Hw ->]. split; [done|]. by split.
    + destruct (ahead_item _ _ _ _ Ha) as [-> ->]. by rewrite bool_decide_eq_false_2.
  - apply Forall_cons in HG as [He HG]. destruct (ahead_item _ _ _ _ Ha) as [-> Hi].
    rewrite Hi, bool_decide_eq_true_2 by done. simpl andb.
    destruct (Z.ltb_spec cnt limit) as [Hlt|Hge]; last first.
    { replace n with 0%nat by lia. exists true, it. by rewrite app_nil_r. }
    replace n with (S (Z.to_nat (limit - (cnt + 1)))) by lia.
    destruct (it_next it) as [ok' it'] eqn:Hn.
    destruct (IH ok' it' G (out ++ [se_pk e]) (cnt + 1)) as (ok2 & it2 & -> & ?); try done.
    { by eapply ahead_next. }
    { simpl in Hf. lia. }
    { lia. }
    exists ok2, it2. by rewrite <- app_assoc.
Qed.

Lemma prefix_last_spec fuel v limit cnt back it n out :
  behind back it n -> (n < fuel)%nat -> 0 <= cnt ->
  let m := Z.to_nat (wrap64 (- limit) - cnt) in
  exists it', prefix_last fuel v limit cnt back it out
    = Ok (out ++ (se_pk <$> take m (take_while (fun x => bool_decide (se_s x = v)) (reverse (take n l)))), it')
    /\ walks it'.
Proof.
  revert back it n out cnt. induction fuel as [|fuel IH]; intros back it n out cnt Hb Hf Hc m; [lia|].
  cbn [prefix_last]. destruct n as [|i].
  { destruct Hb as (Hw & _ & ->). simpl. rewrite take_nil, app_nil_r. eauto. }
  destruct (behind_item _ _ _ Hb) as [-> Hi]. erewrite take_S_r, reverse_snoc by done. cbn [take_while].
  simpl andb. destruct (bool_decide (se_s (item it) = v)); simpl andb; cbv iota; last first.
  { rewrite take_nil, app_nil_r. exists it. split; [done|apply Hb]. }
  destruct (Z.ltb_spec cnt (wrap64 (- limit))) as [Hlt|Hge]; last first.
  { replace m with 0%nat by lia. rewrite app_nil_r. exists it. split; [done|apply Hb]. }
  replace m with (S (Z.to_nat (wrap64 (- limit) - (cnt + 1)))) by lia.
  destruct (it_prev it) as [back' it'] eqn:Hp.
  destruct (IH back' it' i (out ++ [se_pk (item it)]) (cnt + 1)) as (it2 & -> & ?); [|lia..|].
  { by eapply behind_prev. }
  exists it2. rewrite <- app_assoc. done.
Qed.

Definition at_value (v : gostring) : secEntry := SecEntry v (S754_zero false) [].

Lemma at_value_not_nan v : not_nan (at_value v).
Proof. done. Qed.
#[local] Hint Resolve at_value_not_nan : core.

Lemma from_value v : sl_from less (at_value v) l = filter (fun x => str_ltb (se_s x) v = false) l.
Proof.
  pose proof (sec_not_nan si Hsi) as HF.
  rewrite (sl_from_filter not_nan) by (apply _ || done || by apply sec_sorted).
  apply list_filter_iff'. intros x Hx. rewrite Forall_forall in HF. rewrite sec_less_probe by auto.
  by rewrite Hkind.
Qed.

Lemma group_value v : group si (at_value v) = filter (fun x => se_s x = v) l.
Proof.
  unfold group. rewrite Hkind. apply list_filter_iff'. intros x _. simpl. apply bool_decide_eq_true.
Qed.

(** [v ++ "\x00"] starts right after the group of [v]. *)
Lemma from_next v :
  sl_from less (at_value (v ++ [Byte.x00])) l = filter (fun x => str_ltb v (se_s x) = true) l.
Proof.
  rewrite from_value. apply list_filter_iff'. intros x _. split.
  - intros H. destruct (str_ltb v (se_s x)) eqn:Hx; [done|].
    rewrite (st_le_lt str_ltb (se_s x) v) in H; [done|done|apply str_ltb_app_zero].
  - apply str_ltb_succ.
Qed.

Lemma from_split v :
  sl_from less (at_value v) l = group si (at_value v) ++ sl_from less (at_value (v ++ [Byte.x00])) l.
Proof.
  rewrite group_tail by done. f_equal. rewrite from_next. apply list_filter_iff'. intros x _. by rewrite Hkind.
Qed.

Lemma group_all v : Forall (fun x => se_s x = v) (group si (at_value v)).
Proof. apply Forall_forall. intros x. rewrite group_value. by intros [? _]%list_elem_of_filter. Qed.

Lemma next_head v :
  match sl_from less (at_value (v ++ [Byte.x00])) l with [] => True | x :: _ => se_s x <> v end.
Proof.
  destruct (sl_from _ _ _) as [|x r] eqn:Hr; [done|]. intros <-.
  assert (x ∈ sl_from less (at_value (se_s x ++ [Byte.x00])) l) as Hx by (rewrite Hr; by left).
  rewrite from_next in Hx. apply list_elem_of_filter in Hx as [Hx _].
  by rewrite (st_irrefl (ltb:=str_ltb)) in Hx.
Qed.

(** Stepping back from the start of the next group, or from the end of the
    index, reaches the last entry of the group of [v]. *)
Definition upto (v : gostring) : nat :=
  length (filter (fun x => vless (si_kind si) x (at_value v) = true) l ++ group si (at_value v)).

Lemma upto_split v : l = (filter (fun x => vless (si_kind si) x (at_value v) = true) l ++ group si (at_value v))
                         ++ sl_from less (at_value (v ++ [Byte.x00])) l.
Proof.
  rewrite <- app_assoc, <- from_split, group_tail by done. apply group_split; done.
Qed.

Lemma behind_group v sk it it' back it'' : walks it ->
  it_seek it (at_value (v ++ [Byte.x00])) = (sk, it') ->
  (if sk then it_prev it' else it_last it') = (back, it'') -> behind back it'' (upto v).
Proof.
  intros Hw Hs Hb. pose proof (ahead_seek _ _ _ _ Hw (at_value_not_nan _) Hs) as [Hw' Ha].
  pose proof (f_equal length (upto_split v)) as Hlen. rewrite length_app in Hlen. fold (upto v) in Hlen.
  destruct (sl_from less (at_value (v ++ [Byte.x00])) l) as [|x r]; simpl in Hlen.
  - subst sk. replace (upto v) with (length l) by lia. by eapply behind_last.
  - destruct Ha as (-> & i & Hp & Hd). eapply (behind_prev true it'); [|done].
    apply (f_equal length) in Hd. rewrite length_drop in Hd. simpl in Hd.
    replace (upto v) with i by lia. split; [done|]. split; [lia|done].
Qed.

Lemma upto_reverse v :
  take_while (fun x => bool_decide (se_s x = v)) (reverse (take (upto v) l)) = reverse (group si (at_value v)).
Proof.
  rewrite (upto_split v) at 1. unfold upto. rewrite take_app_length, reverse_app. apply take_while_app.
  - apply Forall_reverse. eapply Forall_impl; [apply group_all|]. intros x Hx. by apply bool_decide_eq_true_2.
  - destruct (reverse _) as [|x r] eqn:Hr; [done|]. apply bool_decide_eq_false_2. intros Hx.
    assert (x ∈ reverse (filter (fun x => vless (si_kind si) x (at_value v) = true) l)) as HxL
      by (rewrite Hr; by left).
    rewrite elem_of_reverse, list_elem_of_filter, Hkind in HxL. destruct HxL as [HxL _].
    unfold vless in HxL. simpl in HxL. by rewrite Hx, (st_irrefl (ltb:=str_ltb)) in HxL.
Qed.

(** One turn of the outer loop emits the selection of its group and leaves
    the cursor at the next one. *)
Lemma prefix_group_spec limit v ok it out :
  MinInt64 < limit <= MaxInt64 ->
  ahead ok it (sl_from less (at_value v) l) -> group si (at_value v) <> [] ->
  exists ok' it',
    prefix_group (loop_fuel si) limit v ok it out
    = Ok (out ++ select limit (se_pk <$> group si (at_value v)), ok', it')
    /\ ahead ok' it' (sl_from less (at_value (v ++ [Byte.x00])) l).
Proof.
  intros Hlim Ha Hne. pose proof (ahead_fuel _ _ _ Ha) as Hfuel. rewrite from_split in Ha, Hfuel.
  pose proof (group_all v) as HG. pose proof (next_head v) as HR.
  unfold prefix_group. fold (at_value (v ++ [Byte.x00])). unfold select.
  destruct (Z.eqb_spec limit 0) as [->|Hn0]; [by eapply prefix_all_spec|].
  destruct (Z.ltb_spec 0 limit) as [Hpos|Hneg].
  - destruct (prefix_first_spec (loop_fuel si) v limit 0 ok it _ _ out Ha Hfuel HG HR)
      as (ok1 & it1 & -> & Ha1); [lia|].
    rewrite Z.sub_0_r in *. cbn [res_bind]. rewrite <- fmap_take.
    destruct (drop (Z.to_nat limit) (group si (at_value v))) as [|e k] eqn:Hd.
    + assert (ok1 && bool_decide (se_s (item it1) = v) = false) as ->; [|by eauto].
      simpl in Ha1. destruct (sl_from _ _ l) as [|x r]; [by destruct Ha1 as [_ ->]|].
      destruct (ahead_item _ _ _ _ Ha1) as [-> ->]. by apply bool_decide_eq_false_2.
    + destruct (ahead_item _ _ _ _ Ha1) as [-> ->].
      assert (se_s e = v) as Hev.
      { apply (Forall_drop _ (Z.to_nat limit)) in HG. rewrite Hd in HG. by inversion HG. }
      rewrite bool_decide_eq_true_2 by done. simpl andb. cbv iota.
      destruct (it_seek it1 _) as [ok2 it2] eqn:Hs. exists ok2, it2. split; [done|].
      eapply ahead_seek; [apply Ha1|done..].
  - destruct (it_seek it (at_value (v ++ [Byte.x00]))) as [sk it1] eqn:Hs1.
    destruct (if sk then it_prev it1 else it_last it1) as [back it2] eqn:Hb.
    pose proof (behind_group _ _ _ _ _ _ (proj1 Ha) Hs1 Hb) as Hbeh.
    destruct (prefix_last_spec (loop_fuel si) v limit 0 back it2 (upto v) out) as (it3 & -> & Hw3); [done| |lia|].
    { rewrite loop_fuel_length. destruct Hbeh as (_ & ? & _). lia. }
    cbn [res_bind]. destruct (it_seek it3 _) as [ok4 it4] eqn:Hs4. exists ok4, it4.
    split; [|by eapply ahead_seek]. rewrite upto_reverse, Z.sub_0_r.
    rewrite wrap64_id by (unfold in64, MaxInt64, MinInt64 in *; lia). by rewrite fmap_take, fmap_reverse.
Qed.

Lemma remove_dups_run (v : gostring) G r :
  G <> [] -> Forall (fun x => x = v) G -> v ∉ r -> remove_dups (G ++ r) = v :: remove_dups r.
Proof.
  intros Hne HG Hr. induction HG as [|x G -> HG IH]; [done|]. simpl. destruct G as [|y G].
  - by case_decide.
  - case_decide as Hd; [by apply IH|]. destruct Hd. inversion HG; subst. by left.
Qed.

(** The walk that starts at [w] starts at the group of its first value. *)
Lemma from_restart w e k : sl_from less (at_value w) l = e :: k ->
  str_ltb (se_s e) w = false /\ sl_from less (at_value (se_s e)) l = e :: k
  /\ forall x, x ∈ e :: k -> str_ltb (se_s x) (se_s e) = false.
Proof.
  intros Hk. pose proof (sec_not_nan si Hsi) as HF. rewrite Forall_forall in HF.
  assert (Hin : forall x, x ∈ e :: k -> x ∈ l /\ str_ltb (se_s x) w = false).
  { intros x Hx. rewrite <- Hk, from_value in Hx. by apply list_elem_of_filter in Hx as []. }
  assert (Hs : sl_sorted less (e :: k)).
  { rewrite <- Hk, from_value. eapply sorted_sublist; [apply sublist_filter|by apply sec_sorted]. }
  destruct (Hin e) as [Hel Hew]; [by left|].
  assert (Hge : forall x, x ∈ e :: k -> str_ltb (se_s x) (se_s e) = false).
  { intros x Hx. destruct (Hin x Hx) as [Hxl _].
    apply elem_of_cons in Hx as [->|Hx]; [by apply st_irrefl|].
    apply sorted_cons_inv in Hs as [_ Hs]. apply Hs in Hx.
    apply sec_less_vless in Hx; [|auto..]. by rewrite Hkind in Hx. }
  split_and!; [done| |done]. rewrite <- Hk, !from_value. apply list_filter_iff'. intros x Hx. split.
  - intros H. by eapply (st_ntrans str_ltb w (se_s e)).
  - intros H. apply Hge. rewrite <- Hk, from_value. by apply list_elem_of_filter.
Qed.

Lemma from_values p v : has_prefix p v = true -> group si (at_value v) <> [] ->
  remove_dups (se_s <$> filter (fun e => has_prefix p (se_s e) = true) (sl_from less (at_value v) l))
  = v :: remove_dups (se_s <$> filter (fun e => has_prefix p (se_s e) = true)
                                      (sl_from less (at_value (v ++ [Byte.x00])) l)).
Proof.
  intros Hp Hne. rewrite (from_split v), filter_app, (filter_all _ (group si (at_value v))).
  - rewrite fmap_app. apply remove_dups_run; [by destruct (group si (at_value v))|..].
    + apply Forall_fmap. apply group_all.
    + intros (x & Hx & HxR)%list_elem_of_fmap. apply list_elem_of_filter in HxR as [_ HxR].
      rewrite from_next in HxR. apply list_elem_of_filter in HxR as [HxR _].
      by rewrite Hx, (st_irrefl (ltb:=str_ltb)) in HxR.
  - eapply Forall_impl; [apply group_all|]. intros x ->. done.
Qed.

Lemma prefix_loop_spec outer p limit ok it w out :
  MinInt64 < limit <= MaxInt64 -> str_ltb w p = false ->
  ahead ok it (sl_from less (at_value w) l) -> (length (sl_from less (at_value w) l) < outer)%nat ->
  prefix_loop outer (loop_fuel si) p limit ok it out
  = Ok (out ++ mjoin ((fun v => select limit (se_pk <$> group si (at_value v)))
          <$> remove_dups (se_s <$> filter (fun e => has_prefix p (se_s e) = true)
                                           (sl_from less (at_value w) l)))).
Proof.
  intros Hlim. revert ok it w out. induction outer as [|outer IH]; intros ok it w out Hw Ha Hf; [lia|].
  cbn [prefix_loop]. destruct (sl_from less (at_value w) l) as [|e k] eqn:Hk.
  { destruct Ha as [_ ->]. simpl. by rewrite app_nil_r. }
  destruct (from_restart w e k Hk) as (Hew & Hkv & Hge).
  destruct (ahead_item _ _ _ _ Ha) as [-> ->]. simpl negb. cbv iota. set (v := se_s e) in *.
  destruct (has_prefix p v) eqn:Hpv; simpl negb; cbv iota; last first.
  { rewrite filter_none; [by rewrite app_nil_r|]. apply Forall_forall. intros x Hx Hpx.
    rewrite (has_prefix_convex p v (se_s x)) in Hpv; [done| |by apply Hge|done].
    by eapply (st_ntrans str_ltb p w). }
  assert (Hne : group si (at_value v) <> []).
  { intros Hg. pose proof Hkv as H. rewrite from_split, Hg in H. pose proof (next_head v) as Hh.
    simpl in H. rewrite H in Hh. done. }
  rewrite <- Hkv in Ha, Hf |- *.
  destruct (prefix_group_spec limit v true it out Hlim Ha Hne) as (ok' & it' & -> & Ha').
  cbn [res_bind]. rewrite (IH ok' it' (v ++ [Byte.x00])); [|..|done|].
  - rewrite <- app_assoc, (from_values p v) by done. done.
  - eapply (st_ntrans str_ltb p v); [by apply has_prefix_ge|]. apply st_asym; [apply _|]. apply str_ltb_app_zero.
  - rewrite from_split, length_app in Hf. destruct (group si (at_value v)); [done|]. simpl in Hf. lia.
Qed.
End prefix_walk.

(** [prefix]: for every distinct index value with the prefix, in order, the
    selection its group's limit asks for; the walk visits each value once
    although it seeks over the interior of groups. *)
Theorem prefix_spec si p limit :
  sec_ok si -> si_kind si = KindString -> MinInt64 < limit <= MaxInt64 ->
  prefix si p limit
  = Ok (mjoin ((fun v => select limit (se_pk <$> filter (fun e => se_s e = v) (bt_scan (si_tree si))))
          <$> remove_dups (se_s <$> filter (fun e => has_prefix p (se_s e) = true) (bt_scan (si_tree si))))).
Proof.
  intros Hsi Hk Hl. unfold prefix. rewrite Hk. fold (at_value p).
  destruct (it_seek _ (at_value p)) as [ok it] eqn:Hs.
  pose proof (ahead_seek si Hsi _ _ _ _ (walks_start si Hsi) (at_value_not_nan p) Hs) as Ha.
  rewrite (prefix_loop_spec si Hsi Hk (loop_fuel si) p limit ok it p);
    [|done|by apply st_irrefl|done|by eapply ahead_fuel].
  f_equal. simpl app. rewrite (from_value si Hsi Hk), list_filter_filter. f_equal.
  assert (filter (fun e => has_prefix p (se_s e) = true /\ str_ltb (se_s e) p = false) (bt_scan (si_tree si))
          = filter (fun e => has_prefix p (se_s e) = true) (bt_scan (si_tree si))) as ->.
  { apply list_filter_iff'. intros x _. split; [by intros []|]. intros H. split; [done|by apply has_prefix_ge]. }
  apply list_fmap_ext. intros _ v _. by rewrite (group_value si Hk).
Qed.

(** ** Groups as sorted lists of keys *)

#[export] Instance str_weak : WeakOrder (fun _ => True) str_ltb.
Proof.
  split; intros.
  - apply st_irrefl.
  - by eapply (st_trans _ y).
  - by eapply (st_ntrans _ _ y).
Qed.

(** How many keys are below [key]. *)
Definition below (key : gostring) (ks : list gostring) : nat :=
  length (filter (fun x => str_ltb x key = true) ks).

Lemma str_antitone key ks : sl_sorted str_ltb ks -> antitone (fun x => str_ltb x key) ks.
Proof.
  intros Hs i j x y Hij Hx Hy Hyk. eapply (st_trans _ y); [|done]. by eapply (sorted_lookup str_ltb ks i j).
Qed.

Lemma below_lookup key ks : sl_sorted str_ltb ks -> ks !! below key ks = Some key <-> key ∈ ks.
Proof.
  intros Hs. split; [by intros ?%list_elem_of_lookup_2|]. intros Hk.
  pose proof (antitone_split _ ks (str_antitone key ks Hs)) as Hl. unfold below.
  set (A := filter (fun x => str_ltb x key = true) ks) in *.
  set (B := filter (fun x => str_ltb x key = false) ks) in *.
  assert (HkB : key ∈ B) by (apply list_elem_of_filter; split; [apply st_irrefl|done]).
  assert (HsB : sl_sorted str_ltb B) by (eapply sorted_sublist; [apply sublist_filter|done]).
  rewrite Hl, lookup_app_r, Nat.sub_diag by lia. destruct B as [|b B'] eqn:HB; [by apply elem_of_nil in HkB|].
  simpl. f_equal. apply elem_of_cons in HkB as [->|HkB]; [done|].
  apply sorted_cons_inv in HsB as [_ Hb]. apply Hb in HkB.
  assert (b ∈ filter (fun x => str_ltb x key = false) ks) as Hbk by (fold B; rewrite HB; by left).
  apply list_elem_of_filter in Hbk as [Hbk _]. congruence.
Qed.

Lemma below_le key ks i k : sl_sorted str_ltb ks -> ks !! i = Some k ->
  str_leb key k = bool_decide (below key ks <= i)%nat.
Proof.
  intros Hs Hi. pose proof (antitone_split _ ks (str_antitone key ks Hs)) as Hl.
  rewrite Hl in Hi. unfold below, str_leb. apply eq_true_iff_eq. rewrite negb_true_iff, bool_decide_eq_true.
  set (A := filter (fun x => str_ltb x key = true) ks) in *. split.
  - intros Hk. destruct (decide (length A <= i)%nat) as [|Hlt]; [done|]. rewrite lookup_app_l in Hi by lia.
    apply list_elem_of_lookup_2, list_elem_of_filter in Hi as [Hi _]. congruence.
  - intros Hle. rewrite lookup_app_r in Hi by done. by apply list_elem_of_lookup_2, list_elem_of_filter in Hi as [Hi _].
Qed.

Lemma sl_set_split key ks : sl_sorted str_ltb ks -> key ∉ ks ->
  sl_set str_ltb key ks
  = filter (fun x => str_ltb x key = true) ks ++ key :: filter (fun x => str_ltb x key = false) ks.
Proof.
  induction ks as [|z ks IH]; intros Hs Hn; [done|]. cbn [sl_set].
  pose proof Hs as Hs0. apply sorted_cons_inv in Hs as [Hs Hz]. apply not_elem_of_cons in Hn as [Hne Hn].
  destruct (str_ltb key z) eqn:Hkz; [|destruct (str_ltb z key) eqn:Hzk].
  - assert (Hall : forall x, x ∈ z :: ks -> str_ltb x key = false).
    { intros x [->|Hx]%elem_of_cons; (apply st_asym; [apply _|]); [done|]. eapply (st_trans _ z); eauto. }
    rewrite filter_none, filter_all; [done|..]; apply Forall_forall; [done|].
    intros x Hx. by rewrite Hall.
  - rewrite filter_cons_True, filter_cons_False by congruence. simpl. by rewrite IH.
  - by destruct Hne; apply st_total.
Qed.

Lemma sl_set_take key ks n : sl_sorted str_ltb ks -> key ∉ ks ->
  key ∈ take n (sl_set str_ltb key ks) <-> (below key ks < n)%nat.
Proof.
  intros Hs Hn. rewrite sl_set_split by done. unfold below. set (A := filter (fun x => str_ltb x key = true) ks).
  assert (HA : key ∉ A).
  { unfold A. intros [H _]%list_elem_of_filter. by rewrite (st_irrefl (ltb:=str_ltb)) in H. }
  rewrite take_app, elem_of_app. split.
  - intros [H|H].
    + destruct HA. eapply elem_of_sublist; [done|]. apply sublist_take.
    + destruct (decide (length A < n)%nat) as [|Hge]; [done|].
      replace (n - length A)%nat with 0%nat in H by lia. by apply elem_of_nil in H.
  - intros Hlt. right. replace (n - length A)%nat with (S (n - length A - 1)) by lia. by left.
Qed.

(** The primary keys of a group. *)
Definition group_keys si probe : list gostring := se_pk <$> group si probe.

Section groups.
Context (si : secIndex) (probe : secEntry) (Hsi : sec_ok si) (Hp : not_nan probe).
#[local] Notation l := (bt_scan (si_tree si)).
#[local] Notation kind := (si_kind si).
#[local] Notation L := (filter (fun x => vless kind x probe = true) l).
#[local] Notation R := (filter (fun x => valueGreater kind x probe = true) l).

Lemma group_elem x : x ∈ group si probe <-> x ∈ l /\ not_nan x /\ equiv (vless kind) x probe = true.
Proof.
  pose proof (sec_not_nan si Hsi) as HF. rewrite Forall_forall in HF.
  unfold group. rewrite list_elem_of_filter. split.
  - intros [He Hx]. rewrite valueEqual_equiv in He by auto. auto.
  - intros (Hx & Hn & He). by rewrite valueEqual_equiv.
Qed.

Lemma group_keys_sorted : sl_sorted str_ltb (group_keys si probe).
Proof.
  assert (Hs : sl_sorted (sec_less kind) (group si probe)).
  { eapply sorted_sublist; [apply sublist_filter|by apply sec_sorted]. }
  assert (HG : forall x, x ∈ group si probe -> not_nan x /\ equiv (vless kind) x probe = true).
  { intros x Hx. by apply group_elem in Hx as (_ & ? & ?). }
  unfold group_keys. induction (group si probe) as [|e g IH]; [constructor|].
  apply sorted_cons_inv in Hs as [Hs Hlt]. rewrite fmap_cons. apply sorted_cons.
  { apply IH; [done|]. intros; apply HG; by right. }
  intros k (x & -> & Hx)%list_elem_of_fmap. destruct (HG e) as [He1 He2]; [by left|].
  destruct (HG x) as [Hx1 Hx2]; [by right|]. apply Hlt in Hx. rewrite sec_less_lex in Hx by done.
  apply orb_true_iff in Hx as [Hv|[_ ?]%andb_true_iff]; [|done].
  rewrite equiv_sym in Hx2. pose proof (equiv_trans not_nan _ e probe x He1 Hp Hx1 He2 Hx2) as He.
  rewrite (less_not_equiv _ e x Hv) in He. done.
Qed.

Lemma group_lower : se_pk probe = [] -> lowerBound si probe = zlen L.
Proof.
  intros Hpk. rewrite lowerBound_spec by done. f_equal. apply list_filter_iff'. intros x Hx.
  pose proof (sec_not_nan si Hsi) as HF. rewrite Forall_forall in HF. by rewrite sec_less_probe by auto.
Qed.

Lemma group_upper : upperBoundValue si probe = zlen L + zlen (group_keys si probe).
Proof.
  rewrite upperBoundValue_spec by done. unfold group_keys, zlen. rewrite length_fmap, <- Nat2Z.inj_add, <- length_app.
  do 2 f_equal. pose proof (group_split si probe Hsi Hp) as Hl.
  pose proof (sec_not_nan si Hsi) as HF. rewrite Forall_forall in HF.
  rewrite Hl at 1. rewrite !filter_app, app_assoc. rewrite (filter_none _ R), app_nil_r.
  - f_equal; apply filter_all, Forall_forall; intros x; rewrite negb_true_iff.
    + intros [Hv Hx]%list_elem_of_filter. apply (wo_asym not_nan (vless kind) x probe); auto.
    + intros (_ & Hn & He)%group_elem. by apply equiv_true in He as [].
  - apply Forall_forall. intros x [-> _]%list_elem_of_filter. done.
Qed.

Lemma group_at j : (j < length (group_keys si probe))%nat ->
  Some (se_pk (si_at si (zlen L + Z.of_nat j))) = group_keys si probe !! j.
Proof.
  intros Hj. unfold si_at. rewrite law_get_at. pose proof (zlen_nonneg L).
  destruct (Z.ltb_spec (zlen L + Z.of_nat j) 0); [lia|].
  unfold group_keys in *. rewrite length_fmap in Hj. rewrite list_lookup_fmap.
  destruct (lookup_lt_is_Some_2 (group si probe) j Hj) as [e He]. rewrite He. simpl. f_equal.
  rewrite (group_split si probe Hsi Hp) at 2. unfold zlen in *.
  rewrite lookup_app_r by lia. replace (Z.to_nat _ - length L)%nat with j by lia.
  rewrite lookup_app_l by lia. by rewrite He.
Qed.

Lemma group_self key : let self := SecEntry (se_s probe) (se_f probe) key in
  lowerBound si self = zlen L + Z.of_nat (below key (group_keys si probe)).
Proof.
  intros self. assert (Hself : not_nan self) by done. rewrite lowerBound_spec by done.
  pose proof (sec_not_nan si Hsi) as HF. rewrite Forall_forall in HF.
  assert (Hless : forall x, not_nan x -> sec_less kind x self
            = vless kind x probe || (valueEqual kind x probe && str_ltb (se_pk x) key)).
  { intros x Hx. rewrite sec_less_lex by done. by destruct kind. }
  pose proof (group_split si probe Hsi Hp) as Hl. rewrite Hl at 1.
  rewrite !filter_app, (filter_all _ L), (filter_none _ R), app_nil_r.
  - unfold zlen, below, group_keys. rewrite length_app, Nat2Z.inj_add. do 2 f_equal.
    rewrite filter_fmap, length_fmap. f_equal. apply list_filter_iff'.
    intros x (Hx & Hn & He)%group_elem. simpl. rewrite Hless, valueEqual_equiv, He by done.
    apply equiv_true in He as [-> _]. done.
  - apply Forall_forall. intros x [Hg Hx]%list_elem_of_filter. rewrite Hless by auto.
    rewrite (wo_asym not_nan (vless kind) probe x), group_not_greater by auto. done.
  - apply Forall_forall. intros x [Hg Hx]%list_elem_of_filter. by rewrite Hless, Hg by auto.
Qed.

End groups.

Lemma group_insert si probe key : sec_ok si -> not_nan probe -> key ∉ group_keys si probe ->
  group_keys (si_insert si (SecEntry (se_s probe) (se_f probe) key)) probe
  = sl_set str_ltb key (group_keys si probe).
Proof.
  intros Hsi Hp Hk. set (self := SecEntry (se_s probe) (se_f probe) key).
  assert (Hself : not_nan self) by done. pose proof (si_insert_ok si self Hsi Hself) as Hsi'.
  pose proof (group_keys_sorted si probe Hsi Hp) as Hs.
  assert (Htrue : forall ks : list gostring, Forall (fun _ => True) ks) by (intros; by apply Forall_true).
  apply (sorted_ext (fun _ => True) str_ltb); try done.
  { by apply group_keys_sorted. }
  { apply (sl_set_sorted (fun _ => True)); [apply _|apply Htrue|done|done]. }
  intros k. rewrite (sl_set_elem (fun _ => True)) by (done || apply _ || apply Htrue). unfold group_keys.
  assert (Heq : equiv (vless (si_kind si)) self probe = true).
  { pose proof (equiv_refl not_nan (vless (si_kind si)) probe Hp) as H. unfold equiv, vless in *. by destruct (si_kind si). }
  rewrite !list_elem_of_fmap. setoid_rewrite group_elem; [|done..]. setoid_rewrite si_insert_elem; [|done..].
  split.
  - intros (x & -> & [->|[Hx Hne]] & Hn & He); [by left|]. right. split; [by eauto 6|].
    destruct (equiv str_ltb key (se_pk x)) eqn:Hq; [|done]. apply equiv_true in Hq as [H1 H2].
    pose proof (st_total _ _ H1 H2) as ->. destruct Hk. apply list_elem_of_fmap. exists x.
    split; [done|]. by apply group_elem.
  - intros [->|[(x & -> & Hx & Hn & He) Hq]].
    + exists self. eauto.
    + exists x. split; [done|]. split; [|done]. right. split; [done|]. unfold same_entry.
      rewrite (bool_decide_eq_false_2 (se_pk self = se_pk x)), andb_false_r; [done|].
      simpl. intros ->. by rewrite (equiv_refl (fun _ => True) str_ltb) in Hq.
Qed.

(** The membership test of [wouldSelfEvict]. *)
Lemma self_member si probe key : sec_ok si -> not_nan probe ->
  let L := zlen (filter (fun x => vless (si_kind si) x probe = true) (bt_scan (si_tree si))) in
  let ks := group_keys si probe in
  (L + Z.of_nat (below key ks) <? L + zlen ks) && bool_decide (se_pk (si_at si (L + Z.of_nat (below key ks))) = key)
  = bool_decide (key ∈ ks).
Proof.
  intros Hsi Hn L ks. pose proof (group_keys_sorted si probe Hsi Hn) as Hs. fold ks in Hs.
  apply eq_true_iff_eq. rewrite andb_true_iff, !bool_decide_eq_true, Z.ltb_lt.
  rewrite <- (below_lookup key ks Hs). split.
  - intros [Hlt Heq]. unfold ks at 1. rewrite <- (group_at si probe Hsi Hn); [by f_equal|].
    fold ks. unfold zlen in Hlt. lia.
  - intros Hlk. pose proof (lookup_lt_Some _ _ _ Hlk). split; [unfold zlen; lia|].
    apply (inj Some). unfold L. by rewrite (group_at si probe Hsi Hn).
Qed.

Lemma wouldSelfEvict_exact si val key probe :
  sec_ok si -> makeEntry si val [] = Ok probe -> not_nan probe -> 0 < si_max si ->
  let keys' := group_keys (si_insert si (SecEntry (se_s probe) (se_f probe) key)) probe in
  wouldSelfEvict si val key
  = Ok (bool_decide (key ∉ group_keys si probe
                     /\ key ∈ take (Z.to_nat (zlen keys' - si_max si)) keys')).
Proof.
  intros Hsi Hm Hn Hmax keys'. pose proof (makeEntry_pk _ _ _ _ Hm) as Hpk.
  pose proof (group_keys_sorted si probe Hsi Hn) as Hs.
  unfold wouldSelfEvict. rewrite (proj2 (Z.leb_gt _ _) Hmax), Hm. cbn [res_bind].
  rewrite group_lower, group_upper by done. set (ks := group_keys si probe) in *.
  set (L := filter (fun x => vless (si_kind si) x probe = true) (bt_scan (si_tree si))).
  replace (zlen L + zlen ks - zlen L + 1 - si_max si) with (zlen ks + 1 - si_max si) by lia.
  rewrite (makeEntry_any _ _ _ key _ Hm). cbn [res_bind].
  rewrite group_self by done. fold L ks.
  pose proof (self_member si probe key Hsi Hn) as Hmem. cbv zeta in Hmem. fold L ks in Hmem.
  rewrite Hmem. destruct (decide (key ∈ ks)) as [Hin|Hout].
  { rewrite (bool_decide_eq_true_2 (key ∈ ks)), bool_decide_eq_false_2 by (done || tauto). by destruct (_ <=? 0). }
  rewrite (bool_decide_eq_false_2 (key ∈ ks)) by done.
  assert (Hk' : keys' = sl_set str_ltb key ks) by (by apply group_insert).
  assert (Hlen : zlen keys' = zlen ks + 1).
  { rewrite Hk', sl_set_split by done. rewrite (antitone_split _ ks (str_antitone key ks Hs)) at 3.
    rewrite !zlen_app, zlen_cons. lia. }
  rewrite Hlen. destruct (Z.leb_spec (zlen ks + 1 - si_max si) 0) as [Hle|Hgt].
  { rewrite bool_decide_eq_false_2; [done|]. intros [_ H].
    replace (Z.to_nat _) with 0%nat in H by lia. by apply elem_of_nil in H. }
  set (j := Z.to_nat (zlen ks - si_max si)).
  assert (Hj : (j < length ks)%nat) by (unfold j, zlen in *; lia).
  replace (zlen L + (zlen ks + 1 - si_max si) - 1) with (zlen L + Z.of_nat j) by (unfold j; lia).
  pose proof (group_at si probe Hsi Hn j Hj) as Hat. symmetry in Hat.
  f_equal. rewrite (below_le key ks j) by done. apply bool_decide_ext.
  rewrite Hk', sl_set_take by done. unfold j. split; [|intros [_ ?]; lia]. intros. split; [done|lia].
Qed.
(** The guard of a capped index is exact: for a key that is not yet in the
    value's group, [wouldSelfEvict] answers true precisely when, once the
    entry is inserted, the key is among the lowest entries that bring the
    group back to its cap; a key already in the group is never refused. *)
Theorem wouldSelfEvict_spec si val key probe :
  sec_ok si -> makeEntry si val [] = Ok probe -> not_nan probe -> 0 < si_max si ->
  let keys' := group_keys (si_insert si (SecEntry (se_s probe) (se_f probe) key)) probe in
  wouldSelfEvict si val key
  = Ok (bool_decide (key ∉ group_keys si probe
                     /\ key ∈ take (Z.to_nat (zlen keys' - si_max si)) keys')).
Proof. apply wouldSelfEvict_exact. Qed.
End laws.

(** ** A concrete index *)

Definition sample_def (kind : ValueKind) (max : Z) : IndexDef := mkIndexDef (bs "ix") kind None max.

Definition add_sample (si : secIndex) (vk : any * gostring) : secIndex :=
  match makeEntry si vk.1 vk.2 with Ok e => si_insert si e | Err _ => si end.

Definition sample_number : secIndex :=
  fold_left add_sample
    [(AInt 200, bs "b"); (AInt 404, bs "c"); (AFloat64 (f64_of_Z 200), bs "a"); (AInt 200, bs "d"); (AInt 500, bs "e")]
    (newSecIndex (sample_def KindNumber 2)).

Definition sample_string : secIndex :=
  fold_left add_sample
    [(AString (bs "ab"), bs "1"); (AString (bs "ab"), bs "2"); (AString (bs "ac"), bs "3"); (AString (bs "b"), bs "4");
     (AString (bs "ab"), bs "5")]
    (newSecIndex (sample_def KindString 0)).

Lemma add_sample_ok si vk : sec_ok si ->
  match makeEntry si vk.1 vk.2 with Ok e => not_nan e | Err _ => True end -> sec_ok (add_sample si vk).
Proof. intros Hsi Hm. unfold add_sample. destruct (makeEntry si vk.1 vk.2); [by apply si_insert_ok|done]. Qed.

Lemma sample_number_ok : sec_ok sample_number.
Proof. unfold sample_number. cbn [fold_left]. repeat (apply add_sample_ok; [|by vm_compute]). apply newSecIndex_ok. Qed.

Lemma sample_string_ok : sec_ok sample_string.
Proof. unfold sample_string. cbn [fold_left]. repeat (apply add_sample_ok; [|by vm_compute]). apply newSecIndex_ok. Qed.

Lemma exact_spec_witness : exact sample_number (AInt32 200) (-2) = Ok [bs "d"; bs "b"].
Proof.
  etrans; [apply (exact_spec sample_number (AInt32 200) (-2) (SecEntry [] (f64_of_Z 200) []));
           [apply sample_number_ok|by vm_compute..]|by vm_compute].
Defined.

Lemma exists_spec_witness : exists_ sample_number (AInt 404) = Ok true.
Proof.
  etrans; [apply (exists_spec sample_number (AInt 404) (SecEntry [] (f64_of_Z 404) []));
           [apply sample_number_ok|by vm_compute..]|by vm_compute].
Defined.

Lemma rangeQuery_spec_witness : rangeQuery sample_number (AInt 201) (AInt 500) = Ok [bs "c"; bs "e"].
Proof.
  etrans; [apply (rangeQuery_spec sample_number (AInt 201) (AInt 500)
                    (SecEntry [] (f64_of_Z 201) []) (SecEntry [] (f64_of_Z 500) []));
           [apply sample_number_ok|by vm_compute..]|by vm_compute].
Defined.

Lemma prefix_spec_witness : prefix sample_string (bs "a") (-2) = Ok [bs "5"; bs "2"; bs "3"].
Proof.
  etrans; [apply (prefix_spec sample_string (bs "a") (-2)); [apply sample_string_ok|by vm_compute..]|by vm_compute].
Defined.

Lemma wouldSelfEvict_spec_witness : wouldSelfEvict sample_number (AInt 200) (bs "aa") = Ok true.
Proof.
  etrans; [apply (wouldSelfEvict_spec sample_number (AInt 200) (bs "aa") (SecEntry [] (f64_of_Z 200) []));
           [apply sample_number_ok|by vm_compute..]|by vm_compute].
Defined.
