(* ===== verification/Hint.v ===== *)
(** * The index hint file (indexhint.go)

    The hint is a snapshot of the primary index with the watermark of the log
    it covers: a first line with the version and the watermark, then one line
    per key in ascending order.  This file models its text and the reader, and
    proves that reading a written hint gives the index back. *)

From S2P Require Import Prelude Floats Types Json Record BTree PkIndex.
#[local] Open Scope Z_scope.

Definition indexHintFormatVersion : Z := 2.

Record indexHintMeta := mkHintMeta { hm_Version : Z; hm_Covers : Z }.

Record indexHintLine := mkHintLine {
  hl_Key : gostring;
  hl_Off : Z;
  hl_N : Z;
  hl_IX : IndexValues;
  hl_Exp : Z
}.

(** ** Writing *)

Definition hint_meta_json (m : indexHintMeta) : json :=
  JObj [(bs "v", JNum (format_int (hm_Version m))); (bs "covers", JNum (format_int (hm_Covers m)))].

Definition hint_line_fields (h : indexHintLine) (ixf : list (gostring * json)) : list (gostring * json) :=
  [(bs "k", JStr (hl_Key h))] ++ [(bs "o", JNum (format_int (hl_Off h)))] ++ [(bs "n", JNum (format_int (hl_N h)))]
  ++ opt_field (nonempty ixf) (bs "ix") (JObj ixf)
  ++ opt_field (negb (hl_Exp h =? 0)) (bs "e") (JNum (format_int (hl_Exp h))).

(** [json.Marshal] of one line; [None] when an index value is refused. *)
Definition hint_line_text (h : indexHintLine) : option gostring :=
  match ix_json (hl_IX h) with
  | Some ixf => Some (print (JObj (hint_line_fields h ixf)))
  | None => None
  end.

Definition to_hint_line (e : pkEntry) : indexHintLine :=
  mkHintLine (e_key e) (e_off e) (e_n e) (e_ix e) (e_exp e).

(** The entries of the scan, each followed by a newline ([encodeJSONLine]). *)
Fixpoint hint_body (es : list pkEntry) : option gostring :=
  match es with
  | [] => Some []
  | e :: es' =>
      match hint_line_text (to_hint_line e), hint_body es' with
      | Some l, Some r => Some (l ++ Byte.x0a :: r)
      | _, _ => None
      end
  end.

(** The text [writeIndexHint] puts in place. *)
Definition hint_text (es : list pkEntry) (covers : Z) : option gostring :=
  match hint_body es with
  | Some b => Some (print (hint_meta_json (mkHintMeta indexHintFormatVersion covers)) ++ Byte.x0a :: b)
  | None => None
  end.

(** ** Reading *)

Definition set_meta_field (m : indexHintMeta) (kj : gostring * json) : option indexHintMeta :=
  let '(k, j) := kj in
  let f := fold_name k in
  if decide (f = bs "v") then
    (fun n => mkHintMeta n (hm_Covers m)) <$> dec_int MinInt64 MaxInt64 (hm_Version m) j
  else if decide (f = bs "covers") then
    (fun n => mkHintMeta (hm_Version m) n) <$> dec_int MinInt64 MaxInt64 (hm_Covers m) j
  else Some m.

Definition set_line_field (h : indexHintLine) (kj : gostring * json) : option indexHintLine :=
  let '(k, j) := kj in
  let f := fold_name k in
  if decide (f = bs "k") then
    (fun x => mkHintLine x (hl_Off h) (hl_N h) (hl_IX h) (hl_Exp h)) <$> dec_string (hl_Key h) j
  else if decide (f = bs "o") then
    (fun x => mkHintLine (hl_Key h) x (hl_N h) (hl_IX h) (hl_Exp h)) <$> dec_int MinInt64 MaxInt64 (hl_Off h) j
  else if decide (f = bs "n") then
    (fun x => mkHintLine (hl_Key h) (hl_Off h) x (hl_IX h) (hl_Exp h)) <$> dec_int (- 2 ^ 31) (2 ^ 31 - 1) (hl_N h) j
  else if decide (f = bs "ix") then
    (fun x => mkHintLine (hl_Key h) (hl_Off h) (hl_N h) x (hl_Exp h)) <$> dec_ix (hl_IX h) j
  else if decide (f = bs "e") then
    (fun x => mkHintLine (hl_Key h) (hl_Off h) (hl_N h) (hl_IX h) x) <$> dec_int MinInt64 MaxInt64 (hl_Exp h) j
  else Some h.

(** [json.Unmarshal] into a struct with these fields. *)
Definition unmarshal_struct {R} (f : R -> gostring * json -> option R) (zero : R) (line : gostring) : option R :=
  match json_parse line with
  | Some (JObj l) => set_fields f l zero
  | Some JNull => Some zero
  | _ => None
  end.

(** The scanner's buffer: a longer line is an error. *)
Definition maxHintLine : Z := 16 * 2 ^ 20.

(** [bufio.ScanLines] drops a final carriage return. *)
Definition drop_cr (l : gostring) : gostring :=
  match reverse l with
  | b :: r => if decide (b = Byte.x0d) then reverse r else l
  | [] => []
  end.

(** The lines a [bufio.Scanner] yields; [None] when it stops with an error. *)
Fixpoint scan_lines (fuel : nat) (s : gostring) : option (list gostring) :=
  match fuel with
  | O => None
  | S fuel' =>
      match s with
      | [] => Some []
      | _ =>
          let '(l, r) := match cut_line s with Some lr => lr | None => (s, []) end in
          if maxHintLine <=? zlen l then None
          else match scan_lines fuel' r with
               | Some ls => Some (drop_cr l :: ls)
               | None => None
               end
      end
  end.

Definition loadIndexHint (file : option gostring) : option (list indexHintLine * Z) :=
  match file with
  | None => None
  | Some text =>
      match scan_lines (S (length text)) text with
      | None | Some [] => None
      | Some (first :: rest) =>
          match unmarshal_struct set_meta_field (mkHintMeta 0 0) first with
          | None => None
          | Some meta =>
              if hm_Version meta =? indexHintFormatVersion then
                match mapM (unmarshal_struct set_line_field (mkHintLine [] 0 0 ∅ 0)) rest with
                | Some entries => Some (entries, hm_Covers meta)
                | None => None
                end
              else None
          end
      end
  end.

(** ** Reading what was written *)

#[local] Arguments dec_int : simpl never.

(** What a hint line holds after a trip through JSON. *)
Definition norm_hint (e : pkEntry) : indexHintLine :=
  mkHintLine (e_key e) (e_off e) (e_n e) (norm_ix (e_ix e)) (e_exp e).

(** The entry is faithful in JSON and its line fits the scanner's buffer. *)
Definition hint_entry_ok (e : pkEntry) : Prop :=
  utf8_valid (e_key e) = true /\ ix_ok (e_ix e) /\ in64 (e_off e) /\ in32 (e_n e) /\ in64 (e_exp e)
  /\ match hint_line_text (to_hint_line e) with Some l => zlen l < maxHintLine | None => False end.

#[global] Instance hint_entry_ok_dec e : Decision (hint_entry_ok e).
Proof. unfold hint_entry_ok. destruct (hint_line_text _); apply _. Defined.

Lemma set_line_int (lo hi cur n : Z) name (h h' : indexHintLine) :
  (forall j, set_line_field h (name, j) = (fun _ => h') <$> dec_int lo hi cur j \/
             exists g : Z -> indexHintLine, set_line_field h (name, j) = g <$> dec_int lo hi cur j /\ g n = h') ->
  lo <= n <= hi -> set_fields set_line_field [(name, JNum (format_int n))] h = Some h'.
Proof.
  intros H Hn. cbn [set_fields]. destruct (H (JNum (format_int n))) as [->|(g & -> & Hg)];
    rewrite dec_int_format by done; cbn; by rewrite ?Hg.
Qed.

Lemma set_line_fields h fs :
  set_fields set_ix_field fs ∅ = Some (norm_ix (hl_IX h)) -> (nonempty fs = false -> hl_IX h = ∅) ->
  in64 (hl_Off h) -> in32 (hl_N h) -> in64 (hl_Exp h) ->
  set_fields set_line_field (hint_line_fields h fs) (mkHintLine [] 0 0 ∅ 0)
  = Some (mkHintLine (hl_Key h) (hl_Off h) (hl_N h) (norm_ix (hl_IX h)) (hl_Exp h)).
Proof.
  intros Hfs Hn Ho Hnn He. destruct h as [k o n ix e]. cbn [hl_Key hl_Off hl_N hl_IX hl_Exp] in *.
  unfold hint_line_fields. cbn [hl_Key hl_Off hl_N hl_IX hl_Exp].
  rewrite set_fields_app. change (set_fields _ [(bs "k", JStr k)] _) with (Some (mkHintLine k 0 0 ∅ 0)). cbv iota.
  rewrite set_fields_app, (set_line_int MinInt64 MaxInt64 0 o _ _ (mkHintLine k o 0 ∅ 0)); [|by right; eauto|done].
  cbv iota. rewrite set_fields_app, (set_line_int (- 2 ^ 31) (2 ^ 31 - 1) 0 n _ _ (mkHintLine k o n ∅ 0));
    [|by right; eauto|done].
  cbv iota. rewrite set_fields_app.
  assert (set_fields set_line_field (opt_field (nonempty fs) (bs "ix") (JObj fs)) (mkHintLine k o n ∅ 0)
          = Some (mkHintLine k o n (norm_ix ix) 0)) as ->.
  { destruct (nonempty fs) eqn:E; [|by rewrite Hn].
    cbn [opt_field set_fields]. unfold set_line_field. change (fold_name (bs "ix")) with (bs "ix").
    rewrite !decide_False, decide_True by done. cbn [dec_ix hl_IX]. by rewrite Hfs. }
  cbv iota. destruct (Z.eqb_spec e 0) as [->|]; [done|]. cbn [negb opt_field].
  apply (set_line_int MinInt64 MaxInt64 0 e); [by right; eauto|done].
Qed.

Lemma hint_line_spec e line : hint_entry_ok e -> hint_line_text (to_hint_line e) = Some line ->
  unmarshal_struct set_line_field (mkHintLine [] 0 0 ∅ 0) line = Some (norm_hint e)
  /\ no_ctl line = true /\ zlen line < maxHintLine.
Proof.
  intros (Hk & Hix & Ho & Hn & He & Hl) Hline. rewrite Hline in Hl.
  unfold hint_line_text in Hline. destruct (ix_json_spec _ Hix) as (fs & H1 & H2 & H3 & H4 & H5).
  cbn [to_hint_line hl_IX] in Hline. rewrite H1 in Hline.
  set (j := JObj (hint_line_fields (to_hint_line e) fs)) in *.
  assert (Hok : json_ok j = true).
  { unfold j. cbn [json_ok]. unfold hint_line_fields. rewrite !forallb_app.
    rewrite !json_ok_opt by (done || (intros _; first [apply is_json_number_int | done])).
    cbn [forallb fst snd json_ok to_hint_line hl_Key]. by rewrite Hk, !is_json_number_int. }
  assert (Hd : (json_depth j <= maxNestingDepth)%N).
  { unfold j. rewrite json_depth_obj. fold (fields_depth (hint_line_fields (to_hint_line e) fs)).
    unfold hint_line_fields. rewrite !fields_depth_app.
    assert (Hx : (fields_depth (opt_field (nonempty fs) (bs "ix") (JObj fs)) <= 1001)%N).
    { etransitivity; [apply fields_depth_opt|]. rewrite json_depth_obj. fold (fields_depth fs). unfold fields_depth. lia. }
    pose proof (fields_depth_opt (negb (hl_Exp (to_hint_line e) =? 0)) (bs "e")
      (JNum (format_int (hl_Exp (to_hint_line e))))) as Hy. cbn [json_depth] in Hy. unfold maxNestingDepth.
    change (fields_depth [(bs "k", JStr (hl_Key (to_hint_line e)))]) with 0%N.
    change (fields_depth [(bs "o", JNum (format_int (hl_Off (to_hint_line e))))]) with 0%N.
    change (fields_depth [(bs "n", JNum (format_int (hl_N (to_hint_line e))))]) with 0%N. lia. }
  apply (inj Some) in Hline. subst line. split; [|split; [by apply print_no_ctl|done]].
  unfold unmarshal_struct. rewrite json_parse_print by done. by apply set_line_fields.
Qed.

Lemma no_ctl_nl l : no_ctl l = true -> Byte.x0a ∉ l.
Proof.
  intros H Hin. unfold no_ctl in H. rewrite forallb_forall in H.
  by specialize (H _ (proj1 (list_elem_of_In _ _) Hin)).
Qed.

Lemma drop_cr_text l : no_ctl l = true -> drop_cr l = l.
Proof.
  intros H. unfold drop_cr. destruct (reverse l) as [|b r] eqn:Hr.
  { apply (f_equal reverse) in Hr. by rewrite reverse_involutive in Hr. }
  rewrite decide_False; [done|]. intros ->. unfold no_ctl in H. rewrite forallb_forall in H.
  assert (Byte.x0d ∈ l) as Hin by (apply elem_of_reverse; rewrite Hr; by left).
  by specialize (H _ (proj1 (list_elem_of_In _ _) Hin)).
Qed.

Lemma scan_lines_cons fuel l r : no_ctl l = true -> zlen l < maxHintLine ->
  scan_lines (S fuel) (l ++ Byte.x0a :: r) = (l ::.) <$> scan_lines fuel r.
Proof.
  intros Hl Hlen. cbn [scan_lines]. destruct (l ++ Byte.x0a :: r) as [|b s] eqn:Hs.
  { by destruct l. }
  rewrite <- Hs, cut_line_app by (by apply no_ctl_nl). rewrite (proj2 (Z.leb_gt _ _) Hlen).
  rewrite drop_cr_text by done. by destruct (scan_lines fuel r).
Qed.

Lemma hint_body_spec es : Forall hint_entry_ok es ->
  exists text, hint_body es = Some text
    /\ forall fuel, (length text < fuel)%nat ->
       exists ls, scan_lines fuel text = Some ls
         /\ mapM (unmarshal_struct set_line_field (mkHintLine [] 0 0 ∅ 0)) ls = Some (norm_hint <$> es).
Proof.
  induction 1 as [|e es He HF (text & Hb & IH)].
  { exists []. split; [done|]. intros [|fuel] Hf; [lia|]. by exists []. }
  cbn [hint_body]. rewrite Hb. destruct (hint_line_text (to_hint_line e)) as [l|] eqn:Hl.
  - destruct (hint_line_spec e l He Hl) as (Hu & Hc & Hlen). eexists. split; [done|].
    intros [|fuel] Hf; [lia|]. rewrite length_app in Hf. simpl in Hf.
    destruct (IH fuel) as (ls & Hs & Hm); [lia|]. rewrite scan_lines_cons, Hs by done. eexists. split; [done|].
    simpl. rewrite Hu. simpl. by rewrite Hm.
  - destruct He as (_ & _ & _ & _ & _ & He). by rewrite Hl in He.
Qed.

Lemma hint_meta_spec covers : in64 covers ->
  let line := print (hint_meta_json (mkHintMeta indexHintFormatVersion covers)) in
  unmarshal_struct set_meta_field (mkHintMeta 0 0) line = Some (mkHintMeta indexHintFormatVersion covers)
  /\ no_ctl line = true.
Proof.
  intros Hc line. set (j := hint_meta_json (mkHintMeta indexHintFormatVersion covers)) in *.
  assert (Hok : json_ok j = true) by (unfold j; cbn; by rewrite !is_json_number_int).
  split; [|by apply print_no_ctl]. unfold unmarshal_struct. unfold line.
  rewrite json_parse_print by done. unfold j, hint_meta_json. cbn [set_fields].
  unfold set_meta_field at 1. change (fold_name (bs "v")) with (bs "v"). rewrite decide_True by done.
  cbn [hm_Version hm_Covers]. rewrite dec_int_format by (unfold indexHintFormatVersion, MinInt64, MaxInt64; lia).
  cbn. unfold set_meta_field. change (fold_name (bs "covers")) with (bs "covers").
  rewrite decide_False, decide_True by done. cbn. by rewrite dec_int_format.
Qed.

(** The digits of a number that fits in 64 bits are few. *)
Lemma dec_digits_length fuel n acc : (length (dec_digits fuel n acc) <= fuel + length acc)%nat.
Proof.
  revert n acc. induction fuel as [|fuel IH]; intros n acc; cbn [dec_digits]; [lia|].
  case_match; simpl; [lia|]. etransitivity; [apply IH|]. simpl. lia.
Qed.

Lemma format_int_length n : in64 n -> zlen (format_int n) <= 66.
Proof.
  unfold in64, MinInt64, MaxInt64. intros Hn. unfold format_int, zlen.
  assert (Hnat : forall m, 0 <= m <= 2 ^ 63 -> Z.of_nat (length (nat_dec m)) <= 64).
  { intros m Hm. unfold nat_dec. pose proof (dec_digits_length (S (Z.to_nat (Z.log2 m))) m []) as H.
    pose proof (Z.log2_nonneg m). assert (Z.log2 m <= 63).
    { etransitivity; [apply (Z.log2_le_mono m (2 ^ 63)); lia|]. by rewrite Z.log2_pow2. }
    cbn [length] in H. lia. }
  destruct (Z.ltb_spec n 0).
  - cbn [length]. specialize (Hnat (- n)). lia.
  - specialize (Hnat n). lia.
Qed.

Lemma hint_meta_short covers : in64 covers ->
  zlen (print (hint_meta_json (mkHintMeta indexHintFormatVersion covers))) < maxHintLine.
Proof.
  intros Hc. pose proof (format_int_length covers Hc).
  unfold hint_meta_json. cbn [print List.map join fst snd hm_Version hm_Covers].
  rewrite !zlen_app. cbv [indexHintFormatVersion]. change (zlen (format_int 2)) with 1.
  unfold maxHintLine. change (16 * 2 ^ 20) with 16777216.
  change (zlen (quote (bs "v"))) with 3. change (zlen (quote (bs "covers"))) with 8.
  change (zlen (bs "{")) with 1. change (zlen (bs "}")) with 1. change (zlen (bs ":")) with 1.
  change (zlen comma) with 1. lia.
Qed.

(** Reading a written hint. *)
Lemma hint_read_back es covers : Forall hint_entry_ok es -> in64 covers ->
  exists text, hint_text es covers = Some text
    /\ loadIndexHint (Some text) = Some (norm_hint <$> es, covers).
Proof.
  intros Hes Hc. destruct (hint_body_spec es Hes) as (body & Hb & Hscan).
  destruct (hint_meta_spec covers Hc) as [Hm Hn].
  unfold hint_text. rewrite Hb. eexists. split; [done|]. unfold loadIndexHint.
  rewrite scan_lines_cons; [|done|by apply hint_meta_short].
  destruct (Hscan (length (print (hint_meta_json (mkHintMeta indexHintFormatVersion covers)) ++ Byte.x0a :: body)))
    as (ls & Hs & Hmap); [rewrite length_app; simpl; lia|].
  rewrite Hs. cbn [fmap option_fmap option_map]. rewrite Hm. cbn [hm_Version hm_Covers].
  rewrite Z.eqb_refl. by rewrite Hmap.
Qed.

(** The hint is a faithful snapshot: for entries that JSON can carry, the
    text is always produced, and the reader accepts it and returns the same
    keys, offsets, lengths and expiries in the same order, the index values as
    JSON gives them back, and the same watermark. *)
Theorem hint_roundtrip es covers : Forall hint_entry_ok es -> in64 covers ->
  exists text, hint_text es covers = Some text
    /\ loadIndexHint (Some text) = Some (norm_hint <$> es, covers).
Proof. apply hint_read_back. Qed.

Definition sample_entries : list pkEntry :=
  [PkEntry (bs "a") 0 31 ∅ 0;
   PkEntry (bs "b") 31 64 {[ bs "status" := AInt 200; bs "trace" := AString (bs "x'y") ]} 1700000000000].

Lemma hint_roundtrip_witness :
  exists text, hint_text sample_entries 95 = Some text
    /\ loadIndexHint (Some text) = Some (norm_hint <$> sample_entries, 95).
Proof. apply (hint_roundtrip sample_entries 95); decide_now. Defined.
