(* ===== verification/Meta.v ===== *)
(** * The schema file (meta.go) and schema adoption (db.go, reindex.go)

    meta.json records the declared indexes.  Opening a store compares them
    with the declaration: an index that is new, or whose kind changed, on a
    store that has records is prospective until it is back-filled; an index
    that is no longer declared is kept as dropped until Reindex purges it. *)

From S2P Require Import Prelude Floats Types Json Record SecIndex Hint.
#[local] Open Scope Z_scope.

Definition metaFormatVersion : Z := 1.

Record metaIndex := mkMetaIndex {
  mi_Name : gostring;
  mi_Kind : gostring;
  mi_Complete : bool;
  mi_Dropped : bool
}.

Record metaData := mkMetaData { md_Version : Z; md_Indexes : list metaIndex }.

#[global] Instance metaIndex_eq_dec : EqDecision metaIndex.
Proof. solve_decision. Defined.

Definition parseKind (s : gostring) : option ValueKind :=
  if decide (s = bs "number") then Some KindNumber
  else if decide (s = bs "string") then Some KindString
  else None.

(** ** Text: [json.Encoder] with an indent of two spaces *)

Definition meta_index_json (m : metaIndex) : json :=
  JObj ([(bs "name", JStr (mi_Name m)); (bs "kind", JStr (mi_Kind m)); (bs "complete", JBool (mi_Complete m))]
        ++ opt_field (mi_Dropped m) (bs "dropped") (JBool true)).

Definition meta_json (m : metaData) : json :=
  JObj [(bs "version", JNum (format_int (md_Version m)));
        (bs "indexes", JArr (meta_index_json <$> md_Indexes m))].

Definition indent (n : nat) : gostring := Byte.x0a :: replicate (2 * n) Byte.x20.

Fixpoint print_indent (n : nat) (j : json) : gostring :=
  match j with
  | JArr [] => bs "[]"
  | JObj [] => bs "{}"
  | JArr l => bs "[" ++ join (List.map (fun x => indent (S n) ++ print_indent (S n) x) l) ++ indent n ++ bs "]"
  | JObj l => bs "{" ++ join (List.map (fun kv => indent (S n) ++ quote (fst kv) ++ bs ": " ++ print_indent (S n) (snd kv)) l)
              ++ indent n ++ bs "}"
  | j => print j
  end.

Definition meta_text (idx : list metaIndex) : gostring :=
  print_indent 0 (meta_json (mkMetaData metaFormatVersion idx)) ++ [Byte.x0a].

(** ** Reading *)

Definition set_mi_field (m : metaIndex) (kj : gostring * json) : option metaIndex :=
  let '(k, j) := kj in
  let f := fold_name k in
  if decide (f = bs "name") then
    (fun x => mkMetaIndex x (mi_Kind m) (mi_Complete m) (mi_Dropped m)) <$> dec_string (mi_Name m) j
  else if decide (f = bs "kind") then
    (fun x => mkMetaIndex (mi_Name m) x (mi_Complete m) (mi_Dropped m)) <$> dec_string (mi_Kind m) j
  else if decide (f = bs "complete") then
    (fun x => mkMetaIndex (mi_Name m) (mi_Kind m) x (mi_Dropped m)) <$> dec_bool (mi_Complete m) j
  else if decide (f = bs "dropped") then
    (fun x => mkMetaIndex (mi_Name m) (mi_Kind m) (mi_Complete m) x) <$> dec_bool (mi_Dropped m) j
  else Some m.

Definition dec_mi (j : json) : option metaIndex :=
  let zero := mkMetaIndex [] [] false false in
  match j with
  | JObj l => set_fields set_mi_field l zero
  | JNull => Some zero
  | _ => None
  end.

Definition set_md_field (m : metaData) (kj : gostring * json) : option metaData :=
  let '(k, j) := kj in
  let f := fold_name k in
  if decide (f = bs "version") then
    (fun x => mkMetaData x (md_Indexes m)) <$> dec_int MinInt64 MaxInt64 (md_Version m) j
  else if decide (f = bs "indexes") then
    match j with
    | JArr l => mkMetaData (md_Version m) <$> mapM dec_mi l
    | JNull => Some (mkMetaData (md_Version m) [])
    | _ => None
    end
  else Some m.

(** [loadMeta], as its callers use it: an absent or unreadable file is an
    empty schema. *)
Definition loadMeta (file : option gostring) : metaData :=
  match file with
  | None => mkMetaData 0 []
  | Some text => default (mkMetaData 0 []) (unmarshal_struct set_md_field (mkMetaData 0 []) text)
  end.

(** ** Adoption *)

(** [priorByName]: the last entry of a name. *)
Definition prior_by_name (prior : list metaIndex) : gmap gostring metaIndex :=
  fold_left (fun m mi => <[mi_Name mi := mi]> m) prior ∅.

(** Is a declared index known to cover every record? *)
Definition index_complete (prior : gmap gostring metaIndex) (hadData : bool) (def : IndexDef) : bool :=
  match prior !! d_Name def with
  | Some mi => if bool_decide (mi_Kind mi = kind_String (d_Kind def)) && negb (mi_Dropped mi)
               then mi_Complete mi else negb hadData
  | None => negb hadData
  end.

Definition adopt_declared (prior : gmap gostring metaIndex) (hadData : bool) (def : IndexDef) : metaIndex :=
  mkMetaIndex (d_Name def) (kind_String (d_Kind def)) (index_complete prior hadData def) false.

Definition drop_meta (mi : metaIndex) : metaIndex :=
  mkMetaIndex (mi_Name mi) (mi_Kind mi) (mi_Complete mi) true.

(** The new schema, the prospective indexes and the soft-dropped ones. *)
Record adoption := mkAdoption {
  ad_meta : list metaIndex;
  ad_prospective : gset gostring;
  ad_dropped : gmap gostring ValueKind
}.

Definition adopt (prior : list metaIndex) (hadData : bool) (defs : list IndexDef) : adoption :=
  let by_name := prior_by_name prior in
  let declared : gset gostring := list_to_set (d_Name <$> defs) in
  let gone := filter (fun mi => mi_Name mi ∉ declared) prior in
  mkAdoption
    ((adopt_declared by_name hadData <$> defs) ++ (drop_meta <$> gone))
    (list_to_set (d_Name <$> filter (fun def => index_complete by_name hadData def = false) defs))
    (fold_left (fun m mi => match parseKind (mi_Kind mi) with
                            | Some k => <[mi_Name mi := k]> m
                            | None => m
                            end) gone ∅).

(** [markReindexed]: the loop over the declarations, from the prospective set
    to the new schema and the new set.  Indexes with an [Extract] function are
    now complete; the others keep their status. *)
Fixpoint mark_reindexed (defs : list IndexDef) (prospective : gset gostring) : list metaIndex * gset gostring :=
  match defs with
  | [] => ([], prospective)
  | def :: defs' =>
      let '(complete, p) :=
        match d_Extract def with
        | Some _ => (true, prospective ∖ {[d_Name def]})
        | None => (bool_decide (d_Name def ∉ prospective), prospective)
        end in
      let '(out, p') := mark_reindexed defs' p in
      (mkMetaIndex (d_Name def) (kind_String (d_Kind def)) complete false :: out, p')
  end.

Example meta_text_example :
  loadMeta (Some (meta_text [mkMetaIndex (bs "trace") (bs "string") true false;
                             mkMetaIndex (bs "old") (bs "number") false true]))
  = mkMetaData 1 [mkMetaIndex (bs "trace") (bs "string") true false;
                  mkMetaIndex (bs "old") (bs "number") false true].
Proof. vm_compute. reflexivity. Qed.
