(* ===== verification/Store.v ===== *)
(** * The store's state and its write path
    (db.go, mainlog.go, blob.go and the DB part of secindex.go)

    [DB] holds what a process has in memory and the files behind it.  Every
    operation is a function in the error and state monad of Types; a Go method
    that changes several files and indexes is the same sequence of steps here,
    and what was changed before an error stays changed.

    What the program cannot control is an oracle indexed by a step counter
    that every consultation advances: the clock, the calls into the operating
    system that may fail, and the order in which Go iterates over a map. *)

From S2P Require Import Prelude Floats Types Record BTree PkIndex SecIndex.
#[local] Open Scope Z_scope.

(** ** The environment *)

Class Env := {
  env_now : nat -> Z;                     (* time.Now().UnixMilli() *)
  env_write : nat -> option nat;          (* a write that fails after that many bytes *)
  env_sync : nat -> bool;                 (* an fsync that fails *)
  env_fs : nat -> bool;                   (* another file-system call that fails *)
  env_range : nat -> IndexValues -> list (gostring * any)   (* map iteration order *)
}.

(** A range over a map visits every entry once. *)
Class EnvLaws (E : Env) : Prop := {
  range_perm n ix : env_range n ix ≡ₚ map_to_list ix
}.

(** ** Files *)

Record Disk := mkDisk {
  d_main : option gostring;               (* main.jsonl *)
  d_hint : option gostring;               (* main.jsonl.hint *)
  d_meta : option gostring;               (* meta.json *)
  d_blobs : gmap Z gostring               (* blobs.dat, blobs.<gen>.dat *)
}.

Definition main_bytes (d : Disk) : gostring := default [] (d_main d).
Definition blob_bytes (d : Disk) (gen : Z) : gostring := default [] (d_blobs d !! gen).

Definition set_d_main (f : option gostring) (d : Disk) : Disk := mkDisk f (d_hint d) (d_meta d) (d_blobs d).
Definition set_d_hint (f : option gostring) (d : Disk) : Disk := mkDisk (d_main d) f (d_meta d) (d_blobs d).
Definition set_d_meta (f : option gostring) (d : Disk) : Disk := mkDisk (d_main d) (d_hint d) f (d_blobs d).
Definition set_d_blobs (b : gmap Z gostring) (d : Disk) : Disk := mkDisk (d_main d) (d_hint d) (d_meta d) b.

(** ** State *)

Record Options := mkOptions {
  o_BlobThreshold : Z;
  o_SyncEveryWrite : bool;
  o_HintEveryN : Z;
  o_Indexes : list IndexDef
}.

Record reapReq := ReapReq { rq_key : gostring; rq_off : Z }.

Section store.
Context {BT : BTreeG}.

(** [main] and [blobs] name the handles the snapshot was taken with. *)
Record hintSnapshot := mkHintSnapshot {
  sn_pk : pkIndex;
  sn_covers : Z;
  sn_gen : Z;
  sn_main : Z;
  sn_blobs : option Z
}.

Record DB := mkDB {
  db_opts : Options;
  db_disk : Disk;
  db_size : Z;                            (* main.size *)
  db_epoch : Z;                           (* which opening of main.jsonl the handles belong to *)
  db_blobs : gmap Z Z;                    (* open blob stores: generation -> size *)
  db_curGen : Z;
  db_pk : pkIndex;
  db_sec : gmap gostring secIndex;
  db_writes : Z;
  db_closed : bool;
  db_prospective : gset gostring;
  db_dropped : gmap gostring ValueKind;
  db_reap : list reapReq;                 (* reapCh *)
  db_hintGen : Z;
  db_inflight : option hintSnapshot;      (* hintBusy and the writer it guards *)
  db_tick : nat                           (* oracle steps so far *)
}.

Definition set_disk (f : Disk -> Disk) (s : DB) : DB :=
  mkDB (db_opts s) (f (db_disk s)) (db_size s) (db_epoch s) (db_blobs s) (db_curGen s) (db_pk s) (db_sec s)
    (db_writes s) (db_closed s) (db_prospective s) (db_dropped s) (db_reap s) (db_hintGen s) (db_inflight s) (db_tick s).
Definition set_size (n : Z) (s : DB) : DB :=
  mkDB (db_opts s) (db_disk s) n (db_epoch s) (db_blobs s) (db_curGen s) (db_pk s) (db_sec s)
    (db_writes s) (db_closed s) (db_prospective s) (db_dropped s) (db_reap s) (db_hintGen s) (db_inflight s) (db_tick s).
Definition set_epoch (n : Z) (s : DB) : DB :=
  mkDB (db_opts s) (db_disk s) (db_size s) n (db_blobs s) (db_curGen s) (db_pk s) (db_sec s)
    (db_writes s) (db_closed s) (db_prospective s) (db_dropped s) (db_reap s) (db_hintGen s) (db_inflight s) (db_tick s).
Definition set_blobs (b : gmap Z Z) (s : DB) : DB :=
  mkDB (db_opts s) (db_disk s) (db_size s) (db_epoch s) b (db_curGen s) (db_pk s) (db_sec s)
    (db_writes s) (db_closed s) (db_prospective s) (db_dropped s) (db_reap s) (db_hintGen s) (db_inflight s) (db_tick s).
Definition set_curGen (g : Z) (s : DB) : DB :=
  mkDB (db_opts s) (db_disk s) (db_size s) (db_epoch s) (db_blobs s) g (db_pk s) (db_sec s)
    (db_writes s) (db_closed s) (db_prospective s) (db_dropped s) (db_reap s) (db_hintGen s) (db_inflight s) (db_tick s).
Definition set_pk (t : pkIndex) (s : DB) : DB :=
  mkDB (db_opts s) (db_disk s) (db_size s) (db_epoch s) (db_blobs s) (db_curGen s) t (db_sec s)
    (db_writes s) (db_closed s) (db_prospective s) (db_dropped s) (db_reap s) (db_hintGen s) (db_inflight s) (db_tick s).
Definition set_sec (m : gmap gostring secIndex) (s : DB) : DB :=
  mkDB (db_opts s) (db_disk s) (db_size s) (db_epoch s) (db_blobs s) (db_curGen s) (db_pk s) m
    (db_writes s) (db_closed s) (db_prospective s) (db_dropped s) (db_reap s) (db_hintGen s) (db_inflight s) (db_tick s).
Definition set_writes (n : Z) (s : DB) : DB :=
  mkDB (db_opts s) (db_disk s) (db_size s) (db_epoch s) (db_blobs s) (db_curGen s) (db_pk s) (db_sec s)
    n (db_closed s) (db_prospective s) (db_dropped s) (db_reap s) (db_hintGen s) (db_inflight s) (db_tick s).
Definition set_closed (b : bool) (s : DB) : DB :=
  mkDB (db_opts s) (db_disk s) (db_size s) (db_epoch s) (db_blobs s) (db_curGen s) (db_pk s) (db_sec s)
    (db_writes s) b (db_prospective s) (db_dropped s) (db_reap s) (db_hintGen s) (db_inflight s) (db_tick s).
Definition set_schema (p : gset gostring) (d : gmap gostring ValueKind) (s : DB) : DB :=
  mkDB (db_opts s) (db_disk s) (db_size s) (db_epoch s) (db_blobs s) (db_curGen s) (db_pk s) (db_sec s)
    (db_writes s) (db_closed s) p d (db_reap s) (db_hintGen s) (db_inflight s) (db_tick s).
Definition set_reap (q : list reapReq) (s : DB) : DB :=
  mkDB (db_opts s) (db_disk s) (db_size s) (db_epoch s) (db_blobs s) (db_curGen s) (db_pk s) (db_sec s)
    (db_writes s) (db_closed s) (db_prospective s) (db_dropped s) q (db_hintGen s) (db_inflight s) (db_tick s).
Definition set_hint (g : Z) (b : option hintSnapshot) (s : DB) : DB :=
  mkDB (db_opts s) (db_disk s) (db_size s) (db_epoch s) (db_blobs s) (db_curGen s) (db_pk s) (db_sec s)
    (db_writes s) (db_closed s) (db_prospective s) (db_dropped s) (db_reap s) g b (db_tick s).
Definition set_tick (n : nat) (s : DB) : DB :=
  mkDB (db_opts s) (db_disk s) (db_size s) (db_epoch s) (db_blobs s) (db_curGen s) (db_pk s) (db_sec s)
    (db_writes s) (db_closed s) (db_prospective s) (db_dropped s) (db_reap s) (db_hintGen s) (db_inflight s) n.

Context {E : Env}.
#[local] Notation MD := (M DB).

(** ** System calls *)

Definition tick : MD nat := fun s => (Ok (db_tick s), set_tick (S (db_tick s)) s).

(** [nowMillis]. *)
Definition nowMillis : MD Z := n <- tick ;; mok (env_now n).

(** [for name, val := range ix]. *)
Definition range_ix (ix : IndexValues) : MD (list (gostring * any)) := n <- tick ;; mok (env_range n ix).

Definition fs_call : MD unit := n <- tick ;; if env_fs n then merr EIO else mok tt.

Definition fsync : MD unit := n <- tick ;; if env_sync n then merr EIO else mok tt.

(** [Write] on a file opened with O_APPEND: what reaches the file lands at its
    end, even when the call fails. *)
Definition append_file (put : gostring -> DB -> DB) (data : gostring) : MD unit :=
  n <- tick ;;
  match env_write n with
  | None => mmodify (put data)
  | Some k => mmodify (put (take k data)) ;;; merr EIO
  end.

Definition main_put (data : gostring) : DB -> DB :=
  set_disk (fun d => set_d_main (Some (main_bytes d ++ data)) d).

Definition blob_put (gen : Z) (data : gostring) : DB -> DB :=
  set_disk (fun d => set_d_blobs (<[gen := blob_bytes d gen ++ data]> (d_blobs d)) d).

(** ** The main log *)

Definition newline : gostring := [Byte.x0a].

(** [mainLog.appendSync]. *)
Definition appendSync (r : record) (sync : bool) : MD (Z * Z) :=
  match marshalRecord r with
  | None => merr EMarshal
  | Some data =>
      let data := data ++ newline in
      s <- mget ;;
      let off := db_size s in
      append_file main_put data ;;;
      (if sync then fsync else mok tt) ;;;
      let n := wrap32 (zlen data) in
      mmodify (set_size (off + n)) ;;;
      mok (off, n)
  end.

(** [mainLog.append]: fsyncs when the log was opened in durable mode. *)
Definition main_append (r : record) : MD (Z * Z) :=
  s <- mget ;; appendSync r (o_SyncEveryWrite (db_opts s)).

Definition main_flush : MD unit := fsync.

(** ** The blob side files *)

(** [blobStore.append] on the store of generation [gen]; a missing store is a
    nil pointer. *)
Definition blob_append (gen : Z) (value : gostring) : MD blobRef :=
  s <- mget ;;
  match db_blobs s !! gen with
  | None => merr EPanic
  | Some off =>
      append_file (blob_put gen) value ;;;
      mmodify (fun s => set_blobs (<[gen := off + zlen value]> (db_blobs s)) s) ;;;
      mok (BlobRef off (wrap32 (zlen value)) 0)
  end.

Definition blob_flush : MD unit := fsync.

(** [os.File.ReadAt] of exactly [n] bytes; a short read is an error, and a
    negative length makes [make] panic. *)
Definition read_at (data : gostring) (off n : Z) : res gostring :=
  if n <? 0 then Err EPanic
  else if off <? 0 then Err EIO
  else if zlen data <? off + n then Err EIO
  else Ok (take (Z.to_nat n) (drop (Z.to_nat off) data)).

Definition useBlobFor (o : Options) (size : Z) : bool :=
  (0 <? o_BlobThreshold o) && (o_BlobThreshold o <=? size).

(** [blobReadAt]. *)
Definition blobReadAt (s : DB) (ref : blobRef) : res gostring :=
  match db_blobs s !! br_Gen ref with
  | None => Err (EBlobGen (br_Gen ref))
  | Some _ => read_at (blob_bytes (db_disk s) (br_Gen ref)) (br_Off ref) (br_Size ref)
  end.

(** [bytes.TrimSuffix(buf, []byte{'\n'})]. *)
Definition trim_newline (l : gostring) : gostring :=
  match reverse l with
  | b :: r => if decide (b = Byte.x0a) then reverse r else l
  | [] => []
  end.

(** [readRecord]. *)
Definition readRecord (s : DB) (e : pkEntry) : res record :=
  res_bind (read_at (main_bytes (db_disk s)) (e_off e) (e_n e)) (fun buf =>
  match unmarshalRecord (trim_newline buf) with
  | Some r => Ok r
  | None => Err EUnmarshal
  end).

(** ** Secondary index maintenance *)

(** The body of [insertSec]'s loop. *)
Definition insert_one (key : gostring) (nv : gostring * any) (m : gmap gostring secIndex) : gmap gostring secIndex :=
  match m !! nv.1 with
  | None => m
  | Some si => match makeEntry si nv.2 key with
               | Ok e => <[nv.1 := si_insert si e]> m
               | Err _ => m
               end
  end.

Definition remove_one (key : gostring) (nv : gostring * any) (m : gmap gostring secIndex) : gmap gostring secIndex :=
  match m !! nv.1 with
  | None => m
  | Some si => match makeEntry si nv.2 key with
               | Ok e => <[nv.1 := si_remove si e]> m
               | Err _ => m
               end
  end.

Definition insertSec (key : gostring) (ix : IndexValues) : MD unit :=
  l <- range_ix ix ;;
  mmodify (fun s => set_sec (fold_left (fun m nv => insert_one key nv m) l (db_sec s)) s).

Definition retractSec (key : gostring) : MD unit :=
  s <- mget ;;
  match pk_get (db_pk s) key with
  | None => mok tt
  | Some e =>
      if decide (e_ix e = ∅) then mok tt
      else
        l <- range_ix (e_ix e) ;;
        mmodify (fun s => set_sec (fold_left (fun m nv => remove_one key nv m) l (db_sec s)) s) ;;;
        mmodify (fun s => set_pk (pk_setIX (db_pk s) key ∅) s)
  end.

Definition refreshSec (key : gostring) (ix : IndexValues) : MD unit :=
  retractSec key ;;;
  if decide (ix = ∅) then mok tt
  else
    insertSec key ix ;;;
    mmodify (fun s => set_pk (pk_setIX (db_pk s) key ix) s).

Definition si_clear (si : secIndex) : secIndex := with_tree si (bt_clear (si_tree si)).

Definition rebuildSec : MD unit :=
  mmodify (fun s => set_sec (si_clear <$> db_sec s) s) ;;;
  s <- mget ;;
  mfor (fun e => insertSec (e_key e) (e_ix e)) (pk_scan (db_pk s)).

(** ** Deleting *)

Definition tombstone (key : gostring) : record := MkRecord key [] [] None true ∅ false 0.

(** [deleteLocked]. *)
Definition deleteLocked (key : gostring) : MD unit :=
  main_append (tombstone key) ;;;
  retractSec key ;;;
  mmodify (fun s => set_pk (pk_remove (db_pk s) key).2 s) ;;;
  mmodify (fun s => set_writes (db_writes s + 1) s).

(** ** Writing *)

(** [isObjectValue]. *)
Fixpoint isObjectValue (value : gostring) : bool :=
  match value with
  | [] => false
  | c :: rest =>
      if decide (c = Byte.x20 \/ c = Byte.x09 \/ c = Byte.x0d \/ c = Byte.x0a)
      then isObjectValue rest
      else bool_decide (c = Byte.x7b)
  end.

(** The loop over the explicit values of [buildIndexValues]. *)
Fixpoint explicit_values (sec : gmap gostring secIndex) (key : gostring) (l : list (gostring * any))
    (out : IndexValues) : res IndexValues :=
  match l with
  | [] => Ok out
  | (name, val) :: l' =>
      match sec !! name with
      | None => Err (EUnknownIndex name)
      | Some si => res_bind (makeEntry si val key) (fun _ => explicit_values sec key l' (<[name := val]> out))
      end
  end.

(** The loop over the declared indexes: an explicit value wins. *)
Fixpoint extract_values (sec : gmap gostring secIndex) (key value : gostring) (defs : list IndexDef)
    (out : IndexValues) : res IndexValues :=
  match defs with
  | [] => Ok out
  | def :: defs' =>
      match d_Extract def with
      | None => extract_values sec key value defs' out
      | Some f =>
          match out !! d_Name def with
          | Some _ => extract_values sec key value defs' out
          | None =>
              match f key value with
              | None => extract_values sec key value defs' out
              | Some v =>
                  match sec !! d_Name def with
                  | None => Err EPanic
                  | Some si =>
                      res_bind (makeEntry si v key) (fun _ =>
                      extract_values sec key value defs' (<[d_Name def := v]> out))
                  end
              end
          end
      end
  end.

(** [buildIndexValues]; a nil map is the empty one. *)
Definition buildIndexValues (key value : gostring) (explicit : IndexValues) : MD IndexValues :=
  s <- mget ;;
  if decide (db_sec s = ∅ /\ explicit = ∅) then mok ∅
  else if negb (isObjectValue value) then
    (if decide (explicit = ∅) then mok ∅ else merr (ENotObject key))
  else
    l <- range_ix explicit ;;
    mres (res_bind (explicit_values (db_sec s) key l ∅) (fun out =>
          extract_values (db_sec s) key value (o_Indexes (db_opts s)) out)).

(** [checkSelfEviction]. *)
Fixpoint self_evicted (sec : gmap gostring secIndex) (key : gostring) (l : list (gostring * any)) : res unit :=
  match l with
  | [] => Ok tt
  | (name, val) :: l' =>
      match sec !! name with
      | None => self_evicted sec key l'
      | Some si =>
          if si_max si <=? 0 then self_evicted sec key l'
          else match wouldSelfEvict si val key with
               | Err _ => self_evicted sec key l'
               | Ok true => Err (ESelfEvict key name)
               | Ok false => self_evicted sec key l'
               end
      end
  end.

Definition checkSelfEviction (key : gostring) (ix : IndexValues) : MD unit :=
  l <- range_ix ix ;; s <- mget ;; mres (self_evicted (db_sec s) key l).

(** [appendRecord]. *)
Definition appendRecord (key value : gostring) (ix : IndexValues) (exp : Z) (durable counter : bool) : MD unit :=
  s <- mget ;;
  rec <- (if negb counter && useBlobFor (db_opts s) (zlen value) then
            let gen := db_curGen s in
            ref <- blob_append gen value ;;
            blob_flush ;;;
            mok (MkRecord key [] [] (Some (BlobRef (br_Off ref) (br_Size ref) gen)) false ix false exp)
          else mok (MkRecord key [] value None false ix counter exp)) ;;
  on <- appendSync rec durable ;;
  mmodify (fun s => set_pk (pk_upsert (db_pk s) (PkEntry key on.1 on.2 ∅ exp)) s) ;;;
  refreshSec key ix.

(** The primary keys at positions [lo .. lo + excess). *)
Definition victims_of (si : secIndex) (lo excess : Z) : list gostring :=
  (fun i => se_pk (si_at si (lo + Z.of_nat i))) <$> seq 0 (Z.to_nat excess).

(** [enforceMaxPerValue]. *)
Definition enforce_one (nv : gostring * any) : MD unit :=
  s <- mget ;;
  match db_sec s !! nv.1 with
  | None => mok tt
  | Some si =>
      if si_max si <=? 0 then mok tt
      else match makeEntry si nv.2 [] with
           | Err _ => mok tt
           | Ok probe =>
               let lo := lowerBound si probe in
               let hi := upperBoundValue si probe in
               let excess := (hi - lo) - si_max si in
               if excess <=? 0 then mok tt
               else mfor deleteLocked (victims_of si lo excess)
           end
  end.

Definition enforceMaxPerValue (ix : IndexValues) : MD unit :=
  l <- range_ix ix ;; mfor enforce_one l.

(** [maybeWriteHint]: start a background writer on a snapshot, unless one is
    in flight. *)
Definition maybeWriteHint : MD unit :=
  mmodify (fun s =>
    if (o_HintEveryN (db_opts s) <=? 0) || (db_writes s <? o_HintEveryN (db_opts s)) then s
    else match db_inflight s with
         | Some _ => s
         | None =>
             set_writes 0
               (set_hint (db_hintGen s)
                  (Some (mkHintSnapshot (pk_copy (db_pk s)) (db_size s) (db_hintGen s) (db_epoch s)
                           (match db_blobs s !! db_curGen s with Some _ => Some (db_curGen s) | None => None end)))
                  s)
         end).

(** [write]. *)
Definition write (key value : gostring) (explicit : IndexValues) (exp : Z) : MD unit :=
  ix <- buildIndexValues key value explicit ;;
  checkSelfEviction key ix ;;;
  s <- mget ;;
  appendRecord key value ix exp (o_SyncEveryWrite (db_opts s)) false ;;;
  enforceMaxPerValue ix ;;;
  mmodify (fun s => set_writes (db_writes s + 1) s) ;;;
  maybeWriteHint.
End store.
