(* ===== verification/SecMaint.v ===== *)
(** * Secondary indexes follow the primary one

    [insertSec] and [retractSec] range over a Go map; their effect does not
    depend on the order.  The invariant [matches] says that every secondary
    index holds exactly the entries that the index values on the primary
    entries give rise to; retracting and inserting keep it. *)

From S2P Require Import Prelude Floats Types Json Record BTree PkIndex SecIndex Store.
#[local] Open Scope Z_scope.

(** ** Values that do not read as NaN *)

Definition any_nn (v : any) : Prop :=
  match toFloat v with Some f => f64_isnan f = false | None => True end.

Definition ix_nn (ix : IndexValues) : Prop := map_Forall (fun _ v => any_nn v) ix.

Lemma number_not_nan lit : is_json_number lit = true -> (lower <$> lit) <> bs "nan".
Proof.
  intros H Hn. destruct lit as [|b lit]; [done|]. rewrite fmap_cons in Hn. injection Hn as Hb _.
  assert (Hb' : is_digit b = false /\ bZ b <> 45 /\ bZ b <> 48).
  { destruct b; vm_compute in Hb; try discriminate Hb; by vm_compute. }
  destruct Hb' as (H1 & H2 & H3). unfold is_json_number, scan_number in H.
  rewrite (proj2 (Z.eqb_neq _ _) H2) in H. unfold scan_int in H.
  rewrite (proj2 (Z.eqb_neq _ _) H3), H1 in H. done.
Qed.

Lemma f64_finite_not_nan f : f64_finite f = true -> f64_isnan f = false.
Proof. by destruct f. Qed.

(** What the log accepts is not NaN, before and after the trip. *)
Lemma norm_any_nn v : is_Some (norm_any v) -> any_nn v.
Proof.
  intros [w (j & Hj & Hok & _ & _)%norm_any_inv]. unfold any_nn. destruct v; simpl in *; try done.
  - destruct (f64_finite f) eqn:Hf; [by apply f64_finite_not_nan|done].
  - destruct (f64_finite f) eqn:Hf; [|done]. destruct f as [| | |s m e]; try done.
    apply binary_normalize_not_nan.
  - apply f64_of_Z_not_nan.
  - apply f64_of_Z_not_nan.
  - apply f64_of_Z_not_nan.
  - destruct (parse_float lit) as [f|] eqn:Hp; [|done]. destruct lit as [|b lit]; [done|].
    destruct (is_json_number (b :: lit)) eqn:Hn; [|done].
    eapply parse_float_not_nan; [done|]. by apply number_not_nan.
Qed.

Lemma norm_result_nn v w : norm_any v = Some w -> any_nn w.
Proof.
  intros (j & _ & Hok & _ & Hd)%norm_any_inv. unfold any_nn. destruct j; simpl in Hd.
  - by simplify_eq.
  - by simplify_eq.
  - destruct (parse_float lit) as [f|] eqn:Hp; simplify_eq/=.
    eapply parse_float_not_nan; [done|]. by apply number_not_nan.
  - by simplify_eq.
  - by apply fmap_Some in Hd as (x & _ & ->).
  - by apply fmap_Some in Hd as (x & _ & ->).
Qed.

Lemma ix_ok_nn ix : ix_ok ix -> ix_nn ix.
Proof. intros H k v Hv. destruct (H k v Hv) as [_ ?]. by apply norm_any_nn. Qed.

Lemma norm_ix_nn ix : ix_nn (norm_ix ix).
Proof.
  intros k v Hv. unfold norm_ix in Hv. rewrite lookup_omap in Hv.
  destruct (ix !! k) as [v0|]; [|done]. simpl in Hv. by eapply norm_result_nn.
Qed.

Lemma makeEntry_nn {BT : BTreeG} si v k x : makeEntry si v k = Ok x -> any_nn v -> not_nan x.
Proof.
  unfold makeEntry, any_nn, not_nan. intros H Hv. repeat case_match; by simplify_eq/=.
Qed.

(** ** Order-independent updates *)

Section maint.
Context {BT : BTreeG}.
Implicit Types (m : gmap gostring secIndex) (ix : IndexValues).

(** Apply [f] to the entry a key's value gives in one index. *)
Definition upd_index (f : secIndex -> secEntry -> secIndex) (key : gostring) (ix : IndexValues)
    (name : gostring) (si : secIndex) : secIndex :=
  match ix !! name with
  | Some v => match makeEntry si v key with Ok e => f si e | Err _ => si end
  | None => si
  end.

Definition sec_insert (key : gostring) (ix : IndexValues) (m : gmap gostring secIndex) : gmap gostring secIndex :=
  map_imap (fun name si => Some (upd_index si_insert key ix name si)) m.

Definition sec_remove (key : gostring) (ix : IndexValues) (m : gmap gostring secIndex) : gmap gostring secIndex :=
  map_imap (fun name si => Some (upd_index si_remove key ix name si)) m.

Lemma lookup_sec_insert key ix m name :
  sec_insert key ix m !! name = upd_index si_insert key ix name <$> m !! name.
Proof. unfold sec_insert. rewrite map_lookup_imap. by destruct (m !! name). Qed.

Lemma lookup_sec_remove key ix m name :
  sec_remove key ix m !! name = upd_index si_remove key ix name <$> m !! name.
Proof. unfold sec_remove. rewrite map_lookup_imap. by destruct (m !! name). Qed.

Definition one (f : secIndex -> secEntry -> secIndex) (key : gostring) (nv : gostring * any)
    (m : gmap gostring secIndex) : gmap gostring secIndex :=
  match m !! nv.1 with
  | None => m
  | Some si => match makeEntry si nv.2 key with
               | Ok e => <[nv.1 := f si e]> m
               | Err _ => m
               end
  end.

Lemma fold_one f key l m : NoDup l.*1 ->
  fold_left (fun m nv => one f key nv m) l m
  = map_imap (fun name si => Some (upd_index f key (list_to_map l) name si)) m.
Proof.
  revert m. induction l as [|[n v] l IH]; intros m Hnd; cbn [fold_left].
  - apply map_eq. intros name. rewrite map_lookup_imap. by destruct (m !! name).
  - apply NoDup_cons in Hnd as [Hn Hnd]. rewrite IH by done. apply map_eq. intros name.
    rewrite !map_lookup_imap. unfold one. cbn [fst snd list_to_map foldr].
    assert (Hln : (list_to_map l : IndexValues) !! n = None) by (by apply not_elem_of_list_to_map_1).
    destruct (decide (name = n)) as [->|Hne].
    + destruct (m !! n) as [si|] eqn:Hm; simpl; [|by rewrite Hm]. unfold upd_index.
      rewrite lookup_insert_eq. destruct (makeEntry si v key) as [e|err].
      * rewrite lookup_insert_eq. simpl. by rewrite Hln.
      * rewrite Hm. simpl. by rewrite Hln.
    + assert ((match m !! n with
               | Some si => match makeEntry si v key with Ok e => <[n := f si e]> m | Err _ => m end
               | None => m end) !! name = m !! name) as ->.
      { destruct (m !! n) as [si|]; [|done]. destruct (makeEntry si v key); [by rewrite lookup_insert_ne|done]. }
      destruct (m !! name) as [si|]; [|done]. simpl. unfold upd_index. by rewrite lookup_insert_ne.
Qed.

Lemma fold_range f key ix l m : l ≡ₚ map_to_list ix ->
  fold_left (fun m nv => one f key nv m) l m
  = map_imap (fun name si => Some (upd_index f key ix name si)) m.
Proof.
  intros Hp. assert (Hnd : NoDup l.*1) by (rewrite Hp; apply NoDup_fst_map_to_list).
  rewrite fold_one by done. rewrite (list_to_map_proper l (map_to_list ix)) by done.
  by rewrite list_to_map_to_list.
Qed.

(** The index values of an index only matter through [makeEntry], which looks
    at the declaration alone. *)
Lemma makeEntry_with_tree si t v k : makeEntry (with_tree si t) v k = makeEntry si v k.
Proof. done. Qed.

(** ** The invariant *)

(** [x] is what the value on its key's primary entry gives in this index. *)
Definition derived (pk : gmap gostring pkEntry) (name : gostring) (si : secIndex) (x : secEntry) : Prop :=
  exists e v, pk !! se_pk x = Some e /\ e_ix e !! name = Some v /\ makeEntry si v (se_pk x) = Ok x.

Definition matches (m : gmap gostring secIndex) (pk : gmap gostring pkEntry) : Prop :=
  map_Forall (fun name si => sec_ok si /\ forall x, x ∈ bt_scan (si_tree si) <-> derived pk name si x) m.

Context {BL : BTreeGLaws BT}.

Lemma makeEntry_same si v k x : makeEntry si v k = Ok x -> any_nn v -> same_entry si x x = true.
Proof.
  intros Hm Hv. unfold same_entry. pose proof (makeEntry_nn _ _ _ _ Hm Hv) as Hn.
  rewrite valueEqual_equiv, (equiv_refl not_nan) by (done || apply _). by rewrite bool_decide_eq_true_2.
Qed.

Lemma same_entry_pk si a b : same_entry si a b = true -> se_pk a = se_pk b.
Proof. unfold same_entry. intros [_ H]%andb_true_iff. by apply bool_decide_eq_true in H. Qed.

(** Retracting a key's entries leaves those of the other keys. *)
Lemma matches_remove m pk key e :
  matches m pk -> pk !! key = Some e -> ix_nn (e_ix e) ->
  matches (sec_remove key (e_ix e) m) (<[key := set_ix e ∅]> pk).
Proof.
  intros HM He Hnn name si' Hsi'. rewrite lookup_sec_remove in Hsi'.
  destruct (m !! name) as [si|] eqn:Hm; simplify_eq/=. destruct (HM name si Hm) as [Hok Hx].
  assert (Hother : forall x, derived (<[key := set_ix e ∅]> pk) name si x <-> derived pk name si x /\ se_pk x <> key).
  { intros x. unfold derived. split.
    - intros (e' & v & Hl & Hv & Hme). apply lookup_insert_Some in Hl as [[<- <-]|[Hne Hl]]; [done|]. eauto 8.
    - intros [(e' & v & Hl & Hv & Hme) Hne]. exists e', v. by rewrite lookup_insert_ne. }
  unfold upd_index. destruct (e_ix e !! name) as [v|] eqn:Hv; last first.
  { split; [done|]. intros x. rewrite Hother, Hx. split; [|by intros []]. intros Hd. split; [done|].
    intros Hk. destruct Hd as (e' & v' & Hl & Hv' & _). rewrite Hk, He in Hl. congruence. }
  destruct (makeEntry si v key) as [y|err] eqn:Hme; last first.
  { split; [done|]. intros x. rewrite Hother, Hx. split; [|by intros []]. intros Hd. split; [done|].
    intros Hk. destruct Hd as (e' & v' & Hl & Hv' & Hme'). rewrite Hk, He in Hl.
    injection Hl as <-. rewrite Hv in Hv'. injection Hv' as <-. rewrite Hk in Hme'. congruence. }
  pose proof (makeEntry_nn _ _ _ _ Hme (Hnn _ _ Hv)) as Hy. pose proof (makeEntry_pk _ _ _ _ Hme) as Hpk.
  split; [by apply si_remove_ok|]. intros x. rewrite si_remove_elem, Hx by done.
  assert (Hd : derived (<[key := set_ix e ∅]> pk) name (si_remove si y) x
               <-> derived (<[key := set_ix e ∅]> pk) name si x) by done.
  rewrite Hd, Hother. split; intros [Hdx Hs]; (split; [done|]).
  - intros Hk. destruct Hdx as (e' & v' & Hl & Hv' & Hme'). rewrite Hk, He in Hl. injection Hl as <-.
    rewrite Hv in Hv'. injection Hv' as <-. rewrite Hk, Hme in Hme'. injection Hme' as <-.
    rewrite (makeEntry_same si v key) in Hs; [done|done|]. by apply (Hnn _ _ Hv).
  - destruct (same_entry si y x) eqn:Hse; [|done]. apply same_entry_pk in Hse. congruence.
Qed.

(** Inserting the entries of a key that has none. *)
Lemma matches_insert m pk key e ix :
  matches m pk -> match pk !! key with Some e0 => e_ix e0 = ∅ | None => True end -> ix_nn ix ->
  matches (sec_insert key ix m) (<[key := set_ix e ix]> pk).
Proof.
  intros HM He Hnn name si' Hsi'. rewrite lookup_sec_insert in Hsi'.
  destruct (m !! name) as [si|] eqn:Hm; simplify_eq/=. destruct (HM name si Hm) as [Hok Hx].
  assert (Hnone : forall x, derived pk name si x -> se_pk x <> key).
  { intros x (e' & v & Hl & Hv & _) Hk. rewrite Hk in Hl. rewrite Hl in He. rewrite He in Hv.
    by rewrite lookup_empty in Hv. }
  assert (Hnew : forall x, derived (<[key := set_ix e ix]> pk) name si x <->
            derived pk name si x \/ (exists v, ix !! name = Some v /\ makeEntry si v key = Ok x)).
  { intros x. split.
    - intros (e' & v & Hl & Hv & Hme). apply lookup_insert_Some in Hl as [[Hk He']|[Hne Hl]].
      + right. exists v. rewrite <- He' in Hv. by rewrite Hk.
      + left. exists e', v. eauto.
    - intros [Hd|(v & Hv & Hme)].
      + pose proof (Hnone x Hd). destruct Hd as (e' & v & Hl & Hv & Hme). exists e', v. by rewrite lookup_insert_ne.
      + pose proof (makeEntry_pk _ _ _ _ Hme) as Hpk. exists (set_ix e ix), v. subst key. by rewrite lookup_insert_eq. }
  unfold upd_index. destruct (ix !! name) as [v|] eqn:Hv; last first.
  { split; [done|]. intros x. rewrite Hnew, Hx. split; [by left|]. intros [?|(? & ? & ?)]; done. }
  destruct (makeEntry si v key) as [y|err] eqn:Hme; last first.
  { split; [done|]. intros x. rewrite Hnew, Hx. split; [by left|]. intros [?|(? & ? & ?)]; [done|]. congruence. }
  pose proof (makeEntry_nn _ _ _ _ Hme (Hnn _ _ Hv)) as Hy. pose proof (makeEntry_pk _ _ _ _ Hme) as Hpk.
  split; [by apply si_insert_ok|]. intros x. rewrite si_insert_elem, Hx by done.
  assert (Hd : derived (<[key := set_ix e ix]> pk) name (si_insert si y) x
               <-> derived (<[key := set_ix e ix]> pk) name si x) by done.
  rewrite Hd, Hnew. split.
  - intros [->|[? _]]; [|by left]. right. eauto.
  - intros [Hdx|(v' & Hv' & Hme')]; [|left; congruence]. right. split; [done|].
    destruct (same_entry si y x) eqn:Hse; [|done]. apply same_entry_pk in Hse.
    destruct (Hnone x Hdx). congruence.
Qed.

Lemma matches_empty_pk m : map_Forall (fun _ si => sec_ok si /\ bt_scan (si_tree si) = []) m -> matches m ∅.
Proof.
  intros H name si Hsi. destruct (H name si Hsi) as [Hok Hs]. split; [done|]. intros x. rewrite Hs. split.
  - by intros ?%elem_of_nil.
  - intros (e & v & Hl & _). by rewrite lookup_empty in Hl.
Qed.

(** Dropping or changing an entry that carries no index values. *)
Lemma matches_ext m pk pk' :
  (forall k, (e_ix <$> pk !! k = e_ix <$> pk' !! k)
             \/ (default ∅ (e_ix <$> pk !! k) = ∅ /\ default ∅ (e_ix <$> pk' !! k) = ∅)) ->
  matches m pk -> matches m pk'.
Proof.
  intros Heq HM name si Hsi. destruct (HM name si Hsi) as [Hok Hx]. split; [done|]. intros x. rewrite Hx.
  assert (Hgen : forall p q : gmap gostring pkEntry,
    (forall k, (e_ix <$> p !! k = e_ix <$> q !! k) \/ (default ∅ (e_ix <$> p !! k) = ∅ /\ default ∅ (e_ix <$> q !! k) = ∅)) ->
    derived p name si x -> derived q name si x).
  { intros p q Hpq (e & v & Hl & Hv & Hme). destruct (Hpq (se_pk x)) as [H|[H _]]; rewrite Hl in H; simpl in H.
    - destruct (q !! se_pk x) as [e'|] eqn:Hq; simplify_eq/=. exists e', v. by rewrite <- H.
    - rewrite H in Hv. by rewrite lookup_empty in Hv. }
  split; apply Hgen; [done|]. intros k. destruct (Heq k) as [H|[? ?]]; [by left|by right].
Qed.
End maint.
