(* ===== verification/IndexStep.v ===== *)
(** * What the index-maintenance steps do to the state

    [idx_inv] is the invariant of the in-memory indexes.  The lemmas give the
    result of the two steps every write is made of: storing a key's entry with
    its index values, and removing a key. *)

From S2P Require Import Prelude Floats Types Json Record BTree PkIndex SecIndex Store SecMaint.
#[local] Open Scope Z_scope.

Section steps.
Context {BT : BTreeG} {BL : BTreeGLaws BT} {E : Env} {EL : EnvLaws E}.
Implicit Types (s : DB) (key : gostring) (ix : IndexValues).

Definition live s : gmap gostring pkEntry := pk_map (db_pk s).

Definition idx_inv s : Prop :=
  pk_ok (db_pk s) /\ matches (db_sec s) (live s) /\ map_Forall (fun _ e => ix_nn (e_ix e)) (live s).

(** What a declaration fixes of an index. *)
Definition decl_of (si : secIndex) : gostring * ValueKind * Z := (si_name si, si_kind si, si_max si).

(** Only the indexes and the step counter changed. *)
Definition only_indexes s s' : Prop :=
  exists p m t, s' = set_tick t (set_sec m (set_pk p s)) /\ decl_of <$> m = decl_of <$> db_sec s.

Lemma only_indexes_refl s : only_indexes s s.
Proof. exists (db_pk s), (db_sec s), (db_tick s). by destruct s. Qed.

Lemma only_indexes_trans s1 s2 s3 : only_indexes s1 s2 -> only_indexes s2 s3 -> only_indexes s1 s3.
Proof.
  intros (p & m & t & -> & Hm) (p' & m' & t' & -> & Hm'). exists p', m', t'. split; [done|].
  by rewrite Hm', <- Hm.
Qed.

Lemma upd_index_decl f key ix name si :
  (forall si e, decl_of (f si e) = decl_of si) -> decl_of (upd_index f key ix name si) = decl_of si.
Proof. intros Hf. unfold upd_index. repeat case_match; auto. Qed.

Lemma sec_insert_decl key ix m : decl_of <$> sec_insert key ix m = decl_of <$> m.
Proof.
  apply map_eq. intros n. rewrite !lookup_fmap, lookup_sec_insert. destruct (m !! n); [|done]. simpl.
  f_equal. by apply upd_index_decl.
Qed.

Lemma sec_remove_decl key ix m : decl_of <$> sec_remove key ix m = decl_of <$> m.
Proof.
  apply map_eq. intros n. rewrite !lookup_fmap, lookup_sec_remove. destruct (m !! n); [|done]. simpl.
  f_equal. by apply upd_index_decl.
Qed.

Lemma sec_remove_empty key m : sec_remove key ∅ m = m.
Proof.
  apply map_eq. intros n. rewrite lookup_sec_remove. destruct (m !! n); [|done]. simpl.
  unfold upd_index. by rewrite lookup_empty.
Qed.

Lemma sec_insert_empty key m : sec_insert key ∅ m = m.
Proof.
  apply map_eq. intros n. rewrite lookup_sec_insert. destruct (m !! n); [|done]. simpl.
  unfold upd_index. by rewrite lookup_empty.
Qed.

Lemma insertSec_run key ix s :
  insertSec key ix s = (Ok tt, set_tick (S (db_tick s)) (set_sec (sec_insert key ix (db_sec s)) s)).
Proof.
  unfold insertSec, range_ix, tick, mbnd, mok, mmodify. cbn [db_sec set_tick db_tick].
  f_equal. unfold sec_insert. rewrite <- (fold_range si_insert key ix _ _ (range_perm (db_tick s) ix)). by destruct s.
Qed.

Lemma retractSec_run key s : pk_ok (db_pk s) ->
  exists p t, retractSec key s
      = (Ok tt, set_tick t (set_sec (sec_remove key (kept_ix (db_pk s) key) (db_sec s)) (set_pk p s)))
    /\ pk_ok p /\ pk_map p = alter (fun e => set_ix e ∅) key (live s).
Proof.
  intros Hpk. unfold retractSec, mbnd, mget. unfold kept_ix, live. rewrite pk_map_get by done.
  assert (Hsame : forall e, pk_get (db_pk s) key = Some e -> e_ix e = ∅ ->
            pk_map (db_pk s) = alter (fun e => set_ix e ∅) key (pk_map (db_pk s))).
  { intros e He Hix. apply map_eq. intros k. destruct (decide (k = key)) as [->|Hne];
      [|by rewrite lookup_alter_ne]. rewrite lookup_alter_eq, pk_map_get, He by done. simpl. f_equal.
    destruct e. simpl in *. by subst. }
  destruct (pk_get (db_pk s) key) as [e|] eqn:He.
  - destruct (decide (e_ix e = ∅)) as [Hix|Hix].
    + exists (db_pk s), (db_tick s). rewrite Hix, sec_remove_empty. split; [by destruct s|]. split; [done|]. by eapply Hsame.
    + exists (pk_setIX (db_pk s) key ∅), (S (db_tick s)). split; [|split; [by apply pk_setIX_ok|by apply pk_setIX_map]].
      unfold range_ix, tick, mbnd, mok, mmodify. cbn [db_sec set_tick db_tick db_pk set_sec]. f_equal.
      unfold sec_remove. rewrite <- (fold_range si_remove key (e_ix e) _ _ (range_perm (db_tick s) (e_ix e))). by destruct s.
  - exists (db_pk s), (db_tick s). rewrite sec_remove_empty. split; [by destruct s|]. split; [done|].
    apply map_eq. intros k. destruct (decide (k = key)) as [->|Hne]; [|by rewrite lookup_alter_ne].
    by rewrite lookup_alter_eq, pk_map_get, He.
Qed.

Lemma refreshSec_run key ix s : pk_ok (db_pk s) ->
  exists p t, refreshSec key ix s
      = (Ok tt, set_tick t (set_sec (sec_insert key ix (sec_remove key (kept_ix (db_pk s) key) (db_sec s))) (set_pk p s)))
    /\ pk_ok p /\ pk_map p = alter (fun e => set_ix e ix) key (live s).
Proof.
  intros Hpk. destruct (retractSec_run key s Hpk) as (p & t & Hr & Hp & Hm).
  unfold refreshSec. rewrite (mbnd_ok _ _ _ _ _ Hr). destruct (decide (ix = ∅)) as [->|Hix].
  - exists p, t. rewrite sec_insert_empty. done.
  - rewrite (mbnd_ok _ _ _ _ _ (insertSec_run _ _ _)). unfold mmodify.
    eexists (pk_setIX p key ix), _. split; [cbn; reflexivity|]. split; [by apply pk_setIX_ok|].
    rewrite pk_setIX_map, Hm by done. apply map_eq. intros k. destruct (decide (k = key)) as [->|Hne].
    + rewrite !lookup_alter_eq. by destruct (live s !! key).
    + by rewrite !lookup_alter_ne.
Qed.

(** Storing a key's entry, as every write does after its append. *)
Lemma put_index s key off n ix exp : idx_inv s -> ix_nn ix ->
  exists s', (mmodify (fun s => set_pk (pk_upsert (db_pk s) (PkEntry key off n ∅ exp)) s) ;;; refreshSec key ix) s = (Ok tt, s')
    /\ only_indexes s s' /\ idx_inv s' /\ live s' = <[key := PkEntry key off n ix exp]> (live s).
Proof.
  intros (Hpk & HM & Hnn) Hix. set (e := PkEntry key off n ∅ exp).
  set (s1 := set_pk (pk_upsert (db_pk s) e) s).
  assert (Hpk1 : pk_ok (db_pk s1)) by (by apply pk_upsert_ok).
  assert (Hm1 : live s1 = <[key := set_ix e (kept_ix (db_pk s) key)]> (live s)) by (by apply pk_upsert_map).
  assert (Hkept : kept_ix (db_pk s1) key = kept_ix (db_pk s) key).
  { unfold kept_ix. fold (live s1). by rewrite Hm1, lookup_insert_eq. }
  destruct (refreshSec_run key ix s1 Hpk1) as (p & t & Hr & Hp & Hm). rewrite Hkept in Hr.
  eexists. split; [unfold mbnd, mmodify; exact Hr|].
  assert (Hlive : pk_map p = <[key := set_ix e ix]> (live s)).
  { rewrite Hm, Hm1. apply map_eq. intros k. destruct (decide (k = key)) as [->|Hne].
    - by rewrite lookup_alter_eq, !lookup_insert_eq.
    - by rewrite lookup_alter_ne, !lookup_insert_ne. }
  split; [|split; [split; [done|split]|done]].
  - exists p. eexists _, t. split; [reflexivity|]. by rewrite sec_insert_decl, sec_remove_decl.
  - cbn. unfold live. cbn. rewrite Hlive. rewrite <- (insert_insert_eq (live s) key (set_ix e ix) (set_ix e ∅)).
    apply matches_insert; [|by rewrite lookup_insert_eq|done].
    unfold kept_ix. fold (live s). destruct (live s !! key) as [e0|] eqn:He0.
    + apply (matches_ext _ (<[key := set_ix e0 ∅]> (live s))); [|by apply matches_remove; [| |by apply (Hnn key)]].
      intros k. left. destruct (decide (k = key)) as [->|Hne]; [by rewrite !lookup_insert_eq|by rewrite !lookup_insert_ne].
    + rewrite sec_remove_empty. apply (matches_ext _ (live s)); [|done]. intros k.
      destruct (decide (k = key)) as [->|Hne]; [right; by rewrite He0, lookup_insert_eq|left; by rewrite lookup_insert_ne].
  - unfold live. cbn. rewrite Hlive. by apply map_Forall_insert_2.
Qed.

(** Removing a key, as every delete does after its tombstone. *)
Lemma del_index s key : idx_inv s ->
  exists s', (retractSec key ;;; mmodify (fun s => set_pk (pk_remove (db_pk s) key).2 s)) s = (Ok tt, s')
    /\ only_indexes s s' /\ idx_inv s' /\ live s' = delete key (live s).
Proof.
  intros (Hpk & HM & Hnn). destruct (retractSec_run key s Hpk) as (p & t & Hr & Hp & Hm).
  eexists. split; [rewrite (mbnd_ok _ _ _ _ _ Hr); reflexivity|].
  assert (Hlive : pk_map (pk_remove p key).2 = delete key (live s)).
  { rewrite pk_remove_map, Hm by done. apply map_eq. intros k. destruct (decide (k = key)) as [->|Hne].
    - by rewrite !lookup_delete_eq.
    - by rewrite !lookup_delete_ne, lookup_alter_ne. }
  split; [|split; [split; [by apply pk_remove_ok|split]|done]].
  - exists (pk_remove p key).2, (sec_remove key (kept_ix (db_pk s) key) (db_sec s)), t.
    split; [reflexivity|]. by rewrite sec_remove_decl.
  - unfold live. cbn. rewrite Hlive. unfold kept_ix. fold (live s). destruct (live s !! key) as [e0|] eqn:He0.
    + apply (matches_ext _ (<[key := set_ix e0 ∅]> (live s))); [|by apply matches_remove; [| |by apply (Hnn key)]].
      intros k. destruct (decide (k = key)) as [->|Hne].
      * right. by rewrite lookup_insert_eq, lookup_delete_eq.
      * left. by rewrite lookup_insert_ne, lookup_delete_ne.
    + rewrite sec_remove_empty. apply (matches_ext _ (live s)); [|done]. intros k.
      destruct (decide (k = key)) as [->|Hne]; [right; by rewrite He0, lookup_delete_eq|left; by rewrite lookup_delete_ne].
  - unfold live. cbn. rewrite Hlive. by apply map_Forall_delete.
Qed.
End steps.
