(* ===== verification/LogSpec.v ===== *)
(** * The log as a sequence of records

    The main log is the concatenation of the lines of the records written so
    far.  [lidx] is the reference semantics of the log: for every key, the
    offset and content of the record that decides it.  Reading at the offset
    of an indexed record gives that record back. *)

From S2P Require Import Prelude Floats Types Json Record BTree PkIndex SecIndex Hint Store.
#[local] Open Scope Z_scope.

(** ** Text *)

Definition enc_line (r : record) : gostring := default [] (marshalRecord r) ++ newline.

Fixpoint enc (log : list record) : gostring :=
  match log with
  | [] => []
  | r :: log' => enc_line r ++ enc log'
  end.

(** A record JSON can carry; the lengths of its line and of a tombstone for its
    key fit an [int32]. *)
Definition rec_good (r : record) : Prop :=
  record_ok r /\ zlen (enc_line r) < 2 ^ 31 /\ zlen (enc_line (tombstone (r_Key r))) < 2 ^ 31.

#[global] Instance rec_good_dec r : Decision (rec_good r).
Proof. unfold rec_good. apply _. Defined.

Lemma enc_app l1 l2 : enc (l1 ++ l2) = enc l1 ++ enc l2.
Proof. induction l1 as [|r l1 IH]; simpl; [done|]. by rewrite IH, app_assoc. Qed.

Lemma enc_snoc l r : enc (l ++ [r]) = enc l ++ enc_line r.
Proof. rewrite enc_app. simpl. by rewrite app_nil_r. Qed.

Lemma enc_line_eq r line : marshalRecord r = Some line -> enc_line r = line ++ newline.
Proof. unfold enc_line. by intros ->. Qed.

(** What scanning one line needs to know. *)
Lemma rec_good_line r : rec_good r ->
  exists line, marshalRecord r = Some line /\ enc_line r = line ++ newline /\ Byte.x0a ∉ line
    /\ unmarshalRecord line = Some (norm_record r)
    /\ wrap32 (zlen line + 1) = zlen (enc_line r).
Proof.
  intros (Hr & Hlen & _). destruct (marshal_total r Hr) as [line Hl].
  destruct (unmarshal_marshal r line Hr Hl) as (Hu & Hc & _). exists line.
  pose proof (enc_line_eq r line Hl) as He. split_and!; try done; [by apply no_ctl_nl|].
  rewrite He in *. rewrite zlen_app in *. change (zlen newline) with 1 in *. apply wrap32_id.
  unfold in32. pose proof (zlen_nonneg line). lia.
Qed.

Lemma rec_good_tombstone r : rec_good r -> rec_good (tombstone (r_Key r)).
Proof. intros ((Hk & _) & _ & Ht). split; [|by split]. by split_and!. Qed.

Lemma enc_line_pos r : 0 < zlen (enc_line r).
Proof. unfold enc_line. rewrite zlen_app. change (zlen newline) with 1. pose proof (zlen_nonneg (default [] (marshalRecord r))). lia. Qed.

Lemma trim_newline_line line : trim_newline (line ++ newline) = line.
Proof. unfold trim_newline, newline. rewrite reverse_snoc, decide_True by done. apply reverse_involutive. Qed.

(** ** The index a log denotes *)

Definition apply_rec (off : Z) (r : record) (m : gmap gostring (Z * record)) : gmap gostring (Z * record) :=
  if isTombstone r then delete (r_Key r) m else <[r_Key r := (off, r)]> m.

Fixpoint index_from (off : Z) (log : list record) (m : gmap gostring (Z * record)) : gmap gostring (Z * record) :=
  match log with
  | [] => m
  | r :: log' => index_from (off + zlen (enc_line r)) log' (apply_rec off r m)
  end.

Definition lidx (log : list record) : gmap gostring (Z * record) := index_from 0 log ∅.

Lemma index_from_app off l1 l2 m :
  index_from off (l1 ++ l2) m = index_from (off + zlen (enc l1)) l2 (index_from off l1 m).
Proof.
  revert off m. induction l1 as [|r l1 IH]; intros off m; simpl.
  - rewrite zlen_nil, Z.add_0_r. done.
  - rewrite IH, zlen_app. f_equal. lia.
Qed.

Lemma lidx_snoc l r : lidx (l ++ [r]) = apply_rec (zlen (enc l)) r (lidx l).
Proof. unfold lidx. by rewrite index_from_app. Qed.

(** The record that decides a key is its last one. *)
Lemma lidx_Some log k off r : lidx log !! k = Some (off, r) ->
  exists l1 l2, log = l1 ++ r :: l2 /\ off = zlen (enc l1) /\ r_Key r = k /\ isTombstone r = false
    /\ Forall (fun r' => r_Key r' <> k) l2.
Proof.
  revert off r. induction log as [|x l IH] using rev_ind; intros off r; [by unfold lidx; simpl; rewrite lookup_empty|].
  rewrite lidx_snoc. unfold apply_rec.
  assert (Hold : lidx l !! k = Some (off, r) -> r_Key x <> k ->
    exists l1 l2, l ++ [x] = l1 ++ r :: l2 /\ off = zlen (enc l1) /\ r_Key r = k /\ isTombstone r = false
      /\ Forall (fun r' => r_Key r' <> k) l2).
  { intros H Hne. destruct (IH off r H) as (l1 & l2 & -> & Ho & Hk & Ht & HF). exists l1, (l2 ++ [x]).
    split; [by rewrite <- app_assoc|]. split_and!; try done. apply Forall_app. split; [done|]. by constructor. }
  destruct (isTombstone x) eqn:Hx.
  - intros [Hne H]%lookup_delete_Some. auto.
  - intros [[Hk Heq]|[Hne H]]%lookup_insert_Some; [|auto]. injection Heq as <- <-.
    exists l, []. split_and!; try done.
Qed.

Lemma lidx_None log k : lidx log !! k = None ->
  forall r, last (filter (fun r => r_Key r = k) log) = Some r -> isTombstone r = true.
Proof.
  induction log as [|x l IH] using rev_ind; intros H r; [done|].
  rewrite lidx_snoc in H. unfold apply_rec in H. rewrite filter_app. simpl.
  destruct (decide (r_Key x = k)) as [Hk|Hk].
  - rewrite filter_cons_True by done. rewrite filter_nil, last_snoc. intros [= <-].
    destruct (isTombstone x); [done|]. by rewrite Hk, lookup_insert_eq in H.
  - rewrite filter_cons_False by done. rewrite filter_nil, app_nil_r. apply IH.
    destruct (isTombstone x); [by rewrite lookup_delete_ne in H|by rewrite lookup_insert_ne in H].
Qed.

(** ** Reading *)

Lemma read_at_app pre mid post : read_at (pre ++ mid ++ post) (zlen pre) (zlen mid) = Ok mid.
Proof.
  unfold read_at. pose proof (zlen_nonneg pre). pose proof (zlen_nonneg mid). pose proof (zlen_nonneg post).
  rewrite (proj2 (Z.ltb_ge (zlen mid) 0)), (proj2 (Z.ltb_ge (zlen pre) 0)) by lia.
  rewrite (proj2 (Z.ltb_ge (zlen (pre ++ mid ++ post)) (zlen pre + zlen mid))) by (rewrite !zlen_app; lia).
  unfold zlen. rewrite !Nat2Z.id, drop_app_length, take_app_length. done.
Qed.

Lemma lidx_read log k off r : lidx log !! k = Some (off, r) ->
  read_at (enc log) off (zlen (enc_line r)) = Ok (enc_line r) /\ 0 <= off /\ off + zlen (enc_line r) <= zlen (enc log).
Proof.
  intros (l1 & l2 & -> & -> & _)%lidx_Some. rewrite enc_app. cbn [enc]. split; [apply read_at_app|].
  rewrite !zlen_app. pose proof (zlen_nonneg (enc l1)). pose proof (zlen_nonneg (enc l2)). lia.
Qed.

Lemma lidx_elem log k off r : lidx log !! k = Some (off, r) -> r ∈ log /\ r_Key r = k /\ isTombstone r = false.
Proof.
  intros (l1 & l2 & -> & _ & Hk & Ht & _)%lidx_Some. split; [|done]. apply elem_of_app. right. by left.
Qed.

Section read.
Context {BT : BTreeG}.

(** Reading an indexed record from the file. *)
Lemma readRecord_log s log k off r e :
  main_bytes (db_disk s) = enc log -> Forall rec_good log -> lidx log !! k = Some (off, r) ->
  e_off e = off -> e_n e = zlen (enc_line r) -> readRecord s e = Ok (norm_record r).
Proof.
  intros Hm Hg Hl Ho Hn. unfold readRecord. rewrite Hm, Ho, Hn.
  destruct (lidx_read log k off r Hl) as [-> _]. simpl.
  apply lidx_elem in Hl as [Hin _]. rewrite Forall_forall in Hg.
  destruct (rec_good_line r (Hg r Hin)) as (line & _ & -> & _ & Hu & _). by rewrite trim_newline_line, Hu.
Qed.
End read.
