(* ===== verification/Invariant.v ===== *)
(** * The representation invariant of an open store

    [Inv s log] relates the state to the records [log] written since the log
    was last rewritten: the file is their text, the primary index locates the
    record that decides each key, the secondary indexes follow the primary
    one, and blob references stay inside their files.  This file proves that
    appending and deleting keep it when a failing system call has no effect. *)

From S2P Require Import Prelude Floats Types Json Record BTree PkIndex SecIndex Hint Store SecMaint IndexStep LogSpec.
#[local] Open Scope Z_scope.

(** ** Environments *)

(** No system call fails. *)
Definition no_faults (E : Env) : Prop :=
  (forall n, env_write n = None) /\ (forall n, env_sync n = false) /\ (forall n, env_fs n = false).

(** A failing write writes nothing, and a sync does not fail.  (A write that
    fails half-way leaves bytes the store does not account for.) *)
Definition clean_faults (E : Env) : Prop :=
  (forall n, env_write n = None \/ env_write n = Some 0%nat) /\ (forall n, env_sync n = false).

(** The only failure left: a write that failed. *)
Definition failed {A} (E : Env) (r : res A) : Prop := r = Err EIO /\ exists n, env_write n <> None.

Lemma no_faults_failed {A} E (r : res A) : no_faults E -> ~ failed E r.
Proof. intros (Hw & _) [_ [n Hn]]. by rewrite Hw in Hn. Qed.

Lemma no_faults_clean E : no_faults E -> clean_faults E.
Proof. intros (Hw & Hs & _). split; [by left|done]. Qed.

(** ** Index entries and log records *)

(** The index values on the entry are those of the record, after the trips
    through JSON text they have made since; no value was lost. *)
Definition entry_for (x : Z * record) (e : pkEntry) : Prop :=
  e_key e = r_Key x.2 /\ e_off e = x.1 /\ e_n e = zlen (enc_line x.2) /\ e_exp e = r_Exp x.2
  /\ (e_ix e = ∅ -> r_IX x.2 = ∅)
  /\ exists n, e_ix e = Nat.iter n norm_ix (r_IX x.2).

Definition agree (lm : gmap gostring (Z * record)) (pk : gmap gostring pkEntry) : Prop :=
  forall k, option_Forall2 entry_for (lm !! k) (pk !! k).

Lemma agree_insert lm pk k x e : agree lm pk -> entry_for x e -> agree (<[k := x]> lm) (<[k := e]> pk).
Proof.
  intros H He k'. destruct (decide (k' = k)) as [->|Hne].
  - rewrite !lookup_insert_eq. by constructor.
  - rewrite !lookup_insert_ne by done. apply H.
Qed.

Lemma agree_delete lm pk k : agree lm pk -> agree (delete k lm) (delete k pk).
Proof.
  intros H k'. destruct (decide (k' = k)) as [->|Hne].
  - rewrite !lookup_delete_eq. constructor.
  - rewrite !lookup_delete_ne by done. apply H.
Qed.

Lemma agree_Some_r lm pk k e : agree lm pk -> pk !! k = Some e -> exists x, lm !! k = Some x /\ entry_for x e.
Proof. intros H He. specialize (H k). rewrite He in H. inversion H; eauto. Qed.

Lemma agree_Some_l lm pk k x : agree lm pk -> lm !! k = Some x -> exists e, pk !! k = Some e /\ entry_for x e.
Proof. intros H He. specialize (H k). rewrite He in H. inversion H; eauto. Qed.

Lemma agree_dom lm pk k : agree lm pk -> is_Some (lm !! k) <-> is_Some (pk !! k).
Proof. intros H. specialize (H k). inversion H; split; intros [? ?]; eauto; done. Qed.

(** ** Blobs *)

Section inv.
Context {BT : BTreeG}.
Implicit Types (s : DB) (log : list record).

Definition blob_ref_ok s (b : blobRef) : Prop :=
  0 <= br_Off b /\ 0 <= br_Size b /\ br_Off b + br_Size b <= zlen (blob_bytes (db_disk s) (br_Gen b))
  /\ br_Off b + br_Size b <= MaxInt64 /\ is_Some (db_blobs s !! br_Gen b).

Definition blob_inv s log : Prop :=
  map_Forall (fun g sz => is_Some (d_blobs (db_disk s) !! g) /\ sz = zlen (blob_bytes (db_disk s) g)) (db_blobs s)
  /\ is_Some (db_blobs s !! db_curGen s) /\ in64 (db_curGen s)
  /\ Forall (fun r => match r_Blob r with Some b => blob_ref_ok s b | None => True end) log.

(** ** The invariant *)

Definition Inv s log : Prop :=
  d_main (db_disk s) = Some (enc log)
  /\ db_size s = zlen (enc log)
  /\ Forall rec_good log
  /\ agree (lidx log) (live s)
  /\ idx_inv s
  /\ blob_inv s log.

Lemma Inv_main s log : Inv s log -> main_bytes (db_disk s) = enc log.
Proof. intros (H & _). unfold main_bytes. by rewrite H. Qed.

(** A live key can be deleted. *)
Lemma Inv_key_good s log k e : Inv s log -> live s !! k = Some e -> rec_good (tombstone k).
Proof.
  intros (_ & _ & Hg & Ha & _) He. destruct (agree_Some_r _ _ _ _ Ha He) as ([off r] & Hx & _).
  apply lidx_elem in Hx as (Hin & <- & _). rewrite Forall_forall in Hg. apply rec_good_tombstone. auto.
Qed.

(** The value a record stands for, given the blob files. *)
Definition value_of (d : Disk) (r : record) : gostring :=
  match r_Blob r with
  | Some b => take (Z.to_nat (br_Size b)) (drop (Z.to_nat (br_Off b)) (blob_bytes d (br_Gen b)))
  | None => r_Value r
  end.
End inv.

(** ** The steps of the write path *)

Section steps.
Context {BT : BTreeG} {BL : BTreeGLaws BT} {E : Env} {EL : EnvLaws E}.
Implicit Types (s : DB) (log : list record).

Lemma fsync_clean s : clean_faults E -> fsync s = (Ok tt, set_tick (S (db_tick s)) s).
Proof. intros [_ H]. unfold fsync, tick, mbnd. by rewrite H. Qed.

Lemma main_put_nil s f : d_main (db_disk s) = Some f -> main_put [] s = s.
Proof.
  intros Hf. destruct s as [o [m h me b] sz ep bl cg p m' w c pr dr rp hg inf t]. simpl in Hf. subst m.
  unfold main_put, set_disk, set_d_main, main_bytes. cbn. by rewrite app_nil_r.
Qed.

Definition append_state (r : record) (t : nat) s : DB :=
  set_tick t (set_size (db_size s + zlen (enc_line r)) (main_put (enc_line r) s)).

(** An append succeeds with the old size as its offset, or changes nothing. *)
Lemma appendSync_clean r sync s res s' f : clean_faults E -> rec_good r -> d_main (db_disk s) = Some f ->
  appendSync r sync s = (res, s') ->
  (exists t, res = Ok (db_size s, zlen (enc_line r)) /\ s' = append_state r t s)
  \/ (exists t, failed E res /\ s' = set_tick t s).
Proof.
  intros Hc Hr Hf. destruct (rec_good_line r Hr) as (line & Hm & He & _ & _ & Hn).
  unfold appendSync. rewrite Hm. rewrite <- He.
  assert (Hn' : wrap32 (zlen (enc_line r)) = zlen (enc_line r)).
  { rewrite <- Hn at 2. f_equal. rewrite He, zlen_app. done. }
  rewrite Hn'. unfold mbnd at 1. cbn [mget]. unfold append_file, tick. unfold mbnd at 1 2.
  destruct (proj1 Hc (db_tick s)) as [Hw|Hw].
  - unfold mbnd at 1. cbn [fst snd]. rewrite Hw. unfold mmodify at 1. unfold mbnd at 1.
    destruct sync; [rewrite fsync_clean by done|]; cbn; intros [= <- <-]; left;
      unfold append_state; eexists; (split; [done|]); by destruct s.
  - unfold mbnd at 1. rewrite Hw. cbn. intros [= <- <-]. right. eexists. split; [split; [done|exists (db_tick s); by rewrite Hw]|].
    rewrite main_put_nil with (f := f) by done. by destruct s.
Qed.

(** What the operations on records leave alone. *)
Definition keeps s s' : Prop :=
  db_opts s' = db_opts s /\ db_blobs s' = db_blobs s /\ db_curGen s' = db_curGen s
  /\ d_blobs (db_disk s') = d_blobs (db_disk s) /\ decl_of <$> db_sec s' = decl_of <$> db_sec s
  /\ db_closed s' = db_closed s.

Lemma keeps_refl s : keeps s s.
Proof. by repeat split. Qed.

Lemma keeps_trans s1 s2 s3 : keeps s1 s2 -> keeps s2 s3 -> keeps s1 s3.
Proof. unfold keeps. intros (-> & -> & -> & -> & -> & ->) (-> & -> & -> & -> & -> & ->). done. Qed.

Lemma keeps_append r t s : keeps s (append_state r t s).
Proof. by repeat split. Qed.

Lemma keeps_indexes s s' : only_indexes s s' -> keeps s s'.
Proof. intros (p & m & t & -> & Hm). by repeat split. Qed.

Lemma blob_inv_keeps s s' log : keeps s s' -> blob_inv s log -> blob_inv s' log.
Proof.
  intros (_ & Hb & Hg & Hd & _ & _). unfold blob_inv, blob_ref_ok, blob_bytes. by rewrite Hb, Hg, Hd.
Qed.

Lemma value_of_keeps s s' r : keeps s s' -> value_of (db_disk s') r = value_of (db_disk s) r.
Proof. intros (_ & _ & _ & Hd & _). unfold value_of, blob_bytes. by rewrite Hd. Qed.

(** One more record in the log, and its effect on the indexes. *)
Lemma Inv_append s s1 s' log r t :
  Inv s log -> rec_good r -> s1 = append_state r t s ->
  match r_Blob r with Some b => blob_ref_ok s b | None => True end ->
  only_indexes s1 s' -> idx_inv s' ->
  agree (lidx (log ++ [r])) (live s') ->
  Inv s' (log ++ [r]) /\ keeps s s'.
Proof.
  intros (Hm & Hs & Hg & Ha & Hi & Hb) Hr -> Hbr Honly Hi' Ha'.
  assert (Hkeep : keeps s s') by (eapply keeps_trans; [apply keeps_append|by apply keeps_indexes]).
  split; [|done]. destruct Honly as (p & m & t' & -> & Hdecl).
  assert (Hb' : blob_inv s (log ++ [r])).
  { destruct Hb as (? & ? & ? & HF). split_and!; try done. apply Forall_app. split; [done|]. by constructor. }
  unfold Inv. split_and!; [..|done|done|done].
  - cbn. unfold main_bytes. rewrite Hm. cbn. by rewrite enc_snoc.
  - cbn. by rewrite Hs, enc_snoc, zlen_app.
  - apply Forall_app. split; [done|]. by constructor.
Qed.

Lemma Inv_tick s log t : Inv s log -> Inv (set_tick t s) log.
Proof. done. Qed.

(** [deleteLocked] appends a tombstone and forgets the key, or does nothing. *)
Lemma deleteLocked_clean s log key res s' : clean_faults E -> Inv s log -> rec_good (tombstone key) ->
  deleteLocked key s = (res, s') ->
  (res = Ok tt /\ Inv s' (log ++ [tombstone key]) /\ live s' = delete key (live s) /\ keeps s s')
  \/ (failed E res /\ exists t, s' = set_tick t s).
Proof.
  intros Hc HI Hr. pose proof HI as (Hm & Hs & Hg & Ha & Hi & Hb).
  unfold deleteLocked, main_append. unfold mbnd at 1 2. cbn [mget].
  destruct (appendSync _ _ s) as [r1 s1] eqn:Happ.
  destruct (appendSync_clean _ _ _ _ _ _ Hc Hr Hm Happ) as [(t & -> & ->)|(t & [-> Hf] & ->)].
  - destruct (del_index (append_state (tombstone key) t s) key Hi) as (s2 & Hd & Honly & Hi2 & Hl2).
    unfold mbnd in Hd |- *. destruct (retractSec key (append_state (tombstone key) t s)) as [[[]|] s3]; [|done].
    unfold mmodify in *. injection Hd as <-. intros [= <- <-]. left. split; [done|].
    destruct (Inv_append s _ _ log (tombstone key) t HI Hr eq_refl I Honly Hi2) as [HI2 Hkeep].
    + rewrite Hl2, lidx_snoc. by apply agree_delete.
    + split; [exact HI2|]. split; [exact Hl2|exact Hkeep].
  - intros [= <- <-]. right. by split; [|eauto].
Qed.

(** ** Blobs are only appended *)

(** As [keeps], with blob files that may have grown. *)
Definition grows s s' : Prop :=
  db_opts s' = db_opts s /\ db_curGen s' = db_curGen s /\ decl_of <$> db_sec s' = decl_of <$> db_sec s
  /\ db_closed s' = db_closed s
  /\ (forall g, blob_bytes (db_disk s) g `prefix_of` blob_bytes (db_disk s') g)
  /\ (forall g, is_Some (db_blobs s !! g) -> is_Some (db_blobs s' !! g)).

Lemma keeps_grows s s' : keeps s s' -> grows s s'.
Proof.
  intros (Ho & Hb & Hg & Hd & Hs & Hc). unfold grows, blob_bytes. rewrite Hb, Hd. by split_and!.
Qed.

(** What every operation leaves alone but [Close]. *)
Definition same_decl s s' : Prop :=
  db_opts s' = db_opts s /\ decl_of <$> db_sec s' = decl_of <$> db_sec s /\ db_closed s' = db_closed s.

Lemma grows_decl s s' : grows s s' -> same_decl s s'.
Proof. by intros (? & _ & ? & ? & _). Qed.

Lemma grows_refl s : grows s s.
Proof. apply keeps_grows, keeps_refl. Qed.

Lemma grows_trans s1 s2 s3 : grows s1 s2 -> grows s2 s3 -> grows s1 s3.
Proof.
  intros (Ho & Hg & Hs & Hc & Hp & Hd) (Ho' & Hg' & Hs' & Hc' & Hp' & Hd'). unfold grows.
  rewrite Ho', Hg', Hs', Hc'. split_and!; try done; [|auto].
  intros g. etrans; [apply Hp|apply Hp'].
Qed.

Lemma blob_ref_grows s s' b : grows s s' -> blob_ref_ok s b -> blob_ref_ok s' b.
Proof.
  intros (_ & _ & _ & _ & Hp & Hd) (H1 & H2 & H3 & H4 & H5). unfold blob_ref_ok. split_and!; try done; [|auto].
  pose proof (prefix_length _ _ (Hp (br_Gen b))). unfold zlen in *. lia.
Qed.

Lemma value_of_grows s s' r : grows s s' ->
  match r_Blob r with Some b => blob_ref_ok s b | None => True end ->
  value_of (db_disk s') r = value_of (db_disk s) r.
Proof.
  intros (_ & _ & _ & _ & Hp & _) Hb. unfold value_of. destruct (r_Blob r) as [b|]; [|done].
  destruct Hb as (H1 & H2 & H3 & _). destruct (Hp (br_Gen b)) as [k ->]. unfold zlen in H3.
  rewrite drop_app_le by lia. rewrite take_app_le; [done|]. rewrite length_drop. lia.
Qed.

Definition blob_state (gen off : Z) (value : gostring) (t : nat) s : DB :=
  set_tick t (set_blobs (<[gen := off + zlen value]> (db_blobs s)) (blob_put gen value s)).

Lemma blob_put_nil s gen f : d_blobs (db_disk s) !! gen = Some f -> blob_put gen [] s = s.
Proof.
  intros Hf. unfold blob_put, set_disk, set_d_blobs, blob_bytes. rewrite app_nil_r.
  rewrite Hf. cbn. rewrite insert_id by done. destruct s as [o [m h me b] sz ep bl cg p m' w c pr dr rp hg inf t]. done.
Qed.

Lemma blob_append_clean gen value off s res s' : clean_faults E -> db_blobs s !! gen = Some off ->
  is_Some (d_blobs (db_disk s) !! gen) -> blob_append gen value s = (res, s') ->
  (exists t, res = Ok (BlobRef off (wrap32 (zlen value)) 0) /\ s' = blob_state gen off value t s)
  \/ (exists t, failed E res /\ s' = set_tick t s).
Proof.
  intros [Hw _] Hoff [f Hf]. unfold blob_append. unfold mbnd at 1. cbn [mget]. rewrite Hoff.
  unfold append_file, tick. unfold mbnd at 1 2. unfold mbnd at 1. destruct (Hw (db_tick s)) as [->|Hk]; [|rewrite Hk].
  - unfold mmodify at 1. cbn. intros [= <- <-]. left. eexists. split; [done|]. unfold blob_state. by destruct s.
  - cbn. intros [= <- <-]. right. eexists. split; [split; [done|exists (db_tick s); by rewrite Hk]|]. by rewrite blob_put_nil with (f := f).
Qed.

Lemma blob_bytes_put s gen value g :
  blob_bytes (db_disk (blob_put gen value s)) g
  = if decide (g = gen) then blob_bytes (db_disk s) gen ++ value else blob_bytes (db_disk s) g.
Proof.
  unfold blob_put, set_disk, set_d_blobs. cbn. unfold blob_bytes. cbn. case_decide as Hg.
  - subst g. by rewrite lookup_insert_eq.
  - by rewrite lookup_insert_ne.
Qed.

Lemma blob_state_grows gen off value t s : is_Some (db_blobs s !! gen) -> grows s (blob_state gen off value t s).
Proof.
  intros Hg. split_and!; try done.
  - intros g. change (db_disk (blob_state gen off value t s)) with (db_disk (blob_put gen value s)).
    rewrite blob_bytes_put. case_decide as Hd; [subst; by apply prefix_app_r|done].
  - intros g Hs. cbn. destruct (decide (g = gen)) as [->|Hne]; [rewrite lookup_insert_eq; eauto|by rewrite lookup_insert_ne].
Qed.

Lemma Inv_blob_state s log off value t : Inv s log -> db_blobs s !! db_curGen s = Some off ->
  Inv (blob_state (db_curGen s) off value t s) log
  /\ off = zlen (blob_bytes (db_disk s) (db_curGen s)).
Proof.
  intros (Hm & Hs & Hg & Ha & Hi & (Hb1 & Hb2 & Hb3 & Hb4)) Hoff.
  destruct (Hb1 _ _ Hoff) as [Hex Hsz]. split; [|done]. set (s' := blob_state (db_curGen s) off value t s).
  assert (Hgr : grows s s') by (apply blob_state_grows; eauto).
  unfold Inv. split_and!; try done. split_and!; [|..|done|].
  - intros g sz. change (db_disk s') with (db_disk (blob_put (db_curGen s) value s)). rewrite blob_bytes_put.
    change (db_blobs s') with (<[db_curGen s := off + zlen value]> (db_blobs s)).
    intros [[<- <-]|[Hne H]]%lookup_insert_Some.
    + rewrite decide_True, zlen_app by done. split; [|by rewrite <- Hsz]. cbn. rewrite lookup_insert_eq. eauto.
    + rewrite decide_False by done. destruct (Hb1 g sz H) as [? ?]. split; [|done]. cbn. by rewrite lookup_insert_ne.
  - cbn. rewrite lookup_insert_eq. eauto.
  - eapply Forall_impl; [exact Hb4|]. intros r Hr. cbn in Hr |- *.
    destruct (r_Blob r); [by eapply blob_ref_grows|done].
Qed.

(** ** Appending a value *)

(** The record [appendRecord] writes: large values go to the blob file. *)
Definition rec_of s (key value : gostring) (ix : IndexValues) (exp : Z) (counter : bool) : record :=
  if negb counter && useBlobFor (db_opts s) (zlen value)
  then MkRecord key [] [] (Some (BlobRef (default 0 (db_blobs s !! db_curGen s)) (zlen value) (db_curGen s))) false ix false exp
  else MkRecord key [] value None false ix counter exp.

(** The sizes of the record stay in the range of the fields that hold them. *)
Definition write_fits s (key value : gostring) (ix : IndexValues) (exp : Z) (counter : bool) : Prop :=
  rec_good (rec_of s key value ix exp counter)
  /\ match r_Blob (rec_of s key value ix exp counter) with
     | Some b => br_Off b + br_Size b <= MaxInt64
     | None => True
     end.

(** The index side of an append. *)
Lemma Inv_put s log r t : Inv s log -> rec_good r -> r_Deleted r = false ->
  match r_Blob r with Some b => blob_ref_ok s b | None => True end ->
  exists s', (mmodify (fun s1 => set_pk (pk_upsert (db_pk s1) (PkEntry (r_Key r) (db_size s) (zlen (enc_line r)) ∅ (r_Exp r))) s1) ;;;
              refreshSec (r_Key r) (r_IX r)) (append_state r t s) = (Ok tt, s')
    /\ Inv s' (log ++ [r]) /\ keeps s s'
    /\ live s' = <[r_Key r := PkEntry (r_Key r) (db_size s) (zlen (enc_line r)) (r_IX r) (r_Exp r)]> (live s).
Proof.
  intros HI Hr Hdel Hb. pose proof HI as (Hm & Hs & Hg & Ha & Hi & _).
  assert (Hnn : ix_nn (r_IX r)) by (apply ix_ok_nn; apply Hr).
  destruct (put_index (append_state r t s) (r_Key r) (db_size s) (zlen (enc_line r)) (r_IX r) (r_Exp r) Hi Hnn)
    as (s' & Hrun & Honly & Hi' & Hl). exists s'. split; [exact Hrun|].
  change (live (append_state r t s)) with (live s) in Hl.
  destruct (Inv_append s _ s' log r t HI Hr eq_refl Hb Honly Hi') as [HI' Hkeep].
  - rewrite Hl, lidx_snoc. unfold apply_rec, isTombstone. rewrite Hdel, Hs.
    apply agree_insert; [done|]. repeat split; [done|]. by exists 0%nat.
  - done.
Qed.

(** What an append of [r] for [value] may do to [s]. *)
Definition append_outcome s log (r : record) (value : gostring) (res : res unit) s' : Prop :=
  (res = Ok tt /\ Inv s' (log ++ [r]) /\ grows s s' /\ value_of (db_disk s') r = value
   /\ live s' = <[r_Key r := PkEntry (r_Key r) (db_size s) (zlen (enc_line r)) (r_IX r) (r_Exp r)]> (live s))
  \/ (failed E res /\ Inv s' log /\ grows s s' /\ live s' = live s).

(** The main-log part of [appendRecord], from the state [s1] after the blob. *)
Lemma append_main s s1 log r value durable res s' :
  clean_faults E -> Inv s1 log -> grows s s1 -> live s1 = live s -> db_size s1 = db_size s ->
  rec_good r -> r_Deleted r = false ->
  match r_Blob r with Some b => blob_ref_ok s1 b | None => True end -> value_of (db_disk s1) r = value ->
  (on <- appendSync r durable ;;
   mmodify (fun s => set_pk (pk_upsert (db_pk s) (PkEntry (r_Key r) on.1 on.2 ∅ (r_Exp r))) s) ;;;
   refreshSec (r_Key r) (r_IX r)) s1 = (res, s') ->
  append_outcome s log r value res s'.
Proof.
  intros Hc HI1 Hg1 Hl1 Hs1 Hr Hdel Hb1 Hv1. unfold mbnd at 1.
  destruct (appendSync r durable s1) as [r1 s2] eqn:Happ.
  destruct (appendSync_clean _ _ s1 _ _ _ Hc Hr (proj1 HI1) Happ) as [(t & -> & ->)|(t & [-> Hf] & ->)].
  - destruct (Inv_put s1 log r t HI1 Hr Hdel Hb1) as (s3 & Hp & HI3 & Hk3 & Hl3).
    intros Hrun. pose proof (eq_trans (eq_sym Hp) Hrun) as Heq. injection Heq as <- <-. left.
    pose proof (keeps_grows _ _ Hk3) as Hg3. split_and!; try done.
    + by eapply grows_trans.
    + by rewrite (value_of_keeps s1 s3).
    + by rewrite Hl3, Hl1, Hs1.
  - intros [= <- <-]. right. by split_and!.
Qed.

(** [appendRecord] adds its record to the log and stores the entry, or fails
    with at most an unreferenced blob left behind. *)
Lemma appendRecord_clean s log key value ix exp durable counter res s' :
  clean_faults E -> Inv s log -> write_fits s key value ix exp counter ->
  appendRecord key value ix exp durable counter s = (res, s') ->
  append_outcome s log (rec_of s key value ix exp counter) value res s'.
Proof.
  intros Hc HI (Hr & Hmax). unfold appendRecord. unfold mbnd at 1. cbn [mget]. unfold rec_of in *.
  destruct (negb counter && useBlobFor (db_opts s) (zlen value)) eqn:Hub; last first.
  { unfold mbnd at 1. cbn [mok]. intros Hrun. apply (append_main s s) with (durable := durable); done. }
  pose proof HI as (_ & _ & _ & _ & _ & (Hb1 & [off Hoff] & Hb3 & Hb4)).
  rewrite Hoff in *. cbn [default] in *. unfold mbnd at 1. unfold mbnd at 1.
  destruct (blob_append (db_curGen s) value s) as [rb sb] eqn:Hba.
  destruct (blob_append_clean _ _ off _ _ _ Hc Hoff (proj1 (Hb1 _ _ Hoff)) Hba) as [(t & -> & ->)|(t & [-> Hf] & ->)].
  - destruct (Inv_blob_state s log off value (S t) HI Hoff) as [HIb Hsz].
    assert (Hgb : grows s (blob_state (db_curGen s) off value (S t) s)) by (apply blob_state_grows; eauto).
    unfold mbnd at 1. unfold blob_flush. rewrite fsync_clean by done. cbn [mok br_Off br_Size].
    assert (Hwrap : wrap32 (zlen value) = zlen value).
    { apply wrap32_id. destruct Hr as [(_ & _ & _ & Hbo & _) _]. by destruct Hbo as (_ & ? & _). }
    assert (Hbytes : blob_bytes (db_disk (blob_state (db_curGen s) off value (S t) s)) (db_curGen s)
                     = blob_bytes (db_disk s) (db_curGen s) ++ value).
    { change (db_disk (blob_state (db_curGen s) off value (S t) s)) with (db_disk (blob_put (db_curGen s) value s)).
      by rewrite blob_bytes_put, decide_True. }
    rewrite Hwrap. intros Hrun.
    apply (append_main s (blob_state (db_curGen s) off value (S t) s)) with (durable := durable); try done.
    + pose proof (zlen_nonneg value). pose proof (zlen_nonneg (blob_bytes (db_disk s) (db_curGen s))).
      cbn [r_Blob br_Off br_Size] in Hmax |- *. unfold blob_ref_ok. cbn [br_Off br_Size br_Gen].
      rewrite Hbytes, zlen_app. unfold id in *. split_and!; [lia..|]. cbn. rewrite lookup_insert_eq. eauto.
    + unfold value_of. cbn [r_Blob br_Off br_Size br_Gen]. unfold id. rewrite Hbytes, Hsz. unfold zlen. rewrite !Nat2Z.id.
      rewrite drop_app_length. by rewrite take_ge.
  - intros [= <- <-]. right. by split_and!.
Qed.
End steps.
