(* ===== verification/Ops.v ===== *)
(** * The store's operations (db.go, ttl.go, counter.go, rangedel.go, secindex.go)

    One definition per exported method and per internal step.  Methods that
    take the write lock are atomic here: the mutex serialises them, and the
    gate of a running compaction only delays them. *)

From S2P Require Import Prelude Floats Types Counter Json Record CounterPatch BTree PkIndex SecIndex Hint Store.
#[local] Open Scope Z_scope.

Section ops.
Context {BT : BTreeG} {E : Env}.
#[local] Notation MD := (M DB).

(** ** Time to live *)

Definition millisecond : Z := 1000000.      (* time.Millisecond, in nanoseconds *)

(** [resolveTTL]: the durations are [int64] nanoseconds; [Milliseconds]
    truncates toward zero, and the sum wraps. *)
Definition resolveTTL (ttl : list Z) : MD Z :=
  match ttl with
  | [] => mok 0
  | [d] => if d <=? 0 then merr ErrInvalidTTL
           else now <- nowMillis ;; mok (wrap64 (now + Z.quot d millisecond))
  | _ => merr ErrInvalidTTL
  end.

Definition check_open : MD unit := s <- mget ;; if db_closed s then merr ErrClosed else mok tt.

Lemma open_bnd {A} (k : unit -> MD A) s : db_closed s = false -> (check_open ;;; k tt) s = k tt s.
Proof. intros H. unfold check_open, mbnd, mget. by rewrite H. Qed.

Lemma closed_bnd {A} (k : unit -> MD A) s : db_closed s = true -> (check_open ;;; k tt) s = (Err ErrClosed, s).
Proof. intros H. unfold check_open, mbnd, mget. by rewrite H. Qed.

(** ** Hints *)

(** [writeIndexHint]: temp file, sync, close, rename; a failure leaves the
    old hint. *)
Definition writeIndexHint (es : list pkEntry) (covers : Z) : MD unit :=
  fs_call ;;;                                  (* os.Create *)
  match hint_text es covers with
  | None => merr EMarshal
  | Some text =>
      fs_call ;;;                              (* Flush *)
      fsync ;;;
      fs_call ;;;                              (* Close *)
      fs_call ;;;                              (* Rename *)
      mmodify (set_disk (set_d_hint (Some text)))
  end.

Definition writeHint : MD unit :=
  mmodify (fun s => set_hint (db_hintGen s + 1) (db_inflight s) s) ;;;
  s <- mget ;;
  (match db_blobs s !! db_curGen s with Some _ => blob_flush | None => mok tt end) ;;;
  main_flush ;;;
  writeIndexHint (pk_scan (db_pk s)) (db_size s) ;;;
  mmodify (set_writes 0).

(** [writeHintAsync], the background writer: it works on its snapshot, gives up
    when the handles it was given are closed, and never replaces the hint of a
    later checkpoint. *)
Definition writeHintAsync : MD unit :=
  s <- mget ;;
  match db_inflight s with
  | None => mok tt
  | Some snap =>
      mtry (
        (match sn_blobs snap with
         | None => mok tt
         | Some g => match db_blobs s !! g with Some _ => blob_flush | None => merr EIO end
         end) ;;;
        (if sn_main snap =? db_epoch s then main_flush else merr EIO) ;;;
        if sn_gen snap =? db_hintGen s then writeIndexHint (pk_scan (sn_pk snap)) (sn_covers snap)
        else mok tt) ;;;
      mmodify (fun s => set_hint (db_hintGen s) None s)
  end.

(** ** Writing and deleting *)

Definition Put (key value : gostring) (ttl : list Z) : MD unit :=
  exp <- resolveTTL ttl ;; check_open ;;; write key value ∅ exp.

Definition PutIndexed (key value : gostring) (idx : IndexValues) (ttl : list Z) : MD unit :=
  exp <- resolveTTL ttl ;; check_open ;;; write key value idx exp.

Definition Delete (key : gostring) : MD unit :=
  check_open ;;;
  s <- mget ;;
  match pk_get (db_pk s) key with
  | None => mok tt
  | Some _ => deleteLocked key ;;; maybeWriteHint
  end.

(** ** Reading *)

(** The capacity of the reaper's queue; a full queue drops the request. *)
Definition reapCap : Z := 1024.

Definition reapAsync (e : pkEntry) : MD unit :=
  mmodify (fun s => if zlen (db_reap s) <? reapCap
                    then set_reap (db_reap s ++ [ReapReq (e_key e) (e_off e)]) s else s).

Definition pkGetLive (key : gostring) : MD (option pkEntry) :=
  s <- mget ;;
  match pk_get (db_pk s) key with
  | None => mok None
  | Some e =>
      now <- nowMillis ;;
      if expiredAt e now then reapAsync e ;;; mok None else mok (Some e)
  end.

(** The value of a located record: from its blob, or inline. *)
Definition readValue (s : DB) (e : pkEntry) : res gostring :=
  res_bind (readRecord s e) (fun rec =>
  match r_Blob rec with
  | Some ref => blobReadAt s ref
  | None => Ok (r_Value rec)
  end).

(** [Get]: [None] when the key is absent. *)
Definition Get (key : gostring) : MD (option gostring) :=
  check_open ;;;
  oe <- pkGetLive key ;;
  match oe with
  | None => mok None
  | Some e => s <- mget ;; v <- mres (readValue s e) ;; mok (Some v)
  end.

(** [GetMany]: one result per key, in order; the first error ends the call. *)
Fixpoint get_many (keys : list gostring) : MD (list (option gostring)) :=
  match keys with
  | [] => mok []
  | key :: keys' =>
      oe <- pkGetLive key ;;
      v <- (match oe with
            | None => mok None
            | Some e => s <- mget ;; v <- mres (readValue s e) ;; mok (Some v)
            end) ;;
      rest <- get_many keys' ;;
      mok (v :: rest)
  end.

Definition GetMany (keys : list gostring) : MD (list (option gostring)) := check_open ;;; get_many keys.

(** [Has] answers false on a closed store. *)
Definition Has (key : gostring) : MD bool :=
  s <- mget ;;
  if db_closed s then mok false
  else oe <- pkGetLive key ;; mok (match oe with Some _ => true | None => false end).

(** [PrefixScan]: one reading of the clock for all entries. *)
Fixpoint live_keys (now : Z) (es : list pkEntry) : MD (list gostring) :=
  match es with
  | [] => mok []
  | e :: es' =>
      if expiredAt e now then reapAsync e ;;; live_keys now es'
      else ks <- live_keys now es' ;; mok (e_key e :: ks)
  end.

Definition PrefixScan (p : gostring) : MD (list gostring) :=
  check_open ;;;
  s <- mget ;;
  let es := pk_prefix (db_pk s) p in
  now <- nowMillis ;;
  live_keys now es.

Record Stats := mkStats { st_Records : Z; st_MainBytes : Z; st_BlobBytes : Z }.

Definition sum_sizes (m : gmap Z Z) : Z := map_fold (fun _ n acc => n + acc) 0 m.

Definition getStats (s : DB) : Stats :=
  if db_closed s then mkStats 0 0 0
  else mkStats (pk_len (db_pk s)) (db_size s) (sum_sizes (db_blobs s)).

Definition LiveBytes (s : DB) : Z :=
  if db_closed s then 0 else fold_left (fun n e => n + e_n e) (pk_scan (db_pk s)) 0.

(** ** The lazy reaper *)

(** The loop of [reapBatch]: [true] when something was deleted; an I/O error
    ends the whole batch. *)
Fixpoint reap_loop (now : Z) (batch : list reapReq) (reaped : bool) : MD bool :=
  match batch with
  | [] => mok reaped
  | r :: batch' =>
      s <- mget ;;
      match pk_get (db_pk s) (rq_key r) with
      | None => reap_loop now batch' reaped
      | Some e =>
          if negb (e_off e =? rq_off r) then reap_loop now batch' reaped
          else if negb (expiredAt e now) then reap_loop now batch' reaped
          else deleteLocked (rq_key r) ;;; reap_loop now batch' true
      end
  end.

Definition reapBatch (batch : list reapReq) : MD unit :=
  s <- mget ;;
  if db_closed s then mok tt
  else
    now <- nowMillis ;;
    r <- mtry (reap_loop now batch false) ;;
    match r with
    | Err _ => mok tt
    | Ok reaped =>
        if negb reaped then mok tt
        else
          (if o_SyncEveryWrite (db_opts s) then mtry main_flush ;;; mok tt else mok tt) ;;;
          maybeWriteHint
    end.

(** One cycle of [reapLoop]: drain at most 64 queued requests. *)
Definition reapCycle : MD unit :=
  s <- mget ;;
  match db_reap s with
  | [] => mok tt
  | q => mmodify (set_reap (drop 64 q)) ;;; reapBatch (take 64 q)
  end.

(** ** Counters *)

Definition incrAppend (key : gostring) (v exp : Z) : MD unit :=
  s <- mget ;;
  appendRecord key (formatCounter v) ∅ exp (o_SyncEveryWrite (db_opts s)) true ;;;
  mmodify (fun s => set_writes (db_writes s + 1) s) ;;;
  maybeWriteHint.

(** [WriteAt] on the patcher: the bytes that reach the file replace those at
    the offset (the file reaches at least that far). *)
Definition patch_at (off : Z) (data : gostring) : MD unit :=
  n <- tick ;;
  let put (d : gostring) := mmodify (set_disk (fun dk => set_d_main (Some (splice (Z.to_nat off) d (main_bytes dk))) dk)) in
  match env_write n with
  | None => put data
  | Some k => put (take k data) ;;; merr EIO
  end.

(** Where the value of a counter lies in its line, when the line the record
    marshals to has the length the index has for it. *)
Definition counter_slot (rec : record) (e : pkEntry) : option Z :=
  match marshalRecord rec with
  | None => None
  | Some line =>
      if wrap32 (zlen line) + 1 =? e_n e then
        match bytes_index line (counter_pat (r_Value rec)) with
        | Some idx => Some (e_off e + Z.of_nat idx + 5)
        | None => None
        end
      else None
  end.

(** [counterUpdate]: the step gets the current value and answers the next one
    and whether it applies; [X] is the type of a variable its closure
    assigns. *)
Definition counterUpdate {X} (key : gostring) (createExp : Z) (step : Z -> X * res (Z * bool)) : MD (X * Z * bool) :=
  s <- mget ;;
  let create :=
    let '(x, r) := step 0 in
    na <- mres r ;;
    if na.2 then incrAppend key na.1 createExp ;;; mok (x, na.1, true) else mok (x, na.1, false) in
  match pk_get (db_pk s) key with
  | None => create
  | Some e =>
      now <- nowMillis ;;
      if expiredAt e now then deleteLocked key ;;; create
      else
        s <- mget ;;
        rec <- mres (readRecord s e) ;;
        if (match r_Blob rec with Some _ => true | None => false end) || negb (r_Counter rec) then merr ErrNotCounter
        else match parseCounter (r_Value rec) with
             | None => merr ErrNotCounter
             | Some cur =>
                 let '(x, r) := step cur in
                 na <- mres r ;;
                 if negb na.2 then mok (x, na.1, false)
                 else match (if decide (e_ix e = ∅) then counter_slot rec e else None) with
                      | Some off =>
                          patch_at off (formatCounter na.1) ;;;
                          (if o_SyncEveryWrite (db_opts s) then fsync else mok tt) ;;;
                          mok (x, na.1, true)
                      | None => incrAppend key na.1 (e_exp e) ;;; mok (x, na.1, true)
                      end
             end
  end.

Definition Incr (key : gostring) (delta : Z) (ttl : list Z) : MD Z :=
  createExp <- resolveTTL ttl ;;
  check_open ;;;
  r <- counterUpdate key createExp (fun cur => (tt, incr_step delta cur)) ;;
  mok r.1.2.

Definition Topup (key : gostring) (amount max : Z) (ttl : list Z) : MD Z :=
  if amount <? 0 then merr ErrNegativeAmount
  else
    createExp <- resolveTTL ttl ;;
    check_open ;;;
    r <- counterUpdate key createExp (fun cur => (topup_overflow amount max cur, topup_step amount max cur)) ;;
    mok r.1.1.

Definition Take (key : gostring) (amount left : Z) (ttl : list Z) : MD bool :=
  if amount <? 0 then merr ErrNegativeAmount
  else
    createExp <- resolveTTL ttl ;;
    check_open ;;;
    r <- counterUpdate key createExp (fun cur => (tt, take_step amount left cur)) ;;
    mok r.2.

(** ** Range deletes *)

Definition removePkEntries (doomed : list pkEntry) : MD Z :=
  match doomed with
  | [] => mok 0
  | _ =>
      mfor (fun e => main_append (tombstone (e_key e)) ;;; mok tt) doomed ;;;
      let doomedSet : gset gostring := list_to_set (e_key <$> doomed) in
      mmodify (fun s => set_sec ((fun si => removePKs si doomedSet) <$> db_sec s) s) ;;;
      mmodify (fun s => set_pk (fold_left (fun t e => (pk_remove t (e_key e)).2) doomed (db_pk s)) s) ;;;
      mmodify (fun s => set_writes (db_writes s + zlen doomed) s) ;;;
      writeHint ;;;
      mok (zlen doomed)
  end.

Definition RemoveByPkLess (cutoff : gostring) : MD Z :=
  check_open ;;;
  s <- mget ;;
  removePkEntries (take_while (fun e => str_ltb (e_key e) cutoff) (pk_scan (db_pk s))).

Definition RemoveByPkGreater (cutoff : gostring) : MD Z :=
  check_open ;;;
  s <- mget ;;
  removePkEntries (filter (fun e => str_ltb cutoff (e_key e) = true) (pk_ascendFrom (db_pk s) cutoff)).

(** ** Index queries *)

Definition with_index {A} (name : gostring) (f : secIndex -> res A) : MD A :=
  check_open ;;;
  s <- mget ;;
  match db_sec s !! name with
  | None => merr (EUnknownIndex name)
  | Some si => mres (f si)
  end.

(** The optional limit: 0 when omitted, further ones ignored. *)
Definition opt_limit (limit : list Z) : Z := match limit with n :: _ => n | [] => 0 end.

Definition ByIndex (name : gostring) (val : any) (limit : list Z) : MD (list gostring) :=
  with_index name (fun si => exact si val (opt_limit limit)).

Definition ByIndexHas (name : gostring) (val : any) : MD bool :=
  with_index name (fun si => exists_ si val).

Definition ByIndexPrefix (name p : gostring) (limit : list Z) : MD (list gostring) :=
  with_index name (fun si => prefix si p (opt_limit limit)).

Definition ByIndexRange (name : gostring) (lo hi : any) : MD (list gostring) :=
  with_index name (fun si => rangeQuery si lo hi).

(** ** Closing *)

(** [Close]: a final hint, then every handle; a second call is a no-op.  The
    first error is returned, and the store is closed all the same. *)
Definition Close : MD unit :=
  s <- mget ;;
  if db_closed s then mok tt
  else
    mmodify (set_closed true) ;;;
    writeHintAsync ;;;                       (* hintWG.Wait *)
    e1 <- mtry writeHint ;;
    e2 <- mtry fs_call ;;                    (* the handles on main.jsonl *)
    e3 <- mtry fs_call ;;                    (* the blob stores *)
    e4 <- mtry fs_call ;;                    (* the lock *)
    match e1, e2, e3, e4 with
    | Err e, _, _, _ => merr e
    | _, Err e, _, _ => merr e
    | _, _, Err e, _ => merr e
    | _, _, _, Err e => merr e
    | _, _, _, _ => mok tt
    end.
End ops.
