(* ===== verification/Contents.v ===== *)
(** * What a store contains

    [contents] is the abstract view of a store: the map from keys to values a
    reader could see, whatever their expiry.  Under the invariant every live
    record can be read, and the steps of the write path change the contents as
    a map would change. *)

From S2P Require Import Prelude Floats Types Json Record BTree PkIndex SecIndex Hint Store SecMaint IndexStep LogSpec Invariant Ops.
#[local] Open Scope Z_scope.

Section contents.
Context {BT : BTreeG}.
Implicit Types (s : DB) (log : list record).

Definition read_opt s (e : pkEntry) : option gostring :=
  match readValue s e with Ok v => Some v | Err _ => None end.

Definition contents s : gmap gostring gostring := omap (read_opt s) (live s).

Lemma blobReadAt_ok s b : blob_ref_ok s b ->
  blobReadAt s b = Ok (take (Z.to_nat (br_Size b)) (drop (Z.to_nat (br_Off b)) (blob_bytes (db_disk s) (br_Gen b)))).
Proof.
  intros (H1 & H2 & H3 & _ & [sz Hsz]). unfold blobReadAt, read_at. rewrite Hsz.
  by rewrite (proj2 (Z.ltb_ge _ _) H2), (proj2 (Z.ltb_ge _ _) H1), (proj2 (Z.ltb_ge _ _) H3).
Qed.

(** What else a record says about its key: the expiry, and whether it is a
    counter's (which are never in a blob). *)
Definition is_counter (r : record) : bool := r_Counter r && match r_Blob r with None => true | Some _ => false end.

Definition tag_of s (e : pkEntry) : option (Z * bool) :=
  match readRecord s e with Ok r => Some (e_exp e, is_counter r) | Err _ => None end.

Definition tags s : gmap gostring (Z * bool) := omap (tag_of s) (live s).

Definition dated s : gmap gostring (gostring * (Z * bool)) := map_zip (contents s) (tags s).

(** Every live record can be read. *)
Lemma readValue_live s log k x e : Inv s log -> lidx log !! k = Some x -> entry_for x e ->
  readValue s e = Ok (value_of (db_disk s) x.2).
Proof.
  intros HI Hl He. destruct x as [off r]. destruct He as (_ & Ho & Hn & _).
  pose proof (Inv_main s log HI) as Hm. destruct HI as (_ & _ & Hg & _ & _ & (_ & _ & _ & Hb)).
  unfold readValue. rewrite (readRecord_log s log k off r e Hm Hg Hl Ho Hn). cbn [res_bind norm_record with_ix r_Blob r_Value snd].
  unfold value_of. apply lidx_elem in Hl as [Hin _]. rewrite Forall_forall in Hb. specialize (Hb r Hin).
  destruct (r_Blob r) as [b|]; [by apply blobReadAt_ok|done].
Qed.

Lemma contents_lookup s log k : Inv s log ->
  contents s !! k = (fun x => value_of (db_disk s) x.2) <$> lidx log !! k.
Proof.
  intros HI. unfold contents. rewrite lookup_omap. pose proof HI as (_ & _ & _ & Ha & _).
  destruct (live s !! k) as [e|] eqn:He.
  - destruct (agree_Some_r _ _ _ _ Ha He) as (x & Hx & Hxe). rewrite Hx. simpl. unfold read_opt.
    by rewrite (readValue_live s log k x e).
  - destruct (lidx log !! k) as [x|] eqn:Hx; [|done]. destruct (agree_Some_l _ _ _ _ Ha Hx) as (e & He' & _). congruence.
Qed.

Lemma contents_dom s log k : Inv s log -> is_Some (contents s !! k) <-> is_Some (live s !! k).
Proof.
  intros HI. pose proof HI as (_ & _ & _ & Ha & _). rewrite (contents_lookup s log) by done.
  rewrite fmap_is_Some. by apply agree_dom.
Qed.

Definition rec_tag (x : Z * record) : Z * bool := (r_Exp x.2, is_counter x.2).

Lemma tags_lookup s log k : Inv s log -> tags s !! k = rec_tag <$> lidx log !! k.
Proof.
  intros HI. unfold tags. rewrite lookup_omap. pose proof (Inv_main s log HI) as Hm. pose proof HI as (_ & _ & Hg & Ha & _).
  destruct (live s !! k) as [e|] eqn:He.
  - destruct (agree_Some_r _ _ _ _ Ha He) as ([off r] & Hx & Hxe). rewrite Hx. simpl. unfold tag_of.
    destruct Hxe as (_ & Ho & Hn & Hxp & _). cbn [fst snd] in *. by rewrite (readRecord_log s log k off r e Hm Hg Hx Ho Hn), Hxp.
  - destruct (lidx log !! k) as [x|] eqn:Hx; [|done]. destruct (agree_Some_l _ _ _ _ Ha Hx) as (e & He' & _). congruence.
Qed.

Lemma tags_exp s log k : Inv s log -> fst <$> tags s !! k = e_exp <$> live s !! k.
Proof.
  intros HI. rewrite (tags_lookup s log k HI). pose proof HI as (_ & _ & _ & Ha & _). specialize (Ha k).
  destruct (lidx log !! k) as [x|]; inversion Ha as [? e He|]; [|done]. cbn. by destruct He as (_ & _ & _ & -> & _).
Qed.

Lemma tags_dom s log k : Inv s log -> is_Some (tags s !! k) <-> is_Some (live s !! k).
Proof. intros HI. pose proof (tags_exp s log k HI) as H. by rewrite <- (fmap_is_Some fst), H, fmap_is_Some. Qed.

(** States whose logs denote the same index, with grown blob files. *)
Lemma contents_same s s' log log' : Inv s log -> Inv s' log' -> grows s s' -> lidx log' = lidx log ->
  contents s' = contents s.
Proof.
  intros HI HI' Hg Hl. apply map_eq. intros k. rewrite (contents_lookup s log), (contents_lookup s' log'), Hl by done.
  destruct (lidx log !! k) as [[off r]|] eqn:Hk; [|done]. simpl. f_equal. apply value_of_grows; [done|].
  destruct HI as (_ & _ & _ & _ & _ & (_ & _ & _ & Hb)). rewrite Forall_forall in Hb.
  apply Hb. by apply lidx_elem in Hk as [? _].
Qed.

Lemma contents_delete s s' log key : Inv s log -> Inv s' (log ++ [tombstone key]) -> grows s s' ->
  contents s' = delete key (contents s).
Proof.
  intros HI HI' Hg. apply map_eq. intros k. rewrite (contents_lookup s' _ k HI'), lidx_snoc. cbn.
  destruct (decide (k = key)) as [->|Hne]; [by rewrite !lookup_delete_eq|].
  rewrite !lookup_delete_ne, (contents_lookup s log) by done.
  destruct (lidx log !! k) as [[off r]|] eqn:Hk; [|done]. simpl. f_equal. apply value_of_grows; [done|].
  destruct HI as (_ & _ & _ & _ & _ & (_ & _ & _ & Hb)). rewrite Forall_forall in Hb.
  apply Hb. by apply lidx_elem in Hk as [? _].
Qed.

Lemma contents_put s s' log r : Inv s log -> Inv s' (log ++ [r]) -> grows s s' -> r_Deleted r = false ->
  contents s' = <[r_Key r := value_of (db_disk s') r]> (contents s).
Proof.
  intros HI HI' Hg Hd. apply map_eq. intros k. rewrite (contents_lookup s' _ k HI'), lidx_snoc.
  unfold apply_rec, isTombstone. rewrite Hd.
  destruct (decide (k = r_Key r)) as [->|Hne]; [by rewrite !lookup_insert_eq|].
  rewrite !lookup_insert_ne, (contents_lookup s log) by done.
  destruct (lidx log !! k) as [[off r']|] eqn:Hk; [|done]. simpl. f_equal. apply value_of_grows; [done|].
  destruct HI as (_ & _ & _ & _ & _ & (_ & _ & _ & Hb)). rewrite Forall_forall in Hb.
  apply Hb. by apply lidx_elem in Hk as [? _].
Qed.

Lemma tags_delete s s' log key : Inv s log -> Inv s' (log ++ [tombstone key]) -> tags s' = delete key (tags s).
Proof.
  intros HI HI'. apply map_eq. intros k. rewrite (tags_lookup s' _ k HI'), lidx_snoc. cbn.
  destruct (decide (k = key)) as [->|Hne]; [by rewrite !lookup_delete_eq|].
  by rewrite !lookup_delete_ne, (tags_lookup s log) by done.
Qed.

Lemma tags_put s s' log r : Inv s log -> Inv s' (log ++ [r]) -> r_Deleted r = false ->
  tags s' = <[r_Key r := (r_Exp r, is_counter r)]> (tags s).
Proof.
  intros HI HI' Hd. apply map_eq. intros k. rewrite (tags_lookup s' _ k HI'), lidx_snoc. unfold apply_rec, isTombstone. rewrite Hd.
  destruct (decide (k = r_Key r)) as [->|Hne]; [by rewrite !lookup_insert_eq|].
  by rewrite !lookup_insert_ne, (tags_lookup s log) by done.
Qed.
End contents.

(** ** Deleting several keys *)

Section deletes.
Context {BT : BTreeG} {BL : BTreeGLaws BT} {E : Env} {EL : EnvLaws E}.
Implicit Types (s : DB) (log : list record).

(** Forget the keys of [ks]. *)
Definition drop_keys {V} (ks : list gostring) (m : gmap gostring V) : gmap gostring V :=
  filter (fun kv => kv.1 ∉ ks) m.

Lemma lookup_drop_keys {V} (ks : list gostring) (m : gmap gostring V) (k : gostring) :
  drop_keys ks m !! k = if decide (k ∈ ks) then None else m !! k.
Proof.
  unfold drop_keys. case_decide as Hk.
  - apply map_lookup_filter_None. right. intros x _. simpl. tauto.
  - destruct (m !! k) as [v|] eqn:Hm; [by apply map_lookup_filter_Some|].
    apply map_lookup_filter_None. by left.
Qed.

Lemma fmap_drop_keys {V W} (f : V -> W) (ks : list gostring) (m : gmap gostring V) : f <$> drop_keys ks m = drop_keys ks (f <$> m).
Proof. apply map_eq. intros k. rewrite lookup_fmap, !lookup_drop_keys, lookup_fmap. by case_decide. Qed.

Lemma drop_keys_nil {V} (m : gmap gostring V) : drop_keys [] m = m.
Proof. apply map_eq. intros k. rewrite lookup_drop_keys. by rewrite decide_False by apply not_elem_of_nil. Qed.

Lemma drop_keys_cons {V} (k : gostring) (ks : list gostring) (m : gmap gostring V) : drop_keys (k :: ks) m = drop_keys ks (delete k m).
Proof.
  apply map_eq. intros k'. rewrite !lookup_drop_keys. destruct (decide (k' = k)) as [->|Hne].
  - rewrite decide_True by (by left). rewrite lookup_delete_eq. by case_decide.
  - rewrite lookup_delete_ne by done. repeat case_decide; try done;
      [apply elem_of_cons in H as [?|?]; done|destruct H; by right].
Qed.

Lemma deletes_clean (ks : list gostring) s log res s' : clean_faults E -> Inv s log -> Forall (fun k => rec_good (tombstone k)) ks ->
  mfor deleteLocked ks s = (res, s') ->
  exists gone log', gone `prefix_of` ks /\ Inv s' log' /\ keeps s s'
    /\ live s' = drop_keys gone (live s) /\ contents s' = drop_keys gone (contents s) /\ tags s' = drop_keys gone (tags s)
    /\ ((res = Ok tt /\ gone = ks) \/ failed E res).
Proof.
  intros Hc. revert s log. induction ks as [|k ks IH]; intros s log HI HF; cbn [mfor].
  { intros [= <- <-]. exists [], log. rewrite !drop_keys_nil. split_and!; try done. by left. }
  apply Forall_cons in HF as [Hk HF]. unfold mbnd. destruct (deleteLocked k s) as [r1 s1] eqn:Hd.
  destruct (deleteLocked_clean s log k r1 s1 Hc HI Hk Hd) as [(-> & HI1 & Hl1 & Hk1)|([-> Hf] & t & ->)].
  - intros Hrest. destruct (IH s1 _ HI1 HF Hrest) as (gone & log' & Hp & HI' & Hk' & Hl' & Hc' & Ht' & Hres).
    exists (k :: gone), log'. rewrite !drop_keys_cons.
    rewrite <- Hl1, <- (contents_delete s s1 log k HI HI1 (keeps_grows _ _ Hk1)), <- (tags_delete s s1 log k HI HI1). split_and!; try done.
    + by apply prefix_cons.
    + by eapply keeps_trans.
    + destruct Hres as [[-> ->]|?]; [by left|by right].
  - intros [= <- <-]. exists [], log. rewrite !drop_keys_nil. split_and!; try done; [apply prefix_nil|by right].
Qed.
End deletes.
