(* ===== verification/Caps.v ===== *)
(** * Capped indexes: eviction (secindex.go)

    The groups of an index, read off the primary index; what
    [enforceMaxPerValue] evicts; and that a write which passes
    [checkSelfEviction] on a store within its caps keeps its own record and
    leaves every group within its cap. *)

From S2P Require Import Prelude Floats Types Json Record BTree PkIndex SecIndex Hint Store SecMaint IndexStep LogSpec Invariant Ops Contents.
#[local] Open Scope Z_scope.

Section groups.
Context {BT : BTreeG} {BL : BTreeGLaws BT}.
Implicit Types (m : gmap gostring secIndex) (pk : gmap gostring pkEntry) (si : secIndex).

(** A key belongs to a value's group through its primary entry. *)
Definition in_group pk name si probe (k : gostring) : Prop :=
  exists e v x, pk !! k = Some e /\ e_ix e !! name = Some v /\ makeEntry si v k = Ok x
    /\ not_nan x /\ equiv (vless (si_kind si)) x probe = true.

Lemma group_keys_elem m pk name si probe k : matches m pk -> m !! name = Some si -> not_nan probe ->
  k ∈ group_keys si probe <-> in_group pk name si probe k.
Proof.
  intros HM Hsi Hp. destruct (HM name si Hsi) as [Hok Hx]. unfold group_keys. rewrite list_elem_of_fmap. split.
  - intros (x & -> & (Hin & Hn & He)%group_elem); [|done..]. apply Hx in Hin as (e & v & Hl & Hv & Hm).
    exists e, v, x. auto.
  - intros (e & v & x & Hl & Hv & Hm & Hn & He). exists x. pose proof (makeEntry_pk _ _ _ _ Hm) as Hpk. split; [done|].
    apply group_elem; [done..|]. split; [|done]. apply Hx. exists e, v. by rewrite Hpk.
Qed.

Lemma in_group_decl pk name si si' probe k : decl_of si = decl_of si' ->
  in_group pk name si probe k -> in_group pk name si' probe k.
Proof.
  intros Hd (e & v & x & Hl & Hv & Hm & Hn & He). exists e, v, x.
  destruct si as [n kd mx t], si' as [n' kd' mx' t']. unfold decl_of in Hd. simpl in Hd. injection Hd as <- <- <-. done.
Qed.

Lemma keys_ext (ks ks' : list gostring) : sl_sorted str_ltb ks -> sl_sorted str_ltb ks' ->
  (forall k, k ∈ ks <-> k ∈ ks') -> ks = ks'.
Proof.
  intros Hs Hs' H. apply (sorted_ext (fun _ => True) str_ltb); try done; by apply Forall_true.
Qed.

(** Forgetting keys removes them from every group. *)
Lemma group_drop m m' pk (gone : list gostring) name si si' probe :
  matches m pk -> matches m' (drop_keys gone pk) -> m !! name = Some si -> m' !! name = Some si' ->
  decl_of si' = decl_of si -> not_nan probe ->
  group_keys si' probe = filter (fun k => k ∉ gone) (group_keys si probe).
Proof.
  intros HM HM' Hsi Hsi' Hd Hp. destruct (HM name si Hsi) as [Hok _]. destruct (HM' name si' Hsi') as [Hok' _].
  apply keys_ext; [by apply group_keys_sorted| |].
  { eapply sorted_sublist; [apply sublist_filter|by apply group_keys_sorted]. }
  intros k. rewrite list_elem_of_filter, (group_keys_elem m pk name si), (group_keys_elem m' (drop_keys gone pk) name si') by done.
  split.
  - intros H. apply (in_group_decl _ _ _ si) in H; [|done]. destruct H as (e & v & x & Hl & Hr).
    rewrite lookup_drop_keys in Hl. case_decide; [done|]. split; [done|]. by exists e, v, x.
  - intros [Hk H]. apply (in_group_decl _ _ _ si') in H; [|done]. destruct H as (e & v & x & Hl & Hr).
    exists e, v, x. rewrite lookup_drop_keys. by rewrite decide_False.
Qed.

(** Storing a key moves it to the group of its new value. *)
Lemma group_put m m' pk key e name si si' probe :
  matches m pk -> matches m' (<[key := e]> pk) -> m !! name = Some si -> m' !! name = Some si' ->
  decl_of si' = decl_of si -> not_nan probe ->
  forall k, k ∈ group_keys si' probe <->
    (k <> key /\ k ∈ group_keys si probe) \/ (k = key /\ in_group (<[key := e]> pk) name si probe key).
Proof.
  intros HM HM' Hsi Hsi' Hd Hp k. rewrite (group_keys_elem m pk name si), (group_keys_elem m' (<[key := e]> pk) name si') by done.
  split.
  - intros H. apply (in_group_decl _ _ _ si) in H; [|done]. destruct (decide (k = key)) as [->|Hne]; [by right|].
    left. split; [done|]. destruct H as (e' & v & x & Hl & Hr). exists e', v, x. by rewrite lookup_insert_ne in Hl.
  - intros [[Hne (e' & v & x & Hl & Hr)]|[-> H]]; apply (in_group_decl _ _ si); try done.
    exists e', v, x. by rewrite lookup_insert_ne.
Qed.

(** The victims are the lowest keys of the group. *)
Lemma victims_take si probe n : sec_ok si -> not_nan probe -> (n <= length (group_keys si probe))%nat ->
  victims_of si (zlen (filter (fun x => vless (si_kind si) x probe = true) (bt_scan (si_tree si)))) (Z.of_nat n)
  = take n (group_keys si probe).
Proof.
  intros Hok Hp Hn. unfold victims_of. rewrite Nat2Z.id. apply list_eq. intros i.
  rewrite list_lookup_fmap. destruct (decide (i < n)%nat) as [Hi|Hi].
  - rewrite lookup_seq_lt by done. rewrite lookup_take, decide_True by done. simpl. apply group_at; [done|done|lia].
  - rewrite lookup_ge_None_2 by (rewrite length_seq; lia). rewrite lookup_take_ge by lia. done.
Qed.
End groups.

(** ** Enforcement *)

Section enforce.
Context {BT : BTreeG} {BL : BTreeGLaws BT} {E : Env} {EL : EnvLaws E}.
Implicit Types (s : DB) (log : list record).

(** The keys one call evicts. *)
Definition excess_keys s (nv : gostring * any) : list gostring :=
  match db_sec s !! nv.1 with
  | None => []
  | Some si =>
      if si_max si <=? 0 then []
      else match makeEntry si nv.2 [] with
           | Err _ => []
           | Ok probe => take (Z.to_nat (zlen (group_keys si probe) - si_max si)) (group_keys si probe)
           end
  end.

Lemma group_live_good s log name si probe : Inv s log -> db_sec s !! name = Some si -> not_nan probe ->
  Forall (fun k => rec_good (tombstone k)) (group_keys si probe).
Proof.
  intros HI Hsi Hp. apply Forall_forall. intros k Hin.
  pose proof HI as (_ & _ & _ & _ & (_ & HM & _) & _).
  apply (group_keys_elem _ _ _ _ _ _ HM Hsi Hp) in Hin as (e & v & x & Hl & _). by apply (Inv_key_good s log k e).
Qed.

(** [enforce_one] deletes exactly the excess of the value's group. *)
Lemma enforce_one_clean nv s log res s' : clean_faults E -> Inv s log -> any_nn nv.2 ->
  enforce_one nv s = (res, s') ->
  exists gone log', gone `prefix_of` excess_keys s nv /\ Inv s' log' /\ keeps s s'
    /\ live s' = drop_keys gone (live s) /\ contents s' = drop_keys gone (contents s) /\ tags s' = drop_keys gone (tags s)
    /\ ((res = Ok tt /\ gone = excess_keys s nv) \/ failed E res).
Proof.
  intros Hc HI Hnn Hrun. unfold enforce_one in Hrun. unfold mbnd at 1 in Hrun. cbn [mget] in Hrun.
  assert (Hnone : excess_keys s nv = [] -> (res, s') = (Ok tt, s) ->
    exists gone log', gone `prefix_of` excess_keys s nv /\ Inv s' log' /\ keeps s s'
      /\ live s' = drop_keys gone (live s) /\ contents s' = drop_keys gone (contents s) /\ tags s' = drop_keys gone (tags s)
      /\ ((res = Ok tt /\ gone = excess_keys s nv) \/ failed E res)).
  { intros Hx [= -> ->]. exists [], log. rewrite !drop_keys_nil, Hx. split_and!; try done. by left. }
  unfold excess_keys in *. destruct (db_sec s !! nv.1) as [si|] eqn:Hsi; [|by apply Hnone].
  destruct (Z.leb_spec (si_max si) 0) as [Hm|Hm]; [by apply Hnone|].
  destruct (makeEntry si nv.2 []) as [probe|err] eqn:Hme; [|by apply Hnone].
  pose proof (makeEntry_nn _ _ _ _ Hme Hnn) as Hp. pose proof (makeEntry_pk _ _ _ _ Hme) as Hpk.
  pose proof HI as (_ & _ & _ & _ & (_ & HM & _) & _). destruct (HM _ _ Hsi) as [Hok _].
  rewrite group_lower, group_upper in Hrun by done. set (ks := group_keys si probe) in *.
  set (Lo := zlen (filter (fun x => vless (si_kind si) x probe = true) (bt_scan (si_tree si)))) in *.
  replace (Lo + zlen ks - Lo - si_max si) with (zlen ks - si_max si) in Hrun by lia.
  destruct (Z.leb_spec (zlen ks - si_max si) 0) as [Hle|Hgt].
  { apply Hnone; [|done]. by replace (Z.to_nat (zlen ks - si_max si)) with 0%nat by lia. }
  replace (zlen ks - si_max si) with (Z.of_nat (Z.to_nat (zlen ks - si_max si))) in Hrun by lia.
  unfold Lo, ks in Hrun. rewrite victims_take in Hrun; [|done|done|fold ks; unfold zlen in *; lia].
  fold ks in Hrun. eapply deletes_clean; try done. apply Forall_take. by eapply group_live_good.
Qed.

(** ** Staying within the caps *)

(** Every group of a capped index is within its cap. *)
Definition cap_inv s : Prop :=
  forall name si, db_sec s !! name = Some si -> 0 < si_max si ->
  forall probe, not_nan probe -> zlen (group_keys si probe) <= si_max si.

(** As [cap_inv], up to one extra entry in the groups still to be enforced,
    which [key] belongs to without being their lowest. *)
Definition cap_pending (key : gostring) (todo : list (gostring * any)) s : Prop :=
  forall name si, db_sec s !! name = Some si -> 0 < si_max si ->
  forall probe, not_nan probe ->
  zlen (group_keys si probe) <= si_max si
  \/ (zlen (group_keys si probe) = si_max si + 1 /\ key ∈ group_keys si probe /\ head (group_keys si probe) <> Some key
      /\ exists v x, (name, v) ∈ todo /\ makeEntry si v [] = Ok x /\ not_nan x /\ equiv (vless (si_kind si)) x probe = true).

Lemma cap_pending_nil key s : cap_pending key [] s -> cap_inv s.
Proof.
  intros H name si Hsi Hm probe Hp. destruct (H name si Hsi Hm probe Hp) as [?|(_ & _ & _ & v & x & Hin & _)]; [done|].
  by apply elem_of_nil in Hin.
Qed.

(** Equal values have the same group. *)
Lemma group_keys_equiv si x y : sec_ok si -> not_nan x -> not_nan y -> equiv (vless (si_kind si)) x y = true ->
  group_keys si x = group_keys si y.
Proof.
  intros Hok Hx Hy He. unfold group_keys, group. f_equal. apply list_filter_iff'. intros z Hz.
  pose proof (sec_not_nan si Hok) as HF. rewrite Forall_forall in HF. specialize (HF z Hz).
  rewrite !valueEqual_equiv by done. split; intros H.
  - by eapply (equiv_trans not_nan _ z x y).
  - rewrite equiv_sym in He. by eapply (equiv_trans not_nan _ z y x).
Qed.

Lemma head_take_1 {A} (l : list A) : take 1 l = match head l with Some x => [x] | None => [] end.
Proof. destruct l; simpl; [done|]. by rewrite take_0. Qed.

(** What a pending group loses: nothing, or its lowest key, which is below [key]. *)
Lemma excess_pending key todo nv s log : Inv s log -> cap_pending key todo s -> any_nn nv.2 ->
  excess_keys s nv = [] \/ exists h, excess_keys s nv = [h] /\ str_ltb h key = true.
Proof.
  intros HI HP Hnn. unfold excess_keys. destruct (db_sec s !! nv.1) as [si|] eqn:Hsi; [|by left].
  destruct (Z.leb_spec (si_max si) 0) as [Hm|Hm]; [by left|].
  destruct (makeEntry si nv.2 []) as [probe|err] eqn:Hme; [|by left].
  pose proof (makeEntry_nn _ _ _ _ Hme Hnn) as Hp.
  pose proof HI as (_ & _ & _ & _ & (_ & HM & _) & _). destruct (HM _ _ Hsi) as [Hok _].
  destruct (HP nv.1 si Hsi Hm probe Hp) as [Hle|(Hlen & Hin & Hh & _)].
  { left. by replace (Z.to_nat _) with 0%nat by lia. }
  right. replace (Z.to_nat _) with 1%nat by lia. rewrite head_take_1.
  pose proof (group_keys_sorted si probe Hok Hp) as Hs.
  destruct (group_keys si probe) as [|h ks]; [by apply elem_of_nil in Hin|]. exists h. split; [done|].
  apply sorted_cons_inv in Hs as [_ Hs]. apply Hs. by apply elem_of_cons in Hin as [->|?].
Qed.

Lemma filter_not_in_length (gone ks : list gostring) k : k ∈ gone -> k ∈ ks ->
  (length (filter (fun x => x ∉ gone) ks) < length ks)%nat.
Proof.
  intros Hg. induction ks as [|x ks IH]; intros Hk; [by apply elem_of_nil in Hk|].
  pose proof (length_filter (fun x => x ∉ gone) ks) as Hle.
  destruct (decide (x ∉ gone)) as [Hx|Hx].
  - rewrite filter_cons_True by done. simpl. apply elem_of_cons in Hk as [->|Hk]; [done|]. specialize (IH Hk). lia.
  - rewrite filter_cons_False by done. simpl. lia.
Qed.

(** One enforcement step settles its own group and only shrinks the others. *)
Lemma enforce_step key nv todo s s' log : Inv s log -> cap_pending key (nv :: todo) s -> any_nn nv.2 ->
  matches (db_sec s') (drop_keys (excess_keys s nv) (live s)) -> decl_of <$> db_sec s' = decl_of <$> db_sec s ->
  cap_pending key todo s'.
Proof.
  intros HI HP Hnn HM' Hdecl name si' Hsi' Hm probe Hp.
  pose proof HI as (_ & _ & _ & _ & (_ & HM & _) & _).
  assert (Hsi : exists si, db_sec s !! name = Some si /\ decl_of si' = decl_of si).
  { pose proof (f_equal (fun m => m !! name) Hdecl) as H. cbn in H. rewrite !lookup_fmap, Hsi' in H.
    destruct (db_sec s !! name) as [si|]; [|done]. apply (inj Some) in H. eauto. }
  destruct Hsi as (si & Hsi & Hd). assert (Hmax : si_max si' = si_max si /\ si_kind si' = si_kind si) by (by injection Hd).
  destruct Hmax as [Hmax Hkind]. rewrite Hmax in *. destruct (HM _ _ Hsi) as [Hok _].
  rewrite (group_drop (db_sec s) (db_sec s') (live s) (excess_keys s nv) name si si') by done.
  set (gone := excess_keys s nv) in *. set (ks := group_keys si probe) in *.
  pose proof (length_filter (fun k => k ∉ gone) ks) as Hlen.
  destruct (HP name si Hsi Hm probe Hp) as [Hle|(Hsz & Hin & Hh & v & x & Htodo & Hme & Hx & He)].
  { left. fold ks in Hle. unfold zlen in *. lia. }
  fold ks in Hsz, Hin, Hh. destruct (decide (Exists (fun k => k ∈ gone) ks)) as [Hex|Hnex].
  { left. apply Exists_exists in Hex as (k & Hk & Hkg). pose proof (filter_not_in_length gone ks k Hkg Hk).
    unfold zlen in *. lia. }
  assert (Hall : filter (fun k => k ∉ gone) ks = ks).
  { apply filter_all, Forall_forall. intros k Hk Hkg. apply Hnex, Exists_exists. eauto. }
  rewrite Hall. right. split_and!; try done. apply elem_of_cons in Htodo as [Heq|Htodo].
  - exfalso. apply Hnex, Exists_exists. unfold gone, excess_keys. rewrite <- Heq. cbn [fst snd].
    rewrite Hsi, (proj2 (Z.leb_gt _ _) Hm), Hme. rewrite (group_keys_equiv si x probe) by done. fold ks.
    replace (Z.to_nat (zlen ks - si_max si)) with 1%nat by lia. rewrite head_take_1.
    destruct ks as [|h ks']; [by apply elem_of_nil in Hin|]. exists h. split; by left.
  - exists v, x. rewrite Hkind. split_and!; try done.
    destruct si as [n kd mx t], si' as [n' kd' mx' t']. unfold decl_of in Hd. simpl in *. by injection Hd as -> -> ->.
Qed.

Lemma drop_keys_app {V} (k1 k2 : list gostring) (m : gmap gostring V) :
  drop_keys k2 (drop_keys k1 m) = drop_keys (k1 ++ k2) m.
Proof.
  apply map_eq. intros k. rewrite !lookup_drop_keys. destruct (decide (k ∈ k1 ++ k2)) as [H|H];
    rewrite elem_of_app in H; repeat case_decide; tauto.
Qed.

(** No index is capped. *)
Definition uncapped s : Prop := map_Forall (fun _ si => si_max si <= 0) (db_sec s).

Lemma uncapped_keeps s s' : decl_of <$> db_sec s' = decl_of <$> db_sec s -> uncapped s -> uncapped s'.
Proof.
  intros Hd HF n si Hsi. apply (f_equal (fun m => m !! n)) in Hd. rewrite !lookup_fmap, Hsi in Hd.
  destruct (db_sec s !! n) as [si0|] eqn:Hn; [|done]. apply (inj Some) in Hd. specialize (HF n si0 Hn). cbn in HF.
  assert (si_max si = si_max si0) by (by injection Hd). lia.
Qed.

Lemma uncapped_caps s : uncapped s -> cap_inv s.
Proof. intros H n si Hsi Hm. specialize (H n si Hsi). cbn in H. lia. Qed.

Lemma uncapped_excess s nv : uncapped s -> excess_keys s nv = [].
Proof.
  intros H. unfold excess_keys. destruct (db_sec s !! nv.1) as [si|] eqn:Hsi; [|done]. by rewrite (proj2 (Z.leb_le _ _) (H _ _ Hsi)).
Qed.

(** The whole of [enforceMaxPerValue]: the evicted keys sort below [key]. *)
Lemma enforce_loop key l s log res s' : clean_faults E -> Inv s log -> cap_pending key l s ->
  Forall (fun nv => any_nn nv.2) l -> mfor enforce_one l s = (res, s') ->
  exists gone log', Inv s' log' /\ keeps s s' /\ Forall (fun k => str_ltb k key = true) gone
    /\ live s' = drop_keys gone (live s) /\ contents s' = drop_keys gone (contents s) /\ tags s' = drop_keys gone (tags s)
    /\ ((res = Ok tt /\ cap_inv s') \/ failed E res) /\ (uncapped s -> gone = []).
Proof.
  intros Hc. revert s log. induction l as [|nv l IH]; intros s log HI HP HF; cbn [mfor].
  { intros [= <- <-]. exists [], log. rewrite !drop_keys_nil. split_and!; try done. left. split; [done|].
    by eapply cap_pending_nil. }
  apply Forall_cons in HF as [Hnn HF]. unfold mbnd. destruct (enforce_one nv s) as [r1 s1] eqn:H1.
  destruct (enforce_one_clean nv s log r1 s1 Hc HI Hnn H1) as (gone1 & log1 & Hpre & HI1 & Hk1 & Hl1 & Hc1 & Ht1 & Hres).
  assert (Hbelow : Forall (fun k => str_ltb k key = true) gone1).
  { destruct Hpre as [rest Hpre].
    destruct (excess_pending key _ nv s log HI HP Hnn) as [He|(h & He & Hh)]; rewrite He in Hpre.
    - destruct gone1; [constructor|done].
    - destruct gone1 as [|g gone1]; [constructor|]. injection Hpre as <- Hpre. destruct gone1; [by repeat constructor|done]. }
  destruct Hres as [[-> ->]|[-> Hf]]; last first.
  { intros [= <- <-]. exists gone1, log1. split_and!; try done; [by right|]. intros Hu. rewrite uncapped_excess in Hpre by done. by apply prefix_nil_inv in Hpre. }
  intros Hrest. pose proof HI1 as (_ & _ & _ & _ & (_ & HM1 & _) & _). rewrite Hl1 in HM1.
  assert (HP1 : cap_pending key l s1) by (eapply (enforce_step key nv l s s1 log); try done; apply Hk1).
  destruct (IH s1 log1 HI1 HP1 HF Hrest) as (gone & log' & HI' & Hk & HF' & Hl & Hct & Htg & Hres & Hno).
  exists (excess_keys s nv ++ gone), log'. rewrite Hl, Hct, Htg, Hl1, Hc1, Ht1, !drop_keys_app. split_and!; try done.
  - by eapply keeps_trans.
  - by apply Forall_app.
  - intros Hu. rewrite uncapped_excess, Hno by (done || by eapply uncapped_keeps; [apply Hk1|]). done.
Qed.
End enforce.
