(* ===== verification/PutProofs.v ===== *)
(** * Writes refine map updates (db.go, secindex.go)

    The abstract contract of a store is a map.  [Put] inserts, [Delete]
    deletes, [Get] looks up; a capped index may in addition evict, but never
    the record just written and never a key that sorts above it. *)

From S2P Require Import Prelude Floats Types Json Record BTree PkIndex SecIndex Hint Store SecMaint IndexStep LogSpec Invariant Ops Contents Caps.
#[local] Open Scope Z_scope.

Section pending.
Context {BT : BTreeG} {BL : BTreeGLaws BT} {E : Env} {EL : EnvLaws E}.
Implicit Types (s : DB) (log : list record).

Lemma sorted_NoDup (ks : list gostring) : sl_sorted str_ltb ks -> NoDup ks.
Proof.
  induction ks as [|k ks IH]; intros Hs; [constructor|]. apply sorted_cons_inv in Hs as [Hs Hk]. constructor; [|auto].
  intros Hin. apply Hk in Hin. by rewrite (st_irrefl (ltb:=str_ltb)) in Hin.
Qed.

Lemma sorted_subset_length (ks ks' : list gostring) : sl_sorted str_ltb ks ->
  (forall k, k ∈ ks -> k ∈ ks') -> zlen ks <= zlen ks'.
Proof.
  intros Hs Hsub. unfold zlen. apply Nat2Z.inj_le, submseteq_length, NoDup_submseteq; [by apply sorted_NoDup|done].
Qed.

Lemma sl_set_length key (ks : list gostring) : sl_sorted str_ltb ks -> key ∉ ks ->
  zlen (sl_set str_ltb key ks) = zlen ks + 1.
Proof.
  intros Hs Hk. rewrite sl_set_split by done. rewrite (antitone_split _ ks (str_antitone key ks Hs)) at 3.
  rewrite !zlen_app, zlen_cons. lia.
Qed.

Lemma self_evicted_ok sec key l name v si : self_evicted sec key l = Ok tt -> (name, v) ∈ l ->
  sec !! name = Some si -> 0 < si_max si -> wouldSelfEvict si v key <> Ok true.
Proof.
  intros H Hin Hsi Hm. induction l as [|[n w] l IH]; [by apply elem_of_nil in Hin|].
  cbn [self_evicted] in H. apply elem_of_cons in Hin as [[= <- <-]|Hin].
  - rewrite Hsi, (proj2 (Z.leb_gt _ _) Hm) in H. intros He. by rewrite He in H.
  - apply IH; [|done]. destruct (sec !! n) as [si'|]; [|done]. destruct (si_max si' <=? 0); [done|].
    destruct (wouldSelfEvict si' w key) as [[]|]; done.
Qed.

(** A store within its caps, after a write that passed [checkSelfEviction]:
    only the groups of the new values can be over, by one, and the new key is
    not the lowest of them. *)
Lemma append_pending s s' log key e l l' :
  Inv s log -> cap_inv s -> ix_nn (e_ix e) ->
  self_evicted (db_sec s) key l = Ok tt -> l ≡ₚ map_to_list (e_ix e) -> l' ≡ₚ map_to_list (e_ix e) ->
  matches (db_sec s') (<[key := e]> (live s)) -> decl_of <$> db_sec s' = decl_of <$> db_sec s ->
  cap_pending key l' s'.
Proof.
  intros HI HC Hnn Hse Hl Hl' HM' Hdecl name si' Hsi' Hm probe Hp.
  pose proof HI as (_ & _ & _ & _ & (_ & HM & _) & _).
  assert (Hsi : exists si, db_sec s !! name = Some si /\ decl_of si' = decl_of si).
  { pose proof (f_equal (fun m => m !! name) Hdecl) as H. cbn in H. rewrite !lookup_fmap, Hsi' in H.
    destruct (db_sec s !! name) as [si|]; [|done]. apply (inj Some) in H. eauto. }
  destruct Hsi as (si & Hsi & Hd). assert (Hmax : si_max si' = si_max si /\ si_kind si' = si_kind si) by (by injection Hd).
  destruct Hmax as [Hmax Hkind]. rewrite Hmax in *.
  destruct (HM _ _ Hsi) as [Hok _]. destruct (HM' _ _ Hsi') as [Hok' _].
  pose proof (group_keys_sorted si probe Hok Hp) as Hs. pose proof (group_keys_sorted si' probe Hok' Hp) as Hs'.
  pose proof (group_put (db_sec s) (db_sec s') (live s) key e name si si' probe HM HM' Hsi Hsi' Hd Hp) as Hput.
  specialize (HC name si Hsi Hm probe Hp). set (ks := group_keys si probe) in *. set (ks' := group_keys si' probe) in *.
  destruct (decide (zlen ks' <= si_max si)) as [|Hover]; [by left|]. right.
  assert (Hnew : in_group (<[key := e]> (live s)) name si probe key).
  { destruct (decide (key ∈ ks')) as [Hin|Hout]; [by apply Hput in Hin as [[? _]|[_ ?]]|]. exfalso. apply Hover.
    etrans; [|exact HC]. apply sorted_subset_length; [done|]. intros k Hk. by destruct (proj1 (Hput k) Hk) as [[_ ?]|[-> ?]]. }
  assert (Hout : key ∉ ks).
  { intros Hin. apply Hover. etrans; [|exact HC]. apply sorted_subset_length; [done|].
    intros k Hk. by apply Hput in Hk as [[_ ?]|[-> ?]]. }
  assert (Hks' : ks' = sl_set str_ltb key ks).
  { apply keys_ext; [done|by apply (sl_set_sorted (fun _ => True)); [apply str_weak|apply Forall_true|..]|].
    intros k. rewrite Hput, (sl_set_elem (fun _ => True)) by (done || apply str_weak || by apply Forall_true).
    assert (Hne : k ∈ ks -> equiv str_ltb key k = false).
    { intros Hk. destruct (equiv str_ltb key k) eqn:He; [|done]. apply equiv_true in He as [H1 H2].
      by rewrite (st_total _ _ H1 H2) in Hout. }
    split; [intros [[? ?]|[-> _]]; auto|]. intros [->|[Hk _]]; [by right|]. left. split; [by intros ->|done]. }
  pose proof (sl_set_length key ks Hs Hout) as Hlen. rewrite <- Hks' in Hlen.
  destruct Hnew as (e' & v & x & He' & Hv & Hme & Hx & Hxp). rewrite lookup_insert_eq in He'. injection He' as <-.
  set (pv := SecEntry (se_s x) (se_f x) []). pose proof (makeEntry_any _ _ _ [] _ Hme) as Hpv. fold pv in Hpv.
  assert (Hpvx : equiv (vless (si_kind si)) pv probe = true) by (unfold equiv, vless in *; by destruct (si_kind si)).
  split; [lia|]. split; [rewrite Hks'; apply (sl_set_elem (fun _ => True)); [apply str_weak|apply Forall_true; done|done|done|by left]|].
  split.
  - assert (Hvl : (name, v) ∈ l) by (rewrite Hl; by apply elem_of_map_to_list).
    pose proof (self_evicted_ok _ _ _ _ _ _ Hse Hvl Hsi Hm) as Hno.
    rewrite (wouldSelfEvict_exact si v key pv Hok Hpv Hx Hm) in Hno.
    rewrite (group_keys_equiv si pv probe) in Hno by done. fold ks in Hno.
    rewrite group_insert in Hno by (done || by rewrite (group_keys_equiv si pv probe)).
    rewrite (group_keys_equiv si pv probe) in Hno by done. fold ks in Hno. rewrite <- Hks' in Hno.
    replace (Z.to_nat (zlen ks' - si_max si)) with 1%nat in Hno by lia. intros Hh. apply Hno.
    rewrite bool_decide_eq_true_2; [done|]. split; [done|]. rewrite head_take_1, Hh. by left.
  - exists v, pv. rewrite Hkind. split_and!; try done; [rewrite Hl'; by apply elem_of_map_to_list|].
    destruct si as [n kd mx t], si' as [n' kd' mx' t']. unfold decl_of in Hd. simpl in *. by injection Hd as -> -> ->.
Qed.
End pending.

Section write.
Context {BT : BTreeG} {BL : BTreeGLaws BT} {E : Env} {EL : EnvLaws E}.
Implicit Types (s : DB) (log : list record).

(** ** Validation only reads *)

Lemma buildIndexValues_tick key value idx s res s' : buildIndexValues key value idx s = (res, s') ->
  exists t, s' = set_tick t s.
Proof.
  unfold buildIndexValues, range_ix, tick, mbnd, mget, mok, merr, mres. intros H.
  repeat case_decide; repeat case_match; simplify_eq/=; eauto; exists (db_tick s'); by destruct s'.
Qed.

Lemma checkSelfEviction_run key ix s : exists l t, l ≡ₚ map_to_list ix
  /\ checkSelfEviction key ix s = (self_evicted (db_sec s) key l, set_tick t s).
Proof.
  unfold checkSelfEviction, range_ix, tick, mbnd, mget, mok, mres. do 2 eexists. split; [apply range_perm|done].
Qed.

Lemma maybeWriteHint_frame s : exists s', maybeWriteHint s = (Ok tt, s')
  /\ live s' = live s /\ contents s' = contents s /\ tags s' = tags s /\ db_sec s' = db_sec s /\ grows s s'
  /\ forall log, Inv s log -> Inv s' log.
Proof.
  unfold maybeWriteHint, mmodify. eexists. split; [done|].
  destruct (_ || _); [done|]. destruct (db_inflight s); done.
Qed.

(** What a write may do: on success the key holds the value, the caps hold and
    only keys below it were evicted; on failure no value was changed except
    the key's own and those evictions. *)
Definition write_outcome s (key value : gostring) (ix : IndexValues) (exp : Z) (r : res unit) s' : Prop :=
  exists gone log', Inv s' log' /\ grows s s' /\ Forall (fun k => str_ltb k key = true) gone
    /\ ((contents s' = drop_keys gone (<[key := value]> (contents s))
         /\ (fun e => (e_ix e, e_exp e)) <$> live s' !! key = Some (ix, exp)
         /\ tags s' = drop_keys gone (<[key := (exp, false)]> (tags s)))
        \/ (contents s' = contents s /\ live s' = live s /\ failed E r))
    /\ ((r = Ok tt /\ cap_inv s') \/ failed E r) /\ (uncapped s -> gone = []).

Lemma key_survives (gone : list gostring) key : Forall (fun k => str_ltb k key = true) gone -> key ∉ gone.
Proof. rewrite Forall_forall. intros H Hin. apply H in Hin. by rewrite (st_irrefl (ltb:=str_ltb)) in Hin. Qed.

(** The part of [write] after validation. *)
Lemma write_tail s log key value ix exp l res s' :
  clean_faults E -> Inv s log -> cap_inv s -> write_fits s key value ix exp false ->
  l ≡ₚ map_to_list ix -> self_evicted (db_sec s) key l = Ok tt ->
  (appendRecord key value ix exp (o_SyncEveryWrite (db_opts s)) false ;;;
   enforceMaxPerValue ix ;;;
   mmodify (fun s => set_writes (db_writes s + 1) s) ;;;
   maybeWriteHint) s = (res, s') ->
  write_outcome s key value ix exp res s'.
Proof.
  intros Hc HI HC Hfit Hl Hse. unfold mbnd at 1.
  destruct (appendRecord key value ix exp (o_SyncEveryWrite (db_opts s)) false s) as [r1 s1] eqn:Happ.
  pose proof Hfit as (Hr & _). set (r := rec_of s key value ix exp false) in *.
  assert (Hrec : r_Key r = key /\ r_IX r = ix /\ r_Exp r = exp /\ r_Deleted r = false)
    by (unfold r, rec_of; by destruct (_ && _)). destruct Hrec as (Hkey & Hix & Hexp & Hdel).
  destruct (appendRecord_clean s log key value ix exp _ false r1 s1 Hc HI Hfit Happ)
    as [(-> & HI1 & Hg1 & Hv1 & Hl1)|([-> Hf] & HI1 & Hg1 & Hl1)]; last first.
  { intros [= <- <-]. exists [], log. split_and!; try done; [|by right]. right. split_and!; try done.
    by apply (contents_same s s1 log log). }
  fold r in HI1, Hv1, Hl1. rewrite Hkey, Hix, Hexp in Hl1.
  pose proof (contents_put s s1 log r HI HI1 Hg1 Hdel) as Hct. rewrite Hkey, Hv1 in Hct.
  pose proof (tags_put s s1 log r HI HI1 Hdel) as Htg. rewrite Hkey, Hexp in Htg.
  assert (Hcnt : is_counter r = false) by (unfold r, rec_of; by destruct (_ && _)). rewrite Hcnt in Htg.
  assert (Hnn : ix_nn ix) by (rewrite <- Hix; apply ix_ok_nn, Hr).
  unfold enforceMaxPerValue at 1. unfold mbnd at 1. unfold range_ix, tick. unfold mbnd at 1 2. cbn [mok].
  set (l' := env_range (db_tick s1) ix). set (s2 := set_tick (S (db_tick s1)) s1).
  destruct (mfor enforce_one l' s2) as [r3 s3] eqn:Henf.
  assert (HI2 : Inv s2 (log ++ [r])) by done.
  pose proof HI2 as (_ & _ & _ & _ & (_ & HM2 & _) & _). change (live s2) with (live s1) in HM2. rewrite Hl1 in HM2.
  assert (HP : cap_pending key l' s2).
  { eapply (append_pending s s2 log key (PkEntry key (db_size s) (zlen (enc_line r)) ix exp) l l' HI HC); [exact Hnn|exact Hse|exact Hl|apply range_perm|exact HM2|apply Hg1]. }
  assert (HF : Forall (fun nv => any_nn nv.2) l').
  { unfold l'. rewrite range_perm. apply map_Forall_to_list in Hnn. eapply Forall_impl; [exact Hnn|]. by intros []. }
  destruct (enforce_loop key l' s2 _ r3 s3 Hc HI2 HP HF Henf) as (gone & log' & HI3 & Hk3 & Hgone & Hl3 & Hc3 & Ht3 & Hres & Hno).
  change (live s2) with (live s1) in Hl3. change (contents s2) with (contents s1) in Hc3.
  assert (Hlive : (fun e => (e_ix e, e_exp e)) <$> live s3 !! key = Some (ix, exp)).
  { rewrite Hl3, lookup_drop_keys, decide_False by (by apply key_survives). by rewrite Hl1, lookup_insert_eq. }
  assert (Hexps : tags s3 = drop_keys gone (<[key := (exp, false)]> (tags s))).
  { rewrite Ht3. f_equal. exact Htg. }
  assert (Hno' : uncapped s -> gone = []).
  { intros Hu. apply Hno. apply (uncapped_keeps s); [apply Hg1|done]. }
  assert (Hg3 : grows s s3) by (eapply grows_trans; [exact Hg1|by apply keeps_grows]).
  rewrite Hct in Hc3. destruct Hres as [[-> HC3]|[-> Hf]]; last first.
  { intros [= <- <-]. exists gone, log'. split_and!; try done; [by left|by right]. }
  unfold mmodify. unfold mbnd at 1. destruct (maybeWriteHint_frame (set_writes (db_writes s3 + 1) s3))
    as (s4 & -> & Hl4 & Hct4 & Htg4 & Hsec4 & Hg4 & HI4).
  intros [= <- <-]. exists gone, log'. split_and!; try done.
  - by apply HI4.
  - eapply grows_trans; [exact Hg3|exact Hg4].
  - left. rewrite Hct4, Hl4, Htg4. split_and!; [exact Hc3|exact Hlive|exact Hexps].
  - left. split; [done|]. unfold cap_inv. rewrite Hsec4. exact HC3.
Qed.

(** ** [PutIndexed] as a whole *)

Lemma resolveTTL_tick ttl s : exists t, resolveTTL ttl s = ((resolveTTL ttl s).1, set_tick t s).
Proof.
  unfold resolveTTL. destruct ttl as [|d [|]].
  - exists (db_tick s). by destruct s.
  - destruct (d <=? 0); [exists (db_tick s); by destruct s|]. unfold nowMillis, tick, mbnd, mok. by eexists.
  - exists (db_tick s). by destruct s.
Qed.

(** Either validation refused the write, which changed nothing, or the write
    was attempted. *)
Lemma PutIndexed_outcome s log key value idx ttl exp res s' :
  clean_faults E -> Inv s log -> cap_inv s -> (resolveTTL ttl s).1 = Ok exp ->
  (forall t ix, (buildIndexValues key value idx (set_tick t s)).1 = Ok ix -> write_fits s key value ix exp false) ->
  PutIndexed key value idx ttl s = (res, s') ->
  (exists e t, res = Err e /\ s' = set_tick t s
     /\ (db_closed s = false -> (exists t', (buildIndexValues key value idx (set_tick t' s)).1 = Err e)
         \/ exists ix l, l ≡ₚ map_to_list ix /\ self_evicted (db_sec s) key l = Err e))
  \/ (exists ix, write_outcome s key value ix exp res s').
Proof.
  intros Hc HI HC Hexp Hfit. unfold PutIndexed. destruct (resolveTTL_tick ttl s) as [t0 Ht0]. rewrite Hexp in Ht0.
  rewrite (mbnd_ok _ _ _ _ _ Ht0).
  destruct (db_closed s) eqn:Hcl.
  { rewrite (closed_bnd (fun _ => write key value idx exp)) by done. intros [= <- <-]. left. by exists ErrClosed, t0. }
  rewrite (open_bnd (fun _ => write key value idx exp)) by done. unfold write. unfold mbnd at 1.
  destruct (buildIndexValues key value idx (set_tick t0 s)) as [[ix|e] s1] eqn:Hb;
    destruct (buildIndexValues_tick _ _ _ _ _ _ Hb) as [t1 ->]; last first.
  { intros [= <- <-]. left. exists e, t1. split_and!; try done. intros _. left. exists t0. by rewrite Hb. }
  change (set_tick t1 (set_tick t0 s)) with (set_tick t1 s) in *.
  destruct (checkSelfEviction_run key ix (set_tick t1 s)) as (l & t2 & Hl & Hse).
  unfold mbnd at 1. rewrite Hse. change (db_sec (set_tick t1 s)) with (db_sec s).
  destruct (self_evicted (db_sec s) key l) as [[]|e] eqn:Hsel; last first.
  { intros [= <- <-]. left. exists e, t2. split_and!; try done. intros _. right. eauto. }
  change (set_tick t2 (set_tick t1 s)) with (set_tick t2 s). unfold mbnd at 1. cbn [mget].
  intros Hrun. right. exists ix. apply (write_tail (set_tick t2 s) log key value ix exp l); try done.
  apply (Hfit t0 ix). by rewrite Hb.
Qed.

(** C2. [PutIndexed] (and [Put], which passes no explicit values) refines a map
    insertion: when it returns without error the invariant holds again, the
    key maps to the value and carries the requested expiry, every capped group
    is within its cap, and the only other change is the eviction of keys that
    sort below the new one.  In particular the record just written survives. *)
Theorem put_correct s log key value idx ttl exp s' :
  clean_faults E -> Inv s log -> cap_inv s -> (resolveTTL ttl s).1 = Ok exp ->
  (forall t ix, (buildIndexValues key value idx (set_tick t s)).1 = Ok ix -> write_fits s key value ix exp false) ->
  PutIndexed key value idx ttl s = (Ok tt, s') ->
  exists gone log', Inv s' log' /\ cap_inv s'
    /\ contents s' = drop_keys gone (<[key := value]> (contents s))
    /\ Forall (fun k => str_ltb k key = true) gone
    /\ contents s' !! key = Some value /\ e_exp <$> live s' !! key = Some exp.
Proof.
  intros Hc HI HC Hexp Hfit Hrun.
  destruct (PutIndexed_outcome s log key value idx ttl exp _ s' Hc HI HC Hexp Hfit Hrun)
    as [(e & t & ? & _)|(ix & gone & log' & HI' & _ & Hg & Hcase & Hres & _)]; [done|].
  destruct Hcase as [(Hct & Hl & _)|(_ & _ & [? _])]; [|done]. destruct Hres as [[_ HC']|[? _]]; [|done].
  exists gone, log'. split_and!; try done.
  - rewrite Hct, lookup_drop_keys, decide_False by (by apply key_survives). by rewrite lookup_insert_eq.
  - destruct (live s' !! key) as [e|]; [|done]. injection Hl as _ Hx. cbn. by rewrite Hx.
Qed.


(** ** Deleting *)

Lemma Delete_run s log key res s' :
  clean_faults E -> Inv s log -> db_closed s = false -> Delete key s = (res, s') ->
  exists log', Inv s' log' /\ grows s s'
    /\ ((res = Ok tt /\ contents s' = delete key (contents s) /\ tags s' = delete key (tags s))
        \/ (failed E res /\ contents s' = contents s /\ tags s' = tags s)).
Proof.
  intros Hc HI Hcl. unfold Delete. rewrite (open_bnd (fun _ => _)) by done. rewrite mget_bnd. pose proof HI as (_ & _ & _ & _ & (Hpk & _) & _).
  destruct (pk_get (db_pk s) key) as [e|] eqn:He; last first.
  { assert (Hn : live s !! key = None) by (unfold live; by rewrite pk_map_get).
    intros [= <- <-]. exists log. split; [done|]. split; [apply grows_refl|]. left. split; [done|]. split; symmetry; apply delete_id.
    - destruct (contents s !! key) eqn:Hct; [|done].
      assert (is_Some (live s !! key)) as [x Hx] by (apply (contents_dom s log); eauto). congruence.
    - unfold tags. by rewrite lookup_omap, Hn. }
  assert (Hgood : rec_good (tombstone key)) by (apply (Inv_key_good s log key e HI); unfold live; by rewrite pk_map_get).
  unfold mbnd. destruct (deleteLocked key s) as [r1 s1] eqn:Hd.
  destruct (deleteLocked_clean s log key r1 s1 Hc HI Hgood Hd) as [(-> & HI1 & Hl1 & Hk1)|([-> Hf] & t & ->)].
  - destruct (maybeWriteHint_frame s1) as (s2 & -> & _ & Hct & Htg & _ & Hg2 & HI2). intros [= <- <-].
    exists (log ++ [tombstone key]). split; [by apply HI2|]. split; [eapply grows_trans; [by apply keeps_grows|done]|].
    left. split; [done|]. rewrite Hct, Htg. split; [|by apply (tags_delete s s1 log)].
    apply (contents_delete s s1 log); try done. by apply keeps_grows.
  - intros [= <- <-]. exists log. split; [done|]. split; [by apply keeps_grows|]. right. by split.
Qed.

(** C12. [Delete] refines a map deletion: afterwards the key is absent, every
    other key keeps its value, and an absent key is left alone; an error means
    that nothing changed. *)
Theorem delete_correct s log key res s' :
  clean_faults E -> Inv s log -> db_closed s = false -> Delete key s = (res, s') ->
  exists log', Inv s' log'
    /\ ((res = Ok tt /\ contents s' = delete key (contents s)) \/ (failed E res /\ contents s' = contents s)).
Proof.
  intros Hc HI Hcl Hrun. destruct (Delete_run s log key res s' Hc HI Hcl Hrun) as (log' & HI' & _ & Hres).
  exists log'. split; [done|]. destruct Hres as [(? & ? & _)|(? & ? & _)]; auto.
Qed.
End write.

(** ** Reading *)

Section read.
Context {BT : BTreeG} {BL : BTreeGLaws BT} {E : Env}.
Implicit Types (s : DB) (log : list record).

(** The keys whose time has come. *)
Definition expired_at s (now : Z) (key : gostring) : bool :=
  match live s !! key with Some e => expiredAt e now | None => false end.

(** What a reader sees of a key. *)
Definition visible s (now : Z) (key : gostring) : option gostring :=
  if expired_at s now key then None else contents s !! key.

Lemma pkGetLive_run key s : pk_ok (db_pk s) ->
  exists t q, (db_tick s <= t)%nat /\ pkGetLive key s
    = (Ok (match live s !! key with
           | Some e => if expiredAt e (env_now (db_tick s)) then None else Some e
           | None => None
           end), set_reap q (set_tick t s)).
Proof.
  intros Hpk. unfold pkGetLive, nowMillis, tick, mbnd, mget, mok. unfold live. rewrite pk_map_get by done.
  destruct (pk_get (db_pk s) key) as [e|]; [|exists (db_tick s), (db_reap s); split; [lia|by destruct s]].
  exists (S (db_tick s)). destruct (expiredAt e (env_now (db_tick s))).
  - unfold reapAsync, mmodify. destruct (_ <? _).
    + eexists. split; [lia|done].
    + exists (db_reap s). split; [lia|by destruct s].
  - exists (db_reap s). split; [lia|by destruct s].
Qed.

(** Reading one key, as [Get] and [GetMany] do. *)
Lemma read_run s log key : Inv s log ->
  exists t q, (db_tick s <= t)%nat
  /\ (oe <- pkGetLive key ;;
      match oe with
      | None => mok None
      | Some e => s <- mget ;; v <- mres (readValue s e) ;; mok (Some v)
      end) s = (Ok (visible s (env_now (db_tick s)) key), set_reap q (set_tick t s)).
Proof.
  intros HI. pose proof HI as (_ & _ & _ & Ha & (Hpk & _) & _).
  destruct (pkGetLive_run key s Hpk) as (t & q & Ht & Hg). exists t, q. split; [done|]. rewrite (mbnd_ok _ _ _ _ _ Hg).
  unfold visible, expired_at. destruct (live s !! key) as [e|] eqn:He; last first.
  { cbn. destruct (contents s !! key) eqn:Hct; [|done].
    assert (is_Some (live s !! key)) as [x Hx] by (apply (contents_dom s log); eauto). congruence. }
  destruct (expiredAt e (env_now (db_tick s))); [done|].
  destruct (agree_Some_r _ _ _ _ Ha He) as (x & Hx & Hxe).
  pose proof (readValue_live s log key x e HI Hx Hxe) as Hv.
  assert (Hrd : readValue (set_reap q (set_tick t s)) e = Ok (value_of (db_disk s) x.2)) by exact Hv.
  unfold mbnd. cbn [mget mres]. rewrite Hrd. cbn. by rewrite (contents_lookup s log key HI), Hx.
Qed.

Lemma Get_run s log key :
  Inv s log -> db_closed s = false ->
  (Get key s).1 = Ok (visible s (env_now (db_tick s)) key)
  /\ contents (Get key s).2 = contents s /\ Inv (Get key s).2 log.
Proof.
  intros HI Hcl. destruct (read_run s log key HI) as (t & q & _ & Hr).
  unfold Get. rewrite !(open_bnd (fun _ => _)), Hr by done. done.
Qed.

(** C11. [Get] looks the key up: it never fails on an open store, returns the
    stored value (inline or from a blob file) unless the key is absent or its
    expiry has passed, and changes neither the contents nor the invariant. *)
Theorem get_correct s log key :
  Inv s log -> db_closed s = false ->
  (Get key s).1 = Ok (visible s (env_now (db_tick s)) key)
  /\ contents (Get key s).2 = contents s /\ Inv (Get key s).2 log.
Proof. apply Get_run. Qed.

Lemma visible_frame s t q now key : visible (set_reap q (set_tick t s)) now key = visible s now key.
Proof. done. Qed.

(** [PrefixScan] returns exactly the keys with the prefix that have not
    expired, in ascending order and without duplicates. *)
Theorem prefixScan_correct s p :
  pk_ok (db_pk s) -> db_closed s = false ->
  (PrefixScan p s).1
  = Ok (e_key <$> filter (fun e => has_prefix p (e_key e) = true /\ expiredAt e (env_now (db_tick s)) = false)
                        (pk_scan (db_pk s)))
  /\ sl_sorted str_ltb (e_key <$> pk_scan (db_pk s)).
Proof.
  intros Hpk Hcl. split; last first.
  { pose proof (pk_sorted _ Hpk) as Hs. induction (pk_scan (db_pk s)) as [|e l IH]; [constructor|].
    apply sorted_cons_inv in Hs as [Hs Hlt]. rewrite fmap_cons. apply sorted_cons; [by apply IH|].
    intros k (x & -> & Hx)%list_elem_of_fmap. by apply Hlt. }
  unfold PrefixScan. rewrite (open_bnd (fun _ => _)), mget_bnd by done.
  unfold nowMillis, tick. unfold mbnd at 1 2. cbn [mok]. rewrite pk_prefix_spec by done.
  set (now := env_now (db_tick s)).
  assert (Hlive : forall es s1, exists s2, live_keys now es s1
            = (Ok (e_key <$> filter (fun e => expiredAt e now = false) es), s2)).
  { intros es. induction es as [|e es IH]; intros s1; [by eexists|]. cbn [live_keys].
    destruct (expiredAt e now) eqn:Hx.
    - rewrite filter_cons_False by congruence. unfold mbnd at 1. unfold reapAsync, mmodify. apply IH.
    - rewrite filter_cons_True by done. unfold mbnd. destruct (IH s1) as [s2 ->]. by eexists. }
  destruct (Hlive (filter (fun e => has_prefix p (e_key e) = true) (pk_scan (db_pk s))) (set_tick (S (db_tick s)) s)) as [s2 ->].
  cbn. do 2 f_equal. rewrite list_filter_filter. apply list_filter_iff'. intros x _. tauto.
Qed.
End read.
