(* ===== verification/Load.v ===== *)
(** * Opening a store: recovery (db.go, mainlog.go)

    [load] rebuilds the indexes from the hint, when it is usable, and the log
    after its watermark; [replayTail] applies each record of the log and cuts
    off a torn tail; [Open] adopts the declared schema and opens the files. *)

From S2P Require Import Prelude Floats Types Json Record BTree PkIndex SecIndex Hint Meta Store.
#[local] Open Scope Z_scope.

Definition DefaultBlobThreshold : Z := 64 * 2 ^ 10.

Section load.
Context {BT : BTreeG} {E : Env}.
#[local] Notation MD := (M DB).

(** ** The log scanner *)

(** The loop of [scanMainLog] over the bytes that are left.  The callback
    answers whether the record starts the torn tail ([errStopScan]). *)
Fixpoint scan_loop (fuel : nat) (rest : gostring) (off : Z) (fn : record -> Z -> Z -> MD bool) : MD Z :=
  match fuel with
  | O => merr EFuel
  | S fuel' =>
      fs_call ;;;                                   (* ReadBytes *)
      match cut_line rest with
      | None => mok off                             (* no newline: torn tail *)
      | Some (line, rest') =>
          match unmarshalRecord line with
          | None => mok off                         (* corrupt line *)
          | Some rec =>
              let n := wrap32 (zlen line + 1) in
              stop <- fn rec off n ;;
              if stop then mok off else scan_loop fuel' rest' (off + n) fn
          end
      end
  end.

Definition scanMainLog (from : Z) (fn : record -> Z -> Z -> MD bool) : MD Z :=
  s <- mget ;;
  match d_main (db_disk s) with
  | None => mok from
  | Some file =>
      fs_call ;;;                                   (* Open *)
      if from <? 0 then merr EIO                    (* Seek *)
      else let rest := drop (Z.to_nat from) file in
           scan_loop (S (length rest)) rest from fn
  end.

(** ** Replay *)

(** A blob reference past the end of its file. *)
Definition dangling (d : Disk) (r : record) : bool :=
  match r_Blob r with
  | Some b => zlen (blob_bytes d (br_Gen b)) <? wrap64 (br_Off b + br_Size b)
  | None => false
  end.

(** The callback of [replayTail]. *)
Definition replay_record (r : record) (off n : Z) : MD bool :=
  s <- mget ;;
  if dangling (db_disk s) r then mok true
  else if isTombstone r then
    retractSec (r_Key r) ;;;
    mmodify (fun s => set_pk (pk_remove (db_pk s) (r_Key r)).2 s) ;;;
    mok false
  else
    mmodify (fun s => set_pk (pk_upsert (db_pk s) (PkEntry (r_Key r) off n ∅ (r_Exp r))) s) ;;;
    refreshSec (r_Key r) (r_IX r) ;;;
    mok false.

Definition replayTail (from : Z) : MD unit :=
  endp <- scanMainLog from replay_record ;;
  s <- mget ;;
  match d_main (db_disk s) with
  | Some file =>
      if endp <? zlen file then
        fs_call ;;;
        mmodify (set_disk (fun d => set_d_main (Some (take (Z.to_nat endp) (main_bytes d))) d))
      else mok tt
  | None => mok tt
  end.

(** The entries of a usable hint. *)
Definition load_hint_entry (he : indexHintLine) : MD unit :=
  mmodify (fun s => set_pk (pk_load (db_pk s) (PkEntry (hl_Key he) (hl_Off he) (hl_N he) (hl_IX he) (hl_Exp he))) s) ;;;
  if decide (hl_IX he = ∅) then mok tt else insertSec (hl_Key he) (hl_IX he).

(** [load]: the hint counts only when it covers no more than the log holds. *)
Definition load : MD unit :=
  s <- mget ;;
  from <- (match loadIndexHint (d_hint (db_disk s)), d_main (db_disk s) with
           | Some (entries, covers), Some file =>
               if covers <=? zlen file then
                 mmodify (set_pk newPkIndex) ;;;
                 mfor load_hint_entry entries ;;;
                 mok covers
               else mok 0
           | _, _ => mok 0
           end) ;;
  replayTail from.

(** ** Schema *)

(** [writeMeta]: temp file and rename. *)
Definition writeMeta (idx : list metaIndex) : MD unit :=
  fs_call ;;; fs_call ;;; fsync ;;; fs_call ;;; fs_call ;;;
  mmodify (set_disk (set_d_meta (Some (meta_text idx)))).

Definition adoptSchema : MD unit :=
  s <- mget ;;
  let prior := loadMeta (d_meta (db_disk s)) in
  let a := adopt (md_Indexes prior) (0 <? pk_len (db_pk s)) (o_Indexes (db_opts s)) in
  mmodify (set_schema (ad_prospective a) (ad_dropped a)) ;;;
  writeMeta (ad_meta a).

(** ** Opening *)

(** The declared indexes by name. *)
Fixpoint declare (defs : list IndexDef) (m : gmap gostring secIndex) : res (gmap gostring secIndex) :=
  match defs with
  | [] => Ok m
  | def :: defs' =>
      if decide (d_Name def = []) then Err EIndexName
      else match m !! d_Name def with
           | Some _ => Err (EDupIndex (d_Name def))
           | None => declare defs' (<[d_Name def := newSecIndex def]> m)
           end
  end.

(** A store before anything is loaded. *)
Definition init_db (opts : Options) (d : Disk) (t : nat) : DB :=
  let opts := if o_BlobThreshold opts =? 0
              then mkOptions DefaultBlobThreshold (o_SyncEveryWrite opts) (o_HintEveryN opts) (o_Indexes opts)
              else opts in
  mkDB opts d 0 0 ∅ 0 newPkIndex ∅ 0 false ∅ ∅ [] 0 None t.

(** [openMainHandles]: the log is created when missing; its size is taken. *)
Definition openMainHandles : MD unit :=
  fs_call ;;; fs_call ;;; fs_call ;;;
  mmodify (fun s => set_disk (fun d => set_d_main (Some (main_bytes d)) d)
                      (set_size (zlen (main_bytes (db_disk s))) s)).

(** The generations present, and the one that takes new blobs. *)
Definition discoverBlobGens (d : Disk) : list Z := filter (fun g => 0 <= g) (map_to_list (d_blobs d)).*1.

Definition openBlobs (gen : Z) : MD unit :=
  fs_call ;;; fs_call ;;;
  mmodify (fun s =>
    set_blobs (<[gen := zlen (blob_bytes (db_disk s) gen)]> (db_blobs s))
      (set_disk (fun d => set_d_blobs (<[gen := blob_bytes d gen]> (d_blobs d)) d) s)).

(** A generation that is not open yet is opened. *)
Definition open_gen (g : Z) : MD unit :=
  s <- mget ;; match db_blobs s !! g with Some _ => mok tt | None => openBlobs g end.

Definition Open_body : MD unit :=
  fs_call ;;;                                       (* MkdirAll *)
  fs_call ;;;                                       (* acquireLock *)
  s <- mget ;;
  sec <- mres (declare (o_Indexes (db_opts s)) ∅) ;;
  mmodify (set_sec sec) ;;;
  load ;;;
  adoptSchema ;;;
  openMainHandles ;;;
  s <- mget ;;
  let gens := discoverBlobGens (db_disk s) in
  let cur := fold_left Z.max gens 0 in
  mfor open_gen (gens ++ [cur]) ;;;
  mmodify (set_curGen cur).

(** [Open]: the store, or an error and the files as they were left. *)
Definition Open (opts : Options) (d : Disk) (t : nat) : res DB * DB :=
  let '(r, s) := Open_body (init_db opts d t) in
  (match r with Ok _ => Ok s | Err e => Err e end, s).
End load.
