(* ===== verification/Recovery.v ===== *)
(** * Recovery (db.go, mainlog.go, indexhint.go)

    Opening a store rebuilds what the log says: replay of every complete record
    in order, from the start or from the watermark of a hint, and a torn tail
    cut off.  The theorems say which records survive a crash and that a hint
    only saves work. *)

From S2P Require Import Prelude Floats Types Json Record BTree PkIndex SecIndex Hint Meta Store SecMaint IndexStep LogSpec Invariant Ops Contents Load.
#[local] Open Scope Z_scope.

(** ** Torn tails *)

(** What is left of the file does not start with a record that replay accepts:
    no newline, a line that is not a record, or a record whose blob is not
    there. *)
Definition torn (d : Disk) (rest : gostring) : bool :=
  match cut_line rest with
  | None => true
  | Some (line, _) =>
      match unmarshalRecord line with
      | None => true
      | Some r => dangling d r
      end
  end.

(** The blob of a record lies inside a file of the disk. *)
Definition blob_there (d : Disk) (r : record) : Prop :=
  match r_Blob r with
  | None => True
  | Some b => 0 <= br_Off b /\ 0 <= br_Size b /\ br_Off b + br_Size b <= zlen (blob_bytes d (br_Gen b))
              /\ br_Off b + br_Size b <= MaxInt64 /\ is_Some (d_blobs d !! br_Gen b)
  end.

#[global] Instance blob_there_dec d r : Decision (blob_there d r).
Proof. unfold blob_there. destruct (r_Blob r); apply _. Defined.

Lemma blob_there_dangling d r : blob_there d r -> dangling d (norm_record r) = false.
Proof.
  unfold blob_there, dangling. cbn [norm_record with_ix r_Blob]. destruct (r_Blob r) as [b|]; [|done].
  intros (H1 & H2 & H3 & H4 & _). apply Z.ltb_ge. rewrite wrap64_id; [done|]. unfold in64, MinInt64. lia.
Qed.

(** A proper prefix of a line has no newline, so it is torn. *)
Lemma torn_partial d r k : rec_good r -> (k < length (enc_line r))%nat -> torn d (take k (enc_line r)) = true.
Proof.
  intros Hr Hk. destruct (rec_good_line r Hr) as (line & _ & He & Hnl & _). unfold torn. rewrite He in *.
  rewrite length_app in Hk. change (length newline) with 1%nat in Hk. rewrite take_app_le by lia.
  replace (cut_line (take k line)) with (@None (gostring * gostring)); [done|]. symmetry.
  assert (Hn : Byte.x0a ∉ take k line) by (intros Hin; apply Hnl; rewrite <- (take_drop k line); apply elem_of_app; by left).
  clear -Hn. induction (take k line) as [|b l IH]; [done|]. apply not_elem_of_cons in Hn as [Hb Hn].
  cbn [cut_line]. rewrite decide_False by done. by rewrite IH.
Qed.

(** Reading back loses no index value that JSON can carry. *)
Lemma norm_ix_empty (ix : IndexValues) : ix_ok ix -> norm_ix ix = ∅ -> ix = ∅.
Proof.
  intros Hok Hn. apply map_eq. intros k. rewrite lookup_empty. destruct (ix !! k) as [v|] eqn:Hk; [|done].
  destruct (Hok k v Hk) as [_ [w Hw]]. apply (f_equal (fun m => m !! k)) in Hn. unfold norm_ix in Hn.
  rewrite lookup_omap, Hk in Hn. cbn in Hn. by rewrite Hw, lookup_empty in Hn.
Qed.

Section replay.
Context {BT : BTreeG} {BL : BTreeGLaws BT} {E : Env} {EL : EnvLaws E}.
Implicit Types (s : DB) (log : list record).

Lemma fs_call_ok s : no_faults E -> fs_call s = (Ok tt, set_tick (S (db_tick s)) s).
Proof. intros (_ & _ & H). unfold fs_call, tick, mbnd. by rewrite H. Qed.

Lemma fs_bnd {A} (k : unit -> M DB A) s : no_faults E ->
  (fs_call ;;; k tt) s = k tt (set_tick (S (db_tick s)) s).
Proof. intros H. by rewrite (mbnd_ok _ _ _ _ _ (fs_call_ok s H)). Qed.

Lemma fsync_bnd {A} (k : unit -> M DB A) s : no_faults E ->
  (fsync ;;; k tt) s = k tt (set_tick (S (db_tick s)) s).
Proof. intros H. by rewrite (mbnd_ok _ _ _ _ _ (fsync_clean s (no_faults_clean E H))). Qed.

(** The indexes are those of the records [log]. *)
Definition loaded s log : Prop := agree (lidx log) (live s) /\ idx_inv s.

Lemma replay_step s log r : loaded s log -> rec_good r -> blob_there (db_disk s) r ->
  exists s', replay_record (norm_record r) (zlen (enc log)) (zlen (enc_line r)) s = (Ok false, s')
    /\ only_indexes s s' /\ loaded s' (log ++ [r]).
Proof.
  intros [Ha Hi] Hr Hb. unfold replay_record. rewrite mget_bnd, (blob_there_dangling _ _ Hb).
  change (isTombstone (norm_record r)) with (r_Deleted r). change (r_Key (norm_record r)) with (r_Key r).
  destruct (r_Deleted r) eqn:Hd.
  - destruct (del_index s (r_Key r) Hi) as (s' & Hrun & Ho & Hi' & Hl). exists s'. split.
    + unfold mbnd in Hrun |- *. destruct (retractSec (r_Key r) s) as [[[]|] s1]; [|done]. by rewrite Hrun.
    + split; [done|]. split; [|done]. rewrite Hl, lidx_snoc. unfold apply_rec, isTombstone. rewrite Hd. by apply agree_delete.
  - destruct (put_index s (r_Key r) (zlen (enc log)) (zlen (enc_line r)) (norm_ix (r_IX r)) (r_Exp r) Hi (norm_ix_nn _))
      as (s' & Hrun & Ho & Hi' & Hl). exists s'. split.
    + change (r_Exp (norm_record r)) with (r_Exp r). change (r_IX (norm_record r)) with (norm_ix (r_IX r)).
      unfold mbnd, mmodify in Hrun |- *. by rewrite Hrun.
    + split; [done|]. split; [|done]. rewrite Hl, lidx_snoc. unfold apply_rec, isTombstone. rewrite Hd.
      apply agree_insert; [done|]. repeat split; [apply norm_ix_empty, Hr|]. by exists 1%nat.
Qed.

Lemma only_indexes_disk s s' : only_indexes s s' -> db_disk s' = db_disk s.
Proof. by intros (p & m & t & -> & _). Qed.

Lemma only_indexes_tick s t : only_indexes s (set_tick t s).
Proof. exists (db_pk s), (db_sec s), t. by destruct s. Qed.

(** A torn tail ends the scan. *)
Lemma scan_torn s rest off fuel : no_faults E -> torn (db_disk s) rest = true ->
  scan_loop (S fuel) rest off replay_record s = (Ok off, set_tick (S (db_tick s)) s).
Proof.
  intros Hnf Ht. cbn [scan_loop]. rewrite (fs_bnd (fun _ => _)) by done. unfold torn in Ht.
  destruct (cut_line rest) as [[line rest']|]; [|done]. destruct (unmarshalRecord line) as [r|]; [|done].
  unfold replay_record. unfold mbnd at 1 2. cbn [mget]. change (db_disk (set_tick _ s)) with (db_disk s). by rewrite Ht.
Qed.

(** The scan applies every record before the torn tail, in order. *)
Lemma scan_replay log2 : forall fuel log1 s rest, no_faults E -> loaded s log1 ->
  Forall rec_good log2 -> Forall (blob_there (db_disk s)) log2 -> torn (db_disk s) rest = true ->
  (length log2 < fuel)%nat ->
  exists s', scan_loop fuel (enc log2 ++ rest) (zlen (enc log1)) replay_record s = (Ok (zlen (enc (log1 ++ log2))), s')
    /\ only_indexes s s' /\ loaded s' (log1 ++ log2).
Proof.
  induction log2 as [|r log2 IH]; intros [|fuel] log1 s rest Hnf HL Hg Hb Ht Hf; [simpl in Hf; lia| |simpl in Hf; lia|].
  { eexists. split; [rewrite app_nil_r; by apply scan_torn|]. rewrite app_nil_r. split; [apply only_indexes_tick|done]. }
  apply Forall_cons in Hg as [Hr Hg]. apply Forall_cons in Hb as [Hb1 Hb]. simpl in Hf.
  destruct (rec_good_line r Hr) as (line & _ & He & Hnl & Hu & Hn).
  cbn [scan_loop]. rewrite (fs_bnd (fun _ => _)) by done. cbn [enc].
  replace ((enc_line r ++ enc log2) ++ rest) with (line ++ Byte.x0a :: (enc log2 ++ rest))
    by (rewrite He; unfold newline; by rewrite <- !app_assoc).
  rewrite cut_line_app, Hu, Hn by done.
  destruct (replay_step (set_tick (S (db_tick s)) s) log1 r HL Hr Hb1) as (s1 & Hrun & Ho1 & HL1).
  rewrite (mbnd_ok _ _ _ _ _ Hrun). pose proof (only_indexes_disk _ _ Ho1) as Hd. cbn in Hd.
  replace (zlen (enc log1) + zlen (enc_line r)) with (zlen (enc (log1 ++ [r]))) by (by rewrite enc_snoc, zlen_app).
  destruct (IH fuel (log1 ++ [r]) s1 rest) as (s2 & Hrun2 & Ho2 & HL2); try done; [by rewrite Hd|by rewrite Hd|lia|].
  rewrite <- app_assoc in *. exists s2. split; [exact Hrun2|]. split; [|done].
  eapply only_indexes_trans; [apply only_indexes_tick|]. eapply only_indexes_trans; [exact Ho1|exact Ho2].
Qed.

(** Only the indexes, the step counter and the main file changed. *)
Definition recovered s (f : gostring) s' : Prop := only_indexes (set_disk (set_d_main (Some f)) s) s'.

Lemma enc_length log : (length log <= length (enc log))%nat.
Proof.
  induction log as [|r log IH]; [done|]. cbn [enc]. rewrite length_app. pose proof (enc_line_pos r).
  unfold zlen in *. simpl. lia.
Qed.

Lemma set_main_id s f : d_main (db_disk s) = Some f -> set_disk (set_d_main (Some f)) s = s.
Proof. intros H. destruct s as [o [m h me b]]. cbn in H. by subst. Qed.

(** [replayTail] from a record boundary. *)
Lemma replayTail_run log1 log2 rest s : no_faults E -> loaded s log1 ->
  d_main (db_disk s) = Some (enc (log1 ++ log2) ++ rest) ->
  Forall rec_good log2 -> Forall (blob_there (db_disk s)) log2 -> torn (db_disk s) rest = true ->
  exists s', replayTail (zlen (enc log1)) s = (Ok tt, s')
    /\ recovered s (enc (log1 ++ log2)) s' /\ loaded s' (log1 ++ log2).
Proof.
  intros Hnf HL Hm Hg Hb Ht. unfold replayTail.
  assert (Hdrop : drop (Z.to_nat (zlen (enc log1))) (enc (log1 ++ log2) ++ rest) = enc log2 ++ rest).
  { rewrite enc_app, <- app_assoc. unfold zlen. rewrite Nat2Z.id. by rewrite drop_app_length. }
  destruct (scan_replay log2 (S (length (enc log2 ++ rest))) log1 (set_tick (S (db_tick s)) s) rest) as (s1 & Hrun & Ho & HL1);
    try done; [rewrite length_app; pose proof (enc_length log2); lia|].
  assert (Hscan : scanMainLog (zlen (enc log1)) replay_record s = (Ok (zlen (enc (log1 ++ log2))), s1)).
  { unfold scanMainLog. rewrite mget_bnd, Hm, (fs_bnd (fun _ => _)) by done.
    rewrite (proj2 (Z.ltb_ge (zlen (enc log1)) 0)) by apply zlen_nonneg. by rewrite Hdrop. }
  rewrite (mbnd_ok _ _ _ _ _ Hscan), mget_bnd. pose proof (only_indexes_disk _ _ Ho) as Hd. cbn in Hd. rewrite Hd, Hm.
  assert (Ho' : only_indexes s s1) by (eapply only_indexes_trans; [apply only_indexes_tick|exact Ho]).
  destruct (Z.ltb_spec (zlen (enc (log1 ++ log2))) (zlen (enc (log1 ++ log2) ++ rest))) as [Hlt|Hge].
  - rewrite (fs_bnd (fun _ => _)) by done. unfold mmodify. eexists. split; [done|]. split; [|done].
    assert (Htk : take (Z.to_nat (zlen (enc (log1 ++ log2)))) (enc (log1 ++ log2) ++ rest) = enc (log1 ++ log2))
      by (unfold zlen; by rewrite Nat2Z.id, take_app_length).
    destruct Ho' as (p & m & t & -> & Hdecl). exists p, m, (S t). split; [|done].
    unfold set_disk, main_bytes. cbn. rewrite Hm. cbn. unfold id. by rewrite Htk.
  - assert (rest = []) as ->.
    { rewrite zlen_app in Hge. destruct rest; [done|]. rewrite zlen_cons in Hge. pose proof (zlen_nonneg rest). lia. }
    rewrite app_nil_r in Hm. exists s1. split; [done|]. split; [|done]. unfold recovered. by rewrite set_main_id.
Qed.

(** ** Loading a hint *)

Definition norm_entry (e : pkEntry) : pkEntry := set_ix e (norm_ix (e_ix e)).

Lemma norm_entry_agree (lm : gmap gostring (Z * record)) (pk : gmap gostring pkEntry) : agree lm pk -> map_Forall (fun _ e => ix_ok (e_ix e)) pk ->
  agree lm (norm_entry <$> pk).
Proof.
  intros H Hok k. specialize (H k). rewrite lookup_fmap. inversion H as [x e He Hx Hy|Hx Hy]; constructor.
  destruct He as (? & ? & ? & ? & Hem & n & Hn). symmetry in Hy. specialize (Hok k e Hy). repeat split; try done.
  - cbn. intros Hz. by apply Hem, norm_ix_empty.
  - exists (S n). cbn. by rewrite Hn.
Qed.

Lemma load_hint_entry_run e s : idx_inv s -> live s !! e_key e = None ->
  exists s', load_hint_entry (norm_hint e) s = (Ok tt, s')
    /\ only_indexes s s' /\ idx_inv s' /\ live s' = <[e_key e := norm_entry e]> (live s).
Proof.
  intros (Hpk & HM & Hnn) Hfresh. unfold load_hint_entry. cbn [norm_hint hl_Key hl_Off hl_N hl_IX hl_Exp].
  set (e' := PkEntry (e_key e) (e_off e) (e_n e) (norm_ix (e_ix e)) (e_exp e)).
  assert (He' : e' = norm_entry e) by done. clearbody e'. subst e'.
  assert (Hmap : pk_map (pk_load (db_pk s) (norm_entry e)) = <[e_key e := norm_entry e]> (live s)) by exact (pk_load_map (db_pk s) (norm_entry e) Hpk).
  assert (HM' : matches (sec_insert (e_key e) (norm_ix (e_ix e)) (db_sec s)) (<[e_key e := norm_entry e]> (live s))).
  { apply (matches_insert _ _ (e_key e) e); [done|by rewrite Hfresh|apply norm_ix_nn]. }
  assert (Hnn' : map_Forall (fun _ x => ix_nn (e_ix x)) (<[e_key e := norm_entry e]> (live s))).
  { apply map_Forall_insert_2; [apply norm_ix_nn|done]. }
  assert (Hok : pk_ok (pk_load (db_pk s) (norm_entry e))) by (by apply bt_load_pk_ok).
  unfold mbnd at 1, mmodify at 1. case_decide as Hd.
  - rewrite Hd, sec_insert_empty in HM'. eexists. split; [done|]. split; [|split; [|done]].
    + exists (pk_load (db_pk s) (norm_entry e)), (db_sec s), (db_tick s). by destruct s.
    + unfold idx_inv, live. cbn. by rewrite Hmap.
  - rewrite insertSec_run. eexists. split; [done|]. split; [|split; [|done]].
    + eexists (pk_load (db_pk s) (norm_entry e)), _, _. split; [done|]. apply sec_insert_decl.
    + unfold idx_inv, live. cbn. by rewrite Hmap.
Qed.

Lemma load_hint_entries es : forall s, idx_inv s -> NoDup (e_key <$> es) ->
  Forall (fun e => live s !! e_key e = None) es ->
  exists s', mfor load_hint_entry (norm_hint <$> es) s = (Ok tt, s')
    /\ only_indexes s s' /\ idx_inv s'
    /\ live s' = list_to_map ((fun e => (e_key e, norm_entry e)) <$> es) ∪ live s.
Proof.
  induction es as [|e es IH]; intros s Hi Hnd HF.
  { exists s. split; [done|]. split; [apply only_indexes_refl|]. split; [done|]. simpl. by rewrite (left_id_L ∅ (∪)). }
  apply Forall_cons in HF as [He HF]. rewrite fmap_cons in Hnd. apply NoDup_cons in Hnd as [Hnin Hnd].
  destruct (load_hint_entry_run e s Hi He) as (s1 & Hrun & Ho1 & Hi1 & Hl1).
  destruct (IH s1 Hi1 Hnd) as (s2 & Hrun2 & Ho2 & Hi2 & Hl2).
  { apply Forall_forall. intros x Hx. rewrite Forall_forall in HF. rewrite Hl1, lookup_insert_ne; [by apply HF|].
    intros Hk. apply Hnin. rewrite Hk. by apply list_elem_of_fmap_2. }
  exists s2. split; [rewrite fmap_cons; cbn [mfor]; by rewrite (mbnd_ok _ _ _ _ _ Hrun)|].
  split; [by eapply only_indexes_trans|]. split; [done|]. rewrite Hl2, Hl1. rewrite fmap_cons. cbn [list_to_map foldr].
  simpl. rewrite <- insert_union_l, insert_union_r; [done|].
  apply not_elem_of_list_to_map_1. intros Hin. apply Hnin. rewrite <- list_fmap_compose in Hin. exact Hin.
Qed.
End replay.

(** ** [load] *)

Section load.
Context {BT : BTreeG} {BL : BTreeGLaws BT} {E : Env} {EL : EnvLaws E}.
Implicit Types (s : DB) (log : list record).

Lemma hint_ix_ok (t : pkIndex) : pk_ok t -> Forall hint_entry_ok (pk_scan t) -> map_Forall (fun _ e => ix_ok (e_ix e)) (pk_map t).
Proof.
  intros Hpk HF k e Hk. rewrite Forall_forall in HF. apply HF. apply pk_scan_elem; [done|].
  by rewrite (pk_map_key t k e).
Qed.

(** The hint on the disk lets replay start after the records [log1]: it is a
    snapshot of their index, or there is none that can be used. *)
Definition hint_covers (d : Disk) log1 : Prop :=
  (log1 = [] /\ match loadIndexHint (d_hint d) with
                | None => True
                | Some (_, covers) => zlen (main_bytes d) < covers
                end)
  \/ exists t, pk_ok t /\ agree (lidx log1) (pk_map t) /\ map_Forall (fun _ e => ix_ok (e_ix e)) (pk_map t)
        /\ loadIndexHint (d_hint d) = Some (norm_hint <$> pk_scan t, zlen (enc log1)).

(** Nothing is loaded yet. *)
Definition fresh s : Prop := db_pk s = newPkIndex /\ matches (db_sec s) ∅.

Lemma fresh_loaded s : fresh s -> loaded s [] /\ live s = ∅.
Proof.
  intros [Hpk HM]. assert (Hl : live s = ∅) by (unfold live; rewrite Hpk; apply newPkIndex_map).
  split; [|done]. split; [rewrite Hl; intros k; unfold lidx; cbn [index_from]; rewrite !lookup_empty; constructor|].
  split; [rewrite Hpk; apply newPkIndex_ok|]. rewrite Hl. split; [done|]. apply map_Forall_empty.
Qed.

Lemma snapshot_map (t : pkIndex) :
  (list_to_map ((fun e => (e_key e, norm_entry e)) <$> pk_scan t) : gmap gostring pkEntry) = norm_entry <$> pk_map t.
Proof.
  unfold pk_map. rewrite <- list_to_map_fmap, <- list_fmap_compose. done.
Qed.

Lemma load_run log1 log2 rest s : no_faults E -> fresh s -> hint_covers (db_disk s) log1 ->
  d_main (db_disk s) = Some (enc (log1 ++ log2) ++ rest) ->
  Forall rec_good (log1 ++ log2) -> Forall (blob_there (db_disk s)) log2 -> torn (db_disk s) rest = true ->
  exists s', load s = (Ok tt, s') /\ recovered s (enc (log1 ++ log2)) s' /\ loaded s' (log1 ++ log2).
Proof.
  intros Hnf Hfr Hh Hm Hg Hb Ht. apply Forall_app in Hg as [_ Hg].
  destruct (fresh_loaded s Hfr) as [HL0 Hl0]. unfold load. rewrite mget_bnd, Hm.
  destruct Hh as [[-> Hh]|(t & Hpk & Ha & Hixs & Hh)].
  - assert (Hfrom : forall k, (match loadIndexHint (d_hint (db_disk s)) with
        | Some (entries, covers) =>
            if covers <=? zlen (enc ([] ++ log2) ++ rest) then
              mmodify (set_pk newPkIndex) ;;; mfor load_hint_entry entries ;;; mok covers
            else mok 0
        | None => mok 0
        end : M DB Z) k = (Ok 0, k)).
    { intros k. destruct (loadIndexHint _) as [[es c]|]; [|done]. unfold main_bytes in Hh. rewrite Hm in Hh. cbn in Hh.
      assert (c <=? zlen (enc ([] ++ log2) ++ rest) = false) as -> by (apply Z.leb_gt; exact Hh). done. }
    rewrite (mbnd_ok _ _ _ _ _ (Hfrom s)). by apply (replayTail_run [] log2 rest).
  - rewrite Hh, enc_app, <- app_assoc, (zlen_app (enc log1)).
    rewrite (proj2 (Z.leb_le _ _)) by (pose proof (zlen_nonneg (enc log2 ++ rest)); lia).
    destruct Hfr as [Hpk0 HM0].
    assert (Hs : set_pk newPkIndex s = s) by (rewrite <- Hpk0; by destruct s).
    destruct (load_hint_entries (pk_scan t) s) as (s1 & Hrun & Ho & Hi & Hl).
    { apply HL0. } { by apply pk_keys_NoDup. } { apply Forall_forall. intros e _. rewrite Hl0. apply lookup_empty. }
    assert (Hfrom : (mmodify (set_pk newPkIndex) ;;; mfor load_hint_entry (norm_hint <$> pk_scan t) ;;; mok (zlen (enc log1))) s
                    = (Ok (zlen (enc log1)), s1)).
    { unfold mmodify. unfold mbnd at 1. rewrite Hs. by rewrite (mbnd_ok _ _ _ _ _ Hrun). }
    rewrite (mbnd_ok _ _ _ _ _ Hfrom). pose proof (only_indexes_disk _ _ Ho) as Hd.
    rewrite Hl0, snapshot_map, (right_id_L ∅ (∪)) in Hl.
    destruct (replayTail_run log1 log2 rest s1) as (s2 & Hrun2 & Ho2 & HL2); try done;
      [split; [rewrite Hl; by apply norm_entry_agree|done]|by rewrite Hd|by rewrite Hd..|].
    exists s2. split; [exact Hrun2|]. split; [|done]. destruct Ho as (p & m & t1 & -> & Hdecl).
    destruct Ho2 as (p2 & m2 & t2 & -> & Hdecl2). exists p2, m2, t2. split; [by rewrite enc_app|]. by rewrite Hdecl2.
Qed.

(** No log yet. *)
Lemma load_missing s : no_faults E -> fresh s -> d_main (db_disk s) = None -> load s = (Ok tt, s).
Proof.
  intros Hnf Hfr Hm. unfold load. rewrite mget_bnd, Hm.
  assert (Hfrom : forall k, (match loadIndexHint (d_hint (db_disk s)) with
      | Some (_, _) => mok 0 | None => mok 0 end : M DB Z) k = (Ok 0, k)) by (intros k; by destruct (loadIndexHint _) as [[]|]).
  rewrite (mbnd_ok _ _ _ _ _ (Hfrom s)). unfold replayTail, scanMainLog. unfold mbnd at 1. rewrite mget_bnd, Hm.
  cbn [mok]. by rewrite mget_bnd, Hm.
Qed.
End load.

(** ** [Open] *)

Section open.
Context {BT : BTreeG} {BL : BTreeGLaws BT} {E : Env} {EL : EnvLaws E}.
Implicit Types (s : DB) (log : list record).

Lemma declare_fresh defs : forall m sec, declare defs m = Ok sec ->
  map_Forall (fun _ si => sec_ok si /\ bt_scan (si_tree si) = []) m ->
  map_Forall (fun _ si => sec_ok si /\ bt_scan (si_tree si) = []) sec.
Proof.
  induction defs as [|def defs IH]; intros m sec; cbn [declare]; [by intros [= ->]|].
  case_decide; [done|]. destruct (m !! d_Name def); [done|]. intros Hd Hm. apply (IH _ _ Hd).
  apply map_Forall_insert_2; [|done]. split; [apply newSecIndex_ok|]. apply law_new_scan.
Qed.

Lemma adoptSchema_run s : no_faults E -> exists t pr dr mt,
  adoptSchema s = (Ok tt, set_tick t (set_disk (set_d_meta mt) (set_schema pr dr s))).
Proof.
  intros Hnf. unfold adoptSchema. rewrite mget_bnd. unfold mmodify at 1. unfold mbnd at 1.
  unfold writeMeta. rewrite !(fs_bnd (fun _ => _)), (fsync_bnd (fun _ => _)), !(fs_bnd (fun _ => _)) by done.
  unfold mmodify. by eexists _, _, _, _.
Qed.

Lemma openMainHandles_run s : no_faults E -> exists t,
  openMainHandles s = (Ok tt, set_tick t (set_disk (set_d_main (Some (main_bytes (db_disk s))))
                                            (set_size (zlen (main_bytes (db_disk s))) s))).
Proof.
  intros Hnf. unfold openMainHandles. rewrite !(fs_bnd (fun _ => _)) by done. unfold mmodify. by eexists.
Qed.

(** Only the blob stores changed, and no blob file lost or gained bytes; the
    generations [gs] are open. *)
Definition blobs_opened (gs : list Z) s s' : Prop :=
  exists t b bf, s' = set_tick t (set_blobs b (set_disk (set_d_blobs bf) s))
    /\ (forall g, blob_bytes (db_disk s') g = blob_bytes (db_disk s) g)
    /\ (forall g, is_Some (d_blobs (db_disk s) !! g) -> is_Some (bf !! g))
    /\ (forall g, g ∈ gs -> is_Some (b !! g))
    /\ map_Forall (fun g sz => is_Some (bf !! g) /\ sz = zlen (blob_bytes (db_disk s') g)) b.

Definition blobs_sized s : Prop :=
  map_Forall (fun g sz => is_Some (d_blobs (db_disk s) !! g) /\ sz = zlen (blob_bytes (db_disk s) g)) (db_blobs s).

Lemma open_gen_run g s : no_faults E -> blobs_sized s ->
  exists s', open_gen g s = (Ok tt, s') /\ blobs_opened [g] s s'
    /\ forall g', is_Some (db_blobs s !! g') -> is_Some (db_blobs s' !! g').
Proof.
  intros Hnf Hs. unfold open_gen. rewrite mget_bnd. destruct (db_blobs s !! g) as [sz|] eqn:Hg.
  - exists s. split; [done|]. split; [|done]. exists (db_tick s), (db_blobs s), (d_blobs (db_disk s)).
    split_and!; try done; [by destruct s as [o []]|]. intros g' ->%list_elem_of_singleton. eauto.
  - unfold openBlobs. rewrite !(fs_bnd (fun _ => _)) by done. unfold mmodify. eexists. split; [done|].
    assert (Hbytes : forall g', blob_bytes (set_d_blobs (<[g := blob_bytes (db_disk s) g]> (d_blobs (db_disk s))) (db_disk s)) g'
              = blob_bytes (db_disk s) g').
    { intros g'. unfold blob_bytes at 1. cbn. destruct (decide (g' = g)) as [->|Hne];
        [by rewrite lookup_insert_eq|by rewrite lookup_insert_ne]. }
    split; [|intros g' Hg'; cbn; destruct (decide (g' = g)) as [->|Hne]; [rewrite lookup_insert_eq; eauto|by rewrite lookup_insert_ne]].
    exists (S (S (db_tick s))), (<[g := zlen (blob_bytes (db_disk s) g)]> (db_blobs s)),
      (<[g := blob_bytes (db_disk s) g]> (d_blobs (db_disk s))). split; [done|]. split; [exact Hbytes|]. split_and!.
    + intros g' Hg'. destruct (decide (g' = g)) as [->|Hne]; [rewrite lookup_insert_eq; eauto|by rewrite lookup_insert_ne].
    + intros g' ->%list_elem_of_singleton. rewrite lookup_insert_eq. eauto.
    + apply map_Forall_insert_2.
      * split; [rewrite lookup_insert_eq; eauto|]. symmetry. f_equal. exact (Hbytes g).
      * intros g' sz Hg'. destruct (Hs g' sz Hg') as [Hex ->]. split; [|by f_equal; symmetry; exact (Hbytes g')].
        destruct (decide (g' = g)) as [->|Hne]; [rewrite lookup_insert_eq; eauto|by rewrite lookup_insert_ne].
Qed.

Lemma open_gens_run gs : forall s, no_faults E -> blobs_sized s ->
  exists s', mfor open_gen gs s = (Ok tt, s') /\ blobs_opened gs s s'
    /\ forall g', is_Some (db_blobs s !! g') -> is_Some (db_blobs s' !! g').
Proof.
  induction gs as [|g gs IH]; intros s Hnf Hs.
  { exists s. split; [done|]. split; [|done]. exists (db_tick s), (db_blobs s), (d_blobs (db_disk s)).
    split_and!; try done; [by destruct s as [o []]|]. by intros g ?%elem_of_nil. }
  destruct (open_gen_run g s Hnf Hs) as (s1 & Hrun & (t & b & bf & -> & Hb1 & Hb2 & Hb3 & Hb4) & Hb5).
  set (s1 := set_tick t (set_blobs b (set_disk (set_d_blobs bf) s))) in *.
  destruct (IH s1 Hnf Hb4) as (s2 & Hrun2 & (t2 & b2 & bf2 & -> & Hc1 & Hc2 & Hc3 & Hc4) & Hc5).
  eexists. split; [cbn [mfor]; rewrite (mbnd_ok _ _ _ _ _ Hrun); exact Hrun2|]. split; [|by intros g' ?%Hb5%Hc5].
  exists t2, b2, bf2. split; [done|]. split_and!; [..|exact Hc4].
  - intros g'. rewrite <- Hb1. exact (Hc1 g').
  - intros g' Hg'. by apply Hc2, Hb2.
  - intros g' [->|Hg']%elem_of_cons; [|by apply Hc3]. apply (Hc5 g), Hb3. by left.
Qed.

(** ** What [Open] finds *)

Definition gens_ok (d : Disk) : Prop := map_Forall (fun g _ => 0 <= g <= MaxInt64) (d_blobs d).

(** The main file holds the records [log1 ++ log2] and a torn tail, the hint
    covers [log1] at most, and the blobs of the records are there. *)
Definition on_disk (d : Disk) log1 log2 (rest : gostring) : Prop :=
  main_bytes d = enc (log1 ++ log2) ++ rest /\ hint_covers d log1 /\ torn d rest = true
  /\ Forall rec_good (log1 ++ log2) /\ Forall (blob_there d) (log1 ++ log2) /\ gens_ok d.

Lemma fold_max_ge (gs : list Z) c : c <= fold_left Z.max gs c /\ (forall g, g ∈ gs -> g <= fold_left Z.max gs c)
  /\ (fold_left Z.max gs c = c \/ fold_left Z.max gs c ∈ gs).
Proof.
  revert c. induction gs as [|g gs IH]; intros c; cbn [fold_left]; [split_and!; [lia|by intros g ?%elem_of_nil|by left]|].
  destruct (IH (Z.max c g)) as (H1 & H2 & H3). split_and!; [lia| |].
  - intros g' [->|Hg]%elem_of_cons; [lia|auto].
  - destruct H3 as [->|H3]; [|right; by right]. destruct (Z.max_spec c g) as [[? ->]|[? ->]]; [right; by left|by left].
Qed.

Lemma gens_found d : gens_ok d -> forall g, is_Some (d_blobs d !! g) -> g ∈ discoverBlobGens d.
Proof.
  intros Hg g [f Hf]. unfold discoverBlobGens. apply list_elem_of_filter. split; [apply (Hg g f Hf)|].
  apply list_elem_of_fmap. exists (g, f). split; [done|]. by apply elem_of_map_to_list.
Qed.

Lemma gens_cur d : gens_ok d -> 0 <= fold_left Z.max (discoverBlobGens d) 0 <= MaxInt64.
Proof.
  intros Hg. destruct (fold_max_ge (discoverBlobGens d) 0) as (H1 & _ & H3). split; [done|].
  destruct H3 as [->|H3]; [unfold MaxInt64; lia|]. unfold discoverBlobGens in H3 at 2.
  apply list_elem_of_filter in H3 as [_ H3]. apply list_elem_of_fmap in H3 as ([g f] & -> & Hin%elem_of_map_to_list).
  apply (Hg g f Hin).
Qed.

(** The last steps of [Open], once the indexes are loaded. *)
Lemma open_handles s log : no_faults E -> loaded s log -> main_bytes (db_disk s) = enc log -> db_blobs s = ∅ ->
  Forall rec_good log -> Forall (blob_there (db_disk s)) log -> gens_ok (db_disk s) ->
  exists s', (adoptSchema ;;; openMainHandles ;;;
     s <- mget ;;
     let gens := discoverBlobGens (db_disk s) in
     let cur := fold_left Z.max gens 0 in
     mfor open_gen (gens ++ [cur]) ;;; mmodify (set_curGen cur)) s = (Ok tt, s')
    /\ Inv s' log /\ db_closed s' = db_closed s /\ (forall g, blob_bytes (db_disk s') g = blob_bytes (db_disk s) g)
    /\ db_sec s' = db_sec s /\ live s' = live s.
Proof.
  intros Hnf [Ha Hi] Hm Hb0 Hg Hb Hgens.
  destruct (adoptSchema_run s Hnf) as (t1 & pr & dr & mt & H1). rewrite (mbnd_ok _ _ _ _ _ H1).
  set (s1 := set_tick t1 _) in *. destruct (openMainHandles_run s1 Hnf) as (t2 & H2).
  rewrite (mbnd_ok _ _ _ _ _ H2). change (main_bytes (db_disk s1)) with (main_bytes (db_disk s)) in *. rewrite Hm in *.
  set (s2 := set_tick t2 _) in *. rewrite mget_bnd. cbv zeta. change (discoverBlobGens (db_disk s2)) with (discoverBlobGens (db_disk s)).
  set (cur := fold_left Z.max (discoverBlobGens (db_disk s)) 0).
  destruct (open_gens_run (discoverBlobGens (db_disk s) ++ [cur]) s2 Hnf) as (s3 & H3 & (t3 & b & bf & -> & Hc1 & Hc2 & Hc3 & Hc4) & _).
  { unfold blobs_sized. change (db_blobs s2) with (db_blobs s). rewrite Hb0. apply map_Forall_empty. }
  rewrite (mbnd_ok _ _ _ _ _ H3). unfold mmodify. eexists. split; [done|]. split_and!; try done.
  unfold Inv. split_and!; try done. unfold blob_inv. split_and!.
  - exact Hc4.
  - apply Hc3, elem_of_app. right. by left.
  - pose proof (gens_cur _ Hgens). unfold in64, MinInt64. cbn. unfold cur. lia.
  - eapply Forall_impl; [exact Hb|]. intros r. unfold blob_there. destruct (r_Blob r) as [rb|]; [|done].
    intros (B1 & B2 & B3 & B4 & B5). unfold blob_ref_ok. split_and!; try done.
    + pose proof (Hc1 (br_Gen rb)) as Hbb. cbn in Hbb |- *. by rewrite Hbb.
    + apply Hc3, elem_of_app. left. by apply gens_found.
Qed.

Lemma open_run opts d log1 log2 rest sec t : no_faults E -> declare (o_Indexes opts) ∅ = Ok sec ->
  on_disk d log1 log2 rest ->
  exists s, Open opts d t = (Ok s, s) /\ Inv s (log1 ++ log2) /\ db_closed s = false
    /\ (forall g, blob_bytes (db_disk s) g = blob_bytes d g) /\ decl_of <$> db_sec s = decl_of <$> sec.
Proof.
  intros Hnf Hdecl (Hm & Hh & Ht & Hg & Hb & Hgens). unfold Open, Open_body.
  rewrite !(fs_bnd (fun _ => _)), mget_bnd by done.
  set (s0 := set_tick _ (set_tick _ (init_db opts d t))).
  assert (Hd0 : declare (o_Indexes (db_opts s0)) ∅ = Ok sec)
    by (unfold s0, init_db; cbn [db_opts set_tick]; by destruct (o_BlobThreshold opts =? 0)).
  rewrite Hd0. unfold mres at 1. unfold mbnd at 1. unfold mmodify at 1. unfold mbnd at 1.
  set (s1 := set_sec sec s0).
  assert (Hfr : fresh s1).
  { split; [done|]. apply matches_empty_pk. eapply declare_fresh; [exact Hd0|apply map_Forall_empty]. }
  assert (Hload : exists s2, load s1 = (Ok tt, s2) /\ loaded s2 (log1 ++ log2)
            /\ (exists f p m t2, s2 = set_tick t2 (set_sec m (set_pk p (set_disk (set_d_main f) s1))))
            /\ main_bytes (db_disk s2) = enc (log1 ++ log2) /\ decl_of <$> db_sec s2 = decl_of <$> sec).
  { destruct (d_main d) as [file|] eqn:Hf.
    - unfold main_bytes in Hm. rewrite Hf in Hm. cbn in Hm. unfold id in Hm. subst file.
      destruct (load_run log1 log2 rest s1 Hnf Hfr Hh Hf Hg) as (s2 & Hrun & Ho & HL); try done.
      { by apply Forall_app in Hb as [_ ?]. }
      exists s2. destruct Ho as (p & m & t2 & -> & Hdc). split_and!; try done. by eexists _, p, m, t2.
    - unfold main_bytes in Hm. rewrite Hf in Hm. symmetry in Hm. cbn in Hm. apply app_nil in Hm as [Hm _].
      assert (Hnil : log1 ++ log2 = []).
      { destruct (log1 ++ log2) as [|r l]; [done|]. cbn [enc] in Hm. apply app_nil in Hm as [Hm _].
        pose proof (enc_line_pos r) as Hp. by rewrite Hm in Hp. }
      rewrite Hnil. exists s1. destruct (fresh_loaded s1 Hfr) as [HL _]. split; [by apply load_missing|]. split_and!; try done.
      + exists (d_main d), (db_pk s1), (db_sec s1), (db_tick s1). by destruct d.
      + change (db_disk s1) with d. unfold main_bytes. by rewrite Hf. }
  destruct Hload as (s2 & Hrun & HL & (f & p & m & t2 & Hs2) & Hm2 & Hdc).
  assert (Hblobs : forall g, blob_bytes (db_disk s2) g = blob_bytes d g) by (by subst s2).
  destruct (open_handles s2 (log1 ++ log2) Hnf HL Hm2) as (s3 & Hrun3 & HI & Hcl & Hbb & Hsec & _); try done;
    [by subst s2|by subst s2|by subst s2|].
  rewrite (mbnd_ok _ _ _ _ _ Hrun). cbv zeta in Hrun3. cbv beta. rewrite Hrun3. exists s3. split; [done|]. split_and!; try done.
  - rewrite Hcl. by subst s2.
  - intros g. by rewrite Hbb.
  - by rewrite Hsec.
Qed.
End open.

(** ** The theorems *)

Section recovery.
Context {BT : BTreeG} {BL : BTreeGLaws BT} {E : Env} {EL : EnvLaws E}.
Implicit Types (s : DB) (log : list record).

(** What a log and the blob files of a disk say about a key. *)
Definition log_value (d : Disk) log (k : gostring) : option gostring :=
  (fun x => value_of d x.2) <$> lidx log !! k.

Lemma value_of_bytes d d' r : (forall g, blob_bytes d' g = blob_bytes d g) -> value_of d' r = value_of d r.
Proof. intros H. unfold value_of. destruct (r_Blob r); [|done]. by rewrite H. Qed.

Lemma open_contents s log d : Inv s log -> (forall g, blob_bytes (db_disk s) g = blob_bytes d g) ->
  forall k, contents s !! k = log_value d log k.
Proof.
  intros HI Hb k. rewrite (contents_lookup s log) by done. unfold log_value.
  destruct (lidx log !! k) as [x|]; [|done]. cbn. f_equal. by apply value_of_bytes.
Qed.

(** Recovery: when the main file holds complete records followed by a torn
    tail, [Open] succeeds, cuts the tail off, and gives a store whose contents
    are what the records say, in order, about every key; the store satisfies
    the representation invariant, so every operation theorem applies to it. *)
Theorem open_recovers opts d log1 log2 rest sec t :
  no_faults E -> declare (o_Indexes opts) ∅ = Ok sec -> on_disk d log1 log2 rest ->
  exists s, Open opts d t = (Ok s, s) /\ Inv s (log1 ++ log2) /\ db_closed s = false
    /\ d_main (db_disk s) = Some (enc (log1 ++ log2))
    /\ forall k, contents s !! k = log_value d (log1 ++ log2) k.
Proof.
  intros Hnf Hd Hon. destruct (open_run opts d log1 log2 rest sec t Hnf Hd Hon) as (s & Hrun & HI & Hcl & Hb & _).
  exists s. split_and!; try done; [apply HI|]. by apply open_contents.
Qed.

(** The complete records of a byte prefix of a log. *)
Lemma prefix_records log : Forall rec_good log -> forall k, (k <= length (enc log))%nat ->
  exists n, (n <= length log)%nat /\ (length (enc (take n log)) <= k)%nat
    /\ (forall r, log !! n = Some r -> (k < length (enc (take n log)) + length (enc_line r))%nat)
    /\ exists rest, take k (enc log) = enc (take n log) ++ rest /\ forall d, torn d rest = true.
Proof.
  induction 1 as [|r log Hr HF IH]; intros k Hk.
  { exists 0%nat. split_and!; [done|simpl; lia|done|]. exists []. split; [by destruct k|done]. }
  cbn [enc] in Hk |- *. rewrite length_app in Hk.
  destruct (decide (k < length (enc_line r))%nat) as [Hlt|Hge].
  - exists 0%nat. split_and!; [simpl; lia|simpl; lia|by intros ? [= <-]|]. exists (take k (enc_line r)).
    rewrite take_app_le by lia. split; [done|]. intros d. by apply torn_partial.
  - destruct (IH (k - length (enc_line r))%nat) as (n & H1 & H2 & H3 & rest & H4 & H5); [lia|].
    exists (S n). cbn [take enc]. rewrite length_app. split_and!; [simpl; lia|lia| |].
    + intros r' Hr'. specialize (H3 r' Hr'). lia.
    + exists rest. split; [|done]. rewrite take_app_ge by lia. rewrite H4. by rewrite <- app_assoc.
Qed.


(** C7. The hint only saves work: on a disk whose hint is a snapshot of the
    index of a record prefix, opening with the hint and opening after deleting
    it give the same contents, for any further records and any torn tail. *)
Theorem hint_transparent opts d log1 log2 rest sec t :
  no_faults E -> declare (o_Indexes opts) ∅ = Ok sec -> on_disk d log1 log2 rest ->
  exists s s', Open opts d t = (Ok s, s) /\ Open opts (set_d_hint None d) t = (Ok s', s')
    /\ contents s = contents s'
    /\ (forall k, e_exp <$> live s !! k = e_exp <$> live s' !! k).
Proof.
  intros Hnf Hd Hon. destruct (open_run opts d log1 log2 rest sec t Hnf Hd Hon) as (s & Hrun & HI & _ & Hb & _).
  destruct (open_run opts (set_d_hint None d) [] (log1 ++ log2) rest sec t Hnf Hd) as (s' & Hrun' & HI' & _ & Hb' & _).
  { destruct Hon as (H1 & _ & H3 & H4 & H5 & H6). split_and!; try done. by left. }
  exists s, s'. split_and!; try done.
  - apply map_eq. intros k. rewrite (open_contents s _ d HI Hb), (open_contents s' _ _ HI' Hb'). done.
  - intros k. pose proof HI as (_ & _ & _ & Ha & _). pose proof HI' as (_ & _ & _ & Ha' & _).
    specialize (Ha k). specialize (Ha' k). cbn [app] in Ha'. destruct (lidx (log1 ++ log2) !! k) as [x|];
      inversion Ha as [? e He|]; inversion Ha' as [? e' He'|]; [|done]. cbn. f_equal.
    destruct He as (_ & _ & _ & -> & _). by destruct He' as (_ & _ & _ & -> & _).
Qed.
End recovery.

(** ** Closing and opening again *)

Section reopen.
Context {BT : BTreeG} {BL : BTreeGLaws BT} {E : Env} {EL : EnvLaws E}.
Implicit Types (s : DB) (log : list record).

(** Only the hint file and bookkeeping changed. *)
Definition hint_only s s' : Prop :=
  exists h g i t w, s' = set_tick t (set_writes w (set_hint g i (set_disk (set_d_hint h) s))).

Lemma hint_only_refl s : hint_only s s.
Proof. exists (d_hint (db_disk s)), (db_hintGen s), (db_inflight s), (db_tick s), (db_writes s). by destruct s as [o []]. Qed.

Lemma hint_only_trans s1 s2 s3 : hint_only s1 s2 -> hint_only s2 s3 -> hint_only s1 s3.
Proof. intros (h & g & i & t & w & ->) (h' & g' & i' & t' & w' & ->). by exists h', g', i', t', w'. Qed.

Lemma hint_only_tick s t : hint_only s (set_tick t s).
Proof. exists (d_hint (db_disk s)), (db_hintGen s), (db_inflight s), t, (db_writes s). by destruct s as [o []]. Qed.

Lemma writeIndexHint_run es covers s : no_faults E -> exists r s',
  writeIndexHint es covers s = (r, s') /\ hint_only s s'
  /\ match hint_text es covers with
     | Some text => r = Ok tt /\ d_hint (db_disk s') = Some text
     | None => r = Err EMarshal
     end.
Proof.
  intros Hnf. unfold writeIndexHint. rewrite (fs_bnd (fun _ => _)) by done. destruct (hint_text es covers) as [text|].
  - rewrite (fs_bnd (fun _ => _)), (fsync_bnd (fun _ => _)), !(fs_bnd (fun _ => _)) by done. unfold mmodify.
    eexists _, _. split; [done|]. split; [|done].
    exists (Some text), (db_hintGen s), (db_inflight s), (S (S (S (S (S (db_tick s)))))), (db_writes s). by destruct s as [o []].
  - eexists _, _. split; [done|]. split; [apply hint_only_tick|done].
Qed.

Lemma writeHintAsync_run s : no_faults E -> exists s', writeHintAsync s = (Ok tt, s') /\ hint_only s s'.
Proof.
  intros Hnf. unfold writeHintAsync. rewrite mget_bnd. destruct (db_inflight s) as [snap|] eqn:Hsn;
    [|exists s; split; [done|apply hint_only_refl]].
  match goal with |- context [mtry ?b ;;; _] => set (body := b) end.
  assert (Hbody : exists r s1, body s = (r, s1) /\ hint_only s s1).
  { unfold body. clear body.
    assert (H1 : exists r s1, ((match sn_blobs snap with
         | None => mok tt
         | Some g => match db_blobs s !! g with Some _ => blob_flush | None => merr EIO end
         end : M DB unit) s) = (r, s1) /\ hint_only s s1).
    { destruct (sn_blobs snap) as [g|]; [|eexists _, _; split; [done|apply hint_only_refl]].
      destruct (db_blobs s !! g); [|eexists _, _; split; [done|apply hint_only_refl]].
      unfold blob_flush. rewrite fsync_clean by (by apply no_faults_clean). eexists _, _. split; [done|apply hint_only_tick]. }
    destruct H1 as ([[]|e] & s1 & H1 & Ho1);
      [rewrite (mbnd_ok _ _ _ _ _ H1)|rewrite (mbnd_err _ _ _ _ _ H1); by eexists _, _].
    destruct (sn_main snap =? db_epoch s); [|by eexists _, _]. unfold main_flush. rewrite (fsync_bnd (fun _ => _)) by done.
    assert (Ho1' : hint_only s (set_tick (S (db_tick s1)) s1)) by (eapply hint_only_trans; [exact Ho1|apply hint_only_tick]).
    destruct (sn_gen snap =? db_hintGen s); [|by eexists _, _].
    destruct (writeIndexHint_run (pk_scan (sn_pk snap)) (sn_covers snap) (set_tick (S (db_tick s1)) s1) Hnf)
      as (r & s2 & Hw & Ho2 & _). exists r, s2. split; [done|]. by eapply hint_only_trans. }
  destruct Hbody as (r & s1 & Hb & Ho). unfold mtry. unfold mbnd at 1. rewrite Hb. unfold mmodify.
  eexists. split; [done|]. eapply hint_only_trans; [exact Ho|].
  exists (d_hint (db_disk s1)), (db_hintGen s1), None, (db_tick s1), (db_writes s1). by destruct s1 as [o []].
Qed.

Lemma writeHint_run s : no_faults E -> Forall hint_entry_ok (pk_scan (db_pk s)) -> in64 (db_size s) ->
  exists s', writeHint s = (Ok tt, s') /\ hint_only s s'
    /\ loadIndexHint (d_hint (db_disk s')) = Some (norm_hint <$> pk_scan (db_pk s), db_size s).
Proof.
  intros Hnf Hes Hsz. destruct (hint_read_back _ _ Hes Hsz) as (text & Htext & Hload).
  unfold writeHint. unfold mmodify at 1. unfold mbnd at 1. rewrite mget_bnd.
  set (s1 := set_hint _ _ s). assert (Ho1 : hint_only s s1).
  { exists (d_hint (db_disk s)), (db_hintGen s + 1), (db_inflight s), (db_tick s), (db_writes s). by destruct s as [o []]. }
  assert (H2 : exists s2, ((match db_blobs s1 !! db_curGen s1 with Some _ => blob_flush | None => mok tt end : M DB unit) s1)
            = (Ok tt, s2) /\ hint_only s1 s2).
  { destruct (db_blobs s1 !! db_curGen s1).
    - unfold blob_flush. rewrite fsync_clean by (by apply no_faults_clean). eexists. split; [done|apply hint_only_tick].
    - eexists. split; [done|apply hint_only_refl]. }
  destruct H2 as (s2 & H2 & Ho2). rewrite (mbnd_ok _ _ _ _ _ H2). unfold main_flush. rewrite (fsync_bnd (fun _ => _)) by done.
  destruct (writeIndexHint_run (pk_scan (db_pk s1)) (db_size s1) (set_tick (S (db_tick s2)) s2) Hnf) as (r & s3 & H3 & Ho3 & Hr).
  change (db_pk s1) with (db_pk s) in *. change (db_size s1) with (db_size s) in *. rewrite Htext in Hr. destruct Hr as [-> Hh].
  rewrite (mbnd_ok _ _ _ _ _ H3). unfold mmodify. eexists. split; [done|]. split.
  - eapply hint_only_trans; [exact Ho1|]. eapply hint_only_trans; [exact Ho2|]. eapply hint_only_trans; [apply hint_only_tick|].
    eapply hint_only_trans; [exact Ho3|]. exists (d_hint (db_disk s3)), (db_hintGen s3), (db_inflight s3), (db_tick s3), 0. by destruct s3 as [o []].
  - change (db_disk (set_writes 0 s3)) with (db_disk s3). by rewrite Hh.
Qed.

Lemma Close_run s : no_faults E -> db_closed s = false -> Forall hint_entry_ok (pk_scan (db_pk s)) -> in64 (db_size s) ->
  exists s', Close s = (Ok tt, s') /\ hint_only (set_closed true s) s'
    /\ loadIndexHint (d_hint (db_disk s')) = Some (norm_hint <$> pk_scan (db_pk s), db_size s).
Proof.
  intros Hnf Hcl Hes Hsz. unfold Close. rewrite mget_bnd, Hcl. unfold mmodify at 1. unfold mbnd at 1.
  destruct (writeHintAsync_run (set_closed true s) Hnf) as (s1 & H1 & Ho1). rewrite (mbnd_ok _ _ _ _ _ H1).
  assert (Hkeep : db_pk s1 = db_pk s /\ db_size s1 = db_size s) by (by destruct Ho1 as (? & ? & ? & ? & ? & ->)).
  destruct Hkeep as [Hk1 Hk2]. rewrite <- Hk1, <- Hk2 in *.
  destruct (writeHint_run s1 Hnf Hes Hsz) as (s2 & H2 & Ho2 & Hh).
  assert (Ht : forall {A} (m : M DB A) r k k', m k = (r, k') -> mtry m k = (Ok r, k')) by (intros A m r k k' Hm; unfold mtry; by rewrite Hm).
  rewrite (mbnd_ok _ _ _ _ _ (Ht _ _ _ _ _ H2)).
  do 3 (rewrite (mbnd_ok _ _ _ _ _ (Ht _ _ _ _ _ (fs_call_ok _ Hnf)))). eexists. split; [done|]. split; [|exact Hh].
  eapply hint_only_trans; [exact Ho1|]. eapply hint_only_trans; [exact Ho2|].
  do 3 (eapply hint_only_trans; [apply hint_only_tick|]). apply hint_only_refl.
Qed.

Lemma Inv_blob_there s log : Inv s log -> Forall (blob_there (db_disk s)) log.
Proof.
  intros (_ & _ & _ & _ & _ & (Hsz & _ & _ & HF)). eapply Forall_impl; [exact HF|]. intros r. unfold blob_there.
  destruct (r_Blob r) as [b|]; [|done]. intros (H1 & H2 & H3 & H4 & [sz H5]). split_and!; try done. apply (Hsz _ _ H5).
Qed.

Lemma close_open_run s log opts sec t :
  no_faults E -> Inv s log -> db_closed s = false -> gens_ok (db_disk s) ->
  Forall hint_entry_ok (pk_scan (db_pk s)) -> in64 (db_size s) -> declare (o_Indexes opts) ∅ = Ok sec ->
  exists s1 s2, Close s = (Ok tt, s1) /\ Open opts (db_disk s1) t = (Ok s2, s2)
    /\ Inv s2 log /\ contents s2 = contents s
    /\ (forall k, e_exp <$> live s2 !! k = e_exp <$> live s !! k)
    /\ db_closed s2 = false /\ decl_of <$> db_sec s2 = decl_of <$> sec.
Proof.
  intros Hnf HI Hcl Hgens Hes Hsz Hd. destruct (Close_run s Hnf Hcl Hes Hsz) as (s1 & H1 & Ho & Hh).
  pose proof HI as (Hm & Hs & Hg & Ha & (Hpk & _) & _).
  assert (Hdisk : d_main (db_disk s1) = d_main (db_disk s) /\ d_blobs (db_disk s1) = d_blobs (db_disk s))
    by (by destruct Ho as (? & ? & ? & ? & ? & ->)). destruct Hdisk as [Hdm Hdb].
  destruct (open_run opts (db_disk s1) log [] [] sec t) as (s2 & H2 & HI2 & Hcl2 & Hb2 & Hdecl2); try done.
  { unfold on_disk. rewrite !app_nil_r. split_and!; try done.
    - unfold main_bytes. by rewrite Hdm, Hm.
    - right. exists (db_pk s). split; [done|]. split; [exact Ha|]. split; [by apply hint_ix_ok|]. by rewrite Hh, Hs.
    - pose proof (Inv_blob_there s log HI) as Hbt. unfold blob_there, blob_bytes in *. by rewrite Hdb.
    - unfold gens_ok. by rewrite Hdb. }
  rewrite app_nil_r in HI2. exists s1, s2. split_and!; try done.
  - apply map_eq. intros k. rewrite (open_contents s2 log _ HI2 Hb2), (contents_lookup s log k HI).
    unfold log_value. destruct (lidx log !! k) as [x|]; [|done]. cbn. f_equal. apply value_of_bytes.
    intros g. unfold blob_bytes. by rewrite Hdb.
  - intros k. pose proof HI2 as (_ & _ & _ & Ha2 & _). specialize (Ha k). specialize (Ha2 k).
    destruct (lidx log !! k) as [x|]; inversion Ha as [? e He|]; inversion Ha2 as [? e' He'|]; [|done]. cbn. f_equal.
    destruct He as (_ & _ & _ & -> & _). by destruct He' as (_ & _ & _ & -> & _).
Qed.

(** C8. Durability across a clean shutdown: [Close] writes a hint and succeeds,
    and opening the directory again, with any declared indexes, gives a store
    with the same contents and expiries. *)
Theorem close_open_roundtrip s log opts sec t :
  no_faults E -> Inv s log -> db_closed s = false -> gens_ok (db_disk s) ->
  Forall hint_entry_ok (pk_scan (db_pk s)) -> in64 (db_size s) -> declare (o_Indexes opts) ∅ = Ok sec ->
  exists s1 s2, Close s = (Ok tt, s1) /\ Open opts (db_disk s1) t = (Ok s2, s2)
    /\ Inv s2 log /\ contents s2 = contents s
    /\ (forall k, e_exp <$> live s2 !! k = e_exp <$> live s !! k).
Proof.
  intros Hnf HI Hcl Hgens Hes Hsz Hd. destruct (close_open_run s log opts sec t Hnf HI Hcl Hgens Hes Hsz Hd) as (s1 & s2 & ? & ? & ? & ? & ? & _).
  exists s1, s2. by split_and!.
Qed.
End reopen.
