(* ===== verification/Batch.v ===== *)
(** * Batched writes (batch.go)

    [PutBatch] validates every item before it writes anything, appends the
    items in order without syncing each, enforces the caps once per distinct
    (index, value) pair, and syncs once at the end. *)

From S2P Require Import Prelude Floats Types Json Record BTree PkIndex SecIndex Hint Store Ops.
#[local] Open Scope Z_scope.

Record PutItem := mkPutItem { pi_Key : gostring; pi_Value : gostring; pi_IX : IndexValues; pi_TTL : Z }.

(** ** [fmt.Sprint] of an index value *)

(** The verb [%v] of a float: shortest digits, exponent form from [1e6] on and
    below [1e-4], exponents of at least two digits. *)
Definition sprint_exp (x : Z) : gostring :=
  let ex := nat_dec (Z.abs x) in
  bs "e" ++ (if x <? 0 then bs "-" else bs "+") ++ (if zlen ex =? 1 then bs "0" ++ ex else ex).

Definition sprint_float (prec emax : Z) (f : spec_float) : gostring :=
  match f with
  | S754_nan => bs "NaN"
  | S754_infinity s => if s then bs "-Inf" else bs "+Inf"
  | S754_zero s => (if s then bs "-" else []) ++ bs "0"
  | S754_finite s m e =>
      let '(ds, k) := shortest prec emax m e in
      (if s then bs "-" else []) ++
      (if (k - 1 <? -4) || (6 <=? k - 1)
       then match ds with
            | [d] => [d]
            | d :: r => d :: bs "." ++ r
            | [] => []
            end ++ sprint_exp (k - 1)
       else fmt_f ds k)
  end.

Definition joined (sep : gostring) : list gostring -> gostring :=
  fix go (l : list gostring) : gostring :=
    match l with
    | [] => []
    | [x] => x
    | x :: l' => x ++ sep ++ go l'
    end.

Fixpoint Sprint (v : any) : gostring :=
  match v with
  | ANil => bs "<nil>"
  | ABool b => if b then bs "true" else bs "false"
  | AString s => s
  | AFloat64 f => sprint_float 53 1024 f
  | AFloat32 f => sprint_float 24 128 f
  | AInt n | AInt64 n | AInt32 n => format_int n
  | AJSONNumber lit => lit
  | AArr l => bs "[" ++ joined (bs " ") (List.map Sprint l) ++ bs "]"
  | AObj l => bs "map[" ++ joined (bs " ") (List.map (fun kv => fst kv ++ bs ":" ++ Sprint (snd kv)) l) ++ bs "]"
  end.

Section batch.
Context {BT : BTreeG} {E : Env}.
#[local] Notation MD := (M DB).

(** An error inside item [i] is wrapped with its position. *)
Definition at_item {A} (i : Z) (m : MD A) : MD A := fun s =>
  match m s with
  | (Ok a, s') => (Ok a, s')
  | (Err e, s') => (Err (EBatch i e), s')
  end.

(** Pass 1: index values, self-eviction against the state before the batch,
    and expiry of each item. *)
Fixpoint validate (i : Z) (items : list PutItem) : MD (list (IndexValues * Z)) :=
  match items with
  | [] => mok []
  | it :: items' =>
      ix <- at_item i (buildIndexValues (pi_Key it) (pi_Value it) (pi_IX it)) ;;
      at_item i (checkSelfEviction (pi_Key it) ix) ;;;
      exp <- (if pi_TTL it <? 0 then merr (EBatch i ErrInvalidTTL)
              else if 0 <? pi_TTL it then
                now <- nowMillis ;; mok (wrap64 (now + Z.quot (pi_TTL it) millisecond))
              else mok 0) ;;
      rest <- validate (i + 1) items' ;;
      mok ((ix, exp) :: rest)
  end.

(** Pass 2: append in order, without a sync per item. *)
Fixpoint append_all (i : Z) (items : list (PutItem * (IndexValues * Z))) : MD unit :=
  match items with
  | [] => mok tt
  | (it, (ix, exp)) :: items' =>
      at_item i (appendRecord (pi_Key it) (pi_Value it) ix exp false false) ;;;
      append_all (i + 1) items'
  end.

(** The key under which a pair counts as already enforced. *)
Definition seen_key (nv : gostring * any) : gostring := nv.1 ++ Byte.x00 :: Sprint nv.2.

Fixpoint enforce_pairs (l : list (gostring * any)) (seen : gset gostring) : MD (gset gostring) :=
  match l with
  | [] => mok seen
  | nv :: l' =>
      if decide (seen_key nv ∈ seen) then enforce_pairs l' seen
      else enforceMaxPerValue {[ nv.1 := nv.2 ]} ;;; enforce_pairs l' ({[ seen_key nv ]} ∪ seen)
  end.

Fixpoint enforce_all (ixs : list IndexValues) (seen : gset gostring) : MD unit :=
  match ixs with
  | [] => mok tt
  | ix :: ixs' =>
      l <- range_ix ix ;;
      seen' <- enforce_pairs l seen ;;
      enforce_all ixs' seen'
  end.

Definition PutBatch (items : list PutItem) : MD unit :=
  check_open ;;;
  match items with
  | [] => mok tt
  | _ =>
      ies <- validate 0 items ;;
      append_all 0 (zip items ies) ;;;
      enforce_all ies.*1 ∅ ;;;
      s <- mget ;;
      (if o_SyncEveryWrite (db_opts s) then
         (match db_blobs s !! db_curGen s with Some _ => blob_flush | None => mok tt end) ;;;
         main_flush
       else mok tt) ;;;
      mmodify (fun s => set_writes (db_writes s + zlen items) s) ;;;
      maybeWriteHint
  end.
End batch.
