(* ===== verification/Compact.v ===== *)
(** * Rewriting the log (compact.go, reindex.go)

    [Compact], [Reindex] and [BlobsRelieve] share one body: write a new log
    with the live records, transformed; put it in place with a rename; rebuild
    the indexes; write a fresh hint.  A failure after the old handles are
    closed disables the store. *)

From S2P Require Import Prelude Floats Types Json Record BTree PkIndex SecIndex Hint Meta Store Ops Load.
#[local] Open Scope Z_scope.

Section compact.
Context {BT : BTreeG} {E : Env}.
#[local] Notation MD := (M DB).

(** [failStop]. *)
Definition failStop {A} (cause : error) : MD A :=
  mmodify (set_closed true) ;;;
  writeHintAsync ;;;                               (* hintWG.Wait *)
  mmodify (set_blobs ∅) ;;;
  merr (EFailStop cause).

(** ** Transformations of a record's index values *)

(** Does the index named [nv.1] exist and take the value? *)
Definition active_value (sec : gmap gostring secIndex) (nv : gostring * any) : bool :=
  match sec !! nv.1 with
  | None => false
  | Some si => is_ok (makeEntry si nv.2 [])
  end.

Definition filterIX (sec : gmap gostring secIndex) (ix : IndexValues) : IndexValues :=
  filter (fun nv => active_value sec nv = true) ix.

Definition filterIXKnown (sec : gmap gostring secIndex) (dropped : gmap gostring ValueKind) (ix : IndexValues) : IndexValues :=
  filter (fun nv => is_Some (sec !! nv.1) \/ is_Some (dropped !! nv.1)) ix.

Definition compactTransform (rec : record) : MD record :=
  s <- mget ;; mok (with_ix (filterIXKnown (db_sec s) (db_dropped s) (r_IX rec)) rec).

(** The loop of [reindexTransform] over the declared indexes. *)
Fixpoint re_extract (sec : gmap gostring secIndex) (key value : gostring) (defs : list IndexDef)
    (ix : IndexValues) : res IndexValues :=
  match defs with
  | [] => Ok ix
  | def :: defs' =>
      match d_Extract def with
      | None => re_extract sec key value defs' ix
      | Some f =>
          match f key value with
          | None => re_extract sec key value defs' ix
          | Some v =>
              match sec !! d_Name def with
              | None => Err EPanic
              | Some si => res_bind (makeEntry si v key) (fun _ =>
                           re_extract sec key value defs' (<[d_Name def := v]> ix))
              end
          end
      end
  end.

Definition reindexTransform (rec : record) : MD record :=
  s <- mget ;;
  value <- mres (match r_Blob rec with Some ref => blobReadAt s ref | None => Ok (r_Value rec) end) ;;
  ix <- mres (re_extract (db_sec s) (r_Key rec) value (o_Indexes (db_opts s)) (filterIX (db_sec s) (r_IX rec))) ;;
  mok (with_ix ix rec).

(** ** The rewrite *)

(** The scan of [buildRewrite]: the new index and the text written so far. *)
Fixpoint build_loop (transform : record -> MD record) (now : Z) (es : list pkEntry) (off : Z)
    (idx : pkIndex) (text : gostring) : MD (pkIndex * gostring) :=
  match es with
  | [] => mok (idx, text)
  | e :: es' =>
      if expiredAt e now then build_loop transform now es' off idx text
      else
        s <- mget ;;
        rec <- mres (readRecord s e) ;;
        rec <- transform rec ;;
        match marshalRecord rec with
        | None => merr EMarshal
        | Some line =>
            let line := line ++ newline in
            fs_call ;;;                            (* Write *)
            let n := wrap32 (zlen line) in
            build_loop transform now es' (off + n)
              (pk_load idx (PkEntry (e_key e) off n (r_IX rec) (r_Exp rec))) (text ++ line)
        end
  end.

Definition buildRewrite (transform : record -> MD record) : MD (pkIndex * gostring) :=
  fs_call ;;;                                      (* OpenFile *)
  now <- nowMillis ;;
  s <- mget ;;
  r <- build_loop transform now (pk_scan (db_pk s)) 0 newPkIndex [] ;;
  fs_call ;;; fsync ;;; fs_call ;;;                (* Flush, Sync, Close *)
  mok r.

(** The old generations are closed and their files removed. *)
Definition retire_blobs (gen : Z) : MD unit :=
  mmodify (fun s =>
    let keep (nv : Z * Z) := nv.1 = gen in
    let old := dom (db_blobs s) ∖ {[gen]} in
    set_curGen gen
      (set_blobs (filter keep (db_blobs s))
         (set_disk (fun d => set_d_blobs (filter (fun nb => nb.1 ∉ old) (d_blobs d)) d) s))).

(** The exclusive phase of [rewriteBody]: the new log [r] is put in place and
    the state rebuilt around it. *)
Definition swapBody (r : pkIndex * gostring) (br : option Z) : MD unit :=
  rn <- mtry fs_call ;;                            (* Rename *)
  match rn with
  | Err e => failStop e
  | Ok _ =>
      mmodify (set_disk (set_d_main (Some r.2))) ;;;
      op <- mtry openMainHandles ;;
      match op with
      | Err e => failStop e
      | Ok _ =>
          mmodify (fun s => set_epoch (db_epoch s + 1) s) ;;;
          mmodify (set_pk r.1) ;;;
          rebuildSec ;;;
          mmodify (set_writes 0) ;;;
          (match br with Some gen => retire_blobs gen | None => mok tt end) ;;;
          writeHint
      end
  end.

(** [rewriteBody]; [br] is the new blob generation of a relieve. *)
Definition rewriteBody (transform : record -> MD record) (br : option Z) : MD unit :=
  r <- buildRewrite transform ;;
  (match br with Some _ => blob_flush | None => mok tt end) ;;;
  swapBody r br.

Definition Compact : MD unit := check_open ;;; rewriteBody compactTransform None.

Definition markReindexed : MD unit :=
  s <- mget ;;
  let '(out, p) := mark_reindexed (o_Indexes (db_opts s)) (db_prospective s) in
  mmodify (set_schema p ∅) ;;;
  writeMeta out.

Definition Reindex : MD unit :=
  check_open ;;; rewriteBody reindexTransform None ;;; markReindexed.

(** ** Relieving the blob files *)

Definition relieveTransform (gen : Z) (rec : record) : MD record :=
  rec <- compactTransform rec ;;
  match r_Blob rec with
  | None => mok rec
  | Some ref =>
      s <- mget ;;
      val <- mres (blobReadAt s ref) ;;
      ref' <- blob_append gen val ;;
      mok (with_blob (Some (BlobRef (br_Off ref') (br_Size ref') gen)) rec)
  end.

(** [BlobsRelieve]: a failure before the swap removes the new generation. The
    code decides "before the swap" by asking whether the store was disabled. *)
Definition BlobsRelieve : MD unit :=
  check_open ;;;
  s <- mget ;;
  let gen := db_curGen s + 1 in
  openBlobs gen ;;;
  r <- mtry (rewriteBody (relieveTransform gen) (Some gen)) ;;
  match r with
  | Ok _ => mok tt
  | Err e =>
      mmodify (fun s =>
        if db_closed s then s
        else set_blobs (if db_curGen s =? gen then db_blobs s else delete gen (db_blobs s))
               (set_disk (fun d => set_d_blobs (delete gen (d_blobs d)) d) s)) ;;;
      merr e
  end.

Record BlobUsage := mkBlobUsage {
  bu_TotalBytes : Z; bu_LiveBytes : Z; bu_OrphanedBytes : Z; bu_Generations : Z }.

Fixpoint live_blob_bytes (s : DB) (es : list pkEntry) (acc : Z) : res Z :=
  match es with
  | [] => Ok acc
  | e :: es' => res_bind (readRecord s e) (fun rec =>
                live_blob_bytes s es' (acc + match r_Blob rec with Some b => br_Size b | None => 0 end))
  end.

Definition getBlobUsage : MD BlobUsage :=
  check_open ;;;
  s <- mget ;;
  live <- mres (live_blob_bytes s (pk_scan (db_pk s)) 0) ;;
  let total := sum_sizes (db_blobs s) in
  mok (mkBlobUsage total live (total - live) (Z.of_nat (size (db_blobs s)))).
End compact.
