(* ===== verification/Frame.v ===== *)
(** * What a computation leaves alone

    [respects R m]: whatever the state, [m] ends in one related to it by the
    preorder [R].  The rules below follow the shape of the code, so that a
    function respects [R] because its primitives do; [Clock] and [HintInv]
    instantiate them. *)

From S2P Require Import Prelude Floats Types Json Record BTree PkIndex SecIndex Hint Store Ops Batch.
#[local] Open Scope Z_scope.

Section frame.
Context {BT : BTreeG}.

Definition respects {A} (R : relation DB) (m : M DB A) : Prop := forall s, R s (m s).2.

Context {R : relation DB} {PO : PreOrder R}.

Lemma res_ok {A} (a : A) : respects R (mok a).
Proof. intros s. reflexivity. Qed.

Lemma res_err {A} e : respects R (merr e : M DB A).
Proof. intros s. reflexivity. Qed.

Lemma res_get : respects R mget.
Proof. intros s. reflexivity. Qed.

Lemma res_res {A} (r : res A) : respects R (mres r).
Proof. intros s. reflexivity. Qed.

Lemma res_modify f : (forall s, R s (f s)) -> respects R (mmodify f).
Proof. intros Hf s. apply Hf. Qed.

Lemma res_bnd {A B} (m : M DB A) (k : A -> M DB B) : respects R m -> (forall a, respects R (k a)) -> respects R (mbnd m k).
Proof.
  intros Hm Hk s. unfold mbnd. specialize (Hm s). destruct (m s) as [[a|e] s1]; cbn in *; [|done].
  etrans; [exact Hm|apply Hk].
Qed.

Lemma res_try {A} (m : M DB A) : respects R m -> respects R (mtry m).
Proof. intros Hm s. unfold mtry. specialize (Hm s). by destruct (m s). Qed.

Lemma res_for {A} (f : A -> M DB unit) l : (forall a, respects R (f a)) -> respects R (mfor f l).
Proof. intros Hf. induction l as [|a l IH]; [apply res_ok|]. apply res_bnd; [done|]. by intros _. Qed.

Lemma res_item {A} i (m : M DB A) : respects R m -> respects R (at_item i m).
Proof. intros Hm s. unfold at_item. specialize (Hm s). by destruct (m s) as [[]]. Qed.
End frame.

Create HintDb frame.
#[export] Hint Resolve res_ok res_err res_get res_res : frame.

(** One rule at a time; what remains is a hint or a case of the code. *)
Ltac frame :=
  repeat first
    [ solve [eauto 2 with frame]
    | apply res_modify; intros ?; repeat case_match;
      first [exact (Nat.le_refl _) | split; reflexivity | solve [eauto 2 with frame]]
    | match goal with |- respects _ (mbnd _ _) => apply res_bnd; [|intros ?] end
    | apply res_try
    | apply res_item
    | apply res_for; intros ?
    | progress cbv beta zeta
    | case_match ].
