(* ===== verification/HintInv.v ===== *)
(** * The hint on the disk is always right (indexhint.go, db.go)

    The hint file is a snapshot of the index taken after some records of the
    log.  It is written by Close, by range deletes, after a rewrite, and by a
    background goroutine that works on a snapshot handed over by a write.
    [hint_inv]: the file, and the snapshot under way, describe the index of a
    prefix of the log as it is now. *)

From S2P Require Import Prelude Floats Types Json Record BTree PkIndex SecIndex Hint Meta Store SecMaint IndexStep LogSpec Invariant Ops Contents PutProofs Load Recovery Batch Frame.
#[local] Open Scope Z_scope.

(** ** Logs with the same lines *)

(** Two records with the same line differ at most in how they carry numbers of
    index values. *)
Definition same_line (r r' : record) : Prop := enc_line r = enc_line r'.

Lemma line_split (l l' x x' : gostring) : Byte.x0a ∉ l -> Byte.x0a ∉ l' -> (l ++ newline) ++ x = (l' ++ newline) ++ x' -> l = l' /\ x = x'.
Proof.
  intros H H' Heq. rewrite <- !app_assoc in Heq. apply (f_equal cut_line) in Heq. cbn [newline app] in Heq.
  rewrite !cut_line_app in Heq by done. by injection Heq.
Qed.

Lemma same_line_norm r r' : rec_good r -> rec_good r' -> same_line r r' -> norm_record r = norm_record r'.
Proof.
  intros Hr Hr' He. destruct (rec_good_line r Hr) as (l & _ & E & N & U & _). destruct (rec_good_line r' Hr') as (l' & _ & E' & N' & U' & _).
  unfold same_line in He. rewrite E, E' in He. destruct (line_split l l' [] []) as [-> _]; [done|done|by rewrite !app_nil_r|]. congruence.
Qed.

(** A log that starts with the text of another starts with its lines. *)
Lemma enc_align log1 : forall log rest, Forall rec_good log1 -> Forall rec_good log -> enc log = enc log1 ++ rest ->
  exists la lb, log = la ++ lb /\ Forall2 same_line la log1 /\ rest = enc lb.
Proof.
  induction log1 as [|r1 log1 IH]; intros log rest H1 H Heq; [exists [], log; by split_and!|].
  apply Forall_cons in H1 as [Hr1 H1]. destruct (rec_good_line r1 Hr1) as (l1 & _ & E1 & N1 & _).
  cbn [enc] in Heq. rewrite E1 in Heq. destruct log as [|r log].
  { exfalso. apply (f_equal length) in Heq. cbn [enc] in Heq. rewrite !length_app in Heq. cbn in Heq. lia. }
  apply Forall_cons in H as [Hr H]. destruct (rec_good_line r Hr) as (l & _ & E & N & _). cbn [enc] in Heq. rewrite E in Heq.
  rewrite <- (app_assoc (l1 ++ newline)) in Heq. apply line_split in Heq as [-> Heq]; [|done|done].
  destruct (IH log rest H1 H Heq) as (la & lb & -> & HF & ->). exists (r :: la), lb. split; [done|]. split; [|done].
  constructor; [|done]. unfold same_line. congruence.
Qed.

Lemma enc_same la log1 : Forall2 same_line la log1 -> enc la = enc log1.
Proof. induction 1 as [|r r' la log1 Hr HF IH]; [done|]. cbn. by rewrite Hr, IH. Qed.

(** What such logs say about a key is the same up to [norm_record]. *)
Definition same_find (x y : Z * record) : Prop := x.1 = y.1 /\ norm_record x.2 = norm_record y.2.

Lemma index_same la log1 : Forall rec_good la -> Forall rec_good log1 -> Forall2 same_line la log1 -> forall off (m m' : gmap gostring (Z * record)),
  (forall k, option_Forall2 same_find (m !! k) (m' !! k)) ->
  forall k, option_Forall2 same_find (index_from off la m !! k) (index_from off log1 m' !! k).
Proof.
  intros Hg Hg' HF. revert Hg Hg'. induction HF as [|r r' la log1 Hr HF IH]; intros Hg Hg' off m m' Hm; cbn [index_from]; [done|].
  apply Forall_cons in Hg as [Hgr Hg]. apply Forall_cons in Hg' as [Hgr' Hg']. pose proof (same_line_norm r r' Hgr Hgr' Hr) as Hn.
  rewrite Hr. apply IH; [done|done|]. intros k. unfold apply_rec.
  assert (Ht : isTombstone r' = isTombstone r) by exact (f_equal isTombstone (eq_sym Hn)).
  assert (Hk : r_Key r' = r_Key r) by exact (f_equal r_Key (eq_sym Hn)). rewrite Ht, Hk. destruct (isTombstone r).
  - destruct (decide (k = r_Key r)) as [->|Hne]; [rewrite !lookup_delete_eq; constructor|rewrite !lookup_delete_ne by done; apply Hm].
  - destruct (decide (k = r_Key r)) as [->|Hne]; [rewrite !lookup_insert_eq; constructor; by split|rewrite !lookup_insert_ne by done; apply Hm].
Qed.

Lemma lidx_same log log' k : Forall rec_good log -> Forall rec_good log' -> Forall2 same_line log log' ->
  option_Forall2 same_find (lidx log !! k) (lidx log' !! k).
Proof. intros Hg Hg' HF. apply index_same; [done..|]. intros k'. rewrite lookup_empty. constructor. Qed.

Section hint.
Context {BT : BTreeG} {BL : BTreeGLaws BT} {E : Env} {EL : EnvLaws E}.
Implicit Types (s : DB) (log : list record).

(** ** The invariant *)

(** The file starts with records that [t] is the index of; they end at [n]. *)
Definition covered (file : gostring) (t : pkIndex) (n : Z) : Prop :=
  exists log1 rest, file = enc log1 ++ rest /\ Forall rec_good log1 /\ n = zlen (enc log1) /\ pk_ok t /\ agree (lidx log1) (pk_map t).

(** The hint file, if it can be read, is the text of such an index. *)
Definition hint_right (d : Disk) : Prop :=
  match loadIndexHint (d_hint d) with
  | None => True
  | Some (es, n) => exists t, es = norm_hint <$> pk_scan t /\ Forall hint_entry_ok (pk_scan t) /\ covered (main_bytes d) t n
  end.

(** The snapshot handed to the background writer describes the log it was taken
    from; a rewrite in between leaves it behind. *)
Definition snap_right s : Prop :=
  match db_inflight s with
  | None => True
  | Some sn => sn_main sn <= db_epoch s
               /\ (sn_main sn = db_epoch s -> covered (main_bytes (db_disk s)) (sn_pk sn) (sn_covers sn))
  end.

Definition hint_inv s : Prop := hint_right (db_disk s) /\ snap_right s.

Lemma covered_app file more t n : covered file t n -> covered (file ++ more) t n.
Proof. intros (log1 & rest & -> & H). exists log1, (rest ++ more). by rewrite app_assoc. Qed.

Lemma covered_prefix file file' t n : file `prefix_of` file' -> covered file t n -> covered file' t n.
Proof. intros [more ->]. apply covered_app. Qed.

(** The index of a state covers its whole log. *)
Lemma Inv_covered s log : Inv s log -> covered (main_bytes (db_disk s)) (db_pk s) (db_size s).
Proof.
  intros HI. pose proof HI as (Hm & Hs & Hg & Ha & (Hpk & _) & _). exists log, []. rewrite app_nil_r, (Inv_main s log HI). by split_and!.
Qed.

Lemma hint_inv_covers s s' : d_hint (db_disk s') = d_hint (db_disk s) -> db_inflight s' = db_inflight s -> db_epoch s' = db_epoch s ->
  (forall t n, covered (main_bytes (db_disk s)) t n -> covered (main_bytes (db_disk s')) t n) -> hint_inv s -> hint_inv s'.
Proof.
  intros Hh Hi He Hc [H1 H2]. unfold hint_inv, hint_right, snap_right in *. rewrite Hh, Hi, He. split.
  - destruct (loadIndexHint _) as [[es n]|]; [|done]. destruct H1 as (t & ? & ? & ?). exists t. auto.
  - destruct (db_inflight s); [|done]. destruct H2. auto.
Qed.
End hint.

(** ** Appending leaves the hint alone *)

(** The log grew at its end, and nobody touched the hint or handed over a
    snapshot. *)
Definition hint_fields {BT : BTreeG} (s : DB) : option gostring * option hintSnapshot * Z :=
  (d_hint (db_disk s), db_inflight s, db_epoch s).

Definition log_grows {BT : BTreeG} : relation DB := fun s s' =>
  hint_fields s' = hint_fields s /\ main_bytes (db_disk s) `prefix_of` main_bytes (db_disk s').

#[export] Instance log_grows_order {BT : BTreeG} : PreOrder log_grows.
Proof.
  split; [by intros s|]. intros s1 s2 s3 [H1 P1] [H2 P2]. split; [congruence|]. by etrans.
Qed.

Section appending.
Context {BT : BTreeG} {E : Env}.

Lemma log_grows_put d s : log_grows s (main_put d s).
Proof. split; [done|]. by exists d. Qed.
#[local] Hint Resolve log_grows_put : frame.

Lemma app_now : respects log_grows nowMillis.
Proof. unfold nowMillis, tick. intros s. done. Qed.

Lemma app_range ix : respects log_grows (range_ix ix).
Proof. intros s. done. Qed.

Lemma app_fs : respects log_grows fs_call.
Proof. intros s. unfold fs_call, tick, mbnd. by destruct (env_fs _). Qed.

Lemma app_fsync : respects log_grows fsync.
Proof. intros s. unfold fsync, tick, mbnd. by destruct (env_sync _). Qed.

Lemma app_open : respects log_grows check_open.
Proof. unfold check_open. frame. Qed.

Lemma app_tick : respects log_grows tick.
Proof. intros s. done. Qed.
#[local] Hint Resolve app_now app_range app_fs app_fsync app_open app_tick : frame.

Lemma app_ttl ttl : respects log_grows (resolveTTL ttl).
Proof. unfold resolveTTL. frame. Qed.

Lemma app_appendSync r b : respects log_grows (appendSync r b).
Proof. unfold appendSync, append_file. frame. Qed.

Lemma app_blob_append g v : respects log_grows (blob_append g v).
Proof. unfold blob_append, append_file. frame. Qed.

Lemma app_insertSec k ix : respects log_grows (insertSec k ix).
Proof. unfold insertSec. frame. Qed.

Lemma app_retractSec k : respects log_grows (retractSec k).
Proof. unfold retractSec. frame. Qed.
#[local] Hint Resolve app_appendSync app_blob_append app_insertSec app_retractSec : frame.

Lemma app_refreshSec k ix : respects log_grows (refreshSec k ix).
Proof. unfold refreshSec. frame. Qed.
#[local] Hint Resolve app_refreshSec : frame.

Lemma app_deleteLocked k : respects log_grows (deleteLocked k).
Proof. unfold deleteLocked, main_append. frame. Qed.

Lemma app_appendRecord k v ix x d c : respects log_grows (appendRecord k v ix x d c).
Proof. unfold appendRecord, blob_flush. frame. Qed.

Lemma app_build k v ix : respects log_grows (buildIndexValues k v ix).
Proof. unfold buildIndexValues. frame. Qed.

Lemma app_check k ix : respects log_grows (checkSelfEviction k ix).
Proof. unfold checkSelfEviction. frame. Qed.
#[local] Hint Resolve app_deleteLocked app_appendRecord app_build app_check : frame.

Lemma app_enforce_one nv : respects log_grows (enforce_one nv).
Proof. unfold enforce_one. frame. Qed.
#[local] Hint Resolve app_enforce_one : frame.

Lemma app_enforce ix : respects log_grows (enforceMaxPerValue ix).
Proof. unfold enforceMaxPerValue. frame. Qed.
#[local] Hint Resolve app_enforce : frame.

Lemma app_validate items : forall i, respects log_grows (validate i items).
Proof. induction items as [|it items IH]; intros i; cbn [validate]; frame. Qed.

Lemma app_append_all items : forall i, respects log_grows (append_all i items).
Proof. induction items as [|[it [ix x]] items IH]; intros i; cbn [append_all]; frame. Qed.

Lemma app_enforce_pairs l : forall seen, respects log_grows (enforce_pairs l seen).
Proof. induction l as [|nv l IH]; intros seen; cbn [enforce_pairs]; frame. Qed.
#[local] Hint Resolve app_enforce_pairs : frame.

Lemma app_enforce_all ixs : forall seen, respects log_grows (enforce_all ixs seen).
Proof. induction ixs as [|ix ixs IH]; intros seen; cbn [enforce_all]; frame. Qed.

Lemma app_reap_loop now batch : forall b, respects log_grows (reap_loop now batch b).
Proof. induction batch as [|r batch IH]; intros b; cbn [reap_loop]; frame. Qed.

Lemma app_reapAsync e : respects log_grows (reapAsync e).
Proof. unfold reapAsync. frame. Qed.
#[local] Hint Resolve app_reapAsync : frame.

Lemma app_get_live k : respects log_grows (pkGetLive k).
Proof. unfold pkGetLive. frame. Qed.
#[local] Hint Resolve app_get_live : frame.

Lemma app_Get k : respects log_grows (Get k).
Proof. unfold Get. frame. Qed.
End appending.
#[export] Hint Resolve app_now app_range app_fs app_fsync app_open app_ttl app_appendRecord app_deleteLocked app_build app_check
  app_enforce app_validate app_append_all app_enforce_all app_reap_loop app_Get : frame.

(** ** Handing a snapshot to the background writer *)

Section snapshots.
Context {BT : BTreeG} {BL : BTreeGLaws BT} {E : Env} {EL : EnvLaws E}.
Implicit Types (s : DB) (log : list record).

(** The log grew, and at most a snapshot of where it ends was handed over. *)
Definition snapped s s' : Prop :=
  d_hint (db_disk s') = d_hint (db_disk s) /\ db_epoch s' = db_epoch s
  /\ main_bytes (db_disk s) `prefix_of` main_bytes (db_disk s')
  /\ (db_inflight s' = db_inflight s
      \/ exists g b, db_inflight s' = Some (mkHintSnapshot (pk_copy (db_pk s')) (db_size s') g (db_epoch s') b)).

Lemma snapped_hint s s' log' : Inv s' log' -> snapped s s' -> hint_inv s -> hint_inv s'.
Proof.
  intros HI (Hh & He & Hp & Hs) [H1 H2]. unfold hint_inv, hint_right, snap_right in *. rewrite Hh. split.
  - destruct (loadIndexHint _) as [[es n]|]; [|done]. destruct H1 as (t & ? & ? & ?). exists t. eauto using covered_prefix.
  - destruct Hs as [->|(g & b & ->)].
    + destruct (db_inflight s) as [sn|]; [|done]. rewrite He. destruct H2 as [? H2]. split; [done|]. eauto using covered_prefix.
    + split; [done|]. intros _. destruct (Inv_covered s' log' HI) as (log1 & rest & Hm & Hg & Hn & Hpk & Ha).
      destruct (pk_copy_ok _ Hpk) as [Hpk' Hscan]. exists log1, rest. split_and!; try done. unfold pk_map in *. cbn [sn_pk]. by rewrite Hscan.
Qed.

Definition ends {A} (m : M DB A) : Prop := forall s, snapped s (m s).2.

Lemma log_grows_snapped s1 s2 s3 : log_grows s1 s2 -> snapped s2 s3 -> snapped s1 s3.
Proof. intros [[= H1 H2 H3] Hp] (Hh & He & Hp' & Hs). rewrite H1 in Hh. rewrite H2 in Hs. rewrite H3 in He. split_and!; try done. by etrans. Qed.

Lemma log_grows_ends s s' : log_grows s s' -> snapped s s'.
Proof. intros [[= ? ? ?] ?]. split_and!; try done. by left. Qed.

Lemma ends_quiet {A} (m : M DB A) : respects log_grows m -> ends m.
Proof. intros Hm s. apply log_grows_ends, Hm. Qed.

Lemma ends_kept {A} (m : M DB A) s r s' log' : ends m -> m s = (r, s') -> Inv s' log' -> hint_inv s -> hint_inv s'.
Proof. intros Hm Hrun HI. specialize (Hm s). rewrite Hrun in Hm. by apply (snapped_hint s s' log'). Qed.

Lemma ends_bnd {A B} (m : M DB A) (k : A -> M DB B) : respects log_grows m -> (forall a, ends (k a)) -> ends (mbnd m k).
Proof.
  intros Hm Hk s. unfold mbnd. specialize (Hm s). destruct (m s) as [[a|e] s1]; cbn [snd] in *; [|by apply log_grows_ends].
  exact (log_grows_snapped _ _ _ Hm (Hk a s1)).
Qed.

(** What follows does not touch the state. *)
Lemma ends_answer {A B} (m : M DB A) (f : A -> B) : ends m -> ends (mbnd m (fun a => mok (f a))).
Proof. intros Hm s. unfold mbnd. specialize (Hm s). by destruct (m s) as [[] ?]. Qed.

Lemma ends_maybe : ends maybeWriteHint.
Proof.
  intros s. unfold maybeWriteHint, mmodify. cbn [snd]. destruct (_ || _); [by apply log_grows_ends|].
  destruct (db_inflight s); [by apply log_grows_ends|]. split_and!; try done. right. by eexists _, _.
Qed.

Lemma ends_incrAppend k v x : ends (incrAppend k v x).
Proof. unfold incrAppend. repeat first [apply ends_maybe | apply ends_bnd; [frame|intros ?]]. Qed.

Lemma ends_put k v ix ttl : ends (PutIndexed k v ix ttl).
Proof. unfold PutIndexed, write. repeat first [apply ends_maybe | apply ends_bnd; [frame|intros ?]]. Qed.

Lemma ends_delete k : ends (Delete k).
Proof.
  unfold Delete. apply ends_bnd; [frame|intros _]. apply ends_bnd; [frame|intros s].
  case_match; [|apply ends_quiet; frame]. apply ends_bnd; [frame|intros _]. apply ends_maybe.
Qed.

Lemma ends_batch items : ends (PutBatch items).
Proof.
  unfold PutBatch, blob_flush, main_flush. apply ends_bnd; [frame|intros _]. destruct items; [apply ends_quiet; frame|].
  repeat first [apply ends_maybe | apply ends_bnd; [frame|intros ?]].
Qed.

Lemma ends_reap : ends reapCycle.
Proof.
  unfold reapCycle, reapBatch, main_flush. apply ends_bnd; [frame|intros s]. case_match; [apply ends_quiet; frame|].
  apply ends_bnd; [frame|intros _]. apply ends_bnd; [frame|intros s']. case_match; [apply ends_quiet; frame|].
  apply ends_bnd; [frame|intros now]. apply ends_bnd; [frame|intros [b|e]]; [|apply ends_quiet; frame].
  case_match; [apply ends_quiet; frame|]. apply ends_bnd; [frame|intros _]. apply ends_maybe.
Qed.
End snapshots.

(** ** Writing the hint *)

Section writers.
Context {BT : BTreeG} {BL : BTreeGLaws BT} {E : Env} {EL : EnvLaws E}.
Implicit Types (s : DB) (log : list record).

(** What a write of the hint leaves to the snapshot under way. *)
Definition same_flight : relation DB := fun s s' => (db_inflight s', db_epoch s') = (db_inflight s, db_epoch s).

#[local] Instance same_flight_order : PreOrder same_flight.
Proof. split; [by intros s|intros s1 s2 s3; unfold same_flight; congruence]. Qed.

Lemma flight_tick : respects same_flight tick.
Proof. by intros s. Qed.
#[local] Hint Resolve flight_tick : frame.

Lemma flight_writeHint : respects same_flight writeHint.
Proof. unfold writeHint, writeIndexHint, blob_flush, main_flush, fs_call, fsync. frame. Qed.

Lemma hint_only_Inv s s' log : hint_only s s' -> Inv s log -> Inv s' log.
Proof. by intros (h & g & i & t & w & ->). Qed.

(** The file just written is the text of [t]. *)
Lemma hint_right_written d t n : loadIndexHint (d_hint d) = Some (norm_hint <$> pk_scan t, n) -> Forall hint_entry_ok (pk_scan t) ->
  covered (main_bytes d) t n -> hint_right d.
Proof. intros Hh He Hc. unfold hint_right. rewrite Hh. by exists t. Qed.

Lemma writeHint_right s : no_faults E -> covered (main_bytes (db_disk s)) (db_pk s) (db_size s) ->
  Forall hint_entry_ok (pk_scan (db_pk s)) -> in64 (db_size s) ->
  exists s', writeHint s = (Ok tt, s') /\ hint_only s s' /\ hint_right (db_disk s')
    /\ db_inflight s' = db_inflight s /\ db_epoch s' = db_epoch s.
Proof.
  intros Hnf Hc He Hsz. destruct (writeHint_run s Hnf He Hsz) as (s' & Hrun & Ho & Hh).
  pose proof (flight_writeHint s) as Hf. rewrite Hrun in Hf. injection Hf as Hi Hep. exists s'. split_and!; try done.
  pose proof Ho as (h & g & i & t & w & Hs'). apply (hint_right_written _ (db_pk s) (db_size s)); [done|done|].
  by subst s'.
Qed.

(** The snapshot under way stays right when the log grows, and is left behind
    when the log is replaced. *)
Lemma snap_right_grows s s' : db_inflight s' = db_inflight s -> db_epoch s' = db_epoch s ->
  main_bytes (db_disk s) `prefix_of` main_bytes (db_disk s') -> snap_right s -> snap_right s'.
Proof.
  intros Hi He Hp. unfold snap_right. rewrite Hi, He. destruct (db_inflight s); [|done]. intros [? H]. eauto using covered_prefix.
Qed.

Lemma snap_right_later s s' : db_inflight s' = db_inflight s -> db_epoch s < db_epoch s' -> snap_right s -> snap_right s'.
Proof. intros Hi He. unfold snap_right. rewrite Hi. destruct (db_inflight s); [|done]. intros [? _]. split; lia. Qed.

(** The snapshot under way fits in a hint file. *)
Definition snap_fits s : Prop :=
  match db_inflight s with Some sn => Forall hint_entry_ok (pk_scan (sn_pk sn)) /\ in64 (sn_covers sn) | None => True end.

(** What the background writer may have done to the file. *)
Definition async_wrote s s' : Prop :=
  d_hint (db_disk s') = d_hint (db_disk s)
  \/ exists sn, db_inflight s = Some sn /\ sn_main sn = db_epoch s
       /\ loadIndexHint (d_hint (db_disk s')) = Some (norm_hint <$> pk_scan (sn_pk sn), sn_covers sn).

(** The file is as it was. *)
Definition same_hint : relation DB := fun s s' => d_hint (db_disk s') = d_hint (db_disk s).

#[local] Instance same_hint_order : PreOrder same_hint.
Proof. split; [by intros s|intros s1 s2 s3; unfold same_hint; congruence]. Qed.

Lemma same_hint_tick : respects same_hint tick.
Proof. by intros s. Qed.
#[local] Hint Resolve same_hint_tick : frame.

Lemma write_after {A} (m : M DB A) es n s : no_faults E -> respects same_hint m -> Forall hint_entry_ok es -> in64 n ->
  same_hint s ((m ;;; writeIndexHint es n) s).2
  \/ loadIndexHint (d_hint (db_disk ((m ;;; writeIndexHint es n) s).2)) = Some (norm_hint <$> es, n).
Proof.
  intros Hnf Hm He Hn. unfold mbnd. specialize (Hm s). destruct (m s) as [[a|e] s1]; [|by left].
  destruct (hint_read_back es n He Hn) as (text & Ht & Hl). destruct (writeIndexHint_run es n s1 Hnf) as (r & s2 & -> & _ & Hw).
  rewrite Ht in Hw. destruct Hw as [_ Hd]. right. cbn [snd]. by rewrite Hd.
Qed.

Lemma writeHintAsync_wrote s : no_faults E -> snap_fits s ->
  exists s', writeHintAsync s = (Ok tt, s') /\ hint_only s s' /\ db_inflight s' = None /\ async_wrote s s'.
Proof.
  intros Hnf Hfit. destruct (writeHintAsync_run s Hnf) as (s' & Hrun & Ho). exists s'. split; [done|]. split; [done|].
  unfold writeHintAsync in Hrun. rewrite mget_bnd in Hrun. unfold snap_fits, async_wrote in *. destruct (db_inflight s) as [sn|] eqn:Hsn.
  2: { injection Hrun as <-. split; [done|by left]. }
  destruct Hfit as [He Hn]. set (flush := match sn_blobs sn with None => _ | Some _ => _ end) in Hrun.
  assert (Hfl : respects same_hint flush) by (unfold flush, blob_flush, fsync; frame).
  assert (Hend : forall body : M DB unit, (mtry body ;;; mmodify (fun s => set_hint (db_hintGen s) None s)) s = (Ok tt, s') ->
    db_inflight s' = None /\ d_hint (db_disk s') = d_hint (db_disk (body s).2)).
  { intros body. unfold mtry, mmodify, mbnd. destruct (body s) as [r s1]. by intros [= <-]. }
  destruct (Hend _ Hrun) as [Hnone ->]. split; [done|]. destruct (Z.eqb_spec (sn_main sn) (db_epoch s)) as [Hm|Hm].
  - destruct (sn_gen sn =? db_hintGen s).
    + destruct (write_after (flush ;;; main_flush) _ _ s Hnf ltac:(unfold main_flush, fsync; frame) He Hn) as [H|H].
      * left. revert H. unfold same_hint, mbnd. by destruct (flush s) as [[[]|] s1]; [destruct (main_flush s1) as [[[]|] s2]|].
      * right. exists sn. split; [done|]. split; [done|]. revert H. unfold mbnd. by destruct (flush s) as [[[]|] s1]; [destruct (main_flush s1) as [[[]|] s2]|].
    + left. assert (Hq : respects same_hint (flush ;;; main_flush ;;; mok tt)) by (unfold main_flush, fsync; frame). apply Hq.
  - left. assert (Hq : respects same_hint (flush ;;; (merr EIO : M DB unit) ;;; mok tt)) by frame.
    specialize (Hq s). revert Hq. unfold same_hint, mbnd. by destruct (flush s) as [[[]|] s1].
Qed.

(** The background writer keeps the invariant. *)
Lemma writeHintAsync_inv s log : no_faults E -> Inv s log -> snap_fits s -> hint_inv s ->
  exists s', writeHintAsync s = (Ok tt, s') /\ hint_only s s' /\ hint_inv s'.
Proof.
  intros Hnf HI Hfit [H1 H2]. destruct (writeHintAsync_wrote s Hnf Hfit) as (s' & Hrun & Ho & Hn & Hw).
  exists s'. split; [done|]. split; [done|]. assert (Hm : main_bytes (db_disk s') = main_bytes (db_disk s)) by (by destruct Ho as (h & g & i & t & w & ->)).
  split; [|unfold snap_right; by rewrite Hn]. unfold snap_fits, snap_right in *. destruct Hw as [Hw|(sn & Hsn & He & Hw)].
  - unfold hint_right in *. by rewrite Hw, Hm.
  - rewrite Hsn in Hfit, H2. apply (hint_right_written _ _ _ Hw); [apply Hfit|]. rewrite Hm. by apply H2.
Qed.
End writers.

(** ** Opening keeps the hint *)

Section opening.
Context {BT : BTreeG} {E : Env}.

Definition same_fields : relation DB := fun s s' => hint_fields s' = hint_fields s.

#[local] Instance same_fields_order : PreOrder same_fields.
Proof. split; [by intros s|intros s1 s2 s3; unfold same_fields; congruence]. Qed.

Lemma fields_tick : respects same_fields tick.
Proof. by intros s. Qed.
#[local] Hint Resolve fields_tick : frame.

Lemma fields_fs : respects same_fields fs_call.
Proof. unfold fs_call. frame. Qed.

Lemma fields_range ix : respects same_fields (range_ix ix).
Proof. by intros s. Qed.
#[local] Hint Resolve fields_fs fields_range : frame.

Lemma fields_insertSec k ix : respects same_fields (insertSec k ix).
Proof. unfold insertSec. frame. Qed.

Lemma fields_retractSec k : respects same_fields (retractSec k).
Proof. unfold retractSec. frame. Qed.
#[local] Hint Resolve fields_insertSec fields_retractSec : frame.

Lemma fields_scan (fn : record -> Z -> Z -> M DB bool) fuel : (forall r o n, respects same_fields (fn r o n)) ->
  forall rest off, respects same_fields (scan_loop fuel rest off fn).
Proof. intros Hf. induction fuel as [|fuel IH]; intros rest off; cbn [scan_loop]; frame. Qed.

Lemma fields_replay r o n : respects same_fields (replay_record r o n).
Proof. unfold replay_record, refreshSec. frame. Qed.

Lemma fields_load : respects same_fields load.
Proof. unfold load, replayTail, scanMainLog, load_hint_entry. frame. all: apply fields_scan, fields_replay. Qed.

Lemma fields_writeMeta idx : respects same_fields (writeMeta idx).
Proof. unfold writeMeta, fsync. frame. Qed.

Lemma fields_openBlobs g : respects same_fields (openBlobs g).
Proof. unfold openBlobs. frame. Qed.
#[local] Hint Resolve fields_load fields_writeMeta fields_openBlobs : frame.

Lemma fields_Open opts d t s : (Open opts d t).1 = Ok s -> hint_fields s = (d_hint d, None, 0).
Proof.
  assert (H : respects same_fields Open_body) by (unfold Open_body, adoptSchema, openMainHandles, open_gen; frame).
  specialize (H (init_db opts d t)). unfold Open. destruct (Open_body (init_db opts d t)) as [[]]; [|done]. cbn. intros [= <-].
  exact H.
Qed.
End opening.
