(* ===== verification/Crash.v ===== *)
(** * A killed process (db.go, mainlog.go, indexhint.go)

    The process dies between two operations, or in the middle of one whose
    record did not reach the file whole.  What it leaves is the log with a torn
    tail, blob files that may have grown, and the hint as it was last written:
    opening the directory gives the store as it was. *)

From S2P Require Import Prelude Floats Types Json Record BTree PkIndex SecIndex Hint Meta Store SecMaint IndexStep LogSpec Invariant Ops Contents PutProofs Load Recovery Batch Frame HintInv.
#[local] Open Scope Z_scope.

Section crash.
Context {BT : BTreeG} {BL : BTreeGLaws BT} {E : Env} {EL : EnvLaws E}.
Implicit Types (s : DB) (log : list record) (d : Disk).

(** What a killed process leaves: the log and a torn tail, blob files that hold
    at least what they held, and the same hint. *)
Definition survives d d' : Prop :=
  d_hint d' = d_hint d
  /\ (exists rest, main_bytes d' = main_bytes d ++ rest /\ torn d' rest = true)
  /\ (forall g, blob_bytes d g `prefix_of` blob_bytes d' g)
  /\ (forall g, is_Some (d_blobs d !! g) -> is_Some (d_blobs d' !! g))
  /\ gens_ok d'.

Lemma survives_refl d : gens_ok d -> survives d d.
Proof. intros Hg. split_and!; try done. exists []. by rewrite app_nil_r. Qed.

Lemma blob_there_survives d d' r : survives d d' -> blob_there d r -> blob_there d' r /\ value_of d' r = value_of d r.
Proof.
  intros (_ & _ & Hp & Hex & _). unfold blob_there, value_of. destruct (r_Blob r) as [b|]; [|done].
  intros (H1 & H2 & H3 & H4 & H5). destruct (Hp (br_Gen b)) as [more Hm]. rewrite Hm. split.
  - split_and!; try done; [rewrite zlen_app; pose proof (zlen_nonneg more); lia|auto].
  - unfold zlen in H3. rewrite drop_app_le by lia. rewrite take_app_le; [done|]. rewrite length_drop. lia.
Qed.

Lemma blob_there_line d r r' : rec_good r -> rec_good r' -> same_line r r' -> blob_there d r -> blob_there d r'.
Proof.
  intros Hr Hr' Hl. pose proof (f_equal r_Blob (same_line_norm r r' Hr Hr' Hl)) as Hb. cbn in Hb. unfold blob_there. by rewrite Hb.
Qed.

(** The hint covers a prefix of what is on the disk, whatever the tail. *)
Lemma survives_on_disk s log d' : Inv s log -> hint_right (db_disk s) -> survives (db_disk s) d' ->
  exists log1 lb rest, Forall2 same_line log (log1 ++ lb) /\ on_disk d' log1 lb rest.
Proof.
  intros HI Hh Hs. pose proof HI as (_ & _ & Hg & _). pose proof (Inv_main s log HI) as Hm.
  assert (Hbt : Forall (blob_there d') log).
  { eapply Forall_impl; [exact (Inv_blob_there s log HI)|]. intros r. by apply blob_there_survives. }
  pose proof Hs as (Hd & (rest & Hm' & Ht) & _ & _ & Hgens). rewrite Hm in Hm'. unfold hint_right in Hh.
  destruct (loadIndexHint (d_hint (db_disk s))) as [[es n]|] eqn:Hload.
  - destruct Hh as (t & -> & Hfit & log1 & rest1 & Hm1 & Hg1 & -> & Hpk & Ha). rewrite Hm in Hm1.
    destruct (enc_align log1 log rest1 Hg1 Hg Hm1) as (la & lb & -> & HF & ->). apply Forall_app in Hg as [Hga Hgb].
    apply Forall_app in Hbt as [Hba Hbb]. exists log1, lb, rest. split.
    { apply Forall2_app; [done|]. apply Forall_Forall2_diag. by apply Forall_true. }
    unfold on_disk. rewrite enc_app, (enc_same _ _ HF), <- enc_app in Hm'. split_and!; try done; [|by apply Forall_app|].
    + right. exists t. split_and!; try done; [by apply hint_ix_ok|by rewrite Hd].
    + apply Forall_app. split; [|done]. clear -HF Hga Hg1 Hba. induction HF as [|r r' la log1 Hr HF IH]; [constructor|].
      apply Forall_cons in Hga as [? ?], Hg1 as [? ?], Hba as [? ?]. constructor; [by apply (blob_there_line d' r)|auto].
  - exists [], log, rest. split; [apply Forall_Forall2_diag; by apply Forall_true|].
    unfold on_disk. split_and!; try done. left. by rewrite Hd, Hload.
Qed.

(** Opening what a killed process leaves. *)
Lemma reopen_run s log d' opts sec t : no_faults E -> Inv s log -> hint_right (db_disk s) -> survives (db_disk s) d' ->
  declare (o_Indexes opts) ∅ = Ok sec ->
  exists s2 log2, Open opts d' t = (Ok s2, s2) /\ Inv s2 log2 /\ hint_inv s2 /\ contents s2 = contents s /\ tags s2 = tags s
    /\ db_closed s2 = false /\ decl_of <$> db_sec s2 = decl_of <$> sec.
Proof.
  intros Hnf HI Hh Hs Hd. pose proof HI as (_ & _ & Hg & _).
  destruct (survives_on_disk s log d' HI Hh Hs) as (log1 & lb & rest & HF & Hon).
  destruct (open_run opts d' log1 lb rest sec t Hnf Hd Hon) as (s2 & H2 & HI2 & Hcl2 & Hb2 & Hdecl2).
  pose proof HI2 as (_ & _ & Hg2 & _). exists s2, (log1 ++ lb). split_and!; try done.
  - assert (Hfi : hint_fields s2 = (d_hint (db_disk s), None, 0)).
    { destruct Hs as [<- _]. apply (fields_Open opts d' t). by rewrite H2. }
    injection Hfi as Hf1 Hf2 Hf3. split; [|unfold snap_right; by rewrite Hf2].
    unfold hint_right in *. by rewrite Hf1, (Inv_main s2 _ HI2), <- (enc_same _ _ HF), <- (Inv_main s log HI).
  - apply map_eq. intros k. rewrite (open_contents s2 _ d' HI2 Hb2), (contents_lookup s log k HI). unfold log_value.
    pose proof (lidx_same log (log1 ++ lb) k Hg Hg2 HF) as Hf. destruct (lidx log !! k) as [[off r]|] eqn:Hk; inversion Hf as [? [off' r'] [_ Hn]|]; [|done].
    apply lidx_elem in Hk as [Hin _]. pose proof (Inv_blob_there s log HI) as Hbt. rewrite Forall_forall in Hbt.
    destruct (blob_there_survives _ d' r Hs (Hbt r Hin)) as [_ Hv]. cbn in Hn |- *. f_equal. rewrite <- Hv.
    pose proof (f_equal r_Blob Hn) as Hb. pose proof (f_equal r_Value Hn) as Hx. cbn in Hb, Hx. unfold value_of. by rewrite Hb, Hx.
  - apply map_eq. intros k. rewrite (tags_lookup s2 _ k HI2), (tags_lookup s log k HI).
    destruct (lidx_same log (log1 ++ lb) k Hg Hg2 HF) as [[off r] [off' r'] [_ Hn]|]; [|done]. cbn in Hn |- *. f_equal.
    unfold rec_tag, is_counter. cbn. f_equal; [by apply (f_equal r_Exp) in Hn|].
    pose proof (f_equal r_Counter Hn) as Hc. pose proof (f_equal r_Blob Hn) as Hb. cbn in Hc, Hb. by rewrite Hc, Hb.
Qed.
End crash.
