(* ===== verification/CounterProofs.v ===== *)
(** * Counters in the store (counter.go)

    [counterUpdate] either overwrites the 20 value bytes of a counter's record
    in the log or appends a new record.  Both give the same store: the log with
    the record of the new value.  From this follow the contracts of [Incr],
    [Topup] and [Take]. *)

From S2P Require Import Prelude Floats Types Counter Json Record CounterPatch BTree PkIndex SecIndex Hint Store SecMaint IndexStep LogSpec Invariant Ops Contents Caps PutProofs Load Recovery Batch Frame HintInv.
#[local] Open Scope Z_scope.

(** ** Replacing a record by one of the same length *)

Lemma index_from_insert l : forall off m (k : gostring) x, Forall (fun r => r_Key r <> k) l ->
  index_from off l (<[k := x]> m) = <[k := x]> (index_from off l m).
Proof.
  induction l as [|r l IH]; intros off m k x HF; cbn [index_from]; [done|].
  apply Forall_cons in HF as [Hr HF]. rewrite <- IH by done. f_equal. unfold apply_rec.
  destruct (isTombstone r); [by rewrite delete_insert_ne|by rewrite insert_insert_ne].
Qed.

Lemma lidx_replace l1 r r' l2 : r_Key r' = r_Key r -> isTombstone r = false -> isTombstone r' = false ->
  zlen (enc_line r') = zlen (enc_line r) -> Forall (fun x => r_Key x <> r_Key r) l2 ->
  lidx (l1 ++ r' :: l2) = <[r_Key r := (zlen (enc l1), r')]> (lidx (l1 ++ r :: l2)).
Proof.
  intros Hk Ht Ht' Hn HF. unfold lidx. rewrite !index_from_app. cbn [index_from]. unfold apply_rec.
  rewrite Ht, Ht', Hn, Hk, !index_from_insert by done. by rewrite insert_insert_eq.
Qed.

Lemma splice_mid i w (pre mid post : gostring) : (i + length w <= length mid)%nat ->
  splice (length pre + i) w (pre ++ mid ++ post) = pre ++ splice i w mid ++ post.
Proof.
  intros Hi. unfold splice. rewrite take_app_ge by lia. replace (length pre + i - length pre)%nat with i by lia.
  rewrite (take_app_le mid post i) by lia. rewrite <- !app_assoc. do 3 f_equal.
  rewrite drop_app_ge by lia. replace (length pre + i + length w - length pre)%nat with (i + length w)%nat by lia.
  by rewrite drop_app_le by lia.
Qed.

Lemma norm_plain r : r_IX r = ∅ -> norm_record r = r.
Proof.
  intros H. unfold norm_record. replace (norm_ix (r_IX r)) with (∅ : IndexValues); [destruct r; cbn in *; by subst|].
  rewrite H. unfold norm_ix. by rewrite omap_empty.
Qed.

Lemma counter_line r w : rec_good r -> counter_shape (r_Value r) = true -> counter_shape w = true ->
  zlen (enc_line (with_value w r)) = zlen (enc_line r) /\ rec_good (with_value w r).
Proof.
  intros Hr Hv Hw. destruct (rec_good_line r Hr) as (line & Hm & He & _).
  destruct (patch_marshal r line w (proj1 Hr) Hv Hw Hm) as (_ & Hm' & Hlen).
  assert (Hz : zlen (enc_line (with_value w r)) = zlen (enc_line r)).
  { rewrite He, (enc_line_eq _ _ Hm'), !zlen_app. f_equal. unfold zlen, splice. f_equal.
    rewrite !length_app, length_take, length_drop, (counter_shape_length w) by done. lia. }
  split; [done|]. destruct Hr as (Hok & H1 & H2). split; [exact Hok|]. split; [by rewrite Hz|exact H2].
Qed.

(** A record without index values is the only one with its line. *)
Lemma same_line_plain r r' : rec_good r -> rec_good r' -> same_line r r' -> r_IX r = ∅ -> r' = r.
Proof.
  intros Hr Hr' Hl Hix. pose proof (same_line_norm r r' Hr Hr' Hl) as Hn. rewrite (norm_plain r Hix) in Hn. rewrite Hn. symmetry.
  apply norm_plain, norm_ix_empty; [apply Hr'|]. pose proof (f_equal r_IX Hn) as H. cbn in H. by rewrite <- H.
Qed.

Lemma same_line_keys la lb (k : gostring) : Forall rec_good la -> Forall rec_good lb -> Forall2 same_line la lb ->
  Forall (fun x => r_Key x <> k) la -> Forall (fun x => r_Key x <> k) lb.
Proof.
  intros Ha Hb HF. induction HF as [|r r' la lb Hr HF IH]; [done|]. apply Forall_cons in Ha as [Hga Ha], Hb as [Hgb Hb].
  intros [Hk H]%Forall_cons. constructor; [|auto]. pose proof (f_equal r_Key (same_line_norm r r' Hga Hgb Hr)) as E. cbn in E. congruence.
Qed.

Lemma agree_replace l1 r r' l2 pk : r_Key r' = r_Key r -> isTombstone r = false -> isTombstone r' = false ->
  zlen (enc_line r') = zlen (enc_line r) -> r_Exp r' = r_Exp r -> r_IX r' = r_IX r -> Forall (fun x => r_Key x <> r_Key r) l2 ->
  agree (lidx (l1 ++ r :: l2)) pk -> agree (lidx (l1 ++ r' :: l2)) pk.
Proof.
  intros Hk Ht Ht' Hn Hx Hix HF Ha. rewrite (lidx_replace l1 r r' l2) by done.
  assert (Hl : lidx (l1 ++ r :: l2) !! r_Key r = Some (zlen (enc l1), r)) by (rewrite (lidx_replace l1 r r l2) by done; by rewrite lookup_insert_eq).
  destruct (agree_Some_l _ _ _ _ Ha Hl) as (e & He & E1 & E2 & E3 & E4 & E5 & E6). rewrite <- (insert_id pk _ e He).
  apply agree_insert; [done|]. cbn [fst snd] in *. unfold entry_for. cbn [fst snd]. rewrite Hk, Hn, Hx, Hix. by split_and!.
Qed.

(** Overwriting a record leaves what the records before a point say about
    positions. *)
Lemma covered_patch {BT : BTreeG} l1 r r' l2 t n : Forall rec_good (l1 ++ r :: l2) -> rec_good r' -> r_IX r = ∅ -> r_IX r' = ∅ ->
  r_Key r' = r_Key r -> isTombstone r = false -> isTombstone r' = false -> zlen (enc_line r') = zlen (enc_line r) ->
  r_Exp r' = r_Exp r -> Forall (fun x => r_Key x <> r_Key r) l2 ->
  covered (enc (l1 ++ r :: l2)) t n -> covered (enc (l1 ++ r' :: l2)) t n.
Proof.
  intros Hg Hr' Hix Hix' Hk Ht Ht' Hlen Hx HF (log1 & rest & Heq & Hg1 & -> & Hpk & Ha).
  destruct (enc_align log1 _ rest Hg1 Hg Heq) as (la & lb & Hsplit & Hsame & ->).
  assert (Hbefore : forall lm, l1 = la ++ lm -> covered (enc (l1 ++ r' :: l2)) t (zlen (enc log1))).
  { intros lm ->. exists log1, (enc (lm ++ r' :: l2)). rewrite <- app_assoc, enc_app, (enc_same _ _ Hsame). by split_and!. }
  apply app_eq_inv in Hsplit as [(lm & -> & _)|([|r0 lm] & -> & Hl2)]; [by eapply Hbefore|apply (Hbefore []); by rewrite !app_nil_r|].
  injection Hl2 as <- ->. apply Forall2_app_inv_l in Hsame as (p1 & p2 & Hs1 & Hs2 & ->). apply Forall2_cons_inv_l in Hs2 as (r1 & p3 & Hr1 & Hs3 & ->).
  apply Forall_app in Hg as [_ Hg], Hg1 as [Hgp1 Hg1]. apply Forall_cons in Hg as [Hgr Hg], Hg1 as [Hgr1 Hgp3].
  apply Forall_app in Hg as [Hgm _], HF as [HFm _].
  pose proof (same_line_plain r r1 Hgr Hgr1 Hr1 Hix) as ->. exists (p1 ++ r' :: p3), (enc lb). split_and!.
  - rewrite !enc_app. cbn [enc]. by rewrite !enc_app, (enc_same _ _ Hs1), (enc_same _ _ Hs3), <- !app_assoc.
  - apply Forall_app. by split; [|constructor].
  - rewrite !enc_app. cbn [enc]. rewrite !zlen_app. by rewrite Hlen.
  - done.
  - apply (agree_replace p1 r r' p3); try done; [congruence|]. by apply (same_line_keys lm p3).
Qed.

Section counters.
Context {BT : BTreeG} {BL : BTreeGLaws BT} {E : Env} {EL : EnvLaws E}.
Implicit Types (s : DB) (log : list record).

(** ** The patch *)

(** The state after the value bytes of the record at [off] are overwritten. *)
Definition patched (off : Z) (w : gostring) (t : nat) s : DB :=
  set_tick t (set_disk (fun dk => set_d_main (Some (splice (Z.to_nat off) w (main_bytes dk))) dk) s).

Lemma counter_slot_some s log key off r e : Inv s log -> lidx log !! key = Some (off, r) -> entry_for (off, r) e ->
  r_IX r = ∅ -> counter_shape (r_Value r) = true ->
  counter_slot r e = Some (off + Z.of_nat (length (line_head (r_Key r))) + 5).
Proof.
  intros (_ & _ & Hg & _) Hl (_ & Ho & Hn & _) Hix Hsh. cbn [fst snd] in *.
  apply lidx_elem in Hl as [Hin _]. rewrite Forall_forall in Hg. pose proof (Hg r Hin) as Hr.
  destruct (rec_good_line r Hr) as (line & Hm & He & _ & _ & Hw). unfold counter_slot. rewrite Hm.
  destruct (patch_marshal r line (formatCounter 0) (proj1 Hr) Hsh (format_shape 0) Hm) as (-> & _).
  assert (H31 : zlen line < 2 ^ 31 - 1).
  { destruct Hr as (_ & Hlt & _). rewrite He, zlen_app in Hlt. change (zlen newline) with 1 in Hlt. lia. }
  rewrite wrap32_id by (unfold in32; pose proof (zlen_nonneg line); lia).
  rewrite Hn, He, zlen_app. change (zlen newline) with 1. rewrite Z.eqb_refl. by rewrite Ho.
Qed.

Lemma patch_file l1 r l2 w : rec_good r -> counter_shape (r_Value r) = true -> counter_shape w = true ->
  splice (Z.to_nat (zlen (enc l1) + Z.of_nat (length (line_head (r_Key r))) + 5)) w (enc (l1 ++ r :: l2))
  = enc (l1 ++ with_value w r :: l2).
Proof.
  intros Hr Hsh Hw. destruct (rec_good_line r Hr) as (line & Hm & He & _).
  destruct (patch_marshal r line w (proj1 Hr) Hsh Hw Hm) as (_ & Hm' & Hlen).
  rewrite !enc_app. cbn [enc]. rewrite He, (enc_line_eq _ _ Hm'), <- !app_assoc.
  replace (Z.to_nat (zlen (enc l1) + Z.of_nat (length (line_head (r_Key r))) + 5))
    with (length (enc l1) + (length (line_head (r_Key r)) + 5))%nat by (unfold zlen; lia).
  apply splice_mid. rewrite (counter_shape_length w) by done. exact Hlen.
Qed.

Lemma Inv_patch s log key off r w t : Inv s log -> lidx log !! key = Some (off, r) -> r_Blob r = None -> r_IX r = ∅ ->
  counter_shape (r_Value r) = true -> counter_shape w = true ->
  let s' := patched (off + Z.of_nat (length (line_head (r_Key r))) + 5) w t s in
  exists log', Inv s' log' /\ contents s' = <[key := w]> (contents s) /\ tags s' = tags s /\ (hint_inv s -> hint_inv s').
Proof.
  intros HI Hl Hb Hix Hsh Hw s'. pose proof HI as (Hm & Hs & Hg & Ha & Hi & (Hb1 & Hb2 & Hb3 & Hb4)).
  destruct (lidx_Some _ _ _ _ Hl) as (l1 & l2 & -> & -> & Hk & Ht & HF). set (r' := with_value w r).
  assert (Hr : rec_good r) by (rewrite Forall_forall in Hg; apply Hg, elem_of_app; right; by left).
  destruct (counter_line r w Hr Hsh Hw) as [Hlen Hr']. fold r' in Hlen, Hr'.
  assert (Hlidx : lidx (l1 ++ r' :: l2) = <[key := (zlen (enc l1), r')]> (lidx (l1 ++ r :: l2))).
  { rewrite <- Hk. by apply lidx_replace; [| | | |rewrite Hk]. }
  assert (HI' : Inv s' (l1 ++ r' :: l2)).
  { unfold Inv. split_and!; try done.
    - cbn. unfold main_bytes. rewrite Hm. cbn. f_equal. by apply patch_file.
    - change (db_size s') with (db_size s). rewrite Hs, !enc_app. cbn [enc]. rewrite !zlen_app. rewrite Hlen. done.
    - apply Forall_app in Hg as [Hg1 Hg2]. apply Forall_cons in Hg2 as [_ Hg2]. apply Forall_app. split; [done|]. by constructor.
    - rewrite Hlidx. change (live s') with (live s). destruct (agree_Some_l _ _ _ _ Ha Hl) as (e & He & Hre).
      rewrite <- (insert_id (live s) key e He). apply agree_insert; [done|]. destruct Hre as (E1 & E2 & E3 & E4 & E5 & E6).
      cbn [fst snd] in *. split_and!; try done. rewrite E3. symmetry. exact Hlen.
    - unfold blob_inv. split_and!; try done. apply Forall_app in Hb4 as [HB1 HB2]. apply Forall_cons in HB2 as [_ HB2].
      apply Forall_app. split; [done|]. constructor; [cbn; by rewrite Hb|done]. }
  exists (l1 ++ r' :: l2). split; [done|]. split; [|split].
  3: { apply hint_inv_covers; [done..|]. intros t0 n. rewrite (Inv_main s _ HI), (Inv_main s' _ HI').
    apply covered_patch; try done. by rewrite Hk. }
  2: { apply map_eq. intros k. rewrite (tags_lookup s' _ k HI'), (tags_lookup s _ k HI), Hlidx.
    destruct (decide (k = key)) as [->|Hne]; [by rewrite lookup_insert_eq, Hl|by rewrite lookup_insert_ne]. }
  apply map_eq. intros k. rewrite (contents_lookup s' _ k HI'), Hlidx. destruct (decide (k = key)) as [->|Hne].
  - rewrite !lookup_insert_eq. cbn. unfold value_of. cbn. by rewrite Hb.
  - rewrite !lookup_insert_ne, (contents_lookup s _ k HI) by done. done.
Qed.

Lemma patch_at_run off w s : no_faults E -> exists t, patch_at off w s = (Ok tt, patched off w t s).
Proof.
  intros (Hw & _). unfold patch_at, tick. unfold mbnd. rewrite Hw. unfold mmodify. eexists. by unfold patched.
Qed.

(** ** The append *)

Definition counter_rec (key : gostring) (v exp : Z) : record :=
  MkRecord key [] (formatCounter v) None false ∅ true exp.

(** A counter record for the key fits its fields, whatever its value. *)
Definition counter_fits (key : gostring) (exp : Z) : Prop := rec_good (counter_rec key 0 exp).

Lemma counter_fits_all key exp v : counter_fits key exp -> rec_good (counter_rec key v exp).
Proof. intros H. apply (counter_line (counter_rec key 0 exp) (formatCounter v) H); apply format_shape. Qed.

Lemma incrAppend_run key v exp s log : no_faults E -> Inv s log -> counter_fits key exp ->
  exists s' log', incrAppend key v exp s = (Ok tt, s') /\ Inv s' log'
    /\ contents s' = <[key := formatCounter v]> (contents s) /\ tags s' = <[key := (exp, true)]> (tags s) /\ grows s s'.
Proof.
  intros Hnf HI Hfit. unfold incrAppend. rewrite mget_bnd.
  destruct (appendRecord key (formatCounter v) ∅ exp (o_SyncEveryWrite (db_opts s)) true s) as [r1 s1] eqn:Happ.
  destruct (appendRecord_clean s log key (formatCounter v) ∅ exp (o_SyncEveryWrite (db_opts s)) true r1 s1 (no_faults_clean E Hnf) HI) as [H|[Hf _]];
    [split; [by apply counter_fits_all|done]|exact Happ| |by destruct (no_faults_failed E r1 Hnf)].
  destruct H as (-> & HI1 & Hg1 & Hv1 & Hl1). rewrite (mbnd_ok _ _ _ _ _ Happ). unfold mmodify. unfold mbnd at 1.
  destruct (maybeWriteHint_frame (set_writes (db_writes s1 + 1) s1)) as (s2 & H2 & _ & Hct2 & Htg2 & _ & Hg2 & HI2).
  exists s2. eexists. split; [exact H2|]. split; [apply HI2; exact HI1|].
  pose proof (contents_put s s1 log _ HI HI1 Hg1 eq_refl) as Hct. rewrite Hv1 in Hct. split; [rewrite Hct2; exact Hct|].
  split; [|eapply grows_trans; [exact Hg1|exact Hg2]].
  rewrite Htg2. exact (tags_put s s1 log _ HI HI1 eq_refl).
Qed.

(** ** The update *)

(** The value [counterUpdate] hands to its step: 0 for an absent or expired
    key, an error for a record that is not a counter. *)
Definition cur_of s (now : Z) (key : gostring) : res Z :=
  match live s !! key with
  | None => Ok 0
  | Some e =>
      if expiredAt e now then Ok 0
      else res_bind (readRecord s e) (fun rec =>
           if (match r_Blob rec with Some _ => true | None => false end) || negb (r_Counter rec) then Err ErrNotCounter
           else match parseCounter (r_Value rec) with None => Err ErrNotCounter | Some v => Ok v end)
  end.

(** An expired counter is deleted first. *)
Definition purged s (now : Z) (key : gostring) : gmap gostring gostring :=
  if expired_at s now key then delete key (contents s) else contents s.

Definition purged_tags s (now : Z) (key : gostring) : gmap gostring (Z * bool) :=
  if expired_at s now key then delete key (tags s) else tags s.

(** A live counter keeps its expiry, a new one gets [createExp]. *)
Definition exp_after s (now : Z) (key : gostring) (createExp : Z) : Z :=
  match live s !! key with
  | Some e => if expiredAt e now then createExp else e_exp e
  | None => createExp
  end.

(** What a counter call leaves behind: the value [n] stored, or nothing but the
    deletion of an expired key. *)
Definition counter_stored s (now : Z) (key : gostring) (createExp n : Z) s' : Prop :=
  contents s' = <[key := formatCounter n]> (contents s) /\ tags s' = <[key := (exp_after s now key createExp, true)]> (tags s).

Definition counter_kept s (now : Z) (key : gostring) s' : Prop :=
  contents s' = purged s now key /\ tags s' = purged_tags s now key.

(** What the update may do, given what the step answered. *)
Definition update_outcome {X} s (now : Z) (key : gostring) (createExp : Z) (x : X) (r : res (Z * bool))
    (out : res (X * Z * bool)) s' : Prop :=
  match r with
  | Err e => out = Err e /\ counter_kept s now key s'
  | Ok (n, false) => out = Ok (x, n, false) /\ counter_kept s now key s'
  | Ok (n, true) => out = Ok (x, n, true) /\ counter_stored s now key createExp n s'
  end.

Lemma tags_key s log (k : gostring) (x : Z) (b : bool) (m : gmap gostring (Z * bool)) : Inv s log -> tags s = <[k := (x, b)]> m -> e_exp <$> live s !! k = Some x.
Proof. intros HI H. by rewrite <- (tags_exp s log k HI), H, lookup_insert_eq. Qed.

(** The branch for a key that is not there. *)
Lemma create_run {X} s log key createExp (step : Z -> X * res (Z * bool)) : no_faults E -> Inv s log -> counter_fits key createExp ->
  exists out s' log', (let '(x, r) := step 0 in
      na <- mres r ;;
      if na.2 then incrAppend key na.1 createExp ;;; mok (x, na.1, true) else mok (x, na.1, false)) s = (out, s')
    /\ Inv s' log' /\ grows s s'
    /\ match (step 0).2 with
       | Err e => out = Err e /\ contents s' = contents s /\ tags s' = tags s
       | Ok (n, false) => out = Ok ((step 0).1, n, false) /\ contents s' = contents s /\ tags s' = tags s
       | Ok (n, true) => out = Ok ((step 0).1, n, true) /\ contents s' = <[key := formatCounter n]> (contents s)
                         /\ tags s' = <[key := (createExp, true)]> (tags s)
       end /\ (hint_inv s -> hint_inv s').
Proof.
  intros Hnf HI Hfit. destruct (step 0) as [x [[n []]|e]]; cbn [fst snd].
  - destruct (incrAppend_run key n createExp s log Hnf HI Hfit) as (s' & log' & Hrun & HI' & Hct & Hexp & Hg).
    exists (Ok (x, n, true)), s', log'. split; [unfold mres; unfold mbnd at 1; cbn [fst snd]; by rewrite (mbnd_ok _ _ _ _ _ Hrun)|].
    split_and!; try done. by apply (ends_kept _ s _ s' log' (ends_incrAppend _ _ _) Hrun).
  - exists (Ok (x, n, false)), s, log. by split_and!.
  - exists (Err e), s, log. by split_and!.
Qed.

(** The branch for a live counter [r] whose current value is [cur]. *)
Lemma update_live {X} s log key off r e (na : Z) (x : X) : no_faults E -> Inv s log ->
  lidx log !! key = Some (off, r) -> live s !! key = Some e -> entry_for (off, r) e ->
  r_Blob r = None -> r_Counter r = true -> is_Some (parseCounter (r_Value r)) -> counter_fits key (e_exp e) ->
  exists s' log', (match (if decide (e_ix e = ∅) then counter_slot (norm_record r) e else None) with
      | Some o => patch_at o (formatCounter na) ;;; (if o_SyncEveryWrite (db_opts s) then fsync else mok tt) ;;; mok (x, na, true)
      | None => incrAppend key na (e_exp e) ;;; mok (x, na, true)
      end) s = (Ok (x, na, true), s') /\ Inv s' log' /\ grows s s'
    /\ contents s' = <[key := formatCounter na]> (contents s) /\ tags s' = <[key := (e_exp e, true)]> (tags s)
    /\ (hint_inv s -> hint_inv s').
Proof.
  intros Hnf HI Hl He Hre Hb Hcnt [cur Hp] Hfit. pose proof (parse_shape _ _ Hp) as Hsh.
  destruct (decide (e_ix e = ∅)) as [Hix|Hix]; last first.
  { destruct (incrAppend_run key na (e_exp e) s log Hnf HI Hfit) as (s' & log' & Hrun & HI' & Hct & Hexp & Hg).
    exists s', log'. rewrite (mbnd_ok _ _ _ _ _ Hrun). split_and!; try done. by apply (ends_kept _ s _ s' log' (ends_incrAppend _ _ _) Hrun). }
  assert (Hrix : r_IX r = ∅) by (destruct Hre as (_ & _ & _ & _ & Hz & _); by apply Hz).
  rewrite (norm_plain r Hrix), (counter_slot_some s log key off r e HI Hl Hre Hrix Hsh).
  destruct (patch_at_run (off + Z.of_nat (length (line_head (r_Key r))) + 5) (formatCounter na) s Hnf) as [t Hrun].
  rewrite (mbnd_ok _ _ _ _ _ Hrun).
  assert (Hex : exists t', ((if o_SyncEveryWrite (db_opts s) then fsync else mok tt) ;;; mok (x, na, true))
            (patched (off + Z.of_nat (length (line_head (r_Key r))) + 5) (formatCounter na) t s)
          = (Ok (x, na, true), patched (off + Z.of_nat (length (line_head (r_Key r))) + 5) (formatCounter na) t' s)).
  { destruct (o_SyncEveryWrite (db_opts s)); [rewrite (fsync_bnd (fun _ => _)) by done|]; by eexists. }
  destruct Hex as [t' ->]. destruct (Inv_patch s log key off r (formatCounter na) t' HI Hl Hb Hrix Hsh (format_shape na))
    as (log' & HI' & Hct & Htg & Hhi). eexists _, log'. split; [done|]. split; [exact HI'|]. split; [by repeat split|]. split; [exact Hct|]. split; [|exact Hhi].
  pose proof Hre as (_ & _ & _ & Hxe & _).
  rewrite Htg. symmetry. apply insert_id. rewrite (tags_lookup s log key HI), Hl. unfold rec_tag, is_counter. cbn. by rewrite Hcnt, Hb, Hxe.
Qed.

Lemma counterUpdate_run {X} s log key createExp (step : Z -> X * res (Z * bool)) :
  no_faults E -> Inv s log -> counter_fits key createExp ->
  (forall e, live s !! key = Some e -> counter_fits key (e_exp e)) ->
  let now := env_now (db_tick s) in
  exists out s' log', counterUpdate key createExp step s = (out, s') /\ Inv s' log' /\ grows s s'
    /\ match cur_of s now key with
       | Err e => out = Err e /\ contents s' = contents s /\ tags s' = tags s
       | Ok cur => update_outcome s now key createExp (step cur).1 (step cur).2 out s'
       end /\ (hint_inv s -> hint_inv s').
Proof.
  intros Hnf HI Hfit Hfit' now. pose proof HI as (_ & _ & _ & Ha & (Hpk & _) & _).
  unfold counterUpdate. rewrite mget_bnd. unfold cur_of, update_outcome, counter_stored, counter_kept, purged, purged_tags, exp_after, expired_at.
  assert (Hget : pk_get (db_pk s) key = live s !! key) by (unfold live; by rewrite pk_map_get). rewrite Hget.
  destruct (live s !! key) as [e|] eqn:He; [|by apply (create_run s log)].
  unfold nowMillis, tick. unfold mbnd at 1 2. cbn [mok]. fold now. set (s0 := set_tick (S (db_tick s)) s).
  destruct (expiredAt e now) eqn:Hex.
  - destruct (deleteLocked key s0) as [r1 s1] eqn:Hd.
    destruct (deleteLocked_clean s0 log key r1 s1 (no_faults_clean E Hnf) HI (Inv_key_good s log key e HI He) Hd)
      as [(-> & HI1 & Hl1 & Hk1)|[Hf _]]; [|by destruct (no_faults_failed E r1 Hnf)].
    rewrite (mbnd_ok _ _ _ _ _ Hd).
    pose proof (contents_delete s0 s1 log key HI HI1 (keeps_grows _ _ Hk1)) as Hct. change (contents s0) with (contents s) in Hct.
    destruct (create_run s1 _ key createExp step Hnf HI1 Hfit) as (out & s' & log' & Hrun & HI' & Hg & Hres & Hhi).
    assert (Hh1 : hint_inv s -> hint_inv s1).
    { pose proof (app_deleteLocked key s0) as Hap. rewrite Hd in Hap. exact (snapped_hint s0 s1 _ HI1 (log_grows_ends _ _ Hap)). }
    pose proof (tags_delete s0 s1 log key HI HI1) as Hx1. change (tags s0) with (tags s) in Hx1.
    exists out, s', log'. split; [exact Hrun|]. split; [done|]. split; [eapply grows_trans; [exact (keeps_grows _ _ Hk1)|exact Hg]|]. split; [|auto].
    rewrite Hct, Hx1 in Hres. destruct (step 0) as [x [[n []]|err]]; cbn [fst snd] in *; try done. destruct Hres as (? & Hc' & He').
    split_and!; try done; [by rewrite Hc', insert_delete_eq|by rewrite He', insert_delete_eq].
  - rewrite mget_bnd. unfold mres. unfold mbnd at 1. change (readRecord s0 e) with (readRecord s e).
    destruct (agree_Some_r _ _ _ _ Ha He) as ([off r] & Hl & Hre). pose proof Hre as (_ & Ho & Hn & _).
    rewrite (readRecord_log s log key off r e (Inv_main s log HI) (proj1 (proj2 (proj2 HI))) Hl Ho Hn). cbn [res_bind].
    change (r_Blob (norm_record r)) with (r_Blob r). change (r_Counter (norm_record r)) with (r_Counter r).
    change (r_Value (norm_record r)) with (r_Value r).
    destruct (r_Blob r) as [b|] eqn:Hb; [by exists (Err ErrNotCounter), s0, log|]. cbn [orb].
    destruct (r_Counter r) eqn:Hcnt; cbn [negb]; [|by exists (Err ErrNotCounter), s0, log].
    destruct (parseCounter (r_Value r)) as [cur|] eqn:Hp; [|by exists (Err ErrNotCounter), s0, log].
    destruct (step cur) as [x [[na []]|err]]; cbn [fst snd];
      [|by exists (Ok (x, na, false)), s0, log|by exists (Err err), s0, log].
    unfold mbnd at 1. cbn [negb fst snd].
    destruct (update_live s0 log key off r e na x Hnf HI Hl He Hre Hb Hcnt) as (s' & log' & Hrun & HI' & Hg & Hct & Hexp & Hhi);
      [by rewrite Hp|by apply Hfit'|].
    exists (Ok (x, na, true)), s', log'. by split_and!.
Qed.

(** ** The contracts *)

Lemma cur_in64 s now key cur : cur_of s now key = Ok cur -> in64 cur.
Proof.
  unfold cur_of. assert (H0 : in64 0) by done. destruct (live s !! key) as [e|]; [|by intros [= <-]].
  destruct (expiredAt e now); [by intros [= <-]|]. destruct (readRecord s e) as [rec|]; [|done]. cbn [res_bind].
  destruct (_ || _); [done|]. destruct (parseCounter (r_Value rec)) as [v|] eqn:Hp; [|done]. intros [= <-].
  apply (parse_canonical _ _ Hp).
Qed.

(** The reading of the clock that decides whether the key has expired. *)
Definition now_after (ttl : list Z) s : Z := env_now (db_tick (resolveTTL ttl s).2).

(** The counter records a call may write fit their fields. *)
Definition counters_fit s (key : gostring) (exp : Z) : Prop :=
  counter_fits key exp /\ match live s !! key with Some e => counter_fits key (e_exp e) | None => True end.

Lemma counter_call {X A} s log key ttl exp (step : Z -> X * res (Z * bool)) (k : X * Z * bool -> M DB A) :
  no_faults E -> Inv s log -> db_closed s = false -> (resolveTTL ttl s).1 = Ok exp -> counters_fit s key exp ->
  exists out s' log', (createExp <- resolveTTL ttl ;; check_open ;;; r <- counterUpdate key createExp step ;; k r) s
      = (match out with Ok r => k r s' | Err e => (Err e, s') end)
    /\ Inv s' log' /\ grows s s'
    /\ match cur_of s (now_after ttl s) key with
       | Err e => out = Err e /\ contents s' = contents s /\ tags s' = tags s
       | Ok cur => update_outcome s (now_after ttl s) key exp (step cur).1 (step cur).2 out s'
       end /\ (hint_inv s -> hint_inv s').
Proof.
  intros Hnf HI Hcl Hexp [Hf1 Hf2]. destruct (resolveTTL_tick ttl s) as [t0 Ht0]. rewrite Hexp in Ht0.
  rewrite (mbnd_ok _ _ _ _ _ Ht0), (open_bnd (fun _ => _)) by done.
  destruct (counterUpdate_run (set_tick t0 s) log key exp step Hnf HI Hf1) as (out & s' & log' & Hrun & HI' & Hg & Hres & Hhi).
  { intros e He. change (live (set_tick t0 s)) with (live s) in He. by rewrite He in Hf2. }
  exists out, s', log'. split.
  - destruct out; [by rewrite (mbnd_ok _ _ _ _ _ Hrun)|by rewrite (mbnd_err _ _ _ _ _ Hrun)].
  - split; [done|]. split; [exact Hg|]. split; [|exact Hhi]. unfold now_after. rewrite Ht0. exact Hres.
Qed.

Lemma Incr_run s log key delta ttl exp :
  no_faults E -> Inv s log -> db_closed s = false -> (resolveTTL ttl s).1 = Ok exp -> counters_fit s key exp -> in64 delta ->
  let now := now_after ttl s in
  exists out s' log', Incr key delta ttl s = (out, s') /\ Inv s' log' /\ grows s s'
    /\ match cur_of s now key with
       | Err e => out = Err e /\ contents s' = contents s /\ tags s' = tags s
       | Ok cur =>
           if decide (in64 (cur + delta)) then out = Ok (cur + delta) /\ counter_stored s now key exp (cur + delta) s'
           else out = Err ErrCounterOverflow /\ counter_kept s now key s'
       end /\ (hint_inv s -> hint_inv s').
Proof.
  intros Hnf HI Hcl Hexp Hfit Hd now. unfold Incr.
  destruct (counter_call s log key ttl exp (fun cur => (tt, incr_step delta cur)) (fun r => mok r.1.2) Hnf HI Hcl Hexp Hfit)
    as (out & s' & log' & -> & HI' & Hg & Hres & Hhi). fold now in Hres.
  destruct (cur_of s now key) as [cur|e] eqn:Hcur; [|destruct Hres as [-> ?]; by exists (Err e), s', log'].
  unfold update_outcome in Hres. cbn [fst snd] in Hres. rewrite (incr_step_exact delta cur Hd (cur_in64 _ _ _ _ Hcur)) in Hres.
  case_decide.
  - destruct Hres as (-> & ?). by exists (Ok (cur + delta)), s', log'.
  - destruct Hres as (-> & ?). by exists (Err ErrCounterOverflow), s', log'.
Qed.

Lemma Topup_run s log key amount max ttl exp :
  no_faults E -> Inv s log -> db_closed s = false -> (resolveTTL ttl s).1 = Ok exp -> counters_fit s key exp ->
  0 <= amount <= MaxInt64 -> in64 max ->
  let now := now_after ttl s in
  exists out s' log', Topup key amount max ttl s = (out, s') /\ Inv s' log' /\ grows s s'
    /\ match cur_of s now key with
       | Err e => out = Err e /\ contents s' = contents s /\ tags s' = tags s
       | Ok cur =>
           let applied := Z.max 0 (Z.min amount (max - cur)) in
           out = Ok (amount - applied)
           /\ if decide (applied = 0) then counter_kept s now key s' else counter_stored s now key exp (cur + applied) s'
       end /\ (hint_inv s -> hint_inv s').
Proof.
  intros Hnf HI Hcl Hexp Hfit Ha Hm now. unfold Topup. rewrite (proj2 (Z.ltb_ge amount 0)) by lia.
  destruct (counter_call s log key ttl exp (fun cur => (topup_overflow amount max cur, topup_step amount max cur)) (fun r => mok r.1.1)
    Hnf HI Hcl Hexp Hfit) as (out & s' & log' & -> & HI' & Hg & Hres & Hhi). fold now in Hres.
  destruct (cur_of s now key) as [cur|e] eqn:Hcur; [|destruct Hres as [-> ?]; by exists (Err e), s', log'].
  destruct (topup_step_clamps amount max cur Ha Hm (cur_in64 _ _ _ _ Hcur)) as (Ho & Hs & _).
  unfold update_outcome in Hres. cbn [fst snd] in Hres. rewrite Hs, Ho in Hres. cbv zeta.
  set (applied := Z.max 0 (Z.min amount (max - cur))) in *.
  exists (Ok (amount - applied)), s', log'. case_decide; by destruct Hres as (-> & ?).
Qed.

Lemma Take_run s log key amount left ttl exp :
  no_faults E -> Inv s log -> db_closed s = false -> (resolveTTL ttl s).1 = Ok exp -> counters_fit s key exp ->
  0 <= amount <= MaxInt64 -> in64 left ->
  let now := now_after ttl s in
  exists out s' log', Take key amount left ttl s = (out, s') /\ Inv s' log' /\ grows s s'
    /\ match cur_of s now key with
       | Err e => out = Err e /\ contents s' = contents s /\ tags s' = tags s
       | Ok cur =>
           if decide (left <= cur - amount) then out = Ok true /\ counter_stored s now key exp (cur - amount) s'
           else out = Ok false /\ counter_kept s now key s'
       end /\ (hint_inv s -> hint_inv s').
Proof.
  intros Hnf HI Hcl Hexp Hfit Ha Hl now. unfold Take. rewrite (proj2 (Z.ltb_ge amount 0)) by lia.
  destruct (counter_call s log key ttl exp (fun cur => (tt, take_step amount left cur)) (fun r => mok r.2)
    Hnf HI Hcl Hexp Hfit) as (out & s' & log' & -> & HI' & Hg & Hres & Hhi). fold now in Hres.
  destruct (cur_of s now key) as [cur|e] eqn:Hcur; [|destruct Hres as [-> ?]; by exists (Err e), s', log'].
  unfold update_outcome in Hres. cbn [fst snd] in Hres. rewrite (take_step_guard amount left cur Ha Hl (cur_in64 _ _ _ _ Hcur)) in Hres.
  case_decide.
  - destruct Hres as (-> & ?). by exists (Ok true), s', log'.
  - destruct Hres as (-> & ?). by exists (Ok false), s', log'.
Qed.

(** C5. [Incr] adds exactly: on an absent or expired key it starts from 0, on a
    live counter from its value; a sum that fits an int64 is returned and
    stored, with the expiry kept (or armed, when the call creates the key), a
    sum that does not is refused and stored nowhere, and a key that holds
    something else is refused.  Whether the value was patched in place or
    appended makes no difference. *)
Theorem incr_correct s log key delta ttl exp :
  no_faults E -> Inv s log -> db_closed s = false -> (resolveTTL ttl s).1 = Ok exp -> counters_fit s key exp -> in64 delta ->
  let now := now_after ttl s in
  exists out s' log', Incr key delta ttl s = (out, s') /\ Inv s' log'
    /\ match cur_of s now key with
       | Err e => out = Err e /\ contents s' = contents s
       | Ok cur =>
           if decide (in64 (cur + delta)) then
             out = Ok (cur + delta) /\ contents s' = <[key := formatCounter (cur + delta)]> (contents s)
             /\ e_exp <$> live s' !! key = Some (exp_after s now key exp)
           else out = Err ErrCounterOverflow /\ contents s' = purged s now key
       end.
Proof.
  intros Hnf HI Hcl Hexp Hfit Hd now.
  destruct (Incr_run s log key delta ttl exp Hnf HI Hcl Hexp Hfit Hd) as (out & s' & log' & Hrun & HI' & _ & Hres & _). fold now in Hres.
  exists out, s', log'. split_and!; [done|done|]. destruct (cur_of s now key) as [cur|e]; [case_decide|]; [|by destruct Hres as (? & ? & ?)..].
  destruct Hres as (? & ? & Hx). split_and!; [done|done|]. by eapply tags_key.
Qed.

(** [Topup] adds what fits: the counter grows by the part of [amount] that
    keeps it at most [max], the call returns the rest, and when nothing fits
    nothing is written (a counter above [max] is left alone). *)
Theorem topup_correct s log key amount max ttl exp :
  no_faults E -> Inv s log -> db_closed s = false -> (resolveTTL ttl s).1 = Ok exp -> counters_fit s key exp ->
  0 <= amount <= MaxInt64 -> in64 max ->
  let now := now_after ttl s in
  exists out s' log', Topup key amount max ttl s = (out, s') /\ Inv s' log'
    /\ match cur_of s now key with
       | Err e => out = Err e /\ contents s' = contents s
       | Ok cur =>
           let applied := Z.max 0 (Z.min amount (max - cur)) in
           out = Ok (amount - applied)
           /\ if decide (applied = 0) then contents s' = purged s now key
              else contents s' = <[key := formatCounter (cur + applied)]> (contents s)
                   /\ e_exp <$> live s' !! key = Some (exp_after s now key exp)
       end.
Proof.
  intros Hnf HI Hcl Hexp Hfit Ha Hm now.
  destruct (Topup_run s log key amount max ttl exp Hnf HI Hcl Hexp Hfit Ha Hm) as (out & s' & log' & Hrun & HI' & _ & Hres & _). fold now in Hres.
  exists out, s', log'. split_and!; [done|done|]. destruct (cur_of s now key) as [cur|e]; [|by destruct Hres as (? & ? & ?)].
  cbv zeta in *. destruct Hres as [? Hres]. split; [done|]. case_decide; [by destruct Hres|].
  destruct Hres as (? & Hx). split; [done|]. by eapply tags_key.
Qed.

(** [Take] is all or nothing: it subtracts [amount] and answers true when
    the counter stays at [left] or above, and otherwise answers false and
    writes nothing. *)
Theorem take_correct s log key amount left ttl exp :
  no_faults E -> Inv s log -> db_closed s = false -> (resolveTTL ttl s).1 = Ok exp -> counters_fit s key exp ->
  0 <= amount <= MaxInt64 -> in64 left ->
  let now := now_after ttl s in
  exists out s' log', Take key amount left ttl s = (out, s') /\ Inv s' log'
    /\ match cur_of s now key with
       | Err e => out = Err e /\ contents s' = contents s
       | Ok cur =>
           if decide (left <= cur - amount) then
             out = Ok true /\ contents s' = <[key := formatCounter (cur - amount)]> (contents s)
             /\ e_exp <$> live s' !! key = Some (exp_after s now key exp)
           else out = Ok false /\ contents s' = purged s now key
       end.
Proof.
  intros Hnf HI Hcl Hexp Hfit Ha Hl now.
  destruct (Take_run s log key amount left ttl exp Hnf HI Hcl Hexp Hfit Ha Hl) as (out & s' & log' & Hrun & HI' & _ & Hres & _). fold now in Hres.
  exists out, s', log'. split_and!; [done|done|]. destruct (cur_of s now key) as [cur|e]; [case_decide|]; [|by destruct Hres as (? & ? & ?)..].
  destruct Hres as (? & ? & Hx). split_and!; [done|done|]. by eapply tags_key.
Qed.
End counters.
