(* ===== verification/RangeProofs.v ===== *)
(** * Range deletes and the reaper (rangedel.go, db.go)

    A range delete writes a tombstone per doomed key and sweeps the indexes
    once; it removes exactly the keys in the range.  The reaper deletes keys
    that have expired and whose record is still the one that was seen; what a
    reader sees does not change. *)

From S2P Require Import Prelude Floats Types Json Record BTree PkIndex SecIndex Hint Store SecMaint IndexStep LogSpec Invariant Ops Contents Caps PutProofs Load Recovery Batch Frame HintInv.
#[local] Open Scope Z_scope.

Section sweep.
Context {BT : BTreeG} {BL : BTreeGLaws BT}.

Lemma removes_elem (l : list secEntry) : forall si, sec_ok si -> Forall not_nan l ->
  sec_ok (fold_left si_remove l si) /\ decl_of (fold_left si_remove l si) = decl_of si
  /\ forall x, x ∈ bt_scan (si_tree (fold_left si_remove l si))
       <-> x ∈ bt_scan (si_tree si) /\ Forall (fun e => same_entry si e x = false) l.
Proof.
  induction l as [|e l IH]; intros si Hok HF; cbn [fold_left].
  { split; [done|]. split; [done|]. intros x. split; [intros ?; split; [done|constructor]|by intros [? _]]. }
  apply Forall_cons in HF as [He HF]. destruct (IH (si_remove si e) (si_remove_ok si e Hok He) HF) as (H1 & H2 & H3).
  split; [done|]. split; [by rewrite H2|]. intros x. rewrite H3, si_remove_elem, Forall_cons by done.
  change (same_entry (si_remove si e)) with (same_entry si). tauto.
Qed.

Lemma removes_tree (l : list secEntry) : forall si : secIndex,
  with_tree si (fold_left (fun t e => (bt_delete t e).2) l (si_tree si)) = fold_left si_remove l si.
Proof. induction l as [|e l IH]; intros si; cbn [fold_left]; [by destruct si|]. rewrite <- IH. done. Qed.

Lemma removePKs_spec (si : secIndex) (pks : gset gostring) : sec_ok si ->
  sec_ok (removePKs si pks) /\ decl_of (removePKs si pks) = decl_of si
  /\ forall x, x ∈ bt_scan (si_tree (removePKs si pks)) <-> x ∈ bt_scan (si_tree si) /\ se_pk x ∉ pks.
Proof.
  intros Hok. pose proof (sec_not_nan si Hok) as HF. unfold removePKs. rewrite removes_tree.
  set (doomed := filter (fun e => se_pk e ∈ pks) (bt_scan (si_tree si))).
  destruct (removes_elem doomed si Hok) as (H1 & H2 & H3); [apply Forall_forall; intros e [_ He]%list_elem_of_filter; rewrite Forall_forall in HF; auto|].
  split; [done|]. split; [done|]. intros x. rewrite H3. split; intros [Hx Hd]; (split; [done|]).
  - intros Hin. rewrite Forall_forall in Hd, HF. specialize (Hd x ltac:(by apply list_elem_of_filter)).
    unfold same_entry in Hd. rewrite valueEqual_equiv, (equiv_refl not_nan) in Hd by (auto || apply _).
    by rewrite bool_decide_eq_true_2 in Hd.
  - apply Forall_forall. intros e [He _]%list_elem_of_filter. destruct (same_entry si e x) eqn:Hs; [|done].
    apply same_entry_pk in Hs. by rewrite Hs in He.
Qed.

Lemma matches_sweep (m : gmap gostring secIndex) (pk : gmap gostring pkEntry) (ks : list gostring) : matches m pk ->
  matches ((fun si => removePKs si (list_to_set ks)) <$> m) (drop_keys ks pk).
Proof.
  intros HM name si' Hsi'. rewrite lookup_fmap in Hsi'. destruct (m !! name) as [si|] eqn:Hsi; [|done].
  apply (inj Some) in Hsi' as <-. destruct (HM name si Hsi) as [Hok Hx].
  destruct (removePKs_spec si (list_to_set ks) Hok) as (H1 & H2 & H3). split; [done|]. intros x. rewrite H3, Hx, elem_of_list_to_set.
  assert (Hme : forall v k, makeEntry (removePKs si (list_to_set ks)) v k = makeEntry si v k).
  { done. }
  unfold derived. split.
  - intros [(e & v & Hl & Hv & Hm) Hn]. exists e, v. rewrite lookup_drop_keys, decide_False by done. by rewrite Hme.
  - intros (e & v & Hl & Hv & Hm). rewrite lookup_drop_keys in Hl. case_decide; [done|]. split; [|done].
    exists e, v. by rewrite Hme in Hm.
Qed.

Lemma removes_map (es : list pkEntry) : forall t : pkIndex, pk_ok t ->
  pk_ok (fold_left (fun t e => (pk_remove t (e_key e)).2) es t)
  /\ pk_map (fold_left (fun t e => (pk_remove t (e_key e)).2) es t) = drop_keys (e_key <$> es) (pk_map t).
Proof.
  induction es as [|e es IH]; intros t Hpk; cbn [fold_left]; [by rewrite drop_keys_nil|].
  destruct (IH _ (pk_remove_ok t (e_key e) Hpk)) as [H1 H2]. split; [done|].
  by rewrite H2, fmap_cons, drop_keys_cons, pk_remove_map.
Qed.
End sweep.

(** ** Deleting a set of keys at once *)

Lemma agree_drop (lm : gmap gostring (Z * record)) (pk : gmap gostring pkEntry) (ks : list gostring) : agree lm pk -> agree (drop_keys ks lm) (drop_keys ks pk).
Proof. intros H k. rewrite !lookup_drop_keys. case_decide; [constructor|apply H]. Qed.

Lemma lidx_tombstones (ks : list gostring) : forall log, lidx (log ++ (tombstone <$> ks)) = drop_keys ks (lidx log).
Proof.
  induction ks as [|k ks IH]; intros log; [by rewrite app_nil_r, drop_keys_nil|].
  rewrite fmap_cons, drop_keys_cons. change (tombstone k :: (tombstone <$> ks)) with ([tombstone k] ++ (tombstone <$> ks)).
  rewrite app_assoc, IH. f_equal. by rewrite lidx_snoc.
Qed.

Section ranges.
Context {BT : BTreeG} {BL : BTreeGLaws BT} {E : Env} {EL : EnvLaws E}.
Implicit Types (s : DB) (log : list record).

Definition appended (text : gostring) (t : nat) s : DB :=
  set_tick t (set_size (db_size s + zlen text) (main_put text s)).

Lemma tombstones_run (es : list pkEntry) : forall s f, no_faults E -> d_main (db_disk s) = Some f ->
  Forall (fun e => rec_good (tombstone (e_key e))) es ->
  exists t, mfor (fun e => main_append (tombstone (e_key e)) ;;; mok tt) es s
    = (Ok tt, appended (enc (tombstone <$> (e_key <$> es))) t s).
Proof.
  induction es as [|e es IH]; intros s f Hnf Hm HF; cbn [mfor].
  { exists (db_tick s). cbn. unfold appended. rewrite (main_put_nil s f Hm). rewrite zlen_nil, Z.add_0_r. by destruct s. }
  apply Forall_cons in HF as [He HF].
  destruct (appendSync (tombstone (e_key e)) (o_SyncEveryWrite (db_opts s)) s) as [r1 s1] eqn:Ha.
  destruct (appendSync_clean _ _ s r1 s1 f (no_faults_clean E Hnf) He Hm Ha) as [(t & -> & ->)|(t & Hf & _)];
    [|by destruct (no_faults_failed E r1 Hnf)].
  assert (Hstep : (main_append (tombstone (e_key e)) ;;; mok tt) s
                  = (Ok tt, append_state (tombstone (e_key e)) t s)).
  { unfold main_append. unfold mbnd at 1. by rewrite mget_bnd, Ha. }
  rewrite (mbnd_ok _ _ _ _ _ Hstep). set (s1 := append_state (tombstone (e_key e)) t s).
  destruct (IH s1 (f ++ enc_line (tombstone (e_key e))) Hnf) as [t' Hrun]; [cbn; unfold main_bytes; by rewrite Hm|done|].
  exists t'. rewrite Hrun. f_equal. rewrite !fmap_cons. cbn [enc]. unfold appended, s1, append_state, main_put, set_disk, main_bytes.
  cbn. rewrite Hm. cbn. rewrite app_assoc, zlen_app. unfold id. rewrite Z.add_assoc. done.
Qed.

(** The shared body of the range deletes. *)
Lemma removePkEntries_run s log doomed : no_faults E -> Inv s log ->
  (forall e, e ∈ doomed -> e ∈ pk_scan (db_pk s)) ->
  Forall hint_entry_ok (pk_scan (db_pk s)) -> in64 (db_size s + zlen (enc (tombstone <$> (e_key <$> doomed)))) ->
  exists s' log', removePkEntries doomed s = (Ok (zlen doomed), s') /\ Inv s' log'
    /\ contents s' = drop_keys (e_key <$> doomed) (contents s) /\ tags s' = drop_keys (e_key <$> doomed) (tags s) /\ grows s s'
    /\ (hint_inv s -> hint_inv s').
Proof.
  intros Hnf HI Hsub Hhe Hsz. destruct doomed as [|e0 d]; [exists s, log; by rewrite !drop_keys_nil|].
  set (doomed := e0 :: d) in *. set (ks := e_key <$> doomed) in *.
  pose proof HI as (Hm & Hs & Hg & Ha & (Hpk & HM & Hnn) & Hb).
  assert (Hgood : Forall (fun e => rec_good (tombstone (e_key e))) doomed).
  { apply Forall_forall. intros e He. apply (Inv_key_good s log _ e HI). apply pk_scan_elem; [done|]. by apply Hsub. }
  destruct (tombstones_run doomed s _ Hnf Hm Hgood) as [t Hrun]. fold ks in Hrun.
  unfold removePkEntries. unfold doomed at 1. cbv iota. rewrite (mbnd_ok _ _ _ _ _ Hrun).
  unfold mmodify at 1 2 3. unfold mbnd at 1. unfold mbnd at 1. unfold mbnd at 1.
  match goal with |- context [mbnd writeHint _ ?st] => set (s1 := st) end.
  destruct (removes_map doomed (db_pk s) Hpk) as [Hpk1 Hmap1]. fold ks in Hmap1.
  assert (Hl1 : live s1 = drop_keys ks (live s)) by exact Hmap1.
  assert (Hsub1 : forall e, e ∈ pk_scan (db_pk s1) -> e ∈ pk_scan (db_pk s)).
  { intros e He. apply pk_scan_elem in He; [|exact Hpk1]. change (pk_map (db_pk s1)) with (live s1) in He. rewrite Hl1, lookup_drop_keys in He.
    case_decide; [done|]. by apply pk_scan_elem. }
  assert (HI1 : Inv s1 (log ++ (tombstone <$> ks))).
  { unfold Inv. split_and!.
    - cbn. unfold main_bytes. rewrite Hm. cbn. by rewrite enc_app.
    - change (db_size s1) with (db_size s + zlen (enc (tombstone <$> ks))). by rewrite Hs, enc_app, zlen_app.
    - apply Forall_app. split; [done|]. apply Forall_fmap. unfold ks. apply Forall_fmap. exact Hgood.
    - rewrite lidx_tombstones, Hl1. by apply agree_drop.
    - split; [exact Hpk1|]. rewrite Hl1. split; [exact (matches_sweep _ _ ks HM)|].
      intros k e He. rewrite lookup_drop_keys in He. case_decide; [done|]. by apply (Hnn k).
    - destruct Hb as (B1 & B2 & B3 & B4). unfold blob_inv. split_and!; try done. apply Forall_app. split; [done|].
      apply Forall_fmap, Forall_true. done. }
  assert (Hct : contents s1 = drop_keys ks (contents s)).
  { apply map_eq. intros k. rewrite (contents_lookup s1 _ k HI1), lidx_tombstones, !lookup_drop_keys.
    case_decide; [done|]. by rewrite (contents_lookup s log k HI). }
  destruct (writeHint_right s1 Hnf (Inv_covered s1 _ HI1)) as (s2 & H2 & Ho & Hhr & Hfl & Hep);
    [apply Forall_forall; intros e He; rewrite Forall_forall in Hhe; by apply Hhe, Hsub1|exact Hsz|].
  rewrite (mbnd_ok _ _ _ _ _ H2). exists s2, (log ++ (tombstone <$> ks)). split; [done|].
  assert (Hx1 : tags s1 = drop_keys ks (tags s)).
  { apply map_eq. intros k. rewrite (tags_lookup s1 _ k HI1), lidx_tombstones, !lookup_drop_keys.
    case_decide; [done|]. by rewrite (tags_lookup s log k HI). }
  assert (Hdecl : decl_of <$> db_sec s1 = decl_of <$> db_sec s).
  { change (db_sec s1) with ((fun si => removePKs si (list_to_set ks)) <$> db_sec s). rewrite <- map_fmap_compose. by apply map_fmap_ext. }
  assert (Hm2 : main_bytes (db_disk s2) = main_bytes (db_disk s) ++ enc (tombstone <$> ks)) by (by destruct Ho as (h & g & i & t' & w & ->)).
  assert (hint_inv s -> hint_inv s2) by (intros [_ Hsn]; split; [done|]; apply (snap_right_grows s); try done; rewrite Hm2; by eexists).
  destruct Ho as (h & g & i & t' & w & ->). split; [exact HI1|]. split; [exact Hct|]. split; [exact Hx1|].
  split; [|done]. split_and!; try done; exact Hdecl.
Qed.
End ranges.

Lemma size_split {V} (p : gostring -> bool) (m : gmap gostring V) :
  (size (filter (fun kv => p kv.1 = true) m) + size (filter (fun kv => p kv.1 = false) m) = size m)%nat.
Proof.
  rewrite <- (map_filter_union_complement (fun kv => p kv.1 = true) m) at 3.
  rewrite map_size_disj_union by apply map_disjoint_filter_complement. do 2 f_equal.
  apply map_filter_ext. intros k x _. cbn. by destruct (p k).
Qed.

(** Dropping the keys a predicate selects. *)
Lemma drop_doomed {V} (p : gostring -> bool) (ks : list gostring) (m : gmap gostring V) :
  (forall k, k ∈ ks <-> p k = true /\ is_Some (m !! k)) -> drop_keys ks m = filter (fun kv => p kv.1 = false) m.
Proof.
  intros H. apply map_eq. intros k. rewrite lookup_drop_keys. case_decide as Hk.
  - apply H in Hk as [Hp _]. symmetry. apply map_lookup_filter_None. right. intros x _. cbn. congruence.
  - destruct (m !! k) as [v|] eqn:Hv; symmetry; [|apply map_lookup_filter_None; by left].
    apply map_lookup_filter_Some. split; [done|]. cbn. destruct (p k) eqn:Hp; [|done]. destruct Hk. apply H. eauto.
Qed.

Section range_theorems.
Context {BT : BTreeG} {BL : BTreeGLaws BT} {E : Env} {EL : EnvLaws E}.
Implicit Types (s : DB) (log : list record).

(** The entries a predicate on keys selects. *)
Definition doomed_by (p : gostring -> bool) s : list pkEntry :=
  filter (fun e => p (e_key e) = true) (pk_scan (db_pk s)).

(** The tombstones fit, and so does the hint written afterwards. *)
Definition range_fits s (p : gostring -> bool) : Prop :=
  Forall hint_entry_ok (pk_scan (db_pk s)) /\ in64 (db_size s + zlen (enc (tombstone <$> (e_key <$> doomed_by p s)))).

Lemma remove_by_run s log p : no_faults E -> Inv s log -> range_fits s p ->
  exists s' log', removePkEntries (doomed_by p s) s = (Ok (zlen (doomed_by p s)), s') /\ Inv s' log'
    /\ contents s' = filter (fun kv => p kv.1 = false) (contents s) /\ tags s' = filter (fun kv => p kv.1 = false) (tags s) /\ grows s s'
    /\ zlen (doomed_by p s) = Z.of_nat (size (contents s)) - Z.of_nat (size (contents s')) /\ (hint_inv s -> hint_inv s').
Proof.
  intros Hnf HI [Hhe Hsz]. pose proof HI as (_ & _ & _ & _ & (Hpk & _) & _).
  destruct (removePkEntries_run s log (doomed_by p s) Hnf HI) as (s' & log' & Hrun & HI' & Hct & Hx & Hg & Hh); [|done|done|].
  { by intros e [_ He]%list_elem_of_filter. }
  assert (Hdoom : forall k, k ∈ e_key <$> doomed_by p s <-> p k = true /\ is_Some (contents s !! k)).
  { intros k. rewrite (contents_dom s log k HI), list_elem_of_fmap. unfold doomed_by. setoid_rewrite list_elem_of_filter. split.
    - intros (e & -> & Hp & He). split; [done|]. apply pk_scan_elem in He; [|done]. unfold live. eauto.
    - intros [Hp [e He]]. exists e. pose proof (pk_map_key _ _ _ Hpk He) as Hk. rewrite Hk. split_and!; try done.
      apply pk_scan_elem; [done|]. by rewrite Hk. }
  assert (Hfil : contents s' = filter (fun kv => p kv.1 = false) (contents s)) by (rewrite Hct; by apply drop_doomed).
  assert (Hxfil : tags s' = filter (fun kv => p kv.1 = false) (tags s)).
  { rewrite Hx. apply drop_doomed. intros k. by rewrite Hdoom, (contents_dom s log k HI), (tags_dom s log k HI). }
  exists s', log'. split_and!; try done. rewrite Hfil.
  assert (Hsize : (size (filter (fun kv => p kv.1 = true) (contents s)) + size (filter (fun kv => p kv.1 = false) (contents s)) = size (contents s))%nat).
  { apply size_split. }
  assert (Hlen : length (doomed_by p s) = size (filter (fun kv => p kv.1 = true) (contents s))).
  { rewrite <- (length_fmap e_key), <- size_dom. rewrite <- (size_list_to_set (C := gset gostring) (e_key <$> doomed_by p s)).
    - f_equal. apply set_eq. intros k. rewrite elem_of_list_to_set, Hdoom, elem_of_dom. split.
      + intros [Hp [v Hv]]. exists v. by apply map_lookup_filter_Some.
      + intros [v [Hv Hp]%map_lookup_filter_Some]. eauto.
    - apply NoDup_fmap_2_strong.
      + intros a b [_ Ha']%list_elem_of_filter [_ Hb']%list_elem_of_filter. by apply (pk_key_inj (db_pk s)).
      + apply NoDup_filter, (NoDup_fmap_1 e_key), (pk_keys_NoDup _ Hpk). }
  unfold zlen. lia.
Qed.

Lemma less_doomed s cutoff : pk_ok (db_pk s) ->
  take_while (fun e => str_ltb (e_key e) cutoff) (pk_scan (db_pk s)) = doomed_by (fun k => str_ltb k cutoff) s.
Proof.
  intros Hpk. apply take_while_filter. intros i j x y Hij Hx Hy Hlt.
  pose proof (sorted_lookup pkLess _ i j x y (pk_sorted _ Hpk) Hij Hx Hy) as Hxy.
  by apply (st_trans (ltb := str_ltb) _ (e_key y)).
Qed.

Lemma greater_doomed s cutoff : pk_ok (db_pk s) ->
  filter (fun e => str_ltb cutoff (e_key e) = true) (pk_ascendFrom (db_pk s) cutoff) = doomed_by (fun k => str_ltb cutoff k) s.
Proof.
  intros Hpk. pose proof (pk_sorted _ Hpk) as Hs. destruct Hpk as [Ht Hl]. unfold pk_ascendFrom, doomed_by, pk_scan in *.
  rewrite (law_ascend _ (fun _ => True)) by done. destruct Ht as (HW & HF & _).
  rewrite Hl, (sl_from_filter (fun _ => True)) by (done || by rewrite <- Hl).
  rewrite list_filter_filter. apply list_filter_iff'. intros e _. cbn. split; [by intros []|]. intros Hlt.
  split; [done|]. unfold pkLess. cbn. by apply st_asym; [apply _|].
Qed.

(** [RemoveByPkLess] deletes exactly the keys below the cutoff: every other
    key keeps its value, and the number returned is how many keys went. *)
Theorem removeByPkLess_correct s log cutoff :
  no_faults E -> Inv s log -> db_closed s = false -> range_fits s (fun k => str_ltb k cutoff) ->
  exists n s' log', RemoveByPkLess cutoff s = (Ok n, s') /\ Inv s' log'
    /\ contents s' = filter (fun kv => str_ltb kv.1 cutoff = false) (contents s)
    /\ n = Z.of_nat (size (contents s)) - Z.of_nat (size (contents s')).
Proof.
  intros Hnf HI Hcl Hfit. unfold RemoveByPkLess. rewrite (open_bnd (fun _ => _)), mget_bnd by done.
  pose proof HI as (_ & _ & _ & _ & (Hpk & _) & _). rewrite less_doomed by done.
  destruct (remove_by_run s log _ Hnf HI Hfit) as (s' & log' & Hrun & HI' & Hct & _ & _ & Hn & _). eauto 10.
Qed.

(** [RemoveByPkGreater] deletes exactly the keys above the cutoff; the
    cutoff itself stays. *)
Theorem removeByPkGreater_correct s log cutoff :
  no_faults E -> Inv s log -> db_closed s = false -> range_fits s (fun k => str_ltb cutoff k) ->
  exists n s' log', RemoveByPkGreater cutoff s = (Ok n, s') /\ Inv s' log'
    /\ contents s' = filter (fun kv => str_ltb cutoff kv.1 = false) (contents s)
    /\ n = Z.of_nat (size (contents s)) - Z.of_nat (size (contents s')).
Proof.
  intros Hnf HI Hcl Hfit. unfold RemoveByPkGreater. rewrite (open_bnd (fun _ => _)), mget_bnd by done.
  pose proof HI as (_ & _ & _ & _ & (Hpk & _) & _). rewrite greater_doomed by done.
  destruct (remove_by_run s log _ Hnf HI Hfit) as (s' & log' & Hrun & HI' & Hct & _ & _ & Hn & _). eauto 10.
Qed.
End range_theorems.

(** ** The reaper *)

Section reaper.
Context {BT : BTreeG} {BL : BTreeGLaws BT} {E : Env} {EL : EnvLaws E}.
Implicit Types (s : DB) (log : list record).

Lemma expired_later e now now' : expiredAt e now = true -> now <= now' -> expiredAt e now' = true.
Proof. unfold expiredAt. intros [-> H]%andb_true_iff Hle. cbn. lia. Qed.

(** [s'] is [s] without some keys that had expired at [now]. *)
Definition reaped_at (now : Z) s s' : Prop :=
  exists gone : list gostring, contents s' = drop_keys gone (contents s) /\ live s' = drop_keys gone (live s)
    /\ tags s' = drop_keys gone (tags s) /\ Forall (fun k => expired_at s now k = true) gone.

Lemma reaped_refl now s : reaped_at now s s.
Proof. exists []. by rewrite !drop_keys_nil. Qed.

Lemma reaped_trans now s1 s2 s3 : reaped_at now s1 s2 -> reaped_at now s2 s3 -> reaped_at now s1 s3.
Proof.
  intros (g1 & C1 & L1 & T1 & F1) (g2 & C2 & L2 & T2 & F2). exists (g1 ++ g2). rewrite C2, C1, L2, L1, T2, T1, !drop_keys_app.
  split_and!; try done. apply Forall_app. split; [done|]. eapply Forall_impl; [exact F2|]. intros k. unfold expired_at.
  rewrite L1, lookup_drop_keys. by case_decide.
Qed.

(** Requests that no longer apply are skipped; the others delete. *)
Lemma reap_loop_run now batch : forall reaped s log res s', clean_faults E -> Inv s log ->
  reap_loop now batch reaped s = (res, s') ->
  exists log', Inv s' log' /\ keeps s s' /\ reaped_at now s s' /\ (is_ok res = true \/ failed E res).
Proof.
  induction batch as [|r batch IH]; intros reaped s log res s' Hc HI; cbn [reap_loop].
  { intros [= <- <-]. exists log. split_and!; [done|apply keeps_refl|apply reaped_refl|by left]. }
  rewrite mget_bnd. pose proof HI as (_ & _ & _ & _ & (Hpk & _) & _).
  destruct (pk_get (db_pk s) (rq_key r)) as [e|] eqn:He; [|intros Hrun; by eapply (IH _ s log)].
  destruct (negb (e_off e =? rq_off r)); [intros Hrun; by eapply (IH _ s log)|]. destruct (expiredAt e now) eqn:Hex; cbn [negb]; [|intros Hrun; by eapply (IH _ s log)].
  unfold mbnd. destruct (deleteLocked (rq_key r) s) as [r1 s1] eqn:Hd.
  assert (Hl : live s !! rq_key r = Some e) by (unfold live; by rewrite pk_map_get).
  destruct (deleteLocked_clean s log (rq_key r) r1 s1 Hc HI (Inv_key_good s log _ e HI Hl) Hd)
    as [(-> & HI1 & Hl1 & Hk1)|([-> Hf] & t & ->)].
  - intros Hrun. destruct (IH _ _ _ _ _ Hc HI1 Hrun) as (log' & HI' & Hk' & Hr' & Hres).
    exists log'. split_and!; try done; [by eapply keeps_trans|]. eapply reaped_trans; [|exact Hr'].
    exists [rq_key r]. rewrite !drop_keys_cons, !drop_keys_nil. split_and!.
    + apply (contents_delete s s1 log); try done. by apply keeps_grows.
    + done.
    + by apply (tags_delete s s1 log).
    + constructor; [|done]. unfold expired_at. by rewrite Hl.
  - intros [= <- <-]. exists log. split_and!; [done|by repeat split|exact (reaped_refl now s)|by right].
Qed.

Lemma reapBatch_run batch s log res s' : clean_faults E -> Inv s log -> reapBatch batch s = (res, s') ->
  exists log', Inv s' log' /\ res = Ok tt /\ reaped_at (env_now (db_tick s)) s s' /\ grows s s'.
Proof.
  intros Hc HI. unfold reapBatch. rewrite mget_bnd. destruct (db_closed s).
  { intros [= <- <-]. exists log. split_and!; [done|done|apply reaped_refl|apply grows_refl]. }
  unfold nowMillis, tick. unfold mbnd at 1 2. cbn [mok]. set (now := env_now (db_tick s)). set (s0 := set_tick _ s).
  destruct (reap_loop now batch false s0) as [r1 s1] eqn:Hr.
  destruct (reap_loop_run now batch false s0 log r1 s1 Hc HI Hr) as (log' & HI1 & Hk1 & Hr1 & _).
  unfold mtry at 1. unfold mbnd at 1. rewrite Hr. change (reaped_at now s s1) in Hr1.
  assert (Hg1 : grows s s1) by exact (keeps_grows _ _ Hk1).
  destruct r1 as [[]|e]; cbn [negb]; [|intros [= <- <-]; by exists log'..].
  assert (Hfl : exists t, (if o_SyncEveryWrite (db_opts s) then mtry main_flush ;;; mok tt else mok tt) s1 = (Ok tt, set_tick t s1)).
  { destruct (o_SyncEveryWrite (db_opts s)); [|exists (db_tick s1); by destruct s1].
    unfold main_flush, mtry, mbnd. rewrite fsync_clean by done. by eexists. }
  destruct Hfl as [t Hfl]. rewrite (mbnd_ok _ _ _ _ _ Hfl).
  destruct (maybeWriteHint_frame (set_tick t s1)) as (s2 & -> & Hl2 & Hct2 & Htg2 & _ & Hg2 & HI2). intros [= <- <-].
  exists log'. split; [by apply HI2|]. split; [done|]. split; [|eapply grows_trans; [exact Hg1|exact Hg2]].
  unfold reaped_at in *. rewrite Hct2, Hl2, Htg2. exact Hr1.
Qed.

Lemma reapCycle_run s log res s' : clean_faults E -> Inv s log -> reapCycle s = (res, s') ->
  exists log', Inv s' log' /\ res = Ok tt /\ reaped_at (env_now (db_tick s)) s s' /\ grows s s'.
Proof.
  intros Hc HI. unfold reapCycle. rewrite mget_bnd. destruct (db_reap s) as [|r q].
  { intros [= <- <-]. exists log. split_and!; [done|done|apply reaped_refl|apply grows_refl]. }
  unfold mmodify. unfold mbnd at 1. intros Hrun. exact (reapBatch_run _ (set_reap (drop 64 (r :: q)) s) log res s' Hc HI Hrun).
Qed.

(** What a later reader sees is not affected. *)
Lemma reaped_visible now s s' log log' : Inv s log -> Inv s' log' -> reaped_at now s s' ->
  forall now' key, now <= now' -> visible s' now' key = visible s now' key.
Proof.
  intros HI HI' (gone & Hct & Hl & _ & HF) now' key Hle. unfold visible, expired_at. rewrite Hct, Hl, !lookup_drop_keys.
  case_decide as Hin; [|done]. rewrite Forall_forall in HF. specialize (HF key Hin). unfold expired_at in HF.
  destruct (live s !! key) as [e|]; [|done]. by rewrite (expired_later e now now').
Qed.

(** C34. The reaper is invisible: one cycle never fails, keeps the invariant,
    and leaves every lookup at the time of the cycle or later as it was; it
    only removes keys that have expired. *)
Theorem reapCycle_invisible s log res s' :
  clean_faults E -> Inv s log -> reapCycle s = (res, s') ->
  exists log', Inv s' log' /\ res = Ok tt
    /\ (forall key, is_Some (contents s !! key) -> contents s' !! key = None -> expired_at s (env_now (db_tick s)) key = true)
    /\ forall now key, env_now (db_tick s) <= now -> visible s' now key = visible s now key.
Proof.
  intros Hc HI Hrun. destruct (reapCycle_run s log res s' Hc HI Hrun) as (log' & HI' & -> & Hr & _). exists log'. split_and!; try done.
  - intros key [v Hv] Hn. destruct Hr as (gone & Hct & _ & _ & HF). rewrite Hct, lookup_drop_keys in Hn.
    case_decide as Hin; [|congruence]. rewrite Forall_forall in HF. exact (HF key Hin).
  - intros now key Hle. exact (reaped_visible _ s s' log log' HI HI' Hr now key Hle).
Qed.
End reaper.
