(* ===== verification/Query.v ===== *)
(** * Index queries against a scan

    The reference for a query by secondary index: look at every record of the
    primary index in key order and keep those with a fitting value, in order of
    value for a range.  In a store that satisfies the invariant the queries by
    index give the same, errors included.  With [GetMany], this gives what the
    keys of a query are resolved to, also when the store changed in between. *)

From S2P Require Import Prelude Floats Types Json Record BTree PkIndex SecIndex Hint Store SecMaint IndexStep LogSpec Invariant Ops Contents Caps PutProofs.
#[local] Open Scope Z_scope.

Section query.
Context {BT : BTreeG} {BL : BTreeGLaws BT}.
Implicit Types (s : DB) (log : list record).

(** ** The reference *)

(** The entry a record gives rise to in an index. *)
Definition entry_in (name : gostring) (si : secIndex) (e : pkEntry) : option secEntry :=
  v ← e_ix e !! name; match makeEntry si v (e_key e) with Ok x => Some x | Err _ => None end.

(** Those of all records, in key order. *)
Definition entries (name : gostring) (si : secIndex) s : list secEntry := omap (entry_in name si) (pk_scan (db_pk s)).

Definition scan_exact (name : gostring) (val : any) (n : Z) s : res (list gostring) :=
  if db_closed s then Err ErrClosed
  else match db_sec s !! name with
       | None => Err (EUnknownIndex name)
       | Some si =>
           res_bind (makeEntry si val []) (fun probe =>
           Ok (select n (se_pk <$> filter (fun x => valueEqual (si_kind si) x probe = true) (entries name si s))))
       end.

Definition sort_entries (kind : ValueKind) (l : list secEntry) : list secEntry := foldr (sl_set (sec_less kind)) [] l.

Definition scan_range (name : gostring) (lo hi : any) s : res (list gostring) :=
  if db_closed s then Err ErrClosed
  else match db_sec s !! name with
       | None => Err (EUnknownIndex name)
       | Some si =>
           res_bind (makeEntry si lo []) (fun loE =>
           res_bind (makeEntry si hi []) (fun hiE =>
           Ok (se_pk <$> sort_entries (si_kind si)
                 (filter (fun x => valueGreater (si_kind si) loE x = false /\ valueGreater (si_kind si) x hiE = false)
                    (entries name si s)))))
       end.

(** ** Entries *)

Lemma entry_in_Some name si e x : entry_in name si e = Some x <-> exists v, e_ix e !! name = Some v /\ makeEntry si v (e_key e) = Ok x.
Proof.
  unfold entry_in. split.
  - intros (v & Hv & H)%bind_Some. exists v. split; [done|]. destruct (makeEntry si v (e_key e)); congruence.
  - intros (v & -> & H). cbn. by rewrite H.
Qed.

Lemma entries_derived name si s x : pk_ok (db_pk s) -> x ∈ entries name si s <-> derived (live s) name si x.
Proof.
  intros Hpk. unfold entries, derived. rewrite list_elem_of_omap. setoid_rewrite entry_in_Some. unfold live. split.
  - intros (e & He & v & Hv & Hx). pose proof (makeEntry_pk _ _ _ _ Hx) as ->. exists e, v. split; [by apply pk_scan_elem|done].
  - intros (e & v & He & Hv & Hx). pose proof (pk_map_key _ _ _ Hpk He) as Hk. rewrite <- Hk in He. exists e.
    split; [by apply pk_scan_elem|]. exists v. split; [done|]. by rewrite Hk.
Qed.

Lemma entries_sorted name si s : pk_ok (db_pk s) -> sl_sorted str_ltb (se_pk <$> entries name si s).
Proof.
  intros Hpk. pose proof (pk_sorted _ Hpk) as Hs. unfold entries. induction (pk_scan (db_pk s)) as [|e l IH]; [constructor|].
  apply sorted_cons_inv in Hs as [Hs Hlt]. cbn [omap list_omap]. destruct (entry_in name si e) as [x|] eqn:Hx; [|by apply IH].
  rewrite fmap_cons. apply sorted_cons; [by apply IH|]. intros k (y & -> & Hy)%list_elem_of_fmap.
  apply list_elem_of_omap in Hy as (e' & He' & Hy). apply entry_in_Some in Hx as (v & _ & Hx). apply entry_in_Some in Hy as (w & _ & Hy).
  rewrite (makeEntry_pk _ _ _ _ Hx), (makeEntry_pk _ _ _ _ Hy). by apply Hlt.
Qed.

Lemma entries_same name si s x y : pk_ok (db_pk s) -> x ∈ entries name si s -> y ∈ entries name si s -> se_pk x = se_pk y -> x = y.
Proof.
  intros Hpk (e & v & He & Hv & Hx)%entries_derived (e' & w & He' & Hw & Hy)%entries_derived E; [|done..]. rewrite E in *. congruence.
Qed.

Lemma fmap_sublist {A B} (f : A -> B) (k l : list A) : sublist k l -> sublist (f <$> k) (f <$> l).
Proof. induction 1; by constructor. Qed.

Lemma sublist_Forall {A} (P : A -> Prop) (k l : list A) : sublist k l -> Forall P l -> Forall P k.
Proof. induction 1; [done|..]; intros [? ?]%Forall_cons; auto. Qed.

(** Insertion sort keeps the elements, when no two have the same key. *)
Lemma sort_entries_ok kind l : Forall not_nan l -> NoDup (se_pk <$> l) ->
  Forall not_nan (sort_entries kind l) /\ sl_sorted (sec_less kind) (sort_entries kind l) /\ forall x, x ∈ sort_entries kind l <-> x ∈ l.
Proof.
  induction l as [|y l IH]; intros Hn Hd; [split_and!; [done|constructor|done]|].
  apply Forall_cons in Hn as [Hy Hn]. rewrite fmap_cons in Hd. apply NoDup_cons in Hd as [Hnew Hd].
  destruct (IH Hn Hd) as (H1 & H2 & H3). cbn [sort_entries foldr]. fold (sort_entries kind l). split_and!.
  - by apply (sl_set_P not_nan).
  - apply (sl_set_sorted not_nan); try assumption. apply sec_less_weak.
  - intros x. rewrite (sl_set_elem not_nan (sec_less kind)) by done. rewrite H3, elem_of_cons. split; [naive_solver|]. intros [->|Hx]; [by left|right].
    split; [done|]. rewrite sec_equiv; [|done|by eapply (proj1 (Forall_forall _ _) Hn)]. apply andb_false_iff. right. apply bool_decide_eq_false.
    intros E. apply Hnew. rewrite E. by apply list_elem_of_fmap_2.
Qed.

(** ** The queries *)

Lemma with_index_run {A} name (f : secIndex -> res A) s :
  with_index name f s = ((if db_closed s then Err ErrClosed else match db_sec s !! name with None => Err (EUnknownIndex name) | Some si => f si end), s).
Proof. unfold with_index, check_open, mbnd, mget, mres, merr, mok. destruct (db_closed s); [done|]. by destruct (db_sec s !! name). Qed.

Lemma probe_not_nan si v x : any_nn v -> makeEntry si v [] = Ok x -> not_nan x.
Proof. intros Hv Hx. by eapply makeEntry_nn. Qed.

Lemma index_entries s name si : idx_inv s -> db_sec s !! name = Some si ->
  sec_ok si /\ (forall x, x ∈ bt_scan (si_tree si) <-> x ∈ entries name si s) /\ Forall not_nan (entries name si s).
Proof.
  intros (Hpk & Hm & _) Hsi. destruct (Hm name si Hsi) as [Hok Hel].
  assert (H : forall x, x ∈ bt_scan (si_tree si) <-> x ∈ entries name si s) by (intros x; by rewrite Hel, entries_derived).
  split_and!; [done|done|]. apply Forall_forall. intros x Hx%H. pose proof (sec_not_nan si Hok) as HF. by eapply Forall_forall in HF.
Qed.

Lemma exact_scan s name si probe : idx_inv s -> db_sec s !! name = Some si -> not_nan probe ->
  se_pk <$> group si probe = se_pk <$> filter (fun x => valueEqual (si_kind si) x probe = true) (entries name si s).
Proof.
  intros HI Hsi Hp. destruct (index_entries s name si HI Hsi) as (Hok & Hel & _). destruct HI as (Hpk & _).
  apply keys_ext; [by apply group_keys_sorted|..].
  - eapply sorted_sublist; [|by apply (entries_sorted name si)]. apply fmap_sublist, sublist_filter.
  - intros k. rewrite !list_elem_of_fmap. unfold group. setoid_rewrite list_elem_of_filter. by setoid_rewrite Hel.
Qed.

Lemma range_scan s name si loE hiE : idx_inv s -> db_sec s !! name = Some si ->
  filter (fun e => valueGreater (si_kind si) loE e = false /\ valueGreater (si_kind si) e hiE = false) (bt_scan (si_tree si))
  = sort_entries (si_kind si) (filter (fun e => valueGreater (si_kind si) loE e = false /\ valueGreater (si_kind si) e hiE = false) (entries name si s)).
Proof.
  intros HI Hsi. destruct (index_entries s name si HI Hsi) as (Hok & Hel & Hn). destruct HI as (Hpk & _).
  assert (Hd : NoDup (se_pk <$> filter (fun e => valueGreater (si_kind si) loE e = false /\ valueGreater (si_kind si) e hiE = false) (entries name si s))).
  { eapply sublist_NoDup; [apply sorted_NoDup, (entries_sorted name si s Hpk)|]. apply fmap_sublist, sublist_filter. }
  assert (Hn' : Forall not_nan (filter (fun e => valueGreater (si_kind si) loE e = false /\ valueGreater (si_kind si) e hiE = false) (entries name si s))).
  { eapply sublist_Forall; [apply sublist_filter|done]. }
  destruct (sort_entries_ok (si_kind si) _ Hn' Hd) as (H1 & H2 & H3).
  apply (sorted_ext not_nan (sec_less (si_kind si))); try done.
  - eapply sublist_Forall; [apply sublist_filter|by apply sec_not_nan].
  - eapply sorted_sublist; [apply sublist_filter|by apply sec_sorted].
  - intros x. rewrite H3, !list_elem_of_filter. by rewrite Hel.
Qed.

Lemma byIndex_run s log name val limit : Inv s log -> any_nn val -> MinInt64 < opt_limit limit <= MaxInt64 ->
  ByIndex name val limit s = (scan_exact name val (opt_limit limit) s, s).
Proof.
  intros (_ & _ & _ & _ & HI & _) Hv Hl. unfold ByIndex, scan_exact. rewrite with_index_run. destruct (db_closed s); [done|].
  destruct (db_sec s !! name) as [si|] eqn:Hsi; [|done]. f_equal. destruct (makeEntry si val []) as [probe|e] eqn:Hp; cbn [res_bind].
  - pose proof (probe_not_nan _ _ _ Hv Hp) as Hn. destruct (index_entries s name si HI Hsi) as (Hok & _).
    rewrite (exact_spec si val _ probe) by done. by rewrite (exact_scan s name si probe).
  - unfold exact. by rewrite Hp.
Qed.

(** C17. [ByIndex] answers what a scan of all records would: the keys of those
    with the value, in key order, cut to the limit from either end; it fails in
    the same way and changes nothing. *)
Theorem byIndex_scan s log name val limit : Inv s log -> any_nn val -> MinInt64 < opt_limit limit <= MaxInt64 ->
  ByIndex name val limit s = (scan_exact name val (opt_limit limit) s, s).
Proof. apply byIndex_run. Qed.

(** C18. [ByIndexRange] answers what sorting the records of a scan by value
    would, bounds included. *)
Theorem byIndexRange_scan s log name lo hi : Inv s log -> any_nn lo -> any_nn hi ->
  ByIndexRange name lo hi s = (scan_range name lo hi s, s).
Proof.
  intros (_ & _ & _ & _ & HI & _) Hlo Hhi. unfold ByIndexRange, scan_range. rewrite with_index_run. destruct (db_closed s); [done|].
  destruct (db_sec s !! name) as [si|] eqn:Hsi; [|done]. f_equal. destruct (index_entries s name si HI Hsi) as (Hok & _).
  destruct (makeEntry si lo []) as [loE|e] eqn:Hl; cbn [res_bind]; [|unfold rangeQuery; by rewrite Hl].
  destruct (makeEntry si hi []) as [hiE|e] eqn:Hh; cbn [res_bind]; [|unfold rangeQuery; by rewrite Hl, Hh].
  rewrite (rangeQuery_spec si lo hi loE hiE) by eauto using probe_not_nan. by rewrite (range_scan s name si).
Qed.
End query.

(** ** Several keys *)

Section many.
Context {BT : BTreeG} {BL : BTreeGLaws BT} {E : Env}.
Implicit Types (s : DB) (log : list record).

(** What a reader may be given for a key, reading after step [n]. *)
Definition seen s (n : nat) (key : gostring) (v : option gostring) : Prop :=
  exists t, (n <= t)%nat /\ v = visible s (env_now t) key.

Lemma get_many_run log keys : forall s, Inv s log ->
  exists vs t q, (db_tick s <= t)%nat /\ get_many keys s = (Ok vs, set_reap q (set_tick t s)) /\ Forall2 (seen s (db_tick s)) keys vs.
Proof.
  induction keys as [|key keys IH]; intros s HI; [exists [], (db_tick s), (db_reap s); split_and!; [lia|by destruct s|constructor]|].
  destruct (read_run s log key HI) as (t & q & Ht & Hr).
  destruct (IH (set_reap q (set_tick t s)) HI) as (vs & t' & q' & Ht' & Hm & Hvs). cbn in Ht'.
  exists (visible s (env_now (db_tick s)) key :: vs), t', q'. split; [lia|]. split.
  - cbn [get_many]. unfold mbnd in Hr |- *. destruct (pkGetLive key s) as [[oe|e] s1]; [|congruence].
    rewrite Hr. rewrite Hm. done.
  - constructor; [by exists (db_tick s)|]. eapply Forall2_impl; [exact Hvs|]. intros k v (t0 & Ht0 & ->). exists t0. split; [cbn in Ht0; lia|done].
Qed.

(** [GetMany] gives for every key what a reader sees of it. *)
Lemma GetMany_run s log keys : Inv s log -> db_closed s = false ->
  exists vs t q, (db_tick s <= t)%nat /\ GetMany keys s = (Ok vs, set_reap q (set_tick t s)) /\ Forall2 (seen s (db_tick s)) keys vs.
Proof. intros HI Hc. unfold GetMany. rewrite (open_bnd (fun _ => _)) by done. by eapply get_many_run. Qed.
End many.
