(* ===== verification/BatchProofs.v ===== *)
(** * Batches are all or nothing in validation and insert in order (batch.go) *)

From S2P Require Import Prelude Floats Types Json Record BTree PkIndex SecIndex Hint Store SecMaint IndexStep LogSpec Invariant Ops Contents Caps PutProofs Load Recovery Batch.
#[local] Open Scope Z_scope.

Section batch.
Context {BT : BTreeG} {BL : BTreeGLaws BT} {E : Env} {EL : EnvLaws E}.
Implicit Types (s : DB) (log : list record).

(** ** Validation only reads *)

Lemma at_item_run {A} i (m : M DB A) s r s' : m s = (r, s') ->
  at_item i m s = (match r with Ok a => Ok a | Err e => Err (EBatch i e) end, s').
Proof. intros H. unfold at_item. rewrite H. by destruct r. Qed.

Lemma validate_tick items : forall i s res s', validate i items s = (res, s') ->
  exists t, s' = set_tick t s /\ forall ies, res = Ok ies -> length ies = length items.
Proof.
  induction items as [|it items IH]; intros i s res s'; cbn [validate].
  { intros [= <- <-]. exists (db_tick s). split; [by destruct s|]. by intros ies [= <-]. }
  destruct (buildIndexValues (pi_Key it) (pi_Value it) (pi_IX it) s) as [r1 s1] eqn:H1.
  destruct (buildIndexValues_tick _ _ _ _ _ _ H1) as [t1 ->]. apply (at_item_run i) in H1.
  destruct r1 as [ix|e]; [rewrite (mbnd_ok _ _ _ _ _ H1)|rewrite (mbnd_err _ _ _ _ _ H1); intros [= <- <-]; by exists t1].
  destruct (checkSelfEviction_run (pi_Key it) ix (set_tick t1 s)) as (l & t2 & _ & H2). apply (at_item_run i) in H2.
  destruct (self_evicted _ _ _) as [[]|e];
    [rewrite (mbnd_ok _ _ _ _ _ H2)|rewrite (mbnd_err _ _ _ _ _ H2); intros [= <- <-]; by exists t2].
  change (set_tick t2 (set_tick t1 s)) with (set_tick t2 s).
  destruct (pi_TTL it <? 0); [intros [= <- <-]; by exists t2|].
  assert (H3 : exists exp t3, ((if 0 <? pi_TTL it then now <- nowMillis ;; mok (wrap64 (now + Z.quot (pi_TTL it) millisecond)) else mok 0) : M DB Z)
            (set_tick t2 s) = (Ok exp, set_tick t3 s)).
  { destruct (0 <? pi_TTL it); [unfold nowMillis, tick, mbnd, mok|]; by eexists _, _. }
  destruct H3 as (exp & t3 & H3). rewrite (mbnd_ok _ _ _ _ _ H3). unfold mbnd.
  destruct (validate (i + 1) items (set_tick t3 s)) as [r4 s4] eqn:H4. destruct (IH _ _ _ _ H4) as (t4 & -> & Hlen).
  destruct r4 as [rest|e]; intros [= <- <-]; exists t4; (split; [done|]); [|done].
  intros ies [= <-]. cbn. f_equal. by apply Hlen.
Qed.

(** ** Appending *)

(** Every record of the batch fits its fields at the point where it is written. *)
Fixpoint batch_fits s (l : list (PutItem * (IndexValues * Z))) : Prop :=
  match l with
  | [] => True
  | (it, (ix, exp)) :: l' =>
      write_fits s (pi_Key it) (pi_Value it) ix exp false
      /\ batch_fits (appendRecord (pi_Key it) (pi_Value it) ix exp false false s).2 l'
  end.

(** The items as map insertions, in order. *)
Definition put_all (items : list PutItem) (m : gmap gostring gostring) : gmap gostring gostring :=
  fold_left (fun m it => <[pi_Key it := pi_Value it]> m) items m.

Definition put_tags (l : list (PutItem * (IndexValues * Z))) (m : gmap gostring (Z * bool)) : gmap gostring (Z * bool) :=
  fold_left (fun m x => <[pi_Key x.1 := (x.2.2, false)]> m) l m.

Lemma append_all_run l : forall i s log, no_faults E -> Inv s log -> batch_fits s l ->
  exists s' log', append_all i l s = (Ok tt, s') /\ Inv s' log' /\ grows s s' /\ contents s' = put_all l.*1 (contents s)
    /\ Forall (fun x => ix_nn x.2.1) l /\ tags s' = put_tags l (tags s).
Proof.
  induction l as [|[it [ix exp]] l IH]; intros i s log Hnf HI Hfit; cbn [append_all].
  { exists s, log. by split_and!. }
  destruct Hfit as [Hf Hfit].
  destruct (appendRecord (pi_Key it) (pi_Value it) ix exp false false s) as [r1 s1] eqn:Ha. cbn [snd] in Hfit.
  destruct (appendRecord_clean s log _ _ ix exp false false r1 s1 (no_faults_clean E Hnf) HI Hf Ha)
    as [(-> & HI1 & Hg1 & Hv1 & Hl1)|[Hfail _]]; [|by destruct (no_faults_failed E r1 Hnf)].
  apply (at_item_run i) in Ha. rewrite (mbnd_ok _ _ _ _ _ Ha).
  destruct (IH (i + 1) s1 _ Hnf HI1 Hfit) as (s2 & log2 & Hrun & HI2 & Hg2 & Hct2 & HF & Hx2).
  assert (Hrec : r_Key (rec_of s (pi_Key it) (pi_Value it) ix exp false) = pi_Key it
              /\ r_IX (rec_of s (pi_Key it) (pi_Value it) ix exp false) = ix
              /\ r_Deleted (rec_of s (pi_Key it) (pi_Value it) ix exp false) = false
              /\ r_Exp (rec_of s (pi_Key it) (pi_Value it) ix exp false) = exp)
    by (unfold rec_of; by destruct (_ && _)). destruct Hrec as (Hk & Hx & Hd & He).
  pose proof (contents_put s s1 log _ HI HI1 Hg1 Hd) as Hct. rewrite Hk, Hv1 in Hct.
  exists s2, log2. split_and!; try done.
  - by eapply grows_trans.
  - rewrite Hct2, Hct. done.
  - constructor; [|done]. cbn. rewrite <- Hx. apply ix_ok_nn, Hf.
  - rewrite Hx2. pose proof (tags_put s s1 log _ HI HI1 Hd) as Ht. rewrite Hk, He in Ht. rewrite Ht. unfold rec_of. by destruct (_ && _).
Qed.

(** ** Enforcing the caps *)

(** Keys were dropped, and none when no index is capped. *)
Definition evicts s s' : Prop :=
  exists gone, contents s' = drop_keys gone (contents s) /\ tags s' = drop_keys gone (tags s)
    /\ (map_Forall (fun _ si => si_max si <= 0) (db_sec s) -> gone = []).

Lemma evicts_refl s : evicts s s.
Proof. exists []. by rewrite !drop_keys_nil. Qed.

Lemma evicts_trans s1 s2 s3 : decl_of <$> db_sec s2 = decl_of <$> db_sec s1 -> evicts s1 s2 -> evicts s2 s3 -> evicts s1 s3.
Proof.
  intros Hd (g1 & C1 & X1 & N1) (g2 & C2 & X2 & N2). exists (g1 ++ g2). split_and!.
  - by rewrite C2, C1, drop_keys_app.
  - by rewrite X2, X1, drop_keys_app.
  - intros H. rewrite N1 by done. rewrite N2; [done|]. by apply (uncapped_keeps s1).
Qed.

Lemma enforce_single s log nv : no_faults E -> Inv s log -> any_nn nv.2 ->
  exists s' log', enforceMaxPerValue {[ nv.1 := nv.2 ]} s = (Ok tt, s') /\ Inv s' log' /\ keeps s s' /\ evicts s s'.
Proof.
  intros Hnf HI Hnn. unfold enforceMaxPerValue, range_ix, tick. unfold mbnd at 1 2. cbn [mok].
  assert (Hl : env_range (db_tick s) {[ nv.1 := nv.2 ]} = [nv]).
  { apply Permutation_singleton_r. rewrite range_perm, map_to_list_singleton. by destruct nv. }
  rewrite Hl. set (s0 := set_tick _ s). cbn [mfor]. destruct (enforce_one nv s0) as [r1 s1] eqn:He.
  destruct (enforce_one_clean nv s0 log r1 s1 (no_faults_clean E Hnf) HI Hnn He)
    as (gone & log' & _ & HI1 & Hk1 & Hl1 & Hct & Htg & [[-> Hgone]|Hf]); [|by destruct (no_faults_failed E r1 Hnf)].
  exists s1, log'. split; [by rewrite (mbnd_ok _ _ _ _ _ He)|]. split; [done|]. split; [exact Hk1|].
  exists gone. split; [exact Hct|]. split; [exact Htg|]. intros HF. rewrite Hgone. unfold excess_keys.
  change (db_sec s0) with (db_sec s). destruct (db_sec s !! nv.1) as [si|] eqn:Hsi; [|done].
  by rewrite (proj2 (Z.leb_le _ _) (HF _ _ Hsi)).
Qed.

Lemma enforce_pairs_run l : forall seen s log, no_faults E -> Inv s log -> Forall (fun nv => any_nn nv.2) l ->
  exists seen' s' log', enforce_pairs l seen s = (Ok seen', s') /\ Inv s' log' /\ keeps s s' /\ evicts s s'.
Proof.
  induction l as [|nv l IH]; intros seen s log Hnf HI HF; cbn [enforce_pairs].
  { exists seen, s, log. split; [done|]. split; [done|]. split; [apply keeps_refl|apply evicts_refl]. }
  apply Forall_cons in HF as [Hnv HF]. case_decide; [by apply (IH seen s log)|].
  destruct (enforce_single s log nv Hnf HI Hnv) as (s1 & log1 & Hrun & HI1 & Hk1 & He1). rewrite (mbnd_ok _ _ _ _ _ Hrun).
  destruct (IH ({[ seen_key nv ]} ∪ seen) s1 log1 Hnf HI1 HF) as (seen' & s2 & log2 & Hrun2 & HI2 & Hk2 & He2).
  exists seen', s2, log2. split; [done|]. split; [done|]. split; [by eapply keeps_trans|].
  eapply evicts_trans; [apply Hk1|done|done].
Qed.

Lemma enforce_all_run ixs : forall seen s log, no_faults E -> Inv s log -> Forall ix_nn ixs ->
  exists s' log', enforce_all ixs seen s = (Ok tt, s') /\ Inv s' log' /\ keeps s s' /\ evicts s s'.
Proof.
  induction ixs as [|ix ixs IH]; intros seen s log Hnf HI HF; cbn [enforce_all].
  { exists s, log. split; [done|]. split; [done|]. split; [apply keeps_refl|apply evicts_refl]. }
  apply Forall_cons in HF as [Hix HF]. unfold range_ix, tick. unfold mbnd at 1 2. cbn [mok]. set (s0 := set_tick _ s).
  destruct (enforce_pairs_run (env_range (db_tick s) ix) seen s0 log Hnf HI) as (seen' & s1 & log1 & Hrun & HI1 & Hk1 & He1).
  { rewrite range_perm. apply map_Forall_to_list in Hix. eapply Forall_impl; [exact Hix|]. by intros []. }
  rewrite (mbnd_ok _ _ _ _ _ Hrun).
  destruct (IH seen' s1 log1 Hnf HI1 HF) as (s2 & log2 & Hrun2 & HI2 & Hk2 & He2).
  exists s2, log2. split; [done|]. split; [done|]. split; [by eapply (keeps_trans s0)|].
  eapply (evicts_trans s0); [apply Hk1|exact He1|exact He2].
Qed.

(** ** The batch *)

Lemma PutBatch_run s log items :
  no_faults E -> Inv s log -> db_closed s = false ->
  match validate 0 items s with
  | (Err e, s1) => PutBatch items s = (Err e, s1) /\ exists t, s1 = set_tick t s
  | (Ok ies, s1) =>
      batch_fits s1 (zip items ies) ->
      exists s' log' gone, PutBatch items s = (Ok tt, s') /\ Inv s' log'
        /\ contents s' = drop_keys gone (put_all items (contents s))
        /\ (uncapped s -> gone = []) /\ tags s' = drop_keys gone (put_tags (zip items ies) (tags s)) /\ grows s s'
  end.
Proof.
  intros Hnf HI Hcl. destruct (validate 0 items s) as [[ies|e] s1] eqn:Hv;
    destruct (validate_tick _ _ _ _ _ Hv) as (t & -> & Hlen); unfold PutBatch; rewrite (open_bnd (fun _ => _)) by done;
    destruct items as [|it items]; try done; last (split; [by rewrite (mbnd_err _ _ _ _ _ Hv)|eauto]).
  { intros _. exists s, log, []. rewrite !drop_keys_nil. by split_and!. }
  set (its := it :: items) in *. intros Hfit. rewrite (mbnd_ok _ _ _ _ _ Hv). specialize (Hlen ies eq_refl).
  destruct (append_all_run (zip its ies) 0 (set_tick t s) log Hnf HI Hfit) as (s2 & log2 & H2 & HI2 & Hg2 & Hct2 & HF2 & Hx2).
  rewrite fst_zip in Hct2 by lia. rewrite (mbnd_ok _ _ _ _ _ H2).
  destruct (enforce_all_run ies.*1 ∅ s2 log2 Hnf HI2) as (s3 & log3 & H3 & HI3 & Hk3 & gone & Hct3 & Hx3 & Hno).
  { rewrite <- (snd_zip its ies) by lia. rewrite !Forall_fmap. exact HF2. }
  rewrite (mbnd_ok _ _ _ _ _ H3), mget_bnd.
  assert (H4 : exists t', ((if o_SyncEveryWrite (db_opts s3) then
         (match db_blobs s3 !! db_curGen s3 with Some _ => blob_flush | None => mok tt end) ;;; main_flush
       else mok tt) : M DB unit) s3 = (Ok tt, set_tick t' s3)).
  { destruct (o_SyncEveryWrite (db_opts s3)); [|exists (db_tick s3); by destruct s3]. unfold blob_flush, main_flush.
    destruct (db_blobs s3 !! db_curGen s3); [rewrite (fsync_bnd (fun _ => _)) by done|unfold mbnd; cbn [mok]];
      rewrite fsync_clean by (by apply no_faults_clean); by eexists. }
  destruct H4 as [t4 H4]. rewrite (mbnd_ok _ _ _ _ _ H4). unfold mmodify. unfold mbnd at 1.
  match goal with |- context [maybeWriteHint ?st] => destruct (maybeWriteHint_frame st) as (s5 & -> & Hl5 & Hct5 & Htg5 & _ & Hg5 & HI5) end.
  exists s5, log3, gone. split; [done|]. split; [by apply HI5|]. split; [rewrite Hct5; change (contents s) with (contents (set_tick t s)); rewrite <- Hct2; exact Hct3|].
  split_and!.
  - intros Hun. apply Hno. apply (uncapped_keeps s s2); [apply Hg2|done].
  - rewrite Htg5. change (tags s3 = drop_keys gone (put_tags (zip its ies) (tags s))). by rewrite Hx3, Hx2.
  - eapply grows_trans; [exact Hg2|]. eapply grows_trans; [exact (keeps_grows _ _ Hk3)|exact Hg5].
Qed.

End batch.
