(* ===== verification/CompactProofs.v ===== *)
(** * Rewriting the log keeps what it says (compact.go, reindex.go)

    A rewrite copies the record of every live key that has not expired, with
    transformed index values, into a new log.  Whatever the transformation of
    the index values, the contents of the store are those of the unexpired
    keys, and the invariant holds for the new log. *)

From S2P Require Import Prelude Floats Types Json Record BTree PkIndex SecIndex Hint Meta Store SecMaint IndexStep LogSpec Invariant Ops Contents PutProofs Load Recovery Compact Batch Frame HintInv.
#[local] Open Scope Z_scope.

(** ** Logs with one record per key *)

Lemma lidx_unique log r : NoDup (r_Key <$> log) -> Forall (fun r => isTombstone r = false) log -> r ∈ log ->
  exists off, lidx log !! r_Key r = Some (off, r).
Proof.
  intros Hnd Ht Hin. destruct (lidx log !! r_Key r) as [[off r']|] eqn:Hl.
  - exists off. apply lidx_elem in Hl as (Hin' & Hk & _). do 2 f_equal.
    apply list_elem_of_lookup in Hin as [i Hi]. apply list_elem_of_lookup in Hin' as [j Hj].
    assert (i = j) as <-; [|congruence]. eapply (NoDup_lookup _ _ _ (r_Key r) Hnd); rewrite list_lookup_fmap.
    + by rewrite Hi.
    + rewrite Hj. cbn. by rewrite Hk.
  - exfalso. destruct (last (filter (fun x => r_Key x = r_Key r) log)) as [x|] eqn:Hlast.
    + pose proof (lidx_None log (r_Key r) Hl x Hlast) as Hx. apply last_Some_elem_of, list_elem_of_filter in Hlast as [_ Hx'].
      rewrite Forall_forall in Ht. by rewrite (Ht x Hx') in Hx.
    + apply last_None in Hlast. assert (r ∈ filter (fun x => r_Key x = r_Key r) log) as H by (by apply list_elem_of_filter).
      rewrite Hlast in H. by apply elem_of_nil in H.
Qed.

Lemma lidx_absent log k : k ∉ r_Key <$> log -> lidx log !! k = None.
Proof.
  intros Hk. destruct (lidx log !! k) as [[off r]|] eqn:Hl; [|done]. destruct Hk.
  apply lidx_elem in Hl as (Hin & <- & _). by apply list_elem_of_fmap_2.
Qed.

Lemma lookup_keep {V} (f : gostring -> bool) (m : gmap gostring V) (k : gostring) :
  filter (fun kv => f kv.1 = false) m !! k = if f k then None else m !! k.
Proof.
  destruct (f k) eqn:Hf; [apply map_lookup_filter_None; right; intros x _; cbn; congruence|].
  destruct (m !! k) eqn:Hm; [by apply map_lookup_filter_Some|apply map_lookup_filter_None; by left].
Qed.

(** ** Rebuilding the secondary indexes *)

Section rebuild.
Context {BT : BTreeG} {BL : BTreeGLaws BT} {E : Env} {EL : EnvLaws E}.
Implicit Types (s : DB) (log : list record).

Lemma rebuild_loop es : forall s (pk : gmap gostring pkEntry), matches (db_sec s) pk -> NoDup (e_key <$> es) ->
  Forall (fun e => pk !! e_key e = None /\ ix_nn (e_ix e)) es ->
  exists m t, mfor (fun e => insertSec (e_key e) (e_ix e)) es s = (Ok tt, set_tick t (set_sec m s))
    /\ decl_of <$> m = decl_of <$> db_sec s
    /\ matches m ((list_to_map ((fun e => (e_key e, e)) <$> es) : gmap gostring pkEntry) ∪ pk).
Proof.
  induction es as [|e es IH]; intros s pk HM Hnd HF.
  { exists (db_sec s), (db_tick s). split; [by destruct s|]. split; [done|]. simpl. by rewrite (left_id_L ∅ (∪)). }
  apply Forall_cons in HF as [[Hfresh Hnn] HF]. rewrite fmap_cons in Hnd. apply NoDup_cons in Hnd as [Hnin Hnd].
  cbn [mfor]. rewrite (mbnd_ok _ _ _ _ _ (insertSec_run _ _ s)). set (s1 := set_tick _ _).
  assert (HM1 : matches (db_sec s1) (<[e_key e := e]> pk)).
  { assert (He : set_ix e (e_ix e) = e) by (by destruct e). rewrite <- He at 2.
    apply (matches_insert (db_sec s) pk (e_key e) e (e_ix e)); [done|by rewrite Hfresh|done]. }
  destruct (IH s1 _ HM1 Hnd) as (m & t & Hrun & Hdecl & HM2).
  { apply Forall_forall. intros x Hx. rewrite Forall_forall in HF. destruct (HF x Hx) as [Hx1 Hx2]. split; [|done].
    rewrite lookup_insert_ne; [done|]. intros Hk. apply Hnin. rewrite Hk. by apply list_elem_of_fmap_2. }
  exists m, t. split; [exact Hrun|]. split; [rewrite Hdecl; apply sec_insert_decl|].
  rewrite fmap_cons. cbn [list_to_map foldr]. simpl. rewrite <- insert_union_l, insert_union_r; [exact HM2|].
  apply not_elem_of_list_to_map_1. rewrite <- list_fmap_compose. exact Hnin.
Qed.

Lemma rebuildSec_run s : pk_ok (db_pk s) -> map_Forall (fun _ si => sec_ok si) (db_sec s) ->
  map_Forall (fun _ e => ix_nn (e_ix e)) (live s) ->
  exists m t, rebuildSec s = (Ok tt, set_tick t (set_sec m s))
    /\ decl_of <$> m = decl_of <$> db_sec s /\ matches m (live s).
Proof.
  intros Hpk Hsec Hnn. unfold rebuildSec. unfold mmodify. unfold mbnd at 1. rewrite mget_bnd.
  set (s1 := set_sec (si_clear <$> db_sec s) s).
  assert (HM : matches (db_sec s1) ∅).
  { apply matches_empty_pk. intros n si Hsi. cbn in Hsi. rewrite lookup_fmap in Hsi.
    destruct (db_sec s !! n) as [si0|] eqn:Hn; [|done]. apply (inj Some) in Hsi as <-. destruct (Hsec n si0 Hn) as [Ht Hl].
    unfold si_clear, with_tree. cbn [si_tree]. split; [|apply law_clear].
    split; [by apply tree_clear_ok|]. cbn. by rewrite law_clear_less. }
  destruct (rebuild_loop (pk_scan (db_pk s)) s1 ∅ HM) as (m & t & Hrun & Hdecl & HM').
  - by apply pk_keys_NoDup.
  - apply Forall_forall. intros e He. split; [apply lookup_empty|]. apply (Hnn (e_key e)). by apply pk_scan_elem.
  - exists m, t. split; [exact Hrun|]. rewrite (right_id_L ∅ (∪)) in HM'. split; [|exact HM'].
    rewrite Hdecl. cbn. rewrite <- map_fmap_compose. apply map_fmap_ext. by intros n si _.
Qed.
End rebuild.

(** ** The new log *)

(** The index entries of a log's records, from offset [off]. *)
Fixpoint log_entries (off : Z) (log : list record) : list pkEntry :=
  match log with
  | [] => []
  | r :: log' => PkEntry (r_Key r) off (zlen (enc_line r)) (r_IX r) (r_Exp r) :: log_entries (off + zlen (enc_line r)) log'
  end.

Section rewrite.
Context {BT : BTreeG} {BL : BTreeGLaws BT} {E : Env} {EL : EnvLaws E}.
Implicit Types (s : DB) (log : list record).

Lemma load_entries log : forall off (t : pkIndex) lm, pk_ok t -> agree lm (pk_map t) ->
  Forall (fun r => isTombstone r = false) log ->
  pk_ok (fold_left pk_load (log_entries off log) t)
  /\ agree (index_from off log lm) (pk_map (fold_left pk_load (log_entries off log) t))
  /\ (forall e, e ∈ pk_scan (fold_left pk_load (log_entries off log) t) -> e ∈ pk_scan t \/ e ∈ log_entries off log).
Proof.
  induction log as [|r log IH]; intros off t lm Hpk Ha HF; cbn [log_entries fold_left index_from]; [by auto|].
  apply Forall_cons in HF as [Hr HF]. set (e := PkEntry _ _ _ _ _).
  pose proof (bt_load_pk_ok t e Hpk) as Hpk1. pose proof (pk_load_map t e Hpk) as Hm1.
  destruct (IH (off + zlen (enc_line r)) (pk_load t e) (apply_rec off r lm) Hpk1) as (H1 & H2 & H3); [|done|].
  { unfold apply_rec. rewrite Hr, Hm1. apply agree_insert; [done|]. repeat split; [done|]. by exists 0%nat. }
  split; [done|]. split; [done|]. intros x [Hx|Hx]%H3; [|right; by right].
  apply pk_scan_elem in Hx; [|done]. rewrite Hm1 in Hx. apply lookup_insert_Some in Hx as [[_ <-]|[_ Hx]]; [right; by left|].
  left. by apply pk_scan_elem.
Qed.

(** What a rewrite with [tr] at time [now] puts into the new log. *)
Definition rewritten (tr : record -> record) s (now : Z) (es : list pkEntry) : list record :=
  omap (fun e => if expiredAt e now then None
                 else match readRecord s e with Ok rec => Some (tr rec) | Err _ => None end) es.

(** On the records of [log] that count, [transform] only reads the store and
    changes nothing but index values, as [tr] does. *)
Definition reads_as (transform : record -> M DB record) (tr : record -> record) s log : Prop :=
  forall k off r t, lidx log !! k = Some (off, r) ->
    transform (norm_record r) (set_tick t s) = (Ok (tr (norm_record r)), set_tick t s)
    /\ exists ix, tr (norm_record r) = with_ix ix r.

(** The live entry of a key and the record it locates. *)
Lemma live_record s log e : Inv s log -> e ∈ pk_scan (db_pk s) ->
  exists off r, lidx log !! e_key e = Some (off, r) /\ entry_for (off, r) e /\ readRecord s e = Ok (norm_record r).
Proof.
  intros HI He. pose proof HI as (_ & _ & Hg & Ha & (Hpk & _) & _).
  assert (Hl : live s !! e_key e = Some e) by (by apply pk_scan_elem).
  destruct (agree_Some_r _ _ _ _ Ha Hl) as ([off r] & Hx & Hxe). exists off, r. split_and!; try done.
  destruct Hxe as (_ & Ho & Hn & _). by apply (readRecord_log s log (e_key e) off r e (Inv_main s log HI) Hg Hx).
Qed.

Lemma build_loop_run transform tr s log now es : no_faults E -> Inv s log -> reads_as transform tr s log ->
  (forall e, e ∈ es -> e ∈ pk_scan (db_pk s)) ->
  Forall rec_good (rewritten tr s now es) ->
  forall off idx text t, exists t',
  build_loop transform now es off idx text (set_tick t s)
  = (Ok (fold_left pk_load (log_entries off (rewritten tr s now es)) idx, text ++ enc (rewritten tr s now es)), set_tick t' s).
Proof.
  intros Hnf HI Htr. induction es as [|e es IH]; intros Hes Hg off idx text t; cbn [build_loop].
  { exists t. cbn. by rewrite app_nil_r. }
  assert (Hes' : forall x, x ∈ es -> x ∈ pk_scan (db_pk s)) by (intros x Hx; apply Hes; by right).
  unfold rewritten in Hg |- *. cbn [omap list_omap] in Hg |- *. fold (rewritten tr s now es) in Hg |- *.
  destruct (expiredAt e now); [by apply IH|].
  destruct (live_record s log e HI) as (o & r & Hl & (Hk & _) & Hrd); [apply Hes; by left|].
  destruct (Htr _ _ _ (S t) Hl) as [_ [ix Hix]]. cbn [snd] in Hk. rewrite Hrd in Hg |- *.
  apply Forall_cons in Hg as [Hgr Hg]. destruct (rec_good_line _ Hgr) as (line & Hm & Hel & _ & _ & Hn).
  rewrite mget_bnd. unfold mres. unfold mbnd at 1. change (readRecord (set_tick t s) e) with (readRecord s e). rewrite Hrd.
  destruct (Htr _ _ _ t Hl) as [Hrun _]. rewrite (mbnd_ok _ _ _ _ _ Hrun), Hm. cbv zeta. rewrite (fs_bnd (fun _ => _)) by done.
  rewrite <- Hel. assert (Hw : wrap32 (zlen (enc_line (tr (norm_record r)))) = zlen (enc_line (tr (norm_record r)))).
  { rewrite <- Hn at 2. f_equal. rewrite Hel, zlen_app. done. }
  rewrite Hw. cbn [log_entries fold_left enc]. rewrite app_assoc.
  assert (Hkey : r_Key (tr (norm_record r)) = e_key e) by (by rewrite Hix, Hk). rewrite Hkey. by apply IH.
Qed.

Lemma buildRewrite_run transform tr s log : no_faults E -> Inv s log -> reads_as transform tr s log ->
  Forall rec_good (rewritten tr s (env_now (S (db_tick s))) (pk_scan (db_pk s))) ->
  let newlog := rewritten tr s (env_now (S (db_tick s))) (pk_scan (db_pk s)) in
  exists t, buildRewrite transform s = (Ok (fold_left pk_load (log_entries 0 newlog) newPkIndex, enc newlog), set_tick t s).
Proof.
  intros Hnf HI Htr Hg newlog. unfold buildRewrite. rewrite (fs_bnd (fun _ => _)) by done.
  unfold nowMillis, tick. unfold mbnd at 1 2. cbn [mok]. rewrite mget_bnd.
  destruct (build_loop_run transform tr s log (env_now (S (db_tick s))) (pk_scan (db_pk s)) Hnf HI Htr (fun e H => H) Hg
    0 newPkIndex [] (S (S (db_tick s)))) as [t Hrun].
  change (set_tick _ (set_tick _ s)) with (set_tick (S (S (db_tick s))) s).
  rewrite (mbnd_ok _ _ _ _ _ Hrun), (fs_bnd (fun _ => _)), (fsync_bnd (fun _ => _)), (fs_bnd (fun _ => _)) by done.
  by eexists.
Qed.

(** The records of the new log: one per unexpired key. *)
Lemma rewritten_elem tr s log now r' : Inv s log ->
  r' ∈ rewritten tr s now (pk_scan (db_pk s)) <->
  exists k off r e, lidx log !! k = Some (off, r) /\ live s !! k = Some e /\ expiredAt e now = false /\ r' = tr (norm_record r).
Proof.
  intros HI. unfold rewritten. rewrite list_elem_of_omap. pose proof HI as (_ & _ & _ & _ & (Hpk & _) & _). split.
  - intros (e & He & Hx). destruct (live_record s log e HI He) as (off & r & Hl & _ & Hrd). rewrite Hrd in Hx.
    destruct (expiredAt e now) eqn:Hex; [done|]. apply (inj Some) in Hx as <-. exists (e_key e), off, r, e.
    split_and!; try done. by apply pk_scan_elem.
  - intros (k & off & r & e & Hl & He & Hex & ->).
    assert (Hk : e_key e = k) by (by apply (pk_map_key (db_pk s))).
    assert (Hin : e ∈ pk_scan (db_pk s)) by (apply pk_scan_elem; [done|]; by rewrite Hk).
    exists e. split; [done|]. destruct (live_record s log e HI Hin) as (off' & r1 & Hl' & _ & Hrd).
    rewrite Hk, Hl in Hl'. injection Hl' as _ <-. by rewrite Hrd, Hex.
Qed.

Lemma rewritten_keys tr s log now es : Inv s log -> (forall k off r, lidx log !! k = Some (off, r) -> exists ix, tr (norm_record r) = with_ix ix r) ->
  (forall e, e ∈ es -> e ∈ pk_scan (db_pk s)) -> NoDup (e_key <$> es) ->
  NoDup (r_Key <$> rewritten tr s now es)
  /\ (forall k, k ∈ r_Key <$> rewritten tr s now es -> k ∈ e_key <$> es)
  /\ Forall (fun r => isTombstone r = false) (rewritten tr s now es).
Proof.
  intros HI Htr. unfold rewritten. induction es as [|e es IH]; intros Hes Hnd; [split; [constructor|]; split; [done|constructor]|].
  rewrite fmap_cons in Hnd. apply NoDup_cons in Hnd as [Hnin Hnd].
  destruct IH as (H1 & H2 & H3); [intros x Hx; apply Hes; by right|done|].
  cbn [omap list_omap]. fold (rewritten tr s now es) in *.
  assert (Hmono : forall k, k ∈ r_Key <$> rewritten tr s now es -> k ∈ e_key <$> e :: es) by (intros k Hk; right; by apply H2).
  destruct (expiredAt e now); [done|].
  destruct (live_record s log e HI) as (off & r & Hl & (Hk & _) & Hrd); [apply Hes; by left|]. rewrite Hrd.
  destruct (Htr _ _ _ Hl) as [ix Hix]. cbn [snd] in Hk. apply lidx_elem in Hl as (_ & _ & Ht).
  assert (Hkey : r_Key (tr (norm_record r)) = e_key e) by (by rewrite Hix, Hk).
  split_and!.
  - rewrite fmap_cons, Hkey. constructor; [|done]. intros Hin. by apply Hnin, H2.
  - intros k. rewrite fmap_cons, Hkey. intros [->|Hin]%elem_of_cons; [by left|by apply Hmono].
  - constructor; [by rewrite Hix|done].
Qed.

Lemma mtry_bnd {A B} (m : M DB A) r s s' (k : res A -> M DB B) : m s = (r, s') -> mbnd (mtry m) k s = k r s'.
Proof. intros H. unfold mbnd, mtry. by rewrite H. Qed.

(** What the new log says about a key, for any reading [f] of a record that the
    transformation keeps: nothing if the key has expired, and what the old log
    says otherwise. *)
Lemma rewritten_lookup {X} (f : record -> X) tr s log now k : Inv s log ->
  (forall k off r, lidx log !! k = Some (off, r) -> exists ix, tr (norm_record r) = with_ix ix r) ->
  (forall ix r, f (with_ix ix r) = f r) ->
  (fun x => f x.2) <$> lidx (rewritten tr s now (pk_scan (db_pk s))) !! k
  = if expired_at s now k then None else (fun x => f x.2) <$> lidx log !! k.
Proof.
  intros HI Htr Hf. set (newlog := rewritten tr s now (pk_scan (db_pk s))) in *.
  pose proof HI as (_ & _ & _ & Ha & (Hpk & _) & _).
  destruct (rewritten_keys tr s log now (pk_scan (db_pk s)) HI Htr (fun e H => H) (pk_keys_NoDup _ Hpk)) as (Hnd & _ & Ht).
  assert (Hnone : (forall r, r ∈ newlog -> r_Key r <> k) -> lidx newlog !! k = None).
  { intros H. apply lidx_absent. intros (r & -> & Hin)%list_elem_of_fmap. by apply (H r). }
  assert (Hfrom : forall r', r' ∈ newlog -> r_Key r' = k -> exists off r e, lidx log !! k = Some (off, r) /\ live s !! k = Some e
            /\ expiredAt e now = false).
  { intros r' (k' & off' & r1 & e1 & Hl1 & He1 & Hex1 & ->)%(rewritten_elem tr s log now _ HI) Hk'.
    destruct (Htr _ _ _ Hl1) as [ix Hix]. rewrite Hix in Hk'. pose proof (lidx_elem _ _ _ _ Hl1) as (_ & Hk1 & _).
    assert (k' = k) as -> by (rewrite <- Hk1; exact Hk'). eauto 10. }
  unfold expired_at. specialize (Ha k). destruct (lidx log !! k) as [[off r]|] eqn:Hl; inversion Ha as [? e He Hx Hy|Hx Hy].
  - destruct (expiredAt e now) eqn:Hex.
    + rewrite Hnone; [done|]. intros r' Hr' Hk'. destruct (Hfrom r' Hr' Hk') as (? & ? & e' & _ & He' & Hex'). congruence.
    + assert (Hin : tr (norm_record r) ∈ newlog) by (apply (rewritten_elem tr s log now _ HI); by exists k, off, r, e).
      destruct (Htr _ _ _ Hl) as [ix Hix]. apply lidx_elem in Hl as (_ & Hk & _).
      destruct (lidx_unique newlog _ Hnd Ht Hin) as [off' Hoff]. rewrite Hix in Hoff. change (r_Key (with_ix ix r)) with (r_Key r) in Hoff.
      rewrite Hk in Hoff. rewrite Hoff. cbn. by rewrite Hf.
  - rewrite Hnone; [done|]. intros r' Hr' Hk'. destruct (Hfrom r' Hr' Hk') as (? & ? & ? & ? & _). congruence.
Qed.

(** The contents described by the new log. *)
Lemma rewritten_contents tr s s' log now : Inv s log ->
  (forall k off r, lidx log !! k = Some (off, r) -> exists ix, tr (norm_record r) = with_ix ix r) ->
  Inv s' (rewritten tr s now (pk_scan (db_pk s))) -> (forall g, blob_bytes (db_disk s') g = blob_bytes (db_disk s) g) ->
  contents s' = filter (fun kv => expired_at s now kv.1 = false) (contents s).
Proof.
  intros HI Htr HI' Hb. apply map_eq. intros k. rewrite (contents_lookup s' _ k HI'), (lookup_keep (expired_at s now)), (contents_lookup s log k HI).
  rewrite <- (rewritten_lookup (value_of (db_disk s)) tr s log now k) by done.
  destruct (lidx _ !! k) as [[off r]|]; [|done]. cbn. f_equal. by apply value_of_bytes.
Qed.

(** The expiry of a live key is that of its record. *)
Lemma live_exp s log k : Inv s log -> e_exp <$> live s !! k = (fun x => r_Exp x.2) <$> lidx log !! k.
Proof.
  intros (_ & _ & _ & Ha & _). specialize (Ha k). inversion Ha as [x e He|]; [|done]. cbn. f_equal. by destruct He as (_ & _ & _ & -> & _).
Qed.

(** The expiries the rewrite keeps: those of the unexpired keys. *)
Definition keeps_exps s s' (now : Z) : Prop :=
  forall k, e_exp <$> live s' !! k = if expired_at s now k then None else e_exp <$> live s !! k.

(** Likewise what the records say besides the value. *)
Definition keeps_tags s s' (now : Z) : Prop :=
  forall k, tags s' !! k = if expired_at s now k then None else tags s !! k.

Lemma rewritten_tags tr s s' log now : Inv s log ->
  (forall k off r, lidx log !! k = Some (off, r) -> exists ix, tr (norm_record r) = with_ix ix r) ->
  Inv s' (rewritten tr s now (pk_scan (db_pk s))) -> keeps_tags s s' now.
Proof.
  intros HI Htr HI' k. rewrite (tags_lookup s' _ k HI'), (tags_lookup s log k HI).
  by apply (rewritten_lookup (fun r => (r_Exp r, is_counter r)) tr s log now k).
Qed.

Lemma rewritten_exps tr s s' log now : Inv s log ->
  (forall k off r, lidx log !! k = Some (off, r) -> exists ix, tr (norm_record r) = with_ix ix r) ->
  Inv s' (rewritten tr s now (pk_scan (db_pk s))) -> keeps_exps s s' now.
Proof.
  intros HI Htr HI' k. rewrite (live_exp s' _ k HI'), (live_exp s log k HI). by apply (rewritten_lookup r_Exp tr s log now k).
Qed.

(** The new index is that of the new log. *)
Lemma new_index log : Forall rec_good log -> Forall (fun r => isTombstone r = false) log ->
  let t := fold_left pk_load (log_entries 0 log) newPkIndex in
  pk_ok t /\ agree (lidx log) (pk_map t) /\ (forall e, e ∈ pk_scan t -> e ∈ log_entries 0 log)
  /\ map_Forall (fun _ e => ix_nn (e_ix e)) (pk_map t).
Proof.
  intros Hg Ht t. destruct (load_entries log 0 newPkIndex ∅ newPkIndex_ok) as (Hpk & Ha & He); [|done|].
  { rewrite newPkIndex_map. intros k. rewrite !lookup_empty. constructor. }
  fold t in Hpk, Ha, He. split; [done|]. split; [exact Ha|]. split.
  - intros e [Hin|]%He; [|done]. exfalso. apply pk_scan_elem in Hin; [|apply newPkIndex_ok].
    by rewrite newPkIndex_map, lookup_empty in Hin.
  - intros k e Hk. assert (Hin : e ∈ log_entries 0 log).
    { assert (e_key e = k) as <- by (by apply (pk_map_key t)). apply pk_scan_elem, He in Hk as [Hin|?]; [|done|done].
      exfalso. apply pk_scan_elem in Hin; [|apply newPkIndex_ok]. by rewrite newPkIndex_map, lookup_empty in Hin. }
    clear -Hin Hg. revert Hin. generalize 0. induction Hg as [|r log Hr Hg IH]; intros off; cbn [log_entries]; [by intros ?%elem_of_nil|].
    intros [->|Hin]%elem_of_cons; [apply ix_ok_nn, Hr|]. by eapply IH.
Qed.

(** ** The swap *)

Definition retired (br : option Z) s : DB :=
  match br with
  | None => s
  | Some gen => set_curGen gen (set_blobs (filter (fun nv => nv.1 = gen) (db_blobs s))
                  (set_disk (fun d => set_d_blobs (filter (fun nb => nb.1 ∉ dom (db_blobs s) ∖ {[gen]}) (d_blobs d)) d) s))
  end.

(** The state the swap leads to, the hint apart. *)
Definition swapped (br : option Z) (idx : pkIndex) (sec : gmap gostring secIndex) (text : gostring) s : DB :=
  retired br (set_sec sec (set_pk idx (set_epoch (db_epoch s + 1)
    (set_size (zlen text) (set_disk (set_d_main (Some text)) s))))).

Lemma retire_run br s : (match br with Some gen => retire_blobs gen | None => mok tt end : M DB unit) s = (Ok tt, retired br s).
Proof. by destruct br. Qed.

Lemma swapBody_run br newlog s : no_faults E -> Forall rec_good newlog -> Forall (fun r => isTombstone r = false) newlog ->
  Forall hint_entry_ok (log_entries 0 newlog) -> in64 (zlen (enc newlog)) -> map_Forall (fun _ si => sec_ok si) (db_sec s) ->
  let idx := fold_left pk_load (log_entries 0 newlog) newPkIndex in
  exists m s', swapBody (idx, enc newlog) br s = (Ok tt, s') /\ hint_only (swapped br idx m (enc newlog) s) s'
    /\ decl_of <$> m = decl_of <$> db_sec s /\ matches m (pk_map idx) /\ (hint_inv s -> hint_inv s').
Proof.
  intros Hnf Hg Ht Hhe Hsz Hsec idx. destruct (new_index newlog Hg Ht) as (Hpk' & Ha' & Hel & Hnn'). fold idx in Hpk', Ha', Hel, Hnn'.
  unfold swapBody. cbn [fst snd]. rewrite (mtry_bnd _ _ _ _ _ (fs_call_ok _ Hnf)). unfold mmodify at 1. unfold mbnd at 1.
  match goal with |- context [mbnd (mtry openMainHandles) _ ?st] => set (s1 := st) end. destruct (openMainHandles_run s1 Hnf) as [t2 H2].
  rewrite (mtry_bnd _ _ _ _ _ H2). unfold mmodify at 1 2. unfold mbnd at 1. unfold mbnd at 1.
  match goal with |- context [mbnd rebuildSec _ ?st] => set (s2 := st) end.
  destruct (rebuildSec_run s2 Hpk') as (m & t3 & H3 & Hdecl & HM'); [exact Hsec|exact Hnn'|].
  rewrite (mbnd_ok _ _ _ _ _ H3). unfold mmodify at 1. unfold mbnd at 1. rewrite (mbnd_ok _ _ _ _ _ (retire_run br _)).
  match goal with |- context [writeHint ?st] => set (s3 := st) end.
  assert (db_pk s3 = idx /\ db_size s3 = zlen (enc newlog) /\ main_bytes (db_disk s3) = enc newlog
    /\ db_inflight s3 = db_inflight s /\ db_epoch s3 = db_epoch s + 1) as (Hpk3 & Hsz3 & Hm3 & Hi3 & He3) by (by destruct br).
  destruct (writeHint_right s3 Hnf) as (s4 & H4 & Ho & Hhr & Hi4 & He4).
  { rewrite Hpk3, Hsz3, Hm3. exists newlog, []. by rewrite app_nil_r. }
  { rewrite Hpk3. apply Forall_forall. intros e He. rewrite Forall_forall in Hhe. by apply Hhe, Hel. }
  { by rewrite Hsz3. }
  exists m, s4. split_and!; [exact H4| |exact Hdecl|exact HM'|].
  2: { intros [_ Hsn]. split; [done|]. apply (snap_right_later s); [congruence|lia|done]. }
  eapply hint_only_trans; [|exact Ho]. exists (d_hint (db_disk s)), (db_hintGen s), (db_inflight s), (db_tick s3), 0.
  destruct br; by destruct s as [o []].
Qed.

(** What the indexes of a state say after a swap. *)
Lemma swapped_Inv br idx m newlog s s' : Forall rec_good newlog -> Forall (fun r => isTombstone r = false) newlog ->
  idx = fold_left pk_load (log_entries 0 newlog) newPkIndex -> matches m (pk_map idx) ->
  hint_only (swapped br idx m (enc newlog) s) s' -> blob_inv s' newlog -> Inv s' newlog.
Proof.
  intros Hg Ht -> HM Ho Hb. destruct (new_index newlog Hg Ht) as (Hpk & Ha & _ & Hnn).
  destruct Ho as (h & g & i & t & w & ->). destruct br; split_and!; try done.
Qed.

Lemma swapped_live br idx m newlog s s' k e : Forall rec_good newlog -> Forall (fun r => isTombstone r = false) newlog ->
  idx = fold_left pk_load (log_entries 0 newlog) newPkIndex ->
  hint_only (swapped br idx m (enc newlog) s) s' -> live s' !! k = Some e -> e ∈ log_entries 0 newlog.
Proof.
  intros Hg Ht Hidx (h & g & i & t & w & ->) Hk. destruct (new_index newlog Hg Ht) as (Hpk & _ & Hel & _). rewrite <- Hidx in Hpk, Hel.
  assert (pk_map idx !! k = Some e) as Hk' by (by destruct br). apply Hel, pk_scan_elem; [done|].
  assert (e_key e = k) as -> by (by apply (pk_map_key idx)). done.
Qed.

Lemma rewriteBody_run transform tr s log : no_faults E -> Inv s log -> reads_as transform tr s log ->
  let now := env_now (S (db_tick s)) in
  let newlog := rewritten tr s now (pk_scan (db_pk s)) in
  Forall rec_good newlog -> Forall hint_entry_ok (log_entries 0 newlog) -> in64 (zlen (enc newlog)) ->
  exists s', rewriteBody transform None s = (Ok tt, s') /\ Inv s' newlog /\ db_closed s' = db_closed s
    /\ contents s' = filter (fun kv => expired_at s now kv.1 = false) (contents s) /\ keeps_exps s s' now /\ keeps_tags s s' now
    /\ decl_of <$> db_sec s' = decl_of <$> db_sec s /\ db_opts s' = db_opts s
    /\ (forall k e, live s' !! k = Some e -> e ∈ log_entries 0 newlog) /\ (hint_inv s -> hint_inv s').
Proof.
  intros Hnf HI Hra now newlog Hg Hhe Hsz. pose proof HI as (_ & _ & _ & _ & (Hpk & HM & _) & (Hb1 & Hb2 & Hb3 & Hb4)).
  assert (Htr : forall k off r, lidx log !! k = Some (off, r) -> exists ix, tr (norm_record r) = with_ix ix r).
  { intros k off r Hl. by destruct (Hra k off r 0%nat Hl). }
  destruct (rewritten_keys tr s log now (pk_scan (db_pk s)) HI Htr (fun e H => H) (pk_keys_NoDup _ Hpk)) as (Hnd & _ & Ht).
  destruct (buildRewrite_run transform tr s log Hnf HI Hra Hg) as [t1 H1]. unfold rewriteBody.
  rewrite (mbnd_ok _ _ _ _ _ H1). unfold mok at 1. unfold mbnd at 1. fold now newlog.
  destruct (swapBody_run None newlog (set_tick t1 s) Hnf Hg Ht Hhe Hsz) as (m & s4 & H4 & Ho & Hdecl & HM' & Hhi);
    [intros n si Hn; by apply (HM n si)|].
  assert (Hbi : blob_inv s4 newlog).
  { destruct Ho as (h & g & i & t & w & ->). unfold blob_inv. split_and!; try done. apply Forall_forall. intros r' Hr'.
    apply (rewritten_elem tr s log now _ HI) in Hr' as (k & off & r & e & Hl & _ & _ & ->). destruct (Htr _ _ _ Hl) as [ix ->].
    apply lidx_elem in Hl as (Hin & _). rewrite Forall_forall in Hb4. exact (Hb4 r Hin). }
  pose proof (swapped_Inv None _ m newlog _ s4 Hg Ht eq_refl HM' Ho Hbi) as HI4.
  exists s4. split; [exact H4|]. split; [done|].
  assert (Hkeep : db_closed s4 = db_closed s /\ db_sec s4 = m /\ db_opts s4 = db_opts s
            /\ forall g, blob_bytes (db_disk s4) g = blob_bytes (db_disk s) g)
    by (by destruct Ho as (h & g & i & t & w & ->)). destruct Hkeep as (Hcl & Hsec & Hopt & Hbb).
  split_and!; [done|by apply (rewritten_contents tr s s4 log now)|by apply (rewritten_exps tr s s4 log now)|by apply (rewritten_tags tr s s4 log now)|by rewrite Hsec|done| |exact Hhi].
  intros k e. by apply (swapped_live None _ m newlog (set_tick t1 s) s4 k e Hg Ht eq_refl Ho).
Qed.
End rewrite.

(** ** [Compact] and [Reindex] *)

Section theorems.
Context {BT : BTreeG} {BL : BTreeGLaws BT} {E : Env} {EL : EnvLaws E}.
Implicit Types (s : DB) (log : list record).

(** The unexpired keys and values at a time. *)
Definition unexpired s (now : Z) : gmap gostring gostring :=
  filter (fun kv => expired_at s now kv.1 = false) (contents s).

(** The records, index entries and size of a rewritten log fit their fields. *)
Definition rewrite_fits (newlog : list record) : Prop :=
  Forall rec_good newlog /\ Forall hint_entry_ok (log_entries 0 newlog) /\ in64 (zlen (enc newlog)).

Definition compact_tr s (rec : record) : record :=
  with_ix (filterIXKnown (db_sec s) (db_dropped s) (r_IX rec)) rec.

(** The log [Compact] writes. *)
Definition compacted s : list record :=
  rewritten (compact_tr s) s (env_now (S (db_tick s))) (pk_scan (db_pk s)).

Lemma compact_reads s log : reads_as compactTransform (compact_tr s) s log.
Proof. intros k off r t _. split; [done|]. by eexists. Qed.

Lemma compact_run s log : no_faults E -> Inv s log -> db_closed s = false -> rewrite_fits (compacted s) ->
  exists s', Compact s = (Ok tt, s') /\ Inv s' (compacted s)
    /\ contents s' = unexpired s (env_now (S (db_tick s))) /\ keeps_exps s s' (env_now (S (db_tick s)))
    /\ NoDup (r_Key <$> compacted s) /\ Forall (fun r => isTombstone r = false) (compacted s)
    /\ same_decl s s' /\ keeps_tags s s' (env_now (S (db_tick s))) /\ (hint_inv s -> hint_inv s').
Proof.
  intros Hnf HI Hcl (Hg & Hh & Hsz). unfold Compact. rewrite (open_bnd (fun _ => _)) by done.
  destruct (rewriteBody_run compactTransform (compact_tr s) s log Hnf HI (compact_reads s log) Hg Hh Hsz)
    as (s' & Hrun & HI' & Hcl' & Hct & Hexp & Htg & Hdecl & Hopts & _ & Hhi). exists s'. split_and!; try done; pose proof HI as (_ & _ & _ & _ & (Hpk & _) & _);
    apply (rewritten_keys (compact_tr s) s log (env_now (S (db_tick s))) (pk_scan (db_pk s)) HI); try done;
    try (by intros; eexists); by apply pk_keys_NoDup.
Qed.

(** C4. [Compact] succeeds and changes nothing a reader can see: the contents
    afterwards are exactly those of the keys that had not expired, each with
    its expiry, the invariant holds for the new log, and the new log is
    minimal: one record per live key, and no tombstone. *)
Theorem compact_correct s log : no_faults E -> Inv s log -> db_closed s = false -> rewrite_fits (compacted s) ->
  exists s', Compact s = (Ok tt, s') /\ Inv s' (compacted s)
    /\ contents s' = unexpired s (env_now (S (db_tick s))) /\ keeps_exps s s' (env_now (S (db_tick s)))
    /\ NoDup (r_Key <$> compacted s) /\ Forall (fun r => isTombstone r = false) (compacted s).
Proof.
  intros Hnf HI Hcl Hfit. destruct (compact_run s log Hnf HI Hcl Hfit) as (s' & ? & ? & ? & ? & ? & ? & _). exists s'. by split_and!.
Qed.

(** The index values [Reindex] computes for a record. *)
Definition reindex_ix s (rec : record) : res IndexValues :=
  res_bind (match r_Blob rec with Some ref => blobReadAt s ref | None => Ok (r_Value rec) end) (fun value =>
  re_extract (db_sec s) (r_Key rec) value (o_Indexes (db_opts s)) (filterIX (db_sec s) (r_IX rec))).

Definition reindex_tr s (rec : record) : record :=
  match reindex_ix s rec with Ok ix => with_ix ix rec | Err _ => rec end.

Definition reindexed s : list record :=
  rewritten (reindex_tr s) s (env_now (S (db_tick s))) (pk_scan (db_pk s)).

(** Every extraction gives a value of its index's kind. *)
Definition extracts_ok s log : Prop :=
  forall k off r, lidx log !! k = Some (off, r) -> is_ok (reindex_ix s (norm_record r)) = true.

Lemma reindex_reads s log : extracts_ok s log -> reads_as reindexTransform (reindex_tr s) s log.
Proof.
  intros Hok k off r t Hl. specialize (Hok k off r Hl). unfold reindexTransform, reindex_tr. rewrite mget_bnd.
  change (blobReadAt (set_tick t s)) with (blobReadAt s). unfold reindex_ix in *. unfold mres.
  destruct (match r_Blob (norm_record r) with Some ref => blobReadAt s ref | None => _ end) as [v|]; [|done].
  cbn [res_bind] in *. unfold mbnd at 1. change (db_sec (set_tick t s)) with (db_sec s). change (db_opts (set_tick t s)) with (db_opts s).
  destruct (re_extract _ _ _ _ _) as [ix|]; [|done]. split; [done|]. by exists ix.
Qed.

Lemma re_extract_spec sec key value defs : forall ix ix', re_extract sec key value defs ix = Ok ix' -> NoDup (d_Name <$> defs) ->
  (forall n, n ∉ d_Name <$> defs -> ix' !! n = ix !! n)
  /\ forall def f w, def ∈ defs -> d_Extract def = Some f -> f key value = Some w -> ix' !! d_Name def = Some w.
Proof.
  induction defs as [|def defs IH]; intros ix ix'; cbn [re_extract].
  { intros [= ->] _. split; [done|]. by intros ? ? ? ?%elem_of_nil. }
  rewrite fmap_cons. intros Hr [Hnin Hnd]%NoDup_cons.
  assert (Hskip : re_extract sec key value defs ix = Ok ix' -> (forall f, d_Extract def = Some f -> f key value = None) ->
    (forall n, n ∉ d_Name def :: (d_Name <$> defs) -> ix' !! n = ix !! n)
    /\ forall def' f w, def' ∈ def :: defs -> d_Extract def' = Some f -> f key value = Some w -> ix' !! d_Name def' = Some w).
  { intros Hr' Hno. destruct (IH _ _ Hr' Hnd) as [H1 H2]. split; [intros n [_ Hn]%not_elem_of_cons; auto|].
    intros def' f w [->|Hin]%elem_of_cons Hf Hw; [|eauto]. rewrite (Hno f Hf) in Hw. done. }
  destruct (d_Extract def) as [f|] eqn:Hf; [|by apply Hskip].
  destruct (f key value) as [v|] eqn:Hv; [|apply Hskip; [done|]; by intros ? [= <-]].
  destruct (sec !! d_Name def) as [si|]; [|done]. destruct (makeEntry si v key) as [x|]; [|done]. cbn [res_bind] in Hr.
  destruct (IH _ _ Hr Hnd) as [H1 H2]. split.
  - intros n [Hne Hn]%not_elem_of_cons. rewrite H1 by done. by rewrite lookup_insert_ne.
  - intros def' f' w [->|Hin]%elem_of_cons Hf' Hw; [|eauto]. rewrite Hf in Hf'. injection Hf' as <-. rewrite Hv in Hw. injection Hw as <-.
    rewrite H1 by done. by rewrite lookup_insert_eq.
Qed.

Lemma markReindexed_run s : no_faults E -> exists t p mt,
  markReindexed s = (Ok tt, set_tick t (set_disk (set_d_meta mt) (set_schema p ∅ s))).
Proof.
  intros Hnf. unfold markReindexed. rewrite mget_bnd. destruct (mark_reindexed _ _) as [out p].
  unfold mmodify at 1. unfold mbnd at 1. unfold writeMeta.
  rewrite !(fs_bnd (fun _ => _)), (fsync_bnd (fun _ => _)), !(fs_bnd (fun _ => _)) by done. unfold mmodify. by eexists _, _, _.
Qed.

Lemma log_entries_elem log : forall off e, e ∈ log_entries off log -> exists r, r ∈ log /\ e_key e = r_Key r /\ e_ix e = r_IX r.
Proof.
  induction log as [|r log IH]; intros off e; cbn [log_entries]; [by intros ?%elem_of_nil|].
  intros [->|Hin]%elem_of_cons; [exists r; split; [by left|done]|]. destruct (IH _ _ Hin) as (r' & ? & ?). exists r'. split; [by right|done].
Qed.

Lemma reindex_live s s' log : Inv s log -> extracts_ok s log -> NoDup (d_Name <$> o_Indexes (db_opts s)) ->
  (forall k e, live s' !! k = Some e -> e_key e = k /\ e ∈ log_entries 0 (reindexed s)) ->
  forall k e v def f w, live s' !! k = Some e -> contents s !! k = Some v ->
    def ∈ o_Indexes (db_opts s) -> d_Extract def = Some f -> f k v = Some w -> e_ix e !! d_Name def = Some w.
Proof.
  intros HI Hok Hnd Hlive k e v def f w He Hv Hdef Hf Hw. destruct (Hlive k e He) as [Hk Hin].
  destruct (log_entries_elem _ _ _ Hin) as (r' & Hr' & Hkr & ->).
  apply (rewritten_elem _ s log _ _ HI) in Hr' as (k1 & off & r & e1 & Hl & _ & _ & ->).
  pose proof (Hok k1 off r Hl) as Hix. unfold reindex_tr in *. destruct (reindex_ix s (norm_record r)) as [ix|] eqn:Hrx; [|done].
  pose proof (lidx_elem _ _ _ _ Hl) as (_ & Hk1 & _). cbn in Hkr. assert (k1 = k) as -> by (rewrite <- Hk1, <- Hkr; exact Hk).
  rewrite (contents_lookup s log k HI), Hl in Hv. injection Hv as <-. cbn [snd] in Hw.
  change (ix !! d_Name def = Some w). unfold reindex_ix in Hrx.
  assert (Hval : (match r_Blob (norm_record r) with Some ref => blobReadAt s ref | None => Ok (r_Value (norm_record r)) end)
                 = Ok (value_of (db_disk s) r)).
  { unfold value_of. change (r_Blob (norm_record r)) with (r_Blob r). pose proof HI as (_ & _ & _ & _ & _ & (_ & _ & _ & Hb)).
    rewrite Forall_forall in Hb. apply lidx_elem in Hl as [Hin' _]. specialize (Hb r Hin').
    destruct (r_Blob r); [by apply blobReadAt_ok|done]. }
  rewrite Hval in Hrx. cbn [res_bind] in Hrx. destruct (re_extract_spec _ _ _ _ _ _ Hrx Hnd) as [_ H].
  apply (H def f w Hdef Hf). change (r_Key (norm_record r)) with (r_Key r). by rewrite Hk1.
Qed.

Lemma reindex_run s log : no_faults E -> Inv s log -> db_closed s = false -> extracts_ok s log ->
  NoDup (d_Name <$> o_Indexes (db_opts s)) -> rewrite_fits (reindexed s) ->
  exists s', Reindex s = (Ok tt, s') /\ Inv s' (reindexed s)
    /\ contents s' = unexpired s (env_now (S (db_tick s))) /\ keeps_exps s s' (env_now (S (db_tick s)))
    /\ same_decl s s' /\ keeps_tags s s' (env_now (S (db_tick s))) /\ (hint_inv s -> hint_inv s')
    /\ forall k e v def f w, live s' !! k = Some e -> contents s' !! k = Some v ->
         def ∈ o_Indexes (db_opts s) -> d_Extract def = Some f -> f k v = Some w -> e_ix e !! d_Name def = Some w.
Proof.
  intros Hnf HI Hcl Hok Hnd (Hg & Hh & Hsz). unfold Reindex. rewrite (open_bnd (fun _ => _)) by done.
  destruct (rewriteBody_run reindexTransform (reindex_tr s) s log Hnf HI (reindex_reads s log Hok) Hg Hh Hsz)
    as (s1 & Hrun & HI1 & Hcl1 & Hct & Hexp & Htg & Hdecl & Hopts & Hlive & Hhi). rewrite (mbnd_ok _ _ _ _ _ Hrun).
  destruct (markReindexed_run s1 Hnf) as (t & p & mt & Hm). eexists. split; [exact Hm|]. split; [exact HI1|]. split; [exact Hct|]. split; [exact Hexp|]. split; [by split_and!|]. split; [exact Htg|]. split; [exact Hhi|].
  intros k e v def f w He Hv. change (contents s1 !! k = Some v) in Hv. rewrite Hct, (lookup_keep (expired_at s _)) in Hv.
  destruct (expired_at _ _ _); [done|]. apply (reindex_live s s1 log HI Hok Hnd); try done.
  intros k' e' He'. split; [|by apply (Hlive k')]. pose proof HI1 as (_ & _ & _ & _ & (Hpk1 & _) & _). by apply (pk_map_key (db_pk s1)).
Qed.

End theorems.
