(* ===== verification/RelieveProofs.v ===== *)
(** * Relieving the blob files keeps every value (compact.go)

    [BlobsRelieve] copies the blobs of the live records into a fresh
    generation while it rewrites the log, and retires the other generations.
    The records change (they refer to the new file), the values do not. *)

From S2P Require Import Prelude Floats Types Json Record BTree PkIndex SecIndex Hint Meta Store SecMaint IndexStep LogSpec Invariant Ops Contents PutProofs Load Recovery Compact CompactProofs Batch Frame HintInv.
#[local] Open Scope Z_scope.

Section relieve.
Context {BT : BTreeG} {BL : BTreeGLaws BT} {E : Env} {EL : EnvLaws E}.
Implicit Types (s : DB) (log : list record).

(** The state while the new generation holds [b]. *)
Definition filling (gen : Z) (b : gostring) (t : nat) s : DB :=
  set_tick t (set_blobs (<[gen := zlen b]> (db_blobs s))
    (set_disk (fun d => set_d_blobs (<[gen := b]> (d_blobs d)) d) s)).

(** The record written for [rec] when the new generation holds [b], and what
    the generation holds then. *)
Definition relieve_rec (gen : Z) s (b : gostring) (rec : record) : record * gostring :=
  match r_Blob rec with
  | None => (compact_tr s rec, b)
  | Some _ => let v := value_of (db_disk s) rec in
              (with_blob (Some (BlobRef (zlen b) (zlen v) gen)) (compact_tr s rec), b ++ v)
  end.

(** The new log and the new blob file. *)
Fixpoint relieved (gen : Z) s (now : Z) (es : list pkEntry) (b : gostring) : list record * gostring :=
  match es with
  | [] => ([], b)
  | e :: es' =>
      if expiredAt e now then relieved gen s now es' b
      else match readRecord s e with
           | Err _ => relieved gen s now es' b
           | Ok rec => let '(rec', b') := relieve_rec gen s b rec in
                       let '(l, b2) := relieved gen s now es' b' in (rec' :: l, b2)
           end
  end.

Lemma blob_append_filling gen b t s v : no_faults E ->
  blob_append gen v (filling gen b t s) = (Ok (BlobRef (zlen b) (wrap32 (zlen v)) 0), filling gen (b ++ v) (S t) s).
Proof.
  intros (Hw & _). unfold blob_append. rewrite mget_bnd.
  assert (db_blobs (filling gen b t s) !! gen = Some (zlen b)) as -> by apply lookup_insert_eq.
  unfold append_file, tick. unfold mbnd at 1 2. unfold mbnd at 1. cbn [fst snd]. rewrite Hw. unfold mmodify at 1. unfold mbnd at 1.
  unfold mmodify. unfold mbnd. unfold mok. do 2 f_equal. unfold filling, blob_put, blob_bytes.
  destruct s as [o [m h me bl] sz ep dbl cg p sec w c pr dr rp hg inf tk]. 
  cbv [set_tick set_blobs set_disk set_d_blobs db_opts db_disk db_size db_epoch db_blobs db_curGen db_pk db_sec db_writes db_closed
    db_prospective db_dropped db_reap db_hintGen db_inflight db_tick d_main d_hint d_meta d_blobs].
  rewrite lookup_insert_eq. cbn [default from_option]. by rewrite !insert_insert_eq, zlen_app.
Qed.

(** The generations that were there are read as before. *)
Lemma blobReadAt_filling gen b t s ref : db_blobs s !! gen = None -> blob_ref_ok s ref ->
  blobReadAt (filling gen b t s) ref = blobReadAt s ref.
Proof.
  intros Hn (_ & _ & _ & _ & [sz Hsz]). assert (br_Gen ref <> gen) by (intros <-; congruence).
  unfold blobReadAt, blob_bytes. cbn. by rewrite !lookup_insert_ne.
Qed.

Lemma value_of_ix d ix r : value_of d (with_ix ix r) = value_of d r.
Proof. done. Qed.

(** The value of a blob is as long as its reference says. *)
Lemma value_length s r ref : r_Blob r = Some ref -> blob_ref_ok s ref -> zlen (value_of (db_disk s) r) = br_Size ref.
Proof.
  intros Hr (H1 & H2 & H3 & _). unfold value_of. rewrite Hr. unfold zlen in *. rewrite length_take, length_drop. lia.
Qed.

Lemma relieveTransform_run gen b t s r : no_faults E -> db_blobs s !! gen = None -> rec_good r ->
  match r_Blob r with Some ref => blob_ref_ok s ref | None => True end ->
  exists t', relieveTransform gen (norm_record r) (filling gen b t s)
    = (Ok (relieve_rec gen s b (norm_record r)).1, filling gen (relieve_rec gen s b (norm_record r)).2 t' s).
Proof.
  intros Hnf Hn ((_ & _ & _ & Hbo & _) & _) Hb. unfold relieveTransform.
  assert (compactTransform (norm_record r) (filling gen b t s) = (Ok (compact_tr s (norm_record r)), filling gen b t s)) as Hc by done.
  rewrite (mbnd_ok _ _ _ _ _ Hc). unfold relieve_rec. change (r_Blob (compact_tr s (norm_record r))) with (r_Blob r).
  change (r_Blob (norm_record r)) with (r_Blob r). destruct (r_Blob r) as [ref|] eqn:Er; [|by exists t].
  rewrite mget_bnd. unfold mres. rewrite (blobReadAt_filling gen b t s ref Hn Hb), (blobReadAt_ok s ref Hb). unfold mbnd at 1.
  assert (value_of (db_disk s) (norm_record r) = take (Z.to_nat (br_Size ref)) (drop (Z.to_nat (br_Off ref)) (blob_bytes (db_disk s) (br_Gen ref)))) as <-.
  { unfold value_of. change (r_Blob (norm_record r)) with (r_Blob r). by rewrite Er. }
  rewrite (mbnd_ok _ _ _ _ _ (blob_append_filling gen b t s _ Hnf)). exists (S t). unfold mok. cbn [br_Off br_Size fst snd].
  assert (in32 (zlen (value_of (db_disk s) (norm_record r)))) as H32.
  { rewrite (value_length s (norm_record r) ref) by done. apply Hbo. }
  by rewrite (wrap32_id _ H32).
Qed.

(** ** The new log *)

(** A record of the new log: it stands for the value of a live, unexpired key
    in any state whose new generation starts with [b]. *)
Definition relieves (gen : Z) s log (now : Z) (es : list pkEntry) (b : gostring) (r' : record) : Prop :=
  isTombstone r' = false
  /\ match r_Blob r' with
     | Some ref => br_Gen ref = gen /\ 0 <= br_Off ref /\ 0 <= br_Size ref /\ br_Off ref + br_Size ref <= zlen b
     | None => True
     end
  /\ exists e off r, e ∈ es /\ lidx log !! e_key e = Some (off, r) /\ expiredAt e now = false /\ r_Key r' = e_key e
       /\ (r_Exp r', is_counter r') = (r_Exp r, is_counter r) /\ forall d ext, blob_bytes d gen = b ++ ext -> value_of d r' = value_of (db_disk s) r.

Lemma relieves_weaken gen s log now es es' b ext r' : (forall e, e ∈ es -> e ∈ es') ->
  relieves gen s log now es b r' -> relieves gen s log now es' (b ++ ext) r'.
Proof.
  intros Hes (Ht & Hb & e & off & r & He & Hl & Hex & Hk & Hx & Hv). split; [done|]. split.
  - destruct (r_Blob r'); [|done]. rewrite zlen_app. pose proof (zlen_nonneg ext). intuition lia.
  - exists e, off, r. split_and!; auto. intros d ext' Hd. apply (Hv d (ext ++ ext')). by rewrite Hd, app_assoc.
Qed.

Lemma relieve_rec_spec gen s log now es b e off r : Inv s log -> e ∈ es -> lidx log !! e_key e = Some (off, r) ->
  expiredAt e now = false ->
  let x := relieve_rec gen s b (norm_record r) in
  r_Key x.1 = e_key e /\ relieves gen s log now es x.2 x.1 /\ exists ext, x.2 = b ++ ext.
Proof.
  intros HI He Hl Hex x. pose proof (lidx_elem _ _ _ _ Hl) as (Hin & Hk & Ht).
  pose proof HI as (_ & _ & _ & _ & _ & (_ & _ & _ & Hbl)). rewrite Forall_forall in Hbl. specialize (Hbl r Hin).
  unfold x, relieve_rec. change (r_Blob (norm_record r)) with (r_Blob r).
  destruct (r_Blob r) as [ref|] eqn:Er; cbn [fst snd].
  - pose proof (value_length s (norm_record r) ref Er Hbl) as Hlen. set (v := value_of (db_disk s) (norm_record r)) in *.
    split; [exact Hk|]. split; [|by exists v]. split; [exact Ht|]. cbn [r_Blob with_blob br_Gen br_Off br_Size]. split.
    { rewrite zlen_app. pose proof (zlen_nonneg b). pose proof (zlen_nonneg v). lia. }
    exists e, off, r. split_and!; [done|done|done|done|unfold is_counter; cbn; by rewrite Er|]. intros d ext Hd. unfold value_of at 1. cbn [r_Blob with_blob br_Gen br_Off br_Size].
    rewrite Hd, <- app_assoc. unfold zlen. rewrite !Nat2Z.id, drop_app_length, take_app_length. done.
  - split; [exact Hk|]. split; [|by exists []; rewrite app_nil_r]. split; [exact Ht|]. change (r_Blob (compact_tr s (norm_record r))) with (r_Blob r).
    rewrite Er. split; [done|]. exists e, off, r. split_and!; [done..|]. intros d ext _. unfold value_of.
    change (r_Blob (compact_tr s (norm_record r))) with (r_Blob r). by rewrite Er.
Qed.

Lemma relieved_spec gen s log now es : Inv s log -> (forall e, e ∈ es -> e ∈ pk_scan (db_pk s)) -> NoDup (e_key <$> es) ->
  forall b, let x := relieved gen s now es b in
  (exists ext, x.2 = b ++ ext) /\ Forall (relieves gen s log now es x.2) x.1 /\ NoDup (r_Key <$> x.1)
  /\ forall e, e ∈ es -> expiredAt e now = false -> e_key e ∈ r_Key <$> x.1.
Proof.
  intros HI. induction es as [|e es IH]; intros Hes Hnd b; cbn [relieved].
  { split_and!; [by exists []; rewrite app_nil_r|done|constructor|]. by intros e ?%elem_of_nil. }
  rewrite fmap_cons in Hnd. apply NoDup_cons in Hnd as [Hnin Hnd].
  specialize (IH ltac:(intros x Hx; apply Hes; by right) Hnd).
  assert (Hmono : forall b0 r', relieves gen s log now es b0 r' -> relieves gen s log now (e :: es) b0 r').
  { intros b0 r' H. rewrite <- (app_nil_r b0). eapply relieves_weaken; [|exact H]. by right. }
  destruct (expiredAt e now) eqn:Hex.
  { destruct (IH b) as (H1 & H2 & H3 & H4). split_and!; [done|eapply Forall_impl; [exact H2|apply Hmono]|done|].
    intros x [->|Hx]%elem_of_cons Hxe; [congruence|auto]. }
  destruct (live_record s log e HI) as (off & r & Hl & _ & Hrd); [apply Hes; by left|]. rewrite Hrd.
  destruct (relieve_rec_spec gen s log now (e :: es) b e off r HI ltac:(by left) Hl Hex) as (Hk & Hrel & [ext1 Hext1]).
  destruct (relieve_rec gen s b (norm_record r)) as [rec' b'] eqn:Err. cbn [fst snd] in *.
  destruct (IH b') as ([ext2 Hext2] & H2 & H3 & H4). destruct (relieved gen s now es b') as [l b2]. cbn [fst snd] in *. subst b' b2.
  split_and!.
  - exists (ext1 ++ ext2). by rewrite app_assoc.
  - constructor; [by apply (relieves_weaken gen s log now (e :: es) (e :: es))|]. eapply Forall_impl; [exact H2|apply Hmono].
  - rewrite fmap_cons, Hk. constructor; [|done]. intros (r' & Hk' & Hr')%list_elem_of_fmap. rewrite Forall_forall in H2.
    destruct (H2 r' Hr') as (_ & _ & e' & _ & _ & He' & _ & _ & Hke & _ & _). apply Hnin. rewrite Hk', Hke. by apply list_elem_of_fmap_2.
  - intros x [->|Hx]%elem_of_cons Hxe; rewrite fmap_cons; [rewrite Hk; by left|right; auto].
Qed.

(** ** The run *)

Lemma relieve_loop_run gen s log now es : no_faults E -> Inv s log -> db_blobs s !! gen = None ->
  (forall e, e ∈ es -> e ∈ pk_scan (db_pk s)) ->
  forall b, Forall rec_good (relieved gen s now es b).1 ->
  forall off idx text t, exists t',
  build_loop (relieveTransform gen) now es off idx text (filling gen b t s)
  = (Ok (fold_left pk_load (log_entries off (relieved gen s now es b).1) idx, text ++ enc (relieved gen s now es b).1),
     filling gen (relieved gen s now es b).2 t' s).
Proof.
  intros Hnf HI Hn. induction es as [|e es IH]; intros Hes b Hg off idx text t; cbn [build_loop relieved].
  { exists t. cbn. by rewrite app_nil_r. }
  assert (Hes' : forall x, x ∈ es -> x ∈ pk_scan (db_pk s)) by (intros x Hx; apply Hes; by right).
  cbn [relieved] in Hg. destruct (expiredAt e now) eqn:Hex; [by apply IH|].
  destruct (live_record s log e HI) as (o & r & Hl & _ & Hrd); [apply Hes; by left|]. rewrite Hrd in Hg |- *.
  pose proof HI as (_ & _ & Hlg & _ & _ & (_ & _ & _ & Hbl)). rewrite Forall_forall in Hlg, Hbl.
  pose proof (lidx_elem _ _ _ _ Hl) as (Hin & _ & _).
  destruct (relieve_rec_spec gen s log now (e :: es) b e o r HI ltac:(by left) Hl Hex) as (Hk & _ & _).
  destruct (relieveTransform_run gen b t s r Hnf Hn (Hlg r Hin) (Hbl r Hin)) as [t1 Hrun].
  destruct (relieve_rec gen s b (norm_record r)) as [rec' b'] eqn:Err. cbn [fst snd] in *.
  destruct (relieved gen s now es b') as [l b2] eqn:Erl. cbn [fst snd] in *. apply Forall_cons in Hg as [Hgr Hg].
  destruct (rec_good_line _ Hgr) as (line & Hm & Hel & _ & _ & Hw).
  rewrite mget_bnd. unfold mres. unfold mbnd at 1. change (readRecord (filling gen b t s) e) with (readRecord s e). rewrite Hrd.
  rewrite (mbnd_ok _ _ _ _ _ Hrun), Hm. cbv zeta. rewrite (fs_bnd (fun _ => _)) by done. rewrite <- Hel.
  assert (wrap32 (zlen (enc_line rec')) = zlen (enc_line rec')) as ->.
  { rewrite <- Hw at 2. f_equal. rewrite Hel, zlen_app. done. }
  cbn [log_entries fold_left enc]. rewrite app_assoc, Hk. specialize (IH Hes' b'). rewrite Erl in IH. by apply IH.
Qed.

(** The log and the blob file a relieve writes. *)
Definition relieve_result s : list record * gostring :=
  let gen := db_curGen s + 1 in
  relieved gen s (env_now (S (S (S (db_tick s))))) (pk_scan (db_pk s)) (blob_bytes (db_disk s) gen).

(** What the new log says about a key. *)
Lemma relieved_lookup {X} (f f' : record -> X) gen s log now l b k : Inv s log ->
  Forall (relieves gen s log now (pk_scan (db_pk s)) b) l ->
  NoDup (r_Key <$> l) -> (forall e, e ∈ pk_scan (db_pk s) -> expiredAt e now = false -> e_key e ∈ r_Key <$> l) ->
  (forall r r', (r_Exp r', is_counter r') = (r_Exp r, is_counter r) -> (forall d ext, blob_bytes d gen = b ++ ext -> value_of d r' = value_of (db_disk s) r) -> f' r' = f r) ->
  (fun x => f' x.2) <$> lidx l !! k = if expired_at s now k then None else (fun x => f x.2) <$> lidx log !! k.
Proof.
  intros HI Hrel Hnd Hall Hf. pose proof HI as (_ & _ & _ & Ha & (Hpk & _) & _). rewrite Forall_forall in Hrel.
  assert (Ht : Forall (fun r => isTombstone r = false) l) by (apply Forall_forall; intros r Hr; apply (Hrel r Hr)).
  unfold expired_at. destruct (lidx l !! k) as [[off' r']|] eqn:Hl'.
  - apply lidx_elem in Hl' as (Hin & Hk & _). destruct (Hrel r' Hin) as (_ & _ & e & off & r & He & Hl & Hex & Hke & Hx & Hv).
    assert (e_key e = k) as Hek by congruence. apply (pk_scan_elem (db_pk s)) in He; [|done]. rewrite Hek in *.
    change (pk_map (db_pk s)) with (live s) in He. rewrite He, Hex, Hl. cbn. f_equal. by apply Hf.
  - destruct (live s !! k) as [e|] eqn:He.
    + destruct (expiredAt e now) eqn:Hex; [done|]. exfalso. assert (e_key e = k) as Hek by (by apply (pk_map_key (db_pk s))).
      assert (e ∈ pk_scan (db_pk s)) as Hin by (apply pk_scan_elem; [done|]; by rewrite Hek).
      apply (Hall e Hin) in Hex as (r' & Hkr & Hr')%list_elem_of_fmap. destruct (lidx_unique l r' Hnd Ht Hr') as [off Hoff].
      rewrite <- Hkr, Hek in Hoff. congruence.
    + specialize (Ha k). rewrite He in Ha. inversion Ha. done.
Qed.

Lemma contents_relieved gen s s' log now l b : Inv s log -> Inv s' l -> Forall (relieves gen s log now (pk_scan (db_pk s)) b) l ->
  NoDup (r_Key <$> l) -> (forall e, e ∈ pk_scan (db_pk s) -> expiredAt e now = false -> e_key e ∈ r_Key <$> l) ->
  blob_bytes (db_disk s') gen = b -> contents s' = unexpired s now /\ keeps_exps s s' now /\ keeps_tags s s' now.
Proof.
  intros HI HI' Hrel Hnd Hall Hb. split_and!.
  - apply map_eq. intros k. unfold unexpired. rewrite (lookup_keep (expired_at s now)), (contents_lookup s' l k HI'), (contents_lookup s log k HI).
    apply (relieved_lookup _ _ gen s log now l b k HI Hrel Hnd Hall). intros r r' _ Hv. apply (Hv _ []). by rewrite app_nil_r.
  - intros k. rewrite (live_exp s' l k HI'), (live_exp s log k HI). apply (relieved_lookup _ _ gen s log now l b k HI Hrel Hnd Hall).
    by intros r r' [= ? _] _.
  - intros k. rewrite (tags_lookup s' l k HI'), (tags_lookup s log k HI).
    apply (relieved_lookup (fun r => (r_Exp r, is_counter r)) (fun r => (r_Exp r, is_counter r)) gen s log now l b k HI Hrel Hnd Hall).
    by intros r r' H _.
Qed.

(** The blob bytes the records refer to. *)
Fixpoint blob_total (l : list record) : Z :=
  match l with
  | [] => 0
  | r :: l' => match r_Blob r with Some ref => br_Size ref | None => 0 end + blob_total l'
  end.

Lemma relieved_total gen s now es : forall b,
  zlen (relieved gen s now es b).2 = zlen b + blob_total (relieved gen s now es b).1.
Proof.
  induction es as [|e es IH]; intros b; cbn [relieved]; [cbn; lia|]. destruct (expiredAt e now); [apply IH|].
  destruct (readRecord s e) as [rec|]; [|apply IH]. unfold relieve_rec. destruct (r_Blob rec) as [ref|] eqn:Er.
  - specialize (IH (b ++ value_of (db_disk s) rec)). destruct (relieved _ _ _ _ _) as [l b2]. cbn [fst snd blob_total r_Blob with_blob br_Size] in *.
    rewrite IH, zlen_app. lia.
  - specialize (IH b). destruct (relieved _ _ _ _ _) as [l b2]. cbn [fst snd blob_total] in *.
    change (r_Blob (compact_tr s rec)) with (r_Blob rec). rewrite Er, IH. lia.
Qed.

Lemma openBlobs_run gen s : no_faults E ->
  openBlobs gen s = (Ok tt, filling gen (blob_bytes (db_disk s) gen) (S (S (db_tick s))) s).
Proof. intros Hnf. unfold openBlobs. by rewrite !(fs_bnd (fun _ => _)) by done. Qed.

Lemma relieve_build_run s log : no_faults E -> Inv s log -> let gen := db_curGen s + 1 in db_blobs s !! gen = None ->
  Forall rec_good (relieve_result s).1 ->
  exists t, buildRewrite (relieveTransform gen) (filling gen (blob_bytes (db_disk s) gen) (S (S (db_tick s))) s)
    = (Ok (fold_left pk_load (log_entries 0 (relieve_result s).1) newPkIndex, enc (relieve_result s).1),
       filling gen (relieve_result s).2 t s).
Proof.
  intros Hnf HI gen Hn Hg. unfold buildRewrite. rewrite (fs_bnd (fun _ => _)) by done.
  unfold nowMillis, tick. unfold mbnd at 1 2. cbn [mok]. rewrite mget_bnd.
  destruct (relieve_loop_run gen s log (env_now (S (S (S (db_tick s))))) (pk_scan (db_pk s)) Hnf HI Hn (fun e H => H)
    (blob_bytes (db_disk s) gen) Hg 0 newPkIndex [] (S (S (S (S (db_tick s)))))) as [t Hrun].
  match goal with |- context [mbnd (build_loop _ _ _ _ _ _) _ ?st] =>
    change st with (filling gen (blob_bytes (db_disk s) gen) (S (S (S (S (db_tick s))))) s) end.
  change (db_pk (filling gen (blob_bytes (db_disk s) gen) (S (S (S (S (db_tick s))))) s)) with (db_pk s).
  rewrite (mbnd_ok _ _ _ _ _ Hrun), (fs_bnd (fun _ => _)), (fsync_bnd (fun _ => _)), (fs_bnd (fun _ => _)) by done.
  by eexists.
Qed.

(** The blob files after the swap. *)
Lemma swapped_blobs gen idx m text b t s s' : hint_only (swapped (Some gen) idx m text (filling gen b t s)) s' ->
  db_blobs s' = {[gen := zlen b]} /\ db_curGen s' = gen /\ d_blobs (db_disk s') !! gen = Some b
  /\ (forall g, g <> gen -> is_Some (db_blobs s !! g) -> d_blobs (db_disk s') !! g = None).
Proof.
  intros (h & g' & i & t' & w & ->). change (db_blobs _) with (filter (fun nv : Z * Z => nv.1 = gen) (<[gen := zlen b]> (db_blobs s))) at 1.
  assert (forall g, d_blobs (db_disk (set_tick t' (set_writes w (set_hint g' i (set_disk (set_d_hint h)
            (swapped (Some gen) idx m text (filling gen b t s))))))) !! g
          = filter (fun nb => nb.1 ∉ dom (<[gen := zlen b]> (db_blobs s)) ∖ {[gen]}) (<[gen := b]> (d_blobs (db_disk s))) !! g) as Hd by done.
  split_and!; [|done|..].
  - apply map_eq. intros g. destruct (decide (g = gen)) as [->|Hne].
    + rewrite lookup_singleton_eq. apply map_lookup_filter_Some. by rewrite lookup_insert_eq.
    + rewrite lookup_singleton_ne by done. apply map_lookup_filter_None. right. by intros x _ ?.
  - rewrite Hd. apply map_lookup_filter_Some. rewrite lookup_insert_eq. split; [done|]. cbn. set_solver.
  - intros g Hne [x Hx]. rewrite Hd. apply map_lookup_filter_None. right. intros y _ Hnot. apply Hnot. cbn.
    apply elem_of_difference. split; [|set_solver]. apply elem_of_dom. rewrite lookup_insert_ne by done. eauto.
Qed.

Lemma relieve_run s log : no_faults E -> Inv s log -> db_closed s = false ->
  db_blobs s !! (db_curGen s + 1) = None -> in64 (db_curGen s + 1) ->
  rewrite_fits (relieve_result s).1 -> zlen (relieve_result s).2 <= MaxInt64 ->
  exists s', BlobsRelieve s = (Ok tt, s') /\ Inv s' (relieve_result s).1
    /\ contents s' = unexpired s (env_now (S (S (S (db_tick s))))) /\ keeps_exps s s' (env_now (S (S (S (db_tick s)))))
    /\ db_blobs s' = {[db_curGen s + 1 := zlen (relieve_result s).2]}
    /\ (forall g, is_Some (db_blobs s !! g) -> d_blobs (db_disk s') !! g = None)
    /\ zlen (relieve_result s).2 = zlen (blob_bytes (db_disk s) (db_curGen s + 1)) + blob_total (relieve_result s).1
    /\ same_decl s s' /\ keeps_tags s s' (env_now (S (S (S (db_tick s))))) /\ (hint_inv s -> hint_inv s').
Proof.
  intros Hnf HI Hcl Hn H64 (Hg & Hhe & Hsz) Hmax. set (gen := db_curGen s + 1) in *.
  pose proof HI as (_ & _ & _ & _ & (Hpk & HM & _) & _).
  destruct (relieved_spec gen s log (env_now (S (S (S (db_tick s))))) (pk_scan (db_pk s)) HI (fun e H => H) (pk_keys_NoDup _ Hpk)
    (blob_bytes (db_disk s) gen)) as (_ & Hrel & Hnd & Hall).
  set (l := (relieve_result s).1) in *. set (b := (relieve_result s).2) in *.
  change (Forall (relieves gen s log (env_now (S (S (S (db_tick s))))) (pk_scan (db_pk s)) b) l) in Hrel. change (NoDup (r_Key <$> l)) in Hnd.
  assert (Ht : Forall (fun r => isTombstone r = false) l) by (eapply Forall_impl; [exact Hrel|]; by intros r [? _]).
  destruct (relieve_build_run s log Hnf HI Hn Hg) as [t1 H1]. fold gen l b in H1.
  destruct (swapBody_run (Some gen) l (set_tick (S t1) (filling gen b t1 s)) Hnf Hg Ht Hhe Hsz) as (m & s4 & H4 & Ho & Hdecl & HM' & Hhi);
    [intros n si Hsi; by apply (HM n si)|].
  destruct (swapped_blobs gen _ m (enc l) b (S t1) s s4 Ho) as (Hdb & Hcg & Hbg & Hgone).
  assert (Hbb : blob_bytes (db_disk s4) gen = b) by (unfold blob_bytes; by rewrite Hbg).
  assert (Hbi : blob_inv s4 l).
  { unfold blob_inv. rewrite Hdb, Hcg. split_and!; [|rewrite lookup_singleton_eq; eauto|exact H64|].
    - intros g sz [<- <-]%lookup_singleton_Some. rewrite Hbb. eauto.
    - eapply Forall_impl; [exact Hrel|]. intros r (_ & Hr & _). destruct (r_Blob r) as [ref|]; [|done].
      destruct Hr as (Hgr & H0 & H2 & H3). unfold blob_ref_ok. rewrite Hgr, Hbb, Hdb, lookup_singleton_eq. split_and!; eauto; lia. }
  pose proof (swapped_Inv (Some gen) _ m l _ s4 Hg Ht eq_refl HM' Ho Hbi) as HI4.
  destruct (contents_relieved gen s s4 log _ l b HI HI4 Hrel Hnd Hall Hbb) as (Hct & Hexp & Htg).
  exists s4. split_and!; [|done|done|done|done| |by apply relieved_total|by destruct Ho as (? & ? & ? & ? & ? & ->)..|exact Htg|exact Hhi].
  - unfold BlobsRelieve. rewrite (open_bnd (fun _ => _)), mget_bnd by done. cbv zeta. fold gen.
    rewrite (mbnd_ok _ _ _ _ _ (openBlobs_run gen s Hnf)).
    assert (rewriteBody (relieveTransform gen) (Some gen) (filling gen (blob_bytes (db_disk s) gen) (S (S (db_tick s))) s) = (Ok tt, s4)) as Hrw.
    { unfold rewriteBody. rewrite (mbnd_ok _ _ _ _ _ H1). unfold blob_flush.
      rewrite (mbnd_ok _ _ _ _ _ (fsync_clean _ (no_faults_clean _ Hnf))). exact H4. }
    by rewrite (mtry_bnd _ _ _ _ _ Hrw).
  - intros g Hsome. apply Hgone; [|done]. intros ->. rewrite Hn in Hsome. by destruct Hsome.
Qed.

(** C15. BlobsRelieve succeeds and changes no value: the contents afterwards are
    those of the unexpired keys, each with its expiry, the invariant holds for
    the new log, every blob now lives in one generation, the old generations' files are gone, and
    the new file holds exactly the bytes the live records refer to (after what
    a stray file of that name held before). *)
Theorem relieve_correct s log : no_faults E -> Inv s log -> db_closed s = false ->
  db_blobs s !! (db_curGen s + 1) = None -> in64 (db_curGen s + 1) ->
  rewrite_fits (relieve_result s).1 -> zlen (relieve_result s).2 <= MaxInt64 ->
  exists s', BlobsRelieve s = (Ok tt, s') /\ Inv s' (relieve_result s).1
    /\ contents s' = unexpired s (env_now (S (S (S (db_tick s))))) /\ keeps_exps s s' (env_now (S (S (S (db_tick s)))))
    /\ db_blobs s' = {[db_curGen s + 1 := zlen (relieve_result s).2]}
    /\ (forall g, is_Some (db_blobs s !! g) -> d_blobs (db_disk s') !! g = None)
    /\ zlen (relieve_result s).2 = zlen (blob_bytes (db_disk s) (db_curGen s + 1)) + blob_total (relieve_result s).1.
Proof.
  intros Hnf HI Hcl Hn H64 Hfit Hmax. destruct (relieve_run s log Hnf HI Hcl Hn H64 Hfit Hmax) as (s' & ? & ? & ? & ? & ? & ? & ? & _).
  exists s'. by split_and!.
Qed.

End relieve.
