(* ===== verification/Clock.v ===== *)
(** * The clock of a store never goes back

    Every reading of the clock and every system call has a number, the state's
    tick.  Here: no operation of a store ends at an earlier number than it
    began with, so of two operations the later one reads the clock later. *)

From S2P Require Import Prelude Floats Types Json Record BTree PkIndex SecIndex Hint Meta Store SecMaint IndexStep Ops Load Batch Compact Frame.
#[local] Open Scope Z_scope.

Definition clock_le {BT : BTreeG} : relation DB := fun s s' => (db_tick s <= db_tick s')%nat.

#[export] Instance clock_le_order {BT : BTreeG} : PreOrder clock_le.
Proof. split; [intros s|intros s1 s2 s3]; unfold clock_le; lia. Qed.

Abbreviation advances := (respects clock_le).

Section primitives.
Context {BT : BTreeG} {E : Env}.

Lemma adv_tick : advances tick.
Proof. intros s. unfold clock_le. cbn. lia. Qed.
#[local] Hint Resolve adv_tick : frame.

Lemma adv_now : advances nowMillis.
Proof. unfold nowMillis. frame. Qed.

Lemma adv_range ix : advances (range_ix ix).
Proof. unfold range_ix. frame. Qed.

Lemma adv_fs : advances fs_call.
Proof. unfold fs_call. frame. Qed.

Lemma adv_fsync : advances fsync.
Proof. unfold fsync. frame. Qed.

Lemma adv_open : advances check_open.
Proof. unfold check_open. frame. Qed.

Lemma adv_ttl ttl : advances (resolveTTL ttl).
Proof. unfold resolveTTL, nowMillis. frame. Qed.
End primitives.
#[export] Hint Resolve adv_tick adv_now adv_range adv_fs adv_fsync adv_open adv_ttl : frame.

(** ** Writing *)

Section writing.
Context {BT : BTreeG} {E : Env}.

Lemma adv_appendSync r b : advances (appendSync r b).
Proof. unfold appendSync, append_file. frame. Qed.

Lemma adv_blob_append g v : advances (blob_append g v).
Proof. unfold blob_append, append_file. frame. Qed.

Lemma adv_insertSec k ix : advances (insertSec k ix).
Proof. unfold insertSec. frame. Qed.

Lemma adv_retractSec k : advances (retractSec k).
Proof. unfold retractSec. frame. Qed.
End writing.
#[export] Hint Resolve adv_appendSync adv_blob_append adv_insertSec adv_retractSec : frame.

Section records.
Context {BT : BTreeG} {E : Env}.

Lemma adv_refreshSec k ix : advances (refreshSec k ix).
Proof. unfold refreshSec. frame. Qed.

Lemma adv_deleteLocked k : advances (deleteLocked k).
Proof. unfold deleteLocked, main_append. frame. Qed.

Lemma adv_appendRecord k v ix x d c : advances (appendRecord k v ix x d c).
Proof. unfold appendRecord, blob_flush, refreshSec. frame. Qed.

Lemma adv_build k v ix : advances (buildIndexValues k v ix).
Proof. unfold buildIndexValues. frame. Qed.

Lemma adv_check k ix : advances (checkSelfEviction k ix).
Proof. unfold checkSelfEviction. frame. Qed.

Lemma adv_maybe : advances maybeWriteHint.
Proof. unfold maybeWriteHint. frame. Qed.
End records.
#[export] Hint Resolve adv_refreshSec adv_deleteLocked adv_appendRecord adv_build adv_check adv_maybe : frame.

Section writes.
Context {BT : BTreeG} {E : Env}.

Lemma adv_enforce_one nv : advances (enforce_one nv).
Proof. unfold enforce_one. frame. Qed.
#[local] Hint Resolve adv_enforce_one : frame.

Lemma adv_enforce ix : advances (enforceMaxPerValue ix).
Proof. unfold enforceMaxPerValue. frame. Qed.
#[local] Hint Resolve adv_enforce : frame.

Lemma adv_put k v ix ttl : advances (PutIndexed k v ix ttl).
Proof. unfold PutIndexed, write. frame. Qed.

Lemma adv_delete k : advances (Delete k).
Proof. unfold Delete. frame. Qed.

Lemma adv_expiry i ttl : advances ((if ttl <? 0 then merr (EBatch i ErrInvalidTTL)
  else if 0 <? ttl then now <- nowMillis ;; mok (wrap64 (now + Z.quot ttl millisecond)) else mok 0) : M DB Z).
Proof. frame. Qed.
#[local] Hint Resolve adv_expiry : frame.

Lemma adv_validate items : forall i, advances (validate i items).
Proof. induction items as [|it items IH]; intros i; cbn [validate]; frame. Qed.

Lemma adv_append_all items : forall i, advances (append_all i items).
Proof. induction items as [|[it [ix x]] items IH]; intros i; cbn [append_all]; frame. Qed.

Lemma adv_enforce_pairs l : forall seen, advances (enforce_pairs l seen).
Proof. induction l as [|nv l IH]; intros seen; cbn [enforce_pairs]; frame. Qed.
#[local] Hint Resolve adv_validate adv_append_all adv_enforce_pairs : frame.

Lemma adv_enforce_all ixs : forall seen, advances (enforce_all ixs seen).
Proof. induction ixs as [|ix ixs IH]; intros seen; cbn [enforce_all]; frame. Qed.
#[local] Hint Resolve adv_enforce_all : frame.

Lemma adv_batch items : advances (PutBatch items).
Proof. unfold PutBatch, blob_flush, main_flush. frame. Qed.
End writes.
#[export] Hint Resolve adv_put adv_delete adv_validate adv_expiry adv_batch : frame.

(** ** Hints, the reaper, counters and range deletes *)

Section upkeep.
Context {BT : BTreeG} {E : Env}.

Lemma adv_indexHint es c : advances (writeIndexHint es c).
Proof. unfold writeIndexHint. frame. Qed.
#[local] Hint Resolve adv_indexHint : frame.

Lemma adv_writeHint : advances writeHint.
Proof. unfold writeHint, blob_flush, main_flush. frame. Qed.

Lemma adv_writeHintAsync : advances writeHintAsync.
Proof. unfold writeHintAsync, blob_flush, main_flush. frame. Qed.
#[local] Hint Resolve adv_writeHint adv_writeHintAsync : frame.

Lemma adv_reapAsync e : advances (reapAsync e).
Proof. unfold reapAsync. frame. Qed.
#[local] Hint Resolve adv_reapAsync : frame.

Lemma adv_get_live k : advances (pkGetLive k).
Proof. unfold pkGetLive. frame. Qed.
#[local] Hint Resolve adv_get_live : frame.

Lemma adv_Get k : advances (Get k).
Proof. unfold Get. frame. Qed.

Lemma adv_reap_loop now batch : forall b, advances (reap_loop now batch b).
Proof. induction batch as [|r batch IH]; intros b; cbn [reap_loop]; frame. Qed.
#[local] Hint Resolve adv_reap_loop : frame.

Lemma adv_reap : advances reapCycle.
Proof. unfold reapCycle, reapBatch, main_flush. frame. Qed.

Lemma adv_incrAppend k v x : advances (incrAppend k v x).
Proof. unfold incrAppend. frame. Qed.

Lemma adv_patch off d : advances (patch_at off d).
Proof. unfold patch_at. frame. Qed.
#[local] Hint Resolve adv_incrAppend adv_patch : frame.

Lemma adv_counter {X} k x (step : Z -> X * res (Z * bool)) : advances (counterUpdate k x step).
Proof. unfold counterUpdate. frame. Qed.
#[local] Hint Resolve @adv_counter : frame.

Lemma adv_incr k d ttl : advances (Incr k d ttl).
Proof. unfold Incr. frame. Qed.

Lemma adv_topup k a m ttl : advances (Topup k a m ttl).
Proof. unfold Topup. frame. Qed.

Lemma adv_take k a m ttl : advances (Take k a m ttl).
Proof. unfold Take. frame. Qed.

Lemma adv_remove es : advances (removePkEntries es).
Proof. unfold removePkEntries, main_append. frame. Qed.
#[local] Hint Resolve adv_remove : frame.

Lemma adv_less c : advances (RemoveByPkLess c).
Proof. unfold RemoveByPkLess. frame. Qed.

Lemma adv_greater c : advances (RemoveByPkGreater c).
Proof. unfold RemoveByPkGreater. frame. Qed.

Lemma adv_close : advances Close.
Proof. unfold Close. frame. Qed.
End upkeep.
#[export] Hint Resolve adv_writeHint adv_writeHintAsync adv_Get adv_reap adv_incr adv_topup adv_take adv_less adv_greater adv_close : frame.

(** ** Opening and rewriting *)

Section rewriting.
Context {BT : BTreeG} {E : Env}.

Lemma adv_scan (fn : record -> Z -> Z -> M DB bool) fuel : (forall r o n, advances (fn r o n)) -> forall rest off, advances (scan_loop fuel rest off fn).
Proof. intros Hf. induction fuel as [|fuel IH]; intros rest off; cbn [scan_loop]; frame. Qed.

Lemma adv_replay r o n : advances (replay_record r o n).
Proof. unfold replay_record. frame. Qed.

Lemma adv_load : advances load.
Proof.
  unfold load, replayTail, scanMainLog, load_hint_entry. frame. all: apply adv_scan, adv_replay.
Qed.

Lemma adv_writeMeta idx : advances (writeMeta idx).
Proof. unfold writeMeta. frame. Qed.
#[local] Hint Resolve adv_load adv_writeMeta : frame.

Lemma adv_openMain : advances openMainHandles.
Proof. unfold openMainHandles. frame. Qed.

Lemma adv_openBlobs g : advances (openBlobs g).
Proof. unfold openBlobs. frame. Qed.
#[local] Hint Resolve adv_openMain adv_openBlobs : frame.

Lemma adv_Open opts d t : (t <= db_tick (Open opts d t).2)%nat.
Proof.
  assert (H : advances Open_body) by (unfold Open_body, adoptSchema, open_gen; frame).
  specialize (H (init_db opts d t)). unfold Open. by destruct (Open_body (init_db opts d t)).
Qed.

Lemma adv_build_loop tr now es : (forall r, advances (tr r)) -> forall off idx text, advances (build_loop tr now es off idx text).
Proof. intros Ht. induction es as [|e es IH]; intros off idx text; cbn [build_loop]; frame. Qed.

Lemma adv_swap r br : advances (swapBody r br).
Proof. unfold swapBody, failStop, rebuildSec, retire_blobs. frame. Qed.
#[local] Hint Resolve adv_swap : frame.

Lemma adv_rewrite tr br : (forall r, advances (tr r)) -> advances (rewriteBody tr br).
Proof. intros Ht. unfold rewriteBody, buildRewrite, blob_flush. frame. all: by apply adv_build_loop. Qed.

Lemma adv_compact : advances Compact.
Proof. unfold Compact. frame. apply adv_rewrite. intros r. unfold compactTransform. frame. Qed.

Lemma adv_reindex : advances Reindex.
Proof. unfold Reindex, markReindexed. frame. apply adv_rewrite. intros r. unfold reindexTransform. frame. Qed.

Lemma adv_relieve : advances BlobsRelieve.
Proof.
  unfold BlobsRelieve. frame. all: apply adv_rewrite; intros r; unfold relieveTransform, compactTransform; frame.
Qed.
End rewriting.
#[export] Hint Resolve adv_compact adv_reindex adv_relieve : frame.
