(* ===== verification/TimedMap.v ===== *)
(** * The store as a map whose keys expire

    The specification of a store without capped indexes: a finite map from
    keys to values with expiries, a clock, and for every operation what it
    answers and what the map is afterwards.  Any sequence of operations, with
    restarts, kills and the background hint writer's steps in between, behaves
    like it. *)

From S2P Require Import Prelude Floats Types Counter Json Record BTree PkIndex SecIndex Hint Store SecMaint IndexStep LogSpec Invariant Ops Contents Caps PutProofs Load Recovery CounterProofs RangeProofs Batch BatchProofs Compact CompactProofs RelieveProofs Frame HintInv Crash Clock.
#[local] Open Scope Z_scope.

(** ** The specification *)

(** A key's value, its expiry, and whether it is a counter. *)
Abbreviation tmap := (gmap gostring (gostring * (Z * bool))).

(** An expiry of 0 is none. *)
Definition past (x now : Z) : bool := negb (x =? 0) && (x <=? now).

Definition look (m : tmap) (now : Z) (k : gostring) : option gostring :=
  match m !! k with Some (v, (x, _)) => if past x now then None else Some v | None => None end.

Definition forget (now : Z) (m : tmap) : tmap := filter (fun kv => past kv.2.2.1 now = false) m.

(** The expiry a time to live, in nanoseconds, stands for. *)
Definition deadline (ttl : list Z) (now : Z) : res Z :=
  match ttl with
  | [] => Ok 0
  | [d] => if d <=? 0 then Err ErrInvalidTTL else Ok (wrap64 (now + Z.quot d millisecond))
  | _ => Err ErrInvalidTTL
  end.

(** How often it reads the clock. *)
Definition readings (ttl : list Z) : nat := match ttl with [d] => if d <=? 0 then 0%nat else 1%nat | _ => 0%nat end.

(** The number a counter holds, 0 when the key is absent or has expired; none
    when the key is there and not a counter. *)
Definition counter_at (m : tmap) (now : Z) (k : gostring) : option Z :=
  match m !! k with
  | Some (v, (x, c)) => if past x now then Some 0 else if (c : bool) then parseCounter v else None
  | None => Some 0
  end.

Definition purge (now : Z) (k : gostring) (m : tmap) : tmap :=
  match m !! k with Some (_, (x, _)) => if past x now then delete k m else m | None => m end.

(** A counter that is there keeps its expiry. *)
Definition set_counter (now : Z) (k : gostring) (x n : Z) (m : tmap) : tmap :=
  let x' := match m !! k with Some (_, (x0, _)) => if past x0 now then x else x0 | None => x end in
  <[k := (formatCounter n, (x', true))]> m.

Inductive op :=
  | OPut (key value : gostring) (idx : IndexValues) (ttl : list Z)
  | OBatch (items : list PutItem)
  | OGet (key : gostring)
  | ODelete (key : gostring)
  | OIncr (key : gostring) (delta : Z) (ttl : list Z)
  | OTopup (key : gostring) (amount high : Z) (ttl : list Z)
  | OTake (key : gostring) (amount low : Z) (ttl : list Z)
  | ORemoveLess (cutoff : gostring)
  | ORemoveGreater (cutoff : gostring)
  | OReap
  | OCompact
  | OReindex
  | ORelieve
  | ORestart (opts : Options)
  | OHint                                 (* the background hint writer runs *)
  | OKill (opts : Options) (d : Disk).    (* the process dies and leaves [d]; another opens it *)

Inductive out := OutUnit (r : res unit) | OutInt (r : res Z) | OutBool (r : res bool) | OutValue (r : res (option gostring)).

(** A counter call: the time to live is checked first, then the key must hold a
    counter; [f] says what to answer and what to store. *)
Definition counter_spec {A} (clock : nat -> Z) (ttl : list Z) (key : gostring) (f : Z -> res A * option Z) (m : tmap) (r : res A) (m' : tmap) : Prop :=
  match deadline ttl (clock 0%nat) with
  | Err e => r = Err e /\ m' = m
  | Ok x =>
      let now := clock (readings ttl) in
      match counter_at m now key with
      | None => r = Err ErrNotCounter /\ m' = m
      | Some cur => r = (f cur).1 /\ m' = match (f cur).2 with Some n => set_counter now key x n m | None => purge now key m end
      end
  end.

Definition incr_to (delta cur : Z) : res Z * option Z :=
  if decide (in64 (cur + delta)) then (Ok (cur + delta), Some (cur + delta)) else (Err ErrCounterOverflow, None).

Definition topup_to (amount high cur : Z) : res Z * option Z :=
  let applied := Z.max 0 (Z.min amount (high - cur)) in
  (Ok (amount - applied), if decide (applied = 0) then None else Some (cur + applied)).

Definition take_to (amount low cur : Z) : res bool * option Z :=
  if decide (low <= cur - amount) then (Ok true, Some (cur - amount)) else (Ok false, None).

(** The expiry of an item of a batch. *)
Definition item_deadline (it : PutItem) (now : Z) : Z := if 0 <? pi_TTL it then wrap64 (now + Z.quot (pi_TTL it) millisecond) else 0.

Definition put_items (items : list (PutItem * Z)) (m : tmap) : tmap :=
  fold_left (fun m x => <[pi_Key x.1 := (pi_Value x.1, (x.2, false))]> m) items m.

(** What an operation answers and does; [clock] is the clock's reading at the
    steps of the call. *)
Definition spec (clock : nat -> Z) (o : op) (m : tmap) (r : out) (m' : tmap) : Prop :=
  match o with
  | OPut key value _ ttl =>
      match deadline ttl (clock 0%nat) with
      | Err e => r = OutUnit (Err e) /\ m' = m
      | Ok x => r = OutUnit (Ok tt) /\ m' = <[key := (value, (x, false))]> m
      end
  | OBatch items =>
      r = OutUnit (Ok tt)
      /\ exists xs, Forall2 (fun it x => exists n, x = item_deadline it (clock n)) items xs /\ m' = put_items (zip items xs) m
  | OGet key => r = OutValue (Ok (look m (clock 0%nat) key)) /\ m' = m
  | ODelete key => r = OutUnit (Ok tt) /\ m' = delete key m
  | OIncr key delta ttl => exists a, r = OutInt a /\ counter_spec clock ttl key (incr_to delta) m a m'
  | OTopup key amount high ttl =>
      exists a, r = OutInt a /\ if amount <? 0 then a = Err ErrNegativeAmount /\ m' = m else counter_spec clock ttl key (topup_to amount high) m a m'
  | OTake key amount low ttl =>
      exists a, r = OutBool a /\ if amount <? 0 then a = Err ErrNegativeAmount /\ m' = m else counter_spec clock ttl key (take_to amount low) m a m'
  | ORemoveLess c => r = OutInt (Ok (Z.of_nat (size m) - Z.of_nat (size m'))) /\ m' = filter (fun kv => str_ltb kv.1 c = false) m
  | ORemoveGreater c => r = OutInt (Ok (Z.of_nat (size m) - Z.of_nat (size m'))) /\ m' = filter (fun kv => str_ltb c kv.1 = false) m
  | OReap => r = OutUnit (Ok tt) /\ exists gone, m' = drop_keys gone m /\ Forall (fun k => look m (clock 0%nat) k = None) gone
  | OCompact | OReindex => r = OutUnit (Ok tt) /\ m' = forget (clock 1%nat) m
  | ORelieve => r = OutUnit (Ok tt) /\ m' = forget (clock 3%nat) m
  | ORestart _ | OHint | OKill _ _ => r = OutUnit (Ok tt) /\ m' = m
  end.

(** A history: each operation with its answer, from one map to another.  The
    clock is read a number of times, [now n] at the [n]th, and no operation
    starts before the one before it. *)
Inductive history (now : nat -> Z) : nat -> tmap -> list (op * out) -> tmap -> Prop :=
  | history_nil t m : history now t m [] m
  | history_cons t t' m m1 m2 o r l : (t <= t')%nat ->
      spec (fun n => now (t + n)%nat) o m r m1 -> history now t' m1 l m2 -> history now t m ((o, r) :: l) m2.

(** ** The store *)

Section store.
Context {BT : BTreeG} {BL : BTreeGLaws BT} {E : Env} {EL : EnvLaws E}.
Implicit Types (s : DB) (log : list record) (m : tmap).

Definition answer {A} (f : res A -> out) (x : res A * DB) : out * DB := (f x.1, x.2).

(** A process opens the directory [d]. *)
Definition reopen (opts : Options) (d : Disk) (t : nat) : res unit * DB :=
  match Open opts d t with (Ok s2, _) => (Ok tt, s2) | (Err e, s2) => (Err e, s2) end.

(** A restart closes the store and opens its directory again. *)
Definition restart (opts : Options) s : res unit * DB :=
  match Close s with
  | (Ok _, s1) => reopen opts (db_disk s1) (db_tick s1)
  | (Err e, s1) => (Err e, s1)
  end.

Definition run_op (o : op) s : out * DB :=
  match o with
  | OPut key value idx ttl => answer OutUnit (PutIndexed key value idx ttl s)
  | OBatch items => answer OutUnit (PutBatch items s)
  | OGet key => answer OutValue (Get key s)
  | ODelete key => answer OutUnit (Delete key s)
  | OIncr key delta ttl => answer OutInt (Incr key delta ttl s)
  | OTopup key amount high ttl => answer OutInt (Topup key amount high ttl s)
  | OTake key amount low ttl => answer OutBool (Take key amount low ttl s)
  | ORemoveLess c => answer OutInt (RemoveByPkLess c s)
  | ORemoveGreater c => answer OutInt (RemoveByPkGreater c s)
  | OReap => answer OutUnit (reapCycle s)
  | OCompact => answer OutUnit (Compact s)
  | OReindex => answer OutUnit (Reindex s)
  | ORelieve => answer OutUnit (BlobsRelieve s)
  | ORestart opts => answer OutUnit (restart opts s)
  | OHint => answer OutUnit (writeHintAsync s)
  | OKill opts d => answer OutUnit (reopen opts d (db_tick s))
  end.

Definition declares_uncapped (opts : Options) : Prop :=
  exists sec, declare (o_Indexes opts) ∅ = Ok sec /\ map_Forall (fun _ si => si_max si <= 0) sec.

(** What an operation needs: the index values of a write build, what is written
    fits its fields, a killed process leaves the log with a torn tail, and a
    reopened store declares no capped index. *)
Definition op_ok s (o : op) : Prop :=
  match o with
  | OPut key value idx ttl =>
      forall exp t, (resolveTTL ttl s).1 = Ok exp ->
        exists ix, (buildIndexValues key value idx (set_tick t s)).1 = Ok ix /\ write_fits s key value ix exp false
  | OBatch items => exists ies s1, validate 0 items s = (Ok ies, s1) /\ batch_fits s1 (zip items ies)
  | OGet _ | ODelete _ | OReap => True
  | OIncr key delta ttl => in64 delta /\ forall exp, (resolveTTL ttl s).1 = Ok exp -> counters_fit s key exp
  | OTopup key amount bound ttl | OTake key amount bound ttl =>
      amount <= MaxInt64 /\ in64 bound /\ forall exp, (resolveTTL ttl s).1 = Ok exp -> counters_fit s key exp
  | ORemoveLess c => range_fits s (fun k => str_ltb k c)
  | ORemoveGreater c => range_fits s (fun k => str_ltb c k)
  | OCompact => rewrite_fits (compacted s)
  | OReindex => (exists log, Inv s log /\ extracts_ok s log) /\ NoDup (d_Name <$> o_Indexes (db_opts s)) /\ rewrite_fits (reindexed s)
  | ORelieve => db_blobs s !! (db_curGen s + 1) = None /\ in64 (db_curGen s + 1)
      /\ rewrite_fits (relieve_result s).1 /\ zlen (relieve_result s).2 <= MaxInt64
  | ORestart opts => gens_ok (db_disk s) /\ Forall hint_entry_ok (pk_scan (db_pk s)) /\ in64 (db_size s) /\ declares_uncapped opts
  | OHint => snap_fits s
  | OKill opts d => survives (db_disk s) d /\ declares_uncapped opts
  end.

(** The store is open, has no capped index, its hint is right, and it holds the
    map [m]. *)
Definition holds s m : Prop := (exists log, Inv s log) /\ db_closed s = false /\ uncapped s /\ hint_inv s /\ dated s = m.

(** *** The map of a store *)

Lemma dated_lookup s k : dated s !! k = match contents s !! k, tags s !! k with Some v, Some x => Some (v, x) | _, _ => None end.
Proof. unfold dated. rewrite map_lookup_zip_with. by destruct (contents s !! k), (tags s !! k). Qed.

Lemma both_dom s log k : Inv s log -> is_Some (tags s !! k) <-> is_Some (contents s !! k).
Proof. intros HI. rewrite (tags_dom s log k HI). symmetry. by apply (contents_dom s log). Qed.

Lemma dated_key s log k : Inv s log -> is_Some (dated s !! k) <-> is_Some (contents s !! k).
Proof.
  intros HI. pose proof (both_dom s log k HI) as H. rewrite dated_lookup. destruct (contents s !! k), (tags s !! k); split; intros [? ?]; try done; eauto.
  - destruct (proj2 H ltac:(eauto)) as [? ?]. done.
Qed.

Lemma dated_insert s s' k v x : contents s' = <[k := v]> (contents s) -> tags s' = <[k := x]> (tags s) ->
  dated s' = <[k := (v, x)]> (dated s).
Proof. intros Hc Hx. unfold dated. rewrite Hc, Hx. symmetry. apply (map_insert_zip_with pair). Qed.

Lemma dated_delete s s' k : contents s' = delete k (contents s) -> tags s' = delete k (tags s) -> dated s' = delete k (dated s).
Proof. intros Hc Hx. unfold dated. rewrite Hc, Hx. symmetry. apply (map_delete_zip_with pair). Qed.

Lemma dated_same s s' : contents s' = contents s -> tags s' = tags s -> dated s' = dated s.
Proof. intros Hc Hx. unfold dated. by rewrite Hc, Hx. Qed.

Lemma dated_drop s s' gone : contents s' = drop_keys gone (contents s) -> tags s' = drop_keys gone (tags s) ->
  dated s' = drop_keys gone (dated s).
Proof.
  intros Hc Hx. apply map_eq. intros k. rewrite lookup_drop_keys, !dated_lookup, Hc, Hx, !lookup_drop_keys. by case_decide.
Qed.

Lemma past_expired s log now k : Inv s log -> expired_at s now k = match tags s !! k with Some (x, _) => past x now | None => false end.
Proof.
  intros HI. pose proof (tags_exp s log k HI) as H. unfold expired_at. destruct (live s !! k), (tags s !! k) as [[x b]|]; try done.
  by injection H as ->.
Qed.

Lemma look_visible s log now k : Inv s log -> look (dated s) now k = visible s now k.
Proof.
  intros HI. unfold look, visible. rewrite (past_expired s log), dated_lookup by done. pose proof (both_dom s log k HI) as H.
  destruct (contents s !! k), (tags s !! k) as [[x b]|]; try done; [destruct (proj2 H ltac:(eauto)) as [? ?]; done|by destruct (past _ _)].
Qed.

(** A rewrite forgets what has expired. *)
Lemma dated_forget s s' log now : Inv s log -> contents s' = unexpired s now -> keeps_tags s s' now -> dated s' = forget now (dated s).
Proof.
  intros HI Hc Hx. apply map_eq. intros k. unfold forget. rewrite map_lookup_filter, !dated_lookup, Hc, (Hx k). unfold unexpired.
  rewrite (lookup_keep (expired_at s now)), (past_expired s log) by done. destruct (tags s !! k) as [[x b]|]; [|by destruct (contents s !! k)].
  destruct (past x now) eqn:Hp, (contents s !! k); cbn; try done; [by rewrite option_guard_False by (cbn; congruence)|by rewrite option_guard_True].
Qed.

(** *** Times to live *)

Lemma resolveTTL_deadline ttl s :
  resolveTTL ttl s = (deadline ttl (env_now (db_tick s)), set_tick (db_tick s + readings ttl) s).
Proof.
  unfold resolveTTL, deadline, readings. destruct ttl as [|d [|]].
  - rewrite Nat.add_0_r. by destruct s.
  - destruct (d <=? 0); [rewrite Nat.add_0_r; by destruct s|]. unfold nowMillis, tick, mbnd, mok. by rewrite Nat.add_1_r.
  - rewrite Nat.add_0_r. by destruct s.
Qed.

Lemma validate_deadlines items : forall i s ies s1, validate i items s = (Ok ies, s1) ->
  Forall2 (fun it x => exists n, x = item_deadline it (env_now (db_tick s + n))) items ies.*2.
Proof.
  induction items as [|it items IH]; intros i s ies s1; cbn [validate]; [intros [= <- <-]; constructor|].
  pose proof (res_item (R := clock_le) i _ (adv_build (pi_Key it) (pi_Value it) (pi_IX it)) s) as T1.
  unfold mbnd at 1. destruct (at_item i (buildIndexValues _ _ _) s) as [[ix|] s2]; [|done].
  pose proof (res_item (R := clock_le) i _ (adv_check (pi_Key it) ix) s2) as T2.
  unfold mbnd at 1. destruct (at_item i (checkSelfEviction _ _) s2) as [[[]|] s3]; [|done]. cbn [snd] in *.
  unfold mbnd at 1. pose proof (adv_expiry i (pi_TTL it) s3) as T3.
  match goal with |- context [match ?b with _ => _ end = _] => destruct b as [[x|] s4] eqn:Hx end; [|done]. cbn [snd] in *.
  unfold mbnd at 1. destruct (validate (i + 1) items s4) as [[rest|] s5] eqn:Hr; [|done]. intros [= <- <-].
  unfold clock_le in *. cbn. constructor.
  - unfold item_deadline. destruct (pi_TTL it <? 0) eqn:Hneg; [done|]. destruct (0 <? pi_TTL it); [|injection Hx as <- _; by exists 0%nat].
    unfold nowMillis, tick, mbnd, mok in Hx. injection Hx as <- _. exists (db_tick s3 - db_tick s)%nat.
    by replace (db_tick s + (db_tick s3 - db_tick s))%nat with (db_tick s3) by lia.
  - eapply Forall2_impl; [by eapply IH|]. intros it' x' [n ->]. exists (db_tick s4 - db_tick s + n)%nat.
    by replace (db_tick s + (db_tick s4 - db_tick s + n))%nat with (db_tick s4 + n)%nat by lia.
Qed.

Lemma put_items_dated items : forall (ies : list (IndexValues * Z)) (mc : gmap gostring gostring) (mx : gmap gostring (Z * bool)), length ies = length items ->
  map_zip (put_all items mc) (put_tags (zip items ies) mx) = put_items (zip items ies.*2) (map_zip mc mx).
Proof.
  induction items as [|it items IH]; intros [|[ix x] ies] mc mx Hl; try done. cbn. injection Hl as Hl.
  unfold put_all, put_tags, put_items in *. cbn. rewrite IH by done. f_equal. symmetry. apply (map_insert_zip_with pair).
Qed.

(** *** Every operation *)

(** The operation runs, answers as the specification says, and leaves a store
    that holds the map the specification says. *)
Definition refines s (o : op) : Prop :=
  exists r s' m', run_op o s = (r, s') /\ spec (fun n => env_now (db_tick s + n)) o (dated s) r m' /\ holds s' m'.

Lemma uncapped_decl s s' : same_decl s s' -> db_closed s = false -> uncapped s -> db_closed s' = false /\ uncapped s'.
Proof. intros (_ & Hd & Hc) Hcl Hu. split; [congruence|]. by apply (uncapped_keeps s). Qed.

Lemma holds_step s s' log' : Inv s' log' -> same_decl s s' -> db_closed s = false -> uncapped s -> hint_inv s' -> holds s' (dated s').
Proof. intros HI Hd Hcl Hu Hh. destruct (uncapped_decl s s' Hd Hcl Hu). by split; [eauto|]. Qed.

Lemma holds_grows s s' log' : Inv s' log' -> grows s s' -> db_closed s = false -> uncapped s -> hint_inv s' -> holds s' (dated s').
Proof. intros HI Hg. by apply (holds_step s s' log'), grows_decl. Qed.

(** A call that appends and may hand over a snapshot. *)
Lemma holds_ends {A} (m : M DB A) s r s' log' : ends m -> m s = (r, s') -> Inv s' log' -> grows s s' -> db_closed s = false -> uncapped s ->
  hint_inv s -> holds s' (dated s').
Proof. intros Hm Hrun HI Hg Hcl Hu Hh. apply (holds_grows s s' log'); try done. by apply (ends_kept m s r s' log'). Qed.

Lemma holds_same s log : Inv s log -> db_closed s = false -> uncapped s -> hint_inv s -> holds s (dated s).
Proof. intros HI Hcl Hu Hh. by apply (holds_step s s log). Qed.

Lemma uncapped_self s key l : uncapped s -> self_evicted (db_sec s) key l = Ok tt.
Proof.
  intros Hu. induction l as [|[name v] l IH]; cbn [self_evicted]; [done|].
  destruct (db_sec s !! name) as [si|] eqn:Hsi; [|done]. by rewrite (proj2 (Z.leb_le _ _) (Hu name si Hsi)).
Qed.

Lemma put_refines s log key value idx ttl : no_faults E -> Inv s log -> db_closed s = false -> uncapped s -> hint_inv s ->
  op_ok s (OPut key value idx ttl) -> refines s (OPut key value idx ttl).
Proof.
  intros Hnf HI Hcl Hu Hh Hok. unfold refines. cbn [run_op spec op_ok] in *. rewrite Nat.add_0_r.
  rewrite resolveTTL_deadline in Hok. cbn [fst] in Hok. destruct (PutIndexed key value idx ttl s) as [r s'] eqn:Hrun.
  pose proof (resolveTTL_deadline ttl s) as Ht. destruct (deadline ttl (env_now (db_tick s))) as [exp|e] eqn:Hd; last first.
  { unfold PutIndexed in Hrun. rewrite (mbnd_err _ _ _ _ _ Ht) in Hrun. injection Hrun as <- <-.
    eexists _, _, (dated s). split; [done|]. split; [done|]. by apply (holds_step s _ log HI). }
  assert (Hfit : forall t ix, (buildIndexValues key value idx (set_tick t s)).1 = Ok ix -> write_fits s key value ix exp false).
  { intros t ix Hb. destruct (Hok exp t eq_refl) as (ix' & Hb' & Hf). congruence. }
  assert (Hexp : (resolveTTL ttl s).1 = Ok exp) by (by rewrite Ht).
  destruct (PutIndexed_outcome s log key value idx ttl exp r s' (no_faults_clean E Hnf) HI (uncapped_caps s Hu) Hexp Hfit Hrun)
    as [(e & t & -> & -> & Hw)|(ix & gone & log' & HI' & Hg & _ & Hcase & Hres & Hno)].
  { exfalso. destruct (Hw Hcl) as [[t' Hb]|(ix & l & _ & Hse)].
    - destruct (Hok exp t' eq_refl) as (ix' & Hb' & _). congruence.
    - by rewrite uncapped_self in Hse. }
  rewrite (Hno Hu), !drop_keys_nil in Hcase. destruct Hres as [[-> _]|Hf]; [|by destruct (no_faults_failed E r Hnf)].
  destruct Hcase as [(Hc & _ & Hx)|(_ & _ & Hf)]; [|by destruct (no_faults_failed E _ Hnf Hf)].
  eexists _, _, _. split; [done|]. split; [split; [done|]; by apply dated_insert|]. by apply (holds_ends _ s _ s' log' (ends_put _ _ _ _) Hrun).
Qed.

Lemma batch_refines s log items : no_faults E -> Inv s log -> db_closed s = false -> uncapped s -> hint_inv s -> op_ok s (OBatch items) -> refines s (OBatch items).
Proof.
  intros Hnf HI Hcl Hu Hh (ies & s1 & Hv & Hfit). unfold refines. cbn [run_op spec].
  pose proof (PutBatch_run s log items Hnf HI Hcl) as H. rewrite Hv in H.
  destruct (H Hfit) as (s' & log' & gone & Hrun & HI' & Hc & Hno & Hx & Hg). rewrite (Hno Hu), drop_keys_nil in Hc. rewrite (Hno Hu), drop_keys_nil in Hx.
  pose proof (validate_deadlines items 0 s ies s1 Hv) as Hdl.
  rewrite Hrun. eexists _, _, _. split; [done|]. split; [|by apply (holds_ends _ s _ s' log' (ends_batch _) Hrun)].
  split; [done|]. exists ies.*2. split; [done|]. unfold dated. rewrite Hc, Hx. apply put_items_dated.
  apply Forall2_length in Hdl. by rewrite length_fmap in Hdl.
Qed.

Lemma get_refines s log key : Inv s log -> db_closed s = false -> uncapped s -> hint_inv s -> refines s (OGet key).
Proof.
  intros HI Hcl Hu Hh. unfold refines. cbn [run_op spec]. rewrite Nat.add_0_r, (look_visible s log) by done.
  destruct (read_run s log key HI) as (t & q & _ & Hr). unfold Get, answer. rewrite (open_bnd (fun _ => _)), Hr by done.
  eexists _, _, (dated s). split; [done|]. split; [done|]. by apply (holds_step s _ log HI).
Qed.

Lemma delete_refines s log key : no_faults E -> Inv s log -> db_closed s = false -> uncapped s -> hint_inv s -> refines s (ODelete key).
Proof.
  intros Hnf HI Hcl Hu Hh. unfold refines. cbn [run_op spec]. destruct (Delete key s) as [r s'] eqn:Hrun.
  destruct (Delete_run s log key r s' (no_faults_clean E Hnf) HI Hcl Hrun) as (log' & HI' & Hg & [(-> & Hc & Hx)|(Hf & _)]);
    [|by destruct (no_faults_failed E _ Hnf Hf)].
  eexists _, _, _. split; [done|]. split; [split; [done|]; by apply dated_delete|]. by apply (holds_ends _ s _ s' log' (ends_delete _) Hrun).
Qed.

(** *** Counters *)

Lemma cur_spec s log now key : Inv s log ->
  match cur_of s now key with
  | Ok cur => counter_at (dated s) now key = Some cur
  | Err e => e = ErrNotCounter /\ counter_at (dated s) now key = None
  end.
Proof.
  intros HI. pose proof HI as (_ & _ & _ & Ha & (Hpk & _) & _). unfold cur_of, counter_at.
  rewrite dated_lookup, (contents_lookup s log key HI), (tags_lookup s log key HI).
  destruct (live s !! key) as [e|] eqn:He; last by (specialize (Ha key); rewrite He in Ha; inversion Ha).
  assert (Hk : e_key e = key) by (by apply (pk_map_key (db_pk s))).
  destruct (live_record s log e HI) as (off & r & Hl & (_ & _ & _ & Hx & _) & Hrd); [apply pk_scan_elem; [done|]; by rewrite Hk|]. rewrite Hk in Hl. rewrite Hl. cbn.
  change (expiredAt e now) with (past (e_exp e) now). rewrite Hx. cbn [snd]. destruct (past (r_Exp r) now); [done|]. rewrite Hrd. cbn [res_bind norm_record with_ix r_Blob r_Counter r_Value].
  unfold value_of, is_counter. destruct (r_Blob r); [by rewrite andb_false_r|]. cbn [orb]. destruct (r_Counter r); [|by split]. cbn [negb andb].
  by destruct (parseCounter (r_Value r)).
Qed.

Lemma stored_dated s log now key x n s' : Inv s log -> counter_stored s now key x n s' -> dated s' = set_counter now key x n (dated s).
Proof.
  intros HI [Hc Hx]. rewrite (dated_insert s s' _ _ _ Hc Hx). unfold set_counter, exp_after. f_equal. f_equal. rewrite dated_lookup.
  pose proof (both_dom s log key HI) as Hd. pose proof (tags_exp s log key HI) as Ht.
  destruct (live s !! key) as [e|], (tags s !! key) as [[y b]|]; try done; cbn in *.
  - injection Ht as ->. destruct (proj1 Hd ltac:(eauto)) as [v ->]. done.
  - by destruct (contents s !! key).
Qed.

Lemma kept_dated s log now key s' : Inv s log -> counter_kept s now key s' -> dated s' = purge now key (dated s).
Proof.
  intros HI [Hc Hx]. unfold purged, purged_tags in *. unfold purge. rewrite dated_lookup. rewrite !(past_expired s log) in * by done.
  pose proof (both_dom s log key HI) as Hd. destruct (tags s !! key) as [[x b]|]; [|by destruct (contents s !! key); apply dated_same].
  destruct (proj1 Hd ltac:(eauto)) as [v ->]. destruct (past x now); [by apply dated_delete|by apply dated_same].
Qed.

(** A counter call that read the current value and acted on it. *)
Lemma counter_holds {A} s log key ttl exp (f : Z -> res A * option Z) (a : res A) s' log' :
  Inv s log -> db_closed s = false -> uncapped s -> deadline ttl (env_now (db_tick s)) = Ok exp -> Inv s' log' -> grows s s' -> hint_inv s' ->
  match cur_of s (now_after ttl s) key with
  | Err e => a = Err e /\ contents s' = contents s /\ tags s' = tags s
  | Ok cur => a = (f cur).1 /\ match (f cur).2 with
                              | Some n => counter_stored s (now_after ttl s) key exp n s'
                              | None => counter_kept s (now_after ttl s) key s'
                              end
  end ->
  counter_spec (fun n => env_now (db_tick s + n)) ttl key f (dated s) a (dated s') /\ holds s' (dated s').
Proof.
  intros HI Hcl Hu Hd HI' Hg Hh' Hout. split; [|by apply (holds_grows s s' log')].
  assert (Hnow : now_after ttl s = env_now (db_tick s + readings ttl)) by (unfold now_after; by rewrite resolveTTL_deadline).
  rewrite Hnow in Hout. unfold counter_spec. rewrite Nat.add_0_r, Hd. pose proof (cur_spec s log (env_now (db_tick s + readings ttl)) key HI) as Hcur.
  destruct (cur_of s (env_now (db_tick s + readings ttl)) key) as [cur|e] eqn:Hco.
  - rewrite Hcur. destruct Hout as [-> Hout]. split; [done|]. destruct (f cur).2; [by apply (stored_dated s log)|by apply (kept_dated s log)].
  - destruct Hout as (-> & Hc & Hx). destruct Hcur as [-> ->]. split; [done|]. by apply dated_same.
Qed.

(** One whose time to live is refused does nothing. *)
Lemma counter_refused {A} s log key ttl e (f : Z -> res A * option Z) (k : Z -> M DB A) :
  Inv s log -> db_closed s = false -> uncapped s -> hint_inv s -> deadline ttl (env_now (db_tick s)) = Err e ->
  exists s', (x <- resolveTTL ttl ;; k x) s = (Err e, s')
    /\ counter_spec (fun n => env_now (db_tick s + n)) ttl key f (dated s) (Err e) (dated s) /\ holds s' (dated s).
Proof.
  intros HI Hcl Hu Hh Hd. pose proof (resolveTTL_deadline ttl s) as Ht. rewrite Hd in Ht. eexists. split; [by rewrite (mbnd_err _ _ _ _ _ Ht)|].
  split; [|by apply (holds_step s _ log HI)]. unfold counter_spec. by rewrite Nat.add_0_r, Hd.
Qed.

Lemma incr_refines s log key delta ttl : no_faults E -> Inv s log -> db_closed s = false -> uncapped s -> hint_inv s ->
  op_ok s (OIncr key delta ttl) -> refines s (OIncr key delta ttl).
Proof.
  intros Hnf HI Hcl Hu Hh [Hdl Hfit]. unfold refines. cbn [run_op spec]. rewrite resolveTTL_deadline in Hfit. cbn [fst] in Hfit.
  destruct (deadline ttl (env_now (db_tick s))) as [exp|e] eqn:Hd; last first.
  { destruct (counter_refused s log key ttl e (incr_to delta) (fun x => check_open ;;; r <- counterUpdate key x (fun cur => (tt, incr_step delta cur)) ;; mok r.1.2)
      HI Hcl Hu Hh Hd) as (s' & Hrun & Hs & Hs'). unfold Incr. rewrite Hrun. eexists _, _, _. split; [done|]. split; [by exists (Err e)|done]. }
  assert (Hexp : (resolveTTL ttl s).1 = Ok exp) by (by rewrite resolveTTL_deadline).
  destruct (Incr_run s log key delta ttl exp Hnf HI Hcl Hexp (Hfit exp eq_refl) Hdl) as (a & s' & log' & -> & HI' & Hg & Hout & Hhi).
  destruct (counter_holds s log key ttl exp (incr_to delta) a s' log' HI Hcl Hu Hd HI' Hg (Hhi Hh)) as [Hs Hs'].
  { unfold incr_to. destruct (cur_of s (now_after ttl s) key); [|done]. by case_decide. }
  eexists _, _, _. split; [done|]. split; [by exists a|done].
Qed.

Lemma topup_refines s log key amount high ttl : no_faults E -> Inv s log -> db_closed s = false -> uncapped s -> hint_inv s ->
  op_ok s (OTopup key amount high ttl) -> refines s (OTopup key amount high ttl).
Proof.
  intros Hnf HI Hcl Hu Hh (Ham & Hh64 & Hfit). unfold refines. cbn [run_op spec]. rewrite resolveTTL_deadline in Hfit. cbn [fst] in Hfit.
  unfold Topup at 1. destruct (amount <? 0) eqn:Hneg.
  { eexists _, _, (dated s). split; [done|]. split; [by eexists|]. by apply (holds_step s _ log HI). }
  destruct (deadline ttl (env_now (db_tick s))) as [exp|e] eqn:Hd; last first.
  { destruct (counter_refused s log key ttl e (topup_to amount high)
      (fun x => check_open ;;; r <- counterUpdate key x (fun cur => (topup_overflow amount high cur, topup_step amount high cur)) ;; mok r.1.1)
      HI Hcl Hu Hh Hd) as (s' & Hrun & Hs & Hs'). rewrite Hrun. eexists _, _, _. split; [done|]. split; [by exists (Err e)|done]. }
  assert (Hexp : (resolveTTL ttl s).1 = Ok exp) by (by rewrite resolveTTL_deadline).
  destruct (Topup_run s log key amount high ttl exp Hnf HI Hcl Hexp (Hfit exp eq_refl) ltac:(lia) Hh64) as (a & s' & log' & Hrun & HI' & Hg & Hout & Hhi).
  unfold Topup in Hrun. rewrite Hneg in Hrun. rewrite Hrun.
  destruct (counter_holds s log key ttl exp (topup_to amount high) a s' log' HI Hcl Hu Hd HI' Hg (Hhi Hh)) as [Hs Hs'].
  { unfold topup_to. destruct (cur_of s (now_after ttl s) key); [|done]. cbv zeta in Hout |- *. cbn [fst snd]. by case_decide. }
  eexists _, _, _. split; [done|]. split; [by exists a|done].
Qed.

Lemma take_refines s log key amount low ttl : no_faults E -> Inv s log -> db_closed s = false -> uncapped s -> hint_inv s ->
  op_ok s (OTake key amount low ttl) -> refines s (OTake key amount low ttl).
Proof.
  intros Hnf HI Hcl Hu Hh (Ham & Hh64 & Hfit). unfold refines. cbn [run_op spec]. rewrite resolveTTL_deadline in Hfit. cbn [fst] in Hfit.
  unfold Take at 1. destruct (amount <? 0) eqn:Hneg.
  { eexists _, _, (dated s). split; [done|]. split; [by eexists|]. by apply (holds_step s _ log HI). }
  destruct (deadline ttl (env_now (db_tick s))) as [exp|e] eqn:Hd; last first.
  { destruct (counter_refused s log key ttl e (take_to amount low)
      (fun x => check_open ;;; r <- counterUpdate key x (fun cur => (tt, take_step amount low cur)) ;; mok r.2)
      HI Hcl Hu Hh Hd) as (s' & Hrun & Hs & Hs'). rewrite Hrun. eexists _, _, _. split; [done|]. split; [by exists (Err e)|done]. }
  assert (Hexp : (resolveTTL ttl s).1 = Ok exp) by (by rewrite resolveTTL_deadline).
  destruct (Take_run s log key amount low ttl exp Hnf HI Hcl Hexp (Hfit exp eq_refl) ltac:(lia) Hh64) as (a & s' & log' & Hrun & HI' & Hg & Hout & Hhi).
  unfold Take in Hrun. rewrite Hneg in Hrun. rewrite Hrun.
  destruct (counter_holds s log key ttl exp (take_to amount low) a s' log' HI Hcl Hu Hd HI' Hg (Hhi Hh)) as [Hs Hs'].
  { unfold take_to. destruct (cur_of s (now_after ttl s) key); [|done]. by case_decide. }
  eexists _, _, _. split; [done|]. split; [by exists a|done].
Qed.

(** *** Range deletes, the reaper, rewrites and restarts *)

Lemma dated_size s log : Inv s log -> size (dated s) = size (contents s).
Proof.
  intros HI. rewrite <- !size_dom. f_equal. apply set_eq. intros k. rewrite !elem_of_dom. by apply (dated_key s log).
Qed.

Lemma dated_filter s s' (p : gostring -> bool) : contents s' = filter (fun kv => p kv.1 = false) (contents s) ->
  tags s' = filter (fun kv => p kv.1 = false) (tags s) -> dated s' = filter (fun kv => p kv.1 = false) (dated s).
Proof.
  intros Hc Hx. apply map_eq. intros k. rewrite (lookup_keep p), !dated_lookup, Hc, Hx, !(lookup_keep p). by destruct (p k).
Qed.

Lemma range_holds s log p : no_faults E -> Inv s log -> db_closed s = false -> uncapped s -> hint_inv s -> range_fits s p ->
  exists s', removePkEntries (doomed_by p s) s = (Ok (Z.of_nat (size (dated s)) - Z.of_nat (size (dated s'))), s')
    /\ dated s' = filter (fun kv => p kv.1 = false) (dated s) /\ holds s' (dated s').
Proof.
  intros Hnf HI Hcl Hu Hh Hfit. destruct (remove_by_run s log p Hnf HI Hfit) as (s' & log' & Hrun & HI' & Hc & Hx & Hg & Hn & Hhi).
  exists s'. rewrite (dated_size s log HI), (dated_size s' log' HI'), <- Hn. split; [done|]. split; [by apply dated_filter|].
  apply (holds_grows s s' log'); auto.
Qed.

Lemma less_refines s log c : no_faults E -> Inv s log -> db_closed s = false -> uncapped s -> hint_inv s -> op_ok s (ORemoveLess c) -> refines s (ORemoveLess c).
Proof.
  intros Hnf HI Hcl Hu Hh Hfit. pose proof HI as (_ & _ & _ & _ & (Hpk & _) & _). unfold refines. cbn [run_op spec].
  destruct (range_holds s log (fun k => str_ltb k c) Hnf HI Hcl Hu Hh Hfit) as (s' & Hrun & Hd & Hs').
  unfold RemoveByPkLess. rewrite (open_bnd (fun _ => _)), mget_bnd, less_doomed, Hrun by done. by eexists _, _, _.
Qed.

Lemma greater_refines s log c : no_faults E -> Inv s log -> db_closed s = false -> uncapped s -> hint_inv s -> op_ok s (ORemoveGreater c) -> refines s (ORemoveGreater c).
Proof.
  intros Hnf HI Hcl Hu Hh Hfit. pose proof HI as (_ & _ & _ & _ & (Hpk & _) & _). unfold refines. cbn [run_op spec].
  destruct (range_holds s log (fun k => str_ltb c k) Hnf HI Hcl Hu Hh Hfit) as (s' & Hrun & Hd & Hs').
  unfold RemoveByPkGreater. rewrite (open_bnd (fun _ => _)), mget_bnd, greater_doomed, Hrun by done. by eexists _, _, _.
Qed.

Lemma reap_refines s log : no_faults E -> Inv s log -> db_closed s = false -> uncapped s -> hint_inv s -> refines s OReap.
Proof.
  intros Hnf HI Hcl Hu Hh. unfold refines. cbn [run_op spec]. destruct (reapCycle s) as [r s'] eqn:Hrun.
  destruct (reapCycle_run s log r s' (no_faults_clean E Hnf) HI Hrun) as (log' & HI' & -> & (gone & Hc & _ & Ht & HF) & Hg).
  eexists _, _, _. split; [done|]. split; [split; [done|]|by apply (holds_ends _ s _ s' log' ends_reap Hrun)].
  exists gone. split; [by apply dated_drop|].
  eapply Forall_impl; [exact HF|]. cbn. intros k Hk. rewrite Nat.add_0_r, (look_visible s log _ _ HI). unfold visible. by rewrite Hk.
Qed.

Lemma rewrite_holds s s' log log' now : Inv s log -> Inv s' log' -> db_closed s = false -> uncapped s -> contents s' = unexpired s now -> keeps_tags s s' now ->
  same_decl s s' -> hint_inv s' -> dated s' = forget now (dated s) /\ holds s' (dated s').
Proof. intros HI HI' Hcl Hu Hc Hx Hd Hh. split; [by apply (dated_forget s s' log)|]. by apply (holds_step s s' log'). Qed.

Lemma compact_refines s log : no_faults E -> Inv s log -> db_closed s = false -> uncapped s -> hint_inv s -> op_ok s OCompact -> refines s OCompact.
Proof.
  intros Hnf HI Hcl Hu Hh Hfit. unfold refines. cbn [run_op spec]. rewrite Nat.add_1_r.
  destruct (compact_run s log Hnf HI Hcl Hfit) as (s' & -> & HI' & Hc & _ & _ & _ & Hd & Hx & Hhi).
  destruct (rewrite_holds s s' log _ _ HI HI' Hcl Hu Hc Hx Hd (Hhi Hh)) as [H1 H2]. by eexists _, _, _.
Qed.

Lemma reindex_refines s : no_faults E -> db_closed s = false -> uncapped s -> hint_inv s -> op_ok s OReindex -> refines s OReindex.
Proof.
  intros Hnf Hcl Hu Hh ((log & HI & Hex) & Hnd & Hfit). unfold refines. cbn [run_op spec]. rewrite Nat.add_1_r.
  destruct (reindex_run s log Hnf HI Hcl Hex Hnd Hfit) as (s' & -> & HI' & Hc & _ & Hd & Hx & Hhi & _).
  destruct (rewrite_holds s s' log _ _ HI HI' Hcl Hu Hc Hx Hd (Hhi Hh)) as [H1 H2]. by eexists _, _, _.
Qed.

Lemma relieve_refines s log : no_faults E -> Inv s log -> db_closed s = false -> uncapped s -> hint_inv s -> op_ok s ORelieve -> refines s ORelieve.
Proof.
  intros Hnf HI Hcl Hu Hh (Hn & H64 & Hfit & Hmax). unfold refines. cbn [run_op spec].
  destruct (relieve_run s log Hnf HI Hcl Hn H64 Hfit Hmax) as (s' & -> & HI' & Hc & _ & _ & _ & _ & Hd & Hx & Hhi).
  replace (db_tick s + 3)%nat with (S (S (S (db_tick s)))) by lia.
  destruct (rewrite_holds s s' log _ _ HI HI' Hcl Hu Hc Hx Hd (Hhi Hh)) as [H1 H2]. by eexists _, _, _.
Qed.

(** Opening what the store left, or what a killed process left of it. *)
Lemma reopen_holds s s1 log d opts t : no_faults E -> Inv s log -> Inv s1 log -> hint_right (db_disk s1) -> survives (db_disk s1) d ->
  declares_uncapped opts -> contents s1 = contents s -> tags s1 = tags s ->
  exists s2, reopen opts d t = (Ok tt, s2) /\ holds s2 (dated s).
Proof.
  intros Hnf HI HI1 Hr Hs (sec & Hd & Hcap) Hc Hx.
  destruct (reopen_run s1 log d opts sec t Hnf HI1 Hr Hs Hd) as (s2 & log2 & H2 & HI2 & Hh2 & Hc2 & Hx2 & Hcl2 & Hdecl).
  exists s2. unfold reopen. rewrite H2. split; [done|]. split; [eauto|]. split; [done|]. split; [|split; [done|]].
  - by apply (uncapped_keeps (set_sec sec s2)).
  - apply dated_same; congruence.
Qed.

Lemma restart_refines s log opts : no_faults E -> Inv s log -> db_closed s = false -> uncapped s -> hint_inv s -> op_ok s (ORestart opts) -> refines s (ORestart opts).
Proof.
  intros Hnf HI Hcl Hu Hh (Hg & He & Hsz & Hd). unfold refines. cbn [run_op spec]. unfold restart.
  destruct (Close_run s Hnf Hcl He Hsz) as (s1 & -> & Ho & Hl). pose proof (hint_only_Inv _ s1 log Ho HI) as HI1.
  destruct (reopen_holds s s1 log (db_disk s1) opts (db_tick s1) Hnf HI HI1) as (s2 & -> & Hh2); try done; [..|by eexists _, _, _].
  - apply (hint_right_written _ (db_pk s) (db_size s)); [done..|]. by destruct Ho as (h & g & i & t & w & ->); apply (Inv_covered s log).
  - apply survives_refl. by destruct Ho as (h & g & i & t & w & ->).
  - by destruct Ho as (h & g & i & t & w & ->).
  - by destruct Ho as (h & g & i & t & w & ->).
Qed.

Lemma kill_refines s log opts d : no_faults E -> Inv s log -> hint_inv s -> op_ok s (OKill opts d) -> refines s (OKill opts d).
Proof.
  intros Hnf HI [Hh _] [Hs Hd]. unfold refines. cbn [run_op spec].
  destruct (reopen_holds s s log d opts (db_tick s) Hnf HI HI Hh Hs Hd eq_refl eq_refl) as (s2 & -> & Hh2). by eexists _, _, _.
Qed.

Lemma hint_refines s log : no_faults E -> Inv s log -> db_closed s = false -> uncapped s -> hint_inv s -> op_ok s OHint -> refines s OHint.
Proof.
  intros Hnf HI Hcl Hu Hh Hfit. unfold refines. cbn [run_op spec].
  destruct (writeHintAsync_inv s log Hnf HI Hfit Hh) as (s' & -> & Ho & Hh'). pose proof (hint_only_Inv s s' log Ho HI) as HI'.
  eexists _, s', (dated s'). split; [done|]. split; [|apply (holds_step s s' log); try done].
  all: by destruct Ho as (h & g & i & t & w & ->).
Qed.

(** *** Histories *)

Lemma step_refines s o : no_faults E -> holds s (dated s) -> op_ok s o -> refines s o.
Proof.
  intros Hnf ([log HI] & Hcl & Hu & Hh & _) Hok. destruct o.
  - by apply (put_refines s log).
  - by apply (batch_refines s log).
  - by apply (get_refines s log).
  - by apply (delete_refines s log).
  - by apply (incr_refines s log).
  - by apply (topup_refines s log).
  - by apply (take_refines s log).
  - by apply (less_refines s log).
  - by apply (greater_refines s log).
  - by apply (reap_refines s log).
  - by apply (compact_refines s log).
  - by apply (reindex_refines s).
  - by apply (relieve_refines s log).
  - by apply (restart_refines s log).
  - by apply (hint_refines s log).
  - by apply (kill_refines s log).
Qed.

Lemma adv_reopen opts d t : (t <= db_tick (reopen opts d t).2)%nat.
Proof.
  pose proof (adv_Open opts d t) as H. unfold reopen.
  assert (Hs : forall db s2, Open opts d t = (Ok db, s2) -> db = s2).
  { intros db s2. unfold Open. destruct (Open_body _) as [[]]; by intros [= <- <-]. }
  destruct (Open opts d t) as [[db|] s2]; cbn in *; [by rewrite (Hs db s2 eq_refl)|done].
Qed.

Lemma adv_restart opts s : (db_tick s <= db_tick (restart opts s).2)%nat.
Proof.
  unfold restart. pose proof (adv_close s) as H. destruct (Close s) as [[[]|] s1]; cbn in *; [|done].
  etrans; [exact H|apply adv_reopen].
Qed.

Lemma adv_run_op o s : (db_tick s <= db_tick (run_op o s).2)%nat.
Proof.
  destruct o; cbn [run_op]; unfold answer; cbn [snd]; try apply adv_restart; try apply adv_reopen.
  all: match goal with |- (_ <= db_tick (?m ?s0).2)%nat => revert s0; change (advances m); auto with frame end.
Qed.

Fixpoint run_ops (os : list op) s : list (op * out) * DB :=
  match os with
  | [] => ([], s)
  | o :: os' => let '(r, s1) := run_op o s in let '(l, s2) := run_ops os' s1 in ((o, r) :: l, s2)
  end.

(** Every operation finds what it needs when its turn comes. *)
Fixpoint ops_ok s (os : list op) : Prop :=
  match os with
  | [] => True
  | o :: os' => op_ok s o /\ ops_ok (run_op o s).2 os'
  end.

(** C1. The store is a map whose keys expire, and stays one when its process is
    killed.  Whatever sequence of writes, batches, reads, deletes, counter calls,
    range deletes, reaper cycles, compactions, reindexings, blob relieves, steps
    of the background hint writer, restarts and kills a store without capped
    indexes goes through, the answers are those the specification gives for the
    map it held at the start and the clock as it was read, and it ends up
    holding the map the specification ends with.  A kill leaves any torn tail
    after the log, and the next process starts from whatever hint was written
    last. *)
Theorem history_refines os : forall s m, no_faults E -> holds s m -> ops_ok s os ->
  exists m', history env_now (db_tick s) m (run_ops os s).1 m' /\ holds (run_ops os s).2 m'.
Proof.
  induction os as [|o os IH]; intros s m Hnf Hh Hok; cbn [run_ops].
  { exists m. split; [constructor|done]. }
  pose proof Hh as (_ & _ & _ & _ & <-). destruct Hok as [Ho Hos].
  destruct (step_refines s o Hnf Hh Ho) as (r & s1 & m1 & Hrun & Hs & Hh1). pose proof (adv_run_op o s) as Ht.
  rewrite Hrun in *. cbn [snd] in *. destruct (IH s1 m1 Hnf Hh1 Hos) as (m' & Hhist & Hh2). destruct (run_ops os s1) as [l s2].
  exists m'. split; [|done]. by eapply history_cons.
Qed.
End store.
