(* ===== verification/Destroy.v ===== *)
(** * Removing a store (destroy.go)

    [Destroy] removes the files of a store one by one, in a fixed order and
    then the blob generations it finds; [Drop] closes the store first.  A
    failure stops it with the remaining files in place; without one the
    directory is as if the store had never been there. *)

From S2P Require Import Prelude Floats Types Json Record BTree PkIndex SecIndex Hint Meta Store SecMaint IndexStep LogSpec Invariant Ops Contents Load Recovery.
#[local] Open Scope Z_scope.

Section destroy.
Context {BT : BTreeG} {BL : BTreeGLaws BT} {E : Env} {EL : EnvLaws E}.
#[local] Notation MD := (M DB).

(** [os.Remove] of one file, where a missing one is no error. *)
Definition remove_file (f : Disk -> Disk) : MD unit := fs_call ;;; mmodify (set_disk f).

(** [storeFiles]: the log, its compaction temporary, the hint, the metadata
    and their temporaries, and the lock; the temporaries and the lock are not
    part of the modelled disk. *)
Definition storeFiles : list (Disk -> Disk) :=
  [set_d_main None; id; set_d_hint None; id; set_d_meta None; id; id].

Definition rm_blob (g : Z) (d : Disk) : Disk := set_d_blobs (delete g (d_blobs d)) d.

Definition Destroy : MD unit :=
  mfor remove_file storeFiles ;;;
  s <- mget ;;
  mfor (fun g => remove_file (rm_blob g)) (discoverBlobGens (db_disk s)).

(** [Drop]. *)
Definition Drop : MD unit := Close ;;; Destroy.

(** The removals of [Destroy] on disk [d], in order. *)
Definition removals (d : Disk) : list (Disk -> Disk) := storeFiles ++ (rm_blob <$> discoverBlobGens d).

Definition apply_all (fs : list (Disk -> Disk)) (d : Disk) : Disk := fold_left (fun d f => f d) fs d.

Lemma remove_run f s r s' : remove_file f s = (r, s') ->
  (r = Ok tt /\ db_disk s' = f (db_disk s)) \/ (r = Err EIO /\ db_disk s' = db_disk s).
Proof.
  unfold remove_file, fs_call, tick, mmodify, mbnd. destruct (env_fs (db_tick s)); intros [= <- <-]; [by right|by left].
Qed.

Lemma removes_run fs : forall s r s', mfor remove_file fs s = (r, s') ->
  exists n, (n <= length fs)%nat /\ db_disk s' = apply_all (take n fs) (db_disk s)
    /\ ((r = Ok tt /\ n = length fs) \/ (r = Err EIO /\ (n < length fs)%nat)).
Proof.
  induction fs as [|f fs IH]; intros s r s'; cbn [mfor].
  { intros [= <- <-]. exists O. split_and!; [done|done|by left]. }
  destruct (remove_file f s) as [r1 s1] eqn:H1. unfold mbnd. rewrite H1. destruct (remove_run _ _ _ _ H1) as [[-> Hd]|[-> Hd]].
  - intros H2. destruct (IH _ _ _ H2) as (n & Hn & Hdn & Hr). exists (S n). cbn [take length apply_all fold_left].
    split_and!; [lia|by rewrite Hdn, Hd|]. destruct Hr as [[-> ->]|[-> ?]]; [by left|right; split; [done|lia]].
  - intros [= <- <-]. exists O. cbn. split_and!; [lia|done|right; split; [done|lia]].
Qed.

Lemma mfor_fmap {A B} (g : A -> B) (f : B -> MD unit) l s : mfor (fun x => f (g x)) l s = mfor f (g <$> l) s.
Proof.
  revert s. induction l as [|x l IH]; intros s; [done|]. cbn. unfold mbnd. destruct (f (g x) s) as [[?|?] s1]; [apply IH|done].
Qed.

Lemma apply_all_app fs1 fs2 d : apply_all (fs1 ++ fs2) d = apply_all fs2 (apply_all fs1 d).
Proof. unfold apply_all. by rewrite fold_left_app. Qed.

(** Whatever fails, the files that are gone are the first of the list. *)
Lemma Destroy_run s r s' : Destroy s = (r, s') ->
  exists n, (n <= length (removals (db_disk s)))%nat /\ db_disk s' = apply_all (take n (removals (db_disk s))) (db_disk s)
    /\ ((r = Ok tt /\ n = length (removals (db_disk s))) \/ (r = Err EIO /\ (n < length (removals (db_disk s)))%nat)).
Proof.
  unfold Destroy, removals. set (gs := discoverBlobGens (db_disk s)).
  destruct (mfor remove_file storeFiles s) as [r1 s1] eqn:H1. unfold mbnd at 1. rewrite H1.
  destruct (removes_run _ _ _ _ H1) as (n & Hn & Hd & [[-> ->]|[-> Hlt]]).
  - rewrite mget_bnd. rewrite firstn_all in Hd.
    assert (discoverBlobGens (db_disk s1) = gs) as -> by (by rewrite Hd).
    rewrite (mfor_fmap rm_blob remove_file). intros H2. destruct (removes_run _ _ _ _ H2) as (m & Hm & Hd2 & Hr).
    exists (length storeFiles + m)%nat. rewrite length_app. split_and!; [lia| |].
    + rewrite take_app_add. by rewrite apply_all_app, Hd2, Hd.
    + destruct Hr as [[-> ->]|[-> ?]]; [by left|right; split; [done|lia]].
  - intros [= <- <-]. exists n. rewrite length_app, take_app_le by lia. split_and!; [lia|done|right; split; [done|lia]].
Qed.

Lemma rm_blobs gs : forall d g, d_blobs (apply_all (rm_blob <$> gs) d) !! g = if decide (g ∈ gs) then None else d_blobs d !! g.
Proof.
  induction gs as [|x gs IH]; intros d g; [done|]. cbn [fmap list_fmap apply_all fold_left]. fold (apply_all (rm_blob <$> gs) (rm_blob x d)).
  change (fold_left (fun d f => f d) (list_fmap _ _ rm_blob gs) (rm_blob x d)) with (apply_all (rm_blob <$> gs) (rm_blob x d)).
  rewrite IH. destruct (decide (g ∈ gs)) as [Hg|Hg].
  - by rewrite decide_True by (by right).
  - cbn. destruct (decide (g = x)) as [->|Hne].
    + by rewrite lookup_delete_eq, decide_True by (by left).
    + rewrite lookup_delete_ne by done. rewrite decide_False; [done|]. by intros [?|?]%elem_of_cons.
Qed.

Lemma rm_blobs_rest gs : forall d, d_main (apply_all (rm_blob <$> gs) d) = d_main d
  /\ d_hint (apply_all (rm_blob <$> gs) d) = d_hint d /\ d_meta (apply_all (rm_blob <$> gs) d) = d_meta d.
Proof. induction gs as [|x gs IH]; intros d; [done|]. apply (IH (rm_blob x d)). Qed.

Definition empty_disk : Disk := mkDisk None None None ∅.

Lemma removals_all d : gens_ok d -> apply_all (removals d) d = empty_disk.
Proof.
  intros Hg. unfold removals. rewrite apply_all_app. set (d1 := apply_all storeFiles d).
  destruct (rm_blobs_rest (discoverBlobGens d) d1) as (E1 & E2 & E3). pose proof (rm_blobs (discoverBlobGens d) d1) as E4.
  destruct (apply_all (rm_blob <$> discoverBlobGens d) d1) as [m h me b]. cbn in *. subst m h me. unfold empty_disk. f_equal.
  apply map_eq. intros g. rewrite E4, lookup_empty. destruct (decide _) as [|Hn]; [done|].
  destruct (d_blobs d !! g) eqn:Eg; [|done]. exfalso. apply Hn, (gens_found d Hg). eauto.
Qed.

Lemma empty_on_disk : on_disk empty_disk [] [] [].
Proof. unfold on_disk. split_and!; try done. by left. Qed.

Lemma Destroy_clean s : no_faults E -> gens_ok (db_disk s) -> exists s', Destroy s = (Ok tt, s') /\ db_disk s' = empty_disk.
Proof.
  intros Hnf Hg. destruct (Destroy s) as [r s'] eqn:Hd. exists s'.
  assert (r = Ok tt) as ->.
  { destruct (Destroy_run _ _ _ Hd) as (n & _ & _ & [[? _]|[-> _]]); [done|]. exfalso.
    cut (exists s2, Destroy s = (Ok tt, s2)); [intros [s2 H2]; congruence|]. clear Hd. unfold Destroy.
    assert (forall (fs : list (Disk -> Disk)) s0, exists s1, mfor remove_file fs s0 = (Ok tt, s1)) as Hall.
    { induction fs as [|f fs IH]; intros s0; [by eexists|]. cbn [mfor]. unfold remove_file at 1.
      destruct (IH (set_disk f (set_tick (S (db_tick s0)) s0))) as [s1 H1]. exists s1. unfold mbnd. rewrite (fs_call_ok s0 Hnf). done. }
    destruct (Hall storeFiles s) as [s1 H1]. rewrite (mbnd_ok _ _ _ _ _ H1), mget_bnd, (mfor_fmap rm_blob remove_file). apply Hall. }
  split; [done|]. destruct (Destroy_run _ _ _ Hd) as (n & _ & -> & [[_ ->]|[? _]]); [|done]. rewrite firstn_all. by apply removals_all.
Qed.


End destroy.
