(* ===== verification/Lock.v ===== *)
(** * The directory lock and the removal of a store (lock.go, destroy.go)

    The [LOCK] file names an inode; [flock] locks the inode, and the lock goes
    away with the process.  As long as nobody unlinks the file, one process at
    most holds the store, a crashed holder leaves nothing behind, and a second
    opener is told so.  Unlinking it ([Destroy]) breaks this. *)

From S2P Require Import Prelude.
#[local] Open Scope nat_scope.

(** A process, between the two system calls of [acquireLock] or past them. *)
Inductive proc := POut | POpened (ino : nat) | PHolds (ino : nat).

#[global] Instance proc_eq_dec : EqDecision proc.
Proof. solve_decision. Defined.

(** What the directory entry [LOCK] names, the next free inode, the processes. *)
Record locks := Locks { lk_path : option nat; lk_next : nat; lk_procs : list proc }.

Definition set_proc (i : nat) (p : proc) (σ : locks) : locks := Locks (lk_path σ) (lk_next σ) (<[i := p]> (lk_procs σ)).

(** [os.OpenFile(LOCK, O_CREATE|O_RDWR)]. *)
Definition open_lock (i : nat) (σ : locks) : locks :=
  match lk_path σ with
  | Some ino => set_proc i (POpened ino) σ
  | None => set_proc i (POpened (lk_next σ)) (Locks (Some (lk_next σ)) (S (lk_next σ)) (lk_procs σ))
  end.

(** [syscall.Flock(fd, LOCK_EX|LOCK_NB)]: on [EWOULDBLOCK] the file is closed
    and the caller gets [ErrLocked] ([false]). *)
Definition flock (i ino : nat) (σ : locks) : bool * locks :=
  if bool_decide (PHolds ino ∈ lk_procs σ) then (false, set_proc i POut σ) else (true, set_proc i (PHolds ino) σ).

(** [acquireLock] without interruption. *)
Definition acquireLock (i : nat) (σ : locks) : bool * locks :=
  let σ1 := open_lock i σ in
  match lk_procs σ1 !! i with Some (POpened ino) => flock i ino σ1 | _ => (false, σ1) end.

(** [Close] of the handle, or the death of the process. *)
Definition release (i : nat) (σ : locks) : locks := set_proc i POut σ.

(** [os.Remove(LOCK)]: the entry goes, the inode and its lock stay. *)
Definition unlink (σ : locks) : locks := Locks None (lk_next σ) (lk_procs σ).

Inductive lock_step : locks -> locks -> Prop :=
  | step_open i σ : lk_procs σ !! i = Some POut -> lock_step σ (open_lock i σ)
  | step_flock i ino σ : lk_procs σ !! i = Some (POpened ino) -> lock_step σ (flock i ino σ).2
  | step_release i σ : i < length (lk_procs σ) -> lock_step σ (release i σ).

(** Processes that have not opened the store, in a directory that may have a
    [LOCK] file from before. *)
Definition lock_init (path : option nat) (n : nat) : locks :=
  Locks path (from_option S 0 path) (replicate n POut).

(** Every process that has the file open has the file of the entry, and at
    most one of them holds the lock. *)
Record lock_inv (σ : locks) : Prop := LockInv {
  li_path : forall i p, lk_procs σ !! i = Some p -> p = POut \/ exists ino, lk_path σ = Some ino /\ (p = POpened ino \/ p = PHolds ino);
  li_one : forall i j a b, lk_procs σ !! i = Some (PHolds a) -> lk_procs σ !! j = Some (PHolds b) -> i = j }.

Lemma lock_inv_set i p σ path nx : lock_inv σ -> (lk_path σ = path \/ lk_path σ = None) ->
  (p = POut \/ exists ino, path = Some ino /\ (p = POpened ino \/ p = PHolds ino)) ->
  (forall a, p = PHolds a -> forall j b, lk_procs σ !! j = Some (PHolds b) -> j = i) ->
  lock_inv (Locks path nx (<[i := p]> (lk_procs σ))).
Proof.
  intros [Hp Ho] Hpath Hnew Hone. split; cbn.
  - intros j q [(<- & <- & _)|[Hj Hq]]%list_lookup_insert_Some; [done|].
    destruct (Hp j q Hq) as [->|(ino & Hi & Hq')]; [by left|]. right. exists ino. split; [|done].
    destruct Hpath as [<-|E]; [done|congruence].
  - intros j1 j2 a b [(<- & Ea & _)|[H1 Ha]]%list_lookup_insert_Some [(<- & Eb & _)|[H2 Hb]]%list_lookup_insert_Some; [done|..].
    + symmetry. by eapply Hone.
    + by eapply Hone.
    + by eapply Ho.
Qed.

Lemma lock_inv_step σ σ' : lock_inv σ -> lock_step σ σ' -> lock_inv σ'.
Proof.
  intros HI Hs. pose proof HI as [Hp Ho]. destruct Hs as [i σ Hi|i ino σ Hi|i σ Hi].
  - unfold open_lock. destruct (lk_path σ) as [ino|] eqn:E; apply (lock_inv_set i _ σ); cbn; rewrite ?E; eauto 10; done.
  - unfold flock. destruct (bool_decide _) eqn:E; cbn; (apply (lock_inv_set i _ σ); [done|by left|..]); try done; [by left|..].
    + right. destruct (Hp i _ Hi) as [?|(ino' & Hpath & [[= <-]|?])]; [done| |done]. eauto.
    + intros a _ j b Hj. exfalso. apply bool_decide_eq_false in E. apply E.
      destruct (Hp i _ Hi) as [?|(ino1 & Hp1 & [[= <-]|?])]; [done| |done].
      destruct (Hp j _ Hj) as [?|(ino2 & Hp2 & [?|[= <-]])]; [done|done|].
      assert (b = ino) as -> by congruence. by eapply list_elem_of_lookup_2.
  - apply (lock_inv_set i _ σ); [done|by left|by left|done].
Qed.

Lemma lock_inv_init path n : lock_inv (lock_init path n).
Proof.
  split; cbn; [intros i p Hi|intros i j a b Hi _]; apply lookup_replicate in Hi as [? _]; [by left|done].
Qed.



(** [Destroy] removes the [LOCK] file: a process that opened it before, or
    holds it, and one that opens the store afterwards lock different inodes
    and are both told that the store is theirs. *)
Example destroy_breaks_lock :
  let σ1 := (acquireLock 0 (lock_init None 2)).2 in
  (acquireLock 1 σ1).1 = false
  /\ (acquireLock 1 (unlink σ1)).1 = true
  /\ lk_procs (acquireLock 1 (unlink σ1)).2 = [PHolds 0; PHolds 1].
Proof. by vm_compute. Qed.
