(* ===== verification/Gate.v ===== *)
(** * The store lock, the compaction gate and the background goroutines

    The concurrency of the core (db.go, compact.go, reindex.go): the
    read-write lock [db.mu], the gate [compacting] with its condition variable
    [writable], the lazy reaper behind its bounded channel, and the background
    hint writer behind [hintMu].  A state holds a program counter per
    goroutine; a step executes one shared-memory action of one goroutine.

    What the goroutines compute is left abstract: [D] is the store guarded by
    [db.mu], [L] what a call keeps in local variables, and the bodies of the
    operations are lists of small actions on them, so that an operation can be
    interleaved between any two of its accesses. *)

From S2P Require Import Prelude.
#[local] Open Scope nat_scope.

Section gate.

(** The guarded store, a call's local variables, a reap request; [db.closed];
    the locals of the reaper for a batch, the body of [reapBatch], and the
    capacity of [reapCh]. *)
Context {D L Q : Type} (closed : D -> bool) (of_batch : list Q -> L).

(** ** What runs inside critical sections *)

(** Statements executed while [db.mu] is held exclusively.  The hint
    statements carry the condition under which the code reaches them. *)
Inductive stmt :=
  | Act (f : D -> L -> D * L)
  | MaybeHint (c : D -> L -> bool)
  | BumpHint (c : D -> L -> bool)
  | WriteHint (c : D -> L -> bool)
  | WaitHint (c : D -> L -> bool).

(** Statements executed under [db.mu.RLock]: an observation, or the hand-over
    of an expired entry to the reaper. *)
Inductive look :=
  | Look (f : D -> L -> L)
  | ReapAsync (c : D -> L -> option Q).

(** [rewriteGated] and [BlobsRelieve]: the accesses of the long build phase,
    whether the locals carry an error, the exclusive swap, and the section in
    which [BlobsRelieve] looks at [db.closed] after an error. *)
Record rewrite := Rewrite_ {
  rw_build : list (D -> L -> L);
  rw_bad : L -> bool;
  rw_swap : list stmt;
  rw_check : option (list stmt) }.

(** The critical sections an exported call is made of.  [SecWrite chk] tells
    whether the code looks at [db.closed] first. *)
Inductive sect :=
  | SecRead (ls : list look)
  | SecWrite (chk : bool) (ss : list stmt)
  | SecRewrite (r : rewrite)
  | SecStopReaper.

(** A call: its sections, each with the condition under which the call goes on
    to it (an early [return err] otherwise). *)
Definition call := list ((L -> bool) * sect).

(** ** Program counters *)

Inductive kont := KCall (p : call) | KReaper.

(** What [lockWrite] was called for. *)
Inductive wsite := WWrite (chk : bool) (ss : list stmt) | WRaise (r : rewrite).

(** The places that call [db.mu.Lock]. *)
Inductive site :=
  | SLockWrite (w : wsite)
  | SSwap (r : rewrite) (l0 : L)
  | SCheck (ss : list stmt)
  | SLower.

(** What follows the statements of a body. *)
Inductive exit := XUnlock | XSwap (r : rewrite) | XCheck.

Inductive pc :=
  | Next (p : call) (l : L)
  | RLocking (ls : list look) (p : call) (l : L)
  | Reading (ls : list look) (p : call) (l : L)
  | Locking (s : site) (k : kont) (l : L)
  | Draining (s : site) (k : kont) (l : L)
  | Testing (w : wsite) (k : kont) (l : L)
  | Parked (w : wsite) (k : kont) (l : L)
  | Body (ss : list stmt) (x : exit) (k : kont) (l : L)
  | Building (fs : list (D -> L -> L)) (r : rewrite) (k : kont) (l0 l : L)
  | Lowering (k : kont) (l : L)
  | StopWait (p : call) (l : L)
  | RIdle
  | RDraining (b : list Q)
  | Done (ok : bool) (l : L)
  | Gone.

(** The background hint writer: flushing, holding [hintMu], and past its check
    of [hintGen].  It carries the generation and the snapshot it was given. *)
Inductive hpc :=
  | HNone
  | HFlush (g : nat) (v : D)
  | HLocked (g : nat) (v : D)
  | HWriting (g : nat) (v : D).

Record state := State {
  data : D;
  compacting : bool;
  reapStop : bool;
  reapCh : list Q;
  hint : hpc;
  hintGen : nat;
  hintFile : option (nat * D);
  owner : option nat;       (* the goroutine that announced itself to mu as the writer *)
  threads : list pc }.

(** ** Events

    The points at which a critical section takes its effect as a whole. *)
Inductive event :=
  | EvRead (ls : list look)
  | EvBody (ss : list stmt)
  | EvRewrite (r : rewrite)
  | EvBatch (b : list Q).

(** ** Steps *)

Context (reap_body : list stmt) (reap_cap : nat).

Definition set_pc (i : nat) (p : pc) (σ : state) : state :=
  State (data σ) (compacting σ) (reapStop σ) (reapCh σ) (hint σ) (hintGen σ) (hintFile σ) (owner σ)
    (<[i := p]> (threads σ)).

Definition set_owner (o : option nat) (σ : state) : state :=
  State (data σ) (compacting σ) (reapStop σ) (reapCh σ) (hint σ) (hintGen σ) (hintFile σ) o (threads σ).

Definition set_compacting (c : bool) (σ : state) : state :=
  State (data σ) c (reapStop σ) (reapCh σ) (hint σ) (hintGen σ) (hintFile σ) (owner σ) (threads σ).

Definition set_data (d : D) (σ : state) : state :=
  State d (compacting σ) (reapStop σ) (reapCh σ) (hint σ) (hintGen σ) (hintFile σ) (owner σ) (threads σ).

Definition set_stop (σ : state) : state :=
  State (data σ) (compacting σ) true (reapCh σ) (hint σ) (hintGen σ) (hintFile σ) (owner σ) (threads σ).

Definition set_queue (q : list Q) (σ : state) : state :=
  State (data σ) (compacting σ) (reapStop σ) q (hint σ) (hintGen σ) (hintFile σ) (owner σ) (threads σ).

Definition set_hint (h : hpc) (σ : state) : state :=
  State (data σ) (compacting σ) (reapStop σ) (reapCh σ) h (hintGen σ) (hintFile σ) (owner σ) (threads σ).

Definition bump_gen (σ : state) : state :=
  State (data σ) (compacting σ) (reapStop σ) (reapCh σ) (hint σ) (S (hintGen σ)) (hintFile σ) (owner σ) (threads σ).

Definition set_file (f : nat * D) (σ : state) : state :=
  State (data σ) (compacting σ) (reapStop σ) (reapCh σ) (hint σ) (hintGen σ) (Some f) (owner σ) (threads σ).

Definition reading (p : pc) : bool := match p with Reading _ _ _ => true | _ => false end.

(** A live reaper goroutine. *)
Definition reaper (p : pc) : bool :=
  match p with
  | RIdle | RDraining _ => true
  | Locking _ KReaper _ | Draining _ KReaper _ | Testing _ KReaper _ | Parked _ KReaper _
  | Body _ _ KReaper _ | Building _ _ KReaper _ _ | Lowering KReaper _ => true
  | _ => false
  end.

(** Where a goroutine goes after a critical section, and when it found the
    store closed. *)
Definition resume (k : kont) (l : L) : pc := match k with KCall p => Next p l | KReaper => RIdle end.

Definition closed_exit (k : kont) (l : L) : pc := match k with KCall _ => Done false l | KReaper => RIdle end.

(** The start of the next section of a call. *)
Definition start (i : nat) (p : call) (l : L) (σ : state) : state :=
  match p with
  | [] => set_pc i (Done true l) σ
  | (go, s) :: p' =>
      if go l then
        match s with
        | SecRead ls => set_pc i (RLocking ls p' l) σ
        | SecWrite chk ss => set_pc i (Locking (SLockWrite (WWrite chk ss)) (KCall p') l) σ
        | SecRewrite r => set_pc i (Locking (SLockWrite (WRaise r)) (KCall p') l) σ
        | SecStopReaper => set_pc i (StopWait p' l) (set_stop σ)
        end
      else set_pc i (Done true l) σ
  end.

(** [raiseGate] past [lockWrite]: raise the gate and release the lock, or
    return on a closed store. *)
Definition raiseGate (i : nat) (r : rewrite) (k : kont) (l : L) (σ : state) : state :=
  if closed (data σ) then set_owner None (set_pc i (closed_exit k l) σ)
  else set_owner None (set_compacting true (set_pc i (Building (rw_build r) r k l l) σ)).

(** [lockWrite] once [db.mu] is held, with what its callers do first: park on
    the gate; return on a closed store; enter the body; or raise the gate. *)
Definition lockWrite (i : nat) (w : wsite) (k : kont) (l : L) (σ : state) : option event * state :=
  if compacting σ then (None, set_owner None (set_pc i (Parked w k l) σ))
  else match w with
       | WWrite chk ss =>
           if chk && closed (data σ) then (None, set_owner None (set_pc i (closed_exit k l) σ))
           else (Some (EvBody ss), set_pc i (Body ss XUnlock k l) σ)
       | WRaise r => (None, raiseGate i r k l σ)
       end.

(** [lowerGate] once [db.mu] is held: clear the flag, wake every parked
    writer (each then locks [db.mu] again inside [Wait]), unlock. *)
Definition wake (p : pc) : pc := match p with Parked w k l => Locking (SLockWrite w) k l | _ => p end.

Definition broadcast (σ : state) : state :=
  State (data σ) (compacting σ) (reapStop σ) (reapCh σ) (hint σ) (hintGen σ) (hintFile σ) (owner σ)
    (wake <$> threads σ).

Definition lowerGate (i : nat) (k : kont) (l : L) (σ : state) : state :=
  set_owner None (set_pc i (resume k l) (broadcast (set_compacting false σ))).

(** After the rewrite proper: [BlobsRelieve] looks at [db.closed] when it
    failed; then the deferred [lowerGate]. *)
Definition after_rewrite (r : rewrite) (l : L) : site :=
  match rw_check r with
  | Some cs => if rw_bad r l then SCheck cs else SLower
  | None => SLower
  end.

(** One access of the build phase, or its end. *)
Definition build_step (i : nat) (fs : list (D -> L -> L)) (r : rewrite) (k : kont) (l0 l : L) (σ : state) : option event * state :=
  match fs with
  | f :: fs' => (None, set_pc i (Building fs' r k l0 (f (data σ) l)) σ)
  | [] => if rw_bad r l then (Some (EvRewrite r), set_pc i (Locking (after_rewrite r l) k l) σ)
          else (None, set_pc i (Locking (SSwap r l0) k l) σ)
  end.

(** [reapAsync]: a send that never blocks. *)
Definition reapAsync (q : option Q) (σ : state) : state :=
  match q with
  | Some q => if length (reapCh σ) <? reap_cap then set_queue (reapCh σ ++ [q]) σ else σ
  | None => σ
  end.

Definition read_step (i : nat) (ls : list look) (p : call) (l : L) (σ : state) : state :=
  match ls with
  | Look f :: ls' => set_pc i (Reading ls' p (f (data σ) l)) σ
  | ReapAsync c :: ls' => set_pc i (Reading ls' p l) (reapAsync (c (data σ) l) σ)
  | [] => set_pc i (Next p l) σ
  end.

(** [maybeWriteHint] past its counter: at most one background writer, given
    the current generation and a snapshot of the store. *)
Definition maybeWriteHint (σ : state) : state :=
  match hint σ with HNone => set_hint (HFlush (hintGen σ) (data σ)) σ | _ => σ end.

(** [hintMu] is held by the background writer. *)
Definition hint_locked (h : hpc) : bool :=
  match h with HLocked _ _ | HWriting _ _ => true | _ => false end.

Definition hint_idle (h : hpc) : bool := match h with HNone => true | _ => false end.

(** A statement of a body: the state with the program counter moved on, or
    nothing while it blocks. *)
Definition stmt_step (i : nat) (s : stmt) (ss : list stmt) (x : exit) (k : kont) (l : L) (σ : state) : option state :=
  let go l' := set_pc i (Body ss x k l') in
  match s with
  | Act f => let '(d', l') := f (data σ) l in Some (go l' (set_data d' σ))
  | MaybeHint c => Some (go l (if c (data σ) l then maybeWriteHint σ else σ))
  | BumpHint c => Some (go l (if c (data σ) l then bump_gen σ else σ))
  | WriteHint c =>
      if c (data σ) l then
        if hint_locked (hint σ) then None else Some (go l (set_file (hintGen σ, data σ) σ))
      else Some (go l σ)
  | WaitHint c => if c (data σ) l && negb (hint_idle (hint σ)) then None else Some (go l σ)
  end.

Definition body_step (i : nat) (ss : list stmt) (x : exit) (k : kont) (l : L) (σ : state) : option state :=
  match ss with
  | s :: ss' => stmt_step i s ss' x k l σ
  | [] => Some (set_owner None (set_pc i (match x with
                                          | XUnlock => resume k l
                                          | XSwap r => Locking (after_rewrite r l) k l
                                          | XCheck => Locking SLower k l
                                          end) σ))
  end.

(** The lock granted to its writer, once the readers have left. *)
Definition granted (s : site) (k : kont) (l : L) : pc :=
  match s with
  | SLockWrite w => Testing w k l
  | SSwap r _ => Body (rw_swap r) (XSwap r) k l
  | SCheck ss => Body ss XCheck k l
  | SLower => Lowering k l
  end.

Definition granted_event (s : site) : option event :=
  match s with SSwap r _ => Some (EvRewrite r) | SCheck ss => Some (EvBody ss) | _ => None end.

(** [reapLoop]: a cycle of the reaper ([stop] resolves the select when both
    channels are ready). *)
Definition reap_idle (i : nat) (stop : bool) (σ : state) : option state :=
  if stop then if reapStop σ then Some (set_pc i Gone σ) else None
  else match reapCh σ with
       | q :: qs => Some (set_pc i (RDraining [q]) (set_queue qs σ))
       | [] => None
       end.

Definition reap_drain (i : nat) (b : list Q) (σ : state) : option event * state :=
  match reapCh σ with
  | q :: qs =>
      if length b <? 64 then (None, set_pc i (RDraining (b ++ [q])) (set_queue qs σ))
      else (Some (EvBatch b), set_pc i (Locking (SLockWrite (WWrite true reap_body)) KReaper (of_batch b)) σ)
  | [] => (Some (EvBatch b), set_pc i (Locking (SLockWrite (WWrite true reap_body)) KReaper (of_batch b)) σ)
  end.

Definition silent (o : option state) : option (option event * state) := σ ← o; Some (None, σ).

(** One step of goroutine [i]; nothing when it is blocked or over. *)
Definition thread_step (i : nat) (choice : bool) (σ : state) : option (option event * state) :=
  p ← threads σ !! i;
  match p with
  | Next p l => Some (None, start i p l σ)
  | RLocking ls p l =>
      match owner σ with
      | Some _ => None
      | None => if closed (data σ) then Some (None, set_pc i (Done false l) σ)
                else Some (Some (EvRead ls), set_pc i (Reading ls p l) σ)
      end
  | Reading ls p l => Some (None, read_step i ls p l σ)
  | Locking s k l =>
      match owner σ with
      | Some _ => None
      | None => Some (None, set_owner (Some i) (set_pc i (Draining s k l) σ))
      end
  | Draining s k l =>
      if existsb reading (threads σ) then None
      else Some (granted_event s, set_pc i (granted s k l) σ)
  | Testing w k l => Some (lockWrite i w k l σ)
  | Parked _ _ _ => None
  | Body ss x k l => silent (body_step i ss x k l σ)
  | Building fs r k l0 l => Some (build_step i fs r k l0 l σ)
  | Lowering k l => Some (None, lowerGate i k l σ)
  | StopWait p l => if existsb reaper (threads σ) then None else Some (None, set_pc i (Next p l) σ)
  | RIdle => silent (reap_idle i choice σ)
  | RDraining b => Some (reap_drain i b σ)
  | Done _ _ | Gone => None
  end.

(** One step of the background hint writer ([writeHintAsync]); [fails] when a
    flush or the write of the file fails. *)
Definition writeHintAsync (fails : bool) (σ : state) : option state :=
  match hint σ with
  | HNone => None
  | HFlush g v => Some (set_hint (if fails then HNone else HLocked g v) σ)
  | HLocked g v => Some (set_hint (if g =? hintGen σ then HWriting g v else HNone) σ)
  | HWriting g v => Some (set_hint HNone (if fails then σ else set_file (g, v) σ))
  end.

Inductive step : state -> option (nat * event) -> state -> Prop :=
  | step_thread i choice σ e σ' : thread_step i choice σ = Some (e, σ') ->
      step σ (e' ← e; Some (i, e')) σ'
  | step_hint fails σ σ' : writeHintAsync fails σ = Some σ' -> step σ None σ'.

(** An execution, with the events it went through and its length. *)
Inductive exec (σ : state) : nat -> list (nat * event) -> state -> Prop :=
  | exec_nil : exec σ 0 [] σ
  | exec_snoc n tr σ1 e σ2 : exec σ n tr σ1 -> step σ1 e σ2 ->
      exec σ (S n) (tr ++ option_list e) σ2.

(** The start: calls that have not begun, and the reaper. *)
Definition init (d : D) (calls : list (call * L)) : state :=
  State d false false [] HNone 0 None None (RIdle :: ((fun c => Next c.1 c.2) <$> calls)).

(** ** The sequential reading of a trace *)

Fixpoint run_stmts (ss : list stmt) (d : D) (l : L) : D * L :=
  match ss with
  | [] => (d, l)
  | Act f :: ss' => let '(d', l') := f d l in run_stmts ss' d' l'
  | _ :: ss' => run_stmts ss' d l
  end.

Fixpoint run_looks (ls : list look) (d : D) (l : L) : L :=
  match ls with
  | [] => l
  | Look f :: ls' => run_looks ls' d (f d l)
  | ReapAsync _ :: ls' => run_looks ls' d l
  end.

Fixpoint gather (fs : list (D -> L -> L)) (d : D) (l : L) : L :=
  match fs with [] => l | f :: fs' => gather fs' d (f d l) end.

(** A whole critical section as one atomic step. *)
Definition atomic (e : event) (d : D) (l : L) : D * L :=
  match e with
  | EvRead ls => (d, run_looks ls d l)
  | EvBody ss => run_stmts ss d l
  | EvRewrite r => let l1 := gather (rw_build r) d l in
                   if rw_bad r l1 then (d, l1) else run_stmts (rw_swap r) d l1
  | EvBatch b => (d, of_batch b)
  end.

(** The sequential machine: one store and the locals of every call, one
    critical section after the other. *)
Definition seq_step (s : D * gmap nat L) (ie : nat * event) : option (D * gmap nat L) :=
  match ie.2 with
  | EvBatch b => Some (s.1, <[ie.1 := of_batch b]> s.2)
  | e => l ← s.2 !! ie.1; let '(d', l') := atomic e s.1 l in Some (d', <[ie.1 := l']> s.2)
  end.

Fixpoint seq_run (s : D * gmap nat L) (tr : list (nat * event)) : option (D * gmap nat L) :=
  match tr with [] => Some s | e :: tr' => s' ← seq_step s e; seq_run s' tr' end.

Definition init_locals (calls : list (call * L)) : gmap nat L :=
  list_to_map (zip (seq 1 (length calls)) (snd <$> calls)).

End gate.
