(* ===== verification/GateProofs.v ===== *)
(** * Safety of the compaction gate

    The invariant of the locking protocol, and what follows from it: critical
    sections exclude each other as they should, a rebuild sees a frozen store,
    no wake-up is lost, a stale hint never replaces a fresher one, and every
    interleaving has the effect of running whole critical sections one after
    the other. *)

From S2P Require Import Prelude Gate.
#[local] Open Scope nat_scope.

Section safety.
Context {D L Q : Type} (closed : D -> bool) (of_batch : list Q -> L).
Context (reap_body : list (@stmt D L)) (reap_cap : nat).

#[local] Abbreviation state := (@state D L Q).
#[local] Abbreviation pc := (@pc D L Q).
#[local] Abbreviation thread_step := (thread_step closed of_batch reap_body reap_cap).
#[local] Abbreviation step := (step closed of_batch reap_body reap_cap).
#[local] Abbreviation exec := (exec closed of_batch reap_body reap_cap).

(** ** The invariant *)

(** The goroutine holds [db.mu] exclusively; it has announced itself to
    [db.mu] as the next writer or holds it; it is between [raiseGate] and the
    end of [lowerGate]. *)
Definition excl (p : pc) : bool :=
  match p with Testing _ _ _ | Body _ _ _ _ | Lowering _ _ => true | _ => false end.

Definition owns (p : pc) : bool := match p with Draining _ _ _ => true | _ => excl p end.

Definition gated (p : pc) : bool :=
  match p with
  | Building _ _ _ _ _ | Lowering _ _ => true
  | Locking (SLockWrite _) _ _ | Draining (SLockWrite _) _ _ => false
  | Locking _ _ _ | Draining _ _ _ => true
  | Body _ XUnlock _ _ => false
  | Body _ _ _ _ => true
  | _ => false
  end.

Definition readers (σ : state) : bool := existsb reading (threads σ).

(** What the locals of a rebuild are worth: they are, or will be once its
    remaining accesses are made, a view of the store as it is now. *)
Definition built (d : D) (p : pc) : Prop :=
  match p with
  | Building fs r _ l0 l => gather fs d l = gather (rw_build r) d l0
  | Locking (SSwap r l0) _ l | Draining (SSwap r l0) _ l =>
      l = gather (rw_build r) d l0 /\ rw_bad r l = false
  | _ => True
  end.

(** What holds of goroutine [i] at [p], where [g] is the goroutine that raised
    the gate. *)
Record thread_ok (σ : state) (g : option nat) (i : nat) (p : pc) : Prop := ThreadOk {
  tk_owns : owns p = bool_decide (owner σ = Some i);
  tk_gated : gated p = bool_decide (g = Some i);
  tk_excl : excl p = true -> readers σ = false;
  tk_parked : forall w k l, p = Parked w k l -> g <> None;
  tk_body : forall ss k l, p = Body ss XUnlock k l -> g = None;
  tk_built : built (data σ) p;
  tk_stop : forall c l, p = StopWait c l -> reapStop σ = true }.

Record inv (g : option nat) (σ : state) : Prop := Inv {
  inv_threads : forall i p, threads σ !! i = Some p -> thread_ok σ g i p;
  inv_owner : forall i, owner σ = Some i -> is_Some (threads σ !! i);
  inv_gate : forall i, g = Some i -> is_Some (threads σ !! i);
  inv_compacting : compacting σ = bool_decide (g <> None) }.

(** ** Generic facts *)

Lemma readers_true i p σ : threads σ !! i = Some p -> reading p = true -> readers σ = true.
Proof.
  intros Hi Hp. unfold readers. apply existsb_exists. exists p. split; [|done].
  apply list_elem_of_In. by eapply list_elem_of_lookup_2.
Qed.

Lemma readers_insert i p p' (ts : list pc) : ts !! i = Some p -> reading p' = reading p ->
  existsb reading (<[i := p']> ts) = existsb reading ts.
Proof.
  intros Hi Hr. apply eq_true_iff_eq. rewrite !existsb_exists. setoid_rewrite <- list_elem_of_In.
  assert (i < length ts) by (by eapply lookup_lt_Some). split.
  - intros (x & Hx & Hrx). apply list_elem_of_lookup in Hx as [j Hj]. apply list_lookup_insert_Some in Hj as [(-> & <- & _)|[_ Hj]].
    + exists p. split; [by eapply list_elem_of_lookup_2|congruence].
    + exists x. split; [by eapply list_elem_of_lookup_2|done].
  - intros (x & Hx & Hrx). apply list_elem_of_lookup in Hx as [j Hj]. destruct (decide (i = j)) as [->|Hij].
    + exists p'. split; [|congruence]. eapply (list_elem_of_lookup_2 _ j). by apply list_lookup_insert_eq.
    + exists x. split; [|done]. eapply (list_elem_of_lookup_2 _ j). by rewrite list_lookup_insert_ne.
Qed.

(** The other goroutines only read the shared part of the state. *)
Definition others_ok (σ σ' : state) (g g' : option nat) (i : nat) : Prop :=
  forall j q, j <> i -> threads σ !! j = Some q -> thread_ok σ g j q -> thread_ok σ' g' j q.

Lemma inv_update σ σ' g g' i p p' : inv g σ -> threads σ !! i = Some p ->
  threads σ' = <[i := p']> (threads σ) -> others_ok σ σ' g g' i -> thread_ok σ' g' i p' ->
  (owner σ' = owner σ \/ owner σ' = None \/ owner σ' = Some i) -> (g' = g \/ g' = None \/ g' = Some i) ->
  compacting σ' = bool_decide (g' <> None) -> inv g' σ'.
Proof.
  intros [Ht Ho Hg Hc] Hi Hts Hoth Hnew Hown Hgate Hc'. assert (i < length (threads σ)) by (by eapply lookup_lt_Some).
  assert (forall j, is_Some (threads σ !! j) -> is_Some (threads σ' !! j)) as Hdom.
  { intros j. rewrite Hts, !lookup_lt_is_Some, length_insert. done. }
  split; [| | |done].
  - intros j q. rewrite Hts. intros [(Hji & Hpq & _)|[Hne Hj]]%list_lookup_insert_Some; [by subst|].
    apply (Hoth j q); eauto.
  - intros j Hj. destruct Hown as [E|[E|E]]; rewrite E in Hj; [by auto|done|injection Hj as Hj; subst j; apply Hdom; eauto].
  - intros j Hj. destruct Hgate as [->|[->| ->]]; [by auto|done|injection Hj as Hj; subst j; apply Hdom; eauto].
Qed.

(** When a step of [i] leaves the other goroutines alone: the owner and the
    gate only move between nobody and [i]; the data changes only when no other
    goroutine is behind the gate; a reader enters only when no other goroutine
    holds the lock; the gate goes up only when no other goroutine is in a
    body; and it goes down only when nobody is parked. *)
Lemma others_gen σ σ' g g' i :
  (forall j, j <> i -> owner σ' = Some j <-> owner σ = Some j) ->
  (forall j, j <> i -> g' = Some j <-> g = Some j) ->
  (data σ' = data σ \/ forall j, j <> i -> g <> Some j) ->
  (readers σ' = readers σ \/ forall j, j <> i -> owner σ <> Some j) ->
  (g = g' \/ forall j, j <> i -> owner σ <> Some j) ->
  (g' <> None \/ g = None) -> (reapStop σ = true -> reapStop σ' = true) -> others_ok σ σ' g g' i.
Proof.
  intros Ho Hg Hd Hr Hgb Hpk Hst j q Hj _ [To Tg Te Tp Tb Tu Ts]. split.
  - rewrite To. apply bool_decide_ext. by rewrite Ho.
  - rewrite Tg. apply bool_decide_ext. by rewrite Hg.
  - intros He. destruct Hr as [->|Hr]; [by apply Te|]. exfalso. apply (Hr j Hj).
    assert (owns q = true) as Hq by (by destruct q). rewrite To in Hq. by apply bool_decide_eq_true in Hq.
  - intros w k l ->. specialize (Tp _ _ _ eq_refl). by destruct Hpk as [?| ->].
  - intros ss k l ->. specialize (Tb _ _ _ eq_refl). destruct Hgb as [<-|Hgb]; [done|]. exfalso. apply (Hgb j Hj).
    cbn in To. by apply eq_sym, bool_decide_eq_true in To.
  - destruct Hd as [->|Hd]; [done|]. assert (gated q = false) as Hq by (rewrite Tg; by apply bool_decide_eq_false, Hd).
    destruct q as [| | | [] | [] | | | | | | | | | |]; done.
  - intros c l ->. apply Hst, (Ts _ _ eq_refl).
Qed.

Lemma others_quiet σ σ' g i : data σ' = data σ -> owner σ' = owner σ -> readers σ' = readers σ ->
  (reapStop σ = true -> reapStop σ' = true) -> others_ok σ σ' g g i.
Proof. intros Hd Ho Hr Hs. apply others_gen; auto; [by rewrite Ho|destruct g; auto]. Qed.

(** ** Preservation *)

Lemma readers_set i p p' σ σ' : threads σ !! i = Some p -> threads σ' = <[i := p']> (threads σ) ->
  reading p' = reading p -> readers σ' = readers σ.
Proof. intros Hi Hts Hr. unfold readers. rewrite Hts. by eapply readers_insert. Qed.

(** A step that changes neither the data, nor the owner, nor the gate. *)
Lemma inv_quiet σ σ' g i p p' : inv g σ -> threads σ !! i = Some p -> threads σ' = <[i := p']> (threads σ) ->
  data σ' = data σ -> owner σ' = owner σ -> compacting σ' = compacting σ ->
  (reapStop σ = true -> reapStop σ' = true) ->
  owns p' = owns p -> gated p' = gated p -> reading p' = reading p -> (excl p' = true -> excl p = true) ->
  (forall w k l, p' <> Parked w k l) -> (forall ss k l, p' = Body ss XUnlock k l -> g = None) ->
  built (data σ) p' -> (forall c l, p' = StopWait c l -> reapStop σ' = true) -> inv g σ'.
Proof.
  intros HI Hi Hts Hd Ho Hc Hs Eo Eg Er Ee Ep Eb Eu Est. destruct (inv_threads _ _ HI _ _ Hi) as [To Tg Te Tp Tb Tu Tst].
  assert (readers σ' = readers σ) as Hr by (by eapply readers_set).
  eapply (inv_update σ σ' g g i p p'); auto.
  - by apply others_quiet.
  - split; auto.
    + by rewrite Eo, Ho.
    + by rewrite Eg.
    + intros He. rewrite Hr. auto.
    + intros w k l E. by destruct (Ep w k l).
    + by rewrite Hd.
  - by rewrite Hc, (inv_compacting _ _ HI).
Qed.

(** The lock is let go. *)
Lemma inv_release σ σ' g g' i p p' : inv g σ -> threads σ !! i = Some p -> threads σ' = <[i := p']> (threads σ) ->
  owner σ = Some i -> reading p = false ->
  data σ' = data σ -> owner σ' = None -> reapStop σ' = reapStop σ -> (g' = g \/ (g = None /\ g' = Some i)) ->
  compacting σ' = bool_decide (g' <> None) ->
  owns p' = false -> gated p' = bool_decide (g' = Some i) -> reading p' = false ->
  (forall w k l, p' = Parked w k l -> g' <> None) -> built (data σ) p' -> (forall c l, p' <> StopWait c l) -> inv g' σ'.
Proof.
  intros HI Hi Hts Hown Hrp Hd Ho Hs Hg Hc Eo Eg Er Ep Eu Est.
  assert (readers σ' = readers σ) as Hr by (eapply readers_set; [done..|congruence]).
  assert (forall j, j <> i -> owner σ <> Some j) by (intros j; rewrite Hown; congruence).
  eapply (inv_update σ σ' g g' i p p'); auto.
  - apply others_gen; auto; try congruence.
    + intros j Hj. rewrite Ho, Hown. split; congruence.
    + intros j Hj. destruct Hg as [->|[-> ->]]; [done|]. split; congruence.
    + destruct Hg as [->|[-> ->]]; [destruct g; auto|by left].
  - split; auto.
    + by rewrite Eo, Ho.
    + intros He. by destruct p'.
    + intros ss k l ->. done.
    + by rewrite Hd.
    + intros c l E. by destruct (Est c l).
  - destruct Hg as [->|[-> ->]]; auto.
Qed.

(** The lock changes hands or its holder acts on the data. *)
Lemma inv_holder σ σ' g i p p' : inv g σ -> threads σ !! i = Some p -> threads σ' = <[i := p']> (threads σ) ->
  (owner σ = None \/ owner σ = Some i) -> owner σ' = Some i -> reading p = false ->
  (data σ' = data σ \/ owns p = true /\ (g = None \/ g = Some i)) ->
  reapStop σ' = reapStop σ -> compacting σ' = compacting σ ->
  owns p' = true -> gated p' = gated p -> (excl p' = true -> readers σ = false) ->
  (forall ss k l, p' = Body ss XUnlock k l -> g = None) -> built (data σ') p' -> inv g σ'.
Proof.
  intros HI Hi Hts Hown Ho Hrp Hd Hs Hc Eo Eg Ee Eb Eu. destruct (inv_threads _ _ HI _ _ Hi) as [To Tg Te Tp Tb Tu Tst].
  assert (readers σ' = readers σ) as Hr by (eapply readers_set; [done..|]; rewrite Hrp; by destruct p').
  assert (forall j, j <> i -> owner σ <> Some j) by (intros j; destruct Hown as [->| ->]; congruence).
  eapply (inv_update σ σ' g g i p p'); auto.
  - apply others_gen; auto; try congruence.
    + intros j Hj. rewrite Ho. destruct Hown as [->| ->]; split; congruence.
    + destruct Hd as [?|[_ Hg]]; [by left|right]. intros j Hj. destruct Hg as [->| ->]; congruence.
    + destruct g; auto.
  - split; auto.
    + rewrite Eo, Ho. symmetry. by apply bool_decide_eq_true.
    + by rewrite Eg.
    + by rewrite Hr.
    + by intros w k l ->.
    + by intros c l ->.
  - by rewrite Hc, (inv_compacting _ _ HI).
Qed.

Lemma owner_of g σ i p : inv g σ -> threads σ !! i = Some p -> owns p = true -> owner σ = Some i.
Proof. intros HI Hi Hp. pose proof (tk_owns _ _ _ _ (inv_threads _ _ HI _ _ Hi)) as E. rewrite Hp in E. by apply eq_sym, bool_decide_eq_true in E. Qed.

Lemma gate_of g σ i p : inv g σ -> threads σ !! i = Some p -> gated p = true -> g = Some i.
Proof. intros HI Hi Hp. pose proof (tk_gated _ _ _ _ (inv_threads _ _ HI _ _ Hi)) as E. rewrite Hp in E. by apply eq_sym, bool_decide_eq_true in E. Qed.

Lemma not_gate g σ i p : inv g σ -> threads σ !! i = Some p -> gated p = false -> g <> Some i.
Proof. intros HI Hi Hp. pose proof (tk_gated _ _ _ _ (inv_threads _ _ HI _ _ Hi)) as E. rewrite Hp in E. by apply eq_sym, bool_decide_eq_false in E. Qed.

Lemma inv_start g σ i p l : inv g σ -> threads σ !! i = Some (Next p l) -> inv g (start i p l σ).
Proof.
  intros HI Hi. unfold start. destruct p as [|[go [ls|chk ss|r|]] p]; [|destruct (go l)..];
    by (eapply (inv_quiet σ _ g i); [done|exact Hi|reflexivity|..]).
Qed.

Lemma inv_rlock g σ i ls p l : inv g σ -> threads σ !! i = Some (RLocking ls p l) -> owner σ = None ->
  inv g (set_pc i (Reading ls p l) σ).
Proof.
  intros HI Hi Ho. pose proof (not_gate _ _ _ _ HI Hi eq_refl) as Hg.
  eapply (inv_update σ _ g g i); [done|exact Hi|reflexivity| | |by left|by left|by apply (inv_compacting _ _ HI)].
  - apply others_gen; auto; [by right; rewrite Ho|destruct g; auto].
  - split; try done; cbn; [rewrite Ho|]; symmetry; by apply bool_decide_eq_false.
Qed.

Lemma inv_runlock g σ i p l : inv g σ -> threads σ !! i = Some (Reading [] p l) -> inv g (set_pc i (Next p l) σ).
Proof.
  intros HI Hi. destruct (inv_threads _ _ HI _ _ Hi) as [To Tg _ _ _ _ _].
  eapply (inv_update σ _ g g i); [done|exact Hi|reflexivity| |by split|by left|by left|by apply (inv_compacting _ _ HI)].
  intros j q Hj Hq [Uo Ug Ue Up Ub Uu Ust]. split; auto.
  intros He. specialize (Ue He). by rewrite (readers_true i _ σ Hi) in Ue.
Qed.

Lemma inv_read g σ i ls p l : inv g σ -> threads σ !! i = Some (Reading ls p l) -> inv g (read_step reap_cap i ls p l σ).
Proof.
  intros HI Hi. destruct ls as [|[f|c] ls]; cbn [read_step]; [by apply inv_runlock|..].
  - by (eapply (inv_quiet σ _ g i); [done|exact Hi|reflexivity|..]).
  - unfold reapAsync. destruct (c _ _) as [q|]; [destruct (_ <? _)|];
      by (eapply (inv_quiet σ _ g i); [done|exact Hi|reflexivity|..]).
Qed.

Lemma inv_draining g σ i s k l : inv g σ -> threads σ !! i = Some (Locking s k l) -> owner σ = None ->
  inv g (set_owner (Some i) (set_pc i (Draining s k l) σ)).
Proof.
  intros HI Hi Ho. pose proof (tk_built _ _ _ _ (inv_threads _ _ HI _ _ Hi)) as Hb.
  by (eapply (inv_holder σ _ g i); [done|exact Hi|reflexivity|auto..]).
Qed.

Lemma inv_granted g σ i s k l : inv g σ -> threads σ !! i = Some (Draining s k l) -> readers σ = false ->
  inv g (set_pc i (granted s k l) σ).
Proof.
  intros HI Hi Hr. pose proof (owner_of _ _ _ _ HI Hi eq_refl) as Ho.
  by (eapply (inv_holder σ _ g i); [done|exact Hi|reflexivity|auto; by destruct s..]).
Qed.

Lemma inv_lockWrite g σ i w k l e σ' : inv g σ -> threads σ !! i = Some (Testing w k l) ->
  lockWrite closed i w k l σ = (e, σ') -> exists g', inv g' σ'.
Proof.
  intros HI Hi. pose proof (owner_of _ _ _ _ HI Hi eq_refl) as Ho. pose proof (not_gate _ _ _ _ HI Hi eq_refl) as Hg.
  pose proof (tk_excl _ _ _ _ (inv_threads _ _ HI _ _ Hi) eq_refl) as Hr.
  pose proof (inv_compacting _ _ HI) as Hc. unfold lockWrite, raiseGate. destruct (compacting σ) eqn:Ec.
  { intros [= <- <-]. exists g. symmetry in Hc. apply bool_decide_eq_true in Hc.
    eapply (inv_release σ _ g g i); [done|exact Hi|reflexivity|auto..]; cbn;
      first [done | by rewrite Ec; symmetry; apply bool_decide_eq_true | by symmetry; apply bool_decide_eq_false]. }
  symmetry in Hc. apply bool_decide_eq_false, dec_stable in Hc. subst g.
  destruct w as [chk ss|r]; [destruct (chk && closed (data σ))|destruct (closed (data σ))]; intros [= <- <-].
  - exists None. eapply (inv_release σ _ None None i); [done|exact Hi|reflexivity|auto..]; destruct k; done.
  - exists None. by (eapply (inv_holder σ _ None i); [done|exact Hi|reflexivity|auto..]).
  - exists None. eapply (inv_release σ _ None None i); [done|exact Hi|reflexivity|auto..]; destruct k; done.
  - exists (Some i). eapply (inv_release σ _ None (Some i) i); [done|exact Hi|reflexivity|auto..]; cbn; try done.
    symmetry. by apply bool_decide_eq_true.
Qed.

(** The gate seen from a body: down for an ordinary mutation, raised by the
    goroutine itself in a swap. *)
Lemma body_gate g σ i ss x k l : inv g σ -> threads σ !! i = Some (Body ss x k l) ->
  (x = XUnlock -> g = None) /\ (g = None \/ g = Some i).
Proof.
  intros HI Hi. destruct x as [|r|].
  - assert (g = None) by (eapply tk_body; [by apply (inv_threads _ _ HI _ _ Hi)|done]). auto.
  - assert (g = Some i) by (by eapply gate_of). split; [done|auto].
  - assert (g = Some i) by (by eapply gate_of). split; [done|auto].
Qed.

Lemma inv_stmt g σ i s ss x k l σ' : inv g σ -> threads σ !! i = Some (Body (s :: ss) x k l) ->
  stmt_step i s ss x k l σ = Some σ' -> inv g σ'.
Proof.
  intros HI Hi Hst. pose proof (owner_of _ _ _ _ HI Hi eq_refl) as Ho. destruct (body_gate _ _ _ _ _ _ _ HI Hi) as [Hx Hg].
  pose proof (tk_excl _ _ _ _ (inv_threads _ _ HI _ _ Hi) eq_refl) as Hr.
  assert (forall σ1 l', threads σ1 = threads σ -> owner σ1 = owner σ -> reapStop σ1 = reapStop σ ->
            compacting σ1 = compacting σ -> inv g (set_pc i (Body ss x k l') σ1)) as Hgen.
  { intros σ1 l' E1 E2 E3 E4. eapply (inv_holder σ _ g i); [done|exact Hi|cbn; by rewrite E1|auto..]; cbn; try done; try congruence.
    intros ? ? ? [= _ -> _ _]. by apply Hx. }
  destruct s as [f|c|c|c|c]; cbn [stmt_step] in Hst.
  - destruct (f (data σ) l) as [d' l']. injection Hst as <-. by apply Hgen.
  - injection Hst as <-. unfold maybeWriteHint. destruct (c _ _), (hint σ); by apply Hgen.
  - injection Hst as <-. destruct (c _ _); by apply Hgen.
  - destruct (c _ _); [destruct (hint_locked (hint σ)); [done|]|]; injection Hst as <-; by apply Hgen.
  - destruct (c _ _ && _); [done|]. injection Hst as <-. by apply Hgen.
Qed.

Lemma after_rewrite_gated r l k l' : gated (Locking (after_rewrite r l) k l') = true
  /\ forall d, built d (Locking (after_rewrite r l) k l').
Proof. unfold after_rewrite. destruct (rw_check r); [destruct (rw_bad r l)|]; done. Qed.

Lemma inv_body g σ i ss x k l σ' : inv g σ -> threads σ !! i = Some (Body ss x k l) ->
  body_step i ss x k l σ = Some σ' -> inv g σ'.
Proof.
  intros HI Hi. destruct ss as [|s ss]; cbn [body_step]; [|by apply inv_stmt]. intros [= <-].
  pose proof (owner_of _ _ _ _ HI Hi eq_refl) as Ho. destruct (body_gate _ _ _ _ _ _ _ HI Hi) as [Hx _].
  destruct x as [|r|].
  - rewrite (Hx eq_refl) in *. eapply (inv_release σ _ None None i); [done|exact Hi|reflexivity|auto..];
      try (by destruct k). by apply (inv_compacting _ _ HI).
  - destruct (after_rewrite_gated r l k l) as [Eg Eb]. pose proof (gate_of _ _ _ _ HI Hi eq_refl) as ->.
    eapply (inv_release σ _ (Some i) (Some i) i); [done|exact Hi|reflexivity|auto..];
      first [done|by apply (inv_compacting _ _ HI)|rewrite Eg; symmetry; by apply bool_decide_eq_true].
  - pose proof (gate_of _ _ _ _ HI Hi eq_refl) as ->.
    eapply (inv_release σ _ (Some i) (Some i) i); [done|exact Hi|reflexivity|auto..];
      first [done|by apply (inv_compacting _ _ HI)|symmetry; by apply bool_decide_eq_true].
Qed.

Lemma inv_build g σ i fs r k l0 l e σ' : inv g σ -> threads σ !! i = Some (Building fs r k l0 l) ->
  build_step i fs r k l0 l σ = (e, σ') -> inv g σ'.
Proof.
  intros HI Hi. pose proof (tk_built _ _ _ _ (inv_threads _ _ HI _ _ Hi)) as Hb.
  destruct fs as [|f fs]; cbn [build_step built gather] in *; [destruct (rw_bad r l) eqn:Ebad|]; intros [= <- <-].
  - destruct (after_rewrite_gated r l k l) as [Eg Eb].
    by (eapply (inv_quiet σ _ g i); [done|exact Hi|reflexivity|..]).
  - by (eapply (inv_quiet σ _ g i); [done|exact Hi|reflexivity|..]).
  - by (eapply (inv_quiet σ _ g i); [done|exact Hi|reflexivity|..]).
Qed.

(** [lowerGate]: nobody is behind the gate any more and nobody is parked. *)
Lemma inv_lower g σ i k l : inv g σ -> threads σ !! i = Some (Lowering k l) -> inv None (lowerGate i k l σ).
Proof.
  intros HI Hi. pose proof (owner_of _ _ _ _ HI Hi eq_refl) as Ho. pose proof (gate_of _ _ _ _ HI Hi eq_refl) as ->.
  pose proof (tk_excl _ _ _ _ (inv_threads _ _ HI _ _ Hi) eq_refl) as Hr.
  split; try done. intros j q. cbn. intros [(<- & <- & _)|[Hj Hq]]%list_lookup_insert_Some.
  { split; try (by destruct k). }
  rewrite list_lookup_fmap in Hq. destruct (threads σ !! j) as [p|] eqn:Ep; [|done]. injection Hq as <-.
  destruct (inv_threads _ _ HI _ _ Ep) as [To Tg Te Tp Tb Tu Tst].
  rewrite bool_decide_eq_false_2 in To by congruence. rewrite bool_decide_eq_false_2 in Tg by congruence.
  split; cbn; by destruct p.
Qed.

(** ** The invariant holds throughout *)
Lemma inv_thread g σ i b e σ' : inv g σ -> thread_step i b σ = Some (e, σ') -> exists g', inv g' σ'.
Proof.
  intros HI. unfold Gate.thread_step. destruct (threads σ !! i) as [p|] eqn:Hi; [|done]. cbn [mbind option_bind].
  destruct p as [p l|ls p l|ls p l|s k l|s k l|w k l|w k l|ss x k l|fs r k l0 l|k l|p l| |q|ok l|]; intros Hs; try done.
  - injection Hs as <- <-. exists g. by apply inv_start.
  - destruct (owner σ) eqn:Ho; [done|]. exists g. destruct (closed _); injection Hs as <- <-.
    + by (eapply (inv_quiet σ _ g i); [done|exact Hi|reflexivity|..]).
    + by apply inv_rlock.
  - injection Hs as <- <-. exists g. by apply inv_read.
  - destruct (owner σ) eqn:Ho; [done|]. injection Hs as <- <-. exists g. by apply inv_draining.
  - destruct (existsb _ _) eqn:Hr; [done|]. injection Hs as <- <-. exists g. by apply inv_granted.
  - apply (inj Some) in Hs. by eapply inv_lockWrite.
  - destruct (body_step _ _ _ _ _ _) as [σ1|] eqn:Hb; [|done]. injection Hs as <- <-. exists g. by eapply inv_body.
  - apply (inj Some) in Hs. exists g. by eapply inv_build.
  - injection Hs as <- <-. exists None. by eapply inv_lower.
  - destruct (existsb _ _); [done|]. injection Hs as <- <-. exists g.
    by (eapply (inv_quiet σ _ g i); [done|exact Hi|reflexivity|..]).
  - exists g. destruct (reap_idle _ _ _) as [σ1|] eqn:Hr; [|done]. injection Hs as <- <-. unfold reap_idle in Hr.
    destruct b; [destruct (reapStop σ); [|done]|destruct (reapCh σ) as [|q qs]; [done|]]; injection Hr as <-;
      by (eapply (inv_quiet σ _ g i); [done|exact Hi|reflexivity|..]).
  - apply (inj Some) in Hs. exists g. unfold reap_drain in Hs. destruct (reapCh σ) as [|x qs]; [|destruct (_ <? _)]; injection Hs as <- <-;
      by (eapply (inv_quiet σ _ g i); [done|exact Hi|reflexivity|..]).
Qed.

Lemma inv_hint g σ b σ' : inv g σ -> writeHintAsync b σ = Some σ' -> inv g σ'.
Proof.
  intros [It Io Ig Ic] Hs. assert (threads σ' = threads σ /\ owner σ' = owner σ /\ compacting σ' = compacting σ
    /\ data σ' = data σ /\ reapStop σ' = reapStop σ) as (E1 & E2 & E3 & E4 & E5).
  { unfold writeHintAsync in Hs. destruct (hint σ), b; try done; by injection Hs as <-. }
  split; rewrite ?E1, ?E2, ?E3; auto. intros i p Hi. destruct (It i p Hi).
  split; unfold readers; rewrite ?E1, ?E2, ?E4, ?E5; auto.
Qed.

Lemma inv_step g σ e σ' : inv g σ -> step σ e σ' -> exists g', inv g' σ'.
Proof. intros HI Hs. inversion Hs; subst; [by eapply inv_thread|]. exists g. by eapply inv_hint. Qed.

Lemma inv_init d (calls : list (call * L)) : inv None (init d calls).
Proof.
  split; try done. intros [|i] p Hi; [by injection Hi as <-|].
  change (((fun c : call * L => Next c.1 c.2 : pc) <$> calls) !! i = Some p) in Hi. rewrite list_lookup_fmap in Hi. destruct (calls !! i); [|done]. injection Hi as <-. by split.
Qed.

Lemma inv_exec d calls n tr σ : exec (init d calls) n tr σ -> exists g, inv g σ.
Proof.
  induction 1 as [|n tr σ1 e σ2 _ [g IH] Hs]; [exists None; apply inv_init|by eapply inv_step].
Qed.

(** ** Serializability *)

#[local] Abbreviation seq_step := (seq_step of_batch).
#[local] Abbreviation seq_run := (seq_run of_batch).

(** What the locals of a goroutine, and the data, will be when the critical
    section it is in is over. *)
Definition forecast (d : D) (p : pc) : option L :=
  match p with
  | Reading ls _ l => Some (run_looks ls d l)
  | Body ss _ _ l => Some (run_stmts ss d l).2
  | Building _ _ _ l0 _ | Locking (SSwap _ l0) _ _ | Draining (SSwap _ l0) _ _ => Some l0
  | Next _ l | RLocking _ _ l | Locking _ _ l | Draining _ _ l | Testing _ _ l | Parked _ _ l
  | Lowering _ l | StopWait _ l | Done _ l => Some l
  | RIdle | RDraining _ | Gone => None
  end.

Definition body_data (d : D) (p : pc) : D :=
  match p with Body ss _ _ l => (run_stmts ss d l).1 | _ => d end.

Definition abs (σ : state) : D :=
  match owner σ with
  | Some i => from_option (body_data (data σ)) (data σ) (threads σ !! i)
  | None => data σ
  end.

Definition sim (σ : state) (s : D * gmap nat L) : Prop :=
  abs σ = s.1 /\ forall i p l, threads σ !! i = Some p -> forecast (data σ) p = Some l -> s.2 !! i = Some l.

Lemma abs_owner i p σ : owner σ = Some i -> threads σ !! i = Some p -> abs σ = body_data (data σ) p.
Proof. intros Ho Hi. unfold abs. by rewrite Ho, Hi. Qed.

Lemma abs_free σ : owner σ = None -> abs σ = data σ.
Proof. intros Ho. unfold abs. by rewrite Ho. Qed.

Lemma abs_frame i p' σ σ' : threads σ' = <[i := p']> (threads σ) -> data σ' = data σ -> owner σ' = owner σ ->
  owner σ <> Some i -> abs σ' = abs σ.
Proof.
  intros Hts Hd Ho Hne. unfold abs. rewrite Ho, Hd, Hts. destruct (owner σ) as [j|]; [|done].
  rewrite list_lookup_insert_ne; [done|congruence].
Qed.

(** Outside a reader and a body, the forecast does not look at the data. *)
Lemma forecast_data d d' p : reading p = false -> (forall ss x k l, p <> Body ss x k l) -> forecast d p = forecast d' p.
Proof. intros Hr Hb. destruct p; try done. by destruct (Hb ss x k l). Qed.

Lemma forecast_stable g σ i p d' j q : inv g σ -> threads σ !! i = Some p -> excl p = true -> j <> i ->
  threads σ !! j = Some q -> forecast (data σ) q = forecast d' q.
Proof.
  intros HI Hi He Hj Hq. apply forecast_data.
  - destruct (reading q) eqn:Hr; [|done]. pose proof (tk_excl _ _ _ _ (inv_threads _ _ HI _ _ Hi) He) as E.
    by rewrite (readers_true j q σ Hq Hr) in E.
  - intros ss x k l ->. assert (owns p = true) as Hp by (by destruct p).
    pose proof (owner_of _ _ _ _ HI Hi Hp). pose proof (owner_of _ _ _ _ HI Hq eq_refl). congruence.
Qed.

Lemma sim_move σ σ' i p p' s s' : sim σ s -> threads σ !! i = Some p -> threads σ' = <[i := p']> (threads σ) ->
  (forall j q, j <> i -> threads σ !! j = Some q -> forecast (data σ) q = forecast (data σ') q) ->
  (forall j, j <> i -> s'.2 !! j = s.2 !! j) ->
  (forall l, forecast (data σ') p' = Some l -> s'.2 !! i = Some l) -> abs σ' = s'.1 -> sim σ' s'.
Proof.
  intros [Ha Hm] Hi Hts Hf Hm' Hnew Ha'. split; [done|]. intros j q l. rewrite Hts.
  intros [(<- & <- & _)|[Hj Hq]]%list_lookup_insert_Some; [by auto|]. intros Hl.
  rewrite Hm' by congruence. apply (Hm j q l Hq). rewrite (Hf j q); auto.
Qed.

(** A silent step. *)
Lemma sim_silent σ σ' i p p' s : sim σ s -> threads σ !! i = Some p -> threads σ' = <[i := p']> (threads σ) ->
  (forall j q, j <> i -> threads σ !! j = Some q -> forecast (data σ) q = forecast (data σ') q) ->
  (forall l, forecast (data σ') p' = Some l -> forecast (data σ) p = Some l) -> abs σ' = abs σ -> sim σ' s.
Proof.
  intros Hs Hi Hts Hf Hp Ha. eapply (sim_move σ σ' i p p' s s); auto.
  - intros l Hl. by eapply (proj2 Hs), Hp.
  - rewrite Ha. by apply Hs.
Qed.

(** A silent step of a goroutine that does not own the lock. *)
Lemma sim_quiet g σ σ' i p p' s : inv g σ -> sim σ s -> threads σ !! i = Some p -> owns p = false ->
  threads σ' = <[i := p']> (threads σ) -> data σ' = data σ -> owner σ' = owner σ ->
  (forall l, forecast (data σ) p' = Some l -> forecast (data σ) p = Some l) -> sim σ' s.
Proof.
  intros HI Hs Hi Hp Hts Hd Ho Hf. eapply (sim_silent σ σ' i p p' s); auto; rewrite ?Hd; auto.
  eapply abs_frame; eauto. pose proof (tk_owns _ _ _ _ (inv_threads _ _ HI _ _ Hi)) as E. rewrite Hp in E.
  by apply eq_sym, bool_decide_eq_false in E.
Qed.

(** A step of the owner of the lock that leaves the data alone, outside a
    body before and after. *)
Lemma sim_owner g σ σ' i p p' s : inv g σ -> sim σ s -> threads σ !! i = Some p ->
  (owner σ = Some i \/ owner σ = None) -> (owner σ' = Some i \/ owner σ' = None) ->
  threads σ' = <[i := p']> (threads σ) -> data σ' = data σ ->
  body_data (data σ) p = data σ -> body_data (data σ) p' = data σ ->
  (forall l, forecast (data σ) p' = Some l -> forecast (data σ) p = Some l) -> sim σ' s.
Proof.
  intros HI Hs Hi Ho Ho' Hts Hd Hb Hb' Hf. assert (i < length (threads σ)) by (by eapply lookup_lt_Some).
  assert (threads σ' !! i = Some p') as Hi' by (rewrite Hts; by apply list_lookup_insert_eq).
  eapply (sim_silent σ σ' i p p' s); auto; rewrite ?Hd; auto. trans (data σ).
  - destruct Ho' as [E|E]; [rewrite (abs_owner i p' σ') by done|rewrite abs_free by done]; by rewrite Hd.
  - destruct Ho as [E|E]; [rewrite (abs_owner i p σ) by done|rewrite abs_free by done]; done.
Qed.

(** A step that makes a critical section of [i] take its effect: the data as
    forecast and the locals as forecast are those of the section run at once. *)
Lemma sim_event g σ σ' i p p' e s l : inv g σ -> sim σ s -> threads σ !! i = Some p -> forecast (data σ) p = Some l ->
  abs σ = data σ -> data σ' = data σ -> threads σ' = <[i := p']> (threads σ) ->
  abs σ' = (atomic of_batch e (data σ) l).1 -> forecast (data σ) p' = Some (atomic of_batch e (data σ) l).2 ->
  (forall b, e <> EvBatch b) -> exists s', seq_run s [(i, e)] = Some s' /\ sim σ' s'.
Proof.
  intros HI Hs Hi Hl Ha Hd Hts Ha' Hf He. pose proof Hs as [Hs1 Hs2]. pose proof (Hs2 i p l Hi Hl) as Hil.
  exists ((atomic of_batch e (data σ) l).1, <[i := (atomic of_batch e (data σ) l).2]> s.2). split.
  - cbn [Gate.seq_run]. unfold Gate.seq_step. cbn [fst snd]. rewrite <- Hs1, Ha, Hil. cbn [mbind option_bind].
    destruct (atomic of_batch e (data σ) l) as [d' l'] eqn:E. destruct e; try (by destruct (He b)); by rewrite E.
  - eapply (sim_move σ σ' i p p' s); auto; rewrite ?Hd; auto; cbn [snd].
    + intros j Hj. by rewrite lookup_insert_ne by congruence.
    + intros l1 Hl1. rewrite Hf in Hl1. injection Hl1 as <-. by rewrite lookup_insert_eq.
Qed.

(** While the gate is up no other goroutine is in a body. *)
Lemma abs_gated g σ i p : inv g σ -> threads σ !! i = Some p -> gated p = true -> owns p = false -> abs σ = data σ.
Proof.
  intros HI Hi Hp Ho. pose proof (gate_of _ _ _ _ HI Hi Hp) as ->. unfold abs. destruct (owner σ) as [j|] eqn:Hj; [|done].
  destruct (threads σ !! j) as [q|] eqn:Hq; [|done]. cbn [from_option]. destruct q as [| | | | | | |ss x k l| | | | | | |]; try done.
  destruct (body_gate _ _ _ _ _ _ _ HI Hq) as [_ [?|[= ->]]]; [done|]. rewrite Hi in Hq. by injection Hq as ->.
Qed.

Lemma sim_read g σ s i ls p l : inv g σ -> sim σ s -> threads σ !! i = Some (Reading ls p l) ->
  sim (read_step reap_cap i ls p l σ) s.
Proof.
  intros HI Hs Hi. destruct ls as [|[f|c] ls]; cbn [read_step].
  - by eapply (sim_quiet g σ _ i).
  - by eapply (sim_quiet g σ _ i).
  - unfold reapAsync. destruct (c _ _) as [q|]; [destruct (_ <? _)|]; by eapply (sim_quiet g σ _ i).
Qed.

Lemma sim_start g σ s i p l : inv g σ -> sim σ s -> threads σ !! i = Some (Next p l) -> sim (start i p l σ) s.
Proof.
  intros HI Hs Hi. unfold start. destruct p as [|[go [ls|chk ss|r|]] p]; [|destruct (go l)..]; by eapply (sim_quiet g σ _ i).
Qed.

Lemma sim_granted g σ s i st k l : inv g σ -> sim σ s -> threads σ !! i = Some (Draining st k l) ->
  exists s', seq_run s (option_list (e ← granted_event st; Some (i, e))) = Some s' /\ sim (set_pc i (granted st k l) σ) s'.
Proof.
  intros HI Hs Hi. pose proof (owner_of _ _ _ _ HI Hi eq_refl) as Ho.
  assert (i < length (threads σ)) as Hlt by (by eapply lookup_lt_Some).
  assert (abs σ = data σ) as Ha by (by rewrite (abs_owner i _ _ Ho Hi)).
  destruct st as [w|r l0|cs|].
  - exists s. split; [done|]. by (eapply (sim_owner g σ _ i); [done|done|exact Hi|by left|by left|..]).
  - pose proof (tk_built _ _ _ _ (inv_threads _ _ HI _ _ Hi)) as [Hl Hb].
    eapply (sim_event g σ _ i); [done|done|exact Hi|reflexivity|done|reflexivity|reflexivity|..|done];
      cbn [atomic]; rewrite <- Hl, Hb; [|done].
    rewrite (abs_owner i (Body (rw_swap r) (XSwap r) k l)); [done|done|]. by apply list_lookup_insert_eq.
  - eapply (sim_event g σ _ i); [done|done|exact Hi|reflexivity|done|reflexivity|reflexivity|..|done]; [|done].
    rewrite (abs_owner i (Body cs XCheck k l)); [done|done|]. by apply list_lookup_insert_eq.
  - exists s. split; [done|]. by (eapply (sim_owner g σ _ i); [done|done|exact Hi|by left|by left|..]).
Qed.

Lemma sim_lockWrite g σ s i w k l e σ' : inv g σ -> sim σ s -> threads σ !! i = Some (Testing w k l) ->
  lockWrite closed i w k l σ = (e, σ') ->
  exists s', seq_run s (option_list (e' ← e; Some (i, e'))) = Some s' /\ sim σ' s'.
Proof.
  intros HI Hs Hi. pose proof (owner_of _ _ _ _ HI Hi eq_refl) as Ho.
  assert (i < length (threads σ)) as Hlt by (by eapply lookup_lt_Some).
  assert (abs σ = data σ) as Ha by (by rewrite (abs_owner i _ _ Ho Hi)).
  assert (forall p' σ', threads σ' = <[i := p']> (threads σ) -> data σ' = data σ -> owner σ' = None ->
            (forall l', forecast (data σ) p' = Some l' -> l' = l) -> body_data (data σ) p' = data σ -> sim σ' s) as Hout.
  { intros p' σ1 Hts Hd Hn Hf Hb. eapply (sim_owner g σ _ i); [done|done|exact Hi|by left|by right|done..|].
    intros l' Hl'. by rewrite (Hf l' Hl'). }
  unfold lockWrite, raiseGate. destruct (compacting σ); [intros [= <- <-]; exists s; split; [done|]; eapply Hout; [done..| |done]; by intros l' [= <-]|].
  destruct w as [chk ss|r]; [destruct (chk && closed (data σ))|destruct (closed (data σ))]; intros [= <- <-].
  - exists s. split; [done|]. eapply Hout; [done..| |by destruct k]. destruct k; [by intros l' [= <-]|done].
  - eapply (sim_event g σ _ i); [done|done|exact Hi|reflexivity|done|reflexivity|reflexivity|..|done]; [|done].
    rewrite (abs_owner i (Body ss XUnlock k l)); [done|done|]. by apply list_lookup_insert_eq.
  - exists s. split; [done|]. eapply Hout; [done..| |by destruct k]. destruct k; [by intros l' [= <-]|done].
  - exists s. split; [done|]. eapply Hout; [done..| |done]. by intros l' [= <-].
Qed.

Lemma forecast_after r l k d : forecast d (Locking (after_rewrite r l) k l) = Some l.
Proof. unfold after_rewrite. destruct (rw_check r); [destruct (rw_bad r l)|]; done. Qed.

Lemma sim_stmt g σ s i st ss x k l σ' : inv g σ -> sim σ s -> threads σ !! i = Some (Body (st :: ss) x k l) ->
  stmt_step i st ss x k l σ = Some σ' -> sim σ' s.
Proof.
  intros HI Hs Hi Hst. pose proof (owner_of _ _ _ _ HI Hi eq_refl) as Ho.
  assert (i < length (threads σ)) as Hlt by (by eapply lookup_lt_Some).
  assert (forall σ1 l', threads σ1 = threads σ -> owner σ1 = owner σ ->
            run_stmts ss (data σ1) l' = run_stmts (st :: ss) (data σ) l -> sim (set_pc i (Body ss x k l') σ1) s) as Hgen.
  { intros σ1 l' E1 E2 Er. eapply (sim_silent σ _ i); [done|exact Hi|cbn; by rewrite E1|..].
    - intros j q Hj Hq. exact (forecast_stable g σ i _ _ j q HI Hi eq_refl Hj Hq).
    - intros l1. cbn [forecast data set_pc]. by rewrite Er.
    - rewrite (abs_owner i _ _ Ho Hi), (abs_owner i (Body ss x k l')); [cbn [body_data data set_pc]; by rewrite Er|cbn; congruence|].
      cbn. rewrite E1. by apply list_lookup_insert_eq. }
  destruct st as [f|c|c|c|c]; cbn [stmt_step] in Hst.
  - destruct (f (data σ) l) as [d' l'] eqn:Ef. injection Hst as <-. apply Hgen; [done..|]. cbn. by rewrite Ef.
  - injection Hst as <-. unfold maybeWriteHint. destruct (c _ _), (hint σ); by apply Hgen.
  - injection Hst as <-. destruct (c _ _); by apply Hgen.
  - destruct (c _ _); [destruct (hint_locked (hint σ)); [done|]|]; injection Hst as <-; by apply Hgen.
  - destruct (c _ _ && _); [done|]. injection Hst as <-. by apply Hgen.
Qed.

Lemma sim_body g σ s i ss x k l σ' : inv g σ -> sim σ s -> threads σ !! i = Some (Body ss x k l) ->
  body_step i ss x k l σ = Some σ' -> sim σ' s.
Proof.
  intros HI Hs Hi. destruct ss as [|st ss]; cbn [body_step]; [|by apply (sim_stmt g)]. intros [= <-].
  pose proof (owner_of _ _ _ _ HI Hi eq_refl) as Ho.
  eapply (sim_owner g σ _ i); [done|done|exact Hi|by left|by right|done..| |]; destruct x as [|r|]; try done; try (by destruct k).
  intros l'. by rewrite forecast_after.
Qed.

Lemma sim_build g σ s i fs r k l0 l e σ' : inv g σ -> sim σ s -> threads σ !! i = Some (Building fs r k l0 l) ->
  build_step i fs r k l0 l σ = (e, σ') ->
  exists s', seq_run s (option_list (e' ← e; Some (i, e'))) = Some s' /\ sim σ' s'.
Proof.
  intros HI Hs Hi. pose proof (abs_gated _ _ _ _ HI Hi eq_refl eq_refl) as Ha.
  pose proof (tk_built _ _ _ _ (inv_threads _ _ HI _ _ Hi)) as Hb.
  destruct fs as [|f fs]; cbn [build_step built gather] in *; [destruct (rw_bad r l) eqn:Ebad|]; intros [= <- <-].
  - eapply (sim_event g σ _ i); [done|done|exact Hi|reflexivity|done|reflexivity|reflexivity|..|done];
      cbn [atomic]; rewrite <- Hb, Ebad; cbn [fst snd]; [|by rewrite forecast_after].
    rewrite <- Ha. eapply abs_frame; [done..|]. intros Ho.
    pose proof (tk_owns _ _ _ _ (inv_threads _ _ HI _ _ Hi)) as E. cbn in E. by apply eq_sym, bool_decide_eq_false in E.
  - exists s. split; [done|]. by eapply (sim_quiet g σ _ i).
  - exists s. split; [done|]. by eapply (sim_quiet g σ _ i).
Qed.

Lemma sim_lower g σ s i k l : inv g σ -> sim σ s -> threads σ !! i = Some (Lowering k l) -> sim (lowerGate i k l σ) s.
Proof.
  intros HI Hs Hi. pose proof (owner_of _ _ _ _ HI Hi eq_refl) as Ho. pose proof Hs as [Hs1 Hs2]. split.
  - rewrite <- Hs1, (abs_owner i _ _ Ho Hi). done.
  - intros j q l'. cbn. intros [(<- & <- & _)|[Hj Hq]]%list_lookup_insert_Some.
    + intros Hl. apply (Hs2 i _ l' Hi). by destruct k.
    + rewrite list_lookup_fmap in Hq. destruct (threads σ !! j) as [p|] eqn:Ep; [|done]. injection Hq as <-.
      intros Hl. apply (Hs2 j p l' Ep). by destruct p.
Qed.

Lemma sim_drain g σ s i b e σ' : inv g σ -> sim σ s -> threads σ !! i = Some (RDraining b) ->
  reap_drain of_batch reap_body i b σ = (e, σ') ->
  exists s', seq_run s (option_list (e' ← e; Some (i, e'))) = Some s' /\ sim σ' s'.
Proof.
  intros HI Hs Hi. assert (forall σ', threads σ' = <[i := Locking (SLockWrite (WWrite true reap_body)) KReaper (of_batch b)]> (threads σ) ->
    data σ' = data σ -> owner σ' = owner σ -> exists s', seq_run s [(i, EvBatch b)] = Some s' /\ sim σ' s') as Hev.
  { intros σ1 Hts Hd Ho. eexists. split; [reflexivity|]. eapply (sim_move σ _ i); [done|exact Hi|done|by rewrite Hd|..]; cbn [fst snd].
    - intros j Hj. by rewrite lookup_insert_ne by congruence.
    - intros l [= <-]. by rewrite lookup_insert_eq.
    - rewrite <- (proj1 Hs). eapply abs_frame; [done..|]. intros E.
      pose proof (tk_owns _ _ _ _ (inv_threads _ _ HI _ _ Hi)) as E'. cbn in E'. by apply eq_sym, bool_decide_eq_false in E'. }
  unfold reap_drain. destruct (reapCh σ) as [|q qs]; [|destruct (_ <? _)]; intros [= <- <-]; [by apply Hev| |by apply Hev].
  exists s. split; [done|]. by eapply (sim_quiet g σ _ i).
Qed.

Lemma sim_thread g σ s i b e σ' : inv g σ -> sim σ s -> thread_step i b σ = Some (e, σ') ->
  exists s', seq_run s (option_list (e' ← e; Some (i, e'))) = Some s' /\ sim σ' s'.
Proof.
  intros HI Hs. unfold Gate.thread_step. destruct (threads σ !! i) as [p|] eqn:Hi; [|done]. cbn [mbind option_bind].
  destruct p as [p l|ls p l|ls p l|st k l|st k l|w k l|w k l|ss x k l|fs r k l0 l|k l|p l| |q|ok l|]; intros Hst; try done.
  - injection Hst as <- <-. exists s. split; [done|]. by eapply sim_start.
  - destruct (owner σ) eqn:Ho; [done|]. destruct (closed _); injection Hst as <- <-.
    + exists s. split; [done|]. by eapply (sim_quiet g σ _ i).
    + eapply (sim_event g σ _ i); [done|done|exact Hi|reflexivity|by apply abs_free|reflexivity|reflexivity|..|done]; [|done].
      by apply abs_free.
  - injection Hst as <- <-. exists s. split; [done|]. by eapply sim_read.
  - destruct (owner σ) eqn:Ho; [done|]. injection Hst as <- <-. exists s. split; [done|].
    by (eapply (sim_owner g σ _ i); [done|done|exact Hi|by right|by left|..]).
  - destruct (existsb _ _) eqn:Hr; [done|]. injection Hst as <- <-. by eapply sim_granted.
  - apply (inj Some) in Hst. by eapply sim_lockWrite.
  - destruct (body_step _ _ _ _ _ _) as [σ1|] eqn:Hb; [|done]. injection Hst as <- <-. exists s. split; [done|]. by eapply sim_body.
  - apply (inj Some) in Hst. by eapply sim_build.
  - injection Hst as <- <-. exists s. split; [done|]. by eapply sim_lower.
  - destruct (existsb _ _); [done|]. injection Hst as <- <-. exists s. split; [done|]. by eapply (sim_quiet g σ _ i).
  - destruct (reap_idle _ _ _) as [σ1|] eqn:Hr; [|done]. injection Hst as <- <-. exists s. split; [done|]. unfold reap_idle in Hr.
    destruct b; [destruct (reapStop σ); [|done]|destruct (reapCh σ) as [|q qs]; [done|]]; injection Hr as <-;
      by eapply (sim_quiet g σ _ i).
  - apply (inj Some) in Hst. by eapply sim_drain.
Qed.

Lemma sim_step g σ s e σ' : inv g σ -> sim σ s -> step σ e σ' ->
  exists s', seq_run s (option_list e) = Some s' /\ sim σ' s'.
Proof.
  intros HI Hs Hst. inversion Hst as [i b σ1 e1 σ2 Ht|b σ1 σ2 Ht]; subst; [by eapply sim_thread|].
  exists s. split; [done|]. destruct Hs as [Hs1 Hs2]. unfold sim, abs in *.
  unfold writeHintAsync in Ht. destruct (hint σ), b; try done; by injection Ht as <-.
Qed.

Lemma seq_run_app (s : D * gmap nat L) tr1 tr2 : seq_run s (tr1 ++ tr2) = (s' ← seq_run s tr1; seq_run s' tr2).
Proof.
  revert s. induction tr1 as [|e tr1 IH]; intros s; [done|]. cbn. destruct (Gate.seq_step of_batch s e) as [s1|]; [apply IH|done].
Qed.

Lemma init_locals_lookup (calls : list (@call D L Q * L)) i c : calls !! i = Some c -> init_locals calls !! S i = Some c.2.
Proof.
  intros Hi. unfold init_locals. apply elem_of_list_to_map_1.
  - rewrite fst_zip by (rewrite length_seq, length_fmap; lia). apply NoDup_seq.
  - apply list_elem_of_lookup. exists i. rewrite lookup_zip_with, lookup_seq_lt, list_lookup_fmap, Hi; [done|].
    by eapply lookup_lt_Some.
Qed.

Lemma sim_init d calls : sim (init d calls) (d, init_locals calls).
Proof.
  split; [done|]. intros [|i] p l Hi Hl; [by injection Hi as <-|].
  change (((fun c : call * L => Next c.1 c.2 : pc) <$> calls) !! i = Some p) in Hi. rewrite list_lookup_fmap in Hi.
  destruct (calls !! i) as [c|] eqn:Hc; [|done]. injection Hi as <-. injection Hl as <-. by apply init_locals_lookup.
Qed.

Lemma sim_exec d calls n tr σ : exec (init d calls) n tr σ ->
  exists s, seq_run (d, init_locals calls) tr = Some s /\ sim σ s.
Proof.
  induction 1 as [|n tr σ1 e σ2 He [s [Hr Hs]] Hst].
  - eexists. split; [reflexivity|apply sim_init].
  - destruct (inv_exec _ _ _ _ _ He) as [g HI]. destruct (sim_step g σ1 s e σ2 HI Hs Hst) as (s' & Hr' & Hs').
    exists s'. split; [|done]. by rewrite seq_run_app, Hr.
Qed.

(** C6. Every interleaving of calls, of the reaper and of the hint writer has
    the effect of a sequential run: the critical sections (a read, a mutation
    under lockWrite, a whole Compact, Reindex or BlobsRelieve rewrite with its
    long unlocked build phase) executed one at a time, in the order in which
    they took the lock, give the data of the store whenever nobody holds the
    lock, and the result of every finished call. *)
Theorem gate_serializable d calls n tr σ : exec (init d calls) n tr σ -> owner σ = None ->
  exists m, seq_run (d, init_locals calls) tr = Some (data σ, m)
    /\ forall i ok l, threads σ !! i = Some (Done ok l) -> m !! i = Some l.
Proof.
  intros He Ho. destruct (sim_exec _ _ _ _ _ He) as ([d' m] & Hr & Ha & Hm). exists m. split.
  - rewrite Hr. rewrite (abs_free _ Ho) in Ha. by rewrite Ha.
  - intros i ok l Hi. by eapply Hm.
Qed.

(** ** Mutual exclusion and the frozen store *)

Lemma step_data σ e σ' : step σ e σ' -> data σ' = data σ
  \/ exists i ss x k l, threads σ !! i = Some (Body ss x k l).
Proof.
  intros Hs. inversion Hs as [i b σ1 e1 σ2 Ht|b σ1 σ2 Ht]; subst.
  - unfold Gate.thread_step in Ht. destruct (threads σ !! i) as [p|] eqn:Hi; [|done]. cbn [mbind option_bind] in Ht.
    destruct p as [p l|ls p l|ls p l|st k l|st k l|w k l|w k l|ss x k l|fs r k l0 l|k l|p l| |q|ok l|]; try done.
    all: try (right; by eauto 10). all: left.
    + injection Ht as _ <-. unfold start. destruct p as [|[go []] p]; [done|by destruct (go l)..].
    + destruct (owner σ); [done|]. destruct (closed _); by injection Ht as _ <-.
    + injection Ht as _ <-. destruct ls as [|[f|c] ls]; cbn; try done. unfold reapAsync.
      destruct (c _ _); [by destruct (_ <? _)|done].
    + destruct (owner σ); [done|]. by injection Ht as _ <-.
    + destruct (existsb _ _); [done|]. by injection Ht as _ <-.
    + apply (inj Some) in Ht. unfold lockWrite, raiseGate in Ht. destruct (compacting σ); [by injection Ht as _ <-|].
      destruct w; [destruct (_ && _)|destruct (closed _)]; by injection Ht as _ <-.
    + apply (inj Some) in Ht. unfold build_step in Ht. destruct fs; [destruct (rw_bad r l)|]; by injection Ht as _ <-.
    + by injection Ht as _ <-.
    + destruct (existsb _ _); [done|]. by injection Ht as _ <-.
    + unfold reap_idle in Ht. destruct b; [destruct (reapStop σ)|destruct (reapCh σ)]; try done; by injection Ht as _ <-.
    + apply (inj Some) in Ht. unfold reap_drain in Ht. destruct (reapCh σ); [|destruct (_ <? _)]; by injection Ht as _ <-.
  - left. unfold writeHintAsync in Ht. destruct (hint σ), b; try done; by injection Ht as <-.
Qed.

(** C10. In every reachable state: a goroutine that holds the lock exclusively
    is alone, with no reader beside it; a goroutine between raiseGate and
    lowerGate is the only one, and no other goroutine is inside a mutation;
    outside its own exclusive sections the store it reads does not change
    under it; a goroutine parked on the condition variable has one to wake it;
    and the flag compacting is up exactly while there is one behind the gate. *)
Theorem gate_invariant d calls n tr σ : exec (init d calls) n tr σ ->
  (forall i j p q, threads σ !! i = Some p -> threads σ !! j = Some q -> j <> i -> excl p = true ->
     excl q = false /\ reading q = false)
  /\ (forall i j p q, threads σ !! i = Some p -> threads σ !! j = Some q -> j <> i -> gated p = true ->
     gated q = false /\ forall ss x k l, q <> Body ss x k l)
  /\ (forall i p e σ', threads σ !! i = Some p -> gated p = true -> excl p = false -> step σ e σ' -> data σ' = data σ)
  /\ (forall i w k l, threads σ !! i = Some (Parked w k l) -> exists j q, threads σ !! j = Some q /\ gated q = true)
  /\ (compacting σ = true <-> exists i p, threads σ !! i = Some p /\ gated p = true).
Proof.
  intros He. destruct (inv_exec _ _ _ _ _ He) as [g HI].
  assert (g <> None -> exists j q, threads σ !! j = Some q /\ gated q = true) as Hgate.
  { destruct g as [j|]; [|done]. intros _. destruct (inv_gate _ _ HI j eq_refl) as [q Hq]. exists j, q. split; [done|].
    rewrite (tk_gated _ _ _ _ (inv_threads _ _ HI _ _ Hq)). by apply bool_decide_eq_true. }
  assert (forall i j p q, threads σ !! i = Some p -> threads σ !! j = Some q -> j <> i -> gated p = true ->
     gated q = false /\ forall ss x k l, q <> Body ss x k l) as Hex.
  { intros i j p q Hi Hj Hne Hp. pose proof (gate_of _ _ _ _ HI Hi Hp) as ->. split.
    - rewrite (tk_gated _ _ _ _ (inv_threads _ _ HI _ _ Hj)). apply bool_decide_eq_false. congruence.
    - intros ss x k l ->. destruct (body_gate _ _ _ _ _ _ _ HI Hj) as [_ [?|?]]; congruence. }
  split_and!; [|done|..].
  - intros i j p q Hi Hj Hne Hp. assert (owns p = true) as Hop by (by destruct p). pose proof (owner_of _ _ _ _ HI Hi Hop) as Ho.
    split.
    + destruct (excl q) eqn:Hq; [|done]. assert (owns q = true) as Hoq by (by destruct q).
      pose proof (owner_of _ _ _ _ HI Hj Hoq). congruence.
    + destruct (reading q) eqn:Hq; [|done]. pose proof (tk_excl _ _ _ _ (inv_threads _ _ HI _ _ Hi) Hp) as E.
      by rewrite (readers_true j q σ Hj Hq) in E.
  - intros i p e σ' Hi Hp Hx Hs. destruct (step_data _ _ _ Hs) as [?|(j & ss & x & k & l & Hj)]; [done|exfalso].
    destruct (decide (j = i)) as [->|Hne]; [by rewrite Hi in Hj; injection Hj as ->|].
    by apply (proj2 (Hex i j p _ Hi Hj Hne Hp) ss x k l).
  - intros i w k l Hi. apply Hgate. eapply tk_parked; [by apply (inv_threads _ _ HI _ _ Hi)|done].
  - rewrite (inv_compacting _ _ HI), bool_decide_eq_true. split; [done|].
    intros (i & p & Hi & Hp). by rewrite (gate_of _ _ _ _ HI Hi Hp).
Qed.

(** ** The hint file *)

(** The generation of the hint on disk (0 when there is none). *)
Definition file_gen (σ : state) : nat := from_option fst 0 (hintFile σ).

Definition hint_ok (σ : state) : Prop :=
  file_gen σ <= hintGen σ
  /\ match hint σ with
     | HNone => True
     | HFlush g _ | HLocked g _ => g <= hintGen σ
     | HWriting g _ => file_gen σ <= g <= hintGen σ
     end.

Lemma hint_frame σ i b e σ' : thread_step i b σ = Some (e, σ') ->
  (hint σ' = hint σ /\ hintGen σ' = hintGen σ /\ hintFile σ' = hintFile σ)
  \/ exists s ss x k l, stmt_step i s ss x k l σ = Some σ'.
Proof.
  intros Ht. unfold Gate.thread_step in Ht. destruct (threads σ !! i) as [p|] eqn:Hi; [|done]. cbn [mbind option_bind] in Ht.
  destruct p as [p l|ls p l|ls p l|st k l|st k l|w k l|w k l|ss x k l|fs r k l0 l|k l|p l| |q|ok l|]; try done.
  - left. injection Ht as _ <-. unfold start. destruct p as [|[go []] p]; [done|by destruct (go l)..].
  - left. destruct (owner σ); [done|]. destruct (closed _); by injection Ht as _ <-.
  - left. injection Ht as _ <-. destruct ls as [|[f|c] ls]; cbn; try done. unfold reapAsync.
    destruct (c _ _); [by destruct (_ <? _)|done].
  - left. destruct (owner σ); [done|]. by injection Ht as _ <-.
  - left. destruct (existsb _ _); [done|]. by injection Ht as _ <-.
  - left. apply (inj Some) in Ht. unfold lockWrite, raiseGate in Ht. destruct (compacting σ); [by injection Ht as _ <-|].
    destruct w; [destruct (_ && _)|destruct (closed _)]; by injection Ht as _ <-.
  - destruct ss as [|s ss]; [left; by injection Ht as _ <-|]. right. exists s, ss, x, k, l. cbn [body_step] in Ht.
    destruct (stmt_step _ _ _ _ _ _ _); [by injection Ht as _ <-|done].
  - left. apply (inj Some) in Ht. unfold build_step in Ht. destruct fs; [destruct (rw_bad r l)|]; by injection Ht as _ <-.
  - left. by injection Ht as _ <-.
  - left. destruct (existsb _ _); [done|]. by injection Ht as _ <-.
  - left. unfold reap_idle in Ht. destruct b; [destruct (reapStop σ)|destruct (reapCh σ)]; try done; by injection Ht as _ <-.
  - left. apply (inj Some) in Ht. unfold reap_drain in Ht. destruct (reapCh σ); [|destruct (_ <? _)]; by injection Ht as _ <-.
Qed.

Lemma hint_stmt σ i s ss x k l σ' : hint_ok σ -> stmt_step i s ss x k l σ = Some σ' -> hint_ok σ' /\ file_gen σ <= file_gen σ'.
Proof.
  unfold hint_ok. intros [Hf Hh] Hs. destruct s as [f|c|c|c|c]; cbn [stmt_step] in Hs.
  - destruct (f (data σ) l) as [d' l']. injection Hs as <-. done.
  - injection Hs as <-. unfold maybeWriteHint. destruct (c _ _); [|done]. destruct (hint σ) eqn:E; cbn; rewrite ?E; done.
  - injection Hs as <-. destruct (c _ _); [|done]. cbn. unfold file_gen in *. cbn in *. destruct (hint σ); repeat split; try done; lia.
  - destruct (c _ _); [destruct (hint σ) eqn:E; try done|]; injection Hs as <-; unfold file_gen in *; cbn in *; rewrite ?E; repeat split; try done; lia.
  - destruct (c _ _ && _); [done|]. by injection Hs as <-.
Qed.

Lemma hint_step_ok σ e σ' : hint_ok σ -> step σ e σ' -> hint_ok σ' /\ file_gen σ <= file_gen σ'.
Proof.
  intros Hok Hs. inversion Hs as [i b σ1 e1 σ2 Ht|b σ1 σ2 Ht]; subst.
  - destruct (hint_frame _ _ _ _ _ Ht) as [(E1 & E2 & E3)|(s & ss & x & k & l & Hst)]; [|by eapply hint_stmt].
    unfold hint_ok, file_gen in *. by rewrite E1, E2, E3.
  - unfold hint_ok, file_gen, writeHintAsync in *. destruct Hok as [Hf Hh]. destruct (hint σ) as [|g v|g v|g v] eqn:E; [done|..].
    + destruct b; by injection Ht as <-.
    + destruct (g =? hintGen σ) eqn:Eg; injection Ht as <-; [|done]. apply Nat.eqb_eq in Eg. cbn. by rewrite Eg.
    + destruct b; injection Ht as <-; cbn; lia.
Qed.

(** A synchronous checkpoint is never overwritten by an older background
    snapshot: along any execution the generation of the hint on disk only
    grows. *)
Lemma hint_not_stale d calls n tr σ e σ' : exec (init d calls) n tr σ -> step σ e σ' -> file_gen σ <= file_gen σ'.
Proof.
  intros He Hs. cut (hint_ok σ); [intros Hok; by eapply hint_step_ok|]. clear e σ' Hs.
  induction He as [|n tr σ1 e σ2 _ IH Hs]; [done|by eapply hint_step_ok].
Qed.

End safety.
