(* ===== verification/GateLive.v ===== *)
(** * Liveness of the compaction gate

    No interleaving deadlocks and none runs for ever: the goroutines of a set
    of calls make a bounded number of steps in total, and as long as one of
    them is unfinished some goroutine can move.  In particular every parked
    writer is eventually let through, [Close] gets past the reaper and the
    background hint writer, and the lock order has no cycle. *)

From S2P Require Import Prelude Gate GateProofs.
#[local] Open Scope nat_scope.

Section liveness.
Context {D L Q : Type} (closed : D -> bool) (of_batch : list Q -> L).
Context (reap_body : list (@stmt D L)) (reap_cap : nat).

#[local] Abbreviation state := (@state D L Q).
#[local] Abbreviation pc := (@pc D L Q).
#[local] Abbreviation thread_step := (thread_step closed of_batch reap_body reap_cap).
#[local] Abbreviation step := (step closed of_batch reap_body reap_cap).
#[local] Abbreviation exec := (exec closed of_batch reap_body reap_cap).

(** ** The work left *)

(** A statement is worth more than the background hint writer it may start. *)
Definition body_work (ss : list (@stmt D L)) : nat := 5 * length ss.

Definition hint_work (h : @hpc D) : nat :=
  match h with HNone => 0 | HFlush _ _ => 3 | HLocked _ _ => 2 | HWriting _ _ => 1 end.

(** A request in the channel is worth a cycle of the reaper, and a statement
    of a reader is worth the request it may send. *)
Definition request_work : nat := 4 + body_work reap_body.

Definition look_work (ls : list (@look D L Q)) : nat := length ls * S request_work.

Definition check_work (r : @rewrite D L) : nat := from_option body_work 0 (rw_check r).

Definition rewrite_work (r : @rewrite D L) : nat :=
  7 + length (rw_build r) + body_work (rw_swap r) + check_work r.

Definition sect_work (s : @sect D L Q) : nat :=
  match s with
  | SecRead ls => 2 + look_work ls
  | SecWrite _ ss => 2 + body_work ss
  | SecRewrite r => 1 + rewrite_work r
  | SecStopReaper => 1
  end.

Fixpoint call_work (p : @call D L Q) : nat :=
  match p with [] => 1 | (_, s) :: p' => 1 + sect_work s + call_work p' end.

Definition kont_work (k : @kont D L Q) : nat := match k with KCall p => call_work p | KReaper => 1 end.

Definition site_work (s : @site D L) : nat :=
  match s with
  | SLockWrite (WWrite _ ss) => 2 + body_work ss
  | SLockWrite (WRaise r) => 1 + rewrite_work r
  | SSwap r _ => 6 + body_work (rw_swap r) + check_work r
  | SCheck ss => 4 + body_work ss
  | SLower => 2
  end.

Definition exit_work (x : @exit D L) : nat :=
  match x with XUnlock => 1 | XSwap r => 5 + check_work r | XCheck => 3 end.

Definition pc_work (p : pc) : nat :=
  match p with
  | Next c _ => call_work c
  | RLocking ls c _ => 2 + look_work ls + call_work c
  | Reading ls c _ => 1 + look_work ls + call_work c
  | Locking s k _ | Draining s k _ => site_work s + kont_work k
  | Testing w k _ | Parked w k _ => site_work (SLockWrite w) + kont_work k
  | Body ss x k _ => exit_work x + body_work ss + kont_work k
  | Building fs r k _ _ => 7 + length fs + body_work (rw_swap r) + check_work r + kont_work k
  | Lowering k _ => 1 + kont_work k
  | StopWait c _ => 1 + call_work c
  | RIdle => 1
  | RDraining _ => request_work
  | Done _ _ | Gone => 0
  end.

(** How far a goroutine is from the condition variable. *)
Definition wait_rank (p : pc) : nat :=
  match p with Locking _ _ _ => 3 | Draining _ _ _ => 2 | Testing _ _ _ => 1 | _ => 0 end.

Definition work (σ : state) : nat :=
  sum_list_with pc_work (threads σ) + request_work * length (reapCh σ) + hint_work (hint σ).

Definition waiting (σ : state) : nat := sum_list_with wait_rank (threads σ).

(** The number of steps that can still be made: a wake-up sends waiting
    goroutines back to the start of their wait, and it costs a unit of work. *)
Definition budget (σ : state) : nat := work σ * S (3 * length (threads σ)) + waiting σ.

(** ** Every step spends some of it *)

Lemma waiting_le σ : waiting σ <= 3 * length (threads σ).
Proof.
  unfold waiting. induction (threads σ) as [|p ts IH]; cbn; [lia|]. assert (wait_rank p <= 3) by (destruct p; cbn; lia). lia.
Qed.

Lemma budget_work σ σ' : length (threads σ') = length (threads σ) -> work σ' < work σ -> budget σ' < budget σ.
Proof. intros Hn Hw. pose proof (waiting_le σ'). unfold budget. rewrite Hn in *. nia. Qed.

Lemma budget_wait σ σ' : length (threads σ') = length (threads σ) -> work σ' = work σ -> waiting σ' < waiting σ ->
  budget σ' < budget σ.
Proof. intros Hn Hw Hq. unfold budget. rewrite Hn, Hw. lia. Qed.

(** A step of goroutine [i] from [p] to [p']. *)
Lemma spend σ σ' i p p' : threads σ !! i = Some p -> threads σ' = <[i := p']> (threads σ) ->
  pc_work p' + request_work * length (reapCh σ') + hint_work (hint σ')
    < pc_work p + request_work * length (reapCh σ) + hint_work (hint σ) -> budget σ' < budget σ.
Proof.
  intros Hi Hts Hlt. apply budget_work; [by rewrite Hts, length_insert|]. unfold work. rewrite Hts.
  pose proof (sum_insert pc_work _ i p p' Hi). lia.
Qed.

Lemma spend_quiet σ σ' i p p' : threads σ !! i = Some p -> threads σ' = <[i := p']> (threads σ) ->
  reapCh σ' = reapCh σ -> hint σ' = hint σ -> pc_work p' < pc_work p -> budget σ' < budget σ.
Proof. intros Hi Hts Hq Hh Hlt. eapply spend; [done..|]. rewrite Hq, Hh. lia. Qed.

Lemma spend_wait σ σ' i p p' : threads σ !! i = Some p -> threads σ' = <[i := p']> (threads σ) ->
  reapCh σ' = reapCh σ -> hint σ' = hint σ -> pc_work p' = pc_work p -> wait_rank p' < wait_rank p -> budget σ' < budget σ.
Proof.
  intros Hi Hts Hq Hh Hw Hlt. apply budget_wait; [by rewrite Hts, length_insert|..].
  - unfold work. rewrite Hts, Hq, Hh. pose proof (sum_insert pc_work _ i p p' Hi). lia.
  - unfold waiting. rewrite Hts. pose proof (sum_insert wait_rank _ i p p' Hi). lia.
Qed.

Lemma call_work_pos p : 0 < call_work p.
Proof. destruct p as [|[? ?] ?]; cbn; lia. Qed.

Lemma kont_work_pos k : 0 < kont_work k.
Proof. destruct k; [apply call_work_pos|cbn; lia]. Qed.

Lemma resume_work k l : pc_work (resume k l) = kont_work k /\ pc_work (closed_exit k l) <= kont_work k.
Proof. destruct k as [p|]; cbn; lia. Qed.

Lemma after_work r l k : pc_work (Locking (after_rewrite r l) k l) <= 4 + check_work r + kont_work k.
Proof. unfold after_rewrite, check_work. destruct (rw_check r); [destruct (rw_bad r l)|]; cbn; lia. Qed.

Lemma spend_start σ i p l : threads σ !! i = Some (Next p l) -> budget (start i p l σ) < budget σ.
Proof.
  intros Hi. pose proof (call_work_pos p) as Hp. unfold start.
  destruct p as [|[go s] p]; [eapply spend_quiet; [exact Hi|done..|cbn; lia]|].
  pose proof (call_work_pos p). destruct (go l); [destruct s|]; (eapply spend_quiet; [exact Hi|done..|cbn [pc_work call_work sect_work site_work kont_work] in *; lia]).
Qed.

Lemma spend_read σ i ls p l : threads σ !! i = Some (Reading ls p l) -> budget (read_step reap_cap i ls p l σ) < budget σ.
Proof.
  intros Hi. destruct ls as [|[f|c] ls]; cbn [read_step].
  - eapply spend_quiet; [exact Hi|done..|cbn; lia].
  - eapply spend_quiet; [exact Hi|done..|cbn; unfold look_work; cbn; lia].
  - unfold reapAsync. destruct (c _ _) as [q|]; [destruct (_ <? _)|].
    + eapply spend; [exact Hi|done|]. cbn [pc_work reapCh hint set_pc set_queue].
      rewrite length_app, Nat.mul_add_distr_l. unfold look_work. cbn [length]. lia.
    + eapply spend_quiet; [exact Hi|done..|cbn; unfold look_work; cbn; lia].
    + eapply spend_quiet; [exact Hi|done..|cbn; unfold look_work; cbn; lia].
Qed.

Lemma spend_lockWrite σ i w k l e σ' : threads σ !! i = Some (Testing w k l) -> lockWrite closed i w k l σ = (e, σ') ->
  budget σ' < budget σ.
Proof.
  intros Hi. destruct (resume_work k l) as [_ Hk]. unfold lockWrite, raiseGate. destruct (compacting σ).
  { intros [= <- <-]. eapply spend_wait; [exact Hi|done..|cbn; lia]. }
  destruct w as [chk ss|r]; [destruct (chk && _)|destruct (closed _)]; intros [= <- <-];
    (eapply spend_quiet; [exact Hi|done..|]; cbn in *; unfold rewrite_work in *; lia).
Qed.

Lemma spend_body σ i ss x k l σ' : threads σ !! i = Some (Body ss x k l) -> body_step i ss x k l σ = Some σ' -> budget σ' < budget σ.
Proof.
  intros Hi. destruct ss as [|s ss]; cbn [body_step].
  - intros [= <-]. destruct (resume_work k l) as [Hk _]. eapply spend_quiet; [exact Hi|done..|]. destruct x as [|r|].
    + rewrite Hk. cbn. lia.
    + pose proof (after_work r l k). cbn [pc_work exit_work] in *. lia.
    + cbn. lia.
  - assert (forall σ1 l', threads σ1 = threads σ -> reapCh σ1 = reapCh σ -> hint_work (hint σ1) <= 3 + hint_work (hint σ) ->
              budget (set_pc i (Body ss x k l') σ1) < budget σ) as Hgen.
    { intros σ1 l' E1 E2 E3. eapply spend; [exact Hi|cbn; by rewrite E1|]. cbn. rewrite E2. unfold body_work. cbn. lia. }
    destruct s as [f|c|c|c|c]; cbn [stmt_step]; intros Hst.
    + destruct (f (data σ) l) as [d' l']. injection Hst as <-. apply Hgen; cbn; [done..|lia].
    + injection Hst as <-. unfold maybeWriteHint. destruct (c _ _), (hint σ) eqn:Hh; apply Hgen; cbn; rewrite ?Hh; cbn; try done; lia.
    + injection Hst as <-. destruct (c _ _); apply Hgen; cbn; [done..|lia|done|done|lia].
    + destruct (c _ _); [destruct (hint_locked (hint σ)); [done|]|]; injection Hst as <-; apply Hgen; cbn; [done..|lia|done|done|lia].
    + destruct (c _ _ && _); [done|]. injection Hst as <-. apply Hgen; cbn; [done..|lia].
Qed.

Lemma spend_build σ i fs r k l0 l e σ' : threads σ !! i = Some (Building fs r k l0 l) ->
  build_step i fs r k l0 l σ = (e, σ') -> budget σ' < budget σ.
Proof.
  intros Hi. pose proof (after_work r l k). unfold build_step. destruct fs as [|f fs]; [destruct (rw_bad r l)|]; intros [= <- <-];
    (eapply spend_quiet; [exact Hi|done..|]; cbn [pc_work site_work length] in *; lia).
Qed.

Lemma wake_work p : pc_work (wake p) = pc_work p.
Proof. by destruct p. Qed.

Lemma spend_lower σ i k l : threads σ !! i = Some (Lowering k l) -> budget (lowerGate i k l σ) < budget σ.
Proof.
  intros Hi. destruct (resume_work k l) as [Hk _]. apply budget_work; [cbn; by rewrite length_insert, length_fmap|].
  unfold work. cbn -[pc_work sum_list_with].
  assert ((wake <$> threads σ) !! i = Some (Lowering k l : pc)) as Hi' by (by rewrite list_lookup_fmap, Hi).
  pose proof (sum_insert pc_work _ i _ (resume k l) Hi') as E. rewrite Hk in E. cbn [pc_work] in E.
  assert (sum_list_with pc_work (wake <$> threads σ) = sum_list_with pc_work (threads σ)) as Ew.
  { clear. induction (threads σ) as [|p ts IH]; [done|]. cbn. by rewrite wake_work, IH. }
  lia.
Qed.

Lemma spend_thread σ i b e σ' : thread_step i b σ = Some (e, σ') -> budget σ' < budget σ.
Proof.
  unfold Gate.thread_step. destruct (threads σ !! i) as [p|] eqn:Hi; [|done]. cbn [mbind option_bind].
  destruct p as [p l|ls p l|ls p l|s k l|s k l|w k l|w k l|ss x k l|fs r k l0 l|k l|p l| |q|ok l|]; intros Hs; try done.
  - injection Hs as <- <-. by apply spend_start.
  - destruct (owner σ); [done|]. destruct (closed _); injection Hs as <- <-; (eapply spend_quiet; [exact Hi|done..|cbn; lia]).
  - injection Hs as <- <-. by apply spend_read.
  - destruct (owner σ); [done|]. injection Hs as <- <-. eapply spend_wait; [exact Hi|done..|cbn; lia].
  - destruct (existsb _ _); [done|]. injection Hs as <- <-. destruct s; [eapply spend_wait; [exact Hi|done..|cbn; lia]|..];
      (eapply spend_quiet; [exact Hi|done..|cbn; lia]).
  - apply (inj Some) in Hs. by eapply spend_lockWrite.
  - destruct (body_step _ _ _ _ _ _) as [σ1|] eqn:Hb; [|done]. injection Hs as <- <-. by eapply spend_body.
  - apply (inj Some) in Hs. by eapply spend_build.
  - injection Hs as <- <-. by eapply spend_lower.
  - destruct (existsb _ _); [done|]. injection Hs as <- <-. eapply spend_quiet; [exact Hi|done..|cbn; lia].
  - destruct (reap_idle _ _ _) as [σ1|] eqn:Hr; [|done]. injection Hs as <- <-. unfold reap_idle in Hr.
    destruct b; [destruct (reapStop σ); [|done]|destruct (reapCh σ) as [|q qs] eqn:Hq; [done|]]; injection Hr as <-.
    + eapply spend_quiet; [exact Hi|done..|cbn; lia].
    + eapply spend; [exact Hi|done|]. rewrite Hq. cbn. lia.
  - apply (inj Some) in Hs. unfold reap_drain in Hs. destruct (reapCh σ) as [|x qs] eqn:Hq; [|destruct (_ <? _)]; injection Hs as <- <-.
    + eapply spend_quiet; [exact Hi|done..|]. cbn. unfold request_work. lia.
    + eapply spend; [exact Hi|done|]. rewrite Hq. cbn. unfold request_work. lia.
    + eapply spend_quiet; [exact Hi|done..|]. cbn. unfold request_work. lia.
Qed.

Lemma spend_step σ e σ' : step σ e σ' -> budget σ' < budget σ.
Proof.
  intros Hs. inversion Hs as [i b σ1 e1 σ2 Ht|b σ1 σ2 Ht]; subst; [by eapply spend_thread|].
  apply budget_work; unfold work, writeHintAsync in *; destruct (hint σ) as [|g v|g v|g v] eqn:Hh; try done.
  all: destruct b; try (destruct (g =? hintGen σ)); injection Ht as <-; cbn; lia.
Qed.

(** ** Somebody can always move *)

(** Nothing is left to do: every call has returned, the reaper is gone or
    waits on an empty channel of a store nobody asked to close, and no
    background hint writer runs. *)
Definition settled (σ : state) (p : pc) : Prop :=
  match p with
  | Done _ _ | Gone => True
  | RIdle => reapCh σ = [] /\ reapStop σ = false
  | _ => False
  end.

Definition quiescent (σ : state) : Prop :=
  hint σ = HNone /\ forall i p, threads σ !! i = Some p -> settled σ p.

Definition movable (σ : state) : Prop := exists e σ', step σ e σ'.

Lemma movable_thread σ i b : is_Some (thread_step i b σ) -> movable σ.
Proof. intros [[e σ'] Hs]. eexists _, _. by eapply step_thread. Qed.

Lemma movable_hint σ : hint σ = HNone \/ movable σ.
Proof.
  destruct (writeHintAsync true σ) as [σ'|] eqn:Hs; [right; eexists _, _; by eapply step_hint|left].
  unfold writeHintAsync in Hs. by destruct (hint σ).
Qed.

Lemma movable_or_stuck σ : movable σ \/ forall i b, thread_step i b σ = None.
Proof.
  destruct (decide (Exists (fun i => is_Some (thread_step i true σ) \/ is_Some (thread_step i false σ)) (seq 0 (length (threads σ))))) as [H|H].
  - left. apply Exists_exists in H as (i & _ & [Hs|Hs]); by eapply movable_thread.
  - right. intros i b. destruct (thread_step i b σ) as [x|] eqn:Hs; [|done]. exfalso. apply H, Exists_exists. exists i. split.
    + apply elem_of_seq. split; [lia|]. apply (lookup_lt_is_Some_1 (threads σ)). unfold Gate.thread_step in Hs.
      by destruct (threads σ !! i).
    + destruct b; [left|right]; by rewrite Hs.
Qed.

(** The owner of the lock moves, or waits for a reader that moves. *)
Lemma owner_moves g σ i : inv g σ -> hint σ = HNone -> owner σ = Some i -> movable σ.
Proof.
  intros HI Hh Ho. destruct (inv_owner _ _ HI i Ho) as [p Hi].
  pose proof (tk_owns _ _ _ _ (inv_threads _ _ HI _ _ Hi)) as Hp. rewrite bool_decide_eq_true_2 in Hp by done.
  assert (forall x, thread_step i true σ = Some x -> movable σ) as Hmv by (intros x Hx; apply (movable_thread σ i true); by rewrite Hx).
  unfold Gate.thread_step in Hmv. rewrite Hi in Hmv. cbn [mbind option_bind] in Hmv.
  destruct p as [| | | |s k l|w k l| |ss x k l| |k l| | | | |]; try done; [|by eapply Hmv| |by eapply Hmv].
  - destruct (existsb reading (threads σ)) eqn:Hr; [|by eapply Hmv].
    apply existsb_exists in Hr as (q & Hq & Hrq). apply list_elem_of_In, list_elem_of_lookup in Hq as [j Hj].
    destruct q as [| |ls c l1| | | | | | | | | | | |]; try done. apply (movable_thread σ j true). unfold Gate.thread_step. by rewrite Hj.
  - destruct ss as [|s ss]; cbn [body_step] in Hmv; [by eapply Hmv|].
    destruct s as [f|c|c|c|c]; cbn [stmt_step] in Hmv.
    + destruct (f (data σ) l). by eapply Hmv.
    + by eapply Hmv.
    + by eapply Hmv.
    + rewrite Hh in Hmv. cbn in Hmv. destruct (c (data σ) l); by eapply Hmv.
    + rewrite Hh in Hmv. cbn in Hmv. rewrite andb_false_r in Hmv. by eapply Hmv.
Qed.

Lemma gate_moves g σ i : inv g σ -> hint σ = HNone -> owner σ = None -> g = Some i -> movable σ.
Proof.
  intros HI Hh Ho ->. destruct (inv_gate _ _ HI i eq_refl) as [p Hi]. destruct (inv_threads _ _ HI _ _ Hi) as [To Tg _ _ _ _ _].
  rewrite bool_decide_eq_true_2 in Tg by done. rewrite Ho in To. rewrite bool_decide_eq_false_2 in To by done.
  apply (movable_thread σ i true). unfold Gate.thread_step. rewrite Hi. cbn [mbind option_bind].
  destruct p as [| | |s k l| | | | |fs r k l0 l| | | | | |]; try done. by rewrite Ho.
Qed.

(** A reaper that has been told to stop moves, when the lock and the gate are
    free. *)
Lemma reaper_moves g σ i p : inv g σ -> hint σ = HNone -> owner σ = None -> g = None -> reapStop σ = true ->
  threads σ !! i = Some p -> reaper p = true -> movable σ.
Proof.
  intros HI Hh Ho -> Hs Hi Hp. destruct (inv_threads _ _ HI _ _ Hi) as [To Tg _ Tp _ _ _].
  rewrite Ho in To. rewrite bool_decide_eq_false_2 in To, Tg by done.
  apply (movable_thread σ i true). unfold Gate.thread_step. rewrite Hi. cbn [mbind option_bind].
  destruct p as [| | |s k l| | |w k l| | | | | | | |]; try done; [by rewrite Ho|by destruct (Tp w k l)|].
  unfold reap_idle. by rewrite Hs.
Qed.

Lemma progress g σ : inv g σ -> quiescent σ \/ movable σ.
Proof.
  intros HI. destruct (movable_hint σ) as [Hh|?]; [|by right]. destruct (movable_or_stuck σ) as [?|Hst]; [by right|].
  destruct (owner σ) as [i|] eqn:Ho; [right; by eapply owner_moves|].
  destruct g as [i|]; [right; by eapply gate_moves|].
  destruct (decide (Exists (fun p => reaper p = true) (threads σ) /\ reapStop σ = true)) as [[Hr Hs]|Hr].
  { right. apply Exists_exists in Hr as (p & Hp & Hr). apply list_elem_of_lookup in Hp as [i Hi]. by eapply reaper_moves. }
  left. split; [done|]. intros i p Hi. destruct (inv_threads _ _ HI _ _ Hi) as [To Tg _ Tp _ _ Tst].
  pose proof (Hst i true) as H1. pose proof (Hst i false) as H2. unfold Gate.thread_step in H1, H2. rewrite Hi in H1, H2.
  cbn [mbind option_bind] in H1, H2. rewrite Ho in To. rewrite bool_decide_eq_false_2 in To, Tg by done.
  destruct p as [p l|ls p l|ls p l|s k l|s k l|w k l|w k l|ss x k l|fs r k l0 l|k l|p l| |q|ok l|]; try done.
  - rewrite Ho in H1. by destruct (closed _).
  - by rewrite Ho in H1.
  - by destruct (Tp w k l).
  - destruct (existsb _ _) eqn:Hex; [|done]. apply existsb_exists in Hex as (q & Hq & Hrq). exfalso. apply Hr.
    split; [|by eapply Tst]. apply Exists_exists. exists q. split; [by apply list_elem_of_In|done].
  - unfold reap_idle in H1, H2. cbn [settled]. destruct (reapStop σ); [done|]. by destruct (reapCh σ).
Qed.

(** ** Executions come to rest *)

Lemma exec_budget σ n tr σ' : exec σ n tr σ' -> n + budget σ' <= budget σ.
Proof. induction 1 as [|n tr σ1 e σ2 _ IH Hs]; [lia|]. apply spend_step in Hs. lia. Qed.

Lemma exec_settles d calls n tr σ : exec (init d calls) n tr σ ->
  exists m tr' σ', exec (init d calls) (n + m) (tr ++ tr') σ' /\ quiescent σ'.
Proof.
  remember (budget σ) as k eqn:Hk. revert n tr σ Hk. induction (lt_wf k) as [k _ IH]. intros n tr σ -> He.
  destruct (inv_exec _ _ _ _ _ _ _ _ _ He) as [g HI]. destruct (progress g σ HI) as [Hq|(e & σ' & Hs)].
  - exists 0, [], σ. by rewrite Nat.add_0_r, app_nil_r.
  - destruct (IH (budget σ') (spend_step _ _ _ Hs) (S n) (tr ++ option_list e) σ' eq_refl) as (m & tr' & σ2 & He2 & Hq).
    { by econstructor. }
    exists (S m), (option_list e ++ tr'), σ2. split; [|done]. by rewrite app_assoc, Nat.add_succ_r.
Qed.

(** C9. The calls come to an end whatever the scheduler does: an execution of
    calls, reaper and hint writer is never longer than a bound that only
    depends on the calls; as long as some call has not returned (or a reap
    request, a stopped reaper or a hint write is pending) some goroutine can
    move, so neither the lock, the gate, Close's two waits nor hintMu
    deadlock; and every execution can be continued to one in which every call
    has returned. *)
Theorem gate_liveness d calls n tr σ : exec (init d calls) n tr σ ->
  n <= budget (init d calls)
  /\ (quiescent σ \/ exists e σ', step σ e σ')
  /\ exists m tr' σ', exec (init d calls) (n + m) (tr ++ tr') σ' /\ quiescent σ'.
Proof.
  intros He. destruct (inv_exec _ _ _ _ _ _ _ _ _ He) as [g HI]. split_and!.
  - pose proof (exec_budget _ _ _ _ He). lia.
  - by eapply progress.
  - by eapply exec_settles.
Qed.

End liveness.
