(* ===== verification/Text.v ===== *)
(** * Text helpers of the server and the C interface

    What they use of Go's [strings], [strconv] and [unicode/utf8]: splitting a
    line into fields, trimming, lower-casing a command name, and parsing
    numbers from tokens. *)

From S2P Require Import Prelude Floats Types Json Record.
#[local] Open Scope Z_scope.

(** ** Runes *)

(** The runes of a string with the bytes of each; a byte that starts no valid
    sequence is U+FFFD. *)
Fixpoint runes (s : gostring) : list (Z * gostring) :=
  match s with
  | [] => []
  | a :: s1 =>
      let bad := (65533, [a]) :: runes s1 in
      if bZ a <? 128 then (bZ a, [a]) :: runes s1
      else match s1 with
           | b :: s2 =>
               if is2 a b then ((bZ a - 192) * 64 + (bZ b - 128), [a; b]) :: runes s2
               else match s2 with
                    | c :: s3 =>
                        if is3 a b c
                        then ((bZ a - 224) * 4096 + (bZ b - 128) * 64 + (bZ c - 128), [a; b; c]) :: runes s3
                        else match s3 with
                             | d :: s4 =>
                                 if is4 a b c d
                                 then ((bZ a - 240) * 262144 + (bZ b - 128) * 4096 + (bZ c - 128) * 64 + (bZ d - 128),
                                       [a; b; c; d]) :: runes s4
                                 else bad
                             | [] => bad
                             end
                    | [] => bad
                    end
           | [] => bad
           end
  end.

(** [unicode.IsSpace]. *)
Definition isSpace (r : Z) : bool :=
  ((9 <=? r) && (r <=? 13)) || (r =? 32) || (r =? 133) || (r =? 160) || (r =? 5760)
  || ((8192 <=? r) && (r <=? 8202)) || (r =? 8232) || (r =? 8233) || (r =? 8239) || (r =? 8287) || (r =? 12288).

(** [strings.Fields]: the maximal runs of runes that are not spaces. *)
Definition flush_field (cur : gostring) : list gostring := match cur with [] => [] | _ => [cur] end.

Fixpoint fields_from (cur : gostring) (l : list (Z * gostring)) : list gostring :=
  match l with
  | [] => flush_field cur
  | (r, b) :: l' =>
      if isSpace r then flush_field cur ++ fields_from [] l' else fields_from (cur ++ b) l'
  end.

Definition Fields (s : gostring) : list gostring := fields_from [] (runes s).

Fixpoint drop_while {A} (f : A -> bool) (l : list A) : list A :=
  match l with
  | [] => []
  | x :: l' => if f x then drop_while f l' else l
  end.

(** [strings.TrimSpace]. *)
Definition TrimSpace (s : gostring) : gostring :=
  let trim := drop_while (fun rb : Z * gostring => isSpace rb.1) in
  concat (reverse (trim (reverse (trim (runes s))))).*2.

(** [bytes.TrimLeft(s, " ")]. *)
Definition trim_spaces (s : gostring) : gostring := drop_while (fun b => bool_decide (b = Byte.x20)) s.

(** [bytes.IndexByte(s, c)]: what precedes the first [c] and what follows it. *)
Fixpoint cut_byte (c : byte) (s : gostring) : option (gostring * gostring) :=
  match s with
  | [] => None
  | b :: s' =>
      if decide (b = c) then Some ([], s')
      else match cut_byte c s' with
           | Some (l, r) => Some (b :: l, r)
           | None => None
           end
  end.

(** [strings.Split(s, sep)] for a one-byte separator, and [SplitN]. *)
Fixpoint Split (sep : byte) (s : gostring) : list gostring :=
  match s with
  | [] => [[]]
  | b :: s' =>
      if decide (b = sep) then [] :: Split sep s'
      else match Split sep s' with
           | p :: ps => (b :: p) :: ps
           | [] => [[b]]
           end
  end.

Fixpoint SplitN (sep : byte) (n : nat) (s : gostring) : list gostring :=
  match n with
  | O => []
  | S O => [s]
  | S n' => match cut_byte sep s with
            | Some (p, r) => p :: SplitN sep n' r
            | None => [s]
            end
  end.

(** [strings.ToLower] as far as a comparison with an ASCII name can tell: ASCII
    letters, and the two other letters whose lower case is ASCII (U+0130 and
    the Kelvin sign).  Every other rune stays outside ASCII and is copied. *)
Definition lower_rune (rb : Z * gostring) : gostring :=
  if rb.1 =? 304 then [Byte.x69]
  else if rb.1 =? 8490 then [Byte.x6b]
  else lower <$> rb.2.

Definition ToLower (s : gostring) : gostring := concat (lower_rune <$> runes s).

(** ** Numbers *)

(** [strconv.ParseInt(s, 10, 64)], which is also [strconv.Atoi] on a 64-bit
    platform: a sign, then digits only, within range. *)
Definition ParseInt (s : gostring) : option Z :=
  let '(neg, ds) := strip_sign s in
  match ds with
  | [] => None
  | _ =>
      if forallb is_digit ds then
        let n := if neg then - digits_val ds else digits_val ds in
        if (MinInt64 <=? n) && (n <=? MaxInt64) then Some n else None
      else None
  end.

Definition Atoi := ParseInt.

Definition underscore : byte := Byte.x5f.

Definition hex_prefixed (s : gostring) : bool :=
  match s with
  | z :: x :: _ => (bZ z =? 48) && (bZ (lower x) =? 120)
  | _ => false
  end.

(** [underscoreOK], after the sign: an underscore stands between two digits, or
    between a base prefix and a digit.  [saw] is the class of the previous
    character: ["^"] at the start, ["0"] a digit, ["_"] or ["!"]. *)
Inductive seen_char := SeenStart | SeenDigit | SeenUnderscore | SeenOther.

Fixpoint underscores_ok (hex : bool) (saw : seen_char) (s : gostring) : bool :=
  match s with
  | [] => match saw with SeenUnderscore => false | _ => true end
  | b :: s' =>
      if is_digit b || (hex && (97 <=? bZ (lower b)) && (bZ (lower b) <=? 102)) then underscores_ok hex SeenDigit s'
      else if decide (b = underscore)
      then match saw with SeenDigit => underscores_ok hex SeenUnderscore s' | _ => false end
      else match saw with SeenUnderscore => false | _ => underscores_ok hex SeenOther s' end
  end.

Definition underscoreOK (s : gostring) : bool :=
  let s1 := (strip_sign s).2 in
  match s1 with
  | z :: x :: rest =>
      if (bZ z =? 48) && ((bZ (lower x) =? 98) || (bZ (lower x) =? 111) || (bZ (lower x) =? 120))
      then underscores_ok (bZ (lower x) =? 120) SeenDigit rest
      else underscores_ok false SeenStart s1
  | _ => underscores_ok false SeenStart s1
  end.

Fixpoint span_hex (s : gostring) : list Z * gostring :=
  match s with
  | b :: s' => match hex_val b with
               | Some v => let '(d, r) := span_hex s' in (v :: d, r)
               | None => ([], s)
               end
  | [] => ([], [])
  end.

(** A hexadecimal literal after its prefix: digits with an optional point and a
    mandatory binary exponent. *)
Definition parse_hex_float (neg : bool) (s : gostring) : option f64 :=
  let '(ip, s1) := span_hex s in
  let '(fp, s2) := match s1 with
                   | b :: r => if decide (b = Byte.x2e) then span_hex r else ([], s1)
                   | [] => ([], [])
                   end in
  match ip ++ fp, s2 with
  | [], _ => None
  | ds, p :: s3 =>
      if bZ (lower p) =? 112 then
        let '(eneg, s4) := strip_sign s3 in
        match s4 with
        | [] => None
        | _ =>
            if forallb is_digit s4 then
              let m := fold_left (fun a d => a * 16 + d) ds 0 in
              let e := (if eneg then - digits_val s4 else digits_val s4) - 4 * zlen fp in
              if m =? 0 then Some (S754_zero neg)
              else
                let f := binary_normalize 53 1024 (if neg then - m else m) e neg in
                if f64_isinf f then None else Some f
            else None
        end
      else None
  | _, [] => None
  end.

(** [strconv.ParseFloat(s, 64)]: decimal or hexadecimal, with digit-separating
    underscores. *)
Definition ParseFloat (s : gostring) : option f64 :=
  if existsb (fun b => bool_decide (b = underscore)) s && negb (underscoreOK s) then None
  else
    let s0 := filter (fun b => b <> underscore) s in
    let '(neg, s1) := strip_sign s0 in
    if hex_prefixed s1 then parse_hex_float neg (drop 2 s1)
    else parse_float s0.

Example ParseFloat_ex1 : ParseFloat (bs "1_0.5e1") = parse_float (bs "105").
Proof. by vm_compute. Qed.
Example ParseFloat_ex2 : ParseFloat (bs "-0x1.8p1") = parse_float (bs "-3").
Proof. by vm_compute. Qed.
Example ParseFloat_ex3 : ParseFloat (bs "1__0") = None /\ ParseFloat (bs "_1") = None /\ ParseFloat (bs "0x1") = None.
Proof. by vm_compute. Qed.

Example Fields_ex : Fields (bs "  put  k 1 ") = [bs "put"; bs "k"; bs "1"].
Proof. by vm_compute. Qed.
Example TrimSpace_ex : TrimSpace (bs "  a b ") = bs "a b".
Proof. by vm_compute. Qed.

(** ** Facts *)

Lemma cut_byte_Some c s l r : cut_byte c s = Some (l, r) -> s = l ++ c :: r /\ c ∉ l.
Proof.
  revert l. induction s as [|b s IH]; intros l; simpl; [done|]. destruct (decide (b = c)) as [->|Hb].
  - intros [= <- <-]. split; [done|]. apply not_elem_of_nil.
  - destruct (cut_byte c s) as [[l' r']|]; [|done]. intros [= <- <-].
    destruct (IH l' eq_refl) as [-> Hl]. split; [done|]. apply not_elem_of_cons. by split; [congruence|].
Qed.

Lemma cut_byte_app c l r : c ∉ l -> cut_byte c (l ++ c :: r) = Some (l, r).
Proof.
  induction l as [|b l IH]; intros Hl; simpl; [by rewrite decide_True|]. apply not_elem_of_cons in Hl as [Hb Hl].
  rewrite decide_False by congruence. by rewrite IH.
Qed.

Lemma ParseInt_format n : 0 <= n <= MaxInt64 -> ParseInt (format_int n) = Some n.
Proof.
  intros Hn. unfold ParseInt, format_int. rewrite (proj2 (Z.ltb_ge n 0)) by lia.
  destruct (nat_dec_spec n) as (b & ds & -> & Hds & Hv & _); [lia|].
  pose proof Hds as Hb. cbn [forallb] in Hb. apply andb_true_iff in Hb as [Hb _]. unfold is_digit in Hb.
  assert (Hstrip : strip_sign (b :: ds) = (false, b :: ds)).
  { cbn. rewrite !decide_False; [done|intros ->; by vm_compute in Hb..]. }
  rewrite Hstrip, Hds, Hv. rewrite (proj2 (Z.leb_le _ _)), (proj2 (Z.leb_le _ _)); [done|lia|]. unfold MinInt64. lia.
Qed.

Lemma ParseInt_in64 s n : ParseInt s = Some n -> in64 n.
Proof.
  unfold ParseInt. destruct (strip_sign s) as [neg ds]. destruct ds as [|d ds]; [done|].
  destruct (forallb _ _); [|done]. set (m := if neg then _ else _).
  destruct ((MinInt64 <=? m) && (m <=? MaxInt64)) eqn:Hm; [|done]. intros [= <-].
  apply andb_true_iff in Hm as [?%Z.leb_le ?%Z.leb_le]. done.
Qed.

(** A printable ASCII byte other than the space: what a token is made of. *)
Definition token_byte (b : byte) : bool := (33 <=? bZ b) && (bZ b <=? 126).

Lemma runes_token t rest : forallb token_byte t = true -> runes (t ++ rest) = ((fun b => (bZ b, [b])) <$> t) ++ runes rest.
Proof.
  induction t as [|b t IH]; intros Ht; [done|]. cbn [forallb] in Ht. apply andb_true_iff in Ht as [Hb Ht].
  unfold token_byte in Hb. apply andb_true_iff in Hb as [?%Z.leb_le ?%Z.leb_le]. rewrite <- app_comm_cons.
  cbn [runes]. rewrite (proj2 (Z.ltb_lt _ _)) by lia. by rewrite IH.
Qed.

Lemma isSpace_token b : token_byte b = true -> isSpace (bZ b) = false.
Proof. by destruct b. Qed.

Lemma fields_from_token t : forall cur l, forallb token_byte t = true ->
  fields_from cur (((fun b => (bZ b, [b])) <$> t) ++ l) = fields_from (cur ++ t) l.
Proof.
  induction t as [|b t IH]; intros cur l Ht; [by rewrite app_nil_r|]. cbn [forallb] in Ht.
  apply andb_true_iff in Ht as [Hb Ht]. cbn [fmap list_fmap app fields_from].
  rewrite isSpace_token, IH by done. by rewrite <- app_assoc.
Qed.

(** A token followed by a space, and the last token. *)
Lemma Fields_cons t s : t <> [] -> forallb token_byte t = true -> Fields (t ++ Byte.x20 :: s) = t :: Fields s.
Proof.
  intros Hne Ht. unfold Fields. rewrite runes_token, fields_from_token by done.
  cbn [app runes]. change (bZ Byte.x20 <? 128) with true. cbn [fields_from]. change (isSpace (bZ Byte.x20)) with true.
  by destruct t.
Qed.

Lemma Fields_last t : t <> [] -> forallb token_byte t = true -> Fields t = [t].
Proof.
  intros Hne Ht. unfold Fields. rewrite <- (app_nil_r t) at 1. rewrite runes_token, fields_from_token by done. by destruct t.
Qed.
