(* ===== verification/BlobFiles.v ===== *)
(** * The names of the blob files (blob.go)

    The model of a directory has blob files by generation; the code has names.
    Here: the name of a generation, the generation of a name, and that listing
    a directory finds exactly the generations in it. *)

From S2P Require Import Prelude Floats Types Json Record BTree PkIndex SecIndex Hint Meta Store Load Recovery Text.
#[local] Open Scope Z_scope.

(** [strings.TrimPrefix] and [strings.TrimSuffix]. *)
Definition TrimPrefix (p s : gostring) : gostring := if has_prefix p s then drop (length p) s else s.
Definition TrimSuffix (p s : gostring) : gostring := if has_prefix (reverse p) (reverse s) then take (length s - length p) s else s.

Definition blobFile : gostring := bs "blobs.dat".

(** The last element of [blobGenPath]. *)
Definition blobGenPath (gen : Z) : gostring :=
  if gen =? 0 then blobFile else bs "blobs." ++ format_int gen ++ bs ".dat".

(** [filepath.Glob] of "blobs*.dat": the star is any text, and a name has no
    separator in it. *)
Definition matches_glob (name : gostring) : bool :=
  has_prefix (bs "blobs") name && has_prefix (reverse (bs ".dat")) (reverse (drop 5 name)).

(** The loop's body. *)
Definition gen_of_name (name : gostring) : option Z :=
  if bool_decide (name = blobFile) then Some 0
  else match Atoi (TrimSuffix (bs ".dat") (TrimPrefix (bs "blobs.") name)) with
       | Some g => if 0 <? g then Some g else None
       | None => None
       end.

(** [discoverBlobGens] of a directory that lists [names]. *)
Definition discover_names (names : list gostring) : list Z := omap gen_of_name (filter (fun n => matches_glob n = true) names).

(** ** Round trip *)

Lemma TrimPrefix_app p s : TrimPrefix p (p ++ s) = s.
Proof. unfold TrimPrefix. rewrite (proj2 (has_prefix_spec p (p ++ s))) by eauto. apply drop_app_length. Qed.

Lemma has_suffix_app p s : has_prefix (reverse p) (reverse (s ++ p)) = true.
Proof. apply has_prefix_spec. rewrite reverse_app. eauto. Qed.

Lemma TrimSuffix_app p s : TrimSuffix p (s ++ p) = s.
Proof.
  unfold TrimSuffix. rewrite has_suffix_app, length_app, Nat.add_sub. by rewrite take_app_length.
Qed.

Lemma gen_of_path g : 0 <= g <= MaxInt64 -> gen_of_name (blobGenPath g) = Some g.
Proof.
  intros Hg. unfold gen_of_name, blobGenPath. destruct (Z.eqb_spec g 0) as [->|Hne]; [done|].
  rewrite bool_decide_eq_false_2.
  - rewrite TrimPrefix_app, TrimSuffix_app. unfold Atoi. rewrite ParseInt_format by done. by rewrite (proj2 (Z.ltb_lt 0 g)) by lia.
  - intros H. apply (f_equal (fun s => head (drop 6 s))) in H. change (drop 6 blobFile) with (bs "dat") in H.
    change (drop 6 (bs "blobs." ++ format_int g ++ bs ".dat")) with (format_int g ++ bs ".dat") in H.
    unfold format_int in H. rewrite (proj2 (Z.ltb_ge g 0)) in H by lia. destruct (nat_dec_head g ltac:(lia)) as (b & ds & He & Hb). rewrite He in H.
    injection H as ->. change (bZ Byte.x64) with 100 in Hb. lia.
Qed.

Lemma glob_path g : matches_glob (blobGenPath g) = true.
Proof.
  unfold matches_glob, blobGenPath. destruct (g =? 0); [done|].
  change (drop 5 (bs "blobs." ++ format_int g ++ bs ".dat")) with (bs "." ++ format_int g ++ bs ".dat").
  rewrite (app_assoc (bs ".")), has_suffix_app. done.
Qed.

(** Distinct generations have distinct files. *)
Lemma blobGenPath_inj g g' : 0 <= g <= MaxInt64 -> 0 <= g' <= MaxInt64 -> blobGenPath g = blobGenPath g' -> g = g'.
Proof. intros Hg Hg' He. apply gen_of_path in Hg, Hg'. congruence. Qed.

(** Listing a directory whose blob files have the names the store gives them
    finds exactly the generations that are there, whatever else is in it. *)
Theorem discover_names_exact names g : (forall n g', n ∈ names -> matches_glob n = true -> gen_of_name n = Some g' -> n = blobGenPath g') ->
  0 <= g <= MaxInt64 -> g ∈ discover_names names <-> blobGenPath g ∈ names.
Proof.
  intros Hcanon Hg. unfold discover_names. rewrite list_elem_of_omap. setoid_rewrite list_elem_of_filter. split.
  - intros (n & [Hglob Hin] & Hn). by rewrite <- (Hcanon n g).
  - intros Hin. exists (blobGenPath g). split; [|by apply gen_of_path]. split; [apply glob_path|done].
Qed.

(** The names of a modelled directory. *)
Definition blob_names (d : Disk) : list gostring := blobGenPath <$> (map_to_list (d_blobs d)).*1.

(** On them the code finds what the model of [Open] and [Destroy] does. *)
Theorem discover_names_disk d : gens_ok d -> discover_names (blob_names d) = discoverBlobGens d.
Proof.
  intros Hg. unfold discover_names, discoverBlobGens, blob_names.
  assert (HF : Forall (fun g => 0 <= g <= MaxInt64) (map_to_list (d_blobs d)).*1).
  { apply Forall_fmap, Forall_forall. intros [g f] Hin%elem_of_map_to_list. exact (Hg g f Hin). }
  induction HF as [|g gs Hr HF IH]; [done|]. rewrite fmap_cons, !filter_cons_True by first [apply glob_path | lia].
  cbn [omap list_omap]. rewrite gen_of_path by done. by rewrite IH.
Qed.

(** The store's other files are no blob files; a leading zero gives a
    generation whose file has another name. *)
Example other_files : filter (fun n => matches_glob n = true)
    (bs <$> ["main.jsonl"; "main.jsonl.compact"; "main.jsonl.hint"; "main.jsonl.hint.tmp"; "meta.json"; "meta.json.tmp"; "LOCK"]%string) = []
  /\ discover_names (bs <$> ["blobs.3.dat"; "blobs.dat"; "blobs.x.dat"; "blobs7.dat"; "blobs.-1.dat"; "blobs.12.dat"]%string) = [3; 0; 12]
  /\ discover_names [bs "blobs.007.dat"] = [7] /\ blobGenPath 7 = bs "blobs.7.dat".
Proof. split_and!; vm_compute; reflexivity. Qed.
