(* ===== verification/Net.v ===== *)
(** * Network addresses (what main.go uses of package net)

    [net.SplitHostPort], [net.ParseIP] and [IP.IsLoopback], byte by byte, and
    what they accept: a dotted address has one spelling, and a host and a port
    are parts of the address they were split from. *)

From S2P Require Import Prelude Floats Types Json Text.
#[local] Open Scope Z_scope.

Definition dot : byte := Byte.x2e.
Definition colon : byte := Byte.x3a.
Definition lbracket : byte := Byte.x5b.
Definition rbracket : byte := Byte.x5d.
Definition percent : byte := Byte.x25.

(** ** IPv4 *)

(** [parseIPv4Fields]: [prev] is the byte before, [val] and [digLen] the
    current octet, [fields] the octets so far. *)
Fixpoint parse4 (prev : option byte) (val : Z) (digLen : nat) (fields : list Z) (s : gostring) : option (list Z) :=
  match s with
  | [] => if (length fields <? 3)%nat then None else Some (fields ++ [val])
  | b :: s' =>
      if is_digit b then
        if (digLen =? 1)%nat && (val =? 0) then None
        else
          let val' := val * 10 + (bZ b - 48) in
          if 255 <? val' then None else parse4 (Some b) val' (S digLen) fields s'
      else if decide (b = dot) then
        if bool_decide (prev = None) || bool_decide (s' = []) || bool_decide (prev = Some dot) then None
        else if (length fields =? 3)%nat then None
        else parse4 (Some b) 0 0 (fields ++ [val]) s'
      else None
  end.

Definition parseIPv4Fields (s : gostring) : option (list Z) := parse4 None 0 0 [] s.

(** ** IPv6 *)

Definition hex_val (b : byte) : option Z :=
  let c := bZ b in
  if (48 <=? c) && (c <=? 57) then Some (c - 48)
  else if (97 <=? c) && (c <=? 102) then Some (c - 97 + 10)
  else if (65 <=? c) && (c <=? 70) then Some (c - 65 + 10)
  else None.

(** The hexadecimal group at the head of [s]: its value, its length and the
    rest; nothing when it has more than four digits. *)
Fixpoint hex_group (off : nat) (acc : Z) (s : gostring) : option (Z * nat * gostring) :=
  match s with
  | [] => Some (acc, off, [])
  | b :: s' =>
      match hex_val b with
      | None => Some (acc, off, s)
      | Some v =>
          let acc' := Z.shiftl acc 4 + v in
          if (3 <? off)%nat || (65535 <? acc') then None else hex_group (S off) acc' s'
      end
  end.

(** The loop of [parseIPv6] over the groups: the bytes so far, where the
    ellipsis was, and what is left of the input. *)
Fixpoint groups (fuel : nat) (ip : list Z) (ellipsis : option nat) (s : gostring) : option (list Z * option nat * gostring) :=
  match fuel with
  | O => Some (ip, ellipsis, s)
  | S f =>
      match hex_group 0 0 s with
      | None => None
      | Some (acc, off, r) =>
          if (off =? 0)%nat then None
          else if bool_decide (head r = Some dot) then
            if bool_decide (ellipsis = None) && negb (length ip =? 12)%nat then None
            else if (16 <? length ip + 4)%nat then None
            else match parseIPv4Fields s with
                 | None => None
                 | Some v4 => Some (ip ++ v4, ellipsis, [])
                 end
          else
            let ip' := ip ++ [Z.shiftr acc 8; Z.land acc 255] in
            match r with
            | [] => Some (ip', ellipsis, [])
            | c :: r1 =>
                if negb (bool_decide (c = colon)) then None
                else match r1 with
                     | [] => None
                     | c1 :: r2 =>
                         if bool_decide (c1 = colon) then
                           match ellipsis with
                           | Some _ => None
                           | None => match r2 with
                                     | [] => Some (ip', Some (length ip'), [])
                                     | _ => groups f ip' (Some (length ip')) r2
                                     end
                           end
                         else groups f ip' ellipsis r1
                     end
            end
      end
  end.

(** The zeros of the ellipsis. *)
Definition expand (ip : list Z) (ellipsis : option nat) : option (list Z) :=
  if (length ip <? 16)%nat then
    match ellipsis with
    | None => None
    | Some e => Some (take e ip ++ replicate (16 - length ip) 0 ++ drop e ip)
    end
  else match ellipsis with Some _ => None | None => Some ip end.

(** [netip.parseIPv6] for an address without a zone ([net.ParseIP] refuses
    one with a zone). *)
Definition parseIPv6 (s : gostring) : option (list Z) :=
  let '(e, s) := match s with
                 | a :: b :: s' => if decide (a = colon /\ b = colon) then (Some O, s') else (None, s)
                 | _ => (None, s)
                 end in
  match e, s with
  | Some _, [] => Some (replicate 16 0)
  | _, _ =>
      match groups 8 [] e s with
      | Some (ip, e', []) => expand ip e'
      | _ => None
      end
  end.

(** [net.ParseIP]: sixteen bytes.  The first of [.], [:] and [%] decides. *)
Fixpoint addr_kind (s : gostring) : option byte :=
  match s with
  | [] => None
  | b :: s' => if decide (b = dot \/ b = colon \/ b = percent) then Some b else addr_kind s'
  end.

Definition v4_in_v6 (v4 : list Z) : list Z := replicate 10 0 ++ [255; 255] ++ v4.

Definition ParseIP (s : gostring) : option (list Z) :=
  match addr_kind s with
  | None => None
  | Some b =>
      if decide (b = dot) then v4_in_v6 <$> parseIPv4Fields s
      else if decide (b = colon) then if bool_decide (percent ∈ s) then None else parseIPv6 s
      else None
  end.

(** [IP.To4], [IP.IsLoopback]. *)
Definition To4 (ip : list Z) : option (list Z) :=
  if decide (take 12 ip = replicate 10 0 ++ [255; 255]) then Some (drop 12 ip) else None.

Definition IPv6loopback : list Z := replicate 15 0 ++ [1].

Definition IsLoopback (ip : list Z) : bool :=
  match To4 ip with
  | Some (a :: _) => a =? 127
  | Some [] => false
  | None => bool_decide (ip = IPv6loopback)
  end.

(** ** Host and port *)

(** [strings.LastIndexByte]: what precedes the last [c] and what follows it. *)
Definition cut_last (c : byte) (s : gostring) : option (gostring * gostring) :=
  '(r, l) ← cut_byte c (reverse s); Some (reverse l, reverse r).

Inductive addrError := MissingPort | TooManyColons | MissingBracket | UnexpectedBracket.

(** [net.SplitHostPort]. *)
Definition SplitHostPort (hostport : gostring) : (gostring * gostring) + addrError :=
  match cut_last colon hostport with
  | None => inr MissingPort
  | Some (before, port) =>
      match hostport with
      | b :: rest =>
          if decide (b = lbracket) then
            match cut_byte rbracket hostport with
            | None => inr MissingBracket
            | Some (upto, after) =>
                if decide (after = []) then inr MissingPort
                else if decide (length upto + 1 = length before)%nat then
                  if bool_decide (lbracket ∈ rest) then inr UnexpectedBracket
                  else if bool_decide (rbracket ∈ after) then inr UnexpectedBracket
                  else inl (drop 1 upto, port)
                else if decide (head after = Some colon) then inr TooManyColons
                else inr MissingPort
            end
          else if bool_decide (colon ∈ before) then inr TooManyColons
          else if bool_decide (lbracket ∈ hostport) then inr UnexpectedBracket
          else if bool_decide (rbracket ∈ hostport) then inr UnexpectedBracket
          else inl (before, port)
      | [] => inr MissingPort
      end
  end.

Example SplitHostPort_ex :
  SplitHostPort (bs "127.0.0.1:6666") = inl (bs "127.0.0.1", bs "6666")
  /\ SplitHostPort (bs "[::1]:6667") = inl (bs "::1", bs "6667")
  /\ SplitHostPort (bs ":6666") = inl ([], bs "6666")
  /\ SplitHostPort (bs "::1:6666") = inr TooManyColons
  /\ SplitHostPort (bs "[::1]") = inr MissingPort
  /\ SplitHostPort (bs "[::1]x:1") = inr MissingPort
  /\ SplitHostPort (bs "localhost") = inr MissingPort.
Proof. by vm_compute. Qed.

Example ParseIP_ex :
  ParseIP (bs "127.0.0.1") = Some (v4_in_v6 [127; 0; 0; 1])
  /\ ParseIP (bs "::1") = Some IPv6loopback
  /\ ParseIP (bs "0:0:0:0:0:0:0:1") = Some IPv6loopback
  /\ ParseIP (bs "::ffff:127.0.0.1") = Some (v4_in_v6 [127; 0; 0; 1])
  /\ ParseIP (bs "2001:db8::a") = Some [32; 1; 13; 184; 0; 0; 0; 0; 0; 0; 0; 0; 0; 0; 0; 10]
  /\ ParseIP (bs "127.0.0.01") = None /\ ParseIP (bs "127.1") = None /\ ParseIP (bs "1::2::3") = None
  /\ ParseIP (bs "::1%lo") = None /\ ParseIP (bs "256.0.0.1") = None.
Proof. by vm_compute. Qed.

(** ** One spelling per dotted address *)

Definition octet (v : Z) : gostring := format_int v.

Lemma octet_digit b : is_digit b = true -> octet (bZ b - 48) = [b].
Proof. by destruct b. Qed.

Definition digit_bytes : list byte :=
  [Byte.x30; Byte.x31; Byte.x32; Byte.x33; Byte.x34; Byte.x35; Byte.x36; Byte.x37; Byte.x38; Byte.x39].

Lemma digit_bytes_all b : is_digit b = true -> b ∈ digit_bytes.
Proof. intros Hb. apply list_elem_of_In. destruct b; try done; cbn; tauto. Qed.

Lemma octet_table : forallb (fun v => forallb (fun b => bool_decide (octet (v * 10 + (bZ b - 48)) = octet v ++ [b])) digit_bytes)
  (Z.of_nat <$> seq 1 25) = true.
Proof. by vm_compute. Qed.

Lemma octet_snoc v b : 0 < v -> is_digit b = true -> v * 10 + (bZ b - 48) <= 255 ->
  octet (v * 10 + (bZ b - 48)) = octet v ++ [b].
Proof.
  intros Hv Hb Hm. assert (48 <= bZ b) by (unfold is_digit in Hb; lia).
  pose proof octet_table as Ht. rewrite forallb_forall in Ht. specialize (Ht v). rewrite forallb_forall in Ht.
  specialize (Ht ltac:(apply list_elem_of_In, list_elem_of_fmap; exists (Z.to_nat v); split; [lia|]; apply elem_of_seq; lia) b).
  by apply bool_decide_eq_true in Ht; [|by apply list_elem_of_In, digit_bytes_all].
Qed.

(** The digits [ds] read so far are the spelling of [val]. *)
Definition octet_so_far (val : Z) (digLen : nat) (ds : gostring) : Prop :=
  (digLen = O /\ val = 0 /\ ds = [])
  \/ (0 <= val <= 255 /\ ds = octet val /\ (0 < digLen)%nat /\ (digLen = 1%nat \/ 0 < val)).

Fixpoint dotted (vs : list Z) : gostring :=
  match vs with [] => [] | [v] => octet v | v :: vs' => octet v ++ dot :: dotted vs' end.

Lemma so_far_digit val n ds b : octet_so_far val n ds -> is_digit b = true -> (n =? 1)%nat && (val =? 0) = false ->
  val * 10 + (bZ b - 48) <= 255 -> octet_so_far (val * 10 + (bZ b - 48)) (S n) (ds ++ [b]).
Proof.
  intros Hs Hb Hz Hm. assert (48 <= bZ b <= 57) by (unfold is_digit in Hb; lia). right.
  destruct Hs as [(-> & -> & ->)|(Hv & -> & Hn & Hd)].
  - split_and!; [lia|lia| |lia|by left]. rewrite Z.mul_0_l, Z.add_0_l. by rewrite octet_digit.
  - assert (0 < val).
    { destruct Hd as [->|?]; [|done]. cbn in Hz. apply Z.eqb_neq in Hz. lia. }
    split_and!; [lia|lia|by rewrite octet_snoc|lia|right; lia].
Qed.

Lemma parse4_spec s : forall prev val n fields out ds, octet_so_far val n ds ->
  (n = O -> s <> [] \/ (length fields < 3)%nat) -> (n = O <-> prev = None \/ prev = Some dot) ->
  parse4 prev val n fields s = Some out ->
  exists vs, out = fields ++ vs /\ (0 < length vs)%nat /\ Forall (fun v => 0 <= v <= 255) vs /\ ds ++ s = dotted vs.
Proof.
  induction s as [|b s IH]; intros prev val n fields out ds Hs He Hp; cbn [parse4].
  - destruct (_ <? _)%nat eqn:Hl; [done|]. apply Nat.ltb_ge in Hl. intros [= <-]. exists [val].
    destruct Hs as [(-> & _ & _)|(Hv & -> & _ & _)]; [destruct (He eq_refl); [done|lia]|].
    split_and!; [done|cbn; lia|by constructor|by rewrite app_nil_r].
  - destruct (is_digit b) eqn:Hb.
    + destruct ((n =? 1)%nat && (val =? 0)) eqn:Hz; [done|]. destruct (255 <? _) eqn:Hm; [done|]. apply Z.ltb_ge in Hm.
      intros Hrun. assert (S n = O <-> Some b = None \/ Some b = Some dot) as Hp'.
      { split; [done|]. intros [[=]|[= ->]]. by vm_compute in Hb. }
      destruct (IH _ _ _ _ _ (ds ++ [b]) (so_far_digit _ _ _ _ Hs Hb Hz Hm) ltac:(done) Hp' Hrun) as (vs & -> & Hl & Hvs & Hd).
      exists vs. split_and!; try done. by rewrite <- Hd, <- app_assoc.
    + destruct (decide (b = dot)) as [->|]; [|done].
      destruct (bool_decide _ || bool_decide _ || bool_decide _) eqn:Hg; [done|]. apply orb_false_iff in Hg as [[Hg1 Hg2]%orb_false_iff Hg3].
      apply bool_decide_eq_false in Hg1, Hg2, Hg3. destruct (length fields =? 3)%nat eqn:Hl; [done|].
      destruct Hs as [(-> & _ & _)|(Hv & -> & _ & _)]; [destruct (proj1 Hp eq_refl); done|].
      intros Hrun. destruct (IH _ _ _ _ _ [] ltac:(by left) ltac:(by left) ltac:(split; [by right|done]) Hrun) as (vs & -> & Hvl & Hvs & Hd).
      exists (val :: vs). cbn [app] in Hd. split_and!; [by rewrite <- app_assoc|cbn; lia|by constructor|].
      rewrite Hd. by destruct vs.
Qed.

Lemma parse4_length s : forall prev val n fields out, (length fields <= 3)%nat -> parse4 prev val n fields s = Some out -> length out = 4%nat.
Proof.
  induction s as [|b s IH]; intros prev val n fields out Hf; cbn [parse4].
  - destruct (_ <? _)%nat eqn:Hl; [done|]. apply Nat.ltb_ge in Hl. intros [= <-]. rewrite length_app. cbn. lia.
  - destruct (is_digit b); [destruct (_ && _); [done|]; destruct (255 <? _); [done|]; by apply IH|].
    destruct (decide _); [|done]. destruct (_ || _); [done|]. destruct (length fields =? 3)%nat eqn:Hl; [done|].
    apply Nat.eqb_neq in Hl. apply IH. rewrite length_app. cbn. lia.
Qed.

(** What [parseIPv4Fields] accepts is the dotted spelling of what it returns. *)
Lemma parseIPv4_canonical s out : parseIPv4Fields s = Some out ->
  length out = 4%nat /\ Forall (fun v => 0 <= v <= 255) out /\ s = dotted out.
Proof.
  intros Hp. destruct (parse4_spec s None 0 0 [] out [] ltac:(by left) ltac:(right; cbn; lia) ltac:(split; [by left|done]) Hp)
    as (vs & -> & _ & Hv & Hd).
  split_and!; [|done|done]. eapply (parse4_length s None 0 0 []); [cbn; lia|exact Hp].
Qed.

(** ** The parts of an address *)

Lemma cut_last_Some c s l r : cut_last c s = Some (l, r) -> s = l ++ c :: r.
Proof.
  unfold cut_last. destruct (cut_byte c (reverse s)) as [[r' l']|] eqn:E; [|done]. cbn. intros [= <- <-].
  apply cut_byte_Some in E as [E _]. rewrite <- (reverse_involutive s), E, reverse_app, reverse_cons, <- app_assoc. done.
Qed.

(** A host and a port are what the address is made of. *)
Lemma SplitHostPort_parts a host port : SplitHostPort a = inl (host, port) ->
  a = host ++ colon :: port \/ a = lbracket :: host ++ rbracket :: colon :: port.
Proof.
  unfold SplitHostPort. destruct (cut_last colon a) as [[before p]|] eqn:Hl; [|done]. apply cut_last_Some in Hl as Ha.
  destruct a as [|b rest]; [done|]. destruct (decide (b = lbracket)) as [->|].
  - destruct (cut_byte rbracket (lbracket :: rest)) as [[upto after]|] eqn:Hc; [|done].
    destruct (decide (after = [])); [done|]. destruct (decide (length upto + 1 = length before)%nat) as [Hlen|]; [|by destruct (decide _)].
    destruct (bool_decide _); [done|]. destruct (bool_decide _); [done|]. intros [= <- <-]. right.
    apply cut_byte_Some in Hc as [Hc _]. rewrite Ha in Hc.
    assert (before = upto ++ [rbracket] /\ colon :: p = after) as [-> Hp].
    { apply app_inj_1; [rewrite length_app; cbn; lia|]. by rewrite Hc, <- app_assoc. }
    rewrite Ha. destruct upto as [|u upto]; [|cbn in Ha; injection Ha as <- _; cbn; by rewrite drop_0, <- app_assoc].
    cbn in Ha. injection Ha as Ha _. done.
  - destruct (bool_decide _); [done|]. destruct (bool_decide _); [done|]. destruct (bool_decide _); [done|].
    intros [= <- <-]. by left.
Qed.
