(* ===== verification/Proto.v ===== *)
(** * The wire protocol (nteedb-server/proto.go)

    Requests are lines of space-separated tokens, some followed by
    length-prefixed data blocks; every response is one line of JSON.  The
    input of a connection is the bytes its peer will send and the error the
    stream ends with; the buffered reader hands out a line only when it fits
    its buffer. *)

From S2P Require Import Prelude Floats Types Json Base64 Record Hint Text.
#[local] Open Scope Z_scope.

(** ** The buffered reader *)

Record stream := mkStream { in_bytes : gostring; in_end : error }.

Definition advance (n : nat) (i : stream) : stream := mkStream (drop n (in_bytes i)) (in_end i).

(** [bufio.NewReaderSize]: at least 16 bytes. *)
Definition bufSize (maxLine : Z) : Z := Z.max 16 maxLine.

(** [readLine]: [ReadSlice] finds the newline within the buffer, gives up on a
    full buffer, or reports how the stream ended. *)
Definition readLine (maxLine : Z) (i : stream) : res gostring * stream :=
  let size := Z.to_nat (bufSize maxLine) in
  match cut_line (take size (in_bytes i)) with
  | Some (l, _) => (Ok (drop_cr l), advance (S (length l)) i)
  | None =>
      if (size <=? length (in_bytes i))%nat then (Err ErrLineTooLong, advance size i)
      else (Err (in_end i), advance (length (in_bytes i)) i)
  end.

Definition readByte (i : stream) : res byte * stream :=
  match in_bytes i with
  | b :: _ => (Ok b, advance 1 i)
  | [] => (Err (in_end i), i)
  end.

(** [io.ReadFull]: a stream that ends inside the buffer is an unexpected end. *)
Definition readFull (n : Z) (i : stream) : res gostring * stream :=
  if (Z.to_nat n <=? length (in_bytes i))%nat then (Ok (take (Z.to_nat n) (in_bytes i)), advance (Z.to_nat n) i)
  else (Err (match in_end i, in_bytes i with
             | EEOF, _ :: _ => EUnexpectedEOF
             | e, _ => e
             end), advance (length (in_bytes i)) i).

(** [readData]: the block and its newline, [\r\n] or [\n]. *)
Definition readData (n max : Z) : M stream gostring :=
  if (n <? 0) || (max <? n) then merr ErrValueTooBig
  else
    buf <- readFull n ;;
    b <- readByte ;;
    b' <- (if decide (b = Byte.x0d) then readByte else mok b) ;;
    if decide (b' = Byte.x0a) then mok buf else merr ErrBadDataEnd.

(** ** Tokens *)

(** [splitCommand]. *)
Definition splitCommand (line : gostring) : gostring * list gostring :=
  match Fields line with
  | [] => ([], [])
  | c :: args => (ToLower c, args)
  end.

(** [restAfterTokens]; a nil slice is the empty one. *)
Fixpoint skip_tokens (n : nat) (rest : gostring) : gostring :=
  match n with
  | O => rest
  | S n' => match cut_byte Byte.x20 rest with
            | None => []
            | Some (_, r) => skip_tokens n' (trim_spaces r)
            end
  end.

Definition restAfterTokens (line : gostring) (n : nat) : gostring := skip_tokens n (trim_spaces line).

(** ** Failures a command reports

    The reasons the server writes with [respWriter.fail].  Their wording is a
    parameter wherever it matters. *)
Inductive failure :=
  | FErr (e : error)                           (** an error of the store *)
  | FUsage (cmd : gostring)
  | FAuthRequired
  | FInvalidPassword
  | FInvalidUser
  | FAuthMode (mode : gostring)
  | FPermission (cmd : gostring)
  | FTTL (cmd tok : gostring)
  | FDelta (cmd tok : gostring)
  | FDeltaRange
  | FAmount (cmd tok : gostring)
  | FBound (cmd tok : gostring)
  | FIndexValues                               (** putx: not a JSON object *)
  | FNotNumber (name tok : gostring)
  | FLimit (tok : gostring)
  | FUnknownCommand (cmd : gostring)
  | FLineTooLong (max : Z).

(** ** Responses *)

(** [json.Valid]. *)
Definition json_valid (s : gostring) : bool := match json_parse s with Some _ => true | None => false end.

(** What [json.Marshal] makes of an embedded [json.RawMessage]: white space
    outside strings goes, and the characters it escapes in strings are escaped.
    [instr] and [esc] are the scanner's position: inside a string, just after a
    backslash. *)
Fixpoint compact_raw (instr esc : bool) (s : gostring) : gostring :=
  match s with
  | [] => []
  | c :: t =>
      let instr' := if instr then (esc || negb (bool_decide (c = Byte.x22))) else bool_decide (c = Byte.x22) in
      let esc' := instr && negb esc && bool_decide (c = Byte.x5c) in
      if bool_decide (c = Byte.x3c) || bool_decide (c = Byte.x3e) || bool_decide (c = Byte.x26)
      then esc_ascii c ++ compact_raw instr' esc' t
      else
        let plain := if negb instr && is_ws c then compact_raw instr' esc' t else c :: compact_raw instr' esc' t in
        match t with
        | b :: d :: t' =>
            if bool_decide (c = Byte.xe2) && bool_decide (b = Byte.x80) && ((bZ d =? 168) || (bZ d =? 169))
            then bs "\u202" ++ hex_digit (bZ d mod 16) :: compact_raw instr' esc' t'
            else plain
        | _ => plain
        end
  end.

(** A value to be marshalled: a JSON tree in which stored values are embedded
    as raw text. *)
Inductive doc :=
  | DJson (j : json)
  | DRaw (text : gostring)
  | DArr (l : list doc)
  | DObj (l : list (gostring * doc)).

Fixpoint dprint (d : doc) : gostring :=
  match d with
  | DJson j => print j
  | DRaw text => compact_raw false false text
  | DArr l => bs "[" ++ join (List.map dprint l) ++ bs "]"
  | DObj l => bs "{" ++ join (List.map (fun kv => quote (fst kv) ++ bs ":" ++ dprint (snd kv)) l) ++ bs "}"
  end.

(** [jsonValue]; a Go map prints its keys in order. *)
Definition jsonValue (value : gostring) : doc :=
  if json_valid value then DRaw value
  else DObj [(bs "base64", DJson (JStr (b64_encode value))); (bs "bin", DJson (JBool true))].

Definition jsonNull : doc := DRaw (bs "null").

Record envelope := mkEnvelope {
  env_OK : bool;
  env_Found : option bool;
  env_Result : option doc;
  env_Err : gostring
}.

(** The marshalled struct: fields in order, [omitempty] on the last three. *)
Definition envelope_doc (e : envelope) : doc :=
  DObj ([(bs "ok", DJson (JBool (env_OK e)))]
        ++ match env_Found e with Some b => [(bs "found", DJson (JBool b))] | None => [] end
        ++ match env_Result e with Some d => [(bs "result", d)] | None => [] end
        ++ match env_Err e with [] => [] | m => [(bs "err", DJson (JStr m))] end).

(** [respWriter.send]: the line that is written. *)
Definition response_line (e : envelope) : gostring := dprint (envelope_doc e) ++ [Byte.x0a].

(** [respWriter.ok]: no payload is [true]. *)
Definition ok_env (result : option doc) : envelope := mkEnvelope true None (Some (default (DJson (JBool true)) result)) [].

Definition found_env (found : bool) (result : doc) : envelope := mkEnvelope true (Some found) (Some result) [].

Definition fail_env (msg : gostring) : envelope := mkEnvelope false None None msg.

Example response_ex :
  response_line (found_env true (jsonValue (qs " { 'a' : '<b' } "))) =
  qs "{'ok':true,'found':true,'result':{'a':'\u003cb'}}" ++ [Byte.x0a].
Proof. by vm_compute. Qed.

Example response_bin_ex :
  response_line (found_env true (jsonValue [Byte.x00; Byte.xff])) =
  qs "{'ok':true,'found':true,'result':{'base64':'AP8=','bin':true}}" ++ [Byte.x0a].
Proof. by vm_compute. Qed.
