(* ===== verification/Embed.v ===== *)
(** * Embedding stored JSON in a response (jsonValue and respWriter.send of proto.go)

    A stored value that is valid JSON is embedded after dropping white space
    and escaping a few characters.  The embedded text is one line, and parses
    to the value that was stored, whatever follows it. *)

From S2P Require Import Prelude Floats Types Json Base64 Record Hint Text Proto.
#[local] Open Scope Z_scope.

(** A byte differs from a literal because its number is out of range. *)
Ltac byte_neq :=
  let H := fresh in
  intros H; apply (f_equal bZ) in H;
  match type of H with _ = bZ ?c => let v := eval vm_compute in (bZ c) in change (bZ c) with v in H end; lia.

(** ** Single bytes *)

Definition special (b : byte) : bool :=
  bool_decide (b = Byte.x3c) || bool_decide (b = Byte.x3e) || bool_decide (b = Byte.x26).

Lemma compact_plain instr esc b s : special b = false -> b <> Byte.xe2 -> (instr = false -> is_ws b = false) ->
  compact_raw instr esc (b :: s) =
    b :: compact_raw (if instr then esc || negb (bool_decide (b = Byte.x22)) else bool_decide (b = Byte.x22))
           (instr && negb esc && bool_decide (b = Byte.x5c)) s.
Proof.
  unfold special. intros Hs He Hw. cbn [compact_raw]. rewrite Hs.
  assert (Hws : negb instr && is_ws b = false) by (destruct instr; [done|by rewrite Hw]). rewrite Hws.
  destruct s as [|c [|d s]]; [done|done|]. by rewrite (bool_decide_eq_false_2 (b = Byte.xe2)).
Qed.

(** A byte inside a string that is neither escaped nor special. *)
Lemma str_plain b s : special b = false -> b <> Byte.xe2 -> b <> Byte.x22 -> b <> Byte.x5c ->
  compact_raw true false (b :: s) = b :: compact_raw true false s.
Proof.
  intros. rewrite compact_plain by done. by rewrite (bool_decide_eq_false_2 (b = Byte.x22)), (bool_decide_eq_false_2 (b = Byte.x5c)).
Qed.

Lemma str_high b s : 128 <= bZ b -> b <> Byte.xe2 -> compact_raw true false (b :: s) = b :: compact_raw true false s.
Proof. intros Hb He. apply str_plain; try done; destruct b; try done; exfalso; by apply Hb. Qed.

Lemma str_special b s : special b = true -> compact_raw true false (b :: s) = esc_ascii b ++ compact_raw true false s.
Proof.
  unfold special. intros Hs. cbn [compact_raw]. rewrite Hs.
  by destruct (decide (b = Byte.x22)) as [->|]; [done|]; destruct (decide (b = Byte.x5c)) as [->|]; [done|];
    rewrite (bool_decide_eq_false_2 (b = Byte.x22)), (bool_decide_eq_false_2 (b = Byte.x5c)).
Qed.

(** The byte after a backslash. *)
Lemma str_escaped b s : special b = false -> b <> Byte.xe2 ->
  compact_raw true true (b :: s) = b :: compact_raw true false s.
Proof. intros. by rewrite compact_plain by done. Qed.

Lemma str_backslash b s : special b = false -> b <> Byte.xe2 ->
  compact_raw true false (Byte.x5c :: b :: s) = Byte.x5c :: b :: compact_raw true false s.
Proof. intros. rewrite (compact_plain true false Byte.x5c) by done. cbn [orb negb andb bool_decide]. by rewrite str_escaped. Qed.

Lemma str_quote s : compact_raw true false (Byte.x22 :: s) = Byte.x22 :: compact_raw false false s.
Proof. by rewrite compact_plain. Qed.

Lemma top_quote s : compact_raw false false (Byte.x22 :: s) = Byte.x22 :: compact_raw true false s.
Proof. by rewrite compact_plain. Qed.

Lemma top_plain b s : special b = false -> b <> Byte.xe2 -> b <> Byte.x22 -> is_ws b = false ->
  compact_raw false false (b :: s) = b :: compact_raw false false s.
Proof. intros. rewrite compact_plain by done. by rewrite (bool_decide_eq_false_2 (b = Byte.x22)). Qed.

Lemma top_ws b s : is_ws b = true -> compact_raw false false (b :: s) = compact_raw false false s.
Proof.
  intros Hw. assert (Hb : b = Byte.x20 \/ b = Byte.x09 \/ b = Byte.x0a \/ b = Byte.x0d) by (by destruct b; vm_compute in Hw; auto).
  destruct Hb as [-> | [-> | [-> | ->]]]; by destruct s as [|c [|d s]].
Qed.

Lemma top_skip_ws s : compact_raw false false (skip_ws s) = compact_raw false false s.
Proof. induction s as [|b s IH]; [done|]. cbn [skip_ws]. destruct (is_ws b) eqn:Hb; [|done]. by rewrite top_ws. Qed.

Lemma top_app p s : forallb (fun b => negb (special b) && negb (bool_decide (b = Byte.xe2)) && negb (bool_decide (b = Byte.x22)) && negb (is_ws b)) p = true ->
  compact_raw false false (p ++ s) = p ++ compact_raw false false s.
Proof.
  induction p as [|b p IH]; [done|]. cbn [forallb app]. intros [Hb Hp]%andb_true_iff.
  rewrite !andb_true_iff, !negb_true_iff in Hb. destruct Hb as [[[? ?%bool_decide_eq_false] ?%bool_decide_eq_false] ?].
  by rewrite top_plain, IH.
Qed.

(** ** What decoding a chunk of a string looks ahead at *)

(** The continuation bytes that follow, and whether an escaped low surrogate
    does. *)
Definition conts (s : gostring) : gostring := take_while cont s.

Definition low_esc (s : gostring) : bool :=
  match s with
  | x :: y :: a :: b :: c :: d :: _ =>
      match hex4 a b c d with
      | Some r => bool_decide (x = Byte.x5c) && bool_decide (y = Byte.x75) && (56320 <=? r) && (r <=? 57343)
      | None => false
      end
  | _ => false
  end.

Definition sees (k r : gostring) : Prop := conts k = conts r /\ low_esc k = low_esc r.

Lemma low_esc_head s : low_esc s = true -> exists s', s = Byte.x5c :: Byte.x75 :: s'.
Proof.
  destruct s as [|x [|y [|a [|b [|c [|d s]]]]]]; try done. cbn. destruct (hex4 a b c d); [|done].
  rewrite !andb_true_iff, !bool_decide_eq_true. intros [[[-> ->] ?] ?]. eauto.
Qed.

Lemma low_esc_not x s : x <> Byte.x5c -> low_esc (x :: s) = false.
Proof. intros Hx. destruct (low_esc (x :: s)) eqn:H; [|done]. apply low_esc_head in H as [s' [= -> _]]. done. Qed.

Lemma low_esc_not2 x y s : y <> Byte.x75 -> low_esc (x :: y :: s) = false.
Proof. intros Hx. destruct (low_esc (x :: y :: s)) eqn:H; [|done]. apply low_esc_head in H as [s' [= _ -> _]]. done. Qed.

(** Does a byte start a multi-byte character with what follows? *)
Definition starts (a : byte) (s : gostring) : bool :=
  match s with
  | b :: s2 => is2 a b || match s2 with
                          | c :: s3 => is3 a b c || match s3 with d :: _ => is4 a b c d | [] => false end
                          | [] => false
                          end
  | [] => false
  end.

Lemma starts_conts a s : starts a s = starts a (conts s).
Proof.
  assert (H2 : forall b, is2 a b = true -> cont b = true) by (intros b; unfold is2; by intros [_ ?]%andb_true_iff).
  assert (Hw : forall b lo hi, 128 <= lo -> hi <= 191 -> within b lo hi = true -> cont b = true).
  { intros b lo hi ? ?. unfold within, cont. intros [?%Z.leb_le ?%Z.leb_le]%andb_true_iff. apply andb_true_iff. split; apply Z.leb_le; lia. }
  assert (H3 : forall b c, is3 a b c = true -> cont b = true /\ cont c = true).
  { intros b c. unfold is3. intros [H ?]%andb_true_iff. split; [|done]. repeat case_match; eauto with lia.
    - eapply Hw, H; lia.
    - eapply Hw, H; lia.
    - by apply andb_true_iff in H as [_ ?]. }
  assert (H4 : forall b c d, is4 a b c d = true -> cont b = true /\ cont c = true /\ cont d = true).
  { intros b c d. unfold is4. intros [[H ?]%andb_true_iff ?]%andb_true_iff. split; [|done]. repeat case_match.
    - eapply Hw, H; lia.
    - eapply Hw, H; lia.
    - by apply andb_true_iff in H as [_ ?]. }
  unfold conts. destruct s as [|b s2]; [done|]. cbn [take_while starts].
  destruct (cont b) eqn:Cb.
  2: { destruct (is2 a b) eqn:E2; [by rewrite (H2 b) in Cb|]. cbn [orb]. destruct s2 as [|c s3]; [done|].
       destruct (is3 a b c) eqn:E3; [by destruct (H3 b c) as [? _]; [|congruence]|]. cbn [orb]. destruct s3 as [|d s4]; [done|].
       destruct (is4 a b c d) eqn:E4; [by destruct (H4 b c d) as [? _]; [|congruence]|done]. }
  cbn [starts]. destruct (is2 a b); [done|]. cbn [orb]. destruct s2 as [|c s3]; [done|]. cbn [take_while].
  destruct (cont c) eqn:Cc.
  2: { destruct (is3 a b c) eqn:E3; [by destruct (H3 b c) as [_ ?]; [|congruence]|]. cbn [orb]. destruct s3 as [|d s4]; [done|].
       destruct (is4 a b c d) eqn:E4; [by destruct (H4 b c d) as (_ & ? & _); [|congruence]|done]. }
  destruct (is3 a b c); [done|]. cbn [orb]. destruct s3 as [|d s4]; [done|]. cbn [take_while].
  destruct (cont d) eqn:Cd; [done|]. cbn [starts]. destruct (is4 a b c d) eqn:E4; [by destruct (H4 b c d) as (_ & _ & ?); [|congruence]|done].
Qed.

Definition replacement : gostring := [Byte.xef; Byte.xbf; Byte.xbd].

Lemma bad_step a s : 128 <= bZ a -> starts a s = false -> unq_step (a :: s) = UOut replacement s.
Proof.
  intros Ha Hs. cbn [unq_step]. rewrite (proj2 (Z.eqb_neq _ _)), (proj2 (Z.eqb_neq (bZ a) 92)) by lia.
  rewrite (proj2 (Z.ltb_ge _ _)), (proj2 (Z.ltb_ge (bZ a) 128)) by lia.
  destruct s as [|b [|c [|d s]]]; cbn [starts] in Hs; rewrite ?orb_false_iff in Hs; repeat case_match; naive_solver.
Qed.

Lemma u_escape_alone v r : surrogate v = true -> low_esc r && (v <? 56320) = false -> u_escape v r = UOut replacement r.
Proof.
  unfold u_escape. intros -> Hlow. destruct r as [|x [|y [|a [|b [|c [|d r]]]]]]; try done. cbn [low_esc] in Hlow.
  destruct (hex4 a b c d) as [r2|]; [|done]. destruct (bool_decide (x = Byte.x5c) && bool_decide (y = Byte.x75)); [|done].
  cbn [andb] in *. destruct (v <? 56320); [|done]. rewrite andb_true_r in Hlow. cbn [andb]. by rewrite Hlow.
Qed.

Lemma u_escape_pair v a b c d : surrogate v = true -> (v <? 56320) = true ->
  low_esc [Byte.x5c; Byte.x75; a; b; c; d] = true -> exists o, forall r,
  u_escape v (Byte.x5c :: Byte.x75 :: a :: b :: c :: d :: r) = UOut o r.
Proof.
  unfold u_escape. intros Hs Hv Hl. cbn [low_esc] in Hl. destruct (hex4 a b c d) as [r2|]; [|done].
  eexists. intros r. rewrite Hs, Hv. cbn [bool_decide decide] in *. rewrite !andb_true_iff in Hl.
  destruct Hl as [[_ H1] H2]. rewrite H1, H2. done.
Qed.

Lemma hex_val_byte b v : hex_val b = Some v -> special b = false /\ b <> Byte.xe2 /\ b <> Byte.x22 /\ b <> Byte.x5c /\ 32 <= bZ b < 128.
Proof. destruct b; vm_compute; intros H; try discriminate H; repeat split; intros; try discriminate; done. Qed.

Lemma hex4_bytes a b c d v : hex4 a b c d = Some v -> Forall (fun x => special x = false /\ x <> Byte.xe2 /\ x <> Byte.x22 /\ x <> Byte.x5c /\ 32 <= bZ x < 128) [a; b; c; d].
Proof.
  unfold hex4. destruct (hex_val a) eqn:Ha, (hex_val b) eqn:Hb, (hex_val c) eqn:Hc, (hex_val d) eqn:Hd; try done.
  intros _. repeat constructor; eauto using hex_val_byte; eapply hex_val_byte; eauto.
Qed.

Lemma str_hex4 a b c d v s : hex4 a b c d = Some v ->
  compact_raw true false (a :: b :: c :: d :: s) = a :: b :: c :: d :: compact_raw true false s.
Proof.
  intros H%hex4_bytes. rewrite !Forall_cons in H. destruct H as ((? & ? & ? & ? & _) & (? & ? & ? & ? & _) & (? & ? & ? & ? & _) & (? & ? & ? & ? & _) & _).
  by rewrite !str_plain.
Qed.

Lemma str_u a b c d v s : hex4 a b c d = Some v ->
  compact_raw true false (Byte.x5c :: Byte.x75 :: a :: b :: c :: d :: s) =
  [Byte.x5c; Byte.x75; a; b; c; d] ++ compact_raw true false s.
Proof. intros H. rewrite str_backslash by done. by rewrite (str_hex4 _ _ _ _ _ _ H). Qed.

(** ** One chunk of a string *)

(** A chunk of a string literal survives compaction: it decodes to the same
    bytes in front of anything that looks alike. *)
Definition survives (s o r : gostring) : Prop :=
  exists c', compact_raw true false s = c' ++ compact_raw true false r /\ no_ctl c' = true /\ c' <> []
    /\ forall k, sees k r -> unq_step (c' ++ k) = UOut o k /\ sees (c' ++ k) s.

Lemma sees_head (b : byte) k r : b <> Byte.x5c -> conts k = conts r -> sees (b :: k) (b :: r).
Proof. intros Hb Hc. split; [unfold conts in *; cbn; by rewrite Hc|]. by rewrite !low_esc_not. Qed.

Lemma conts_low b s : cont b = false -> conts (b :: s) = [].
Proof. unfold conts. cbn. by intros ->. Qed.

Lemma chunk_ascii a r : 32 <= bZ a < 128 -> a <> Byte.x22 -> a <> Byte.x5c -> survives (a :: r) [a] r.
Proof.
  intros Ha H22 H5c. assert (Hq : (bZ a =? 34) = false) by (by destruct a). assert (Hb : (bZ a =? 92) = false) by (by destruct a).
  assert (Hca : cont a = false) by (unfold cont; lia). destruct (special a) eqn:Hs.
  - exists (esc_ascii a). rewrite str_special by done. split_and!; [done|apply esc_ascii_no_ctl|by destruct a|].
    intros k Hk. split; [apply esc_ascii_step; lia|]. unfold special in Hs. rewrite !orb_true_iff, !bool_decide_eq_true in Hs.
    destruct Hs as [[-> | ->] | ->]; (split; [done|]); by rewrite (low_esc_not _ r).
  - exists [a]. rewrite str_plain by (done || byte_neq). split_and!; [done| |done|].
    + rewrite no_ctl_cons. cbn. lia.
    + intros k [Hk _]. split; [|by apply sees_head]. cbn [app unq_step]. rewrite Hq, Hb.
      by rewrite (proj2 (Z.ltb_ge _ _)), (proj2 (Z.ltb_lt _ _)) by lia.
Qed.

Lemma hi_no_ctl l : Forall (fun b => 128 <= bZ b) l -> no_ctl l = true.
Proof. induction 1 as [|b l Hb HF IH]; [done|]. rewrite no_ctl_cons, IH. lia. Qed.

(** A multi-byte character copied as it is. *)
Lemma chunk_copied a l r : 192 <= bZ a -> Forall (fun b => 128 <= bZ b) l ->
  compact_raw true false (a :: l ++ r) = a :: l ++ compact_raw true false r ->
  (forall k, unq_step (a :: l ++ k) = UOut (a :: l) k) -> survives (a :: l ++ r) (a :: l) r.
Proof.
  intros Ha Hl Hc Hstep. exists (a :: l). split_and!; [done|apply hi_no_ctl; constructor; [lia|done]|done|].
  intros k _. split; [apply Hstep|]. assert (cont a = false) by (unfold cont; lia).
  assert (a <> Byte.x5c) by byte_neq. cbn [app].
  split; [by rewrite !conts_low|by rewrite !low_esc_not].
Qed.

Lemma cont_byte_high b : cont b = true -> 128 <= bZ b /\ b <> Byte.xe2.
Proof. unfold cont. intros H. split; [lia|]. intros ->. by vm_compute in H. Qed.

Lemma chunk2 a b r : is2 a b = true -> survives (a :: b :: r) [a; b] r.
Proof.
  intros H. pose proof (is2_lead _ _ H). assert (Hb : cont b = true) by (unfold is2 in H; by apply andb_true_iff in H as [_ ?]).
  destruct (cont_byte_high b Hb). apply (chunk_copied a [b]); [lia|by repeat constructor| |intros k; by apply raw2_step].
  cbn [app]. rewrite str_high, str_high by (done || lia || byte_neq). done.
Qed.

(** The line and paragraph separators are the ones that are escaped. *)
Definition separator (a b c : byte) : bool :=
  bool_decide (a = Byte.xe2) && bool_decide (b = Byte.x80) && ((bZ c =? 168) || (bZ c =? 169)).

Lemma str_e2 b c r : separator Byte.xe2 b c = false ->
  compact_raw true false (Byte.xe2 :: b :: c :: r) = Byte.xe2 :: compact_raw true false (b :: c :: r).
Proof. intros H. unfold separator in H. cbn [compact_raw]. cbn [bool_decide decide orb negb andb] in *. by rewrite H. Qed.

Lemma str_e2_short b : compact_raw true false [Byte.xe2; b] = Byte.xe2 :: compact_raw true false [b].
Proof. done. Qed.

Lemma str_separator a b c r : separator a b c = true ->
  compact_raw true false (a :: b :: c :: r) = esc3 a b c ++ compact_raw true false r /\ is3 a b c = true.
Proof.
  unfold separator. rewrite !andb_true_iff, !bool_decide_eq_true, orb_true_iff. intros [[-> ->] Hc].
  assert (Hc' : c = Byte.xa8 \/ c = Byte.xa9) by (destruct Hc as [Hc|Hc]; apply Z.eqb_eq in Hc; [left|right]; by apply bZ_inj).
  by destruct Hc' as [-> | ->].
Qed.

Lemma is3_conts a b c : is3 a b c = true -> cont b = true /\ cont c = true.
Proof.
  unfold is3, cont, within. intros [H ?]%andb_true_iff. split; [|done].
  destruct (bZ a =? 224); [lia|]. destruct (bZ a =? 237); lia.
Qed.

Lemma is4_conts a b c d : is4 a b c d = true -> cont b = true /\ cont c = true /\ cont d = true.
Proof.
  unfold is4, cont, within. intros [[H ?]%andb_true_iff ?]%andb_true_iff. split; [|done].
  destruct (bZ a =? 240); [lia|]. destruct (bZ a =? 244); lia.
Qed.

Lemma raw3_step a b c t : is3 a b c = true -> unq_step (a :: b :: c :: t) = UOut [a; b; c] t.
Proof.
  intros H. pose proof (is3_lead _ _ _ H). cbn [unq_step].
  rewrite (proj2 (Z.eqb_neq _ _)), (proj2 (Z.eqb_neq (bZ a) 92)) by lia.
  rewrite (proj2 (Z.ltb_ge _ _)), (proj2 (Z.ltb_ge (bZ a) 128)) by lia.
  assert (H2 : is2 a b = false) by (unfold is2, within; lia). by rewrite H2, H.
Qed.

Lemma chunk3 a b c r : is3 a b c = true -> survives (a :: b :: c :: r) [a; b; c] r.
Proof.
  intros H. pose proof (is3_lead _ _ _ H). destruct (is3_conts _ _ _ H) as [Hb Hc].
  destruct (cont_byte_high b Hb), (cont_byte_high c Hc). destruct (separator a b c) eqn:Hs.
  - destruct (str_separator a b c r Hs) as [Hcmp _]. exists (esc3 a b c). rewrite Hcmp. split_and!; [done|by apply esc3_no_ctl|..].
    + pose proof (esc3_nonempty a b c). intros Hn. rewrite Hn in *. cbn in *. lia.
    + intros k _. split; [by apply esc3_step|]. unfold separator in Hs. rewrite !andb_true_iff, !bool_decide_eq_true in Hs.
      destruct Hs as [[-> ->] Hc']. unfold esc3. change (bZ Byte.xe2 =? 226) with true. change (bZ Byte.x80 =? 128) with true.
      rewrite Hc'. cbn [andb app bs String.list_byte_of_string]. split; [done|]. rewrite (low_esc_not Byte.xe2) by done.
      apply orb_true_iff in Hc'. assert (Hcc : c = Byte.xa8 \/ c = Byte.xa9)
        by (destruct Hc' as [Hx|Hx]; apply Z.eqb_eq in Hx; [left|right]; by apply bZ_inj). by destruct Hcc as [-> | ->].
  - apply (chunk_copied a [b; c]); [lia|by repeat constructor| |intros k; by apply raw3_step].
    cbn [app]. destruct (decide (a = Byte.xe2)) as [->|Ha].
    + rewrite str_e2 by done. by rewrite (str_high b), (str_high c).
    + by rewrite (str_high a), (str_high b), (str_high c) by (done || lia).
Qed.

Lemma chunk4 a b c d r : is4 a b c d = true -> survives (a :: b :: c :: d :: r) [a; b; c; d] r.
Proof.
  intros H. pose proof (is4_lead _ _ _ _ H). destruct (is4_conts _ _ _ _ H) as (Hb & Hc & Hd).
  destruct (cont_byte_high b Hb), (cont_byte_high c Hc), (cont_byte_high d Hd).
  apply (chunk_copied a [b; c; d]); [lia|by repeat constructor| |intros k; by apply raw4_step].
  cbn [app]. by rewrite (str_high a), (str_high b), (str_high c), (str_high d) by (done || lia || byte_neq).
Qed.

Lemma chunk_bad a r : 128 <= bZ a -> starts a r = false -> survives (a :: r) replacement r.
Proof.
  intros Ha Hs. exists [a].
  assert (Hc : compact_raw true false (a :: r) = a :: compact_raw true false r).
  { destruct (decide (a = Byte.xe2)) as [->|Hne]; [|by apply str_high].
    destruct r as [|b [|c r]]; [done|done|]. apply str_e2. destruct (separator Byte.xe2 b c) eqn:Hsep; [|done].
    destruct (str_separator _ _ _ r Hsep) as [_ H3]. cbn [starts] in Hs. rewrite H3, orb_true_r in Hs. done. }
  split_and!; [done|apply hi_no_ctl; by repeat constructor|done|].
  intros k [Hk _]. split; [|apply sees_head; [byte_neq|done]]. apply bad_step; [done|]. by rewrite starts_conts, Hk, <- starts_conts.
Qed.

Lemma backslash_step s : unq_step (Byte.x5c :: s) = unq_escape s.
Proof. done. Qed.

Lemma chunk_simple e o r : special e = false -> e <> Byte.xe2 -> e <> Byte.x75 -> 32 <= bZ e ->
  (forall k, unq_escape (e :: k) = UOut o k) -> survives (Byte.x5c :: e :: r) o r.
Proof.
  intros Hs He Hu Hb Hstep. exists [Byte.x5c; e]. rewrite str_backslash by done. split_and!; [done| |done|].
  - rewrite !no_ctl_cons. cbn. lia.
  - intros k _. cbn [app]. rewrite backslash_step. split; [done|]. split; [done|]. by rewrite !low_esc_not2.
Qed.

Lemma low_esc6 a b c d k r :
  low_esc ([Byte.x5c; Byte.x75; a; b; c; d] ++ k) = low_esc (Byte.x5c :: Byte.x75 :: a :: b :: c :: d :: r).
Proof. done. Qed.

Lemma u_no_ctl a b c d v : hex4 a b c d = Some v -> no_ctl [Byte.x5c; Byte.x75; a; b; c; d] = true.
Proof.
  intros H%hex4_bytes. rewrite !Forall_cons in H. destruct H as ((_ & _ & _ & _ & ?) & (_ & _ & _ & _ & ?) & (_ & _ & _ & _ & ?) & (_ & _ & _ & _ & ?) & _).
  rewrite !no_ctl_cons. cbn. lia.
Qed.

Lemma u_step a b c d v k : hex4 a b c d = Some v ->
  unq_step ([Byte.x5c; Byte.x75; a; b; c; d] ++ k) = u_escape v k.
Proof. intros H. cbn [app]. rewrite backslash_step. cbn. by rewrite H. Qed.

Lemma chunk_u a b c d v r' o r : hex4 a b c d = Some v -> u_escape v r' = UOut o r ->
  survives (Byte.x5c :: Byte.x75 :: a :: b :: c :: d :: r') o r.
Proof.
  intros Hh Hu. pose proof (u_no_ctl _ _ _ _ _ Hh) as Hn. destruct (surrogate v) eqn:Hsv.
  2: { unfold u_escape in Hu. rewrite Hsv in Hu. injection Hu as <- <-. exists [Byte.x5c; Byte.x75; a; b; c; d].
       rewrite (str_u _ _ _ _ _ _ Hh). split_and!; [done..|]. intros k _. rewrite (u_step _ _ _ _ _ _ Hh).
       split; [unfold u_escape; by rewrite Hsv|]. by split. }
  destruct (low_esc r' && (v <? 56320)) eqn:Hlow.
  - apply andb_true_iff in Hlow as [Hlow Hv]. destruct (low_esc_head _ Hlow) as [r1 ->].
    destruct r1 as [|x [|y [|z [|w r1]]]]; try done.
    assert (Hh2 : exists v2, hex4 x y z w = Some v2) by (cbn [low_esc] in Hlow; destruct (hex4 x y z w); eauto; done).
    destruct Hh2 as [v2 Hh2]. pose proof (u_no_ctl _ _ _ _ _ Hh2) as Hn2.
    destruct (u_escape_pair v x y z w Hsv Hv) as [o' Ho']; [by rewrite <- (app_nil_r [_;_;_;_;_;_]), (low_esc6 _ _ _ _ [] r1)|].
    rewrite Ho' in Hu. injection Hu as <- <-.
    exists ([Byte.x5c; Byte.x75; a; b; c; d] ++ [Byte.x5c; Byte.x75; x; y; z; w]).
    rewrite (str_u _ _ _ _ _ _ Hh), (str_u _ _ _ _ _ _ Hh2). split_and!; [by rewrite <- app_assoc|by rewrite no_ctl_app, Hn, Hn2|done|].
    intros k _. rewrite <- app_assoc, (u_step _ _ _ _ _ _ Hh). split; [apply Ho'|]. by split.
  - rewrite u_escape_alone in Hu by done. injection Hu as <- <-. exists [Byte.x5c; Byte.x75; a; b; c; d].
    rewrite (str_u _ _ _ _ _ _ Hh). split_and!; [done..|]. intros k [_ Hk]. rewrite (u_step _ _ _ _ _ _ Hh).
    split; [|by split]. apply u_escape_alone; [done|by rewrite Hk].
Qed.

Lemma chunk_escape s1 o r : unq_escape s1 = UOut o r -> survives (Byte.x5c :: s1) o r.
Proof.
  destruct s1 as [|e r']; [done|]. destruct (decide (e = Byte.x75)) as [->|Hu].
  - cbn. destruct r' as [|a [|b [|c [|d r']]]]; try done. destruct (hex4 a b c d) eqn:Hh; [|done]. by apply chunk_u.
  - intros H. assert (He : special e = false /\ e <> Byte.xe2 /\ 32 <= bZ e /\ r = r' /\ forall k, unq_escape (e :: k) = UOut o k).
    { destruct e; cbn in H; try discriminate H; try (by destruct Hu); injection H as <- <-; by split_and!. }
    destruct He as (? & ? & ? & -> & ?). by apply chunk_simple.
Qed.

Lemma chunk s o r : unq_step s = UOut o r -> survives s o r.
Proof.
  destruct s as [|a s1]; [done|]. destruct (decide (a = Byte.x22)) as [->|H22]; [done|].
  destruct (decide (a = Byte.x5c)) as [->|H5c]; [apply chunk_escape|]. cbn [unq_step].
  rewrite (proj2 (Z.eqb_neq _ _)) by (intros ?; by apply H22, bZ_inj).
  rewrite (proj2 (Z.eqb_neq (bZ a) 92)) by (intros ?; by apply H5c, bZ_inj).
  destruct (Z.ltb_spec (bZ a) 32); [done|]. destruct (Z.ltb_spec (bZ a) 128).
  { intros [= <- <-]. apply chunk_ascii; [lia|done..]. }
  destruct s1 as [|b s2]; [intros [= <- <-]; by apply chunk_bad|].
  destruct (is2 a b) eqn:E2; [intros [= <- <-]; by apply chunk2|].
  destruct s2 as [|c s3]; [intros [= <- <-]; apply chunk_bad; [done|cbn; by rewrite E2]|].
  destruct (is3 a b c) eqn:E3; [intros [= <- <-]; by apply chunk3|].
  destruct s3 as [|d s4]; [intros [= <- <-]; apply chunk_bad; [done|cbn; by rewrite E2, E3]|].
  destruct (is4 a b c d) eqn:E4; intros [= <- <-]; [by apply chunk4|apply chunk_bad; [done|cbn; by rewrite E2, E3]].
Qed.

Lemma unq_end s r : unq_step s = UEnd r -> s = Byte.x22 :: r.
Proof.
  destruct s as [|a s1]; [done|]. destruct (decide (a = Byte.x22)) as [->|H22]; [by intros [= <-]|].
  destruct (decide (a = Byte.x5c)) as [->|H5c].
  - rewrite backslash_step. unfold unq_escape, u_escape. intros H. by repeat case_match.
  - cbn [unq_step]. rewrite (proj2 (Z.eqb_neq _ _)) by (intros ?; by apply H22, bZ_inj).
    rewrite (proj2 (Z.eqb_neq (bZ a) 92)) by (intros ?; by apply H5c, bZ_inj). intros H. by repeat case_match.
Qed.

(** ** A string, then any value *)

Lemma embed_string f : forall s o r, unquote f s = Some (o, r) ->
  exists t, compact_raw true false s = t ++ compact_raw false false r /\ no_ctl t = true
    /\ forall k, sees (t ++ k) s /\ forall f', (length t <= f')%nat -> unquote f' (t ++ k) = Some (o, k).
Proof.
  induction f as [|f IH]; intros s o r; [done|]. cbn [unquote]. destruct (unq_step s) as [r1|o1 r1|] eqn:Hs; [| |done].
  - intros [= <- <-]. apply unq_end in Hs as ->. exists [Byte.x22]. rewrite str_quote. split_and!; [done..|].
    intros k. split; [split; [done|cbn [app]; by rewrite !low_esc_not]|]. intros [|f'] Hf; [cbn in Hf; lia|done].
  - destruct (unquote f r1) as [[o2 r2]|] eqn:Hu; [|done]. intros [= <- <-].
    destruct (chunk _ _ _ Hs) as (c & Hc & Hnc & Hne & Hstep). destruct (IH _ _ _ Hu) as (t & Ht & Hnt & Hrest).
    exists (c ++ t). rewrite Hc, Ht, no_ctl_app, Hnc, Hnt. split_and!; [by rewrite <- app_assoc|done|].
    intros k. destruct (Hrest k) as [Hsees Hun]. rewrite <- app_assoc. destruct (Hstep _ Hsees) as [H1 H2].
    split; [done|]. intros f' Hf. rewrite length_app in Hf. destruct c as [|b c]; [done|]. cbn [length] in Hf.
    destruct f' as [|f']; [lia|]. cbn [unquote]. rewrite H1, Hun by lia. done.
Qed.

(** ** Numbers *)

Definition stops (x : gostring) : Prop := match x with b :: _ => is_digit b = false | [] => True end.

Definition num_char (b : byte) : bool :=
  is_digit b || (bZ b =? 43) || (bZ b =? 45) || (bZ b =? 46) || (bZ b =? 69) || (bZ b =? 101).

Lemma span_digits_split s d r : span_digits s = (d, r) ->
  s = d ++ r /\ forallb num_char d = true /\ forall x, stops x -> span_digits (d ++ x) = (d, x).
Proof.
  revert d r. induction s as [|b s IH]; intros d r; cbn [span_digits].
  { intros [= <- <-]. split_and!; [done..|]. intros [|c x] Hx; [done|]. cbn in *. by rewrite Hx. }
  destruct (is_digit b) eqn:Hb.
  - destruct (span_digits s) as [d' r']. intros [= <- <-]. destruct (IH _ _ eq_refl) as (-> & Hc & Hx).
    split_and!; [done|cbn; unfold num_char at 1; by rewrite Hb|]. intros x Hst. cbn. by rewrite Hb, Hx.
  - intros [= <- <-]. split_and!; [done..|]. intros [|c x] Hx; [done|]. cbn in *. by rewrite Hx.
Qed.

Lemma scan_int_split s ip r : scan_int s = Some (ip, r) ->
  s = ip ++ r /\ forallb num_char ip = true /\ forall x, stops x -> scan_int (ip ++ x) = Some (ip, x).
Proof.
  destruct s as [|b s]; [done|]. cbn [scan_int]. destruct (Z.eqb_spec (bZ b) 48) as [H0|H0].
  - intros [= <- <-]. split_and!; [done|cbn; unfold num_char, is_digit; by rewrite H0|]. intros x _. cbn. by rewrite H0.
  - destruct (is_digit b) eqn:Hb; [|done]. intros [= Hs].
    destruct (span_digits_split (b :: s) ip r Hs) as (He & Hc & Hx).
    split_and!; [done|done|]. intros x Hst. rewrite Hb in Hs. destruct (span_digits s) as [d' r'].
    injection Hs as <- <-. specialize (Hx x Hst). cbn [app scan_int] in *. rewrite (proj2 (Z.eqb_neq _ _) H0), Hb, Hx. done.
Qed.

Lemma scan_fraction_split s fp r : scan_fraction s = Some (fp, r) ->
  s = fp ++ r /\ forallb num_char fp = true
  /\ (forall x, stops x -> stops (fp ++ x))
  /\ forall x, stops x -> (forall b x', x = b :: x' -> bZ b <> 46) -> scan_fraction (fp ++ x) = Some (fp, x).
Proof.
  assert (Hnil : forall x, (forall b x', x = b :: x' -> bZ b <> 46) -> scan_fraction x = Some ([], x)).
  { intros [|b x] H; [done|]. cbn. rewrite (proj2 (Z.eqb_neq _ _)); [done|]. by apply (H b x). }
  destruct s as [|b s]; cbn [scan_fraction]; [intros [= <- <-]; split_and!; auto|].
  destruct (Z.eqb_spec (bZ b) 46) as [Hb|Hb]; [|intros [= <- <-]; split_and!; auto].
  destruct (span_digits s) as [[|c ds] r'] eqn:Hs; [done|]. intros [= <- <-].
  destruct (span_digits_split _ _ _ Hs) as (-> & Hc & Hx). split_and!.
  - done.
  - cbn [forallb] in *. rewrite Hc. unfold num_char. rewrite Hb. by rewrite orb_true_r.
  - intros x _. cbn. unfold is_digit. by rewrite Hb.
  - intros x Hst _. cbn [app scan_fraction]. rewrite Hb, Z.eqb_refl. specialize (Hx x Hst). cbn [app] in Hx. by rewrite Hx.
Qed.

Lemma scan_exponent_split s ep r : scan_exponent s = Some (ep, r) ->
  s = ep ++ r /\ forallb num_char ep = true
  /\ (forall k, num_stop k -> stops (ep ++ k) /\ (forall b x', ep ++ k = b :: x' -> bZ b <> 46)
                              /\ scan_exponent (ep ++ k) = Some (ep, k)).
Proof.
  assert (Hk : forall k, num_stop k -> stops k /\ (forall b x', k = b :: x' -> bZ b <> 46) /\ scan_exponent k = Some ([], k)).
  { intros [|b k] Hk; [done|]. cbn in Hk. split_and!.
    - cbn. unfold is_digit. lia.
    - intros ? ? [= <- <-]. lia.
    - cbn. by replace ((bZ b =? 101) || (bZ b =? 69)) with false by lia. }
  destruct s as [|b s]; cbn [scan_exponent]; [by intros [= <- <-]|].
  destruct ((bZ b =? 101) || (bZ b =? 69)) eqn:Hb; [|by intros [= <- <-]].
  destruct (scan_sign s) as [sg r1] eqn:Hsg. destruct (span_digits r1) as [[|c ds] r'] eqn:Hs; [done|]. intros [= <- <-].
  destruct (span_digits_split _ _ _ Hs) as (-> & Hc & Hx).
  assert (Hsign : s = sg ++ (c :: ds) ++ r' /\ forallb num_char sg = true /\ forall y, scan_sign (sg ++ (c :: ds) ++ y) = (sg, (c :: ds) ++ y)).
  { destruct s as [|x s]; cbn [scan_sign] in Hsg; [discriminate Hsg|].
    destruct ((bZ x =? 43) || (bZ x =? 45)) eqn:Hx'.
    - injection Hsg as <- ->. split_and!; [done| |].
      + cbn. unfold num_char. apply orb_true_iff in Hx' as [-> | ->]; by rewrite ?orb_true_r.
      + intros y. cbn [app scan_sign]. by rewrite Hx'.
    - injection Hsg as <- -> ->. split_and!; [done|done|]. intros y. cbn [app scan_sign]. by rewrite Hx'. }
  destruct Hsign as (-> & Hsc & Hsy). split_and!.
  - cbn. by rewrite <- app_assoc.
  - change (b :: sg ++ c :: ds) with ([b] ++ sg ++ (c :: ds)). rewrite !forallb_app, Hsc, Hc. cbn. unfold num_char.
    apply orb_true_iff in Hb as [-> | ->]; by rewrite ?orb_true_r.
  - intros k Hst. split_and!.
    + cbn. unfold is_digit. lia.
    + intros ? ? [= <- _]. lia.
    + change ((b :: sg ++ c :: ds) ++ k) with (b :: (sg ++ c :: ds) ++ k). cbn [scan_exponent]. rewrite Hb, <- app_assoc, Hsy.
      by rewrite Hx by (by apply Hk).
Qed.

(** An integer part never starts with a minus sign. *)
Lemma scan_int_head s v : scan_int s = Some v -> exists b t, s = b :: t /\ (bZ b =? 45) = false.
Proof.
  destruct s as [|b s]; [done|]. intros H. exists b, s. split; [done|]. destruct (Z.eqb_spec (bZ b) 45) as [Hb|]; [|done].
  cbn [scan_int] in H. unfold is_digit in H. rewrite Hb in H. discriminate H.
Qed.

Lemma scan_number_split s lit r : scan_number s = Some (lit, r) ->
  s = lit ++ r /\ forallb num_char lit = true /\ is_json_number lit = true.
Proof.
  unfold is_json_number. unfold scan_number at 1.
  set (neg := match s with b :: r => if bZ b =? 45 then ([b], r) else ([], s) | [] => ([], []) end).
  assert (Hneg : s = neg.1 ++ neg.2 /\ forallb num_char neg.1 = true
    /\ forall ip x, scan_int (ip ++ x) = Some (ip, x) -> match neg.1 ++ ip ++ x with
         | b :: r => if bZ b =? 45 then ([b], r) else ([], neg.1 ++ ip ++ x) | [] => ([], []) end = (neg.1, ip ++ x)).
  { unfold neg. destruct s as [|b s0]; [split_and!; [done..|]|].
    - intros ip x Hi. cbn [fst app]. destruct (scan_int_head _ _ Hi) as (c & y & -> & ->). done.
    - destruct (Z.eqb_spec (bZ b) 45) as [Hb|Hb]; (split_and!; [done| |]).
      + cbn [fst forallb]. unfold num_char, is_digit. rewrite Hb. done.
      + intros ip x _. cbn [fst app]. rewrite Hb. done.
      + done.
      + intros ip x Hi. cbn [fst app]. destruct (scan_int_head _ _ Hi) as (c & y & -> & ->). done. }
  destruct neg as [ng s0]. cbn [fst snd] in Hneg. destruct Hneg as (-> & Hnc & Hng).
  destruct (scan_int s0) as [[ip s1]|] eqn:H1; [|done]. destruct (scan_int_split _ _ _ H1) as (-> & Hc1 & Hx1).
  destruct (scan_fraction s1) as [[fp s2]|] eqn:H2; [|done]. destruct (scan_fraction_split _ _ _ H2) as (-> & Hc2 & Hst2 & Hx2).
  destruct (scan_exponent s2) as [[ep s3]|] eqn:H3; [|done]. destruct (scan_exponent_split _ _ _ H3) as (-> & Hc3 & Hx3).
  intros [= <- <-]. destruct (Hx3 [] I) as (Hs3 & Hd3 & He3). rewrite app_nil_r in *.
  split_and!; [by rewrite <- !app_assoc|by rewrite !forallb_app, Hnc, Hc1, Hc2, Hc3|].
  unfold scan_number. rewrite (Hng ip (fp ++ ep)) by (apply Hx1; by apply Hst2). rewrite Hx1 by (by apply Hst2). rewrite Hx2, He3 by done.
  by rewrite bool_decide_eq_true_2.
Qed.

Lemma top_number lit r : forallb num_char lit = true ->
  compact_raw false false (lit ++ r) = lit ++ compact_raw false false r /\ no_ctl lit = true.
Proof.
  intros H. assert (Hch : forall b, num_char b = true ->
    negb (special b) && negb (bool_decide (b = Byte.xe2)) && negb (bool_decide (b = Byte.x22)) && negb (is_ws b) = true
    /\ (32 <=? bZ b) = true) by (intros b; by destruct b).
  split; [apply top_app|]; (eapply forallb_forall; intros b Hb; apply (Hch b); rewrite forallb_forall in H; by apply H).
Qed.

(** ** Any value *)

Definition elems_depth (l : list json) : N := fold_right (fun x d => N.max (json_depth x) d) 0%N l.
Definition members_depth (l : list (gostring * json)) : N := fold_right (fun kv d => N.max (json_depth (snd kv)) d) 0%N l.

(** The compacted text of what a parser consumed of [s], up to [r]: it is one
    line, starts with the same byte, and parses the same in any context. *)
Definition embeds {A} (parse : nat -> N -> gostring -> option (A * gostring)) (depth : A -> N) (stop : gostring -> Prop)
    (s : gostring) (a : A) (r : gostring) : Prop :=
  exists b t s', skip_ws s = b :: s' /\ is_ws b = false
    /\ compact_raw false false s = (b :: t) ++ compact_raw false false r /\ no_ctl (b :: t) = true
    /\ forall k f d, stop k -> (2 * length (b :: t) <= f)%nat -> (depth a <= d)%N -> parse f d ((b :: t) ++ k) = Some (a, k).

Definition any_stop (_ : gostring) : Prop := True.

Lemma skip_ws_cons s b s' : skip_ws s = b :: s' -> is_ws b = false.
Proof. induction s as [|c s IH]; [done|]. cbn. destruct (is_ws c) eqn:Hc; [done|]. by intros [= <- _]. Qed.

Lemma top_cons s b s' : skip_ws s = b :: s' -> compact_raw false false s = compact_raw false false (b :: s').
Proof. intros <-. by rewrite top_skip_ws. Qed.

Lemma byte_is b n c : (bZ b =? n) = true -> bZ c = n -> b = c.
Proof. intros H%Z.eqb_eq Hc. apply bZ_inj. congruence. Qed.

(** A literal word. *)
Lemma embed_word w (j : json) s b s' : skip_ws s = b :: s' -> has_prefix w (b :: s') = true ->
  (forall r, compact_raw false false (w ++ r) = w ++ compact_raw false false r) -> no_ctl w = true -> json_depth j = 0%N ->
  (forall k f d, parse_value (S f) d (w ++ k) = Some (j, k)) -> w <> [] ->
  embeds parse_value json_depth num_stop s j (drop (length w) (b :: s')).
Proof.
  intros Hs Hp Hc Hn Hd Hparse Hne. apply has_prefix_spec in Hp as [r Hr]. destruct w as [|c w]; [done|].
  cbn [app] in Hr. injection Hr as <- ->. exists b, w, (w ++ r). rewrite (top_cons _ _ _ Hs).
  change (b :: w ++ r) with ((b :: w) ++ r). rewrite drop_app_length, Hc. split_and!; [done|by eapply skip_ws_cons|done|done|].
  intros k [|f] d _ Hf _; [cbn in Hf; lia|]. apply Hparse.
Qed.

Lemma embed_str s s' o r f : skip_ws s = Byte.x22 :: s' -> unquote f s' = Some (o, r) ->
  exists t, compact_raw false false s = (Byte.x22 :: t) ++ compact_raw false false r /\ no_ctl (Byte.x22 :: t) = true
    /\ forall k f', (length t <= f')%nat -> unquote f' (t ++ k) = Some (o, k).
Proof.
  intros Hs Hu. destruct (embed_string _ _ _ _ Hu) as (t & Ht & Hn & Hk). exists t.
  rewrite (top_cons _ _ _ Hs), top_quote, Ht. split_and!; [done|done|]. intros k. apply Hk.
Qed.

Lemma parse_str_at t k o f d : unquote (S (length (t ++ k))) (t ++ k) = Some (o, k) ->
  parse_value (S f) d ((Byte.x22 :: t) ++ k) = Some (JStr o, k).
Proof. intros H. cbn [app parse_value]. rewrite (skip_ws_head Byte.x22) by done. cbn -[unquote app]. by rewrite H. Qed.

(** What the induction proves of the three parsers. *)
Definition value_embeds f : Prop := forall d s j r, parse_value f d s = Some (j, r) ->
  embeds parse_value json_depth num_stop s j r /\ forall s', skip_ws s <> Byte.x5d :: s'.
Definition members_embed f : Prop := forall d s l r, parse_members f d s = Some (l, r) ->
  embeds parse_members members_depth any_stop s l r /\ exists s', skip_ws s = Byte.x22 :: s'.
Definition elems_embed f : Prop := forall d s l r, parse_elems f d s = Some (l, r) ->
  embeds parse_elems elems_depth any_stop s l r /\ forall s', skip_ws s <> Byte.x5d :: s'.

Lemma embed_object f s s' d j r : members_embed f -> skip_ws s = Byte.x7b :: s' ->
  match skip_ws s' with
  | b2 :: r2 => if bZ b2 =? 125 then Some (JObj [], r2)
                else match parse_members f d s' with Some (l, r') => Some (JObj l, r') | None => None end
  | [] => None
  end = Some (j, r) ->
  embeds parse_value json_depth num_stop s j r.
Proof.
  intros IHm Hs. pose proof (top_cons _ _ _ Hs) as Htop. rewrite top_plain in Htop by done.
  destruct (skip_ws s') as [|b2 r2] eqn:Hs2; [done|]. destruct (bZ b2 =? 125) eqn:H125; intros H.
  - apply (byte_is b2 125 Byte.x7d) in H125 as ->; [|done]. injection H as <- <-.
    exists Byte.x7b, [Byte.x7d], s'. rewrite Htop, (top_cons _ _ _ Hs2), top_plain by done. split_and!; [done..|].
    intros k [|f'] d' _ Hf Hd; [cbn in Hf; lia|]. cbn in Hd. cbn. by rewrite (proj2 (N.eqb_neq d' 0)) by lia.
  - destruct (parse_members f d s') as [[l r']|] eqn:Hm; [|done]. injection H as <- <-.
    destruct (IHm _ _ _ _ Hm) as [(c & t & s2 & Hc & Hwc & Ht & Hn & Hk) [s3 Hq]]. assert (c = Byte.x22) as -> by congruence.
    exists Byte.x7b, (Byte.x22 :: t), s'. rewrite Htop, Ht. split_and!; [done..|].
    intros k [|f'] d' _ Hf Hd; [cbn in Hf; lia|]. rewrite json_depth_obj in Hd. fold (members_depth l) in Hd.
    change ((Byte.x7b :: Byte.x22 :: t) ++ k) with (Byte.x7b :: (Byte.x22 :: t) ++ k). cbn [parse_value].
    rewrite (skip_ws_head Byte.x7b) by done. change (bZ Byte.x7b =? 123) with true. cbv iota.
    rewrite (proj2 (N.eqb_neq d' 0)) by lia. cbn [app]. rewrite (skip_ws_head Byte.x22) by done.
    change (bZ Byte.x22 =? 125) with false. cbv iota. change (Byte.x22 :: t ++ k) with ((Byte.x22 :: t) ++ k).
    rewrite Hk; [done|done|cbn [length] in *; lia|lia].
Qed.

Lemma embed_array f s s' d j r : elems_embed f -> skip_ws s = Byte.x5b :: s' ->
  match skip_ws s' with
  | b2 :: r2 => if bZ b2 =? 93 then Some (JArr [], r2)
                else match parse_elems f d s' with Some (l, r') => Some (JArr l, r') | None => None end
  | [] => None
  end = Some (j, r) ->
  embeds parse_value json_depth num_stop s j r.
Proof.
  intros IHe Hs. pose proof (top_cons _ _ _ Hs) as Htop. rewrite top_plain in Htop by done.
  destruct (skip_ws s') as [|b2 r2] eqn:Hs2; [done|]. destruct (bZ b2 =? 93) eqn:H93; intros H.
  - apply (byte_is b2 93 Byte.x5d) in H93 as ->; [|done]. injection H as <- <-.
    exists Byte.x5b, [Byte.x5d], s'. rewrite Htop, (top_cons _ _ _ Hs2), top_plain by done. split_and!; [done..|].
    intros k [|f'] d' _ Hf Hd; [cbn in Hf; lia|]. cbn in Hd. cbn. by rewrite (proj2 (N.eqb_neq d' 0)) by lia.
  - destruct (parse_elems f d s') as [[l r']|] eqn:Hm; [|done]. injection H as <- <-.
    destruct (IHe _ _ _ _ Hm) as [(c & t & s2 & Hc & Hwc & Ht & Hn & Hk) Hnb]. assert (c = b2) as -> by congruence.
    exists Byte.x5b, (b2 :: t), s'. rewrite Htop, Ht. split_and!; [done..|].
    intros k [|f'] d' _ Hf Hd; [cbn in Hf; lia|]. rewrite json_depth_arr in Hd. fold (elems_depth l) in Hd.
    change ((Byte.x5b :: b2 :: t) ++ k) with (Byte.x5b :: (b2 :: t) ++ k). cbn [parse_value].
    rewrite (skip_ws_head Byte.x5b) by done. change (bZ Byte.x5b =? 123) with false. change (bZ Byte.x5b =? 91) with true. cbv iota.
    rewrite (proj2 (N.eqb_neq d' 0)) by lia. cbn [app]. rewrite (skip_ws_head b2) by done.
    rewrite H93. change (b2 :: t ++ k) with ((b2 :: t) ++ k).
    rewrite Hk; [done|done|cbn [length] in *; lia|lia].
Qed.

Lemma embed_value_step f : members_embed f -> elems_embed f -> value_embeds (S f).
Proof.
  intros IHm IHe d s j r. cbn [parse_value]. destruct (skip_ws s) as [|b s'] eqn:Hs; [done|].
  pose proof (skip_ws_cons _ _ _ Hs) as Hws. pose proof (top_cons _ _ _ Hs) as Htop.
  destruct (bZ b =? 123) eqn:H123.
  { apply (byte_is b 123 Byte.x7b) in H123 as ->; [|done]. destruct (d =? 0)%N; [done|]. intros H. split; [|done]. by eapply embed_object. }
  destruct (bZ b =? 91) eqn:H91.
  { apply (byte_is b 91 Byte.x5b) in H91 as ->; [|done]. destruct (d =? 0)%N; [done|]. intros H. split; [|done]. by eapply embed_array. }
  intros H. assert (Hnb : b <> Byte.x5d).
  { intros ->. cbn in H. done. }
  split; [|congruence].
  destruct (bZ b =? 34) eqn:H34.
  { apply (byte_is b 34 Byte.x22) in H34 as ->; [|done]. destruct (unquote _ s') as [[o r']|] eqn:Hu; [|done]. injection H as <- <-.
    destruct (embed_str _ _ _ _ _ Hs Hu) as (t & Ht & Hn & Hk). exists Byte.x22, t, s'. split_and!; [done..|].
    intros k [|f'] d' _ Hf _; [cbn in Hf; lia|]. apply parse_str_at, Hk. rewrite length_app. lia. }
  destruct (has_prefix (bs "null") (b :: s')) eqn:Hnull.
  { injection H as <- <-. refine (embed_word (bs "null") JNull s b s' Hs Hnull _ _ _ _ _); try done; intros; first [by apply top_app|by destruct k]. }
  destruct (has_prefix (bs "true") (b :: s')) eqn:Htrue.
  { injection H as <- <-. refine (embed_word (bs "true") (JBool true) s b s' Hs Htrue _ _ _ _ _); try done; intros; first [by apply top_app|by destruct k]. }
  destruct (has_prefix (bs "false") (b :: s')) eqn:Hfalse.
  { injection H as <- <-. refine (embed_word (bs "false") (JBool false) s b s' Hs Hfalse _ _ _ _ _); try done; intros; first [by apply top_app|by destruct k]. }
  destruct (scan_number (b :: s')) as [[lit r']|] eqn:Hnum; [|done]. injection H as <- <-.
  destruct (scan_number_split _ _ _ Hnum) as (Hsplit & Hch & Hok). destruct (top_number lit r' Hch) as [Hcn Hnc].
  destruct lit as [|c lit]; [done|]. cbn [app] in Hsplit. injection Hsplit as <- ->. exists b, lit, (lit ++ r').
  rewrite Htop. split_and!; [done..|]. intros k [|f'] d' Hst Hf _; [cbn in Hf; lia|]. by apply parse_number_value.
Qed.

Lemma num_stop_of e k : (bZ e =? 125) || (bZ e =? 93) || (bZ e =? 44) = true -> num_stop (e :: k).
Proof. cbn. lia. Qed.

(** A value followed by the byte that ends or continues its container. *)
Lemma embed_then s a r1 e r : embeds parse_value json_depth num_stop s a r1 -> skip_ws r1 = e :: r ->
  (bZ e =? 125) || (bZ e =? 93) || (bZ e =? 44) = true ->
  exists b t s', skip_ws s = b :: s' /\ is_ws b = false
    /\ compact_raw false false s = (b :: t) ++ e :: compact_raw false false r /\ no_ctl (b :: t) = true /\ no_ctl [e] = true
    /\ is_ws e = false
    /\ forall k f d, (2 * length (b :: t) <= f)%nat -> (json_depth a <= d)%N -> parse_value f d ((b :: t) ++ e :: k) = Some (a, e :: k).
Proof.
  intros (b & t & s' & Hs & Hw & Hc & Hn & Hk) Hr He. exists b, t, s'.
  assert (Htop : compact_raw false false (e :: r) = e :: compact_raw false false r /\ no_ctl [e] = true /\ is_ws e = false).
  { assert (e = Byte.x7d \/ e = Byte.x5d \/ e = Byte.x2c) as [-> | [-> | ->]]; [|by rewrite top_plain..].
    rewrite !orb_true_iff in He. destruct He as [[He|He]|He].
    - left. by apply (byte_is e 125).
    - right; left. by apply (byte_is e 93).
    - right; right. by apply (byte_is e 44). }
  destruct Htop as (Htop & Hne & Hwe). rewrite Hc, (top_cons _ _ _ Hr), Htop. split_and!; [done..|].
  intros k f d Hf Hd. apply Hk; [by apply num_stop_of|done|done].
Qed.

(** One member up to the byte after its value. *)
Lemma member_step q k0 v ts b t e : bZ q = 34 -> is_ws e = false ->
  (forall k f', (length ts <= f')%nat -> unquote f' (ts ++ k) = Some (k0, k)) ->
  (forall k f d, (2 * length (b :: t) <= f)%nat -> (json_depth v <= d)%N -> parse_value f d ((b :: t) ++ e :: k) = Some (v, e :: k)) ->
  forall k f' d', (2 * length (b :: t) <= f')%nat -> (json_depth v <= d')%N ->
  parse_members (S f') d' ((q :: ts ++ Byte.x3a :: b :: t) ++ e :: k) =
    if bZ e =? 125 then Some ([(k0, v)], k)
    else if bZ e =? 44 then match parse_members f' d' k with Some (l, r5) => Some ((k0, v) :: l, r5) | None => None end
    else None.
Proof.
  intros Hq Hwe Hks Hkv k f' d' Hf Hd. assert (q = Byte.x22) as -> by (by apply bZ_inj).
  cbn [app parse_members]. rewrite (skip_ws_head Byte.x22) by done.
  change (bZ Byte.x22 =? 34) with true. cbv iota. rewrite <- app_assoc, Hks by (rewrite length_app; lia).
  cbn [app]. rewrite (skip_ws_head Byte.x3a) by done. change (bZ Byte.x3a =? 58) with true. cbv iota.
  change (b :: t ++ e :: k) with ((b :: t) ++ e :: k). rewrite Hkv by done. by rewrite (skip_ws_head e).
Qed.

Lemma embed_members_step f : value_embeds f -> members_embed f -> members_embed (S f).
Proof.
  intros IHv IHm d s l r. cbn [parse_members]. destruct (skip_ws s) as [|q s'] eqn:Hs; [done|].
  destruct (bZ q =? 34) eqn:Hq; [|done]. apply (byte_is q 34 Byte.x22) in Hq as ->; [|done].
  destruct (unquote _ s') as [[k0 r1]|] eqn:Hu; [|done]. destruct (skip_ws r1) as [|c r2] eqn:Hr1; [done|].
  destruct (bZ c =? 58) eqn:Hc; [|done]. apply (byte_is c 58 Byte.x3a) in Hc as ->; [|done].
  destruct (parse_value f d r2) as [[v r3]|] eqn:Hv; [|done]. destruct (skip_ws r3) as [|e r4] eqn:Hr3; [done|].
  destruct (embed_str _ _ _ _ _ Hs Hu) as (ts & Hts & Hns & Hks).
  destruct (IHv _ _ _ _ Hv) as [Hev _].
  destruct ((bZ e =? 125) || (bZ e =? 93) || (bZ e =? 44)) eqn:He.
  2: { destruct (bZ e =? 125); [done|]. destruct (bZ e =? 44); [by rewrite orb_true_r in He|done]. }
  destruct (embed_then _ _ _ _ _ Hev Hr3 He) as (b & t & s2 & Hb & Hwb & Hcv & Hnv & Hne & Hwe & Hkv).
  assert (Hc1 : compact_raw false false s = (Byte.x22 :: ts ++ Byte.x3a :: b :: t) ++ e :: compact_raw false false r4).
  { rewrite Hts, (top_cons _ _ _ Hr1), top_plain, Hcv by done. cbn [app]. by rewrite <- app_assoc. }
  assert (Hn1 : no_ctl (Byte.x22 :: ts ++ Byte.x3a :: b :: t) = true).
  { change (Byte.x22 :: ts ++ Byte.x3a :: b :: t) with ((Byte.x22 :: ts) ++ [Byte.x3a] ++ (b :: t)). by rewrite !no_ctl_app, Hns, Hnv. }
  pose proof (member_step Byte.x22 k0 v ts b t e eq_refl Hwe Hks Hkv) as Hstep.
  intros H. split; [|eauto]. destruct (bZ e =? 125) eqn:H125.
  + injection H as <- <-. exists Byte.x22, (ts ++ Byte.x3a :: b :: t ++ [e]), s'. rewrite Hc1. split_and!; [done|done| | |].
    * cbn [app]. rewrite <- !app_assoc. cbn [app]. by rewrite <- app_assoc.
    * change (Byte.x22 :: ts ++ Byte.x3a :: b :: t ++ [e]) with ((Byte.x22 :: ts) ++ [Byte.x3a] ++ (b :: t) ++ [e]).
      by rewrite !no_ctl_app, Hns, Hnv, Hne.
    * intros k [|f'] d' _ Hf Hd; [cbn in Hf; lia|]. cbn in Hd.
      replace ((Byte.x22 :: ts ++ Byte.x3a :: b :: t ++ [e]) ++ k) with ((Byte.x22 :: ts ++ Byte.x3a :: b :: t) ++ e :: k)
        by (cbn [app]; rewrite <- !app_assoc; cbn [app]; by rewrite <- app_assoc).
      rewrite Hstep; [done| |lia]. revert Hf. cbn. rewrite !length_app. cbn. rewrite length_app. cbn. lia.
  + destruct (bZ e =? 44) eqn:H44; [|done]. destruct (parse_members f d r4) as [[l' r5]|] eqn:Hm; [|done]. injection H as <- <-.
    destruct (IHm _ _ _ _ Hm) as [(q & tm & s3 & Hq & Hwq & Hcm & Hnm & Hkm) _].
    exists Byte.x22, (ts ++ Byte.x3a :: b :: t ++ e :: q :: tm), s'. rewrite Hc1, Hcm. split_and!; [done|done| | |].
    * cbn [app]. rewrite <- !app_assoc. cbn [app]. rewrite <- app_assoc. done.
    * change (Byte.x22 :: ts ++ Byte.x3a :: b :: t ++ e :: q :: tm) with ((Byte.x22 :: ts) ++ [Byte.x3a] ++ (b :: t) ++ [e] ++ (q :: tm)).
      by rewrite !no_ctl_app, Hns, Hnv, Hne, Hnm.
    * intros k [|f'] d' _ Hf Hd; [cbn in Hf; lia|]. cbn in Hd. fold (members_depth l') in Hd.
      replace ((Byte.x22 :: ts ++ Byte.x3a :: b :: t ++ e :: q :: tm) ++ k)
        with ((Byte.x22 :: ts ++ Byte.x3a :: b :: t) ++ e :: (q :: tm) ++ k)
        by (cbn [app]; rewrite <- !app_assoc; cbn [app]; by rewrite <- app_assoc).
      assert (Hlen : (2 * length (b :: t) <= f')%nat /\ (2 * length (q :: tm) <= f')%nat).
      { revert Hf. cbn. rewrite !length_app. cbn. rewrite length_app. cbn. lia. }
      rewrite Hstep, Hkm; [done|done|apply Hlen|lia|apply Hlen|lia].
Qed.

Lemma embed_elems_step f : value_embeds f -> elems_embed f -> elems_embed (S f).
Proof.
  intros IHv IHe d s l r. cbn [parse_elems]. destruct (parse_value f d s) as [[v r1]|] eqn:Hv; [|done].
  destruct (skip_ws r1) as [|e r2] eqn:Hr1; [done|]. destruct (IHv _ _ _ _ Hv) as [Hev Hnb].
  destruct ((bZ e =? 125) || (bZ e =? 93) || (bZ e =? 44)) eqn:He.
  2: { destruct (bZ e =? 93); [by rewrite orb_true_r in He|]. destruct (bZ e =? 44); [by rewrite orb_true_r in He|done]. }
  destruct (embed_then _ _ _ _ _ Hev Hr1 He) as (b & t & s2 & Hb & Hwb & Hcv & Hnv & Hne & Hwe & Hkv).
  assert (Hstep : forall k f' d', (2 * length (b :: t) <= f')%nat -> (json_depth v <= d')%N ->
    parse_elems (S f') d' ((b :: t) ++ e :: k) =
      if bZ e =? 93 then Some ([v], k)
      else if bZ e =? 44 then match parse_elems f' d' k with Some (l, r5) => Some (v :: l, r5) | None => None end
      else None).
  { intros k f' d' Hf Hd. cbn [parse_elems]. rewrite Hkv by done. by rewrite (skip_ws_head e). }
  intros H. split; [|done]. destruct (bZ e =? 93) eqn:H93.
  + injection H as <- <-. exists b, (t ++ [e]), s2. rewrite Hcv. split_and!; [done|done| | |].
    * cbn [app]. by rewrite <- app_assoc.
    * change (b :: t ++ [e]) with ((b :: t) ++ [e]). by rewrite !no_ctl_app, Hnv, Hne.
    * intros k [|f'] d' _ Hf Hd; [cbn in Hf; lia|]. cbn in Hd.
      replace ((b :: t ++ [e]) ++ k) with ((b :: t) ++ e :: k) by (cbn [app]; by rewrite <- app_assoc).
      rewrite Hstep; [done| |lia]. revert Hf. cbn. rewrite length_app. cbn. lia.
  + destruct (bZ e =? 44) eqn:H44; [|done]. destruct (parse_elems f d r2) as [[l' r5]|] eqn:Hm; [|done]. injection H as <- <-.
    destruct (IHe _ _ _ _ Hm) as [(q & tm & s3 & Hq & Hwq & Hcm & Hnm & Hkm) _].
    exists b, (t ++ e :: q :: tm), s2. rewrite Hcv, Hcm. split_and!; [done|done| | |].
    * cbn [app]. rewrite <- app_assoc. done.
    * change (b :: t ++ e :: q :: tm) with ((b :: t) ++ [e] ++ (q :: tm)). by rewrite !no_ctl_app, Hnv, Hne, Hnm.
    * intros k [|f'] d' _ Hf Hd; [cbn in Hf; lia|]. cbn in Hd. fold (elems_depth l') in Hd.
      replace ((b :: t ++ e :: q :: tm) ++ k) with ((b :: t) ++ e :: (q :: tm) ++ k) by (cbn [app]; by rewrite <- app_assoc).
      assert (Hlen : (2 * length (b :: t) <= f')%nat /\ (2 * length (q :: tm) <= f')%nat).
      { revert Hf. cbn. rewrite length_app. cbn. lia. }
      rewrite Hstep, Hkm; [done|done|apply Hlen|lia|apply Hlen|lia].
Qed.

Lemma embed_value f : value_embeds f /\ members_embed f /\ elems_embed f.
Proof.
  induction f as [|f (IHv & IHm & IHe)]; [by split_and!|].
  split_and!; [by apply embed_value_step|by apply embed_members_step|by apply embed_elems_step].
Qed.

(** ** Whole documents *)

Lemma embed_raw v j : json_parse v = Some j ->
  no_ctl (compact_raw false false v) = true
  /\ (forall k f d, num_stop k -> (2 * length (compact_raw false false v) <= f)%nat -> (json_depth j <= d)%N ->
        parse_value f d (compact_raw false false v ++ k) = Some (j, k)).
Proof.
  unfold json_parse. destruct (parse_value _ _ v) as [[j' r]|] eqn:Hp; [|done].
  destruct (skip_ws r) eqn:Hr; [|done]. intros [= <-].
  destruct (proj1 (embed_value _) _ _ _ _ Hp) as [(b & t & s' & Hs & Hw & Hc & Hn & Hk) _].
  rewrite <- (top_skip_ws r), Hr in Hc. cbn [compact_raw] in Hc. rewrite app_nil_r in Hc. rewrite Hc. done.
Qed.

(** Documents whose text is one line: numbers are numbers, raw text is JSON. *)
Fixpoint nums_valid (j : json) : bool :=
  match j with
  | JNum lit => is_json_number lit
  | JArr l => forallb nums_valid l
  | JObj l => forallb (fun kv => nums_valid (snd kv)) l
  | _ => true
  end.

Fixpoint doc_ok (d : doc) : bool :=
  match d with
  | DJson j => nums_valid j
  | DRaw t => json_valid t
  | DArr l => forallb doc_ok l
  | DObj l => forallb (fun kv => doc_ok (snd kv)) l
  end.

Fixpoint doc_ind' (P : doc -> Prop) (H0 : forall j, P (DJson j)) (H1 : forall t, P (DRaw t))
  (H2 : forall l, Forall P l -> P (DArr l)) (H3 : forall l, Forall (fun kv => P (snd kv)) l -> P (DObj l)) (d : doc) : P d :=
  match d with
  | DJson j => H0 j
  | DRaw t => H1 t
  | DArr l => H2 l ((fix go (l : list doc) : Forall P l :=
      match l with
      | [] => @List.Forall_nil _ P
      | x :: l' => @List.Forall_cons _ P x l' (doc_ind' P H0 H1 H2 H3 x) (go l')
      end) l)
  | DObj l => H3 l ((fix go (l : list (gostring * doc)) : Forall (fun kv => P (snd kv)) l :=
      match l with
      | [] => @List.Forall_nil _ _
      | x :: l' => @List.Forall_cons _ _ x l' (doc_ind' P H0 H1 H2 H3 (snd x)) (go l')
      end) l)
  end.

Lemma list_no_ctl {A} (f : A -> gostring) (P : A -> bool) l : Forall (fun x => P x = true -> no_ctl (f x) = true) l ->
  forallb P l = true -> no_ctl (join (List.map f l)) = true.
Proof.
  intros HF Hl. apply join_no_ctl. apply Forall_forall. rewrite Forall_forall in HF. intros s Hs. apply list_elem_of_In, in_map_iff in Hs as (x & <- & Hx).
  apply HF; [by apply list_elem_of_In|]. rewrite forallb_forall in Hl. by apply Hl.
Qed.

Lemma member_no_ctl key v : no_ctl v = true -> no_ctl (quote key ++ bs ":" ++ v) = true.
Proof. intros Hv. by rewrite !no_ctl_app, quote_no_ctl, Hv. Qed.

Lemma print_line j : nums_valid j = true -> no_ctl (print j) = true.
Proof.
  induction j as [|b|lit|s|l IH|l IH] using json_ind'; intros Hok.
  - done.
  - by destruct b.
  - by apply json_number_no_ctl.
  - apply quote_no_ctl.
  - cbn [print]. rewrite !no_ctl_app. by rewrite (list_no_ctl print nums_valid).
  - cbn [print]. rewrite !no_ctl_app. rewrite (list_no_ctl _ (fun kv => nums_valid (snd kv))); [done| |done].
    eapply Forall_impl; [exact IH|]. intros kv H Hv. apply member_no_ctl. by apply H.
Qed.

Lemma dprint_line d : doc_ok d = true -> no_ctl (dprint d) = true.
Proof.
  induction d as [j|t|l IH|l IH] using doc_ind'; intros Hok; cbn [dprint].
  - by apply print_line.
  - cbn in Hok. unfold json_valid in Hok. destruct (json_parse t) as [j|] eqn:Hp; [|done]. by apply (embed_raw t j).
  - rewrite !no_ctl_app. by rewrite (list_no_ctl dprint doc_ok).
  - rewrite !no_ctl_app. rewrite (list_no_ctl _ (fun kv => doc_ok (snd kv))); [done| |done].
    eapply Forall_impl; [exact IH|]. intros kv H Hv. apply member_no_ctl. by apply H.
Qed.

Lemma jsonValue_ok v : doc_ok (jsonValue v) = true.
Proof. unfold jsonValue. destruct (json_valid v) eqn:H; [done|by cbn]. Qed.

Definition env_ok (e : envelope) : bool := match env_Result e with Some d => doc_ok d | None => true end.

Lemma envelope_ok e : env_ok e = true -> doc_ok (envelope_doc e) = true.
Proof.
  unfold env_ok, envelope_doc. destruct e as [okb fnd rs er]. cbn [env_OK env_Found env_Result env_Err]. intros H.
  cbn [doc_ok]. rewrite !forallb_app. destruct fnd, rs, er; cbn in *; by rewrite ?H.
Qed.

(** ** What a client reads back *)

(** The JSON value a client sees for a stored value. *)
Definition client_value (value : gostring) : json :=
  match json_parse value with
  | Some j => j
  | None => JObj [(bs "base64", JStr (b64_encode value)); (bs "bin", JBool true)]
  end.

Lemma jsonValue_parses v k f d : num_stop k -> (2 * length (dprint (jsonValue v)) <= f)%nat -> (json_depth (client_value v) <= d)%N ->
  parse_value f d (dprint (jsonValue v) ++ k) = Some (client_value v, k).
Proof.
  unfold jsonValue, client_value, json_valid. destruct (json_parse v) as [j|] eqn:Hp; cbn [dprint]; intros Hst Hf Hd.
  - by apply (embed_raw v j).
  - apply (parses_all (JObj [(bs "base64", JStr (b64_encode v)); (bs "bin", JBool true)])); [|done|done|done].
    cbn [json_ok forallb fst snd]. by rewrite b64_utf8.
Qed.

Lemma member_text key v e k f d (T : gostring) : utf8_valid key = true -> is_ws e = false -> T <> [] ->
  (forall k f d, (2 * length T <= f)%nat -> (json_depth v <= d)%N -> parse_value f d (T ++ e :: k) = Some (v, e :: k)) ->
  (2 * length T <= f)%nat -> (json_depth v <= d)%N ->
  parse_members (S f) d (quote key ++ bs ":" ++ T ++ e :: k) =
    if bZ e =? 125 then Some ([(key, v)], k)
    else if bZ e =? 44 then match parse_members f d k with Some (l, r5) => Some ((key, v) :: l, r5) | None => None end
    else None.
Proof.
  intros Hk He Hne HT Hf Hd. destruct T as [|b t]; [done|].
  pose proof (member_step Byte.x22 key v (escape key ++ [Byte.x22]) b t e eq_refl He) as H.
  specialize (H (fun k f' Hf' => ltac:(rewrite <- app_assoc; apply unquote_escape; [done|rewrite length_app in Hf'; cbn in Hf'; lia])) HT k f d Hf Hd).
  rewrite <- H. f_equal. unfold quote. cbn [app]. rewrite <- !app_assoc. done.
Qed.

Lemma found_text v : response_line (found_env true (jsonValue v)) =
  Byte.x7b :: quote (bs "ok") ++ bs ":" ++ bs "true" ++ Byte.x2c :: quote (bs "found") ++ bs ":" ++ bs "true" ++ Byte.x2c ::
    quote (bs "result") ++ bs ":" ++ dprint (jsonValue v) ++ Byte.x7d :: [Byte.x0a].
Proof.
  unfold response_line. cbn [envelope_doc found_env env_OK env_Found env_Result env_Err app dprint List.map fst snd print].
  rewrite !join_cons. unfold comma. rewrite <- !app_assoc. cbn [join app]. rewrite <- !app_assoc. done.
Qed.

Lemma dprint_jsonValue_ne v : dprint (jsonValue v) <> [].
Proof.
  intros H. unfold jsonValue, json_valid in H. destruct (json_parse v) as [j|] eqn:Hp; [|done]. cbn [dprint] in H.
  destruct (embed_raw v j Hp) as [_ Hk]. specialize (Hk [] 0%nat (json_depth j) I). rewrite H in Hk. by specialize (Hk (Nat.le_0_l _) (N.le_refl _)).
Qed.

Lemma true_parses e k f d : (8 <= f)%nat -> num_stop (e :: k) -> parse_value f d (bs "true" ++ e :: k) = Some (JBool true, e :: k).
Proof. intros Hf _. by destruct f; [lia|]. Qed.

(** The line sent for a stored value parses to an envelope that holds it. *)
Lemma found_line_parses v : (json_depth (client_value v) < maxNestingDepth)%N ->
  json_parse (response_line (found_env true (jsonValue v))) =
    Some (JObj [(bs "ok", JBool true); (bs "found", JBool true); (bs "result", client_value v)]).
Proof.
  intros Hd. unfold json_parse. set (f := (2 * length _ + 2)%nat).
  assert (Hf : (2 * length (dprint (jsonValue v)) + 40 <= f)%nat).
  { unfold f. rewrite found_text. cbn [length]. rewrite !length_app. cbn [length]. rewrite !length_app. cbn [length].
    rewrite !length_app. cbn [length]. cbn. lia. }
  clearbody f. rewrite found_text. destruct f as [|f]; [lia|]. cbn [parse_value]. rewrite (skip_ws_head Byte.x7b) by done.
  change (bZ Byte.x7b =? 123) with true. cbv iota. rewrite (proj2 (N.eqb_neq maxNestingDepth 0)) by done.
  match goal with |- context [skip_ws ?x] => assert (Hq : exists y, x = Byte.x22 :: y) by (eexists; reflexivity) end.
  destruct Hq as [y Hy]. rewrite Hy. rewrite (skip_ws_head Byte.x22) by done. change (bZ Byte.x22 =? 125) with false. cbv iota.
  rewrite <- Hy. clear Hy y. destruct f as [|f]; [lia|].
  rewrite (member_text (bs "ok") (JBool true) Byte.x2c); [|done|done|done|intros; by apply true_parses; [|cbn; auto]|cbn; lia|cbn; lia].
  change (bZ Byte.x2c =? 125) with false. change (bZ Byte.x2c =? 44) with true. cbv iota. destruct f as [|f]; [lia|].
  rewrite (member_text (bs "found") (JBool true) Byte.x2c); [|done|done|done|intros; by apply true_parses; [|cbn; auto]|cbn; lia|cbn; lia].
  change (bZ Byte.x2c =? 125) with false. change (bZ Byte.x2c =? 44) with true. cbv iota. destruct f as [|f]; [lia|].
  rewrite (member_text (bs "result") (client_value v) Byte.x7d); [|done|done|apply dprint_jsonValue_ne| |lia|lia].
  - done.
  - intros k f' d' Hf' Hd'. apply jsonValue_parses; [cbn; auto|done|done].
Qed.
