(* ===== verification/DocParse.v ===== *)
(** * Reading back what was marshalled

    Every document the server and the C interface send parses to the JSON
    value it stands for, in which a stored text that is JSON is itself. *)

From S2P Require Import Prelude Floats Types Json Base64 Record Proto Embed.
#[local] Open Scope Z_scope.

(** The value of a document. *)
Fixpoint doc_json (d : doc) : json :=
  match d with
  | DJson j => j
  | DRaw t => default JNull (json_parse t)
  | DArr l => JArr (List.map doc_json l)
  | DObj l => JObj (List.map (fun kv => (fst kv, doc_json (snd kv))) l)
  end.

(** Field names and strings are UTF-8, numbers are numbers, raw text is JSON. *)
Fixpoint doc_faithful (d : doc) : bool :=
  match d with
  | DJson j => json_ok j
  | DRaw t => json_valid t
  | DArr l => forallb doc_faithful l
  | DObj l => forallb (fun kv => utf8_valid (fst kv) && doc_faithful (snd kv)) l
  end.

(** [T] is a text for [v] wherever it stands. *)
Definition reads (T : gostring) (v : json) : Prop :=
  (exists b t, T = b :: t /\ is_ws b = false /\ bZ b <> 93)
  /\ forall k f d, num_stop k -> (2 * length T <= f)%nat -> (json_depth v <= d)%N -> parse_value f d (T ++ k) = Some (v, k).

Lemma parse_not_bracket f d t : parse_value f d (Byte.x5d :: t) = None.
Proof. destruct f as [|f]; [done|]. cbn [parse_value]. by rewrite (skip_ws_head Byte.x5d). Qed.

Lemma print_reads j : json_ok j = true -> reads (print j) j.
Proof.
  intros Hok. split; [by apply print_head|]. intros k f d Hk Hf Hd. by apply parses_all.
Qed.

Lemma raw_reads t j : json_parse t = Some j -> reads (compact_raw false false t) j.
Proof.
  intros Hp. destruct (embed_raw t j Hp) as [_ Hk]. split; [|intros k f d ? ? ?; by apply Hk].
  unfold json_parse in Hp. destruct (parse_value _ _ t) as [[j' r]|] eqn:Hv; [|done].
  destruct (proj1 (embed_value _) _ _ _ _ Hv) as [(b & t' & s' & _ & Hw & Hc & _) _].
  rewrite Hc in *. cbn [app] in *. eexists b, _. split_and!; [done|done|]. intros Hb.
  assert (b = Byte.x5d) as -> by (by apply bZ_inj).
  specialize (Hk [] _ _ I (le_n _) (N.le_refl _)). cbn [app] in Hk. by rewrite parse_not_bracket in Hk.
Qed.

(** ** Members and elements *)

Lemma reads_member key T v e k f d : utf8_valid key = true -> reads T v -> bZ e = 44 \/ bZ e = 125 ->
  (2 * length T <= f)%nat -> (json_depth v <= d)%N ->
  parse_members (S f) d (quote key ++ bs ":" ++ T ++ e :: k) =
    if bZ e =? 125 then Some ([(key, v)], k)
    else match parse_members f d k with Some (l, r5) => Some ((key, v) :: l, r5) | None => None end.
Proof.
  intros Hk [(b & t & -> & _) HT] He Hf Hd. rewrite (member_text key v e); try done.
  - destruct He as [-> | ->]; done.
  - unfold is_ws. destruct He as [-> | ->]; done.
  - intros k' f' d' Hf' Hd'. apply HT; [|done|done]. cbn. lia.
Qed.

Lemma members_read {A} (text : A -> gostring) (val : A -> json) (l : list (gostring * A)) : l <> [] ->
  Forall (fun kv => utf8_valid kv.1 = true /\ reads (text kv.2) (val kv.2)) l -> forall f d k,
  (2 * length (join (List.map (fun kv => quote (fst kv) ++ bs ":" ++ text (snd kv)) l)) + 1 <= f)%nat ->
  Forall (fun kv => (json_depth (val kv.2) <= d)%N) l ->
  parse_members f d (join (List.map (fun kv => quote (fst kv) ++ bs ":" ++ text (snd kv)) l) ++ Byte.x7d :: k)
    = Some (List.map (fun kv => (fst kv, val (snd kv))) l, k).
Proof.
  intros Hne HF. induction HF as [|[key x] l [Hk Hx] HF IH]; [done|]. intros f d k Hf Hd. cbn [fst snd] in *.
  destruct f as [|f]; [lia|]. apply Forall_cons in Hd as [Hdx Hd]. cbn [snd] in Hdx. destruct l as [|kv2 l].
  - cbn [List.map join fst snd] in *. rewrite !length_app in Hf. rewrite <- !app_assoc.
    by rewrite (reads_member key (text x) (val x) Byte.x7d) by (done || lia || by right).
  - cbn [List.map fst snd] in *. rewrite join_cons in *. rewrite !length_app in Hf. rewrite <- !app_assoc.
    change (comma ++ ?x) with (Byte.x2c :: x). cbn [fst snd].
    rewrite (reads_member key (text x) (val x) Byte.x2c) by (done || lia || by left). change (bZ Byte.x2c =? 125) with false.
    cbv iota. rewrite IH; [done|done| |done]. unfold comma in Hf. cbn [length app] in *. lia.
Qed.

Lemma elems_read {A} (text : A -> gostring) (val : A -> json) (l : list A) : l <> [] ->
  Forall (fun x => reads (text x) (val x)) l -> forall f d k,
  (2 * length (join (List.map text l)) + 1 <= f)%nat -> Forall (fun x => (json_depth (val x) <= d)%N) l ->
  parse_elems f d (join (List.map text l) ++ Byte.x5d :: k) = Some (List.map val l, k).
Proof.
  intros Hne HF. induction HF as [|x l [_ Hx] HF IH]; [done|]. intros f d k Hf Hd.
  destruct f as [|f]; [lia|]. apply Forall_cons in Hd as [Hdx Hd]. destruct l as [|x2 l].
  - cbn [List.map join] in *. cbn [parse_elems]. rewrite Hx; [|cbn; lia|lia|done]. by rewrite (skip_ws_head Byte.x5d).
  - cbn [List.map] in *. rewrite join_cons in *. rewrite !length_app in Hf. rewrite <- !app_assoc.
    change (comma ++ ?y) with (Byte.x2c :: y). cbn [parse_elems]. rewrite Hx; [|cbn; lia|lia|done].
    rewrite (skip_ws_head Byte.x2c) by done. change (bZ Byte.x2c =? 93) with false. change (bZ Byte.x2c =? 44) with true. cbv iota.
    rewrite IH; [done|done| |done]. unfold comma in Hf. cbn [length] in *. lia.
Qed.

Lemma fold_max_bound {A} (depth : A -> N) l d : (fold_right (fun x d => N.max (depth x) d) 0%N l <= d)%N -> Forall (fun x => (depth x <= d)%N) l.
Proof. induction l as [|x l IH]; cbn; intros H; constructor; [lia|apply IH; lia]. Qed.

Lemma fold_right_map {A B C} (g : B -> C -> C) (h : A -> B) (z : C) l : fold_right g z (List.map h l) = fold_right (fun x c => g (h x) c) z l.
Proof. induction l as [|x l IH]; [done|]. cbn. by rewrite IH. Qed.

(** ** Documents *)

Lemma obj_reads l : Forall (fun kv => utf8_valid kv.1 = true /\ reads (dprint kv.2) (doc_json kv.2)) l -> reads (dprint (DObj l)) (doc_json (DObj l)).
Proof.
  intros HF. split; [by eexists Byte.x7b, _|]. intros k f d Hk Hf Hd. cbn [dprint doc_json] in *.
  destruct f as [|f]; [cbn in Hf; lia|]. rewrite <- !app_assoc. change (bs "{" ++ ?x) with (Byte.x7b :: x). change (bs "}" ++ k) with (Byte.x7d :: k).
  cbn [parse_value]. rewrite (skip_ws_head Byte.x7b) by done. change (bZ Byte.x7b =? 123) with true. cbv iota.
  rewrite json_depth_obj in Hd. rewrite (proj2 (N.eqb_neq d 0)) by lia. destruct l as [|[key x] l]; [done|].
  set (body := List.map _ ((key, x) :: l)) in *. assert (exists t, join body = Byte.x22 :: t) as [t Ht].
  { unfold body. cbn [List.map fst snd]. apply (join_head _ _ Byte.x22 (escape key ++ [Byte.x22] ++ bs ":" ++ dprint x)).
    unfold quote. cbn [app]. by rewrite <- app_assoc. }
  rewrite Ht. cbn [app]. rewrite (skip_ws_head Byte.x22) by done. change (bZ Byte.x22 =? 125) with false. cbv iota.
  rewrite app_comm_cons, <- Ht. rewrite (members_read dprint doc_json ((key, x) :: l)); [done|done|done| |].
  - change (List.map _ ((key, x) :: l)) with body. rewrite !length_app in Hf. change (length (bs "{")) with 1%nat in Hf. change (length (bs "}")) with 1%nat in Hf. lia.
  - rewrite fold_right_map in Hd. cbn [snd] in Hd. apply fold_max_bound. lia.
Qed.

Lemma arr_reads l : Forall (fun x => reads (dprint x) (doc_json x)) l -> reads (dprint (DArr l)) (doc_json (DArr l)).
Proof.
  intros HF. split; [by eexists Byte.x5b, _|]. intros k f d Hk Hf Hd. cbn [dprint doc_json] in *.
  destruct f as [|f]; [cbn in Hf; lia|]. rewrite <- !app_assoc. change (bs "[" ++ ?x) with (Byte.x5b :: x). change (bs "]" ++ k) with (Byte.x5d :: k).
  cbn [parse_value]. rewrite (skip_ws_head Byte.x5b) by done. change (bZ Byte.x5b =? 123) with false. change (bZ Byte.x5b =? 91) with true. cbv iota.
  rewrite json_depth_arr in Hd. rewrite (proj2 (N.eqb_neq d 0)) by lia. destruct l as [|x l]; [done|].
  assert (Hx : reads (dprint x) (doc_json x)) by (by apply Forall_cons in HF as [? _]). destruct Hx as [(b & t & Hb & Hws & H93) _].
  destruct (join_head (dprint x) (List.map dprint l) b t Hb) as [t' Ht'].
  cbn [List.map]. rewrite Ht'. cbn [app]. rewrite skip_ws_head by done. rewrite (proj2 (Z.eqb_neq _ _) H93).
  rewrite app_comm_cons, <- Ht'. rewrite (elems_read dprint doc_json (x :: l)); [done|done|done| |].
  - rewrite !length_app in Hf. change (length (bs "[")) with 1%nat in Hf. change (length (bs "]")) with 1%nat in Hf. lia.
  - rewrite fold_right_map in Hd. cbn [snd] in Hd. apply fold_max_bound. lia.
Qed.

Lemma doc_reads d : doc_faithful d = true -> reads (dprint d) (doc_json d).
Proof.
  induction d as [j|t|l IH|l IH] using doc_ind'; cbn [doc_faithful]; intros Hok.
  - by apply print_reads.
  - unfold json_valid in Hok. cbn [doc_json dprint]. destruct (json_parse t) as [j|] eqn:Hp; [|done]. by apply raw_reads.
  - apply arr_reads. rewrite forallb_forall in Hok. rewrite Forall_forall in *. intros x Hx.
    apply IH; [done|]. apply Hok. by apply list_elem_of_In.
  - apply obj_reads. rewrite forallb_forall in Hok. rewrite Forall_forall in *. intros kv Hkv.
    specialize (Hok kv (proj1 (list_elem_of_In _ _) Hkv)). apply andb_true_iff in Hok as [? ?]. split; [done|]. by apply IH.
Qed.

(** A marshalled document parses to its value, within the nesting limit. *)
Lemma doc_parse d : doc_faithful d = true -> (json_depth (doc_json d) <= maxNestingDepth)%N -> json_parse (dprint d) = Some (doc_json d).
Proof.
  intros Hok Hd. unfold json_parse. destruct (doc_reads d Hok) as [_ H].
  specialize (H [] (2 * length (dprint d) + 2)%nat maxNestingDepth I). rewrite app_nil_r in H. by rewrite H by (done || lia).
Qed.
