(* ===== verification/Auth.v ===== *)
(** * Authentication (nteedb-server/auth.go, and buildAuth of main.go)

    Credentials are configured at start-up: none, one shared password, or a
    file of users with roles.  A connection's role is decided once, when its
    [auth] command is checked. *)

From S2P Require Import Prelude Floats Types Hint Text Proto.
#[local] Open Scope Z_scope.

Inductive role := roleUser | roleAdmin.

#[global] Instance role_eq_dec : EqDecision role.
Proof. solve_decision. Defined.

Record fileUser := mkFileUser { fu_password : gostring; fu_role : role }.

#[global] Instance fileUser_eq_dec : EqDecision fileUser.
Proof. solve_decision. Defined.

Record authStore := mkAuthStore {
  a_mode : gostring;                      (* "none" | "password" | "file" *)
  a_password : gostring;
  a_users : gmap gostring fileUser
}.

Definition authNone : authStore := mkAuthStore (bs "none") [] ∅.

Definition authPassword (password : gostring) : authStore := mkAuthStore (bs "password") password ∅.

(** ** The auth file *)

Inductive authError :=
  | AuthOpen                              (** the file cannot be read *)
  | AuthSyntax (line : Z)
  | AuthRole (line : Z) (r : gostring)
  | AuthDuplicate (line : Z) (user : gostring)
  | AuthScan                              (** a line over the scanner's limit *)
  | AuthEmpty
  | AuthExclusive.                        (** both -auth and -auth-file *)

(** [bufio.MaxScanTokenSize]. *)
Definition maxScanToken : nat := Z.to_nat 65536.

(** The lines a [bufio.Scanner] yields before it stops, and whether it stopped
    at the end of the file. *)
Fixpoint scanner_lines (fuel : nat) (s : gostring) : list gostring * bool :=
  match fuel, s with
  | O, _ | _, [] => ([], true)
  | S f, _ =>
      match cut_line (take maxScanToken s) with
      | Some (l, _) => let '(ls, ok) := scanner_lines f (drop (S (length l)) s) in (drop_cr l :: ls, ok)
      | None => if (maxScanToken <=? length s)%nat then ([], false) else ([drop_cr s], true)
      end
  end.

(** The role of the third part of a line. *)
Definition parse_role (lineNo : Z) (parts : list gostring) : role + authError :=
  match parts with
  | [_; _; r] => if decide (r = bs "admin") then inl roleAdmin
                 else if decide (r = bs "user" \/ r = []) then inl roleUser
                 else inr (AuthRole lineNo r)
  | _ => inl roleUser
  end.

(** The body of the loop over the lines. *)
Definition auth_line (lineNo : Z) (text : gostring) (users : gmap gostring fileUser) : gmap gostring fileUser + authError :=
  let line := TrimSpace text in
  if bool_decide (line = []) || has_prefix (bs "#") line then inl users
  else
    let parts := SplitN Byte.x3a 3 line in
    match parts with
    | user :: password :: _ =>
        if bool_decide (user = []) || bool_decide (password = []) then inr (AuthSyntax lineNo)
        else match parse_role lineNo parts with
             | inr e => inr e
             | inl r =>
                 match users !! user with
                 | Some _ => inr (AuthDuplicate lineNo user)
                 | None => inl (<[user := mkFileUser password r]> users)
                 end
             end
    | _ => inr (AuthSyntax lineNo)
    end.

Fixpoint auth_lines (lineNo : Z) (ls : list gostring) (users : gmap gostring fileUser) : gmap gostring fileUser + authError :=
  match ls with
  | [] => inl users
  | l :: ls' => match auth_line (lineNo + 1) l users with
                | inr e => inr e
                | inl users' => auth_lines (lineNo + 1) ls' users'
                end
  end.

(** [authFileStore] on the contents of the file. *)
Definition authFileStore (file : option gostring) : authStore + authError :=
  match file with
  | None => inr AuthOpen
  | Some text =>
      let '(ls, ok) := scanner_lines (S (length text)) text in
      match auth_lines 0 ls ∅ with
      | inr e => inr e
      | inl users =>
          if negb ok then inr AuthScan
          else if decide (users = ∅) then inr AuthEmpty
          else inl (mkAuthStore (bs "file") [] users)
      end
  end.

(** [buildAuth]: the two flags exclude each other. *)
Definition buildAuth (password authFile : gostring) (read : gostring -> option gostring) : authStore + authError :=
  if negb (bool_decide (password = [])) && negb (bool_decide (authFile = [])) then inr AuthExclusive
  else if negb (bool_decide (authFile = [])) then authFileStore (read authFile)
  else if negb (bool_decide (password = [])) then inl (authPassword password)
  else inl authNone.

(** ** Checking *)

Definition required (a : authStore) : bool := negb (bool_decide (a_mode a = bs "none")).

(** [subtle.ConstantTimeCompare]: the bytewise differences are accumulated, and
    the strings are equal when nothing was. *)
Fixpoint constantTimeCompare (x y : gostring) (acc : Z) : Z :=
  match x, y with
  | a :: x', b :: y' => constantTimeCompare x' y' (Z.lor acc (Z.lxor (bZ a) (bZ b)))
  | _, _ => if acc =? 0 then 1 else 0
  end.

Definition equalConstantTime (got want : gostring) : bool :=
  (length got =? length want)%nat && (constantTimeCompare got want 0 =? 1).

(** [check]. *)
Definition check (a : authStore) (args : list gostring) : role + failure :=
  if decide (a_mode a = bs "none") then inl roleAdmin
  else if decide (a_mode a = bs "password") then
    match args with
    | [pw] => if negb (equalConstantTime pw (a_password a)) then inr FInvalidPassword else inl roleAdmin
    | _ => inr (FUsage (bs "auth"))
    end
  else if decide (a_mode a = bs "file") then
    match args with
    | [user; pw] =>
        let u := a_users a !! user in
        let want := match u with Some u => fu_password u | None => [] end in
        match negb (equalConstantTime pw want), u with
        | false, Some u => inl (fu_role u)
        | _, _ => inr FInvalidUser
        end
    | _ => inr (FUsage (bs "auth"))
    end
  else inr (FAuthMode (a_mode a)).

(** ** Facts *)

Lemma lxor_acc acc a b : Z.lor acc (Z.lxor (bZ a) (bZ b)) = 0 <-> acc = 0 /\ a = b.
Proof.
  rewrite Z.lor_eq_0_iff, Z.lxor_eq_0_iff. split; intros [? H]; (split; [done|]); [by apply bZ_inj|by subst].
Qed.

Lemma constantTimeCompare_spec x : forall y acc, length x = length y ->
  constantTimeCompare x y acc = if decide (acc = 0 /\ x = y) then 1 else 0.
Proof.
  induction x as [|a x IH]; intros [|b y] acc Hlen; try done; cbn [constantTimeCompare].
  - destruct (Z.eqb_spec acc 0); by case_decide; try tauto.
  - rewrite IH by (cbn in Hlen; lia). repeat case_decide; try done; rewrite lxor_acc in *; naive_solver.
Qed.

(** The comparison decides equality. *)
Lemma equalConstantTime_spec got want : equalConstantTime got want = bool_decide (got = want).
Proof.
  unfold equalConstantTime. destruct (Nat.eqb_spec (length got) (length want)) as [Hl|Hl]; cbn [andb].
  - rewrite constantTimeCompare_spec by done. case_decide; case_bool_decide; naive_solver.
  - case_bool_decide; [by subst|done].
Qed.

(** The entry a line of the file stands for. *)
Definition line_entry (text : gostring) : option (gostring * fileUser) :=
  let line := TrimSpace text in
  if bool_decide (line = []) || has_prefix (bs "#") line then None
  else match SplitN Byte.x3a 3 line with
       | [user; pw] => Some (user, mkFileUser pw roleUser)
       | [user; pw; r] => Some (user, mkFileUser pw (if decide (r = bs "admin") then roleAdmin else roleUser))
       | _ => None
       end.

Lemma SplitN3_cases s :
  (exists p, SplitN Byte.x3a 3 s = [p]) \/ (exists p q, SplitN Byte.x3a 3 s = [p; q])
  \/ (exists p q r, SplitN Byte.x3a 3 s = [p; q; r]).
Proof.
  cbn [SplitN]. destruct (cut_byte Byte.x3a s) as [[p r]|]; [|eauto].
  destruct (cut_byte Byte.x3a r) as [[q r']|]; eauto 6.
Qed.

Lemma auth_line_ok n text users users' : auth_line n text users = inl users' ->
  match line_entry text with
  | None => users' = users
  | Some (u, fu) => users' = <[u := fu]> users /\ users !! u = None
  end.
Proof.
  unfold auth_line, line_entry. destruct (bool_decide _ || _); [by intros [= ->]|].
  destruct (SplitN3_cases (TrimSpace text)) as [(p & ->)|[(p & q & ->)|(p & q & r & ->)]]; [done|..];
    (destruct (bool_decide (p = []) || _); [done|]); cbn [parse_role].
  - destruct (users !! p) eqn:Hu; [done|]. by intros [= <-].
  - case_decide; [|case_decide; [|done]]; destruct (users !! p) eqn:Hu; try done; by intros [= <-].
Qed.

(** The users of a file are the entries of its lines, each named once. *)
Lemma auth_lines_ok ls : forall n users users', auth_lines n ls users = inl users' ->
  NoDup (omap line_entry ls).*1 /\ (forall u, u ∈ (omap line_entry ls).*1 -> users !! u = None)
  /\ users' = list_to_map (omap line_entry ls) ∪ users.
Proof.
  induction ls as [|l ls IH]; intros n users users'; cbn [auth_lines].
  { intros [= <-]. split_and!; [constructor|by intros u ?%elem_of_nil|]. cbn. symmetry. apply (left_id_L ∅ (∪)). }
  destruct (auth_line (n + 1) l users) as [u1|] eqn:Hl; [|done]. intros Hrest.
  apply auth_line_ok in Hl. destruct (IH _ _ _ Hrest) as (Hnd & Hno & ->). cbn [omap list_omap].
  destruct (line_entry l) as [[u fu]|] eqn:He; [|by subst u1].
  destruct Hl as [-> Hu]. cbn [fmap list_fmap fst list_to_map]. 
  assert (Hnin : u ∉ (omap line_entry ls).*1).
  { intros Hin. specialize (Hno u Hin). by rewrite lookup_insert_eq in Hno. }
  split_and!.
  - by constructor.
  - intros v [->|Hv]%elem_of_cons; [done|]. specialize (Hno v Hv). by apply lookup_insert_None in Hno as [??].
  - cbn. rewrite <- insert_union_l, insert_union_r; [done|]. by apply not_elem_of_list_to_map.
Qed.

Lemma map_Some_lookup (l : list (gostring * fileUser)) u fu : NoDup l.*1 ->
  (list_to_map l : gmap gostring fileUser) !! u = Some fu <-> (u, fu) ∈ l.
Proof. intros H. by rewrite elem_of_list_to_map. Qed.


Definition sample_auth_text : gostring :=
  bs "# staff" ++ [Byte.x0a] ++ bs "alice:s3cret:admin" ++ [Byte.x0d; Byte.x0a; Byte.x0a] ++ bs " bob:pw " ++ [Byte.x0a].

