(* ===== verification/ServerSchema.v ===== *)
(** * The server's schema and configuration (nteedb-server/schema.go, NewServer)

    schema.json describes the store and the auto-compaction policy.  Unknown
    fields are refused; what follows the first JSON value of the file is not
    looked at. *)

From S2P Require Import Prelude Floats Types Json Record BTree SecIndex Store Text.
#[local] Open Scope Z_scope.

(** ** Data *)

Record AutoCompactConfig := mkAutoCompact {
  ac_Enabled : bool;
  ac_IntervalSeconds : option Z;
  ac_MainRatio : option f64;
  ac_MainMinBytes : option Z;
  ac_BlobsRelieve : option bool;
  ac_BlobRatio : option f64;
  ac_BlobMin : option Z                   (* BlobMinRelieveDataSize *)
}.

Record SchemaIndex := mkSchemaIndex {
  sx_Name : gostring;
  sx_Kind : gostring;
  sx_JSONPath : gostring;
  sx_MaxPerValue : Z
}.

Record Schema := mkSchema {
  sc_Dir : gostring;
  sc_BlobThreshold : Z;
  sc_SyncEveryWrite : bool;
  sc_HintEveryN : Z;
  sc_Indexes : list SchemaIndex;
  sc_AutoCompact : AutoCompactConfig
}.

Definition zero_autocompact : AutoCompactConfig := mkAutoCompact false None None None None None None.
Definition zero_schema : Schema := mkSchema [] 0 false 0 [] zero_autocompact.

(** ** Decoding *)

(** A pointer field: [null] clears it. *)
Definition dec_ptr {A} (dec : json -> option A) (j : json) : option (option A) :=
  match j with JNull => Some None | _ => Some <$> dec j end.

Definition dec_ptr_int : json -> option (option Z) := dec_ptr (dec_int MinInt64 MaxInt64 0).

Definition dec_ptr_bool : json -> option (option bool) := dec_ptr (dec_bool false).

Definition dec_ptr_float : json -> option (option f64) :=
  dec_ptr (fun j => match j with JNum lit => parse_float lit | _ => None end).

(** The options object: [enabled] is kept apart, since its absence means true. *)
Definition set_ac_field (s : option bool * AutoCompactConfig) (kj : gostring * json)
    : option (option bool * AutoCompactConfig) :=
  let '(en, c) := s in
  let '(k, j) := kj in
  let f := fold_name k in
  if decide (f = bs "enabled") then (fun x => (x, c)) <$> dec_ptr_bool j
  else if decide (f = bs "intervalseconds") then
    (fun x => (en, mkAutoCompact false x (ac_MainRatio c) (ac_MainMinBytes c) (ac_BlobsRelieve c) (ac_BlobRatio c) (ac_BlobMin c))) <$> dec_ptr_int j
  else if decide (f = bs "mainratio") then
    (fun x => (en, mkAutoCompact false (ac_IntervalSeconds c) x (ac_MainMinBytes c) (ac_BlobsRelieve c) (ac_BlobRatio c) (ac_BlobMin c))) <$> dec_ptr_float j
  else if decide (f = bs "mainminbytes") then
    (fun x => (en, mkAutoCompact false (ac_IntervalSeconds c) (ac_MainRatio c) x (ac_BlobsRelieve c) (ac_BlobRatio c) (ac_BlobMin c))) <$> dec_ptr_int j
  else if decide (f = bs "blobsrelieve") then
    (fun x => (en, mkAutoCompact false (ac_IntervalSeconds c) (ac_MainRatio c) (ac_MainMinBytes c) x (ac_BlobRatio c) (ac_BlobMin c))) <$> dec_ptr_bool j
  else if decide (f = bs "blobratio") then
    (fun x => (en, mkAutoCompact false (ac_IntervalSeconds c) (ac_MainRatio c) (ac_MainMinBytes c) (ac_BlobsRelieve c) x (ac_BlobMin c))) <$> dec_ptr_float j
  else if decide (f = bs "blobminrelievedatasize") then
    (fun x => (en, mkAutoCompact false (ac_IntervalSeconds c) (ac_MainRatio c) (ac_MainMinBytes c) (ac_BlobsRelieve c) (ac_BlobRatio c) x)) <$> dec_ptr_int j
  else None.

Definition set_enabled (b : bool) (c : AutoCompactConfig) : AutoCompactConfig :=
  mkAutoCompact b (ac_IntervalSeconds c) (ac_MainRatio c) (ac_MainMinBytes c) (ac_BlobsRelieve c) (ac_BlobRatio c) (ac_BlobMin c).

(** [AutoCompactConfig.UnmarshalJSON]: a boolean, or an object that enables
    unless it says otherwise. *)
Definition unmarshal_autocompact (j : json) : option AutoCompactConfig :=
  match j with
  | JBool b => Some (set_enabled b zero_autocompact)
  | JNull => Some zero_autocompact
  | JObj l => match set_fields set_ac_field l (None, zero_autocompact) with
              | Some (en, c) => Some (set_enabled (match en with None => true | Some b => b end) c)
              | None => None
              end
  | _ => None
  end.

Definition set_sx_field (x : SchemaIndex) (kj : gostring * json) : option SchemaIndex :=
  let '(k, j) := kj in
  let f := fold_name k in
  if decide (f = bs "name") then (fun v => mkSchemaIndex v (sx_Kind x) (sx_JSONPath x) (sx_MaxPerValue x)) <$> dec_string (sx_Name x) j
  else if decide (f = bs "kind") then (fun v => mkSchemaIndex (sx_Name x) v (sx_JSONPath x) (sx_MaxPerValue x)) <$> dec_string (sx_Kind x) j
  else if decide (f = bs "jsonpath") then (fun v => mkSchemaIndex (sx_Name x) (sx_Kind x) v (sx_MaxPerValue x)) <$> dec_string (sx_JSONPath x) j
  else if decide (f = bs "maxpervalue") then
    (fun v => mkSchemaIndex (sx_Name x) (sx_Kind x) (sx_JSONPath x) v) <$> dec_int MinInt64 MaxInt64 (sx_MaxPerValue x) j
  else None.

(** Array elements decode over the elements the slice already has. *)
Fixpoint dec_indexes (old : list SchemaIndex) (l : list json) : option (list SchemaIndex) :=
  match l with
  | [] => Some []
  | j :: l' =>
      let cur := default (mkSchemaIndex [] [] [] 0) (head old) in
      match (match j with
             | JObj fs => set_fields set_sx_field fs cur
             | JNull => Some cur
             | _ => None
             end), dec_indexes (tail old) l' with
      | Some x, Some xs => Some (x :: xs)
      | _, _ => None
      end
  end.

Definition set_schema_field (s : Schema) (kj : gostring * json) : option Schema :=
  let '(k, j) := kj in
  let f := fold_name k in
  if decide (f = bs "dir") then
    (fun x => mkSchema x (sc_BlobThreshold s) (sc_SyncEveryWrite s) (sc_HintEveryN s) (sc_Indexes s) (sc_AutoCompact s)) <$> dec_string (sc_Dir s) j
  else if decide (f = bs "blobthreshold") then
    (fun x => mkSchema (sc_Dir s) x (sc_SyncEveryWrite s) (sc_HintEveryN s) (sc_Indexes s) (sc_AutoCompact s))
      <$> dec_int MinInt64 MaxInt64 (sc_BlobThreshold s) j
  else if decide (f = bs "synceverywrite") then
    (fun x => mkSchema (sc_Dir s) (sc_BlobThreshold s) x (sc_HintEveryN s) (sc_Indexes s) (sc_AutoCompact s)) <$> dec_bool (sc_SyncEveryWrite s) j
  else if decide (f = bs "hinteveryn") then
    (fun x => mkSchema (sc_Dir s) (sc_BlobThreshold s) (sc_SyncEveryWrite s) x (sc_Indexes s) (sc_AutoCompact s))
      <$> dec_int MinInt64 MaxInt64 (sc_HintEveryN s) j
  else if decide (f = bs "indexes") then
    match j with
    | JArr l => (fun x => mkSchema (sc_Dir s) (sc_BlobThreshold s) (sc_SyncEveryWrite s) (sc_HintEveryN s) x (sc_AutoCompact s))
                  <$> dec_indexes (sc_Indexes s) l
    | JNull => Some (mkSchema (sc_Dir s) (sc_BlobThreshold s) (sc_SyncEveryWrite s) (sc_HintEveryN s) [] (sc_AutoCompact s))
    | _ => None
    end
  else if decide (f = bs "autocompact") then
    (fun x => mkSchema (sc_Dir s) (sc_BlobThreshold s) (sc_SyncEveryWrite s) (sc_HintEveryN s) (sc_Indexes s) x) <$> unmarshal_autocompact j
  else None.

(** [json.Decoder.Decode]: the first value of the text. *)
Definition json_first (s : gostring) : option json := fst <$> parse_value (2 * length s + 2) maxNestingDepth s.

(** [parseKind] of the server. *)
Definition parseSchemaKind (kind : gostring) : option ValueKind :=
  if decide (kind = bs "string") then Some KindString
  else if decide (kind = bs "number") then Some KindNumber
  else None.

Inductive schemaError :=
  | SchemaRead
  | SchemaParse
  | SchemaEmptyName
  | SchemaKind (name kind : gostring).

Fixpoint check_indexes (l : list SchemaIndex) : option schemaError :=
  match l with
  | [] => None
  | ix :: l' =>
      if decide (sx_Name ix = []) then Some SchemaEmptyName
      else match parseSchemaKind (sx_Kind ix) with
           | None => Some (SchemaKind (sx_Name ix) (sx_Kind ix))
           | Some _ => check_indexes l'
           end
  end.

(** [LoadSchema] on the contents of the file. *)
Definition LoadSchema (file : option gostring) : Schema + schemaError :=
  match file with
  | None => inr SchemaRead
  | Some raw =>
      match (match json_first raw with
             | Some (JObj l) => set_fields set_schema_field l zero_schema
             | Some JNull => Some zero_schema
             | _ => None
             end) with
      | None => inr SchemaParse
      | Some s => match check_indexes (sc_Indexes s) with
                  | Some e => inr e
                  | None => inl s
                  end
      end
  end.

(** ** Extraction by path *)

Definition field_of (v : any) (seg : gostring) : option any :=
  match v with
  | AObj l => snd <$> List.find (fun kv => bool_decide (kv.1 = seg)) l
  | _ => None
  end.

Fixpoint walk (v : any) (segs : list gostring) : option any :=
  match segs with
  | [] => Some v
  | seg :: segs' => match field_of v seg with Some v' => walk v' segs' | None => None end
  end.

(** [jsonPathExtract]. *)
Definition jsonPathExtract (path : gostring) (kind : ValueKind) : gostring -> gostring -> option any :=
  let segs := Split Byte.x2e path in
  fun _ value =>
    match json_parse value with
    | None => None
    | Some j =>
        match decode_any j with
        | None => None
        | Some v =>
            match walk v segs, kind with
            | Some (AString s), KindString => Some (AString s)
            | Some (AFloat64 f), KindNumber => Some (AFloat64 f)
            | _, _ => None
            end
        end
    end.

(** [Schema.Options]. *)
Definition schema_def (ix : SchemaIndex) : option IndexDef :=
  match parseSchemaKind (sx_Kind ix) with
  | None => None
  | Some kind =>
      Some (mkIndexDef (sx_Name ix) kind
              (if decide (sx_JSONPath ix = []) then None else Some (jsonPathExtract (sx_JSONPath ix) kind))
              (sx_MaxPerValue ix))
  end.

Definition schema_Options (s : Schema) : option Options :=
  mkOptions (sc_BlobThreshold s) (sc_SyncEveryWrite s) (sc_HintEveryN s) <$> mapM schema_def (sc_Indexes s).

(** [Schema.Kinds]: an unknown kind is the zero kind. *)
Definition schema_Kinds (s : Schema) : gmap gostring ValueKind :=
  fold_left (fun m ix => <[sx_Name ix := default KindString (parseSchemaKind (sx_Kind ix))]> m) (sc_Indexes s) ∅.

(** ** Server configuration *)

Record Config := mkConfig {
  cfg_Addr : gostring;
  cfg_TLSAddr : gostring;
  cfg_TLS : bool;                         (* TLSConfig is set *)
  cfg_IdleTimeout : Z;
  cfg_MaxLine : Z;
  cfg_MaxValue : Z;
  cfg_AutoCompact : bool;
  cfg_CompactInterval : Z;
  cfg_MainRatio : f64;
  cfg_MainMinBytes : Z;
  cfg_BlobsRelieve : bool;
  cfg_BlobRatio : f64;
  cfg_BlobMin : Z
}.

Definition second : Z := 1000000000.      (* time.Second *)

(** [AutoCompactConfig.apply]. *)
Definition apply (c : AutoCompactConfig) (g : Config) : Config :=
  mkConfig (cfg_Addr g) (cfg_TLSAddr g) (cfg_TLS g) (cfg_IdleTimeout g) (cfg_MaxLine g) (cfg_MaxValue g)
    (ac_Enabled c)
    (match ac_IntervalSeconds c with
     | Some n => if 0 <? n then wrap64 (n * second) else cfg_CompactInterval g
     | None => cfg_CompactInterval g
     end)
    (default (cfg_MainRatio g) (ac_MainRatio c))
    (default (cfg_MainMinBytes g) (ac_MainMinBytes c))
    (match ac_BlobsRelieve c with Some b => ac_Enabled c && b | None => ac_Enabled c end)
    (default (cfg_BlobRatio g) (ac_BlobRatio c))
    (default (cfg_BlobMin g) (ac_BlobMin c)).

Definition half : f64 := S754_finite false (2 ^ 52) (-53).
Definition f64_zero : f64 := S754_zero false.

Definition positive_or (n d : Z) : Z := if n <=? 0 then d else n.
Definition ratio_or (f d : f64) : f64 := if SFleb f f64_zero then d else f.

(** The defaults [NewServer] fills in. *)
Definition with_defaults (g : Config) : Config :=
  mkConfig (cfg_Addr g) (cfg_TLSAddr g) (cfg_TLS g) (cfg_IdleTimeout g)
    (positive_or (cfg_MaxLine g) (2 ^ 20))
    (positive_or (cfg_MaxValue g) (32 * 2 ^ 20))
    (cfg_AutoCompact g)
    (positive_or (cfg_CompactInterval g) (30 * second))
    (ratio_or (cfg_MainRatio g) half)
    (positive_or (cfg_MainMinBytes g) (2 ^ 20))
    (cfg_BlobsRelieve g)
    (ratio_or (cfg_BlobRatio g) half)
    (positive_or (cfg_BlobMin g) (64 * 2 ^ 20)).

Example half_ex : parse_float (bs "0.5") = Some half.
Proof. by vm_compute. Qed.

Example LoadSchema_ex :
  LoadSchema (Some (qs "{'dir':'d','indexes':[{'name':'n','kind':'number','jsonPath':'a.b'}],'autoCompact':{'mainRatio':0.5}} trailing"))
  = inl (mkSchema (bs "d") 0 false 0 [mkSchemaIndex (bs "n") (bs "number") (bs "a.b") 0]
      (mkAutoCompact true None (Some half) None None None None)).
Proof. by vm_compute. Qed.

Example LoadSchema_unknown_ex : LoadSchema (Some (qs "{'dirr':'d'}")) = inr SchemaParse.
Proof. by vm_compute. Qed.

(** ** Decoded numbers are numbers

    A JSON literal starts with a digit or a minus sign, so decoding never
    yields a NaN. *)

Definition num_head (lit : gostring) : bool :=
  match lit with b :: _ => is_digit b || (bZ b =? 45) | [] => false end.

Fixpoint nums_ok (j : json) : bool :=
  match j with
  | JNum lit => num_head lit
  | JArr l => forallb nums_ok l
  | JObj l => forallb (fun kv => nums_ok (snd kv)) l
  | _ => true
  end.

Fixpoint floats_ok (v : any) : bool :=
  match v with
  | AFloat64 f => negb (f64_isnan f)
  | AArr l => forallb floats_ok l
  | AObj l => forallb (fun kv => floats_ok (snd kv)) l
  | _ => true
  end.

Lemma scan_number_head s lit r : scan_number s = Some (lit, r) -> num_head lit = true.
Proof.
  unfold scan_number. destruct s as [|b s]; [done|]. destruct (Z.eqb_spec (bZ b) 45) as [Hb|Hb].
  - destruct (scan_int s) as [[ip s1]|]; [|done]. destruct (scan_fraction s1) as [[fp s2]|]; [|done].
    destruct (scan_exponent s2) as [[ep s3]|]; [|done]. intros [= <- _]. cbn. by rewrite Hb, orb_true_r.
  - unfold scan_int. destruct (Z.eqb_spec (bZ b) 48) as [H0|H0].
    + destruct (scan_fraction s) as [[fp s2]|]; [|done]. destruct (scan_exponent s2) as [[ep s3]|]; [|done].
      intros [= <- _]. cbn. unfold is_digit. by rewrite H0.
    + destruct (is_digit b) eqn:Hd; [|done]. cbn [span_digits]. rewrite Hd. destruct (span_digits s) as [d r1].
      destruct (scan_fraction r1) as [[fp s2]|]; [|done]. destruct (scan_exponent s2) as [[ep s3]|]; [|done].
      intros [= <- _]. cbn. by rewrite Hd.
Qed.

Lemma parse_nums f :
  (forall d s j r, parse_value f d s = Some (j, r) -> nums_ok j = true)
  /\ (forall d s l r, parse_members f d s = Some (l, r) -> forallb (fun kv => nums_ok (snd kv)) l = true)
  /\ (forall d s l r, parse_elems f d s = Some (l, r) -> forallb nums_ok l = true).
Proof.
  induction f as [|f (IHv & IHm & IHe)]; [by split_and!|]. split_and!; intros d s; [intros j r|intros l r..]; cbn.
  - repeat case_match; try done; intros [= <- <-]; cbn; eauto using scan_number_head.
  - repeat case_match; try done; intros [= <- <-]; cbn; try (apply andb_true_iff; split); eauto.
  - repeat case_match; try done; intros [= <- <-]; cbn; try (apply andb_true_iff; split); eauto.
Qed.

Lemma parse_float_num lit f : num_head lit = true -> parse_float lit = Some f -> f64_isnan f = false.
Proof.
  intros Hh Hp. apply (parse_float_not_nan lit); [done|]. destruct lit as [|b lit]; [done|]. cbn. intros [= Hb _].
  by destruct b.
Qed.

Lemma last_wins_sub {A} (P : A -> bool) (l : list (gostring * A)) :
  forallb (fun kv => P (snd kv)) l = true -> forallb (fun kv => P (snd kv)) (last_wins l) = true.
Proof.
  induction l as [|[k v] l IH]; [done|]. cbn. intros [Hv Hl]%andb_true_iff.
  destruct (existsb _ l); [by apply IH|]. cbn. rewrite Hv. by apply IH.
Qed.

Lemma decode_floats j : forall v, nums_ok j = true -> decode_any j = Some v -> floats_ok v = true.
Proof.
  induction j as [|b|lit|str|l IH|l IH] using json_ind'; intros v Hn; cbn.
  - by intros [= <-].
  - by intros [= <-].
  - destruct (parse_float lit) eqn:Hp; [|done]. intros [= <-]. cbn. by rewrite (parse_float_num lit).
  - by intros [= <-].
  - match goal with |- context [?g l] => destruct (g l) as [vs|] eqn:Hg end; [|done]. intros [= <-]. cbn in *.
    revert vs Hn Hg. induction IH as [|x l Hx HF IHl]; intros vs Hn; [by intros [= <-]|].
    cbn in Hn. apply andb_true_iff in Hn as [H1 H2]. destruct (decode_any x) eqn:Hdx; [|done].
    match goal with |- context [?g l] => destruct (g l) as [vs'|] eqn:Hg end; [|done]. intros [= <-]. cbn.
    by rewrite (Hx a), (IHl vs').
  - match goal with |- context [?g l] => destruct (g l) as [vs|] eqn:Hg end; [|done]. intros [= <-]. cbn in *.
    apply (last_wins_sub floats_ok). revert vs Hn Hg. induction IH as [|[k x] l Hx HF IHl]; intros vs Hn; [by intros [= <-]|].
    cbn in Hn. apply andb_true_iff in Hn as [H1 H2]. destruct (decode_any x) eqn:Hdx; [|done].
    match goal with |- context [?g l] => destruct (g l) as [vs'|] eqn:Hg end; [|done]. intros [= <-]. cbn.
    by rewrite (Hx a), (IHl vs').
Qed.

Lemma walk_floats segs : forall v w, floats_ok v = true -> walk v segs = Some w -> floats_ok w = true.
Proof.
  induction segs as [|seg segs IH]; intros v w Hv; cbn; [by intros [= <-]|].
  destruct v; try done. cbn. destruct (List.find _ l) as [[k x]|] eqn:Hf; [|done]. cbn. apply IH.
  apply List.find_some in Hf as [Hin _]. cbn in Hv. rewrite forallb_forall in Hv. exact (Hv _ Hin).
Qed.

Section extract.
Context {BT : BTreeG}.

(** C40. A value extracted by a path always has the kind the index declares and
    is never a NaN: the index accepts it whatever the record holds, so
    extraction never makes a write fail or breaks the order of the index. *)
Theorem jsonPathExtract_typed path kind key value v (si : secIndex) pk :
  jsonPathExtract path kind key value = Some v -> si_kind si = kind ->
  exists e, makeEntry si v pk = Ok e /\ se_pk e = pk /\ not_nan e
    /\ match kind with KindString => v = AString (se_s e) | KindNumber => v = AFloat64 (se_f e) end.
Proof.
  unfold jsonPathExtract, makeEntry. destruct (json_parse value) as [j|] eqn:Hj; [|done].
  destruct (decode_any j) as [u|] eqn:Hd; [|done]. intros Hv Hk. rewrite Hk.
  destruct (walk u _) as [w|] eqn:Hw; [|done].
  assert (Hok : floats_ok w = true).
  { eapply walk_floats, Hw. eapply decode_floats, Hd. unfold json_parse in Hj.
    destruct (parse_value _ _ value) as [[j' r]|] eqn:Hp; [|done]. destruct (skip_ws r); [|done].
    injection Hj as <-. eapply parse_nums, Hp. }
  destruct kind, w; try done; injection Hv as <-; eexists; split_and!; try done. cbn in Hok. by apply negb_true_iff in Hok.
Qed.
End extract.

Lemma jsonPathExtract_typed_witness :
  let v := AFloat64 (f64_of_Z 7) in
  jsonPathExtract (bs "a.b") KindNumber [] (qs "{'a':{'b':7}}") = Some v
  /\ exists e, makeEntry (newSecIndex (mkIndexDef (bs "n") KindNumber None 0)) v (bs "k") = Ok e /\ se_pk e = bs "k"
     /\ not_nan e /\ v = AFloat64 (se_f e).
Proof.
  intros v. assert (H : jsonPathExtract (bs "a.b") KindNumber [] (qs "{'a':{'b':7}}") = Some v) by (by vm_compute).
  split; [exact H|]. exact (jsonPathExtract_typed _ _ _ _ v (newSecIndex (mkIndexDef (bs "n") KindNumber None 0)) (bs "k") H eq_refl).
Defined.
