(* ===== verification/Server.v ===== *)
(** * The server (nteedb-server/server.go, handlers.go)

    One command of a connection is a function on the session: the server's
    state with the store in it, the input still to come, the connection's
    authentication state, and the bytes written so far.  An error of the
    session monad is fatal for the connection; what a command reports to its
    client is a response. *)

From S2P Require Import Prelude Floats Types Json Record BTree PkIndex SecIndex Hint Store Ops Compact Text Proto Auth ServerSchema.
#[local] Open Scope Z_scope.

(** ** State *)

Section server.
Context {BT : BTreeG} {E : Env}.

Record Server := mkServer {
  sv_cfg : Config;
  sv_db : DB;
  sv_auth : authStore;
  sv_schema : Schema;
  sv_kinds : gmap gostring ValueKind;
  sv_conns : Z;                           (* len(conns) *)
  sv_totalConns : Z;
  sv_commands : Z;
  sv_autoCompacts : Z;
  sv_blobCompacts : Z;
  sv_closed : bool
}.

Definition set_sv_db (db : DB) (v : Server) : Server :=
  mkServer (sv_cfg v) db (sv_auth v) (sv_schema v) (sv_kinds v) (sv_conns v) (sv_totalConns v) (sv_commands v)
    (sv_autoCompacts v) (sv_blobCompacts v) (sv_closed v).
Definition set_sv_conns (open total : Z) (v : Server) : Server :=
  mkServer (sv_cfg v) (sv_db v) (sv_auth v) (sv_schema v) (sv_kinds v) open total (sv_commands v)
    (sv_autoCompacts v) (sv_blobCompacts v) (sv_closed v).
Definition set_sv_counts (commands auto blob : Z) (v : Server) : Server :=
  mkServer (sv_cfg v) (sv_db v) (sv_auth v) (sv_schema v) (sv_kinds v) (sv_conns v) (sv_totalConns v) commands auto blob
    (sv_closed v).

(** [NewServer]. *)
Definition NewServer (cfg : Config) (db : DB) (auth : authStore) (schema : Schema) : Server :=
  mkServer (with_defaults cfg) db auth schema (schema_Kinds schema) 0 0 0 0 0 false.

Record connState := mkConnState { st_authed : bool; st_role : role }.

Record session := mkSession {
  ss_srv : Server;
  ss_in : stream;
  ss_st : connState;
  ss_out : gostring
}.

Definition set_srv (v : Server) (s : session) : session := mkSession v (ss_in s) (ss_st s) (ss_out s).
Definition set_in (i : stream) (s : session) : session := mkSession (ss_srv s) i (ss_st s) (ss_out s).
Definition set_st (st : connState) (s : session) : session := mkSession (ss_srv s) (ss_in s) st (ss_out s).
Definition add_out (o : gostring) (s : session) : session := mkSession (ss_srv s) (ss_in s) (ss_st s) (ss_out s ++ o).

Definition ss_db (s : session) : DB := sv_db (ss_srv s).

#[local] Notation MS := (M session).

(** ** Running the store and the network *)

(** A store operation, its result handed to the caller.  A panic is not
    recovered: it takes the process down. *)
Definition db_do {A} (m : M DB A) : MS (res A) := fun s =>
  let '(r, db) := m (ss_db s) in
  let s' := set_srv (set_sv_db db (ss_srv s)) s in
  match r with
  | Err EPanic => (Err EPanic, s')
  | r => (Ok r, s')
  end.

(** A write to the connection, or a flush: it may fail. *)
Definition net_write : MS unit := fun s =>
  let '(n, db) := (db_tick (ss_db s), set_tick (S (db_tick (ss_db s))) (ss_db s)) in
  ((if env_fs n then Err ENet else Ok tt), set_srv (set_sv_db db (ss_srv s)) s).

(** [respWriter.send]. *)
Definition send (e : envelope) : MS unit := net_write ;;; mmodify (add_out (response_line e)).

Definition read_data (n : Z) : MS gostring := fun s =>
  let '(r, i) := readData n (cfg_MaxValue (sv_cfg (ss_srv s))) (ss_in s) in (r, set_in i s).

(** The wording of failures. *)
Context (failure_text : failure -> gostring).

(** Answers that keep the connection open; the value says whether to quit. *)
Definition ok (d : doc) : MS bool := send (ok_env (Some d)) ;;; mok false.
Definition found (f : bool) (d : doc) : MS bool := send (found_env f d) ;;; mok false.
Definition fail (f : failure) : MS bool := send (fail_env (failure_text f)) ;;; mok false.

(** [x, err := s.db.Op(...); if err != nil { return false, rw.fail("%v", err) }]. *)
Definition db_call {A} (m : M DB A) (k : A -> MS bool) : MS bool :=
  r <- db_do m ;; match r with Ok a => k a | Err e => fail (FErr e) end.

Definition doc_bool (b : bool) : doc := DJson (JBool b).
Definition doc_int (n : Z) : doc := DJson (JNum (format_int n)).
Definition doc_str (s : gostring) : doc := DJson (JStr s).
Definition doc_keys (l : list gostring) : doc := DJson (JArr (JStr <$> l)).
Definition doc_map (l : list (gostring * doc)) : doc := DObj (sort_fields l).

(** ** Arguments *)

(** [parseTTLMillis]: a positive number of milliseconds, as a duration in
    [int64] nanoseconds. *)
Definition parseTTLMillis (cmd tok : gostring) : Z + failure :=
  match ParseInt tok with
  | Some ms => if 0 <? ms then inl (wrap64 (ms * millisecond)) else inr (FTTL cmd tok)
  | None => inr (FTTL cmd tok)
  end.

(** The optional trailing token. *)
Definition ttl_arg (cmd : gostring) (rest : list gostring) : list Z + failure :=
  match rest with
  | [] => inl []
  | tok :: _ => match parseTTLMillis cmd tok with inl d => inl [d] | inr f => inr f end
  end.

Definition parseLimit (rest : list gostring) : list Z + failure :=
  match rest with
  | [] => inl []
  | tok :: _ => match Atoi tok with Some n => inl [n] | None => inr (FLimit tok) end
  end.

(** [indexValue]: an unknown index takes the zero kind. *)
Definition indexValue (kinds : gmap gostring ValueKind) (name tok : gostring) : any + failure :=
  match default KindString (kinds !! name) with
  | KindNumber => match ParseFloat tok with Some f => inl (AFloat64 f) | None => inr (FNotNumber name tok) end
  | KindString => inl (AString tok)
  end.

Definition indexArgs (kinds : gmap gostring ValueKind) (cmd : gostring) (args : list gostring) (withLimit : bool)
    : (gostring * any * list Z) + failure :=
  match args with
  | name :: tok :: rest =>
      if (zlen rest <=? (if withLimit then 1 else 0)) then
        match indexValue kinds name tok with
        | inr f => inr f
        | inl v => match parseLimit rest with inr f => inr f | inl limit => inl (name, v, limit) end
        end
      else inr (FUsage cmd)
  | _ => inr (FUsage cmd)
  end.

(** ** Session commands *)

Definition serverVersion : gostring := bs "0.1.0".

Definition hello_doc (v : Server) (authed : bool) : doc :=
  doc_map ([(bs "server", doc_str (bs "nteedb")); (bs "version", doc_str serverVersion); (bs "auth", doc_str (a_mode (sv_auth v)))]
    ++ if authed
       then [(bs "indexes", DArr ((fun ix => doc_map [(bs "name", doc_str (sx_Name ix)); (bs "kind", doc_str (sx_Kind ix))])
                                    <$> sc_Indexes (sv_schema v)))]
       else []).

Definition do_quit : MS bool := ok (doc_bool true) ;;; mok true.

Definition do_hello : MS bool := s <- mget ;; ok (hello_doc (ss_srv s) (st_authed (ss_st s))).

Definition do_auth (args : list gostring) : MS bool :=
  s <- mget ;;
  match check (sv_auth (ss_srv s)) args with
  | inr f => fail f
  | inl r => mmodify (set_st (mkConnState true r)) ;;; ok (doc_bool true)
  end.

Definition requireAuth (st : connState) : option failure := if st_authed st then None else Some FAuthRequired.

Definition requireAdmin (st : connState) (cmd : gostring) : option failure :=
  match requireAuth st with
  | Some f => Some f
  | None => if decide (st_role st = roleAdmin) then None else Some (FPermission cmd)
  end.

(** ** Reads *)

Definition do_get (args : list gostring) : MS bool :=
  match args with
  | [key] => db_call (Get key) (fun v => match v with
                                         | None => found false jsonNull
                                         | Some value => found true (jsonValue value)
                                         end)
  | _ => fail (FUsage (bs "get"))
  end.

Definition getm_entry (kv : gostring * option gostring) : doc :=
  doc_map [(bs "key", doc_str kv.1); (bs "found", doc_bool (match kv.2 with Some _ => true | None => false end));
           (bs "value", match kv.2 with Some value => jsonValue value | None => jsonNull end)].

Definition do_getm (args : list gostring) : MS bool :=
  match args with
  | [] => fail (FUsage (bs "getm"))
  | _ => db_call (GetMany args) (fun vs => ok (DArr (getm_entry <$> zip args vs)))
  end.

Definition do_has (args : list gostring) : MS bool :=
  match args with
  | [key] => db_call (Has key) (fun b => ok (doc_bool b))
  | _ => fail (FUsage (bs "has"))
  end.

Definition do_scan (args : list gostring) : MS bool :=
  match args with
  | [] => db_call (PrefixScan []) (fun keys => ok (doc_keys keys))
  | [p] => db_call (PrefixScan p) (fun keys => ok (doc_keys keys))
  | _ => fail (FUsage (bs "scan"))
  end.

Definition do_ix (args : list gostring) : MS bool :=
  s <- mget ;;
  match indexArgs (sv_kinds (ss_srv s)) (bs "ix") args true with
  | inr f => fail f
  | inl (name, v, limit) => db_call (ByIndex name v limit) (fun keys => ok (doc_keys keys))
  end.

Definition do_ixh (args : list gostring) : MS bool :=
  s <- mget ;;
  match indexArgs (sv_kinds (ss_srv s)) (bs "ixh") args false with
  | inr f => fail f
  | inl (name, v, _) => db_call (ByIndexHas name v) (fun b => ok (doc_bool b))
  end.

Definition do_ixp (args : list gostring) : MS bool :=
  match args with
  | name :: p :: rest =>
      if 1 <? zlen rest then fail (FUsage (bs "ixp"))
      else match parseLimit rest with
           | inr f => fail f
           | inl limit => db_call (ByIndexPrefix name p limit) (fun keys => ok (doc_keys keys))
           end
  | _ => fail (FUsage (bs "ixp"))
  end.

Definition do_ixr (args : list gostring) : MS bool :=
  match args with
  | [name; lo; hi] =>
      s <- mget ;;
      match indexValue (sv_kinds (ss_srv s)) name lo with
      | inr f => fail f
      | inl lov =>
          match indexValue (sv_kinds (ss_srv s)) name hi with
          | inr f => fail f
          | inl hiv => db_call (ByIndexRange name lov hiv) (fun keys => ok (doc_keys keys))
          end
      end
  | _ => fail (FUsage (bs "ixr"))
  end.

(** Keys that vanished between the two reads are left out. *)
Definition ixrec_entry (kv : gostring * option gostring) : option doc :=
  match kv.2 with
  | Some value => Some (doc_map [(bs "key", doc_str kv.1); (bs "value", jsonValue value)])
  | None => None
  end.

Definition do_ixrec (args : list gostring) : MS bool :=
  s <- mget ;;
  match indexArgs (sv_kinds (ss_srv s)) (bs "ixrec") args true with
  | inr f => fail f
  | inl (name, v, limit) =>
      db_call (ByIndex name v limit) (fun keys =>
      db_call (GetMany keys) (fun vs => ok (DArr (omap ixrec_entry (zip keys vs)))))
  end.

(** ** Writes *)

Definition do_put (line : gostring) (args : list gostring) : MS bool :=
  match args with
  | key :: a1 :: rest =>
      value <- (match Atoi a1, rest with
                | Some n, [] => read_data n
                | _, _ => mok (restAfterTokens line 2)
                end) ;;
      db_call (Put key value []) (fun _ => ok (doc_bool true))
  | _ => fail (FUsage (bs "put"))
  end.

Definition do_putex (args : list gostring) : MS bool :=
  match args with
  | [key; ttlms; nbytes] =>
      let ttl := parseTTLMillis (bs "putex") ttlms in
      match Atoi nbytes with
      | None => fail (FUsage (bs "putex"))
      | Some n =>
          value <- read_data n ;;
          match ttl with
          | inr f => fail f
          | inl d => db_call (Put key value [d]) (fun _ => ok (doc_bool true))
          end
      end
  | _ => fail (FUsage (bs "putex"))
  end.

(** [json.Unmarshal] into a nil [IndexValues]. *)
Definition unmarshal_ix (raw : gostring) : option IndexValues :=
  match json_parse raw with Some j => dec_ix ∅ j | None => None end.

Definition do_putx (args : list gostring) : MS bool :=
  match args with
  | key :: ixbytes :: nbytes :: rest =>
      if 1 <? zlen rest then fail (FUsage (bs "putx"))
      else match Atoi ixbytes, Atoi nbytes with
           | Some ixLen, Some valLen =>
               let ttl := ttl_arg (bs "putx") rest in
               ixRaw <- read_data ixLen ;;
               value <- read_data valLen ;;
               match ttl with
               | inr f => fail f
               | inl ttl =>
                   match unmarshal_ix ixRaw with
                   | None => fail FIndexValues
                   | Some ix => db_call (PutIndexed key value ix ttl) (fun _ => ok (doc_bool true))
                   end
               end
           | _, _ => fail (FUsage (bs "putx"))
           end
  | _ => fail (FUsage (bs "putx"))
  end.

(** The delta of [incr] and [decr]: one when omitted. *)
Definition delta_arg (cmd : gostring) (rest : list gostring) : Z + failure :=
  match rest with
  | [] => inl 1
  | tok :: _ => match ParseInt tok with Some d => inl d | None => inr (FDelta cmd tok) end
  end.

Definition do_incr (decr : bool) (args : list gostring) : MS bool :=
  let cmd := if decr then bs "decr" else bs "incr" in
  match args with
  | key :: rest =>
      if 2 <? zlen rest then fail (FUsage cmd)
      else match delta_arg cmd rest with
           | inr f => fail f
           | inl delta =>
               match ttl_arg cmd (drop 1 rest) with
               | inr f => fail f
               | inl ttl =>
                   if decr && (delta =? MinInt64) then fail FDeltaRange
                   else db_call (Incr key (if decr then - delta else delta) ttl) (fun v => ok (doc_int v))
               end
           end
  | [] => fail (FUsage cmd)
  end.

Definition do_topup (take_ : bool) (args : list gostring) : MS bool :=
  let cmd := if take_ then bs "take" else bs "topup" in
  match args with
  | key :: a :: b :: rest =>
      if 1 <? zlen rest then fail (FUsage cmd)
      else match ParseInt a with
           | None => fail (FAmount cmd a)
           | Some amount =>
               match ParseInt b with
               | None => fail (FBound cmd b)
               | Some limit =>
                   match ttl_arg cmd rest with
                   | inr f => fail f
                   | inl ttl =>
                       if take_ then db_call (Take key amount limit ttl) (fun applied => ok (doc_bool applied))
                       else db_call (Topup key amount limit ttl) (fun over => ok (doc_int over))
                   end
               end
           end
  | _ => fail (FUsage cmd)
  end.

Definition do_del (args : list gostring) : MS bool :=
  match args with
  | [key] => db_call (Delete key) (fun _ => ok (doc_bool true))
  | _ => fail (FUsage (bs "del"))
  end.

Definition do_rm (greater : bool) (args : list gostring) : MS bool :=
  match args with
  | [cutoff] => db_call (if greater then RemoveByPkGreater cutoff else RemoveByPkLess cutoff) (fun n => ok (doc_int n))
  | _ => fail (FUsage (if greater then bs "rmg" else bs "rml"))
  end.

(** ** Introspection *)

Definition do_stats : MS bool :=
  s <- mget ;;
  let st := getStats (ss_db s) in
  db_call getBlobUsage (fun u =>
    s <- mget ;;
    let v := ss_srv s in
    ok (doc_map [
      (bs "records", doc_int (st_Records st)); (bs "mainBytes", doc_int (st_MainBytes st));
      (bs "liveBytes", doc_int (LiveBytes (sv_db v))); (bs "blobBytes", doc_int (st_BlobBytes st));
      (bs "blobLiveBytes", doc_int (bu_LiveBytes u)); (bs "blobOrphanedBytes", doc_int (bu_OrphanedBytes u));
      (bs "blobGenerations", doc_int (bu_Generations u)); (bs "connections", doc_int (sv_conns v));
      (bs "totalConns", doc_int (sv_totalConns v)); (bs "commands", doc_int (sv_commands v));
      (bs "autoCompacts", doc_int (sv_autoCompacts v)); (bs "blobCompacts", doc_int (sv_blobCompacts v))])).

(** [sort.Strings] of a set of names. *)
Definition sorted_names (l : list gostring) : list gostring := (sort_fields ((fun n => (n, tt)) <$> l)).*1.

Definition DroppedIndexes (db : DB) : list gostring := sorted_names (map_to_list (db_dropped db)).*1.
Definition ProspectiveIndexes (db : DB) : list gostring := sorted_names (elements (db_prospective db)).

Definition do_dropped : MS bool := s <- mget ;; ok (doc_keys (DroppedIndexes (ss_db s))).
Definition do_prospective : MS bool := s <- mget ;; ok (doc_keys (ProspectiveIndexes (ss_db s))).

(** ** Administration *)

Definition admin_only (cmd : gostring) (k : MS bool) : MS bool :=
  s <- mget ;; match requireAdmin (ss_st s) cmd with Some f => fail f | None => k end.

Definition do_compact : MS bool := admin_only (bs "compact") (db_call Compact (fun _ => ok (doc_bool true))).
Definition do_reindex : MS bool := admin_only (bs "reindex") (db_call Reindex (fun _ => ok (doc_bool true))).

Definition count_relieve (s : session) : session :=
  set_srv (set_sv_counts (sv_commands (ss_srv s)) (sv_autoCompacts (ss_srv s)) (sv_blobCompacts (ss_srv s) + 1) (ss_srv s)) s.

Definition do_relieve : MS bool :=
  admin_only (bs "relieve") (db_call BlobsRelieve (fun _ => mmodify count_relieve ;;; ok (doc_bool true))).

(** ** Dispatch *)

Inductive command :=
  | CQuit | CHello | CAuth | CPing | CGet | CGetm | CHas | CScan | CIx | CIxh | CIxp | CIxr | CIxrec
  | CPut | CPutex | CPutx | CIncr | CDecr | CTopup | CTake | CDel | CRml | CRmg
  | CStats | CDropped | CProspective | CCompact | CReindex | CRelieve.

Definition commands : list (gostring * command) := [
  (bs "quit", CQuit); (bs "hello", CHello); (bs "auth", CAuth); (bs "ping", CPing); (bs "get", CGet); (bs "getm", CGetm);
  (bs "has", CHas); (bs "scan", CScan); (bs "ix", CIx); (bs "ixh", CIxh); (bs "ixp", CIxp); (bs "ixr", CIxr); (bs "ixrec", CIxrec);
  (bs "put", CPut); (bs "putex", CPutex); (bs "putx", CPutx); (bs "incr", CIncr); (bs "decr", CDecr); (bs "topup", CTopup);
  (bs "take", CTake); (bs "del", CDel); (bs "rml", CRml); (bs "rmg", CRmg); (bs "stats", CStats); (bs "dropped", CDropped);
  (bs "prospective", CProspective); (bs "compact", CCompact); (bs "reindex", CReindex); (bs "relieve", CRelieve)].

Definition command_of (cmd : gostring) : option command :=
  snd <$> List.find (fun kv => bool_decide (kv.1 = cmd)) commands.

(** The second switch, behind [requireAuth]. *)
Definition run_authed (c : option command) (cmd line : gostring) (args : list gostring) : MS bool :=
  match c with
  | Some CPing => ok (doc_str (bs "pong"))
  | Some CGet => do_get args
  | Some CGetm => do_getm args
  | Some CHas => do_has args
  | Some CScan => do_scan args
  | Some CIx => do_ix args
  | Some CIxh => do_ixh args
  | Some CIxp => do_ixp args
  | Some CIxr => do_ixr args
  | Some CIxrec => do_ixrec args
  | Some CPut => do_put line args
  | Some CPutex => do_putex args
  | Some CPutx => do_putx args
  | Some CIncr => do_incr false args
  | Some CDecr => do_incr true args
  | Some CTopup => do_topup false args
  | Some CTake => do_topup true args
  | Some CDel => do_del args
  | Some CRml => do_rm false args
  | Some CRmg => do_rm true args
  | Some CStats => do_stats
  | Some CDropped => do_dropped
  | Some CProspective => do_prospective
  | Some CCompact => do_compact
  | Some CReindex => do_reindex
  | Some CRelieve => do_relieve
  | _ => fail (FUnknownCommand cmd)
  end.

Definition dispatch (line : gostring) : MS bool :=
  let '(cmd, args) := splitCommand line in
  match command_of cmd with
  | Some CQuit => do_quit
  | Some CHello => do_hello
  | Some CAuth => do_auth args
  | c =>
      s <- mget ;;
      match requireAuth (ss_st s) with
      | Some f => fail f
      | None => run_authed c cmd line args
      end
  end.

(** ** The connection loop *)

Definition count_command (s : session) : session :=
  set_srv (set_sv_counts (sv_commands (ss_srv s) + 1) (sv_autoCompacts (ss_srv s)) (sv_blobCompacts (ss_srv s)) (ss_srv s)) s.

(** After a command: a fatal error is reported if possible and ends the
    connection, a panic the process; otherwise the response is flushed. *)
Definition after_dispatch (q : res bool) : MS bool :=
  match q with
  | Err EPanic => merr EPanic
  | Err e => mtry (fail (FErr e)) ;;; mtry net_write ;;; mok false
  | Ok quit =>
      w <- mtry net_write ;;
      match w with
      | Err _ => mok false
      | Ok _ => mok (negb quit)
      end
  end.

Definition serve_line (line : gostring) : MS bool :=
  mmodify count_command ;;; q <- mtry (dispatch line) ;; after_dispatch q.

Lemma serve_line_run line s :
  serve_line line s = let '(q, s1) := dispatch line (count_command s) in after_dispatch q s1.
Proof. unfold serve_line, mmodify, mtry, mbnd. by destruct (dispatch line _). Qed.

(** One turn of the loop: [false] when the connection is over. *)
Definition serve_one : MS bool := fun s =>
  let cfg := sv_cfg (ss_srv s) in
  let '(r, i) := readLine (cfg_MaxLine cfg) (ss_in s) in
  let s := set_in i s in
  match r with
  | Err ErrLineTooLong =>
      (mtry (fail (FLineTooLong (cfg_MaxLine cfg))) ;;; mtry net_write ;;; mok false) s
  | Err _ => (Ok false, s)
  | Ok [] => (Ok true, s)
  | Ok line => serve_line line s
  end.

Fixpoint conn_loop (fuel : nat) : MS unit :=
  match fuel with
  | O => merr EFuel
  | S f => more <- serve_one ;; if more then conn_loop f else mok tt
  end.

(** The state a connection starts with. *)
Definition initial_state (auth : authStore) : connState :=
  if required auth then mkConnState false roleUser else mkConnState true roleAdmin.

Definition open_session (i : stream) (v : Server) : session :=
  mkSession (set_sv_conns (sv_conns v + 1) (sv_totalConns v + 1) v) i (initial_state (sv_auth v)) [].

Definition close_session (s : session) : Server :=
  set_sv_conns (sv_conns (ss_srv s) - 1) (sv_totalConns (ss_srv s)) (ss_srv s).

(** [acceptLoop] and [handleConn] for one connection: the server afterwards and
    the bytes the client received.  Every turn consumes input. *)
Definition handleConn (i : stream) (v : Server) : res unit * (Server * gostring) :=
  let '(r, s) := conn_loop (S (length (in_bytes i))) (open_session i v) in
  (r, (close_session s, ss_out s)).
End server.
