(* ===== verification/ServerProofs.v ===== *)
(** * Connections: termination, responses and authentication *)

From S2P Require Import Prelude Floats Types Json Record BTree PkIndex SecIndex Hint Store Invariant Ops Compact Text Proto Embed Auth ServerSchema Server.
#[local] Open Scope Z_scope.

Section proofs.
Context {BT : BTreeG} {E : Env} (failure_text : failure -> gostring).
Implicit Types (s : session) (v : Server).
#[local] Notation MS := (M session).
#[local] Notation fail := (fail failure_text).
#[local] Notation db_call := (db_call failure_text).
#[local] Notation dispatch := (dispatch failure_text).
#[local] Notation serve_one := (serve_one failure_text).
#[local] Notation conn_loop := (conn_loop failure_text).

(** ** What a command may touch

    Input is only consumed; the server's configuration stays; the connection's
    state changes only to one that was granted. *)

Definition granted (a : authStore) (st st' : connState) : Prop :=
  st' = st \/ exists args r, check a args = inl r /\ st' = mkConnState true r.

Definition frame s s' : Prop :=
  (exists n, ss_in s' = advance n (ss_in s)) /\ granted (sv_auth (ss_srv s)) (ss_st s) (ss_st s')
  /\ sv_cfg (ss_srv s') = sv_cfg (ss_srv s) /\ sv_auth (ss_srv s') = sv_auth (ss_srv s)
  /\ sv_schema (ss_srv s') = sv_schema (ss_srv s) /\ sv_kinds (ss_srv s') = sv_kinds (ss_srv s).

Lemma advance_0 i : advance 0 i = i.
Proof. by destruct i. Qed.

Lemma advance_advance n m i : advance n (advance m i) = advance (m + n) i.
Proof. unfold advance. cbn. by rewrite drop_drop. Qed.

Lemma frame_refl s : frame s s.
Proof. split; [exists 0%nat; by rewrite advance_0|]. split; [by left|done]. Qed.

Lemma frame_same s s' n : ss_in s' = advance n (ss_in s) -> ss_st s' = ss_st s -> sv_cfg (ss_srv s') = sv_cfg (ss_srv s) ->
  sv_auth (ss_srv s') = sv_auth (ss_srv s) -> sv_schema (ss_srv s') = sv_schema (ss_srv s) ->
  sv_kinds (ss_srv s') = sv_kinds (ss_srv s) -> frame s s'.
Proof. intros. split; [eauto|]. split; [by left|done]. Qed.

Lemma frame_srv s v : sv_cfg v = sv_cfg (ss_srv s) -> sv_auth v = sv_auth (ss_srv s) -> sv_schema v = sv_schema (ss_srv s) ->
  sv_kinds v = sv_kinds (ss_srv s) -> frame s (set_srv v s).
Proof. intros. apply (frame_same _ _ 0); try done. cbn. by rewrite advance_0. Qed.

Lemma granted_trans a st1 st2 st3 : granted a st1 st2 -> granted a st2 st3 -> granted a st1 st3.
Proof. intros [-> | H1] [-> | H2]; unfold granted; eauto. Qed.

Lemma frame_trans s1 s2 s3 : frame s1 s2 -> frame s2 s3 -> frame s1 s3.
Proof.
  intros ([n H1] & G1 & C1 & A1 & S1 & K1) ([m H2] & G2 & C2 & A2 & S2 & K2).
  split; [exists (n + m)%nat; by rewrite H2, H1, advance_advance|]. split; [|split_and!; congruence].
  rewrite A1 in G2. by eapply granted_trans.
Qed.

(** One response on success, none on a fatal error; [P] describes it. *)
Definition answers (P : envelope -> Prop) (m : MS bool) : Prop := forall s r s', m s = (r, s') ->
  frame s s' /\ match r with
                | Ok _ => exists e, P e /\ ss_out s' = ss_out s ++ response_line e
                | Err _ => ss_out s' = ss_out s
                end.

(** A step that writes nothing. *)
Definition silent {A} (m : MS A) : Prop := forall s r s', m s = (r, s') -> frame s s' /\ ss_out s' = ss_out s.

Lemma net_write_silent : silent net_write.
Proof. intros s r s' [= <- <-]. split; [|done]. by apply frame_srv. Qed.

Lemma db_do_silent {A} (m : M DB A) : silent (db_do m).
Proof.
  intros s r s'. unfold db_do. destruct (m (ss_db s)) as [ra db].
  assert (Hf : frame s (set_srv (set_sv_db db (ss_srv s)) s)) by (by apply frame_srv).
  destruct ra as [a|e]; [by intros [= <- <-]|]. destruct e; by intros [= <- <-].
Qed.

Lemma readByte_advances i r i' : readByte i = (r, i') -> exists n, i' = advance n i.
Proof.
  unfold readByte. destruct (in_bytes i) eqn:Hb; intros [= <- <-]; [exists 0%nat; by rewrite advance_0|by exists 1%nat].
Qed.

Lemma readFull_advances n i r i' : readFull n i = (r, i') -> exists n, i' = advance n i.
Proof. unfold readFull. destruct (_ <=? _)%nat; intros [= <- <-]; eauto. Qed.

Lemma readData_advances n max i r i' : readData n max i = (r, i') -> exists n, i' = advance n i.
Proof.
  unfold readData. destruct ((n <? 0) || (max <? n)); [intros [= <- <-]; exists 0%nat; by rewrite advance_0|].
  unfold mbnd at 1. destruct (readFull n i) as [[buf|e] i1] eqn:H1; apply readFull_advances in H1 as [n1 ->];
    [|intros [= <- <-]; eauto].
  unfold mbnd at 1. destruct (readByte (advance n1 i)) as [[b|e] i2] eqn:H2; apply readByte_advances in H2 as [n2 ->];
    rewrite advance_advance; [|intros [= <- <-]; eauto].
  unfold mbnd. case_decide.
  - destruct (readByte (advance (n1 + n2) i)) as [[b'|e] i3] eqn:H3; apply readByte_advances in H3 as [n3 ->];
      rewrite advance_advance; [case_decide|]; intros [= <- <-]; eauto.
  - cbn [mok]. case_decide; intros [= <- <-]; eauto.
Qed.

Lemma read_data_silent n : silent (read_data n).
Proof.
  intros s r s'. unfold read_data. destruct (readData _ _ (ss_in s)) as [rd i] eqn:Hr. intros [= <- <-].
  apply readData_advances in Hr as [k ->]. split; [|done]. by apply (frame_same _ _ k).
Qed.

(** ** Combining answers *)

Lemma answers_silent {A} P (m : MS A) k : silent m -> (forall a, answers P (k a)) -> answers P (mbnd m k).
Proof.
  intros Hm Hk s r s'. unfold mbnd. destruct (m s) as [[a|e] s1] eqn:H1; destruct (Hm _ _ _ H1) as [F1 O1].
  - intros H2. destruct (Hk a _ _ _ H2) as [F2 O2]. rewrite O1 in O2. split; [by eapply frame_trans|done].
  - by intros [= <- <-].
Qed.

Lemma answers_get P (k : session -> MS bool) : (forall s, answers P (k s)) -> answers P (s <- mget ;; k s).
Proof. intros Hk s r s'. rewrite mget_bnd. apply Hk. Qed.

Lemma answers_then P (m : MS bool) b : answers P m -> answers P (m ;;; mok b).
Proof.
  intros Hm s r s'. unfold mbnd. destruct (m s) as [[a|e] s1] eqn:H1; destruct (Hm _ _ _ H1) as [F1 O1]; by intros [= <- <-].
Qed.

Lemma answers_send P e b : P e -> answers P (send e ;;; mok b).
Proof.
  intros HP s r s'. unfold send, mbnd. destruct (net_write s) as [[u|e'] s1] eqn:H1;
    destruct (net_write_silent _ _ _ H1) as [F1 O1]; cbn; intros [= <- <-]; [|done].
  split; [exact F1|]. exists e. split; [done|]. cbn. by rewrite O1.
Qed.

Lemma answers_modify P (f : session -> session) (k : MS bool) :
  (forall s, frame s (f s) /\ ss_out (f s) = ss_out s) -> answers P k -> answers P (mmodify f ;;; k).
Proof. intros Hf Hk. apply answers_silent; [|by intros _]. intros s r s' [= <- <-]. apply Hf. Qed.

(** ** Every command answers once *)

Definition answers1 (m : MS bool) : Prop := answers (fun e => env_ok e = true) m.

Lemma format_int_valid n : nums_valid (JNum (format_int n)) = true.
Proof. apply is_json_number_int. Qed.

Lemma fail_answers f : answers1 (fail f).
Proof. by apply answers_send. Qed.

Lemma ok_answers d : doc_ok d = true -> answers1 (ok d).
Proof. intros H. by apply answers_send. Qed.

Lemma found_answers b d : doc_ok d = true -> answers1 (found b d).
Proof. intros H. by apply answers_send. Qed.

Lemma db_call_answers {A} (m : M DB A) k : (forall a, answers1 (k a)) -> answers1 (db_call m k).
Proof. intros Hk. apply answers_silent; [apply db_do_silent|]. intros [a|e]; [apply Hk|apply fail_answers]. Qed.

Lemma read_data_answers n (k : gostring -> MS bool) : (forall x, answers1 (k x)) -> answers1 (x <- read_data n ;; k x).
Proof. apply answers_silent, read_data_silent. Qed.

Lemma sort_fields_ok (P : doc -> bool) (l : list (gostring * doc)) : forallb (fun kv => P (snd kv)) l = true ->
  forallb (fun kv => P (snd kv)) (sort_fields l) = true.
Proof.
  rewrite !forallb_forall. intros H x Hx. apply H. apply list_elem_of_In in Hx. apply list_elem_of_In.
  unfold sort_fields in Hx. by rewrite merge_sort_Permutation in Hx.
Qed.

Lemma doc_map_ok l : forallb (fun kv => doc_ok (snd kv)) l = true -> doc_ok (doc_map l) = true.
Proof. apply (sort_fields_ok doc_ok). Qed.

Lemma doc_keys_ok l : doc_ok (doc_keys l) = true.
Proof. cbn. induction l; done. Qed.

Lemma forallb_fmap_ok {A} (f : A -> doc) l : (forall x, doc_ok (f x) = true) -> doc_ok (DArr (f <$> l)) = true.
Proof. intros H. cbn. induction l as [|x l IH]; [done|]. cbn. by rewrite H, IH. Qed.

Lemma getm_entry_ok kv : doc_ok (getm_entry kv) = true.
Proof. apply doc_map_ok. cbn. destruct kv as [k [v|]]; cbn; [by rewrite jsonValue_ok|done]. Qed.

Lemma ixrec_ok l : doc_ok (DArr (omap ixrec_entry l)) = true.
Proof.
  cbn [doc_ok]. induction l as [|[k [x|]] l IH]; [done| |done]. cbn [omap list_omap ixrec_entry snd fst forallb].
  rewrite IH, andb_true_r. apply doc_map_ok. cbn [forallb snd]. by rewrite jsonValue_ok.
Qed.

Lemma hello_ok v b : doc_ok (hello_doc v b) = true.
Proof.
  apply doc_map_ok. destruct b; [|done]. cbn [app forallb snd doc_ok doc_str nums_valid andb]. rewrite andb_true_r.
  apply forallb_fmap_ok. intros x. by apply doc_map_ok.
Qed.

Lemma doc_int_ok n : doc_ok (doc_int n) = true.
Proof. apply format_int_valid. Qed.

Lemma count_relieve_frame s : frame s (count_relieve s) /\ ss_out (count_relieve s) = ss_out s.
Proof. split; [|done]. by apply frame_srv. Qed.

#[local] Hint Resolve fail_answers ok_answers found_answers db_call_answers read_data_answers doc_keys_ok getm_entry_ok
  ixrec_ok hello_ok doc_int_ok jsonValue_ok forallb_fmap_ok : answers.
#[local] Hint Extern 5 (doc_ok (doc_bool _) = true) => reflexivity : answers.
#[local] Hint Extern 5 (doc_ok (doc_str _) = true) => reflexivity : answers.
#[local] Hint Extern 5 (doc_ok jsonNull = true) => reflexivity : answers.

(** Splits the argument checks of a handler. *)
Ltac handler :=
  repeat lazymatch goal with
    | |- answers1 (Server.fail _ _) => apply fail_answers
    | |- answers1 (ok _) => apply ok_answers
    | |- answers1 (found _ _) => apply found_answers
    | |- answers1 (Server.db_call _ _ _) => apply db_call_answers; intros ?
    | |- answers1 (mbnd (read_data _) _) => apply read_data_answers; intros ?
    | |- answers1 (mbnd mget _) => apply answers_get; intros ?
    | |- answers1 (mbnd (mmodify _) _) => apply answers_modify; [intros ?; apply count_relieve_frame|]
    | |- answers1 (mbnd _ (fun _ => mok _)) => apply answers_then
    | |- answers1 (match ?x with _ => _ end) => destruct x
    | |- answers (fun e => env_ok e = true) ?m => change (answers1 m)
    end; auto with answers.

Lemma reads_answer args : answers1 (do_get failure_text args) /\ answers1 (do_getm failure_text args)
  /\ answers1 (do_has failure_text args) /\ answers1 (do_scan failure_text args).
Proof. split_and!; unfold do_get, do_getm, do_has, do_scan; handler. Qed.

Lemma index_reads_answer args : answers1 (do_ix failure_text args) /\ answers1 (do_ixh failure_text args)
  /\ answers1 (do_ixp failure_text args) /\ answers1 (do_ixr failure_text args) /\ answers1 (do_ixrec failure_text args).
Proof. split_and!; unfold do_ix, do_ixh, do_ixp, do_ixr, do_ixrec; handler. Qed.

Lemma puts_answer line args : answers1 (do_put failure_text line args) /\ answers1 (do_putex failure_text args)
  /\ answers1 (do_putx failure_text args).
Proof.
  split_and!; [|unfold do_putex; handler|unfold do_putx; handler].
  unfold do_put. destruct args as [|key [|a1 rest]]; handler. apply answers_silent; [|intros ?; handler].
  destruct (Atoi a1), rest; try apply read_data_silent; intros s r s' [= <- <-]; (split; [apply frame_refl|done]).
Qed.

Lemma updates_answer b args : answers1 (do_incr failure_text b args) /\ answers1 (do_topup failure_text b args)
  /\ answers1 (do_del failure_text args) /\ answers1 (do_rm failure_text b args).
Proof. split_and!; unfold do_incr, do_topup, do_del, do_rm; handler. Qed.

Lemma stats_answer : answers1 (do_stats failure_text).
Proof.
  unfold do_stats. handler. apply doc_map_ok. cbn [forallb snd]. rewrite !doc_int_ok. done.
Qed.

Lemma admin_answers : answers1 (do_compact failure_text) /\ answers1 (do_reindex failure_text) /\ answers1 (do_relieve failure_text).
Proof. split_and!; unfold do_compact, do_reindex, do_relieve, admin_only; handler. Qed.

Lemma auth_answers args : answers1 (do_auth failure_text args).
Proof.
  intros s r s'. unfold do_auth. rewrite mget_bnd. destruct (check _ args) as [rl|f] eqn:Hc; [|apply fail_answers].
  unfold mmodify. unfold mbnd at 1. intros H. apply (ok_answers (doc_bool true) eq_refl) in H as [F O]. split; [|done].
  eapply frame_trans; [|exact F]. split; [exists 0%nat; cbn; by rewrite advance_0|]. split; [|done]. right. cbn. eauto.
Qed.

Lemma dispatch_answers line : answers1 (dispatch line).
Proof.
  unfold dispatch. destruct (splitCommand line) as [cmd args].
  destruct (reads_answer args) as (? & ? & ? & ?). destruct (index_reads_answer args) as (? & ? & ? & ? & ?).
  destruct (puts_answer line args) as (? & ? & ?). destruct (updates_answer false args) as (? & ? & ? & ?).
  destruct (updates_answer true args) as (? & ? & ? & ?). destruct admin_answers as (? & ? & ?). pose proof stats_answer. pose proof (auth_answers args).
  assert (Hrun : forall c, answers1 (s <- mget ;; match requireAuth (ss_st s) with
      | Some f => fail f | None => run_authed failure_text c cmd line args end)).
  { intros c. apply answers_get. intros s. destruct (requireAuth _); [apply fail_answers|].
    destruct c as [[]|]; cbn [run_authed]; try done; unfold do_dropped, do_prospective; handler. }
  destruct (command_of cmd) as [[]|]; try apply Hrun; try done; unfold do_quit, do_hello; handler.
Qed.

(** ** One turn of the loop *)

Lemma readLine_advances max i r i' : readLine max i = (r, i') ->
  exists n, i' = advance n i /\ match r with Ok _ => (0 < n <= length (in_bytes i))%nat | Err _ => True end.
Proof.
  unfold readLine. destruct (cut_line _) as [[l rest]|] eqn:Hc.
  - intros [= <- <-]. eexists. split; [done|]. apply cut_line_Some in Hc as [Hc _]. apply (f_equal length) in Hc.
    rewrite length_take, length_app in Hc. cbn in Hc. lia.
  - destruct (_ <=? _)%nat; intros [= <- <-]; eauto.
Qed.

Lemma length_advance n i : length (in_bytes (advance n i)) = (length (in_bytes i) - n)%nat.
Proof. unfold advance. cbn. by rewrite length_drop. Qed.

(** The lines sent for a list of responses. *)
Definition sent (es : list envelope) : gostring := concat (response_line <$> es).

Lemma sent_app es1 es2 : sent (es1 ++ es2) = sent es1 ++ sent es2.
Proof. unfold sent. by rewrite fmap_app, concat_app. Qed.

(** The responses between two states. *)
Definition responds (es : list envelope) s s' : Prop :=
  frame s s' /\ Forall (fun e => env_ok e = true) es /\ ss_out s' = ss_out s ++ sent es.

Lemma responds_trans es1 es2 s1 s2 s3 : responds es1 s1 s2 -> responds es2 s2 s3 -> responds (es1 ++ es2) s1 s3.
Proof.
  intros (F1 & P1 & O1) (F2 & P2 & O2). split_and!; [by eapply frame_trans|by apply Forall_app|].
  by rewrite O2, O1, sent_app, app_assoc.
Qed.

Lemma responds_nil s s' : frame s s' -> ss_out s' = ss_out s -> responds [] s s'.
Proof. intros HF HO. split_and!; [done|done|]. by rewrite app_nil_r. Qed.

Lemma answers_responds m s r s' : answers1 m -> m s = (r, s') ->
  exists es, responds es s s' /\ length es = (if is_ok r then 1 else 0)%nat.
Proof.
  intros Hm H. destruct (Hm _ _ _ H) as [HF HO]. destruct r as [b|e].
  - destruct HO as (e & He & HO). exists [e]. split; [|done]. split_and!; [done|by repeat constructor|].
    by rewrite HO; unfold sent; cbn; rewrite app_nil_r.
  - exists []. split; [|done]. by apply responds_nil.
Qed.

Lemma frame_in n s : frame s (set_in (advance n (ss_in s)) s).
Proof. by apply (frame_same _ _ n). Qed.

Lemma frame_count s : frame s (count_command s).
Proof. by apply frame_srv. Qed.

(** Reporting an error before giving the connection up. *)
Lemma give_up_responds f s : exists es s', (mtry (fail f) ;;; mtry net_write ;;; mok false) s = (Ok false, s')
  /\ responds es s s' /\ (length es <= 1)%nat /\ (no_faults E -> length es = 1%nat).
Proof.
  destruct (fail f s) as [r1 s1] eqn:H1. destruct (net_write s1) as [r2 s2] eqn:H2.
  exists (match fail f s with (Ok _, _) => [fail_env (failure_text f)] | _ => [] end), s2.
  destruct (net_write_silent _ _ _ H2) as [F2 O2]. unfold mbnd, mtry. rewrite H1, H2. split; [done|].
  destruct (answers_responds _ _ _ _ (fail_answers f) H1) as (es & (F1 & _ & O1) & _).
  assert (Hs : r1 = (if env_fs (db_tick (ss_db s)) then Err ENet else Ok false)
    /\ ss_out s1 = ss_out s ++ (if env_fs (db_tick (ss_db s)) then [] else response_line (fail_env (failure_text f)))).
  { revert H1. unfold Server.fail, send, net_write, mbnd, mmodify, mok. destruct (env_fs _); intros [= <- <-]; [|done].
    by rewrite app_nil_r. }
  destruct Hs as [-> Hs]. destruct (env_fs (db_tick (ss_db s))) eqn:He.
  - split_and!; [split_and!; [by eapply frame_trans|done|by rewrite O2, Hs]|cbn; lia|]. intros (_ & _ & Hfs). by rewrite Hfs in He.
  - split_and!; [split_and!; [by eapply frame_trans|by repeat constructor|]|cbn; lia|done].
    rewrite O2, Hs. unfold sent. cbn. by rewrite app_nil_r.
Qed.

(** What one turn does: it ends in one of three ways, answers at most once and
    exactly once to a command, and consumes input when there is more to come. *)
Record turn s (r : res bool) s' : Prop := {
  turn_result : r = Ok true \/ r = Ok false \/ r = Err EPanic;
  turn_progress : r = Ok true -> (length (in_bytes (ss_in s')) < length (in_bytes (ss_in s)))%nat;
  turn_responds : exists es, responds es s s' /\ (length es <= 1)%nat
    /\ (no_faults E -> r <> Err EPanic -> forall b l i, readLine (cfg_MaxLine (sv_cfg (ss_srv s))) (ss_in s) = (Ok (b :: l), i) ->
        length es = 1%nat)
}.

(** A command line, once it is read. *)
Lemma command_turn line s r s' : serve_line failure_text line s = (r, s') ->
  (r = Ok true \/ r = Ok false \/ r = Err EPanic)
  /\ exists es, responds es s s' /\ (length es <= 1)%nat /\ (no_faults E -> r <> Err EPanic -> length es = 1%nat).
Proof.
  rewrite serve_line_run. set (s0 := count_command s).
  destruct (dispatch line s0) as [q s1] eqn:Hd.
  destruct (answers_responds _ _ _ _ (dispatch_answers line) Hd) as (es1 & (F1 & P1 & O1) & Hlen).
  assert (R1 : responds es1 s s1) by (split_and!; [eapply frame_trans; [apply frame_count|done]|done|done]).
  unfold after_dispatch. destruct q as [quit|e]; cbn [is_ok] in Hlen.
  - unfold mbnd, mtry. destruct (net_write s1) as [w s2] eqn:H2. destruct (net_write_silent _ _ _ H2) as [F2 O2].
    intros H. assert (s' = s2 /\ (r = Ok true \/ r = Ok false)) as [-> Hr].
    { destruct w; cbn in H; [|by injection H as <- <-; auto]. destruct quit; injection H as <- <-; auto. }
    split; [tauto|]. exists es1. split_and!; [|lia|by intros; lia].
    rewrite <- (app_nil_r es1). eapply responds_trans; [exact R1|by apply responds_nil].
  - destruct es1; [|done]. intros H. destruct (give_up_responds (FErr e) s1) as (es & s2 & Hg & R2 & Hle & Hone).
    assert (Hcase : (e = EPanic /\ r = Err EPanic /\ s' = s1) \/ (r = Ok false /\ s' = s2)).
    { destruct e; try (rewrite Hg in H; injection H as <- <-; by right). left. by injection H as <- <-. }
    destruct Hcase as [(-> & -> & ->)|[-> ->]].
    + split; [tauto|]. exists []. split_and!; [done|cbn; lia|done].
    + split; [tauto|]. exists es. split_and!; [by apply (responds_trans [] es s s1)|done|auto].
Qed.

Lemma serve_one_turn s r s' : serve_one s = (r, s') -> turn s r s'.
Proof.
  unfold Server.serve_one. destruct (readLine _ (ss_in s)) as [rl i] eqn:Hrl.
  destruct (readLine_advances _ _ _ _ Hrl) as (n & -> & Hn). pose proof (frame_in n s) as HF. set (s0 := set_in _ s) in *.
  destruct rl as [[|b l]|e].
  - intros [= <- <-]. split; [auto|intros _; cbn; rewrite length_drop; lia|].
    exists []. split_and!; [by apply responds_nil|cbn; lia|congruence].
  - intros H. destruct (command_turn _ _ _ _ H) as (Hr & es & R & Hle & Hone). split; [done| |].
    + intros _. destruct R as [([m ->] & _) _]. unfold s0. cbn [ss_in set_in]. rewrite !length_advance. lia.
    + exists es. split_and!; [|done|auto]. destruct R as (F & P & O). split_and!; [by eapply frame_trans|done|done].
  - destruct (give_up_responds (FLineTooLong (cfg_MaxLine (sv_cfg (ss_srv s)))) s0) as (es & s2 & Hg & (F2 & P2 & O2) & Hle & Hone).
    intros H. assert (Hcase : (r = Ok false /\ s' = s2) \/ (r = Ok false /\ s' = s0)).
    { destruct e; try (injection H as <- <-; by right). left. rewrite Hg in H. by injection H as <- <-. }
    destruct Hcase as [[-> ->]|[-> ->]]; (split; [auto|done|]).
    + exists es. split_and!; [split_and!; [by eapply frame_trans|done|done]|done|congruence].
    + exists []. split_and!; [by apply responds_nil|cbn; lia|congruence].
Qed.

Lemma conn_loop_run f : forall s r s', (length (in_bytes (ss_in s)) < f)%nat -> conn_loop f s = (r, s') ->
  (r = Ok tt \/ r = Err EPanic) /\ exists es, responds es s s' /\ (length es <= f)%nat.
Proof.
  induction f as [|f IH]; intros s r s' Hf; [lia|]. cbn [Server.conn_loop]. unfold mbnd.
  destruct (serve_one s) as [r1 s1] eqn:H1. destruct (serve_one_turn _ _ _ H1) as [Hres Hprog (es1 & R1 & L1 & _)].
  destruct Hres as [-> | [-> | ->]].
  - intros H. destruct (IH s1 r s' ltac:(specialize (Hprog eq_refl); lia) H) as (Hr & es2 & R2 & L2). split; [done|].
    exists (es1 ++ es2). split; [by eapply responds_trans|]. rewrite length_app. lia.
  - intros [= <- <-]. split; [auto|]. exists es1. split; [done|lia].
  - intros [= <- <-]. split; [auto|]. exists es1. split; [done|lia].
Qed.

(** C32. Every connection ends: whatever its peer sends, the loop stops within
    one turn per input byte, normally or because the store panicked.  What the
    client received is a sequence of responses, each of them one line without
    control characters. *)
Theorem connection_terminates i v :
  ((handleConn failure_text i v).1 = Ok tt \/ (handleConn failure_text i v).1 = Err EPanic)
  /\ exists es, (handleConn failure_text i v).2.2 = sent es /\ (length es <= S (length (in_bytes i)))%nat
    /\ Forall (fun e => no_ctl (dprint (envelope_doc e)) = true) es.
Proof.
  unfold handleConn. destruct (conn_loop _ (open_session i v)) as [r s'] eqn:H. cbn [fst snd].
  apply conn_loop_run in H as (Hr & es & (F & P & O) & Hle); [|cbn; lia]. split; [done|]. exists es.
  split_and!; [done|done|]. eapply Forall_impl; [exact P|]. intros e He. by apply dprint_line, envelope_ok.
Qed.

(** One response per command: when the network and the file system do not
    fail, a turn that reads a command line writes exactly one response line,
    unless the store panics. *)
Theorem one_response_per_command s b l i r s' :
  no_faults E -> readLine (cfg_MaxLine (sv_cfg (ss_srv s))) (ss_in s) = (Ok (b :: l), i) ->
  serve_one s = (r, s') -> r <> Err EPanic ->
  exists e, ss_out s' = ss_out s ++ response_line e /\ no_ctl (dprint (envelope_doc e)) = true.
Proof.
  intros Hnf Hrl H Hr. destruct (serve_one_turn _ _ _ H) as [_ _ (es & (F & P & O) & _ & Hone)].
  specialize (Hone Hnf Hr b l i Hrl). destruct es as [|e [|]]; try done. exists e.
  split; [rewrite O; unfold sent; cbn; by rewrite app_nil_r|]. apply Forall_cons in P as [He _]. by apply dprint_line, envelope_ok.
Qed.
End proofs.
