(* ===== verification/AuthProofs.v ===== *)
(** * Connections without credentials, and without the admin role *)

From S2P Require Import Prelude Floats Types Json Record BTree PkIndex SecIndex Hint Store Invariant Ops Compact Text Proto Embed Auth ServerSchema Server ServerProofs.
#[local] Open Scope Z_scope.

Section auth.
Context {BT : BTreeG} {E : Env} (failure_text : failure -> gostring).
Implicit Types (s : session) (v : Server).
#[local] Notation MS := (M session).
#[local] Notation dispatch := (dispatch failure_text).
#[local] Notation serve_one := (serve_one failure_text).
#[local] Notation conn_loop := (conn_loop failure_text).

(** ** The store is not touched

    The step counter of the environment advances with every write to the
    network; nothing else of the store changes. *)
Definition untouched (db db' : DB) : Prop := exists t, db' = set_tick t db.

Lemma untouched_refl db : untouched db db.
Proof. exists (db_tick db). by destruct db. Qed.

Lemma untouched_trans db1 db2 db3 : untouched db1 db2 -> untouched db2 db3 -> untouched db1 db3.
Proof. intros [t1 ->] [t2 ->]. by exists t2. Qed.

(** Commands that only write to the connection. *)
Definition quiet_cmd {A} (m : MS A) : Prop := forall s r s', m s = (r, s') -> untouched (ss_db s) (ss_db s').

Lemma net_write_quiet : quiet_cmd net_write.
Proof. intros s r s' [= <- <-]. by eexists. Qed.

Lemma quiet_bnd {A B} (m : MS A) (k : A -> MS B) : quiet_cmd m -> (forall a, quiet_cmd (k a)) -> quiet_cmd (mbnd m k).
Proof.
  intros Hm Hk s r s'. unfold mbnd. destruct (m s) as [[a|e] s1] eqn:H1; pose proof (Hm _ _ _ H1) as U1.
  - intros H2. eapply untouched_trans; [done|]. by eapply Hk.
  - by intros [= <- <-].
Qed.

Lemma quiet_modify f : (forall s, ss_db (f s) = ss_db s) -> quiet_cmd (mmodify f).
Proof. intros Hf s r s' [= <- <-]. rewrite Hf. apply untouched_refl. Qed.

Lemma quiet_ok {A} (a : A) : quiet_cmd (mok a).
Proof. intros s r s' [= <- <-]. apply untouched_refl. Qed.

Lemma send_quiet e : quiet_cmd (send e).
Proof. apply quiet_bnd; [apply net_write_quiet|]. intros _. by apply quiet_modify. Qed.

Lemma reply_quiet e (b : bool) : quiet_cmd (send e ;;; mok b).
Proof. apply quiet_bnd; [apply send_quiet|]. intros _. apply quiet_ok. Qed.

Lemma quiet_try {A} (m : MS A) : quiet_cmd m -> quiet_cmd (mtry m).
Proof. intros Hm s r s'. unfold mtry. destruct (m s) as [r1 s1] eqn:H1. intros [= <- <-]. by eapply Hm. Qed.

(** Before authentication a command is answered without the store: it is one
    of three, or it is refused. *)
Definition early_reply (line : gostring) : MS bool :=
  let '(cmd, args) := splitCommand line in
  match command_of cmd with
  | Some CQuit => do_quit
  | Some CHello => do_hello
  | Some CAuth => do_auth failure_text args
  | _ => fail failure_text FAuthRequired
  end.

Lemma unauth_dispatch line s : st_authed (ss_st s) = false -> dispatch line s = early_reply line s.
Proof.
  intros Hst. unfold Server.dispatch, early_reply, requireAuth. destruct (splitCommand line) as [cmd args].
  destruct (command_of cmd) as [[]|]; try done; rewrite mget_bnd; by rewrite Hst.
Qed.

Lemma early_quiet line : quiet_cmd (early_reply line).
Proof.
  unfold early_reply. destruct (splitCommand line) as [cmd args].
  destruct (command_of cmd) as [[]|]; try lazymatch goal with |- quiet_cmd (fail _ _) => apply reply_quiet end.
  - apply quiet_bnd; [apply reply_quiet|]. intros _. apply quiet_ok.
  - intros s r s'. unfold do_hello. rewrite mget_bnd. apply reply_quiet.
  - intros s r s'. unfold do_auth. rewrite mget_bnd. destruct (check _ args); [|apply reply_quiet].
    apply (quiet_bnd (mmodify _)); [by apply quiet_modify|]. intros _. apply reply_quiet.
Qed.

Lemma serve_quiet s r s' : st_authed (ss_st s) = false -> serve_one s = (r, s') -> untouched (ss_db s) (ss_db s').
Proof.
  intros Hst. unfold Server.serve_one. destruct (readLine _ (ss_in s)) as [rl i].
  assert (Hgive : forall f, quiet_cmd (mtry (fail failure_text f) ;;; mtry net_write ;;; mok false)).
  { intros f. apply quiet_bnd; [apply quiet_try, reply_quiet|]. intros _. apply quiet_bnd; [apply quiet_try, net_write_quiet|].
    intros _. apply quiet_ok. }
  destruct rl as [[|b l]|e].
  - intros [= <- <-]. apply untouched_refl.
  - rewrite serve_line_run, unauth_dispatch by done.
    destruct (early_reply (b :: l) _) as [q s1] eqn:Hd. apply early_quiet in Hd. intros H.
    eapply untouched_trans; [exact Hd|]. unfold after_dispatch in H. destruct q as [quit|e].
    + revert H. apply quiet_bnd; [apply quiet_try, net_write_quiet|]. intros []; apply quiet_ok.
    + destruct e; revert H; first [apply Hgive|intros [= <- <-]; apply untouched_refl].
  - destruct e; first [apply Hgive|intros [= <- <-]; apply untouched_refl].
Qed.

(** Authentication is never lost, and only granted. *)
Lemma serve_granted s r s' : serve_one s = (r, s') ->
  granted (sv_auth (ss_srv s)) (ss_st s) (ss_st s') /\ sv_auth (ss_srv s') = sv_auth (ss_srv s) /\ sv_cfg (ss_srv s') = sv_cfg (ss_srv s).
Proof.
  intros H. destruct (serve_one_turn _ _ _ _ H) as [_ _ (es & ((_ & G & C & A & _) & _) & _)]. done.
Qed.

Lemma granted_authed a st st' : granted a st st' -> st_authed st = true -> st_authed st' = true.
Proof. by intros [-> | (args & r & _ & ->)]. Qed.

Lemma conn_granted f : forall s r s', conn_loop f s = (r, s') -> granted (sv_auth (ss_srv s)) (ss_st s) (ss_st s').
Proof.
  induction f as [|f IH]; intros s r s'; cbn [Server.conn_loop]; [intros [= <- <-]; by left|]. unfold mbnd.
  destruct (serve_one s) as [[more|e] s1] eqn:H1; destruct (serve_granted _ _ _ H1) as (G1 & A1 & _).
  - destruct more; [|by intros [= <- <-]]. intros H. apply IH in H. rewrite A1 in H. by eapply granted_trans.
  - by intros [= <- <-].
Qed.

Lemma conn_unauth f : forall s r s', conn_loop f s = (r, s') -> st_authed (ss_st s') = false -> untouched (ss_db s) (ss_db s').
Proof.
  induction f as [|f IH]; intros s r s'; cbn [Server.conn_loop]; [intros [= <- <-] _; apply untouched_refl|]. intros Hrun Hst.
  assert (Hst0 : st_authed (ss_st s) = false).
  { destruct (st_authed (ss_st s)) eqn:Ha; [|done]. pose proof (conn_granted (S f) _ _ _ Hrun) as G.
    by rewrite (granted_authed _ _ _ G Ha) in Hst. }
  revert Hrun. unfold mbnd. destruct (serve_one s) as [[more|e] s1] eqn:H1; pose proof (serve_quiet _ _ _ Hst0 H1) as U1.
  - destruct more; [|by intros [= <- <-]]. intros H. eapply untouched_trans; [done|]. by eapply IH.
  - by intros [= <- <-].
Qed.

(** ** Nothing about the store is revealed

    Two sessions that agree on all but the store, the schema and the counters
    cannot be told apart before authentication. *)
Definition blind s1 s2 : Prop :=
  ss_in s1 = ss_in s2 /\ ss_st s1 = ss_st s2 /\ ss_out s1 = ss_out s2
  /\ sv_cfg (ss_srv s1) = sv_cfg (ss_srv s2) /\ sv_auth (ss_srv s1) = sv_auth (ss_srv s2).

Definition blinded {A} (m : MS A) : Prop := forall s1 s2, blind s1 s2 ->
  exists r s1' s2', m s1 = (r, s1') /\ m s2 = (r, s2') /\ blind s1' s2'.

Lemma blinded_ok {A} (a : A) : blinded (mok a).
Proof. intros s1 s2 B. by exists (Ok a), s1, s2. Qed.

Lemma blinded_err {A} e : blinded (merr e : MS A).
Proof. intros s1 s2 B. by exists (Err e), s1, s2. Qed.

Lemma blinded_bnd {A B} (m : MS A) (k : A -> MS B) : blinded m -> (forall a, blinded (k a)) -> blinded (mbnd m k).
Proof.
  intros Hm Hk s1 s2 Bl. destruct (Hm _ _ Bl) as (r & s1' & s2' & H1 & H2 & Bl'). unfold mbnd. rewrite H1, H2.
  destruct r as [a|e]; [by apply Hk|]. by exists (Err e), s1', s2'.
Qed.

Lemma blinded_try {A} (m : MS A) : blinded m -> blinded (mtry m).
Proof.
  intros Hm s1 s2 Bl. destruct (Hm _ _ Bl) as (r & s1' & s2' & H1 & H2 & Bl'). unfold mtry. rewrite H1, H2.
  by exists (Ok r), s1', s2'.
Qed.

Lemma blinded_modify f : (forall s1 s2, blind s1 s2 -> blind (f s1) (f s2)) -> blinded (mmodify f).
Proof. intros Hf s1 s2 Bl. exists (Ok tt), (f s1), (f s2). split_and!; [done..|]. by apply Hf. Qed.

Lemma blinded_net : no_faults E -> blinded net_write.
Proof.
  intros (_ & _ & Hfs) s1 s2 Bl. unfold net_write. rewrite !Hfs. eexists (Ok tt), _, _. split_and!; [done..|]. exact Bl.
Qed.

Lemma blinded_reply e (b : bool) : no_faults E -> blinded (send e ;;; mok b).
Proof.
  intros Hnf. apply blinded_bnd; [|intros _; apply blinded_ok]. apply blinded_bnd; [by apply blinded_net|]. intros _.
  apply blinded_modify. intros s1 s2 (I & S & O & C & A). split_and!; cbn; congruence.
Qed.

Lemma blinded_early line s1 s2 : no_faults E -> blind s1 s2 -> st_authed (ss_st s1) = false ->
  exists r s1' s2', early_reply line s1 = (r, s1') /\ early_reply line s2 = (r, s2') /\ blind s1' s2'.
Proof.
  intros Hnf Bl Hst. unfold early_reply. destruct (splitCommand line) as [cmd args]. pose proof Bl as (I & S & O & C & A).
  destruct (command_of cmd) as [[]|];
    try lazymatch goal with |- context [fail _ FAuthRequired] => by apply blinded_reply end.
  - apply blinded_bnd; [by apply blinded_reply|intros _; apply blinded_ok|done].
  - unfold do_hello. rewrite !mget_bnd.
    assert (hello_doc (ss_srv s2) (st_authed (ss_st s2)) = hello_doc (ss_srv s1) (st_authed (ss_st s1))) as ->.
    { rewrite <- S, Hst. unfold hello_doc. by rewrite A. }
    by apply blinded_reply.
  - unfold do_auth. rewrite !mget_bnd, <- A. destruct (check (sv_auth (ss_srv s1)) args) as [rl|f]; [|by apply blinded_reply].
    apply (blinded_bnd (mmodify _)); [|intros _; by apply blinded_reply|done].
    apply blinded_modify. intros ? ? (I' & S' & O' & C' & A'). by split_and!.
Qed.

Lemma blinded_give_up f : no_faults E -> blinded (mtry (fail failure_text f) ;;; mtry net_write ;;; mok false).
Proof.
  intros Hnf. apply blinded_bnd; [by apply blinded_try, blinded_reply|]. intros _.
  apply blinded_bnd; [by apply blinded_try, blinded_net|]. intros _. apply blinded_ok.
Qed.

Lemma blinded_serve s1 s2 : no_faults E -> blind s1 s2 -> st_authed (ss_st s1) = false ->
  exists r s1' s2', serve_one s1 = (r, s1') /\ serve_one s2 = (r, s2') /\ blind s1' s2'.
Proof.
  intros Hnf Bl Hst. pose proof Bl as (I & S & O & C & A). unfold Server.serve_one. rewrite <- C, <- I.
  destruct (readLine _ (ss_in s1)) as [rl i]. assert (Bl0 : blind (set_in i s1) (set_in i s2)) by (by split_and!).
  destruct rl as [[|b l]|e].
  - by exists (Ok true), (set_in i s1), (set_in i s2).
  - rewrite !serve_line_run, !unauth_dispatch by (cbn; congruence).
    destruct (blinded_early (b :: l) (count_command (set_in i s1)) (count_command (set_in i s2)) Hnf) as (q & t1 & t2 & -> & -> & Bl1);
      [exact Bl0|done|]. unfold after_dispatch. destruct q as [quit|e].
    + apply blinded_bnd; [by apply blinded_try, blinded_net| |done]. intros []; apply blinded_ok.
    + destruct e; first [by apply blinded_give_up|by apply (blinded_err EPanic)].
  - destruct e; first [by apply blinded_give_up|by exists (Ok false), (set_in i s1), (set_in i s2)].
Qed.

Lemma blinded_loop f : forall s1 s2 r s1', no_faults E -> blind s1 s2 -> conn_loop f s1 = (r, s1') -> st_authed (ss_st s1') = false ->
  exists s2', conn_loop f s2 = (r, s2') /\ blind s1' s2'.
Proof.
  induction f as [|f IH]; intros s1 s2 r s1' Hnf Bl; cbn [Server.conn_loop]; [intros [= <- <-] _; by exists s2|]. intros Hrun Hst.
  assert (Hst0 : st_authed (ss_st s1) = false).
  { destruct (st_authed (ss_st s1)) eqn:Ha; [|done]. pose proof (conn_granted (S f) _ _ _ Hrun) as G.
    by rewrite (granted_authed _ _ _ G Ha) in Hst. }
  destruct (blinded_serve s1 s2 Hnf Bl Hst0) as (r1 & t1 & t2 & H1 & H2 & Bl1). revert Hrun. unfold mbnd. rewrite H1, H2.
  destruct r1 as [[]|e]; [intros H; by eapply (IH t1)|..]; intros [= <- <-]; by exists t2.
Qed.

(** C26. A connection that has not authenticated cannot touch or observe the
    store: if it ends unauthenticated, the store is exactly what it was, and
    the bytes the client received are the same for every other store and
    schema behind the same configuration.  And a connection is authenticated
    only with a role that the credential check granted. *)
Theorem unauth_isolated i v r s :
  required (sv_auth v) = true -> conn_loop (S (length (in_bytes i))) (open_session i v) = (r, s) ->
  if st_authed (ss_st s) then exists args, check (sv_auth v) args = inl (st_role (ss_st s))
  else untouched (sv_db v) (ss_db s)
       /\ (no_faults E -> forall v2, sv_cfg v2 = sv_cfg v -> sv_auth v2 = sv_auth v ->
            (handleConn failure_text i v2).1 = r /\ (handleConn failure_text i v2).2.2 = ss_out s).
Proof.
  intros Hreq H. destruct (st_authed (ss_st s)) eqn:Hst.
  - apply conn_granted in H. cbn in H. unfold initial_state in H. rewrite Hreq in H.
    destruct H as [H|(args & rl & Hc & ->)]; [by rewrite H in Hst|]. by exists args.
  - split; [exact (conn_unauth _ _ _ _ H Hst)|]. intros Hnf v2 Hcfg Hauth.
    assert (Bl : blind (open_session i v) (open_session i v2)) by (split_and!; cbn; congruence).
    destruct (blinded_loop _ _ _ _ _ Hnf Bl H Hst)
      as (s2 & H2 & (_ & _ & Ho & _)). unfold handleConn. rewrite H2. by split.
Qed.

(** ** The admin role *)

Definition needs_admin (c : option command) : bool :=
  match c with Some (CCompact | CReindex | CRelieve) => true | _ => false end.

(** C38. The rewriting commands are refused to a connection that is not an
    administrator, whatever their arguments: the answer is a permission
    failure (or the demand to authenticate), the store is not touched, and no
    input is consumed. *)
Theorem admin_required line s cmd args :
  splitCommand line = (cmd, args) -> needs_admin (command_of cmd) = true ->
  ss_st s <> mkConnState true roleAdmin ->
  exists f, dispatch line s = fail failure_text f s
    /\ (f = FAuthRequired \/ exists name, f = FPermission name)
    /\ forall r s', dispatch line s = (r, s') -> untouched (ss_db s) (ss_db s') /\ ss_in s' = ss_in s /\ ss_st s' = ss_st s.
Proof.
  intros Hsp Hn Hst.
  assert (Hf : exists f, dispatch line s = fail failure_text f s /\ (f = FAuthRequired \/ exists name, f = FPermission name)).
  { unfold Server.dispatch. rewrite Hsp. destruct (ss_st s) as [authed rl] eqn:Hss. destruct authed, rl; try done.
    - destruct (command_of cmd) as [[]|]; try done; rewrite mget_bnd; rewrite Hss; cbn [requireAuth st_authed run_authed];
        unfold do_compact, do_reindex, do_relieve, admin_only; rewrite mget_bnd, Hss; eauto.
    - exists FAuthRequired. split; [|by left]. destruct (command_of cmd) as [[]|]; try done; rewrite mget_bnd; by rewrite Hss.
    - exists FAuthRequired. split; [|by left]. destruct (command_of cmd) as [[]|]; try done; rewrite mget_bnd; by rewrite Hss. }
  destruct Hf as (f & Hf & Hshape). exists f. split_and!; [done|done|]. intros r s'. rewrite Hf. intros H. split.
  - by eapply (reply_quiet _ _ _ _ _ H).
  - revert H. unfold fail, send, net_write, mbnd, mmodify, mok. destruct (env_fs _); by intros [= <- <-].
Qed.
End auth.
