(* ===== verification/Framing.v ===== *)
(** * Framed requests: what a client sends is what the store is given *)

From S2P Require Import Prelude Floats Types Json Base64 Record BTree PkIndex SecIndex Hint Store Invariant Ops Compact Text Proto Embed Auth ServerSchema Server ServerProofs AuthProofs.
#[local] Open Scope Z_scope.

(** ** Requests as a client prints them *)

Definition is_token (t : gostring) : Prop := t <> [] /\ forallb token_byte t = true.

Fixpoint spaced (toks : list gostring) : gostring :=
  match toks with
  | [] => []
  | [t] => t
  | t :: ts => t ++ Byte.x20 :: spaced ts
  end.

Definition block (data : gostring) : gostring := data ++ [Byte.x0a].

Lemma Fields_spaced toks : Forall is_token toks -> Fields (spaced toks) = toks.
Proof.
  induction 1 as [|t ts [Hne Ht] HF IH]; [done|]. destruct ts as [|t2 ts]; [by apply Fields_last|].
  cbn [spaced] in *. rewrite Fields_cons by done. by rewrite IH.
Qed.

Lemma split_spaced cmd args : is_token cmd -> Forall is_token args -> splitCommand (spaced (cmd :: args)) = (ToLower cmd, args).
Proof. intros Hc Ha. unfold splitCommand. by rewrite Fields_spaced by (by constructor). Qed.

Lemma token_no_ctl t : forallb token_byte t = true -> no_ctl t = true.
Proof.
  unfold no_ctl. rewrite !forallb_forall. intros H b Hb. specialize (H b Hb). unfold token_byte in H. lia.
Qed.

Lemma spaced_no_ctl toks : Forall is_token toks -> no_ctl (spaced toks) = true.
Proof.
  induction 1 as [|t ts [Hne Ht] HF IH]; [done|]. destruct ts as [|t2 ts]; [by apply token_no_ctl|].
  cbn [spaced] in *. rewrite no_ctl_app, no_ctl_cons, IH, token_no_ctl by done. done.
Qed.

Lemma format_int_token n : 0 <= n -> is_token (format_int n).
Proof.
  intros Hn. unfold is_token, format_int. rewrite (proj2 (Z.ltb_ge n 0)) by lia.
  destruct (nat_dec_spec n) as (b & ds & -> & Hds & _); [lia|]. split; [done|]. rewrite !forallb_forall in *.
  intros x Hx. specialize (Hds x Hx). unfold is_digit in Hds. unfold token_byte. lia.
Qed.

(** ** Reading them *)

Lemma readLine_line max line body e : no_ctl line = true -> zlen line < bufSize max ->
  readLine max (mkStream (line ++ Byte.x0a :: body) e) = (Ok line, mkStream body e).
Proof.
  intros Hn Hl. unfold readLine. cbn [in_bytes].
  assert (Hnl : Byte.x0a ∉ line).
  { intros Hin. unfold no_ctl in Hn. rewrite forallb_forall in Hn. by specialize (Hn _ (proj1 (list_elem_of_In _ _) Hin)). }
  assert (Ht : take (Z.to_nat (bufSize max)) (line ++ Byte.x0a :: body) =
    line ++ Byte.x0a :: take (Z.to_nat (bufSize max) - length line - 1) body).
  { unfold zlen in Hl. rewrite take_app_ge by lia. f_equal.
    destruct (Z.to_nat (bufSize max) - length line)%nat as [|n] eqn:Hk; [lia|]. cbn [take]. f_equal. f_equal. lia. }
  rewrite Ht, cut_line_app by done. rewrite drop_cr_text by done. unfold advance. cbn [in_bytes in_end].
  rewrite (cons_middle Byte.x0a line body), app_assoc. rewrite drop_app_length' by (rewrite length_app; cbn; lia). done.
Qed.

Lemma readData_block data max body e : zlen data <= max ->
  readData (zlen data) max (mkStream (block data ++ body) e) = (Ok data, mkStream body e).
Proof.
  intros Hl. unfold readData, block. pose proof (zlen_nonneg data).
  rewrite (proj2 (Z.ltb_ge _ _)), (proj2 (Z.ltb_ge max _)) by lia. cbn [orb]. unfold mbnd at 1, readFull. cbn [in_bytes].
  unfold zlen. rewrite Nat2Z.id, <- app_assoc. rewrite (proj2 (Nat.leb_le _ _)) by (rewrite length_app; lia).
  rewrite take_app_length. unfold advance. cbn [in_bytes in_end]. rewrite drop_app_length. done.
Qed.

Section framing.
Context {BT : BTreeG} {E : Env} (failure_text : failure -> gostring).
Implicit Types (s : session).
#[local] Notation serve_one := (serve_one failure_text).

Lemma serve_request line body e s : line <> [] -> no_ctl line = true ->
  ss_in s = mkStream (line ++ Byte.x0a :: body) e -> zlen line < bufSize (cfg_MaxLine (sv_cfg (ss_srv s))) ->
  serve_one s = serve_line failure_text line (set_in (mkStream body e) s).
Proof. intros Hne Hn Hin Hl. unfold Server.serve_one. rewrite Hin, readLine_line by done. by destruct line. Qed.

Lemma read_block data body e s : ss_in s = mkStream (block data ++ body) e -> zlen data <= cfg_MaxValue (sv_cfg (ss_srv s)) ->
  read_data (zlen data) s = (Ok data, set_in (mkStream body e) s).
Proof. intros Hin Hl. unfold read_data. by rewrite Hin, readData_block. Qed.

(** The line a store result is answered with. *)
Definition reply_of {A} (r : res A) (d : A -> doc) : envelope :=
  match r with Ok a => ok_env (Some (d a)) | Err e => fail_env (failure_text (FErr e)) end.

(** The session after a store operation ran in it, was answered and flushed. *)
Definition answered s (db : DB) (e : envelope) s' : Prop :=
  untouched db (ss_db s') /\ ss_in s' = ss_in s /\ ss_st s' = ss_st s /\ ss_out s' = ss_out s ++ response_line e.

Lemma reply_run e (b : bool) s : no_faults E ->
  exists s', (send e ;;; mok b) s = (Ok b, s') /\ answered s (ss_db s) e s'.
Proof.
  intros (_ & _ & Hfs). unfold send, net_write, mbnd, mmodify, mok. rewrite Hfs. eexists. split; [done|].
  split_and!; [by eexists|done..].
Qed.

Lemma flush_run (quit : bool) s : no_faults E ->
  exists s', after_dispatch failure_text (Ok quit) s = (Ok (negb quit), s')
    /\ untouched (ss_db s) (ss_db s') /\ ss_in s' = ss_in s /\ ss_st s' = ss_st s /\ ss_out s' = ss_out s.
Proof.
  intros (_ & _ & Hfs). unfold after_dispatch, net_write, mtry, mbnd, mok. rewrite Hfs. eexists. split; [done|].
  split_and!; [by eexists|done..].
Qed.

(** A store operation with its answer and the flush after it. *)
Lemma db_call_run {A} (m : M DB A) (d : A -> doc) s r db : no_faults E -> m (ss_db s) = (r, db) -> r <> Err EPanic ->
  exists s1, db_call failure_text m (fun a => ok (d a)) s = (Ok false, s1) /\ answered s db (reply_of r d) s1.
Proof.
  intros Hnf Hm Hp. unfold db_call, db_do. unfold mbnd at 1. rewrite Hm. set (s0 := set_srv _ s).
  destruct r as [a|e]; cbn [reply_of].
  - destruct (reply_run (ok_env (Some (d a))) false s0 Hnf) as (s1 & Hr & Ha). exists s1. split; [exact Hr|exact Ha].
  - destruct (reply_run (fail_env (failure_text (FErr e))) false s0 Hnf) as (s1 & Hr & Ha). exists s1.
    destruct e; try (split; [exact Hr|exact Ha]). done.
Qed.

(** What remains of a turn after its command was answered, having read its
    blocks. *)
Lemma turn_done line s q i s1 db e : no_faults E -> dispatch failure_text line (count_command s) = (Ok q, s1) ->
  answered (set_in i (count_command s)) db e s1 ->
  exists s', serve_line failure_text line s = (Ok (negb q), s') /\ untouched db (ss_db s') /\ ss_in s' = i
    /\ ss_st s' = ss_st s /\ ss_out s' = ss_out s ++ response_line e.
Proof.
  intros Hnf Hd (U & I & S & O). rewrite serve_line_run, Hd.
  destruct (flush_run q s1 Hnf) as (s' & Hf & U' & I' & S' & O'). exists s'.
  split_and!; [done|by eapply untouched_trans|by rewrite I', I|by rewrite S', S|by rewrite O', O].
Qed.

(** A command of an authenticated connection reaches its handler. *)
Lemma authed_dispatch name c args s : is_token name -> ToLower name = name -> command_of name = Some c -> Forall is_token args ->
  st_authed (ss_st s) = true -> c <> CQuit -> c <> CHello -> c <> CAuth ->
  dispatch failure_text (spaced (name :: args)) s = run_authed failure_text (Some c) name (spaced (name :: args)) args s.
Proof.
  intros Hn Hl Hc Ha Hst H1 H2 H3. unfold dispatch. rewrite split_spaced, Hl, Hc by done.
  destruct c; try done; rewrite mget_bnd; unfold requireAuth; by rewrite Hst.
Qed.

Definition put_line (key value : gostring) : gostring := spaced [bs "put"; key; format_int (zlen value)].

(** C29. A length-prefixed [put] stores the bytes it frames, whatever they are:
    the store runs [Put] on exactly that key and value, the answer is its
    outcome, the connection goes on, and the next request starts right after
    the block. *)
Theorem framed_put_correct s key value rest e pr db :
  no_faults E -> st_authed (ss_st s) = true -> is_token key ->
  zlen value <= cfg_MaxValue (sv_cfg (ss_srv s)) -> zlen value <= MaxInt64 ->
  zlen (put_line key value) < bufSize (cfg_MaxLine (sv_cfg (ss_srv s))) ->
  ss_in s = mkStream (put_line key value ++ Byte.x0a :: block value ++ rest) e ->
  Put key value [] (ss_db s) = (pr, db) -> pr <> Err EPanic ->
  exists s', serve_one s = (Ok true, s') /\ ss_in s' = mkStream rest e /\ ss_st s' = ss_st s /\ untouched db (ss_db s')
    /\ ss_out s' = ss_out s ++ response_line (reply_of pr (fun _ => doc_bool true)).
Proof.
  intros Hnf Hst Hk Hmax H64 Hline Hin Hput Hp. pose proof (zlen_nonneg value) as H0.
  assert (Htok : Forall is_token [key; format_int (zlen value)]) by (constructor; [done|]; constructor; [by apply format_int_token|done]).
  rewrite (serve_request (put_line key value) (block value ++ rest) e);
    [|done|apply spaced_no_ctl; by constructor|done|done].
  set (s0 := set_in _ s). destruct (db_call_run (Put key value []) (fun _ => doc_bool true) (set_in (mkStream rest e) (count_command s0)) pr db Hnf Hput Hp)
    as (s1 & Hcall & Ha).
  assert (Hd : dispatch failure_text (put_line key value) (count_command s0) = (Ok false, s1)).
  { unfold put_line. rewrite (authed_dispatch (bs "put") CPut) by done. cbn [run_authed]. unfold do_put.
    change Atoi with ParseInt. rewrite ParseInt_format by done.
    by rewrite (mbnd_ok _ _ _ _ _ (read_block value rest e (count_command s0) eq_refl Hmax)). }
  destruct (turn_done _ _ _ _ _ _ _ Hnf Hd Ha) as (s' & Hs & U & I & S & O). exists s'. by split_and!.
Qed.

(** The outcome of a [putx] whose blocks have been read: a bad time to live or
    a bad index block is reported without touching the store. *)
Definition putx_outcome (key ixRaw value : gostring) (ttl : list gostring) (db : DB) : option (envelope * DB) :=
  match ttl_arg (bs "putx") ttl with
  | inr f => Some (fail_env (failure_text f), db)
  | inl d => match unmarshal_ix ixRaw with
             | None => Some (fail_env (failure_text FIndexValues), db)
             | Some ix => match PutIndexed key value ix d db with
                          | (Err EPanic, _) => None
                          | (r, db') => Some (reply_of r (fun _ => doc_bool true), db')
                          end
             end
  end.

Definition putx_line (key ixRaw value : gostring) (ttl : list gostring) : gostring :=
  spaced (bs "putx" :: key :: format_int (zlen ixRaw) :: format_int (zlen value) :: ttl).

Lemma do_putx_run key ixRaw value ttl rest e s env db : no_faults E ->
  zlen ixRaw <= cfg_MaxValue (sv_cfg (ss_srv s)) -> zlen value <= cfg_MaxValue (sv_cfg (ss_srv s)) ->
  zlen ixRaw <= MaxInt64 -> zlen value <= MaxInt64 -> zlen ttl <= 1 ->
  ss_in s = mkStream (block ixRaw ++ block value ++ rest) e -> putx_outcome key ixRaw value ttl (ss_db s) = Some (env, db) ->
  exists s1, do_putx failure_text (key :: format_int (zlen ixRaw) :: format_int (zlen value) :: ttl) s = (Ok false, s1)
    /\ answered (set_in (mkStream rest e) s) db env s1.
Proof.
  intros Hnf Hm1 Hm2 H1 H2 Httl Hin Hout. pose proof (zlen_nonneg value). pose proof (zlen_nonneg ixRaw). unfold do_putx.
  rewrite (proj2 (Z.ltb_ge 1 (zlen ttl))) by done. change Atoi with ParseInt. rewrite !ParseInt_format by done.
  rewrite (mbnd_ok _ _ _ _ _ (read_block ixRaw (block value ++ rest) e s Hin Hm1)).
  rewrite (mbnd_ok _ _ _ _ _ (read_block value rest e (set_in _ s) eq_refl Hm2)).
  change (set_in (mkStream rest e) (set_in (mkStream (block value ++ rest) e) s)) with (set_in (mkStream rest e) s).
  unfold putx_outcome in Hout. destruct (ttl_arg (bs "putx") ttl) as [d|f].
  2: { injection Hout as <- <-. exact (reply_run _ false (set_in (mkStream rest e) s) Hnf). }
  destruct (unmarshal_ix ixRaw) as [ix|]; [|injection Hout as <- <-; exact (reply_run _ false (set_in (mkStream rest e) s) Hnf)].
  destruct (PutIndexed key value ix d (ss_db s)) as [r db'] eqn:Hput.
  assert (Hr : r <> Err EPanic /\ reply_of r (fun _ => doc_bool true) = env /\ db' = db).
  { destruct r as [u|er]; [by injection Hout as <- <-|]. destruct er; try (by injection Hout as <- <-). done. }
  destruct Hr as (Hp & <- & ->). exact (db_call_run (PutIndexed key value ix d) (fun _ => doc_bool true) (set_in (mkStream rest e) s) r db Hnf Hput Hp).
Qed.

(** C37. [putx] keeps the stream in step even when it fails: with a bad time to
    live or index values that are no JSON object, both blocks are still
    consumed, the failure is reported, the store is not touched and the next
    request is read from where it starts; otherwise the store runs
    [PutIndexed] on the framed bytes. *)
Theorem putx_stays_in_sync s key ixRaw value ttl rest e env db :
  no_faults E -> st_authed (ss_st s) = true -> is_token key -> Forall is_token ttl -> zlen ttl <= 1 ->
  zlen ixRaw <= cfg_MaxValue (sv_cfg (ss_srv s)) -> zlen value <= cfg_MaxValue (sv_cfg (ss_srv s)) ->
  zlen ixRaw <= MaxInt64 -> zlen value <= MaxInt64 ->
  zlen (putx_line key ixRaw value ttl) < bufSize (cfg_MaxLine (sv_cfg (ss_srv s))) ->
  ss_in s = mkStream (putx_line key ixRaw value ttl ++ Byte.x0a :: block ixRaw ++ block value ++ rest) e ->
  putx_outcome key ixRaw value ttl (ss_db s) = Some (env, db) ->
  exists s', serve_one s = (Ok true, s') /\ ss_in s' = mkStream rest e /\ ss_st s' = ss_st s /\ untouched db (ss_db s')
    /\ ss_out s' = ss_out s ++ response_line env.
Proof.
  intros Hnf Hst Hk Ht Httl Hm1 Hm2 H1 H2 Hline Hin Hout. pose proof (zlen_nonneg value). pose proof (zlen_nonneg ixRaw).
  assert (Htok : Forall is_token (key :: format_int (zlen ixRaw) :: format_int (zlen value) :: ttl))
    by (constructor; [done|]; constructor; [by apply format_int_token|]; constructor; [by apply format_int_token|done]).
  rewrite (serve_request (putx_line key ixRaw value ttl) (block ixRaw ++ block value ++ rest) e);
    [|done|apply spaced_no_ctl; by constructor|done|done].
  set (s0 := set_in _ s).
  destruct (do_putx_run key ixRaw value ttl rest e (count_command s0) env db Hnf Hm1 Hm2 H1 H2 Httl eq_refl Hout) as (s1 & Hrun & Ha).
  assert (Hd : dispatch failure_text (putx_line key ixRaw value ttl) (count_command s0) = (Ok false, s1)).
  { unfold putx_line. by rewrite (authed_dispatch (bs "putx") CPutx) by done. }
  destruct (turn_done _ _ _ _ _ _ _ Hnf Hd Ha) as (s' & Hs & U & I & S & O). exists s'. by split_and!.
Qed.

(** What a client makes of the [result] of a [get]. *)
Definition client_bytes (result : json) : option gostring :=
  match result with
  | JObj [(k1, JStr enc); (k2, JBool true)] =>
      if decide (k1 = bs "base64" /\ k2 = bs "bin") then b64_decode enc else None
  | _ => None
  end.

Lemma client_bytes_binary value : json_parse value = None -> client_bytes (client_value value) = Some value.
Proof. unfold client_value. intros ->. cbn [client_bytes]. rewrite decide_True by done. apply b64_decode_encode. Qed.

(** C31. [get] returns what is stored: the response is one line that parses to
    an envelope whose result is the stored JSON value (up to the nesting limit
    of the parser), and a value that is not JSON comes back as the base64 of
    exactly its bytes. *)
Theorem get_response_roundtrip s key value rest e db :
  no_faults E -> st_authed (ss_st s) = true -> is_token key ->
  zlen (spaced [bs "get"; key]) < bufSize (cfg_MaxLine (sv_cfg (ss_srv s))) ->
  ss_in s = mkStream (spaced [bs "get"; key] ++ Byte.x0a :: rest) e ->
  Get key (ss_db s) = (Ok (Some value), db) ->
  exists s' line, serve_one s = (Ok true, s') /\ ss_in s' = mkStream rest e /\ untouched db (ss_db s')
    /\ ss_out s' = ss_out s ++ line ++ [Byte.x0a] /\ no_ctl line = true
    /\ ((json_depth (client_value value) < maxNestingDepth)%N ->
        json_parse (line ++ [Byte.x0a]) =
          Some (JObj [(bs "ok", JBool true); (bs "found", JBool true); (bs "result", client_value value)]))
    /\ match json_parse value with
        | Some j => client_value value = j
        | None => client_bytes (client_value value) = Some value
        end.
Proof.
  intros Hnf Hst Hk Hline Hin Hget. assert (Hks : Forall is_token [key]) by (by constructor).
  rewrite (serve_request (spaced [bs "get"; key]) rest e); [|done|apply spaced_no_ctl; by constructor|done|done].
  set (s0 := set_in _ s). set (s1 := set_srv (set_sv_db db (ss_srv (count_command s0))) (count_command s0)).
  destruct (reply_run (found_env true (jsonValue value)) false s1 Hnf) as (s2 & Hr & Ha).
  assert (Hd : dispatch failure_text (spaced [bs "get"; key]) (count_command s0) = (Ok false, s2)).
  { rewrite (authed_dispatch (bs "get") CGet) by done. cbn [run_authed do_get].
    unfold db_call, db_do. unfold mbnd at 1. change (ss_db (count_command s0)) with (ss_db s). rewrite Hget. exact Hr. }
  destruct (turn_done _ s0 false (ss_in s0) s2 db _ Hnf Hd Ha) as (s' & Hs & U & I & S & O).
  exists s', (dprint (envelope_doc (found_env true (jsonValue value)))). split_and!; try done.
  - apply dprint_line, envelope_ok, jsonValue_ok.
  - by apply found_line_parses.
  - destruct (json_parse value) eqn:Hj; [unfold client_value; by rewrite Hj|by apply client_bytes_binary].
Qed.
End framing.
