(* ===== verification/Records.v ===== *)
(** * Records by index, from the request to what the client reads

    [ixrec] looks keys up in an index and then reads their values, one call of
    the store after the other.  Its answer parses to the list of the records
    that a scan of the store for the value gives. *)

From S2P Require Import Prelude Floats Types Json Base64 Record BTree PkIndex SecIndex Hint Store SecMaint LogSpec Invariant Ops Contents PutProofs Query Text Proto Embed DocParse Auth ServerSchema Server ServerProofs AuthProofs Framing.
#[local] Open Scope Z_scope.

(** ** The answer as a document *)

(** What the client reads for a record. *)
Definition client_record (kv : gostring * option gostring) : option json :=
  (fun value => JObj [(bs "key", JStr kv.1); (bs "value", client_value value)]) <$> kv.2.

Lemma ixrec_entry_eq k value : ixrec_entry (k, Some value) = Some (DObj [(bs "key", doc_str k); (bs "value", jsonValue value)]).
Proof. reflexivity. Qed.

Lemma jsonValue_faithful value : doc_faithful (jsonValue value) = true /\ doc_json (jsonValue value) = client_value value.
Proof.
  unfold jsonValue, client_value. destruct (json_valid value) eqn:Hv; cbn [doc_faithful doc_json].
  - split; [done|]. unfold json_valid in Hv. by destruct (json_parse value).
  - assert (json_parse value = None) as -> by (unfold json_valid in Hv; by destruct (json_parse value)). split; [|done].
    cbn [doc_faithful forallb fst snd json_ok]. by rewrite b64_utf8.
Qed.

Lemma records_faithful (l : list (gostring * option gostring)) : Forall (fun kv => utf8_valid kv.1 = true) l ->
  forallb doc_faithful (omap ixrec_entry l) = true /\ List.map doc_json (omap ixrec_entry l) = omap client_record l.
Proof.
  induction 1 as [|[k [value|]] l Hk HF [IH1 IH2]]; [done| |done]. destruct (jsonValue_faithful value) as [Hf Hj].
  cbn [omap list_omap]. rewrite ixrec_entry_eq. cbn [forallb List.map]. rewrite IH1, IH2. split.
  - cbn [doc_faithful forallb fst snd doc_str json_ok] in *. by rewrite Hf, Hk.
  - unfold client_record at 2. cbn [fst snd fmap option_fmap option_map doc_json List.map doc_str]. by rewrite Hj.
Qed.

Section records.
Context {BT : BTreeG} {BL : BTreeGLaws BT} {E : Env}.
Context (failure_text : failure -> gostring).
Implicit Types (s : session).

(** ** The command *)

Lemma do_ixrec_run s args name val limit keys vs db : no_faults E ->
  indexArgs (sv_kinds (ss_srv s)) (bs "ixrec") args true = inl (name, val, limit) ->
  ByIndex name val limit (ss_db s) = (Ok keys, ss_db s) -> GetMany keys (ss_db s) = (Ok vs, db) ->
  exists s', do_ixrec failure_text args s = (Ok false, s') /\ answered s db (ok_env (Some (DArr (omap ixrec_entry (zip keys vs))))) s'.
Proof.
  intros Hnf Ha Hk Hv. unfold do_ixrec. rewrite mget_bnd, Ha. unfold db_call at 1, db_do at 1. unfold mbnd at 1. rewrite Hk.
  set (s0 := set_srv _ s). assert (E0 : s0 = s) by (unfold s0; destruct s as [sv]; by destruct sv). rewrite E0.
  destruct (db_call_run failure_text (GetMany keys) (fun vs => DArr (omap ixrec_entry (zip keys vs))) s (Ok vs) db Hnf Hv) as (s1 & H1 & H2); [done|].
  by exists s1.
Qed.

(** Reads leave what the store contains. *)
Lemma reads_keep s db q t t' log : Inv (ss_db s) log -> db = set_reap q (set_tick t (ss_db s)) ->
  contents (set_tick t' db) = contents (ss_db s) /\ Inv (set_tick t' db) log.
Proof. intros HI ->. done. Qed.

(** C30. A request for the records with a value is answered with one line, which
    parses to the list of the records that a scan of the store gives for the
    value, in key order: each key with the value a reader sees for it, a key
    whose time to live has passed left out.  The store's contents stay as they
    are and the connection goes on with the next request. *)
Theorem ixrec_answers_scan s name tok val keys log rest e :
  no_faults E -> st_authed (ss_st s) = true -> is_token name -> is_token tok ->
  zlen (spaced [bs "ixrec"; name; tok]) < bufSize (cfg_MaxLine (sv_cfg (ss_srv s))) ->
  ss_in s = mkStream (spaced [bs "ixrec"; name; tok] ++ Byte.x0a :: rest) e ->
  indexArgs (sv_kinds (ss_srv s)) (bs "ixrec") [name; tok] true = inl (name, val, []) -> any_nn val ->
  Inv (ss_db s) log -> scan_exact name val 0 (ss_db s) = Ok keys -> Forall (fun k => utf8_valid k = true) keys ->
  exists s' vs line, serve_one failure_text s = (Ok true, s') /\ ss_in s' = mkStream rest e
    /\ contents (ss_db s') = contents (ss_db s) /\ Inv (ss_db s') log
    /\ ss_out s' = ss_out s ++ line ++ [Byte.x0a]
    /\ Forall2 (seen (ss_db s) (db_tick (ss_db s))) keys vs
    /\ let records := JObj [(bs "ok", JBool true); (bs "result", JArr (omap client_record (zip keys vs)))] in
       ((json_depth records <= maxNestingDepth)%N -> json_parse line = Some records).
Proof.
  intros Hnf Hst Hn Ht Hline Hin Hargs Hnn HI Hscan Hutf.
  assert (Hks : Forall is_token [name; tok]) by (constructor; [done|]; constructor; done).
  assert (Hcl : db_closed (ss_db s) = false) by (unfold scan_exact in Hscan; by destruct (db_closed (ss_db s))).
  rewrite (serve_request failure_text (spaced [bs "ixrec"; name; tok]) rest e); [|done|apply spaced_no_ctl; by constructor|done|done].
  set (s0 := set_in _ s). pose proof (byIndex_run (ss_db s) log name val [] HI Hnn ltac:(done)) as Hk.
  change (opt_limit []) with 0 in Hk. rewrite Hscan in Hk.
  destruct (GetMany_run (ss_db s) log keys HI Hcl) as (vs & t & q & _ & Hm & Hvs).
  destruct (do_ixrec_run (count_command s0) [name; tok] name val [] keys vs _ Hnf Hargs Hk Hm) as (s2 & Hr & Ha).
  assert (Hd : dispatch failure_text (spaced [bs "ixrec"; name; tok]) (count_command s0) = (Ok false, s2)).
  { by rewrite (authed_dispatch failure_text (bs "ixrec") CIxrec). }
  destruct (turn_done failure_text _ s0 false (ss_in s0) s2 _ _ Hnf Hd Ha) as (s' & Hs & [t' U] & I & S & O).
  destruct (reads_keep s _ q t t' log HI eq_refl) as [Hc HI'].
  eexists s', vs, _. split_and!; [exact Hs|done|by rewrite U|by rewrite U|exact O|done|].
  intros records Hdep. pose proof (records_faithful (zip keys vs)) as Hf.
  destruct Hf as [Hf1 Hf2]; [|].
  { apply Forall_forall. intros [k v] Hkv. apply elem_of_zip_l in Hkv. rewrite Forall_forall in Hutf. by apply Hutf. }
  set (d := envelope_doc _). assert (Hj : doc_json d = records).
  { unfold d, records. cbn. by rewrite Hf2. }
  rewrite <- Hj. apply doc_parse; [|by rewrite Hj]. unfold d. cbn. by rewrite Hf1.
Qed.
End records.
