(* ===== verification/Flags.v ===== *)
(** * Command lines (packages flag and time of the standard library)

    What main.go uses of them: [flag.Parse] over boolean, string and duration
    flags, [strconv.ParseBool] and [time.ParseDuration]. *)

From S2P Require Import Prelude Floats Types Json Record Text.
From Stdlib Require Import SpecFloat.
#[local] Open Scope Z_scope.

(** ** Values *)

(** [strconv.ParseBool]. *)
Definition ParseBool (s : gostring) : option bool :=
  if decide (s ∈ bs <$> ["1"; "t"; "T"; "TRUE"; "true"; "True"]%string) then Some true
  else if decide (s ∈ bs <$> ["0"; "f"; "F"; "FALSE"; "false"; "False"]%string) then Some false
  else None.

(** The units of a duration, in nanoseconds; the microsecond has three
    spellings. *)
Definition unit_of (u : gostring) : option Z :=
  if decide (u = bs "ns") then Some 1
  else if decide (u = bs "us" \/ u = [Byte.xc2; Byte.xb5; Byte.x73] \/ u = [Byte.xce; Byte.xbc; Byte.x73]) then Some (10 ^ 3)
  else if decide (u = bs "ms") then Some (10 ^ 6)
  else if decide (u = bs "s") then Some (10 ^ 9)
  else if decide (u = bs "m") then Some (60 * 10 ^ 9)
  else if decide (u = bs "h") then Some (3600 * 10 ^ 9)
  else None.

(** [leadingInt]: none when the digits pass 2^63. *)
Fixpoint leadingInt (s : gostring) (x : Z) : option (Z * gostring) :=
  match s with
  | c :: s' =>
      if is_digit c then
        if 2 ^ 63 / 10 <? x then None
        else let x := x * 10 + (bZ c - 48) in
             if 2 ^ 63 <? x then None else leadingInt s' x
      else Some (x, s)
  | [] => Some (x, [])
  end.

(** [leadingFraction]: digits that do not fit are skipped. *)
Fixpoint leadingFraction (s : gostring) (x : Z) (scale : f64) (overflow : bool) : Z * f64 * gostring :=
  match s with
  | c :: s' =>
      if is_digit c then
        if overflow || (MaxInt64 / 10 <? x) then leadingFraction s' x scale true
        else let y := x * 10 + (bZ c - 48) in
             if 2 ^ 63 <? y then leadingFraction s' x scale true
             else leadingFraction s' y (SFmul 53 1024 scale (f64_of_Z 10)) false
      else (x, scale, s)
  | [] => (x, scale, [])
  end.

(** [uint64(f)] of a float that is not negative. *)
Definition uint64_of (f : f64) : Z :=
  match f with S754_finite _ m e => uwrap64 (Z.shiftl (Z.pos m) e) | _ => 0 end.

(** The unit: everything up to the next digit or period. *)
Fixpoint span_unit (s : gostring) : gostring * gostring :=
  match s with
  | c :: s' => if is_digit c || bool_decide (c = Byte.x2e) then ([], s) else let '(u, r) := span_unit s' in (c :: u, r)
  | [] => ([], [])
  end.

(** One term of a duration: its nanoseconds and what follows. *)
Definition duration_term (s : gostring) : option (Z * gostring) :=
  match s with
  | [] => None
  | c :: _ =>
      if negb (bool_decide (c = Byte.x2e) || is_digit c) then None
      else match leadingInt s 0 with
      | None => None
      | Some (v, s1) =>
          let pre := negb (length s1 =? length s)%nat in
          let '(f, scale, s2, post) :=
            match s1 with
            | Byte.x2e :: s1' => let '(f, scale, s2) := leadingFraction s1' 0 (f64_of_Z 1) false in (f, scale, s2, negb (length s2 =? length s1')%nat)
            | _ => (0, f64_of_Z 1, s1, false)
            end in
          if negb pre && negb post then None
          else match span_unit s2 with
          | ([], _) => None
          | (u, s3) =>
              match unit_of u with
              | None => None
              | Some unit =>
                  if 2 ^ 63 / unit <? v then None
                  else let v := v * unit in
                       if 0 <? f then
                         let v := v + uint64_of (SFmul 53 1024 (f64_of_Z f) (SFdiv 53 1024 (f64_of_Z unit) scale)) in
                         if 2 ^ 63 <? v then None else Some (v, s3)
                       else Some (v, s3)
              end
          end
      end
  end.

(** The sum of the terms, an unsigned integer; every term takes a byte. *)
Fixpoint duration_terms (fuel : nat) (s : gostring) (d : Z) : option Z :=
  match s with
  | [] => Some d
  | _ =>
      match fuel with
      | O => None
      | S fuel' =>
          match duration_term s with
          | None => None
          | Some (v, s') => let d := uwrap64 (d + v) in if 2 ^ 63 <? d then None else duration_terms fuel' s' d
          end
      end
  end.

Definition ParseDuration (s : gostring) : option Z :=
  let '(neg, s1) := strip_sign s in
  if decide (s1 = bs "0") then Some 0
  else match s1 with
  | [] => None
  | _ => match duration_terms (length s1) s1 0 with
         | None => None
         | Some d => if neg then Some (wrap64 (- d)) else if MaxInt64 <? d then None else Some d
         end
  end.

Example ParseDuration_ex : ParseDuration (bs "1h15m30.918s") = Some 4530918000000 /\ ParseDuration (bs "-1.5h") = Some (-5400000000000)
  /\ ParseDuration (bs "+.5us") = Some 500 /\ ParseDuration (bs "3") = None /\ ParseDuration (bs "1.") = None
  /\ ParseDuration (bs "9223372036854775807ns") = Some MaxInt64 /\ ParseDuration (bs "9223372036854775808ns") = None
  /\ ParseDuration (bs "-9223372036854775808ns") = Some MinInt64 /\ ParseDuration (bs ".s") = None.
Proof. by vm_compute. Qed.

(** *** The fuel is enough *)

Lemma leadingInt_length s : forall x v r, leadingInt s x = Some (v, r) -> (length r <= length s)%nat.
Proof.
  induction s as [|c s IH]; intros x v r; cbn [leadingInt length]; [by intros [= _ <-]|]. destruct (is_digit c); [|by intros [= _ <-]].
  destruct (_ <? x); [done|]. destruct (_ <? _); [done|]. intros H%IH. lia.
Qed.

Lemma leadingFraction_length s : forall x sc o v sc' r, leadingFraction s x sc o = (v, sc', r) -> (length r <= length s)%nat.
Proof.
  induction s as [|c s IH]; intros x sc o v sc' r; cbn [leadingFraction length]; [by intros [= _ _ <-]|].
  destruct (is_digit c); [|by intros [= _ _ <-]]. destruct (_ || _); [intros H%IH; lia|]. destruct (_ <? _); intros H%IH; lia.
Qed.

Lemma span_unit_split s : forall u r, span_unit s = (u, r) -> s = u ++ r.
Proof.
  induction s as [|c s IH]; intros u r; cbn [span_unit]; [by intros [= <- <-]|]. destruct (_ || _); [by intros [= <- <-]|].
  destruct (span_unit s) as [u' r'] eqn:Hs. intros [= <- <-]. cbn. by rewrite (IH u' r').
Qed.

Lemma duration_term_length s v r : duration_term s = Some (v, r) -> (length r < length s)%nat.
Proof.
  unfold duration_term. destruct s as [|c s]; [done|]. destruct (negb _); [done|].
  destruct (leadingInt (c :: s) 0) as [[n s1]|] eqn:Hi; [|done]. apply leadingInt_length in Hi.
  match goal with |- context [match ?x with _ => _ end = Some _] => destruct x as [[[f sc] s2] post] eqn:Hf end.
  assert (length s2 <= length s1)%nat as H2.
  { destruct s1 as [|b s1]; [by injection Hf as <- <- <- <-|]. destruct b; try (by injection Hf as <- <- <- <-).
    destruct (leadingFraction s1 0 _ false) as [[f' sc'] s2'] eqn:Hl. injection Hf as <- <- <- <-. apply leadingFraction_length in Hl. cbn. lia. }
  destruct (negb _ && _); [done|]. destruct (span_unit s2) as [u s3] eqn:Hu. apply span_unit_split in Hu as ->. rewrite length_app in H2.
  destruct u as [|u0 u]; [done|]. cbn [length] in *. destruct (unit_of _); [|done]. destruct (_ <? n); [done|].
  destruct (0 <? f); [destruct (_ <? _); [done|]|]; intros [= _ <-]; lia.
Qed.

(** More fuel than bytes changes nothing. *)
Lemma duration_terms_fuel n : forall m s d, (length s <= n)%nat -> (length s <= m)%nat -> duration_terms n s d = duration_terms m s d.
Proof.
  induction n as [|n IH]; intros m [|c s] d Hn Hm; cbn [length] in *; try lia; [by destruct m..|].
  destruct m as [|m]; [lia|]. cbn [duration_terms]. destruct (duration_term (c :: s)) as [[v r]|] eqn:Ht; [|done].
  apply duration_term_length in Ht. cbn [length] in Ht. destruct (_ <? _); [done|]. apply IH; lia.
Qed.

(** *** Whole numbers of a unit *)

Definition no_digit_first (s : gostring) : Prop := match s with c :: _ => is_digit c = false | [] => True end.

Lemma digits_grow ds : forall x, 0 <= x -> forallb is_digit ds = true -> x <= fold_left (fun a b => a * 10 + (bZ b - 48)) ds x.
Proof.
  induction ds as [|c ds IH]; intros x Hx; [cbn; lia|]. cbn [forallb fold_left]. intros [Hc Hds]%andb_true_iff.
  unfold is_digit in Hc. pose proof (IH (x * 10 + (bZ c - 48)) ltac:(lia) Hds). lia.
Qed.

Lemma leadingInt_digits ds rest : no_digit_first rest -> forall x, 0 <= x -> forallb is_digit ds = true ->
  fold_left (fun a b => a * 10 + (bZ b - 48)) ds x <= 2 ^ 63 ->
  leadingInt (ds ++ rest) x = Some (fold_left (fun a b => a * 10 + (bZ b - 48)) ds x, rest).
Proof.
  intros Hr. induction ds as [|c ds IH]; intros x Hx Hds Hle; cbn [app leadingInt fold_left].
  { destruct rest as [|c rest]; [done|]. cbn [leadingInt]. by rewrite Hr. }
  cbn [forallb fold_left] in Hds, Hle. apply andb_true_iff in Hds as [Hc Hds]. rewrite Hc. unfold is_digit in Hc.
  pose proof (digits_grow ds (x * 10 + (bZ c - 48)) ltac:(lia) Hds) as Hg.
  rewrite (proj2 (Z.ltb_ge _ _)) by (change (2 ^ 63 / 10) with 922337203685477580; lia). cbv zeta.
  rewrite (proj2 (Z.ltb_ge _ _)) by lia. by apply IH; [lia|..].
Qed.

Definition plain_unit (u : gostring) : bool := forallb (fun c => negb (is_digit c || bool_decide (c = Byte.x2e))) u.

Lemma unit_plain u n : unit_of u = Some n -> u <> [] /\ plain_unit u = true /\ 0 < n.
Proof. unfold unit_of. repeat case_decide; intros [= <-]; try done; destruct_or?; subst; by split_and!. Qed.

Lemma span_unit_plain u : plain_unit u = true -> span_unit u = (u, []).
Proof. induction u as [|c u IH]; [done|]. cbn [plain_unit forallb span_unit]. intros [Hc Hu]%andb_true_iff. apply negb_true_iff in Hc. by rewrite Hc, IH. Qed.

Lemma duration_term_whole v u unit : 0 <= v -> unit_of u = Some unit -> v * unit <= 2 ^ 63 -> duration_term (nat_dec v ++ u) = Some (v * unit, []).
Proof.
  intros Hv Hu Hle. destruct (unit_plain u unit Hu) as (Hne & Hpl & Hpos). destruct (nat_dec_spec v Hv) as (b & ds & Hd & Hds & Hval & _).
  unfold duration_term. rewrite Hd. cbn [app]. pose proof Hds as Hb. cbn [forallb] in Hb. apply andb_true_iff in Hb as [Hb _].
  rewrite Hb, orb_true_r. cbn [negb]. change (b :: ds ++ u) with ((b :: ds) ++ u).
  assert (Hnd : no_digit_first u).
  { destruct u as [|c u]; [done|]. cbn [plain_unit forallb] in Hpl. apply andb_true_iff in Hpl as [Hc _]. cbn.
    by destruct (is_digit c). }
  rewrite leadingInt_digits; [|done|done|done|change (digits_val (b :: ds) <= 2 ^ 63); rewrite Hval; nia].
  change (fold_left _ (b :: ds) 0) with (digits_val (b :: ds)). rewrite Hval. cbv zeta.
  assert (Hpre : (length u =? length ((b :: ds) ++ u))%nat = false) by (apply Nat.eqb_neq; rewrite length_app; cbn; lia). rewrite Hpre.
  assert (Hsp : match u with Byte.x2e :: s1' => let '(f, scale, s2) := leadingFraction s1' 0 (f64_of_Z 1) false in (f, scale, s2, negb (length s2 =? length s1')%nat)
     | _ => (0, f64_of_Z 1, u, false) end = (0, f64_of_Z 1, u, false)).
  { destruct u as [|c u]; [done|]. by destruct c. }
  rewrite Hsp. cbn [negb andb]. rewrite (span_unit_plain u Hpl). destruct u as [|c u]; [done|]. rewrite Hu.
  rewrite (proj2 (Z.ltb_ge _ _)); [done|]. apply Z.div_le_lower_bound; lia.
Qed.

(** A whole number of a unit is the duration it says, when that fits. *)
Lemma ParseDuration_whole n u unit : unit_of u = Some unit -> in64 (n * unit) -> ParseDuration (format_int n ++ u) = Some (n * unit).
Proof.
  intros Hu [H1 H2]. destruct (unit_plain u unit Hu) as (Hne & Hpl & Hpos). unfold MinInt64, MaxInt64 in *.
  assert (Hgo : forall v, 0 <= v -> v * unit <= 2 ^ 63 -> nat_dec v ++ u <> bs "0" /\ nat_dec v ++ u <> []
    /\ duration_terms (length (nat_dec v ++ u)) (nat_dec v ++ u) 0 = Some (v * unit)).
  { intros v Hv Hle. destruct (nat_dec_head v Hv) as (b & ds & Hd & _). pose proof (duration_term_whole v u unit Hv Hu Hle) as Ht. rewrite Hd in *.
    split; [|split; [done|]].
    - intros Heq. apply (f_equal length) in Heq. cbn in Heq. rewrite length_app in Heq. destruct u; [done|]. cbn in Heq. lia.
    - cbn [app length duration_terms]. cbn [app] in Ht. rewrite Ht. rewrite Z.add_0_l, uwrap64_id by lia. cbv zeta.
      rewrite (proj2 (Z.ltb_ge _ _)) by lia. by destruct (length (ds ++ u)). }
  unfold ParseDuration, format_int. destruct (Z.ltb_spec n 0) as [Hn|Hn].
  - destruct (Hgo (- n) ltac:(lia) ltac:(lia)) as (Hz & He & Hr). cbn [app strip_sign]. rewrite decide_True, decide_False by done.
    rewrite Hr. destruct (nat_dec (- n) ++ u); [done|]. f_equal. rewrite wrap64_id; [lia|unfold in64, MinInt64, MaxInt64; lia].
  - destruct (Hgo n Hn ltac:(lia)) as (Hz & He & Hr).
    assert (Hs : strip_sign (nat_dec n ++ u) = (false, nat_dec n ++ u)).
    { destruct (nat_dec_head n Hn) as (b & ds & -> & Hb). cbn [app strip_sign].
      rewrite !decide_False; [done|intros ->; change (bZ Byte.x2b) with 43 in Hb; lia|intros ->; change (bZ Byte.x2d) with 45 in Hb; lia]. }
    rewrite Hs, decide_False by done. rewrite Hr. destruct (nat_dec n ++ u); [done|]. unfold MaxInt64. by rewrite (proj2 (Z.ltb_ge _ _)) by lia.
Qed.

(** ** Flags *)

(** What an argument is to [flag.Parse]: the end of the flags, with or without
    being consumed, an error, or a flag with the value after its first [=]. *)
Inductive argument := ArgStop | ArgBad | ArgFlag (name : gostring) (value : option gostring).

Definition minus : byte := Byte.x2d.
Definition equals : byte := Byte.x3d.

Definition argument_of (s : gostring) : argument :=
  match s with
  | a :: b :: s' =>
      if decide (a = minus) then
        if decide (b = minus /\ s' = []) then ArgStop
        else let name := if decide (b = minus) then s' else b :: s' in
             match name with
             | [] => ArgBad
             | c :: _ =>
                 if decide (c = minus \/ c = equals) then ArgBad
                 else match cut_byte equals name with
                      | Some (n, v) => ArgFlag n (Some v)
                      | None => ArgFlag name None
                      end
             end
      else ArgStop
  | _ => ArgStop
  end.

Inductive flagError :=
  | FlagHelp
  | FlagSyntax (arg : gostring)
  | FlagUndefined (name : gostring)
  | FlagNeedsArg (name : gostring)
  | FlagInvalid (name value : gostring).

Section flags.
Context {T : Type}.

(** The kinds of flags, with what they set. *)
Inductive flagKind :=
  | BoolFlag (set : bool -> T -> T)
  | StringFlag (set : gostring -> T -> T)
  | DurationFlag (set : Z -> T -> T).

(** [flag.Value.Set]. *)
Definition flag_set (k : flagKind) (value : gostring) (t : T) : option T :=
  match k with
  | BoolFlag set => (fun b => set b t) <$> ParseBool value
  | StringFlag set => Some (set value t)
  | DurationFlag set => (fun d => set d t) <$> ParseDuration value
  end.

Context (formal : gostring -> option flagKind).

Definition set_or_fail (name : gostring) (k : flagKind) (value : gostring) (t : T) : T + flagError :=
  match flag_set k value t with Some t' => inl t' | None => inr (FlagInvalid name value) end.

(** [FlagSet.Parse]: flags until an argument that is none. *)
Fixpoint parse_flags (args : list gostring) (t : T) : T + flagError :=
  match args with
  | [] => inl t
  | s :: rest =>
      match argument_of s with
      | ArgStop => inl t
      | ArgBad => inr (FlagSyntax s)
      | ArgFlag name v =>
          match formal name with
          | None => inr (if decide (name = bs "help" \/ name = bs "h") then FlagHelp else FlagUndefined name)
          | Some (BoolFlag set as k) =>
              match set_or_fail name k (default (bs "true") v) t with inl t' => parse_flags rest t' | inr e => inr e end
          | Some k =>
              match v, rest with
              | Some value, _ => match set_or_fail name k value t with inl t' => parse_flags rest t' | inr e => inr e end
              | None, value :: rest' => match set_or_fail name k value t with inl t' => parse_flags rest' t' | inr e => inr e end
              | None, [] => inr (FlagNeedsArg name)
              end
          end
      end
  end.

(** ** What a command line can change *)

(** Some argument reads as the flag [name]. *)
Definition mentions (name : gostring) (args : list gostring) : Prop := exists s v, s ∈ args /\ argument_of s = ArgFlag name v.

Lemma mentions_cons name s args : mentions name args -> mentions name (s :: args).
Proof. intros (s' & v & Hin & Ha). exists s', v. split; [by right|done]. Qed.

(** Only flags that are mentioned change anything. *)
Lemma parse_flags_keeps (P : T -> Prop) n : forall args t t', (length args <= n)%nat ->
  (forall name k value t t', mentions name args -> formal name = Some k -> flag_set k value t = Some t' -> P t -> P t') ->
  P t -> parse_flags args t = inl t' -> P t'.
Proof.
  induction n as [|n IH]; intros [|s rest] t t' Hn HP Ht; cbn [parse_flags length] in *; try lia; try (by intros [= <-]).
  destruct (argument_of s) as [| |name v] eqn:Ha; [by intros [= <-]|done|].
  destruct (formal name) as [k|] eqn:Hf; [|done].
  assert (Hm : mentions name (s :: rest)) by (exists s, v; split; [by left|done]).
  assert (Hset : forall value args' t1, (length args' <= n)%nat -> (forall x, mentions x args' -> mentions x (s :: rest)) ->
    set_or_fail name k value t = inl t1 -> parse_flags args' t1 = inl t' -> P t').
  { intros value args' t1 Hl Hsub. unfold set_or_fail. destruct (flag_set k value t) as [t2|] eqn:Hs; [|done]. intros [= <-].
    apply IH; [done| |by eapply HP]. intros name' k' value' t3 t4 Hm'. by apply HP, Hsub. }
  assert (Hrest : forall x, mentions x rest -> mentions x (s :: rest)) by (intros x; apply mentions_cons).
  cbn [length] in Hn. destruct k as [set|set|set].
  { destruct (set_or_fail _ _ _ _) as [t1|] eqn:Hs; [|done]. intros Hr. eapply Hset; [|exact Hrest|exact Hs|exact Hr]. lia. }
  all: destruct v as [value|];
    [destruct (set_or_fail _ _ value _) as [t1|] eqn:Hs; [|done]; intros Hr; eapply Hset; [|exact Hrest|exact Hs|exact Hr]; lia|].
  all: destruct rest as [|value rest']; [done|]; destruct (set_or_fail _ _ value _) as [t1|] eqn:Hs; [|done].
  all: intros Hr; eapply Hset; [|intros x Hx; by do 2 apply mentions_cons|exact Hs|exact Hr]; cbn in Hn; lia.
Qed.

(** ** Writing a command line *)

(** [-name=value]. *)
Definition binding (nv : gostring * gostring) : gostring := minus :: nv.1 ++ equals :: nv.2.

Definition flag_name (name : gostring) : Prop := equals ∉ name /\ match name with c :: _ => c <> minus | [] => False end.

Lemma argument_binding name value : flag_name name -> argument_of (binding (name, value)) = ArgFlag name (Some value).
Proof.
  intros [He Hh]. destruct name as [|c name]; [done|]. unfold binding, argument_of. cbn [fst snd app].
  rewrite decide_True by done. rewrite (decide_False (P := c = minus /\ _)) by (by intros [? _]). rewrite (decide_False (P := c = minus)) by done.
  pose proof He as [Hc _]%not_elem_of_cons. rewrite decide_False by (intros [?|?]; congruence).
  change (c :: name ++ equals :: value) with ((c :: name) ++ equals :: value). by rewrite cut_byte_app.
Qed.

(** Bindings of known flags to values they take are set in order. *)
Fixpoint set_all (l : list (gostring * gostring)) (t : T) : option T :=
  match l with
  | [] => Some t
  | (name, value) :: l' => k ← formal name; t' ← flag_set k value t; set_all l' t'
  end.

Lemma set_all_cons name k value l t t' : formal name = Some k -> flag_set k value t = Some t' ->
  set_all ((name, value) :: l) t = set_all l t'.
Proof. cbn [set_all]. intros -> Hs. cbn. by rewrite Hs. Qed.

Lemma parse_bindings l : forall t t', Forall (fun nv => flag_name nv.1) l -> set_all l t = Some t' ->
  parse_flags (binding <$> l) t = inl t'.
Proof.
  induction l as [|[name value] l IH]; intros t t' Hn; cbn [set_all]; [by intros [= ->]|].
  apply Forall_cons in Hn as [Hname Hn]. intros (k & Hf & (t1 & Hs & Hr)%bind_Some)%bind_Some.
  rewrite fmap_cons. cbn [parse_flags]. rewrite (argument_binding name value Hname), Hf.
  assert (Hset : set_or_fail name k value t = inl t1) by (unfold set_or_fail; by rewrite Hs).
  destruct k; cbn [from_option id]; rewrite Hset; by apply IH.
Qed.
End flags.
