(* ===== verification/Startup.v ===== *)
(** * Starting the server (nteedb-server/main.go)

    The checks between the command line and the first connection: the schema,
    the TLS files, the credentials, protected mode, the store and the
    listeners.  Without credentials the server only binds loopback addresses,
    unless it was told to be insecure. *)

From S2P Require Import Prelude Floats Types Json Record BTree PkIndex SecIndex Hint Meta Store Ops Load Compact Text Net Proto Auth ServerSchema Server.
#[local] Open Scope Z_scope.

Definition defaultTLSAddr : gostring := bs "127.0.0.1:6667".

Record cliOptions := mkCli {
  o_addr : gostring;
  o_tlsAddr : gostring;
  o_tlsCert : gostring;
  o_tlsKey : gostring;
  o_schema : gostring;
  o_dir : gostring;
  o_password : gostring;
  o_authFile : gostring;
  o_insecure : bool;
  o_idle : Z }.

(** The machine: the text files, the key pairs [tls.LoadX509KeyPair] accepts,
    the files of a store directory, and the address [net.Listen] binds. *)
Record Host := mkHost {
  h_file : gostring -> option gostring;
  h_keypair : gostring -> gostring -> bool;
  h_disk : gostring -> Disk;
  h_listen : gostring -> option gostring;
  h_tick : nat }.

Inductive runError :=
  | RunNoSchema | RunSchema (e : schemaError) | RunNoDir
  | RunTLSAddr | RunTLSPair | RunTLSLoad | RunNoListener
  | RunAuth (e : authError)
  | RunBadAddr (flagName addr : gostring) (e : addrError)
  | RunProtected (addr : gostring)
  | RunOptions | RunOpen (e : error) | RunListen | RunListenTLS.

Definition isLoopback (host : gostring) : bool :=
  if decide (host = bs "localhost") then true
  else match ParseIP host with Some ip => IsLoopback ip | None => false end.

(** [checkProtectedMode]: [None] is no error. *)
Definition checkProtectedMode (flagName addr : gostring) (auth : authStore) (insecure : bool) : option runError :=
  if required auth || insecure then None
  else match SplitHostPort addr with
       | inr e => Some (RunBadAddr flagName addr e)
       | inl (host, _) => if isLoopback host then None else Some (RunProtected addr)
       end.

(** [buildTLS]: whether there is a TLS configuration. *)
Definition buildTLS (h : Host) (o : cliOptions) : bool + runError :=
  if bool_decide (o_tlsCert o = []) && bool_decide (o_tlsKey o = []) then
    if bool_decide (o_tlsAddr o = defaultTLSAddr) then inl false else inr RunTLSAddr
  else if bool_decide (o_tlsCert o = []) || bool_decide (o_tlsKey o = []) then inr RunTLSPair
  else if h_keypair h (o_tlsCert o) (o_tlsKey o) then inl true else inr RunTLSLoad.

(** [Server.Listen]: the plain and the TLS address bound. *)
Definition Listen (h : Host) (cfg : Config) : (option gostring * option gostring) + runError :=
  if bool_decide (cfg_Addr cfg = []) && negb (cfg_TLS cfg) then inr RunNoListener
  else
    let tls ln :=
      if cfg_TLS cfg then
        match h_listen h (cfg_TLSAddr cfg) with
        | Some b => inl (ln, Some b)
        | None => inr RunListenTLS
        end
      else inl (ln, None) in
    if bool_decide (cfg_Addr cfg = []) then tls None
    else match h_listen h (cfg_Addr cfg) with
         | Some b => tls (Some b)
         | None => inr RunListen
         end.

Definition set_dir (d : gostring) (s : Schema) : Schema :=
  mkSchema d (sc_BlobThreshold s) (sc_SyncEveryWrite s) (sc_HintEveryN s) (sc_Indexes s) (sc_AutoCompact s).

(** The configuration of [run] before the defaults. *)
Definition run_config (o : cliOptions) (tls : bool) (schema : Schema) : Config :=
  apply (sc_AutoCompact schema)
    (mkConfig (o_addr o) (o_tlsAddr o) tls (o_idle o) 0 0 false 0 f64_zero 0 false f64_zero 0).

Section run.
Context {BT : BTreeG} {E : Env}.

(** [run], up to the point at which the server accepts connections. *)
Definition run (h : Host) (o : cliOptions) : (Server * (option gostring * option gostring)) + runError :=
  if bool_decide (o_schema o = []) then inr RunNoSchema
  else match LoadSchema (h_file h (o_schema o)) with
  | inr e => inr (RunSchema e)
  | inl schema0 =>
      let schema := if bool_decide (o_dir o = []) then schema0 else set_dir (o_dir o) schema0 in
      if bool_decide (sc_Dir schema = []) then inr RunNoDir
      else match buildTLS h o with
      | inr e => inr e
      | inl tls =>
          if bool_decide (o_addr o = []) && negb tls then inr RunNoListener
          else match buildAuth (o_password o) (o_authFile o) (h_file h) with
          | inr e => inr (RunAuth e)
          | inl auth =>
              let plain := if bool_decide (o_addr o = []) then None
                           else checkProtectedMode (bs "-addr") (o_addr o) auth (o_insecure o) in
              match plain with
              | Some e => inr e
              | None =>
                  let secure := if tls then checkProtectedMode (bs "-tls-addr") (o_tlsAddr o) auth (o_insecure o) else None in
                  match secure with
                  | Some e => inr e
                  | None =>
                      match schema_Options schema with
                      | None => inr RunOptions
                      | Some opts =>
                          match (Open opts (h_disk h (sc_Dir schema)) (h_tick h)).1 with
                          | Err e => inr (RunOpen e)
                          | Ok db =>
                              let srv := NewServer (run_config o tls schema) db auth schema in
                              match Listen h (sv_cfg srv) with
                              | inr e => inr e
                              | inl lns => inl (srv, lns)
                              end
                          end
                      end
                  end
              end
          end
      end
  end.

(** ** Protected mode *)

(** The address names the machine itself: [localhost], a dotted address in
    127.0.0.0/8, or an IPv6 address that is the loopback address or maps one. *)
Definition loopback_host (host : gostring) : Prop :=
  host = bs "localhost"
  \/ (exists b c d, Forall (fun v => 0 <= v <= 255) [b; c; d] /\ host = dotted [127; b; c; d])
  \/ (colon ∈ host /\ exists ip, ParseIP host = Some ip /\ IsLoopback ip = true).

Definition loopback_address (a : gostring) : Prop :=
  exists host port, loopback_host host /\ (a = host ++ colon :: port \/ a = lbracket :: host ++ rbracket :: colon :: port).

Lemma addr_kind_in s b : addr_kind s = Some b -> b ∈ s.
Proof.
  induction s as [|x s IH]; cbn [addr_kind]; [done|]. destruct (decide _); [intros [= ->]; by left|]. intros H. right. by apply IH.
Qed.

Lemma isLoopback_sound host : isLoopback host = true -> loopback_host host.
Proof.
  unfold isLoopback, loopback_host. destruct (decide (host = bs "localhost")); [by left|]. intros Hl. right.
  destruct (ParseIP host) as [ip|] eqn:Hp; [|done]. pose proof Hp as Hp'. unfold ParseIP in Hp.
  destruct (addr_kind host) as [b|] eqn:Hk; [|done]. destruct (decide (b = dot)).
  - left. destruct (parseIPv4Fields host) as [v4|] eqn:H4; [|done]. injection Hp as <-.
    apply parseIPv4_canonical in H4 as (Hlen & Hv & ->).
    destruct v4 as [|a [|b1 [|c [|d [|]]]]]; try done. unfold IsLoopback, To4, v4_in_v6 in Hl. cbn in Hl.
    apply Z.eqb_eq in Hl. subst a. exists b1, c, d. split; [|done]. by inversion Hv.
  - destruct (decide (b = colon)) as [->|]; [|done]. right. split; [by apply addr_kind_in|eauto].
Qed.

Lemma checkProtectedMode_sound fl addr auth insecure : checkProtectedMode fl addr auth insecure = None ->
  required auth = false -> insecure = false -> loopback_address addr.
Proof.
  intros Hc Hr ->. unfold checkProtectedMode in Hc. rewrite Hr in Hc. cbn in Hc.
  destruct (SplitHostPort addr) as [[host port]|e] eqn:Hs; [|done]. destruct (isLoopback host) eqn:Hl; [|done].
  exists host, port. split; [by apply isLoopback_sound|by apply SplitHostPort_parts].
Qed.

Lemma Listen_bound h cfg lns : Listen h cfg = inl lns ->
  (lns.1 <> None -> cfg_Addr cfg <> []) /\ (lns.2 <> None -> cfg_TLS cfg = true).
Proof.
  unfold Listen. destruct (_ && _); [done|]. destruct (bool_decide (cfg_Addr cfg = [])) eqn:Ha.
  - destruct (cfg_TLS cfg); [destruct (h_listen _ _); [|done]|]; by intros [= <-].
  - apply bool_decide_eq_false in Ha. destruct (h_listen h (cfg_Addr cfg)); [|done].
    destruct (cfg_TLS cfg); [destruct (h_listen _ _); [|done]|]; by intros [= <-].
Qed.

(** The bindings [run] made, and the checks it made before. *)
Lemma run_checks h o srv lns : run h o = inl (srv, lns) ->
  cfg_Addr (sv_cfg srv) = o_addr o /\ cfg_TLSAddr (sv_cfg srv) = o_tlsAddr o
  /\ (o_addr o <> [] -> checkProtectedMode (bs "-addr") (o_addr o) (sv_auth srv) (o_insecure o) = None)
  /\ (cfg_TLS (sv_cfg srv) = true -> checkProtectedMode (bs "-tls-addr") (o_tlsAddr o) (sv_auth srv) (o_insecure o) = None)
  /\ Listen h (sv_cfg srv) = inl lns.
Proof.
  unfold run. destruct (bool_decide (o_schema o = [])); [done|]. destruct (LoadSchema _) as [schema0|]; [|done].
  set (schema := if bool_decide (o_dir o = []) then schema0 else set_dir (o_dir o) schema0).
  destruct (bool_decide (sc_Dir schema = [])); [done|]. destruct (buildTLS h o) as [tls|]; [|done].
  destruct (_ && _); [done|]. destruct (buildAuth _ _ _) as [auth|]; [|done].
  destruct (if bool_decide (o_addr o = []) then _ else _) eqn:Hplain; [done|].
  destruct (if tls then _ else _) eqn:Htls; [done|].
  destruct (schema_Options schema) as [opts|]; [|done]. destruct (Open _ _ _).1 as [db|]; [|done].
  destruct (Listen _ _) as [l|] eqn:Hln; [|done]. intros [= <- <-]. split_and!; [done|done| | |done].
  - intros Ha. by rewrite bool_decide_eq_false_2 in Hplain.
  - intros Ht. cbn in Ht. by rewrite Ht in Htls.
Qed.

(** Protected mode: once the server listens, either a connection starts
    out unauthenticated, or the operator passed -insecure, or every address it
    binds, plain or TLS, is a loopback address (localhost, 127.a.b.c in its
    one spelling, or an IPv6 loopback), whatever the schema, the files and the
    flags are. *)
Theorem protected_mode h o srv lns : run h o = inl (srv, lns) -> o_insecure o = false ->
  st_authed (initial_state (sv_auth srv)) = true ->
  (lns.1 <> None -> loopback_address (cfg_Addr (sv_cfg srv)))
  /\ (lns.2 <> None -> loopback_address (cfg_TLSAddr (sv_cfg srv))).
Proof.
  intros Hr Hi Ha. destruct (run_checks _ _ _ _ Hr) as (Ea & Et & Hc & Hct & Hl). destruct (Listen_bound _ _ _ Hl) as [Hb1 Hb2].
  assert (required (sv_auth srv) = false) as Hreq. { unfold initial_state in Ha. by destruct (required (sv_auth srv)). }
  rewrite Ea, Et in *. split; intros Hn.
  - eapply checkProtectedMode_sound; [apply Hc|done|done]. auto.
  - eapply checkProtectedMode_sound; [apply Hct|done|done]. auto.
Qed.

End run.
