(* ===== verification/CommandLine.v ===== *)
(** * The command line of the server (nteedb-server/main.go)

    [main]: the flags with their defaults, the version, and what the process
    prints and ends with when it cannot serve.  A server that listens without
    credentials was told so on the command line, or is reachable from the
    machine only. *)

From S2P Require Import Prelude Floats Types Json Record BTree PkIndex SecIndex Hint Meta Store Ops Load Compact Text Net Proto Auth ServerSchema Server Flags Startup.
#[local] Open Scope Z_scope.

(** What a release build sets with -ldflags. *)
Definition Version : gostring := bs "dev".

(** The variables the flags are bound to. *)
Record cliVars := mkVars { cv_opts : cliOptions; cv_version : bool }.

Definition minute : Z := 60 * 10 ^ 9.

(** The defaults; the password comes from NTEEDB_AUTH. *)
Definition default_vars (nteedb_auth : gostring) : cliVars :=
  mkVars (mkCli (bs "127.0.0.1:6666") defaultTLSAddr [] [] [] [] nteedb_auth [] false (5 * minute)) false.

Definition on_opts (f : cliOptions -> cliOptions) (c : cliVars) : cliVars := mkVars (f (cv_opts c)) (cv_version c).

Definition with_addr (v : gostring) (o : cliOptions) : cliOptions :=
  mkCli v (o_tlsAddr o) (o_tlsCert o) (o_tlsKey o) (o_schema o) (o_dir o) (o_password o) (o_authFile o) (o_insecure o) (o_idle o).
Definition with_tlsAddr (v : gostring) (o : cliOptions) : cliOptions :=
  mkCli (o_addr o) v (o_tlsCert o) (o_tlsKey o) (o_schema o) (o_dir o) (o_password o) (o_authFile o) (o_insecure o) (o_idle o).
Definition with_tlsCert (v : gostring) (o : cliOptions) : cliOptions :=
  mkCli (o_addr o) (o_tlsAddr o) v (o_tlsKey o) (o_schema o) (o_dir o) (o_password o) (o_authFile o) (o_insecure o) (o_idle o).
Definition with_tlsKey (v : gostring) (o : cliOptions) : cliOptions :=
  mkCli (o_addr o) (o_tlsAddr o) (o_tlsCert o) v (o_schema o) (o_dir o) (o_password o) (o_authFile o) (o_insecure o) (o_idle o).
Definition with_schema (v : gostring) (o : cliOptions) : cliOptions :=
  mkCli (o_addr o) (o_tlsAddr o) (o_tlsCert o) (o_tlsKey o) v (o_dir o) (o_password o) (o_authFile o) (o_insecure o) (o_idle o).
Definition with_dir (v : gostring) (o : cliOptions) : cliOptions :=
  mkCli (o_addr o) (o_tlsAddr o) (o_tlsCert o) (o_tlsKey o) (o_schema o) v (o_password o) (o_authFile o) (o_insecure o) (o_idle o).
Definition with_password (v : gostring) (o : cliOptions) : cliOptions :=
  mkCli (o_addr o) (o_tlsAddr o) (o_tlsCert o) (o_tlsKey o) (o_schema o) (o_dir o) v (o_authFile o) (o_insecure o) (o_idle o).
Definition with_authFile (v : gostring) (o : cliOptions) : cliOptions :=
  mkCli (o_addr o) (o_tlsAddr o) (o_tlsCert o) (o_tlsKey o) (o_schema o) (o_dir o) (o_password o) v (o_insecure o) (o_idle o).
Definition with_insecure (v : bool) (o : cliOptions) : cliOptions :=
  mkCli (o_addr o) (o_tlsAddr o) (o_tlsCert o) (o_tlsKey o) (o_schema o) (o_dir o) (o_password o) (o_authFile o) v (o_idle o).
Definition with_idle (v : Z) (o : cliOptions) : cliOptions :=
  mkCli (o_addr o) (o_tlsAddr o) (o_tlsCert o) (o_tlsKey o) (o_schema o) (o_dir o) (o_password o) (o_authFile o) (o_insecure o) v.

(** The flags [main] defines. *)
Definition formal_flags : list (gostring * @flagKind cliVars) :=
  [(bs "version", BoolFlag (fun v c => mkVars (cv_opts c) v));
   (bs "addr", StringFlag (fun v => on_opts (with_addr v)));
   (bs "tls-addr", StringFlag (fun v => on_opts (with_tlsAddr v)));
   (bs "tls-cert", StringFlag (fun v => on_opts (with_tlsCert v)));
   (bs "tls-key", StringFlag (fun v => on_opts (with_tlsKey v)));
   (bs "schema", StringFlag (fun v => on_opts (with_schema v)));
   (bs "dir", StringFlag (fun v => on_opts (with_dir v)));
   (bs "auth", StringFlag (fun v => on_opts (with_password v)));
   (bs "auth-file", StringFlag (fun v => on_opts (with_authFile v)));
   (bs "insecure", BoolFlag (fun v => on_opts (with_insecure v)));
   (bs "idle", DurationFlag (fun v => on_opts (with_idle v)))].

Definition lookup_flag (name : gostring) : option (@flagKind cliVars) :=
  snd <$> head (filter (fun nf => nf.1 = name) formal_flags).

(** ** Starting *)

(** The bound addresses, empty when there is no listener. *)
Definition Addr (lns : option gostring * option gostring) : gostring := default [] lns.1.
Definition TLSAddr (lns : option gostring * option gostring) : gostring := default [] lns.2.

(** The line the clients' test harnesses read the address from, and the one
    about TLS.  [Printf] writes the arguments as they are. *)
Definition startup_lines (o : cliOptions) (v : Server) (lns : option gostring * option gostring) : list gostring :=
  let cfg := run_config o (cfg_TLS (sv_cfg v)) (sv_schema v) in
  let autoCompact := if cfg_AutoCompact cfg && cfg_BlobsRelieve cfg then bs "on"
                     else if cfg_AutoCompact cfg then bs "on (blobs off)" else bs "off" in
  let detail := bs "(store " ++ sc_Dir (sv_schema v) ++ bs ", auth " ++ a_mode (sv_auth v) ++ bs ", "
                ++ format_int (zlen (sc_Indexes (sv_schema v))) ++ bs " indexes, auto-compact " ++ autoCompact ++ bs ")" in
  (if bool_decide (Addr lns = []) then bs "plain listener disabled " ++ detail
   else bs "listening on " ++ Addr lns ++ bs " " ++ detail)
  :: (if bool_decide (TLSAddr lns = []) then [] else [bs "tls on " ++ TLSAddr lns ++ bs " (cert " ++ o_tlsCert o ++ bs ")"]).

(** How the process starts: it serves, having logged some lines, or it ends
    with a status. *)
Inductive started_as :=
  | Serving (v : Server) (lns : option gostring * option gostring) (log : list gostring)
  | PrintedVersion (line : gostring)
  | UsageExit (e : flagError) (status : Z)
  | FatalExit (e : runError).

(** No other flag touches [o_insecure]. *)
Lemma flag_keeps_insecure name k value t t' : name <> bs "insecure" -> lookup_flag name = Some k -> flag_set k value t = Some t' ->
  o_insecure (cv_opts t) = false -> o_insecure (cv_opts t') = false.
Proof.
  intros Hne Hf. unfold lookup_flag in Hf. apply fmap_Some in Hf as ([n f] & Hh & ->). cbn [snd].
  apply head_Some_elem_of in Hh. apply list_elem_of_filter in Hh as [Hn Hin]. cbn in Hn. subst n.
  unfold formal_flags in Hin. repeat (apply elem_of_cons in Hin as [[= -> ->]|Hin]); cbn; try done; [..|by apply elem_of_nil in Hin].
  all: try by intros [= <-].
  all: intros (x & _ & ->)%fmap_Some; done.
Qed.

Section main.
Context {BT : BTreeG} {E : Env}.

(** [main]: [flag.Parse] ends the process with 0 for a request for help and
    with 2 for an error; arguments after the flags are ignored. *)
Definition main (h : Host) (nteedb_auth : gostring) (args : list gostring) : started_as :=
  match parse_flags lookup_flag args (default_vars nteedb_auth) with
  | inr FlagHelp => UsageExit FlagHelp 0
  | inr e => UsageExit e 2
  | inl c =>
      if cv_version c then PrintedVersion (bs "nteedb-server " ++ Version)
      else match run h (cv_opts c) with
           | inr e => FatalExit e
           | inl (v, lns) => Serving v lns (startup_lines (cv_opts c) v lns)
           end
  end.

(** ** Protected mode *)

(** C27. Protected mode, from the command line on: when the process serves, either
    a connection starts out unauthenticated, or some argument reads as the flag
    -insecure, or every address it listens on, plain or TLS, is a loopback
    address (localhost, 127.a.b.c in its one spelling, or an IPv6 loopback),
    whatever the other arguments, the environment, the schema and the files
    are. *)
Theorem main_protected h nteedb_auth args v lns log : main h nteedb_auth args = Serving v lns log ->
  ~ mentions (bs "insecure") args -> st_authed (initial_state (sv_auth v)) = true ->
  (lns.1 <> None -> loopback_address (cfg_Addr (sv_cfg v)))
  /\ (lns.2 <> None -> loopback_address (cfg_TLSAddr (sv_cfg v))).
Proof.
  unfold main. destruct (parse_flags _ _ _) as [c|e] eqn:Hp; [|by destruct e]. destruct (cv_version c); [done|].
  destruct (run h (cv_opts c)) as [[v' lns']|] eqn:Hr; [|done]. intros [= <- <- _] Hno Ha.
  apply (protected_mode h (cv_opts c)); [done| |done].
  apply (parse_flags_keeps lookup_flag (fun c => o_insecure (cv_opts c) = false) (length args) args (default_vars nteedb_auth) c); try done.
  intros name k value t t' Hm Hf Hs Ht.
  assert (name <> bs "insecure") as Hne by (intros ->; by apply Hno). by apply (flag_keeps_insecure name k value t t').
Qed.
End main.

(** ** Options as a command line *)

(** Every option bound by its flag. *)
Definition command_line (o : cliOptions) : list (gostring * gostring) :=
  [(bs "addr", o_addr o); (bs "tls-addr", o_tlsAddr o); (bs "tls-cert", o_tlsCert o); (bs "tls-key", o_tlsKey o);
   (bs "schema", o_schema o); (bs "dir", o_dir o); (bs "auth", o_password o); (bs "auth-file", o_authFile o);
   (bs "insecure", if o_insecure o then bs "true" else bs "false"); (bs "idle", format_int (o_idle o) ++ bs "ns")].

(** Whatever the options, their command line gives them back, whatever the
    environment; an idle time is a number of nanoseconds. *)
Theorem command_line_read o nteedb_auth : in64 (o_idle o) ->
  parse_flags lookup_flag (binding <$> command_line o) (default_vars nteedb_auth) = inl (mkVars o false).
Proof.
  intros Hi. apply parse_bindings.
  - unfold command_line, flag_name. repeat constructor; cbn [fst]; first [by vm_compute|decide_now].
  - assert (Hd : ParseDuration (format_int (o_idle o) ++ bs "ns") = Some (o_idle o)).
    { rewrite <- (Z.mul_1_r (o_idle o)) at 2. apply ParseDuration_whole; [done|by rewrite Z.mul_1_r]. }
    unfold command_line. do 8 (erewrite set_all_cons; [|reflexivity|reflexivity]).
    erewrite set_all_cons; [|reflexivity|instantiate (1 := mkVars (with_insecure (o_insecure o) _) _); by destruct (o_insecure o)].
    erewrite set_all_cons; [|reflexivity|cbn [flag_set snd]; rewrite Hd; reflexivity]. by destruct o.
Qed.
