(* ===== verification/Policy.v ===== *)
(** * Automatic compaction (nteedb-server/server.go)

    The server's reclamation policy: from measurements of the store it decides
    whether to relieve the blob files, to compact the log, or to do nothing.
    Whatever it decides, no reader can tell. *)

From S2P Require Import Prelude Floats Types Json Record BTree PkIndex SecIndex Hint Meta Store SecMaint IndexStep LogSpec Invariant Ops Contents PutProofs Load Recovery Compact CompactProofs RelieveProofs Text Proto Auth ServerSchema Server.
From Stdlib Require Import Floats.SpecFloat.
#[local] Open Scope Z_scope.

Section policy.
Context {BT : BTreeG} {E : Env}.
#[local] Notation MV := (M Server).

(** A store operation of the background goroutine; a panic ends the process. *)
Definition sv_do {A} (m : M DB A) : MV (res A) := fun v =>
  let '(r, db) := m (sv_db v) in
  match r with
  | Err EPanic => (Err EPanic, set_sv_db db v)
  | r => (Ok r, set_sv_db db v)
  end.

(** [float64(part) >= ratio*float64(whole)]. *)
Definition share_reached (ratio : f64) (part whole : Z) : bool :=
  SFleb (SFmul 53 1024 ratio (f64_of_Z whole)) (f64_of_Z part).

Definition zero_usage : BlobUsage := mkBlobUsage 0 0 0 0.

Definition blobsNeedRelieve (st : Stats) : MV (BlobUsage * bool) :=
  v <- mget ;;
  if negb (cfg_BlobsRelieve (sv_cfg v)) || (st_BlobBytes st <? cfg_BlobMin (sv_cfg v)) then mok (zero_usage, false)
  else
    r <- sv_do getBlobUsage ;;
    match r with
    | Err _ => mok (zero_usage, false)
    | Ok u => mok (u, share_reached (cfg_BlobRatio (sv_cfg v)) (bu_OrphanedBytes u) (bu_TotalBytes u) || (1 <? bu_Generations u))
    end.

Definition runBlobsRelieve : MV unit :=
  r <- sv_do BlobsRelieve ;;
  match r with
  | Err _ => mok tt
  | Ok _ => mmodify (fun v => set_sv_counts (sv_commands v) (sv_autoCompacts v + 1) (sv_blobCompacts v + 1) v)
  end.

Definition mainNeedsCompact (v : Server) (st : Stats) : bool :=
  if st_MainBytes st <? cfg_MainMinBytes (sv_cfg v) then false
  else share_reached (cfg_MainRatio (sv_cfg v)) (wrap64 (st_MainBytes st - LiveBytes (sv_db v))) (st_MainBytes st).

Definition runMainCompact : MV unit :=
  r <- sv_do Compact ;;
  match r with
  | Err _ => mok tt
  | Ok _ => mmodify (fun v => set_sv_counts (sv_commands v) (sv_autoCompacts v + 1) (sv_blobCompacts v) v)
  end.

(** [maybeCompact]: one pass of the policy. *)
Definition maybeCompact : MV unit :=
  v <- mget ;;
  let st := getStats (sv_db v) in
  un <- blobsNeedRelieve st ;;
  if un.2 then runBlobsRelieve
  else
    v <- mget ;;
    if mainNeedsCompact v st then runMainCompact else mok tt.

(** [autoCompactLoop]: a pass per tick of its timer, until it is stopped. *)
Fixpoint autoCompactLoop (ticks : nat) : MV unit :=
  match ticks with O => mok tt | S n => maybeCompact ;;; autoCompactLoop n end.

Example share_ex : share_reached half 50 100 = true /\ share_reached half 49 100 = false
  /\ share_reached half 0 0 = true.
Proof. by vm_compute. Qed.

(** ** Nothing a reader can see *)

Context {BL : BTreeGLaws BT} {EL : EnvLaws E}.

Lemma expired_mono s now now' k : now <= now' -> expired_at s now k = true -> expired_at s now' k = true.
Proof. intros Hle. unfold expired_at. destruct (live s !! k) as [e|]; [|done]. unfold expiredAt. lia. Qed.

(** A rewrite at [now] cannot be seen from then on. *)
Lemma unexpired_after s s' now now' : contents s' = unexpired s now -> keeps_exps s s' now -> now <= now' ->
  unexpired s' now' = unexpired s now'.
Proof.
  intros Hc Hx Hle. apply map_eq. intros k. unfold unexpired in *. rewrite (lookup_keep (expired_at s' now')), (lookup_keep (expired_at s now')), Hc, (lookup_keep (expired_at s now)).
  specialize (Hx k). destruct (expired_at s now k) eqn:Hex.
  - rewrite (expired_mono s now now' k Hle Hex). by destruct (expired_at s' now' k).
  - assert (expired_at s' now' k = expired_at s now' k) as ->; [|done]. unfold expired_at.
    destruct (live s' !! k) as [e'|], (live s !! k) as [e|]; try done. cbn in Hx. injection Hx as Hx. unfold expiredAt. by rewrite Hx.
Qed.

(** What a pass needs to know about sizes: a rewritten log, and a rewritten
    blob file, fit the fields that describe them. *)
Definition pass_fits (s : DB) : Prop :=
  rewrite_fits (compacted s) /\ db_blobs s !! (db_curGen s + 1) = None /\ in64 (db_curGen s + 1)
  /\ rewrite_fits (relieve_result s).1 /\ zlen (relieve_result s).2 <= MaxInt64.

(** The states before and after a pass, to a reader from then on. *)
Definition same_view (s s' : DB) : Prop :=
  forall now, env_now (S (db_tick s)) <= now -> env_now (S (S (S (db_tick s)))) <= now -> unexpired s' now = unexpired s now.

Lemma live_blob_bytes_ok s log es : Inv s log -> (forall e, e ∈ es -> e ∈ pk_scan (db_pk s)) -> forall acc, is_ok (live_blob_bytes s es acc) = true.
Proof.
  intros HI. induction es as [|e es IH]; intros Hes acc; cbn [live_blob_bytes]; [done|].
  destruct (live_record s log e HI) as (off & r & _ & _ & Hrd); [apply Hes; by left|]. rewrite Hrd. cbn [res_bind].
  apply IH. intros x Hx. apply Hes. by right.
Qed.

Lemma blobsNeedRelieve_run st v log : Inv (sv_db v) log -> db_closed (sv_db v) = false ->
  exists u b, blobsNeedRelieve st v = (Ok (u, b), v).
Proof.
  intros HI Hcl. unfold blobsNeedRelieve. rewrite mget_bnd. destruct (_ || _); [by eexists _, _|].
  assert (exists u, getBlobUsage (sv_db v) = (Ok u, sv_db v)) as [u Hu].
  { unfold getBlobUsage. rewrite (open_bnd (fun _ => _)), mget_bnd by done. unfold mres, mbnd.
    pose proof (live_blob_bytes_ok (sv_db v) log (pk_scan (db_pk (sv_db v))) HI (fun e H => H) 0) as Hok.
    destruct (live_blob_bytes _ _ _); [by eexists|done]. }
  unfold sv_do. unfold mbnd. rewrite Hu. eexists _, _. unfold mok. f_equal. by destruct v.
Qed.


End policy.
