(* ===== verification/Shutdown.v ===== *)
(** * Serving and shutting down (nteedb-server/server.go, main.go)

    The goroutines around the connections: an accept loop per listener, a
    handler per connection, the automatic compaction, [Serve], and [run] with
    its deferred [db.Close].  [Close] may be called by [Serve], when an accept
    loop fails, and by [run].  What a handler does with a command is modelled in
    [Server]; here a handler has a number of requests it has read already.

    Steps the server takes by itself are functions; the others, of clients, the
    operating system and the timer, are constructors of [external].  Clients are
    taken to read their responses: writing one does not wait. *)

From S2P Require Import Prelude.
#[local] Open Scope nat_scope.

(** ** State *)

(** [acceptLoop]: in Accept, between it and the table, between the table and
    the goroutine, after a failure, returned with or without an error. *)
Inductive acc_pc := AAccept | AGot (c : nat) | ATabled (c : nat) | AFailed | AReturned (err : bool).

(** A handler: requests read but not yet served; then its deferred calls. *)
Inductive han_pc := HServe (requests : nat) | HEnding | HShut | HUntabled.

Inductive auto_pc := LIdle | LWork | LDone.

(** [Close]; [KReturned true] closed the server, [KReturned false] found it
    closed. *)
Inductive clo_pc := KCas | KStop | KListener (j : nat) | KConns | KWait | KReturned (worked : bool).

(** [Serve]: collecting results of accept loops, knowing whether one was an
    error; or inside [Close]. *)
Inductive serve_pc := SCollect (left : nat) (first : bool) | SClosing (k : clo_pc) (left : nat) | SReturned (err : bool).

(** [run]: waiting for a signal or for [Serve]; inside [Close]; about to close
    the store; done. *)
Inductive main_pc := MSelect | MClosing (k : clo_pc) | MReturn | MExit.

(** [v_swept], [v_late] and [v_done] are history: whether [Close] has gone
    through the table of connections, the connections entered after that, and
    whether the [Close] that closed the server has returned. *)
Record srv := Srv {
  v_closed : bool;
  v_stop : bool;                          (* the channel stop is closed *)
  v_lns : list bool;                      (* listeners that are open *)
  v_conns : gset nat;                     (* the table *)
  v_open : gset nat;                      (* connections whose socket is open *)
  v_fresh : nat;
  v_wg : nat;
  v_acc : list acc_pc;
  v_han : gmap nat han_pc;
  v_auto : auto_pc;
  v_errc : list bool;                     (* errc: errors or nil *)
  v_serve : serve_pc;
  v_main : main_pc;
  v_db : bool;                            (* the store was closed *)
  v_swept : bool;
  v_late : gset nat;
  v_done : bool
}.

Definition set_flags (closed stop : bool) (lns : list bool) (σ : srv) : srv :=
  Srv closed stop lns (v_conns σ) (v_open σ) (v_fresh σ) (v_wg σ) (v_acc σ) (v_han σ) (v_auto σ) (v_errc σ) (v_serve σ) (v_main σ)
    (v_db σ) (v_swept σ) (v_late σ) (v_done σ).
Definition set_done (σ : srv) : srv :=
  Srv (v_closed σ) (v_stop σ) (v_lns σ) (v_conns σ) (v_open σ) (v_fresh σ) (v_wg σ) (v_acc σ) (v_han σ) (v_auto σ) (v_errc σ) (v_serve σ)
    (v_main σ) (v_db σ) (v_swept σ) (v_late σ) true.
Definition set_net (conns open : gset nat) (swept : bool) (late : gset nat) (σ : srv) : srv :=
  Srv (v_closed σ) (v_stop σ) (v_lns σ) conns open (v_fresh σ) (v_wg σ) (v_acc σ) (v_han σ) (v_auto σ) (v_errc σ) (v_serve σ) (v_main σ)
    (v_db σ) swept late (v_done σ).
Definition set_work (wg : nat) (han : gmap nat han_pc) (auto : auto_pc) (σ : srv) : srv :=
  Srv (v_closed σ) (v_stop σ) (v_lns σ) (v_conns σ) (v_open σ) (v_fresh σ) wg (v_acc σ) han auto (v_errc σ) (v_serve σ) (v_main σ)
    (v_db σ) (v_swept σ) (v_late σ) (v_done σ).
Definition set_acc (i : nat) (a : acc_pc) (σ : srv) : srv :=
  Srv (v_closed σ) (v_stop σ) (v_lns σ) (v_conns σ) (v_open σ) (v_fresh σ) (v_wg σ) (<[i := a]> (v_acc σ)) (v_han σ) (v_auto σ) (v_errc σ)
    (v_serve σ) (v_main σ) (v_db σ) (v_swept σ) (v_late σ) (v_done σ).
Definition set_fresh (n : nat) (σ : srv) : srv :=
  Srv (v_closed σ) (v_stop σ) (v_lns σ) (v_conns σ) (v_open σ) n (v_wg σ) (v_acc σ) (v_han σ) (v_auto σ) (v_errc σ) (v_serve σ) (v_main σ)
    (v_db σ) (v_swept σ) (v_late σ) (v_done σ).
Definition set_top (errc : list bool) (serve : serve_pc) (main : main_pc) (db : bool) (σ : srv) : srv :=
  Srv (v_closed σ) (v_stop σ) (v_lns σ) (v_conns σ) (v_open σ) (v_fresh σ) (v_wg σ) (v_acc σ) (v_han σ) (v_auto σ) errc serve main
    db (v_swept σ) (v_late σ) (v_done σ).

Definition set_han (c : nat) (h : han_pc) (σ : srv) : srv := set_work (v_wg σ) (<[c := h]> (v_han σ)) (v_auto σ) σ.

(** ** The server's own steps *)

Definition ln_open (i : nat) (σ : srv) : bool := default false (v_lns σ !! i).

(** [acceptLoop].  Accept on a closed listener fails; the result goes into the
    buffered channel. *)
Definition acc_next (i : nat) (σ : srv) : option srv :=
  match v_acc σ !! i with
  | Some AAccept => if ln_open i σ then None else Some (set_acc i AFailed σ)
  | Some AFailed =>
      let e := negb (v_closed σ) in
      Some (set_acc i (AReturned e) (set_top (v_errc σ ++ [e]) (v_serve σ) (v_main σ) (v_db σ) σ))
  | Some (AGot c) =>
      Some (set_acc i (ATabled c)
              (set_net ({[ c ]} ∪ v_conns σ) (v_open σ) (v_swept σ) (if v_swept σ then {[ c ]} ∪ v_late σ else v_late σ) σ))
  | Some (ATabled c) => Some (set_acc i AAccept (set_work (S (v_wg σ)) (<[c := HServe 0]> (v_han σ)) (v_auto σ) σ))
  | _ => None
  end.

(** [handleConn]: a request that was read is served; without one, reading from
    a closed socket fails; then the socket, the table and the wait group. *)
Definition han_next (c : nat) (σ : srv) : option srv :=
  match v_han σ !! c with
  | Some (HServe (S n)) => Some (set_han c (HServe n) σ)
  | Some (HServe O) => if decide (c ∈ v_open σ) then None else Some (set_han c HEnding σ)
  | Some HEnding => Some (set_net (v_conns σ) (v_open σ ∖ {[ c ]}) (v_swept σ) (v_late σ) (set_han c HShut σ))
  | Some HShut => Some (set_net (v_conns σ ∖ {[ c ]}) (v_open σ) (v_swept σ) (v_late σ) (set_han c HUntabled σ))
  | Some HUntabled => Some (set_work (pred (v_wg σ)) (delete c (v_han σ)) (v_auto σ) σ)
  | None => None
  end.

(** A request that ends the connection: quit, a fatal protocol error, or a
    response that cannot be written. *)
Definition quit_next (c : nat) (σ : srv) : option srv :=
  match v_han σ !! c with Some (HServe (S n)) => Some (set_han c HEnding σ) | _ => None end.

(** [autoCompactLoop]. *)
Definition auto_next (σ : srv) : option srv :=
  match v_auto σ with
  | LWork => Some (set_work (v_wg σ) (v_han σ) LIdle σ)
  | LIdle => if v_stop σ then Some (set_work (pred (v_wg σ)) (v_han σ) LDone σ) else None
  | LDone => None
  end.

(** [Server.Close]. *)
Definition close_next (k : clo_pc) (σ : srv) : option (clo_pc * srv) :=
  match k with
  | KCas => if v_closed σ then Some (KReturned false, σ) else Some (KStop, set_flags true (v_stop σ) (v_lns σ) σ)
  | KStop => Some (KListener 0, set_flags (v_closed σ) true (v_lns σ) σ)
  | KListener j => if j <? length (v_lns σ) then Some (KListener (S j), set_flags (v_closed σ) (v_stop σ) (<[j := false]> (v_lns σ)) σ)
                   else Some (KConns, σ)
  | KConns => Some (KWait, set_net (v_conns σ) (v_open σ ∖ v_conns σ) true (v_late σ) σ)
  | KWait => if v_wg σ =? 0 then Some (KReturned true, set_done σ) else None
  | KReturned _ => None
  end.

(** [Serve]: the first error tears the other listener down. *)
Definition serve_next (σ : srv) : option srv :=
  let top errc s := set_top errc s (v_main σ) (v_db σ) in
  match v_serve σ with
  | SCollect O first => Some (top (v_errc σ) (SReturned first) σ)
  | SCollect (S n) first =>
      match v_errc σ with
      | e :: errc => Some (top errc (if e && negb first then SClosing KCas n else SCollect n first) σ)
      | [] => None
      end
  | SClosing (KReturned _) n => Some (top (v_errc σ) (SCollect n true) σ)
  | SClosing k n => match close_next k σ with
                    | Some (k', σ') => Some (set_top (v_errc σ') (SClosing k' n) (v_main σ') (v_db σ') σ')
                    | None => None
                    end
  | SReturned _ => None
  end.

(** The end of [run]: the result of [Serve] arrives, the server is closed, then
    the store. *)
Definition main_next (σ : srv) : option srv :=
  let top m db σ := set_top (v_errc σ) (v_serve σ) m db σ in
  match v_main σ with
  | MSelect => match v_serve σ with SReturned _ => Some (top (MClosing KCas) (v_db σ) σ) | _ => None end
  | MClosing (KReturned _) => Some (top MReturn (v_db σ) σ)
  | MClosing k => match close_next k σ with Some (k', σ') => Some (top (MClosing k') (v_db σ') σ') | None => None end
  | MReturn => Some (top MExit true σ)
  | MExit => None
  end.

Inductive internal (σ σ' : srv) : Prop :=
  | int_acc i : acc_next i σ = Some σ' -> internal σ σ'
  | int_han c : han_next c σ = Some σ' -> internal σ σ'
  | int_quit c : quit_next c σ = Some σ' -> internal σ σ'
  | int_auto : auto_next σ = Some σ' -> internal σ σ'
  | int_serve : serve_next σ = Some σ' -> internal σ σ'
  | int_main : main_next σ = Some σ' -> internal σ σ'.

(** ** Everybody else's steps *)

Inductive external (σ : srv) : srv -> Prop :=
  (** a client connects *)
  | ext_connect i : v_acc σ !! i = Some AAccept -> ln_open i σ = true ->
      external σ (set_acc i (AGot (v_fresh σ)) (set_fresh (S (v_fresh σ))
        (set_net (v_conns σ) ({[ v_fresh σ ]} ∪ v_open σ) (v_swept σ) (v_late σ) σ)))
  (** Accept fails by itself *)
  | ext_accept_error i : v_acc σ !! i = Some AAccept -> external σ (set_acc i AFailed σ)
  (** a client sends a request *)
  | ext_request c n : v_han σ !! c = Some (HServe n) -> c ∈ v_open σ -> external σ (set_han c (HServe (S n)) σ)
  (** a client goes away, or is idle for too long *)
  | ext_leave c : v_han σ !! c = Some (HServe 0) -> external σ (set_han c HEnding σ)
  (** the timer *)
  | ext_tick : v_auto σ = LIdle -> external σ (set_work (v_wg σ) (v_han σ) LWork σ)
  (** SIGINT or SIGTERM *)
  | ext_signal : v_main σ = MSelect -> external σ (set_top (v_errc σ) (v_serve σ) (MClosing KCas) (v_db σ) σ).

Definition step (σ σ' : srv) : Prop := internal σ σ' \/ external σ σ'.

(** [Serve] was called on [n] listeners. *)
Definition started (n : nat) (auto : bool) : srv :=
  Srv false false (replicate n true) ∅ ∅ 0 (if auto then 1 else 0) (replicate n AAccept) ∅ (if auto then LIdle else LDone) []
    (SCollect n false) MSelect false false ∅ false.

Definition reachable (n : nat) (auto : bool) (σ : srv) : Prop := rtc step (started n auto) σ.
