(* ===== verification/ShutdownProofs.v ===== *)
(** * Shutting down: the invariant

    Connections, handlers and the wait group ([net_ok]), and how far the server
    is closed by which call of [Close] ([close_ok]); every step keeps both.
    With them, what a [Close] that has returned has done. *)

From S2P Require Import Prelude Shutdown.
#[local] Open Scope nat_scope.

(** ** The invariant *)

Definition live_auto (a : auto_pc) : nat := match a with LDone => 0 | _ => 1 end.

(** The connection an accept loop has in hand. *)
Definition in_hand (a : acc_pc) : option nat := match a with AGot c | ATabled c => Some c | _ => None end.

Definition tabled (a : acc_pc) (c : nat) : Prop := a = ATabled c.

Definition pending (a : acc_pc) : Prop := match a with AGot _ => True | _ => False end.

#[global] Instance pending_dec a : Decision (pending a).
Proof. destruct a; apply _. Defined.

(** Connections, handlers and the wait group. *)
Record net_ok (σ : srv) : Prop := NetOk {
  n_wg : v_wg σ = size (v_han σ) + live_auto (v_auto σ);
  n_tab : forall c h, v_han σ !! c = Some h -> (c ∈ v_conns σ <-> h <> HUntabled);
  n_got : forall i c, v_acc σ !! i = Some (AGot c) -> c ∉ v_conns σ;
  n_tabled : forall i c, v_acc σ !! i = Some (ATabled c) -> c ∈ v_conns σ;
  n_hand : forall i a c, v_acc σ !! i = Some a -> in_hand a = Some c -> v_han σ !! c = None /\ c < v_fresh σ;
  n_one : forall i j a b c, v_acc σ !! i = Some a -> v_acc σ !! j = Some b -> in_hand a = Some c -> in_hand b = Some c -> i = j;
  n_fresh : (forall c h, v_han σ !! c = Some h -> c < v_fresh σ) /\ forall c, c ∈ v_conns σ -> c < v_fresh σ;
  n_swept : v_swept σ = true -> forall c, c ∈ v_conns σ -> c ∈ v_open σ -> c ∈ v_late σ;
  n_count : v_swept σ = true -> size (v_late σ) + length (filter pending (v_acc σ)) <= length (v_acc σ);
  n_late : v_swept σ = false -> v_late σ = ∅;
  n_len : length (v_lns σ) = length (v_acc σ);
  n_done : v_done σ = true -> v_auto σ = LDone /\ forall c n, v_han σ !! c = Some (HServe n) -> c ∉ v_late σ -> n = 0
}.

(** The calls of [Close] that are closing the server. *)
Definition working (k : clo_pc) : bool := match k with KCas | KReturned _ => false | _ => true end.

(** The call of [Serve] and that of [run]. *)
Definition slot (b : bool) (σ : srv) : option clo_pc :=
  if b then match v_serve σ with SClosing k _ => Some k | _ => None end
  else match v_main σ with MClosing k => Some k | _ => None end.

Definition at_work (b : bool) (σ : srv) : bool := match slot b σ with Some k => working k | None => false end.

Definition all_closed (n : nat) (lns : list bool) : Prop := forall i b, i < n -> lns !! i = Some b -> b = false.

(** How far the server is closed when a [Close] is at [k]. *)
Definition close_phase (k : clo_pc) (σ : srv) : Prop :=
  v_closed σ = true /\ v_done σ = false /\
  match k with
  | KStop => v_swept σ = false
  | KListener j => v_stop σ = true /\ v_swept σ = false /\ all_closed j (v_lns σ)
  | KConns => v_stop σ = true /\ v_swept σ = false /\ all_closed (length (v_lns σ)) (v_lns σ)
  | KWait => v_stop σ = true /\ v_swept σ = true /\ all_closed (length (v_lns σ)) (v_lns σ)
  | _ => True
  end.

(** One call of [Close] at most closes the server; the others find it closed. *)
Record close_ok (σ : srv) : Prop := CloseOk {
  k_open : v_closed σ = false -> v_swept σ = false /\ v_done σ = false /\ (forall b, at_work b σ = false);
  k_one : forall b b', at_work b σ = true -> at_work b' σ = true -> b = b';
  k_phase : forall b k, slot b σ = Some k -> working k = true -> close_phase k σ;
  k_done : v_done σ = true -> v_stop σ = true /\ v_swept σ = true /\ all_closed (length (v_lns σ)) (v_lns σ) /\ (forall b, at_work b σ = false);
  k_busy : v_closed σ = true -> v_done σ = false -> exists b, at_work b σ = true;
  k_returned : forall b w, slot b σ = Some (KReturned w) -> v_closed σ = true /\ (w = true -> v_done σ = true);
  k_exit : v_main σ = MReturn \/ v_main σ = MExit -> v_closed σ = true;
  k_store : v_db σ = true -> v_main σ = MExit
}.

Definition shut_ok (σ : srv) : Prop := net_ok σ /\ close_ok σ.

Lemma started_ok n auto : shut_ok (started n auto).
Proof.
  assert (Hacc : forall i a, replicate n AAccept !! i = Some a -> a = AAccept) by (intros i a [-> _]%lookup_replicate; done).
  split; split; cbn; try (intros i a c H%Hacc; by subst); try (intros i c H%Hacc; done); try (intros ? ? ? ? ? H%Hacc; by subst); try done.
  - rewrite map_size_empty. by destruct auto.
  - by rewrite !length_replicate.
  - intros _. split_and!; [done|done|]. by intros [].
  - by intros [] [].
  - by intros [].
  - by intros [].
  - by intros [].
Qed.

(** ** Closing *)

(** What [close_ok] depends on. *)
Definition same_close (σ σ' : srv) : Prop :=
  v_closed σ' = v_closed σ /\ v_stop σ' = v_stop σ /\ v_lns σ' = v_lns σ /\ v_swept σ' = v_swept σ /\ v_done σ' = v_done σ
  /\ v_serve σ' = v_serve σ /\ v_main σ' = v_main σ /\ v_db σ' = v_db σ.

Lemma close_ok_same σ σ' : same_close σ σ' -> close_ok σ -> close_ok σ'.
Proof.
  intros (E1 & E2 & E3 & E4 & E5 & E6 & E7 & E8) [H1 H2 H3 H4 H5 H6 H7 H8]. unfold close_phase, at_work, slot in *.
  split; unfold close_phase, at_work, slot; rewrite ?E1, ?E2, ?E3, ?E4, ?E5, ?E6, ?E7, ?E8; auto.
Qed.

(** A turn of [Close] in the slot [b], whose owner goes on at [k']. *)
Definition close_turn (b : bool) (k : clo_pc) (k' : clo_pc) (σ σ' : srv) : Prop :=
  slot b σ = Some k /\ slot b σ' = Some k' /\ slot (negb b) σ' = slot (negb b) σ
  /\ v_db σ' = v_db σ /\ (b = true -> v_main σ' = v_main σ) /\ (b = false -> v_main σ' = MClosing k')
  /\ exists σ1, close_next k σ = Some (k', σ1) /\ v_closed σ' = v_closed σ1 /\ v_stop σ' = v_stop σ1 /\ v_lns σ' = v_lns σ1
       /\ v_swept σ' = v_swept σ1 /\ v_done σ' = v_done σ1.

Lemma all_closed_step lns j : j < length lns -> all_closed j lns -> all_closed (S j) (<[j := false]> lns).
Proof.
  intros Hj H i b Hi. intros [(<- & <- & _)|[Hne Hl]]%list_lookup_insert_Some; [done|]. apply (H i); [lia|done].
Qed.

Lemma slot_eq b b' σ σ' : slot (negb b) σ' = slot (negb b) σ -> b' <> b -> slot b' σ' = slot b' σ.
Proof. destruct b, b'; done. Qed.

Lemma slot_other b b' k k' σ σ' : close_turn b k k' σ σ' -> b' <> b -> slot b' σ' = slot b' σ /\ at_work b' σ' = at_work b' σ.
Proof. intros (_ & _ & Ho & _) Hb. unfold at_work. by rewrite (slot_eq b b' σ σ' Ho Hb). Qed.

Lemma turn_work b k k' σ σ' : close_turn b k k' σ σ' -> at_work b σ = working k /\ at_work b σ' = working k'.
Proof. intros (H1 & H2 & _). unfold at_work. by rewrite H1, H2. Qed.

Lemma turn_exit b k k' σ σ' : close_ok σ -> close_turn b k k' σ σ' ->
  (v_main σ' = MReturn \/ v_main σ' = MExit -> v_closed σ = true) /\ (v_db σ' = true -> v_main σ' = MExit).
Proof.
  intros K (Hs & Hs' & _ & Hdb & Hm1 & Hm2 & _). split.
  - intros H. destruct b; [rewrite Hm1 in H by done; by apply (k_exit _ K)|]. rewrite Hm2 in H by done. by destruct H.
  - rewrite Hdb. intros H. apply (k_store _ K) in H. destruct b; [by rewrite Hm1|]. cbn in Hs. by rewrite H in Hs.
Qed.

(** Nobody else is at work, and afterwards this call is at [k'], or done. *)
Lemma turn_ok b k k' σ σ' : close_ok σ -> close_turn b k k' σ σ' -> v_closed σ' = true ->
  (forall b', b' <> b -> at_work b' σ = false) -> (working k' = true -> close_phase k' σ') ->
  (v_done σ' = true -> v_stop σ' = true /\ v_swept σ' = true /\ all_closed (length (v_lns σ')) (v_lns σ') /\ working k' = false) ->
  (v_done σ' = false -> working k' = true) -> (forall w, k' = KReturned w -> w = true -> v_done σ' = true) -> (v_done σ = true -> v_done σ' = true) ->
  close_ok σ'.
Proof.
  intros K T Hc Hidle Hph Hd Hnd Hr Hmono. destruct (turn_work _ _ _ _ _ T) as [_ Hw]. destruct (turn_exit _ _ _ _ _ K T) as [Hex Hst].
  assert (Hidle' : forall b', b' <> b -> at_work b' σ' = false) by (intros b' Hb; destruct (slot_other _ b' _ _ _ _ T Hb) as [_ ->]; auto).
  split; try congruence.
  - intros b1 b2 H1 H2. destruct (decide (b1 = b)) as [->|N1]; [|by rewrite Hidle' in H1].
    destruct (decide (b2 = b)) as [->|N2]; [done|by rewrite Hidle' in H2].
  - intros b' k0 Hs Hk. destruct (decide (b' = b)) as [->|Hb].
    + destruct T as (_ & Hs' & _). rewrite Hs in Hs'. injection Hs' as ->. auto.
    + pose proof (Hidle' b' Hb) as Hi. unfold at_work in Hi. rewrite Hs in Hi. congruence.
  - intros H. destruct (Hd H) as (? & ? & ? & Hk). split_and!; [done..|]. intros b'. destruct (decide (b' = b)) as [->|Hb]; [by rewrite Hw|auto].
  - intros _ H. exists b. rewrite Hw. auto.
  - intros b' w Hs. split; [done|]. intros ->. destruct (decide (b' = b)) as [->|Hb].
    + destruct T as (_ & Hs' & _). rewrite Hs in Hs'. injection Hs' as <-. by eapply Hr.
    + destruct (slot_other _ b' _ _ _ _ T Hb) as [Hsb _]. rewrite Hsb in Hs. apply Hmono. by apply (k_returned _ K b' true).
  - done.
Qed.

(** A call that finds the server closed. *)
Lemma turn_found b σ σ' : close_ok σ -> close_turn b KCas (KReturned false) σ σ' -> v_closed σ = true ->
  v_closed σ' = v_closed σ -> v_stop σ' = v_stop σ -> v_lns σ' = v_lns σ -> v_swept σ' = v_swept σ -> v_done σ' = v_done σ -> close_ok σ'.
Proof.
  intros K T Hc E1 E2 E3 E4 E5. destruct (turn_work _ _ _ _ _ T) as [Hw Hw']. destruct (turn_exit _ _ _ _ _ K T) as [Hex Hst].
  assert (Hsame : forall b', at_work b' σ' = at_work b' σ).
  { intros b'. destruct (decide (b' = b)) as [->|Hb]; [by rewrite Hw, Hw'|]. by destruct (slot_other _ b' _ _ _ _ T Hb). }
  split; rewrite ?E1, ?E2, ?E3, ?E4, ?E5; try congruence.
  - intros b1 b2. rewrite !Hsame. apply (k_one _ K).
  - intros b' k0 Hs Hk. destruct (decide (b' = b)) as [->|Hb].
    + destruct T as (_ & Hs' & _). rewrite Hs in Hs'. injection Hs' as ->. done.
    + destruct (slot_other _ b' _ _ _ _ T Hb) as [Hsb _]. rewrite Hsb in Hs. pose proof (k_phase _ K b' k0 Hs Hk) as Hp.
      unfold close_phase in *. by rewrite E1, E2, E3, E4, E5.
  - intros H. destruct (k_done _ K H) as (? & ? & ? & Hi). split_and!; [done..|]. intros b'. by rewrite Hsame.
  - intros H1 H2. destruct (k_busy _ K H1 H2) as [b' Hb]. exists b'. by rewrite Hsame.
  - intros b' w Hs. destruct (decide (b' = b)) as [->|Hb].
    + destruct T as (_ & Hs' & _). rewrite Hs in Hs'. injection Hs' as ->. split; [done|congruence].
    + destruct (slot_other _ b' _ _ _ _ T Hb) as [Hsb _]. rewrite Hsb in Hs. by apply (k_returned _ K b' w).
  - done.
Qed.

Lemma close_turn_ok b k k' σ σ' : close_ok σ -> close_turn b k k' σ σ' -> close_ok σ'.
Proof.
  intros K T. pose proof T as (Hs & Hs' & _ & _ & _ & _ & σ1 & Hn & E1 & E2 & E3 & E4 & E5).
  assert (Hidle : forall b', b' <> b -> working k = true -> at_work b' σ = false).
  { intros b' Hb Hk. destruct (at_work b' σ) eqn:Ha; [|done]. destruct Hb. apply (k_one _ K); [done|]. unfold at_work. by rewrite Hs. }
  assert (Hph : working k = true -> close_phase k σ) by (intros; by apply (k_phase _ K b)).
  destruct k as [| |j| | |w]; cbn [close_next working] in *; [clear Hph|destruct (Hph eq_refl) as (Hc & Hd & Hph')..|done].
  - destruct (v_closed σ) eqn:Hc.
    + injection Hn as <- <-. apply (turn_found b σ); congruence.
    + injection Hn as <- <-. cbn in *. destruct (k_open _ K Hc) as (Hsw & Hd & Hi). apply (turn_ok b KCas KStop σ); cbn [working]; try (by intros; congruence); try (by auto).
      intros _. unfold close_phase. split_and!; congruence.
  - injection Hn as <- <-. cbn in *. apply (turn_ok b KStop (KListener 0) σ); cbn [working]; try (by intros; congruence); try (by auto).
    intros _. unfold close_phase. split_and!; try congruence. intros i c Hi. lia.
  - destruct Hph' as (Hst & Hsw & Hl). destruct (Nat.ltb_spec j (length (v_lns σ))) as [Hj|Hj]; injection Hn as <- <-; cbn in *.
    + apply (turn_ok b (KListener j) (KListener (S j)) σ); cbn [working]; try (by intros; congruence); try (by auto). intros _. unfold close_phase. split_and!; try congruence.
      rewrite E3. by apply all_closed_step.
    + apply (turn_ok b (KListener j) KConns σ); cbn [working]; try (by intros; congruence); try (by auto). intros _. unfold close_phase. split_and!; try congruence.
      rewrite E3. intros i c Hi. apply Hl. lia.
  - destruct Hph' as (Hst & Hsw & Hl). injection Hn as <- <-; cbn in *. apply (turn_ok b KConns KWait σ); cbn [working]; try (by intros; congruence); try (by auto).
    intros _. unfold close_phase. rewrite E3. split_and!; first [congruence|done].
  - destruct Hph' as (Hst & Hsw & Hl). destruct (v_wg σ =? 0); [|done]. injection Hn as <- <-; cbn in *.
    apply (turn_ok b KWait (KReturned true) σ); cbn [working]; try (by intros; congruence); try (by auto). rewrite E3. intros _. split_and!; first [congruence|done].
Qed.

(** The steps of the callers between their calls of [Close]. *)
Lemma close_ok_move σ σ' : close_ok σ ->
  v_closed σ' = v_closed σ -> v_stop σ' = v_stop σ -> v_lns σ' = v_lns σ -> v_swept σ' = v_swept σ -> v_done σ' = v_done σ ->
  (forall b, at_work b σ' = at_work b σ) ->
  (forall b k, slot b σ' = Some k -> k = KCas \/ slot b σ = Some k) ->
  (v_main σ' = MReturn \/ v_main σ' = MExit -> v_closed σ = true) -> (v_db σ' = true -> v_main σ' = MExit) -> close_ok σ'.
Proof.
  intros K E1 E2 E3 E4 E5 Hw Hs Hex Hst. split; rewrite ?E1, ?E2, ?E3, ?E4, ?E5; try assumption.
  - intros H. destruct (k_open _ K H) as (? & ? & Hi). split_and!; [done..|]. intros b. by rewrite Hw.
  - intros b b'. rewrite !Hw. apply (k_one _ K).
  - intros b k Hk Hwk. destruct (Hs b k Hk) as [->|Hk']; [done|]. pose proof (k_phase _ K b k Hk' Hwk) as Hp.
    unfold close_phase in *. by rewrite E1, E2, E3, E4, E5.
  - intros H. destruct (k_done _ K H) as (? & ? & ? & Hi). split_and!; [done..|]. intros b. by rewrite Hw.
  - intros H1 H2. destruct (k_busy _ K H1 H2) as [b Hb]. exists b. by rewrite Hw.
  - intros b w Hk. destruct (Hs b _ Hk) as [|Hk']; [done|]. by apply (k_returned _ K b).
Qed.

Lemma serve_close σ σ' : close_ok σ -> serve_next σ = Some σ' -> close_ok σ'.
Proof.
  intros K. unfold serve_next. destruct (v_serve σ) as [[|n] first|k n|e] eqn:Hs; [| |destruct (close_next k σ) as [[k' σ1]|] eqn:Hk|done].
  - intros [= <-]. apply (close_ok_move σ); try done; [intros []|intros []|apply K|apply K]; unfold at_work, slot; cbn; rewrite ?Hs; auto; done.
  - destruct (v_errc σ) as [|e errc]; [done|]. intros [= <-].
    apply (close_ok_move σ); try done; [intros []|intros []|apply K|apply K]; unfold at_work, slot; cbn; rewrite ?Hs;
      destruct (e && negb first); auto. intros ? [= <-]. auto.
  - assert (Hr : forall w, k <> KReturned w) by (by intros w ->). intros E.
    assert (σ' = set_top (v_errc σ1) (SClosing k' n) (v_main σ1) (v_db σ1) σ1) as -> by (destruct k; congruence).
    assert (v_main σ1 = v_main σ /\ v_db σ1 = v_db σ) as [Em Ed].
    { destruct k as [| |j| | |w]; cbn in Hk; repeat (case_match; try done); by simplify_eq/=. }
    apply (close_turn_ok true k k' σ); [done|]. unfold close_turn, slot; cbn. rewrite Hs, Em, Ed. split_and!; try done. by exists σ1.
  - destruct k as [| |j| | |w]; try done. intros [= <-].
    apply (close_ok_move σ); try done; [intros []|intros []|apply K|apply K]; unfold at_work, slot; cbn; rewrite ?Hs; auto; done.
Qed.

Lemma main_close σ σ' : close_ok σ -> main_next σ = Some σ' -> close_ok σ'.
Proof.
  intros K. unfold main_next. destruct (v_main σ) as [|k| |] eqn:Hm; [|destruct (close_next k σ) as [[k' σ1]|] eqn:Hk| |done].
  - destruct (v_serve σ) eqn:Hs; try done. intros [= <-].
    apply (close_ok_move σ); try done; [intros []|intros []| |]; unfold at_work, slot; cbn; rewrite ?Hs, ?Hm; auto; try done.
    + intros ? [= <-]; auto.
    + by intros [].
    + intros H%(k_store _ K). congruence.
  - assert (Hr : forall w, k <> KReturned w) by (by intros w ->). intros E.
    assert (σ' = set_top (v_errc σ1) (v_serve σ1) (MClosing k') (v_db σ1) σ1) as -> by (destruct k; congruence).
    assert (v_serve σ1 = v_serve σ /\ v_db σ1 = v_db σ) as [Em Ed].
    { destruct k as [| |j| | |w]; cbn in Hk; repeat (case_match; try done); by simplify_eq/=. }
    apply (close_turn_ok false k k' σ); [done|]. unfold close_turn, slot; cbn. rewrite Hm, Em, Ed. split_and!; try done. by exists σ1.
  - destruct k as [| |j| | |w]; try done. intros [= <-].
    apply (close_ok_move σ); try done; [intros []|intros []| |]; unfold at_work, slot; cbn; rewrite ?Hm; auto; try done.
    + intros _. apply (k_returned _ K false w). unfold slot. by rewrite Hm.
    + intros H%(k_store _ K). congruence.
  - intros [= <-]. apply (close_ok_move σ); try done; [intros []|intros []|]; unfold at_work, slot; cbn; rewrite ?Hm; auto; try done.
    intros _. apply (k_exit _ K). auto.
Qed.

Lemma acc_close i σ σ' : close_ok σ -> acc_next i σ = Some σ' -> close_ok σ'.
Proof.
  intros K H. apply (close_ok_same σ); [|done]. unfold acc_next in H. repeat (case_match; try done); simplify_eq; by repeat split.
Qed.

Lemma han_close c σ σ' : close_ok σ -> han_next c σ = Some σ' -> close_ok σ'.
Proof.
  intros K H. apply (close_ok_same σ); [|done]. unfold han_next in H. repeat (case_match; try done); simplify_eq; by repeat split.
Qed.

Lemma step_close σ σ' : close_ok σ -> step σ σ' -> close_ok σ'.
Proof.
  intros K [[i H|c H|c H|H|H|H]|H].
  - by apply (acc_close i σ).
  - by apply (han_close c σ).
  - apply (close_ok_same σ); [|done]. unfold quit_next in H. repeat (case_match; try done); simplify_eq; by repeat split.
  - apply (close_ok_same σ); [|done]. unfold auto_next in H. repeat (case_match; try done); simplify_eq; by repeat split.
  - by apply (serve_close σ).
  - by apply (main_close σ).
  - destruct H as [i H Hl|i H|c n H Ho|c H|H|H]; [apply (close_ok_same σ); [by repeat split|done]..|].
    apply (close_ok_move σ); try done; [intros []|intros []| |]; unfold at_work, slot; cbn; rewrite ?H; auto; try done.
    + intros ? [= <-]; auto.
    + by intros [].
    + intros H'%(k_store _ K). congruence.
Qed.

(** Once the table was gone through, no listener is open. *)
Lemma swept_closed σ : close_ok σ -> v_swept σ = true -> all_closed (length (v_lns σ)) (v_lns σ).
Proof.
  intros K Hs. destruct (v_closed σ) eqn:Hc; [|by destruct (k_open _ K Hc) as [? _]; congruence].
  destruct (v_done σ) eqn:Hd; [by destruct (k_done _ K Hd) as (_ & _ & ? & _)|].
  destruct (k_busy _ K Hc Hd) as [b Hb]. unfold at_work in Hb. destruct (slot b σ) as [k|] eqn:Hk; [|done].
  destruct (k_phase _ K b k Hk Hb) as (_ & _ & Hp). destruct k as [| |j| | |w]; try done; destruct_and?; first [congruence|done].
Qed.

(** ** Connections *)

Definition same_net (σ σ' : srv) : Prop :=
  v_wg σ' = v_wg σ /\ v_han σ' = v_han σ /\ v_auto σ' = v_auto σ /\ v_conns σ' = v_conns σ /\ v_open σ' = v_open σ /\ v_acc σ' = v_acc σ
  /\ v_fresh σ' = v_fresh σ /\ v_late σ' = v_late σ /\ v_swept σ' = v_swept σ /\ length (v_lns σ') = length (v_lns σ) /\ v_done σ' = v_done σ.

Lemma net_ok_same σ σ' : same_net σ σ' -> net_ok σ -> net_ok σ'.
Proof.
  intros (E1 & E2 & E3 & E4 & E5 & E6 & E7 & E8 & E9 & E10 & E11) [].
  split; rewrite ?E1, ?E2, ?E3, ?E4, ?E5, ?E6, ?E7, ?E8, ?E9, ?E10, ?E11; assumption.
Qed.

Lemma size_add c (X : gset nat) : size ({[ c ]} ∪ X) <= S (size X).
Proof. rewrite size_union_alt, size_singleton. assert (size (X ∖ {[ c ]}) <= size X) by (apply subseteq_size; set_solver). lia. Qed.

Definition count (l : list acc_pc) : nat := length (filter pending l).

Definition one (a : acc_pc) : nat := if decide (pending a) then 1 else 0.

Lemma count_insert l i a a' : l !! i = Some a -> count (<[i := a']> l) + one a = count l + one a'.
Proof.
  unfold count, one. revert i. induction l as [|x l IH]; intros [|i] H; cbn in H; try done.
  - injection H as ->. change (<[0 := a']> (a :: l)) with (a' :: l). rewrite !filter_cons. repeat case_decide; cbn; lia.
  - specialize (IH i H). change (<[S i := a']> (x :: l)) with (x :: <[i := a']> l). rewrite !filter_cons.
    destruct (decide (pending x)); cbn [length]; lia.
Qed.

Lemma hand_insert (l : list acc_pc) i a' j b : <[i := a']> l !! j = Some b -> (j = i /\ b = a') \/ (j <> i /\ l !! j = Some b).
Proof. intros [(<- & <- & _)|[? ?]]%list_lookup_insert_Some; auto. Qed.

(** An accept loop that has no connection in hand afterwards. *)
Lemma net_acc_idle i a a' σ : net_ok σ -> v_acc σ !! i = Some a -> in_hand a' = None -> net_ok (set_acc i a' σ).
Proof.
  intros [] Hi Ha'. assert (Hp : one a' = 0) by (unfold one; destruct a'; done).
  assert (Hl : forall j b c, <[i := a']> (v_acc σ) !! j = Some b -> in_hand b = Some c -> v_acc σ !! j = Some b /\ j <> i).
  { intros j b c [[-> ->]|[Hne H]]%hand_insert Hb; [congruence|done]. }
  split; cbn; try assumption.
  - intros j c Hj. destruct (Hl _ _ c Hj eq_refl). eauto.
  - intros j c Hj. destruct (Hl _ _ c Hj eq_refl). eauto.
  - intros j b c Hj Hb. destruct (Hl _ _ c Hj Hb). eauto.
  - intros j k b d c Hj Hk Hb Hd. destruct (Hl _ _ c Hj Hb), (Hl _ _ c Hk Hd). eauto.
  - intros Hs. specialize (n_count0 Hs). pose proof (count_insert _ _ _ a' Hi). unfold count in *. rewrite length_insert. lia.
  - by rewrite length_insert.
Qed.

(** The connection is entered in the table. *)
Lemma net_acc_got i c σ : net_ok σ -> v_acc σ !! i = Some (AGot c) ->
  net_ok (set_acc i (ATabled c)
    (set_net ({[ c ]} ∪ v_conns σ) (v_open σ) (v_swept σ) (if v_swept σ then {[ c ]} ∪ v_late σ else v_late σ) σ)).
Proof.
  intros [] Hi. destruct (n_hand0 i _ c Hi eq_refl) as [Hh Hf].
  split; cbn; try assumption.
  - intros c' h Hc. rewrite <- (n_tab0 c' h Hc). assert (c' <> c) by (intros ->; congruence). set_solver.
  - intros j c' [[-> H]|[Hne H]]%hand_insert; [done|]. assert (c' <> c) by (intros ->; destruct Hne; by eapply n_one0).
    pose proof (n_got0 j c' H). set_solver.
  - intros j c' [[-> H]|[Hne H]]%hand_insert; [injection H as ->; set_solver|]. pose proof (n_tabled0 j c' H). set_solver.
  - intros j b c' [[-> ->]|[Hne H]]%hand_insert Hb; [injection Hb as <-; done|]. eauto.
  - intros j k b d c' [[-> ->]|[Hj H]]%hand_insert [[-> ->]|[Hk H']]%hand_insert Hb Hd; cbn in Hb, Hd.
    + done.
    + injection Hb as <-. by rewrite (n_one0 i k _ _ c Hi H' eq_refl Hd) in Hk.
    + injection Hd as <-. by rewrite (n_one0 i j _ _ c Hi H eq_refl Hb) in Hj.
    + eauto.
  - destruct n_fresh0 as [F1 F2]. split; [done|]. intros c' [->%elem_of_singleton|?]%elem_of_union; eauto.
  - intros Hs c' [->%elem_of_singleton|Hc]%elem_of_union Ho; rewrite Hs; [set_solver|]. specialize (n_swept0 Hs c' Hc Ho). set_solver.
  - intros Hs. rewrite Hs. specialize (n_count0 Hs). pose proof (count_insert _ _ _ (ATabled c) Hi) as Hc. unfold count in *.
    change (one (AGot c)) with 1 in Hc. change (one (ATabled c)) with 0 in Hc. rewrite length_insert. pose proof (size_add c (v_late σ)). lia.
  - intros Hs. rewrite Hs. auto.
  - by rewrite length_insert.
  - intros Hd. destruct (n_done0 Hd) as [Ha F]. split; [done|]. intros c' n Hc Hl. apply (F c' n Hc). destruct (v_swept σ); set_solver.
Qed.

(** The connection gets its handler. *)
Lemma net_acc_tabled i c σ : net_ok σ -> v_acc σ !! i = Some (ATabled c) ->
  net_ok (set_acc i AAccept (set_work (S (v_wg σ)) (<[c := HServe 0]> (v_han σ)) (v_auto σ) σ)).
Proof.
  intros H Hi. pose proof (net_acc_idle i _ AAccept σ H Hi eq_refl) as N. destruct H.
  destruct (n_hand0 i _ c Hi eq_refl) as [Hh Hf]. pose proof (n_tabled0 i c Hi) as Hc. destruct N; cbn in *.
  split; cbn; try assumption.
  - rewrite map_size_insert_None by done. lia.
  - intros c' h [[<- <-]|[Hne H]]%lookup_insert_Some; [done|]. by apply n_tab0.
  - intros j b c' [[-> ->]|[Hne H]]%hand_insert Hb; [done|]. rewrite lookup_insert_ne; [eauto|]. intros <-. destruct Hne. by eapply n_one0.
  - destruct n_fresh0 as [F1 F2]. split; [|done]. intros c' h [[<- <-]|[Hne H]]%lookup_insert_Some; eauto.
  - intros Hd. destruct (n_done0 Hd) as [Ha F]. split; [done|]. intros c' n [[<- [= <-]]|[Hne H]]%lookup_insert_Some; eauto.
Qed.

Lemma net_acc i σ σ' : net_ok σ -> acc_next i σ = Some σ' -> net_ok σ'.
Proof.
  unfold acc_next. intros N. destruct (v_acc σ !! i) as [[|c|c| |]|] eqn:Hi; try done.
  - destruct (ln_open i σ); [done|]. intros [= <-]. by eapply net_acc_idle.
  - intros [= <-]. by apply net_acc_got.
  - intros [= <-]. by apply net_acc_tabled.
  - intros [= <-]. eapply net_acc_idle; [|exact Hi|done]. apply (net_ok_same σ); [by repeat split|done].
Qed.

(** A handler goes on, in the part that serves. *)
Lemma net_han_serve c n h σ : net_ok σ -> v_han σ !! c = Some (HServe n) ->
  h = HEnding \/ (exists m, h = HServe m /\ (m < n \/ (v_done σ = true -> c ∈ v_late σ))) ->
  net_ok (set_han c h σ).
Proof.
  intros [] Hc Hh. assert (Hn : h <> HUntabled) by (destruct Hh as [->|(m & -> & _)]; done).
  split; cbn; try assumption.
  - rewrite map_size_insert_Some by eauto. done.
  - intros c' h' [[<- <-]|[Hne H]]%lookup_insert_Some; [|eauto]. rewrite (n_tab0 c _ Hc). split; done.
  - intros j b c' Hj Hb. destruct (n_hand0 j b c' Hj Hb). split; [|done]. rewrite lookup_insert_ne; [done|]. intros <-. congruence.
  - destruct n_fresh0 as [F1 F2]. split; [|done]. intros c' h' [[<- <-]|[Hne H]]%lookup_insert_Some; eauto.
  - intros Hd. destruct (n_done0 Hd) as [Ha F]. split; [done|]. intros c' m [[<- E]|[Hne H]]%lookup_insert_Some; [|eauto].
    subst h. intros Hl. destruct Hh as [|(m' & [= <-] & [Hm|Hm])]; [done| |by destruct Hl; apply Hm].
    specialize (F c n Hc Hl). lia.
Qed.

(** A handler goes on, in its deferred calls. *)
Lemma net_han_end c h h' conns open σ : net_ok σ -> v_han σ !! c = Some h ->
  (forall n, h' <> HServe n) -> h <> HUntabled ->
  (h' <> HUntabled /\ conns = v_conns σ \/ h' = HUntabled /\ conns = v_conns σ ∖ {[ c ]}) -> open ⊆ v_open σ ->
  net_ok (set_net conns open (v_swept σ) (v_late σ) (set_han c h' σ)).
Proof.
  intros [] Hc Hh Hne Hconns Hopen. assert (Hsub : conns ⊆ v_conns σ) by (destruct Hconns as [[_ ->]|[_ ->]]; set_solver).
  split; cbn; try assumption.
  - rewrite map_size_insert_Some by eauto. done.
  - intros c' g [[<- <-]|[Hcc H]]%lookup_insert_Some.
    + pose proof (proj2 (n_tab0 c h Hc) Hne). destruct Hconns as [[? ->]|[-> ->]]; [tauto|set_solver].
    + rewrite <- (n_tab0 c' g H). destruct Hconns as [[? ->]|[-> ->]]; set_solver.
  - intros j c' Hj ?%Hsub. by apply (n_got0 j c').
  - intros j c' Hj. pose proof (n_tabled0 j c' Hj). destruct (n_hand0 j _ c' Hj eq_refl) as [Hn _].
    assert (c' <> c) by congruence. destruct Hconns as [[? ->]|[-> ->]]; set_solver.
  - intros j b c' Hj Hb. destruct (n_hand0 j b c' Hj Hb). split; [|done]. rewrite lookup_insert_ne; [done|]. intros <-. congruence.
  - destruct n_fresh0 as [F1 F2]. split; [|auto]. intros c' g [[<- <-]|[Hcc H]]%lookup_insert_Some; eauto.
  - intros Hs c' Hc' Ho. apply (n_swept0 Hs); auto.
  - intros Hd. destruct (n_done0 Hd) as [Ha F]. split; [done|]. intros c' m [[<- E]|[Hcc H]]%lookup_insert_Some; [by apply Hh in E|eauto].
Qed.

Lemma net_han_gone c σ : net_ok σ -> v_han σ !! c = Some HUntabled -> net_ok (set_work (pred (v_wg σ)) (delete c (v_han σ)) (v_auto σ) σ).
Proof.
  intros [] Hc. split; cbn; try assumption.
  - rewrite map_size_delete_Some by eauto. assert (size (v_han σ) <> 0) by (rewrite map_size_ne_0_lookup; eauto). lia.
  - intros c' h [_ H]%lookup_delete_Some. eauto.
  - intros j b c' Hj Hb. destruct (n_hand0 j b c' Hj Hb). split; [|done]. by apply lookup_delete_None; right.
  - destruct n_fresh0 as [F1 F2]. split; [|done]. intros c' h [_ H]%lookup_delete_Some. eauto.
  - intros Hd. destruct (n_done0 Hd) as [Ha F]. split; [done|]. intros c' n [_ H]%lookup_delete_Some. eauto.
Qed.

Lemma net_han c σ σ' : net_ok σ -> han_next c σ = Some σ' -> net_ok σ'.
Proof.
  unfold han_next. intros N. destruct (v_han σ !! c) as [[[|n]| | |]|] eqn:Hc; [| | | | |done].
  - case_decide; [done|]. intros [= <-]. apply (net_han_serve c 0); auto.
  - intros [= <-]. apply (net_han_serve c (S n)); [done..|]. right. exists n. auto.
  - intros [= <-]. apply (net_han_end c HEnding); try done; [auto|set_solver].
  - intros [= <-]. apply (net_han_end c HShut); try done; auto.
  - intros [= <-]. by apply net_han_gone.
Qed.

Lemma net_auto a σ : net_ok σ -> v_auto σ <> LDone -> (v_done σ = true -> a = LDone) ->
  net_ok (set_work (if a is LDone then pred (v_wg σ) else v_wg σ) (v_han σ) a σ).
Proof.
  intros [] Ha Hd. split; cbn; try assumption.
  - destruct (v_auto σ), a; cbn in *; try done; lia.
  - intros H. destruct (n_done0 H). auto.
Qed.

(** [Close]: closing the table's sockets, and waiting for the group. *)
Lemma net_conns σ : net_ok σ -> net_ok (set_net (v_conns σ) (v_open σ ∖ v_conns σ) true (v_late σ) σ).
Proof.
  intros []. split; cbn; try assumption; [set_solver| |done].
  intros _. destruct (v_swept σ) eqn:Hs; [auto|]. rewrite (n_late0 eq_refl), size_empty. pose proof (length_filter pending (v_acc σ)). lia.
Qed.

Lemma net_done σ : net_ok σ -> v_wg σ = 0 -> net_ok (set_done σ).
Proof.
  intros [] Hw. split; cbn; try assumption. intros _. rewrite n_wg0 in Hw.
  assert (v_han σ = ∅) as -> by (apply map_size_empty_inv; lia). split; [|done]. destruct (v_auto σ); cbn in Hw; [lia..|done].
Qed.

Lemma net_close k k' σ σ' : net_ok σ -> close_next k σ = Some (k', σ') -> net_ok σ'.
Proof.
  intros N. destruct k as [| |j| | |w]; cbn; [| | | | |done].
  - case_match; intros [= _ <-]; [done|]. by apply (net_ok_same σ).
  - intros [= _ <-]. by apply (net_ok_same σ).
  - case_match; intros [= _ <-]; [|done]. apply (net_ok_same σ); [|done]. repeat split. cbn. by rewrite length_insert.
  - intros [= _ <-]. by apply net_conns.
  - destruct (Nat.eqb_spec (v_wg σ) 0); intros [= _ <-]. by apply net_done.
Qed.

Lemma net_top errc serve main db σ : net_ok σ -> net_ok (set_top errc serve main db σ).
Proof. intros N. by apply (net_ok_same σ). Qed.

Lemma net_serve σ σ' : net_ok σ -> serve_next σ = Some σ' -> net_ok σ'.
Proof.
  intros N. unfold serve_next. destruct (v_serve σ) as [[|n] first|k n|e]; [| | |done].
  - intros [= <-]. by apply net_top.
  - destruct (v_errc σ); [done|]. intros [= <-]. by apply net_top.
  - destruct (close_next k σ) as [[k' σ1]|] eqn:Hk; destruct k; try done; intros [= <-]; apply net_top; [..|done]; by eapply net_close.
Qed.

Lemma net_main σ σ' : net_ok σ -> main_next σ = Some σ' -> net_ok σ'.
Proof.
  intros N. unfold main_next. destruct (v_main σ) as [|k| |]; [| | |done].
  - destruct (v_serve σ); try done. intros [= <-]. by apply net_top.
  - destruct (close_next k σ) as [[k' σ1]|] eqn:Hk; destruct k; try done; intros [= <-]; apply net_top; [..|done]; by eapply net_close.
  - intros [= <-]. by apply net_top.
Qed.

Lemma net_connect i σ : net_ok σ -> v_acc σ !! i = Some AAccept -> v_swept σ = false ->
  net_ok (set_acc i (AGot (v_fresh σ)) (set_fresh (S (v_fresh σ))
        (set_net (v_conns σ) ({[ v_fresh σ ]} ∪ v_open σ) (v_swept σ) (v_late σ) σ))).
Proof.
  intros [] Hi Hs. destruct n_fresh0 as [F1 F2].
  assert (Hnew : forall j b c, v_acc σ !! j = Some b -> in_hand b = Some c -> c < v_fresh σ) by (intros j b c Hj Hb; by apply (n_hand0 j b c)).
  split; cbn; rewrite ?Hs; try done.
  - intros j c [[-> H]|[Hne H]]%hand_insert; [injection H as ->; intros ?%F2; lia|eauto].
  - intros j c [[-> H]|[Hne H]]%hand_insert; [done|eauto].
  - intros j b c [[-> ->]|[Hne H]]%hand_insert Hb.
    + injection Hb as <-. split; [|lia]. apply eq_None_ne_Some. intros h ?%F1. lia.
    + destruct (n_hand0 j b c H Hb). split; [done|lia].
  - intros j k b d c [[-> ->]|[Hj H]]%hand_insert [[-> ->]|[Hk H']]%hand_insert Hb Hd; cbn in Hb, Hd; [done|..|eauto].
    + injection Hb as <-. specialize (Hnew _ _ _ H' Hd). lia.
    + injection Hd as <-. specialize (Hnew _ _ _ H Hb). lia.
  - split; [intros c h ?%F1|intros c ?%F2]; lia.
  - auto.
  - by rewrite length_insert.
Qed.

Lemma net_external σ σ' : shut_ok σ -> external σ σ' -> net_ok σ'.
Proof.
  intros [N K]. assert (Hsw : v_done σ = true -> v_swept σ = true) by (intros H; by destruct (k_done _ K H) as (_ & ? & _)).
  intros [i Hi Hl|i Hi|c n Hc Ho|c Hc|Ha|Hm].
  - apply net_connect; [done..|]. destruct (v_swept σ) eqn:Hs; [|done]. unfold ln_open in Hl.
    destruct (v_lns σ !! i) as [[]|] eqn:Hb; try done. apply (swept_closed _ K Hs) in Hb; [done|]. by apply lookup_lt_Some in Hb.
  - by eapply net_acc_idle.
  - apply (net_han_serve c n); [done..|]. right. exists (S n). split; [done|]. right. intros Hd.
    apply (n_swept _ N); auto. by apply (n_tab _ N c _ Hc).
  - apply (net_han_serve c 0); auto.
  - apply (net_auto LWork σ N); [congruence|]. intros Hd. destruct (n_done _ N Hd). congruence.
  - by apply net_top.
Qed.

Lemma step_ok σ σ' : shut_ok σ -> step σ σ' -> shut_ok σ'.
Proof.
  intros [N K] H. split; [|by apply (step_close σ)]. destruct H as [[i H|c H|c H|H|H|H]|H].
  - by apply (net_acc i σ).
  - by apply (net_han c σ).
  - unfold quit_next in H. repeat (case_match; try done). injection H as <-. eapply net_han_serve; eauto.
  - unfold auto_next in H. destruct (v_auto σ) eqn:Ha; [|..|done].
    + destruct (v_stop σ); [|done]. injection H as <-. apply (net_auto LDone); [done|congruence|done].
    + injection H as <-. apply (net_auto LIdle); [done|congruence|]. intros Hd. destruct (n_done _ N Hd). congruence.
  - by apply (net_serve σ).
  - by apply (net_main σ).
  - by apply (net_external σ).
Qed.

Lemma reachable_ok n auto σ : reachable n auto σ -> shut_ok σ.
Proof. intros H. eapply (rtc_ind_r shut_ok); [|intros; by eapply step_ok|done]. apply started_ok. Qed.

Lemma acc_length σ σ' : step σ σ' -> length (v_acc σ') = length (v_acc σ).
Proof.
  assert (Hc : forall k k' s s', close_next k s = Some (k', s') -> v_acc s' = v_acc s).
  { intros k k' s s' H. unfold close_next in H. repeat (case_match; try done); by simplify_eq/=. }
  intros [[i H|c H|c H|H|H|H]|[i Hi Hl|i Hi|c m Hc' Ho|c Hc'|Ha|Hm]]; cbn; rewrite ?length_insert; try done.
  - unfold acc_next in H. repeat (case_match; try done); simplify_eq/=; by rewrite length_insert.
  - unfold han_next in H. repeat (case_match; try done); by simplify_eq/=.
  - unfold quit_next in H. repeat (case_match; try done); by simplify_eq/=.
  - unfold auto_next in H. repeat (case_match; try done); by simplify_eq/=.
  - unfold serve_next in H. destruct (v_serve σ) as [[|m] f|k m|e]; [..|done].
    + by simplify_eq/=.
    + destruct (v_errc σ); by simplify_eq/=.
    + destruct (close_next k σ) as [[k' s']|] eqn:Hk; [apply Hc in Hk|clear Hk]; destruct k; try done; injection H as <-; cbn; by rewrite ?Hk.
  - unfold main_next in H. destruct (v_main σ) as [|k| |]; [..|done].
    + destruct (v_serve σ); by simplify_eq/=.
    + destruct (close_next k σ) as [[k' s']|] eqn:Hk; [apply Hc in Hk|clear Hk]; destruct k; try done; injection H as <-; cbn; by rewrite ?Hk.
    + by simplify_eq/=.
Qed.

Lemma reachable_length n auto σ : reachable n auto σ -> length (v_acc σ) = n.
Proof.
  apply (rtc_ind_r (fun σ => length (v_acc σ) = n)); [apply length_replicate|].
  intros s s' _ Hs <-. by apply acc_length.
Qed.

(** ** What a [Close] that has returned has done *)

Lemma done_stops σ : shut_ok σ -> v_done σ = true ->
  (forall i, ln_open i σ = false) /\ v_stop σ = true /\ v_auto σ = LDone /\ size (v_late σ) <= length (v_acc σ)
  /\ forall c m, v_han σ !! c = Some (HServe m) -> c ∉ v_late σ -> m = 0 /\ c ∉ v_open σ.
Proof.
  intros [N K] Hd. destruct (k_done _ K Hd) as (Hst & Hsw & Hl & _). destruct (n_done _ N Hd) as [Ha F]. split_and!; try done.
  - intros i. unfold ln_open. destruct (v_lns σ !! i) as [b|] eqn:Hb; [|done]. apply (Hl i); [by apply lookup_lt_Some in Hb|done].
  - pose proof (n_count _ N Hsw). lia.
  - intros c m Hc Hlate. split; [by eapply F|]. intros Ho. apply Hlate, (n_swept _ N Hsw); [|done]. by apply (n_tab _ N c _ Hc).
Qed.

Lemma store_closed_by σ : shut_ok σ -> v_db σ = true ->
  v_closed σ = true /\ (v_done σ = true \/ exists k left, v_serve σ = SClosing k left /\ working k = true).
Proof.
  intros [N K] Hdb. pose proof (k_store _ K Hdb) as Hm.
  pose proof (k_exit _ K (or_intror Hm)) as Hc. split; [done|]. destruct (v_done σ) eqn:Hd; [by left|right].
  destruct (k_busy _ K Hc Hd) as [b Hb]. unfold at_work, slot in Hb. rewrite Hm in Hb.
  destruct b; [|done]. destruct (v_serve σ) as [|k left|]; try done. eauto.
Qed.

(** C25. When the [Close] that closed the server has returned, the listeners
    are closed, automatic compaction has ended and no handler has a request to
    serve any more, the handlers of at most one connection per listener
    excepted: those that were accepted before and entered in the table after
    [Close] had gone through it.  [run] closes the store after such a [Close]
    has returned, or while [Serve] is inside the [Close] it called itself. *)
Theorem close_stops n auto σ : reachable n auto σ ->
  (v_done σ = true ->
     (forall i, ln_open i σ = false) /\ v_stop σ = true /\ v_auto σ = LDone /\ size (v_late σ) <= n
     /\ forall c m, v_han σ !! c = Some (HServe m) -> c ∉ v_late σ -> m = 0 /\ c ∉ v_open σ)
  /\ (v_db σ = true -> v_closed σ = true /\ (v_done σ = true \/ exists k left, v_serve σ = SClosing k left /\ working k = true)).
Proof.
  intros Hr. pose proof (reachable_ok _ _ _ Hr) as Hok. split; [|by apply store_closed_by].
  rewrite <- (reachable_length _ _ _ Hr). by apply done_stops.
Qed.
