(* ===== verification/ShutdownLive.v ===== *)
(** * Shutting down: termination

    The server's own steps spend a budget, and where none is left shutting down
    is complete, late connections excepted. *)

From S2P Require Import Prelude Shutdown ShutdownProofs.
#[local] Open Scope nat_scope.

(** ** The budget *)

Definition acc_work (a : acc_pc) : nat := match a with AGot _ => 9 | ATabled _ => 8 | AAccept => 2 | AFailed => 1 | AReturned _ => 0 end.
Definition han_work (h : han_pc) : nat := match h with HServe n => n + 4 | HEnding => 3 | HShut => 2 | HUntabled => 1 end.
Definition auto_work (a : auto_pc) : nat := match a with LWork => 2 | LIdle => 1 | LDone => 0 end.

(** For [l] listeners. *)
Definition close_work (l : nat) (k : clo_pc) : nat :=
  match k with KCas => l + 5 | KStop => l + 4 | KListener j => l - j + 3 | KConns => 2 | KWait => 1 | KReturned _ => 0 end.

Definition serve_work (l : nat) (s : serve_pc) : nat :=
  match s with
  | SCollect n _ => n * (l + 8) + 1
  | SClosing k n => n * (l + 8) + 2 + close_work l k
  | SReturned _ => 0
  end.

Definition main_work (l : nat) (m : main_pc) : nat :=
  match m with MSelect => l + 8 | MClosing k => close_work l k + 2 | MReturn => 1 | MExit => 0 end.

Definition handlers_work (m : gmap nat han_pc) : nat := map_fold (fun _ h s => han_work h + s) 0 m.

(** The number of steps the server can still make by itself. *)
Definition shut_work (σ : srv) : nat :=
  let l := length (v_lns σ) in
  sum_list_with acc_work (v_acc σ) + handlers_work (v_han σ) + auto_work (v_auto σ) + serve_work l (v_serve σ) + main_work l (v_main σ).

Lemma handlers_insert m c h : m !! c = None -> handlers_work (<[c := h]> m) = han_work h + handlers_work m.
Proof. intros H. unfold handlers_work. rewrite map_fold_insert_L; [done| |done]. intros. lia. Qed.

Lemma handlers_delete m c h : m !! c = Some h -> handlers_work m = han_work h + handlers_work (delete c m).
Proof. intros H. rewrite <- (insert_delete_id m c h) at 1 by done. apply handlers_insert, lookup_delete_eq. Qed.

Lemma handlers_change m c h h' : m !! c = Some h -> handlers_work (<[c := h']> m) + han_work h = handlers_work m + han_work h'.
Proof.
  intros H. rewrite (handlers_delete m c h H), (handlers_delete (<[c := h']> m) c h') by apply lookup_insert_eq.
  rewrite delete_insert_eq. lia.
Qed.

Lemma work_close k k' σ σ' : close_next k σ = Some (k', σ') ->
  close_work (length (v_lns σ)) k' < close_work (length (v_lns σ)) k
  /\ length (v_lns σ') = length (v_lns σ) /\ v_acc σ' = v_acc σ /\ v_han σ' = v_han σ /\ v_auto σ' = v_auto σ
  /\ v_serve σ' = v_serve σ /\ v_main σ' = v_main σ.
Proof.
  destruct k as [| |j| | |w]; cbn [close_next]; [| | | | |done].
  - destruct (v_closed σ); intros [= <- <-]; cbn; (split_and!; [lia|done..]).
  - intros [= <- <-]. cbn. split_and!; [lia|done..].
  - destruct (Nat.ltb_spec j (length (v_lns σ))); intros [= <- <-]; cbn; rewrite ?length_insert; (split_and!; [lia|done..]).
  - intros [= <- <-]. cbn. split_and!; [lia|done..].
  - destruct (v_wg σ =? 0); intros [= <- <-]. cbn. split_and!; [lia|done..].
Qed.

Lemma work_serve σ σ' : serve_next σ = Some σ' -> shut_work σ' < shut_work σ.
Proof.
  unfold serve_next. destruct (v_serve σ) as [[|n] first|k n|e] eqn:Hs; [| | |done].
  - intros [= <-]. unfold shut_work. cbn. rewrite Hs. cbn. lia.
  - destruct (v_errc σ); [done|]. intros [= <-]. unfold shut_work. cbn. rewrite Hs. destruct (_ && _); cbn; lia.
  - destruct (close_next k σ) as [[k' σ1]|] eqn:Hk; [pose proof (work_close _ _ _ _ Hk) as (Hw & El & E1 & E2 & E3 & E4 & E5)|clear Hk];
      destruct k; try done; intros [= <-]; unfold shut_work; cbn -[close_work] in *; rewrite Hs, ?El, ?E1, ?E2, ?E3, ?E5;
      cbn -[close_work] in *; lia.
Qed.

Lemma work_main σ σ' : main_next σ = Some σ' -> shut_work σ' < shut_work σ.
Proof.
  unfold main_next. destruct (v_main σ) as [|k| |] eqn:Hm; [| | |done].
  - destruct (v_serve σ) eqn:Hs; try done. intros [= <-]. unfold shut_work. cbn. rewrite Hm. cbn. lia.
  - destruct (close_next k σ) as [[k' σ1]|] eqn:Hk; [pose proof (work_close _ _ _ _ Hk) as (Hw & El & E1 & E2 & E3 & E4 & E5)|clear Hk];
      destruct k; try done; intros [= <-]; unfold shut_work; cbn -[close_work] in *; rewrite Hm, ?El, ?E1, ?E2, ?E3, ?E4;
      cbn -[close_work] in *; lia.
  - intros [= <-]. unfold shut_work. cbn. rewrite Hm. cbn. lia.
Qed.

Lemma work_han c σ σ' : han_next c σ = Some σ' \/ quit_next c σ = Some σ' -> shut_work σ' < shut_work σ.
Proof.
  intros H. assert (exists h, v_han σ !! c = Some h /\ v_acc σ' = v_acc σ /\ v_auto σ' = v_auto σ /\ v_serve σ' = v_serve σ
    /\ v_main σ' = v_main σ /\ v_lns σ' = v_lns σ
    /\ (v_han σ' = delete c (v_han σ) \/ exists h', v_han σ' = <[c := h']> (v_han σ) /\ han_work h' < han_work h)) as (h & Hc & E1 & E2 & E3 & E4 & E5 & Hh).
  { unfold han_next, quit_next in H. destruct (v_han σ !! c) as [h|]; [|by destruct H]. exists h. split; [done|].
    destruct H as [H|H]; repeat (case_match; try done); injection H as <-; (split_and!; [done..|]); cbn;
      solve [by left|right; eexists; split; [done|cbn; lia]]. }
  assert (handlers_work (v_han σ') < handlers_work (v_han σ)) as Hlt.
  { destruct Hh as [->|(h' & -> & Hh)].
    - rewrite (handlers_delete _ _ _ Hc). destruct h; cbn; lia.
    - pose proof (handlers_change _ _ _ h' Hc). lia. }
  unfold shut_work. rewrite E1, E2, E3, E4, E5. lia.
Qed.

Lemma work_acc i σ σ' : net_ok σ -> acc_next i σ = Some σ' -> shut_work σ' < shut_work σ.
Proof.
  intros N H. unfold acc_next in H. destruct (v_acc σ !! i) as [a|] eqn:Hi; [|done].
  pose proof (fun a' => sum_insert acc_work _ _ _ a' Hi) as Hsum. unfold shut_work.
  destruct a as [|c|c| |]; [destruct (ln_open i σ); [done|]|..|done]; injection H as <-; cbn.
  - specialize (Hsum AFailed). cbn in Hsum. lia.
  - specialize (Hsum (ATabled c)). cbn in Hsum. lia.
  - specialize (Hsum AAccept). cbn in Hsum. destruct (n_hand _ N i _ c Hi eq_refl) as [Hc _]. rewrite (handlers_insert _ _ _ Hc). cbn. lia.
  - specialize (Hsum (AReturned (negb (v_closed σ)))). cbn in Hsum. lia.
Qed.

Lemma work_step σ σ' : net_ok σ -> internal σ σ' -> shut_work σ' < shut_work σ.
Proof.
  intros N [i H|c H|c H|H|H|H]; [by apply (work_acc i)|apply (work_han c); auto..| |by apply work_serve|by apply work_main].
  unfold auto_next in H. unfold shut_work. destruct (v_auto σ) eqn:Ha; [destruct (v_stop σ); [|done]|..|done]; injection H as <-; cbn; lia.
Qed.

(** The results of the accept loops: [Serve] waits for as many as are in the
    channel or will be sent. *)
Definition running (l : list acc_pc) : nat := sum_list_with (fun a => match a with AReturned _ => 0 | _ => 1 end) l.

Record top_ok (σ : srv) : Prop := TopOk {
  t_left : match v_serve σ with
           | SCollect n _ | SClosing _ n => n = length (v_errc σ) + running (v_acc σ)
           | SReturned _ => True
           end;
  t_exit : v_main σ = MExit -> v_db σ = true
}.

Lemma running_insert l i a a' : l !! i = Some a -> (forall e, a <> AReturned e) -> (forall e, a' <> AReturned e) -> running (<[i := a']> l) = running l.
Proof.
  intros Hi Ha Ha'. pose proof (sum_insert (fun a => match a with AReturned _ => 0 | _ => 1 end) _ _ _ a' Hi) as E. fold (running l) in E.
  fold (running (<[i := a']> l)) in E. destruct a as [| | | |e]; [..|by destruct (Ha e)]; destruct a' as [| | | |e]; try lia; by destruct (Ha' e).
Qed.

Lemma running_return l i a e : l !! i = Some a -> (forall e, a <> AReturned e) -> running l = S (running (<[i := AReturned e]> l)).
Proof.
  intros Hi Ha. pose proof (sum_insert (fun a => match a with AReturned _ => 0 | _ => 1 end) _ _ _ (AReturned e) Hi) as E. fold (running l) in E.
  fold (running (<[i := AReturned e]> l)) in E. destruct a as [| | | |e']; try lia. by destruct (Ha e').
Qed.

Lemma top_acc i σ σ' : top_ok σ -> acc_next i σ = Some σ' -> top_ok σ'.
Proof.
  intros [Hl He] H. unfold acc_next in H. destruct (v_acc σ !! i) as [a|] eqn:Hi; [|done].
  destruct a as [|c|c| |]; [destruct (ln_open i σ); [done|]|..|done]; injection H as <-; split; cbn -[running]; try done;
    try (by rewrite (running_insert _ _ _ _ Hi)).
  pose proof (running_return _ _ _ (negb (v_closed σ)) Hi) as E. rewrite length_app. cbn -[running]. destruct (v_serve σ); try done; rewrite E in Hl by done; lia.
Qed.

Lemma top_same σ σ' : top_ok σ -> v_serve σ' = v_serve σ -> v_errc σ' = v_errc σ -> v_acc σ' = v_acc σ ->
  (v_main σ' = MExit -> v_db σ' = true) -> top_ok σ'.
Proof. intros [Hl He] E1 E2 E3 H. split; [by rewrite E1, E2, E3|done]. Qed.

Lemma close_errc k k' σ σ' : close_next k σ = Some (k', σ') -> v_errc σ' = v_errc σ /\ v_db σ' = v_db σ.
Proof. intros H. destruct k; cbn [close_next] in H; repeat (case_match; try done); by simplify_eq/=. Qed.

Lemma top_serve σ σ' : top_ok σ -> serve_next σ = Some σ' -> top_ok σ'.
Proof.
  intros [Hl He]. unfold serve_next. destruct (v_serve σ) as [[|n] first|k n|e] eqn:Hs; [| | |done].
  - intros [= <-]. by split.
  - destruct (v_errc σ) as [|e errc]; [done|]. intros [= <-]. cbn in Hl. split; cbn -[running]; [|done]. destruct (_ && _); lia.
  - destruct (close_next k σ) as [[k' σ1]|] eqn:Hk; [pose proof (work_close _ _ _ _ Hk) as (_ & _ & E1 & _ & _ & _ & E5); destruct (close_errc _ _ _ _ Hk) as [E6 E7]|clear Hk];
      destruct k; try done; intros [= <-]; split; cbn -[running]; rewrite ?E1, ?E5, ?E6, ?E7; done.
Qed.

Lemma top_main σ σ' : top_ok σ -> main_next σ = Some σ' -> top_ok σ'.
Proof.
  intros [Hl He]. unfold main_next. destruct (v_main σ) as [|k| |] eqn:Hm; [| | |done].
  - destruct (v_serve σ) eqn:Hs; try done. intros [= <-]. by split.
  - destruct (close_next k σ) as [[k' σ1]|] eqn:Hk; [pose proof (work_close _ _ _ _ Hk) as (_ & _ & E1 & _ & _ & E4 & E5); destruct (close_errc _ _ _ _ Hk) as [E6 E7]|clear Hk];
      destruct k; try done; intros [= <-]; split; cbn -[running]; rewrite ?E1, ?E4, ?E6, ?E7; done.
  - intros [= <-]. by split.
Qed.

Lemma top_step σ σ' : top_ok σ -> step σ σ' -> top_ok σ'.
Proof.
  intros T [[i H|c H|c H|H|H|H]|[i Hi Hl|i Hi|c m Hc' Ho|c Hc'|Ha|Hm]].
  - by apply (top_acc i σ).
  - unfold han_next in H. repeat (case_match; try done); injection H as <-; by apply (top_same σ), T.
  - unfold quit_next in H. repeat (case_match; try done); injection H as <-; by apply (top_same σ), T.
  - unfold auto_next in H. repeat (case_match; try done); injection H as <-; by apply (top_same σ), T.
  - by apply (top_serve σ).
  - by apply (top_main σ).
  - destruct T as [Hl' He]. split; cbn -[running]; [|done]. by erewrite running_insert.
  - destruct T as [Hl' He]. split; cbn -[running]; [|done]. by erewrite running_insert.
  - by apply (top_same σ), T.
  - by apply (top_same σ), T.
  - by apply (top_same σ), T.
  - by apply (top_same σ).
Qed.

Lemma reachable_top n auto σ : reachable n auto σ -> top_ok σ.
Proof.
  apply (rtc_ind_r top_ok); [|intros s s' _ Hs T; by apply (top_step s)]. split; cbn -[running]; [|done].
  unfold running. induction n as [|n IH]; cbn -[running]; [done|]. cbn in IH. lia.
Qed.

(** The server cannot go on by itself. *)
Definition stuck (σ : srv) : Prop := forall σ', ~ internal σ σ'.

Lemma close_waits k σ : close_next k σ = None -> (k = KWait /\ v_wg σ <> 0) \/ exists w, k = KReturned w.
Proof. destruct k as [| |j| | |w]; cbn [close_next]; repeat case_match; try done; [left|eauto]. by split; [|apply Nat.eqb_neq]. Qed.

Lemma stuck_serve σ : stuck σ -> (exists n f, v_serve σ = SCollect (S n) f /\ v_errc σ = []) \/ (exists n, v_serve σ = SClosing KWait n)
  \/ exists e, v_serve σ = SReturned e.
Proof.
  intros H. assert (E : serve_next σ = None) by (apply eq_None_ne_Some; intros s Hs; by eapply H, int_serve).
  unfold serve_next in E. destruct (v_serve σ) as [[|n] f|k n|e]; [done|destruct (v_errc σ); [eauto|done]| |eauto].
  destruct (close_next k σ) as [[k' s]|] eqn:Hk; [by destruct k|]. destruct (close_waits _ _ Hk) as [[-> _]|[w ->]]; [eauto|done].
Qed.

Lemma stuck_main σ : stuck σ -> (v_main σ = MSelect /\ forall e, v_serve σ <> SReturned e) \/ v_main σ = MClosing KWait \/ v_main σ = MExit.
Proof.
  intros H. assert (E : main_next σ = None) by (apply eq_None_ne_Some; intros s Hs; by eapply H, int_main).
  unfold main_next in E. destruct (v_main σ) as [|k| |]; [destruct (v_serve σ); try done; left; split; done| |done|auto].
  destruct (close_next k σ) as [[k' s]|] eqn:Hk; [by destruct k|]. destruct (close_waits _ _ Hk) as [[-> _]|[w ->]]; [auto|done].
Qed.

Lemma stuck_han σ c h : net_ok σ -> stuck σ -> v_swept σ = true -> v_han σ !! c = Some h -> h = HServe 0 /\ c ∈ v_late σ /\ c ∈ v_open σ.
Proof.
  intros N H Hsw Hc. assert (E : han_next c σ = None) by (apply eq_None_ne_Some; intros s Hs; by eapply H, int_han).
  unfold han_next in E. rewrite Hc in E. destruct h as [[|m]| | |]; try done. case_decide as Ho; [|done].
  split; [done|]. split; [|done]. apply (n_swept _ N Hsw); [|done]. by apply (n_tab _ N c _ Hc).
Qed.

Lemma stuck_acc σ : net_ok σ -> stuck σ -> all_closed (length (v_lns σ)) (v_lns σ) -> running (v_acc σ) = 0.
Proof.
  intros N H Hl. assert (Hret : forall i a, v_acc σ !! i = Some a -> exists e, a = AReturned e).
  { intros i a Hi. assert (E : acc_next i σ = None) by (apply eq_None_ne_Some; intros s Hs; by eapply H, int_acc).
    unfold acc_next in E. rewrite Hi in E. destruct a as [|c|c| |e]; try done; [|eauto]. unfold ln_open in E.
    destruct (v_lns σ !! i) as [[]|] eqn:Hb; try done. apply Hl in Hb; [done|]. by apply lookup_lt_Some in Hb. }
  unfold running. induction (v_acc σ) as [|a l IH]; [done|]. destruct (Hret 0 a eq_refl) as [e ->]. cbn. apply IH. intros i. apply (Hret (S i)).
Qed.

Lemma stuck_auto σ : stuck σ -> v_stop σ = true -> v_auto σ = LDone.
Proof.
  intros H Hs. assert (E : auto_next σ = None) by (apply eq_None_ne_Some; intros s E; by eapply H, int_auto).
  unfold auto_next in E. rewrite Hs in E. by destruct (v_auto σ).
Qed.

(** The call of [Close] at work waits for the group. *)
Lemma stuck_work σ b : stuck σ -> at_work b σ = true -> slot b σ = Some KWait.
Proof.
  intros H Hb. unfold at_work, slot in *. destruct b.
  - by destruct (stuck_serve _ H) as [(? & ? & E & _)|[[? E]|[? E]]]; rewrite E in *.
  - by destruct (stuck_main _ H) as [[E _]|[E|E]]; rewrite E in *.
Qed.

Lemma stuck_closed σ : net_ok σ -> close_ok σ -> stuck σ -> v_closed σ = true ->
  v_swept σ = true /\ v_stop σ = true /\ (v_han σ = ∅ -> v_done σ = true).
Proof.
  intros N K H Hc. destruct (v_done σ) eqn:Hd; [by destruct (k_done _ K Hd) as (? & ? & _)|].
  destruct (k_busy _ K Hc Hd) as [b Hb]. pose proof (stuck_work _ b H Hb) as Hs.
  destruct (k_phase _ K b _ Hs eq_refl) as (_ & _ & Hst & Hsw & _). split_and!; [done..|]. intros Hh.
  assert (Hw : v_wg σ = 0) by (rewrite (n_wg _ N), Hh, (stuck_auto _ H Hst); done).
  destruct b; unfold slot in Hs.
  - destruct (v_serve σ) as [|k n|] eqn:E; try done. injection Hs as ->. exfalso.
    eapply H, int_serve. unfold serve_next. rewrite E. cbn. rewrite Hw. done.
  - destruct (v_main σ) as [|k| |] eqn:E; try done. injection Hs as ->. exfalso.
    eapply H, int_main. unfold main_next. rewrite E. cbn. rewrite Hw. done.
Qed.

Lemma stuck_over σ : net_ok σ -> close_ok σ -> top_ok σ -> stuck σ -> v_done σ = true ->
  v_main σ = MExit /\ v_db σ = true /\ exists e, v_serve σ = SReturned e.
Proof.
  intros N K T H Hd. destruct (k_done _ K Hd) as (_ & _ & Hl & Hidle). pose proof (stuck_acc _ N H Hl) as Hrun.
  assert (exists e, v_serve σ = SReturned e) as [e Hs].
  { pose proof (t_left _ T) as Hleft. destruct (stuck_serve _ H) as [(n & f & E & Ee)|[[n E]|Hs]]; [| |done].
    - rewrite E, Ee, Hrun in Hleft. cbn in Hleft. lia.
    - specialize (Hidle true). unfold at_work, slot in Hidle. by rewrite E in Hidle. }
  destruct (stuck_main _ H) as [[_ Hne]|[E|E]]; [by destruct (Hne e)| |].
  - specialize (Hidle false). unfold at_work, slot in Hidle. by rewrite E in Hidle.
  - split; [done|]. split; [by apply T|eauto].
Qed.

Lemma internal_or_stuck σ : stuck σ \/ exists σ', internal σ σ'.
Proof.
  destruct (decide (Exists (fun i => is_Some (acc_next i σ)) (seq 0 (length (v_acc σ))))) as [He|Ha].
  { apply Exists_exists in He as (i & _ & s & H). right. exists s. by eapply int_acc. }
  destruct (decide (Exists (fun c => is_Some (han_next c σ)) (elements (dom (v_han σ))))) as [He|Hh].
  { apply Exists_exists in He as (c & _ & s & H). right. exists s. by eapply int_han. }
  destruct (auto_next σ) as [s|] eqn:Hau; [right; exists s; by apply int_auto|].
  destruct (serve_next σ) as [s|] eqn:Hse; [right; exists s; by apply int_serve|].
  destruct (main_next σ) as [s|] eqn:Hma; [right; exists s; by apply int_main|]. left.
  assert (Hhan : forall c s, han_next c σ = Some s -> False).
  { intros c s H. apply Hh, Exists_exists. exists c. split; [|by exists s]. apply elem_of_elements, elem_of_dom.
    unfold han_next in H. destruct (v_han σ !! c); [eauto|done]. }
  intros s [i H|c H|c H|H|H|H]; try congruence.
  - apply Ha, Exists_exists. exists i. split; [|by exists s]. apply elem_of_seq. unfold acc_next in H.
    destruct (v_acc σ !! i) eqn:Hi; [|done]. apply lookup_lt_Some in Hi. lia.
  - by apply (Hhan c s).
  - unfold quit_next in H. destruct (v_han σ !! c) as [[[|m]| | |]|] eqn:Hc; try done. eapply (Hhan c). unfold han_next. by rewrite Hc.
Qed.

Lemma internal_ends σ : shut_ok σ -> exists σ', rtc internal σ σ' /\ stuck σ'.
Proof.
  remember (shut_work σ) as m eqn:Em. revert σ Em. induction (lt_wf m) as [m _ IH]. intros σ -> Hok.
  destruct (internal_or_stuck σ) as [|[σ1 H]]; [by exists σ|].
  destruct (IH (shut_work σ1) (work_step _ _ (proj1 Hok) H) σ1 eq_refl) as (σ2 & H1 & H2); [by eapply step_ok; [|left]|].
  exists σ2. split; [by eapply rtc_l|done].
Qed.

Lemma internal_bound m σ σ' : shut_ok σ -> nsteps internal m σ σ' -> m + shut_work σ' <= shut_work σ.
Proof.
  intros Hok H. induction H as [|m σ σ1 σ2 H1 H2 IH]; [lia|]. pose proof (work_step _ _ (proj1 Hok) H1).
  assert (shut_ok σ1) by (by eapply step_ok; [|left]). specialize (IH ltac:(done)). lia.
Qed.

Lemma closed_stays σ σ' : step σ σ' -> v_closed σ = true -> v_closed σ' = true.
Proof.
  assert (Hk : forall k k' s s', close_next k s = Some (k', s') -> v_closed s = true -> v_closed s' = true).
  { intros k k' s s' H. destruct k; cbn [close_next] in H; repeat (case_match; try done); by simplify_eq/=. }
  intros [[i H|c H|c H|H|H|H]|[i Hi Hl|i Hi|c m Hc' Ho|c Hc'|Ha|Hm]] Hc; cbn; try done.
  - unfold acc_next in H. repeat (case_match; try done); by simplify_eq/=.
  - unfold han_next in H. repeat (case_match; try done); by simplify_eq/=.
  - unfold quit_next in H. repeat (case_match; try done); by simplify_eq/=.
  - unfold auto_next in H. repeat (case_match; try done); by simplify_eq/=.
  - unfold serve_next in H. destruct (v_serve σ) as [[|m] f|k m|e]; [by injection H as <-|destruct (v_errc σ); by simplify_eq/=| |done].
    destruct (close_next k σ) as [[k' s']|] eqn:E; [apply Hk in E; [|done]|clear E]; destruct k; try done; by injection H as <-.
  - unfold main_next in H. destruct (v_main σ) as [|k| |]; [destruct (v_serve σ); by simplify_eq/=| |by injection H as <-|done].
    destruct (close_next k σ) as [[k' s']|] eqn:E; [apply Hk in E; [|done]|clear E]; destruct k; try done; by injection H as <-.
Qed.

(** C24. Once [Close] was called, the server makes a bounded number of steps by
    itself and stops; it then has no handler left but those of late
    connections that are idle and were not closed.  Without these, [Close] has
    returned, [Serve] has returned, the store is closed and [run] is over. *)
Theorem shutdown_completes n auto σ : reachable n auto σ -> v_closed σ = true ->
  (forall m σ', nsteps internal m σ σ' -> m <= shut_work σ)
  /\ (exists σ', rtc internal σ σ' /\ stuck σ')
  /\ forall σ', rtc internal σ σ' -> stuck σ' ->
       (forall c h, v_han σ' !! c = Some h -> h = HServe 0 /\ c ∈ v_late σ' /\ c ∈ v_open σ')
       /\ (v_han σ' = ∅ -> v_done σ' = true /\ v_main σ' = MExit /\ v_db σ' = true /\ exists e, v_serve σ' = SReturned e).
Proof.
  intros Hr Hc. pose proof (reachable_ok _ _ _ Hr) as Hok. split_and!.
  - intros m σ' H. pose proof (internal_bound _ _ _ Hok H). lia.
  - by apply internal_ends.
  - intros σ' Hi Hst. assert (Hc' : v_closed σ' = true).
    { clear Hst Hr Hok. induction Hi as [|? ? ? H _ IH]; [done|]. apply IH. by eapply closed_stays; [left|]. }
    assert (Hr' : reachable n auto σ') by (unfold reachable; etrans; [exact Hr|]; apply (rtc_subrel internal); [by left|exact Hi]).
    destruct (reachable_ok _ _ _ Hr') as [N K]. destruct (stuck_closed _ N K Hst Hc') as (Hsw & _ & Hd). split.
    + intros c h. by apply stuck_han.
    + intros Hh. specialize (Hd Hh). split; [done|]. by apply (stuck_over _ N K (reachable_top _ _ _ Hr')).
Qed.
