(* ===== verification/COptions.v ===== *)
(** * Options of the C interface (nteedb-js/capi/options.go)

    A store opened from JavaScript is described by a JSON text: unlike the
    server's schema file, unknown fields are ignored and an unknown kind is
    [string]. *)

From S2P Require Import Prelude Floats Types Json Record BTree SecIndex Hint Store Text ServerSchema.
#[local] Open Scope Z_scope.

Record jsonIndex := mkJsonIndex {
  ji_Name : gostring;
  ji_Kind : gostring;
  ji_JSONPath : gostring;
  ji_MaxPerValue : Z
}.

(** The slice of indexes is its backing array and its length: decoding an
    array again reuses the elements the backing array already has. *)
Record jsonOptions := mkJsonOptions {
  jo_Dir : gostring;
  jo_BlobThreshold : Z;
  jo_SyncEveryWrite : bool;
  jo_HintEveryN : Z;
  jo_array : list jsonIndex;
  jo_len : nat
}.

Definition jo_Indexes (o : jsonOptions) : list jsonIndex := take (jo_len o) (jo_array o).

Definition zero_jsonIndex : jsonIndex := mkJsonIndex [] [] [] 0.
Definition zero_jsonOptions : jsonOptions := mkJsonOptions [] 0 false 0 [] 0.

(** ** Decoding *)

Definition set_ji_field (x : jsonIndex) (kj : gostring * json) : option jsonIndex :=
  let '(k, j) := kj in
  let f := fold_name k in
  if decide (f = bs "name") then (fun v => mkJsonIndex v (ji_Kind x) (ji_JSONPath x) (ji_MaxPerValue x)) <$> dec_string (ji_Name x) j
  else if decide (f = bs "kind") then (fun v => mkJsonIndex (ji_Name x) v (ji_JSONPath x) (ji_MaxPerValue x)) <$> dec_string (ji_Kind x) j
  else if decide (f = bs "jsonpath") then (fun v => mkJsonIndex (ji_Name x) (ji_Kind x) v (ji_MaxPerValue x)) <$> dec_string (ji_JSONPath x) j
  else if decide (f = bs "maxpervalue") then
    (fun v => mkJsonIndex (ji_Name x) (ji_Kind x) (ji_JSONPath x) v) <$> dec_int MinInt64 MaxInt64 (ji_MaxPerValue x) j
  else Some x.

(** A struct decoded over the value it has. *)
Definition dec_struct {R} (f : R -> gostring * json -> option R) (cur : R) (j : json) : option R :=
  match j with
  | JObj l => set_fields f l cur
  | JNull => Some cur
  | _ => None
  end.

(** The elements of an array, decoded over a backing array. *)
Fixpoint dec_elems {R} (zero : R) (dec : R -> json -> option R) (array : list R) (l : list json) : option (list R) :=
  match l with
  | [] => Some array
  | j :: l' =>
      match dec (default zero (head array)) j, dec_elems zero dec (tail array) l' with
      | Some x, Some xs => Some (x :: xs)
      | _, _ => None
      end
  end.

Definition set_jo_field (o : jsonOptions) (kj : gostring * json) : option jsonOptions :=
  let '(k, j) := kj in
  let f := fold_name k in
  if decide (f = bs "dir") then
    (fun v => mkJsonOptions v (jo_BlobThreshold o) (jo_SyncEveryWrite o) (jo_HintEveryN o) (jo_array o) (jo_len o)) <$> dec_string (jo_Dir o) j
  else if decide (f = bs "blobthreshold") then
    (fun v => mkJsonOptions (jo_Dir o) v (jo_SyncEveryWrite o) (jo_HintEveryN o) (jo_array o) (jo_len o))
      <$> dec_int MinInt64 MaxInt64 (jo_BlobThreshold o) j
  else if decide (f = bs "synceverywrite") then
    (fun v => mkJsonOptions (jo_Dir o) (jo_BlobThreshold o) v (jo_HintEveryN o) (jo_array o) (jo_len o)) <$> dec_bool (jo_SyncEveryWrite o) j
  else if decide (f = bs "hinteveryn") then
    (fun v => mkJsonOptions (jo_Dir o) (jo_BlobThreshold o) (jo_SyncEveryWrite o) v (jo_array o) (jo_len o))
      <$> dec_int MinInt64 MaxInt64 (jo_HintEveryN o) j
  else if decide (f = bs "indexes") then
    match j with
    | JArr [] | JNull => Some (mkJsonOptions (jo_Dir o) (jo_BlobThreshold o) (jo_SyncEveryWrite o) (jo_HintEveryN o) [] 0)
    | JArr l => (fun v => mkJsonOptions (jo_Dir o) (jo_BlobThreshold o) (jo_SyncEveryWrite o) (jo_HintEveryN o) v (length l))
                  <$> dec_elems zero_jsonIndex (dec_struct set_ji_field) (jo_array o) l
    | _ => None
    end
  else Some o.

(** ** Extraction by path *)

(** The loop over the parts of the path: objects only. *)
Fixpoint follow (cur : any) (parts : list gostring) : option any :=
  match parts with
  | [] => Some cur
  | p :: parts' =>
      match cur with
      | AObj obj => match List.find (fun kv => bool_decide (kv.1 = p)) obj with
                    | Some kv => follow kv.2 parts'
                    | None => None
                    end
      | _ => None
      end
  end.

Definition jsonPathExtractor (path : gostring) (kind : ValueKind) : gostring -> gostring -> option any :=
  let parts := Split Byte.x2e path in
  fun _ value =>
    match (match json_parse value with Some j => decode_any j | None => None end) with
    | None => None
    | Some cur =>
        match follow cur parts with
        | None => None
        | Some v =>
            match kind with
            | KindNumber => match v with AFloat64 f => Some (AFloat64 f) | _ => None end
            | KindString => match v with AString s => Some (AString s) | _ => None end
            end
        end
    end.

(** ** The options of a store *)

Definition json_def (x : jsonIndex) : IndexDef :=
  let kind := if decide (ji_Kind x = bs "number") then KindNumber else KindString in
  mkIndexDef (ji_Name x) kind
    (if decide (ji_JSONPath x = []) then None else Some (jsonPathExtractor (ji_JSONPath x) kind))
    (ji_MaxPerValue x).

(** [parseOptions]: the directory and the options; an absent text keeps the
    zero options. *)
Definition parseOptions (dir optsJSON : gostring) : option (gostring * Options) :=
  if decide (optsJSON = []) then Some (dir, mkOptions 0 false 0 [])
  else match unmarshal_struct set_jo_field zero_jsonOptions optsJSON with
       | None => None
       | Some jo =>
           Some (if decide (jo_Dir jo = []) then dir else jo_Dir jo,
                 mkOptions (jo_BlobThreshold jo) (jo_SyncEveryWrite jo) (jo_HintEveryN jo) (json_def <$> jo_Indexes jo))
       end.

(** ** The two extractors agree *)

Lemma follow_walk parts : forall v, follow v parts = walk v parts.
Proof.
  induction parts as [|p parts IH]; intros v; [done|]. cbn [follow walk]. destruct v; try done. cbn [field_of].
  destruct (List.find _ l) as [kv|]; [apply IH|done].
Qed.

(** An index declared from JavaScript and one declared in a server's schema
    with the same path extract the same values from every record. *)
Lemma extractors_agree path kind key value :
  jsonPathExtractor path kind key value = jsonPathExtract path kind key value.
Proof.
  unfold jsonPathExtractor, jsonPathExtract. destruct (json_parse value) as [j|]; [|done]. destruct (decode_any j) as [v|]; [|done].
  rewrite follow_walk. by destruct (walk v _) as [[]|], kind.
Qed.

(** ** Examples *)

Example parseOptions_ex :
  (fun o => (o.1, (fun d => (d_Name d, d_Kind d, d_MaxPerValue d)) <$> o_Indexes o.2)) <$>
    parseOptions (bs "d") (qs "{'blobThreshold':10,'colour':1,'indexes':[{'name':'n','kind':'numeric','maxPerValue':3},{'name':'m','kind':'number'}]}")
  = Some (bs "d", [(bs "n", KindString, 3); (bs "m", KindNumber, 0)]).
Proof. by vm_compute. Qed.

(** A repeated field decodes over the elements of the earlier array, even over
    those a shorter array in between has cut off. *)
Example parseOptions_reuse_ex :
  (fun o => (fun d => (d_Name d, d_Kind d)) <$> o_Indexes o.2) <$>
    parseOptions (bs "d") (qs "{'indexes':[{'name':'a'},{'name':'b','kind':'number'}],'indexes':[{}],'indexes':[{},{}]}")
  = Some [(bs "a", KindString); (bs "b", KindNumber)].
Proof. by vm_compute. Qed.
