(* ===== verification/CApi.v ===== *)
(** * The C interface (nteedb-js/capi: registry.go, exports.go)

    The library a JavaScript process loads: a table of handles, the stores
    behind them and the directories they live in.  Every exported function
    answers with a JSON envelope.  A store is known by its address in the heap
    of the process; the table maps handles to addresses, so a store that was
    closed, or that no handle names any more, is still there.

    The files are those of the directory: a store sees its directory's files
    when an operation starts, and what it changes is changed there. *)

From S2P Require Import Prelude Floats Types Json Base64 Record BTree PkIndex SecIndex Hint Meta Store Ops Load Batch Compact Destroy Text Proto ServerSchema Server COptions.
#[local] Open Scope Z_scope.

(** ** Arguments from C *)

(** [C.GoString]: the bytes before the first NUL. *)
Fixpoint GoString (mem : gostring) : gostring :=
  match mem with
  | [] => []
  | b :: mem' => if decide (b = Byte.x00) then [] else b :: GoString mem'
  end.

(** [C.GoBytes] of the memory at a pointer: a negative length panics; the
    caller promises that many bytes. *)
Definition GoBytes {S} (mem : gostring) (n : Z) : M S gostring :=
  if n <? 0 then merr EPanic
  else if zlen mem <? n then merr EMisuse
  else mok (take (Z.to_nat n) mem).

(** [ttlArg]: milliseconds to a duration; the product wraps. *)
Definition ttlArg (ms : Z) : list Z := if ms =? 0 then [] else [wrap64 (ms * millisecond)].

(** [json.Unmarshal] into a nil slice and into an [any]. *)
Definition unmarshal_slice {R} (zero : R) (dec : R -> json -> option R) (text : gostring) : option (list R) :=
  match json_parse text with
  | Some (JArr l) => dec_elems zero dec [] l
  | Some JNull => Some []
  | _ => None
  end.

Definition unmarshal_any (text : gostring) : option any :=
  match json_parse text with Some j => decode_any j | None => None end.

(** ** Envelopes *)

(** The errors of the interface; their wording is a parameter. *)
Inductive apiError :=
  | AErr (e : error)                      (** of the store *)
  | AJson                                 (** json.Unmarshal refused an argument *)
  | ABase64
  | ABlobMismatch
  | AInvalidHandle.

(** [valJSON] and [encodeValJSON]: empty fields are left out. *)
Definition valJSON_fields (v : option gostring) : list (gostring * doc) :=
  match v with
  | None => [(bs "found", doc_bool false)]
  | Some value =>
      [(bs "found", doc_bool true)] ++
      (if json_valid value then [(bs "json", DRaw value)]
       else match b64_encode value with [] => [] | t => [(bs "v", doc_str t)] end)
  end.

Definition encodeValJSON (v : option gostring) : doc := DObj (valJSON_fields v).

(** [recordJSON]. *)
Definition recordJSON (kv : gostring * option gostring) : doc := DObj ((bs "key", doc_str kv.1) :: valJSON_fields kv.2).

Definition encodeRecords (keys : list gostring) (values : list (option gostring)) : doc := DArr (recordJSON <$> zip keys values).

Definition stats_doc (st : Stats) : doc :=
  DObj [(bs "records", doc_int (st_Records st)); (bs "mainBytes", doc_int (st_MainBytes st)); (bs "blobBytes", doc_int (st_BlobBytes st))].

Definition usage_doc (u : BlobUsage) : doc :=
  DObj [(bs "totalBytes", doc_int (bu_TotalBytes u)); (bs "liveBytes", doc_int (bu_LiveBytes u));
        (bs "orphanedBytes", doc_int (bu_OrphanedBytes u)); (bs "generations", doc_int (bu_Generations u))].

(** ** Batches *)

Record jsonBatchItem := mkJsonBatchItem { jb_K : gostring; jb_S : gostring; jb_V : gostring; jb_IX : IndexValues }.

Definition set_jb_field (b : jsonBatchItem) (kj : gostring * json) : option jsonBatchItem :=
  let '(k, j) := kj in
  let f := fold_name k in
  if decide (f = bs "k") then (fun v => mkJsonBatchItem v (jb_S b) (jb_V b) (jb_IX b)) <$> dec_string (jb_K b) j
  else if decide (f = bs "s") then (fun v => mkJsonBatchItem (jb_K b) v (jb_V b) (jb_IX b)) <$> dec_string (jb_S b) j
  else if decide (f = bs "v") then (fun v => mkJsonBatchItem (jb_K b) (jb_S b) v (jb_IX b)) <$> dec_string (jb_V b) j
  else if decide (f = bs "ix") then (fun v => mkJsonBatchItem (jb_K b) (jb_S b) (jb_V b) v) <$> dec_ix (jb_IX b) j
  else Some b.

(** The value of an item: text, or base64, or nothing. *)
Definition batch_value (b : jsonBatchItem) : option gostring :=
  if decide (jb_S b = []) then if decide (jb_V b = []) then Some [] else b64_decode (jb_V b)
  else Some (jb_S b).

Definition batch_item (b : jsonBatchItem) : option PutItem :=
  (fun v => mkPutItem (jb_K b) v (jb_IX b) 0) <$> batch_value b.

Record binBatchItem := mkBinBatchItem { bb_K : gostring; bb_N : Z; bb_IX : IndexValues }.

Definition set_bb_field (b : binBatchItem) (kj : gostring * json) : option binBatchItem :=
  let '(k, j) := kj in
  let f := fold_name k in
  if decide (f = bs "k") then (fun v => mkBinBatchItem v (bb_N b) (bb_IX b)) <$> dec_string (bb_K b) j
  else if decide (f = bs "n") then (fun v => mkBinBatchItem (bb_K b) v (bb_IX b)) <$> dec_int MinInt64 MaxInt64 (bb_N b) j
  else if decide (f = bs "ix") then (fun v => mkBinBatchItem (bb_K b) (bb_N b) v) <$> dec_ix (bb_IX b) j
  else Some b.

(** The items of a binary batch, or why there are none. *)
Inductive sliced := Items (l : list PutItem) | Mismatch | SlicePanic.

(** The loop of [nteedb_put_batch_bin] from offset [off]; the sum wraps, and a
    slice with its end before its start panics. *)
Fixpoint slice_items (metas : list binBatchItem) (buf : gostring) (off : Z) : sliced :=
  match metas with
  | [] => if off =? zlen buf then Items [] else Mismatch
  | m :: metas' =>
      let e := wrap64 (off + bb_N m) in
      if (bb_N m <? 0) || (zlen buf <? e) then Mismatch
      else if e <? off then SlicePanic
      else match slice_items metas' buf e with
           | Items l => Items (mkPutItem (bb_K m) (take (Z.to_nat (bb_N m)) (drop (Z.to_nat off) buf)) (bb_IX m) 0 :: l)
           | r => r
           end
  end.

(** ** The library *)

Definition uwrap32 (z : Z) : Z := z mod 2 ^ 32.

Section capi.
Context {BT : BTreeG} {E : Env}.

(** The directory a path names, and the wording of errors. *)
Context (dir_of : gostring -> gostring) (error_text : apiError -> gostring).

Record opened := mkOpened { op_dir : gostring; op_db : DB }.

Record library := mkLibrary {
  lb_dirs : gmap gostring Disk;           (* the files of each directory *)
  lb_heap : gmap N opened;                (* the stores of the process, by address *)
  lb_alloc : N;                           (* the next free address *)
  lb_next : Z;                            (* regNext, a uint32 *)
  lb_reg : gmap Z N;                      (* registry *)
  lb_tick : nat
}.

Definition set_reg (m : gmap Z N) (l : library) : library :=
  mkLibrary (lb_dirs l) (lb_heap l) (lb_alloc l) (lb_next l) m (lb_tick l).

Definition files (l : library) (dir : gostring) : Disk := default empty_disk (lb_dirs l !! dir).

#[local] Notation ML := (M library).

(** [regPut], [regGet] and [regDelete]. *)
Definition regPut (p : N) : ML Z := fun l =>
  let h := uwrap32 (lb_next l + 1) in
  (Ok h, mkLibrary (lb_dirs l) (lb_heap l) (lb_alloc l) h (<[h := p]> (lb_reg l)) (lb_tick l)).

Definition regGet (h : Z) : ML (option N) := fun l => (Ok (lb_reg l !! h), l).

Definition regDelete (h : Z) : ML (option N) := fun l => (Ok (lb_reg l !! h), set_reg (delete h (lb_reg l)) l).

(** The store at an address, its directory's files before it. *)
Definition view (l : library) (st : opened) : DB := set_tick (lb_tick l) (set_disk (fun _ => files l (op_dir st)) (op_db st)).

(** Its state afterwards, and that of its directory. *)
Definition settle (p : N) (dir : gostring) (db : DB) (l : library) : library :=
  mkLibrary (<[dir := db_disk db]> (lb_dirs l)) (<[p := mkOpened dir db]> (lb_heap l)) (lb_alloc l) (lb_next l) (lb_reg l) (db_tick db).

(** A method of the store at address [p]. *)
Definition db_op {A} (p : N) (m : M DB A) : ML (res A) := fun l =>
  match lb_heap l !! p with
  | None => (Err EPanic, l)
  | Some st =>
      let '(r, db) := m (view l st) in
      let l' := settle p (op_dir st) db l in
      match r with
      | Err EPanic => (Err EPanic, l')
      | r => (Ok r, l')
      end
  end.

(** Does an open store hold the lock of the directory?  Closing a store, by
    [Close] or by [failStop], releases it. *)
Definition held (l : library) (dir : gostring) : bool :=
  existsb (fun st => bool_decide (op_dir st = dir) && negb (db_closed (op_db st))) (map_to_list (lb_heap l)).*2.

(** [reply]. *)
Definition reply (result : option doc) (err : option apiError) : gostring :=
  dprint (DObj (match err, result with
                | Some e, _ => [(bs "err", doc_str (error_text e))]
                | None, Some d => [(bs "result", d)]
                | None, None => []
                end)).

Definition answer (d : doc) : ML gostring := mok (reply (Some d) None).
Definition refuse (e : apiError) : ML gostring := mok (reply None (Some e)).

(** [x, err := db.Op(...); if err != nil { return reply(nil, err) }]. *)
Definition op {A} (p : N) (m : M DB A) (k : A -> ML gostring) : ML gostring :=
  r <- db_op p m ;; match r with Ok a => k a | Err e => refuse (AErr e) end.

(** [return reply(nil, db.Op(...))]. *)
Definition op_ (p : N) (m : M DB unit) : ML gostring := op p m (fun _ => mok (reply None None)).

(** [db := regGet(uint32(h)); if db == nil { return reply(nil, errInvalidHandle) }]. *)
Definition with_handle (h : Z) (k : N -> ML gostring) : ML gostring :=
  o <- regGet h ;; match o with Some p => k p | None => refuse AInvalidHandle end.

(** [json.Unmarshal] of an argument. *)
Definition with_json {A} (o : option A) (k : A -> ML gostring) : ML gostring :=
  match o with Some a => k a | None => refuse AJson end.

(** ** Opening and closing *)

(** [nteedb.Open] on a directory whose lock is held: [MkdirAll], the LOCK file,
    and [flock] gives up. *)
Definition open_locked : M DB N := fs_call ;;; fs_call ;;; merr ErrLocked.

(** [nteedb.Open]: the address of the store. *)
Definition open_store (dir : gostring) (opts : Options) : ML (res N) := fun l =>
  if decide (dir = []) then (Ok (Err EDirRequired), l)
  else
    let d := dir_of dir in
    if held l d then
      let '(r, s) := open_locked (init_db opts (files l d) (lb_tick l)) in
      (Ok r, mkLibrary (lb_dirs l) (lb_heap l) (lb_alloc l) (lb_next l) (lb_reg l) (db_tick s))
    else
      let '(r, s) := Open opts (files l d) (lb_tick l) in
      let dirs := <[d := db_disk s]> (lb_dirs l) in
      match r with
      | Ok db => (Ok (Ok (lb_alloc l)),
                  mkLibrary dirs (<[lb_alloc l := mkOpened d db]> (lb_heap l)) (lb_alloc l + 1)%N (lb_next l) (lb_reg l) (db_tick s))
      | Err EPanic => (Err EPanic, mkLibrary dirs (lb_heap l) (lb_alloc l) (lb_next l) (lb_reg l) (db_tick s))
      | Err e => (Ok (Err e), mkLibrary dirs (lb_heap l) (lb_alloc l) (lb_next l) (lb_reg l) (db_tick s))
      end.

Definition nteedb_open (dir optsJSON : gostring) : ML gostring :=
  with_json (parseOptions (GoString dir) (GoString optsJSON)) (fun o =>
    r <- open_store o.1 o.2 ;;
    match r with
    | Err e => refuse (AErr e)
    | Ok p => h <- regPut p ;; answer (doc_int h)
    end).

Definition nteedb_close (h : Z) : ML gostring :=
  o <- regDelete h ;;
  match o with
  | Some p => op_ p Close
  | None => mok (reply None None)
  end.

(** A store that is closed already holds no lock: dropping it while another
    store has the directory open deletes that store's files. *)
Definition drops_other (l : library) (p : N) : bool :=
  match lb_heap l !! p with
  | Some st => db_closed (op_db st) && held l (op_dir st)
  | None => false
  end.

Definition nteedb_drop (h : Z) : ML gostring :=
  o <- regDelete h ;;
  match o with
  | Some p => l <- mget ;; if drops_other l p then merr EMisuse else op_ p Drop
  | None => mok (reply None None)
  end.

(** [Destroy] of a directory no store has open. *)
Definition nteedb_destroy (dir : gostring) : ML gostring := fun l =>
  let d := dir_of (GoString dir) in
  if held l d then (Err EMisuse, l)
  else
    let '(r, s) := Destroy (init_db (mkOptions 0 false 0 []) (files l d) (lb_tick l)) in
    (Ok (reply None (match r with Ok _ => None | Err e => Some (AErr e) end)),
     mkLibrary (<[d := db_disk s]> (lb_dirs l)) (lb_heap l) (lb_alloc l) (lb_next l) (lb_reg l) (db_tick s)).

(** ** Writing *)

Definition nteedb_put (h : Z) (key val : gostring) (valLen : Z) (ixJSON : gostring) (ttlMillis : Z) : ML gostring :=
  with_handle h (fun p =>
    value <- GoBytes val valLen ;;
    let ixStr := GoString ixJSON in
    if decide (ixStr = []) then op_ p (Put (GoString key) value (ttlArg ttlMillis))
    else with_json (unmarshal_ix ixStr) (fun ix => op_ p (PutIndexed (GoString key) value ix (ttlArg ttlMillis)))).

Definition nteedb_incr (h : Z) (key : gostring) (delta ttlMillis : Z) : ML gostring :=
  with_handle h (fun p => op p (Incr (GoString key) delta (ttlArg ttlMillis)) (fun v => answer (doc_int v))).

Definition nteedb_topup (h : Z) (key : gostring) (amount max ttlMillis : Z) : ML gostring :=
  with_handle h (fun p => op p (Topup (GoString key) amount max (ttlArg ttlMillis)) (fun v => answer (doc_int v))).

Definition nteedb_take (h : Z) (key : gostring) (amount left_ ttlMillis : Z) : ML gostring :=
  with_handle h (fun p => op p (Take (GoString key) amount left_ (ttlArg ttlMillis)) (fun b => answer (doc_bool b))).

Definition nteedb_delete (h : Z) (key : gostring) : ML gostring :=
  with_handle h (fun p => op_ p (Delete (GoString key))).

Definition nteedb_put_batch (h : Z) (itemsJSON : gostring) : ML gostring :=
  with_handle h (fun p =>
    with_json (unmarshal_slice (mkJsonBatchItem [] [] [] ∅) (dec_struct set_jb_field) (GoString itemsJSON)) (fun jitems =>
      match mapM batch_item jitems with
      | None => refuse ABase64
      | Some items => op p (PutBatch items) (fun _ => answer (doc_int (zlen items)))
      end)).

Definition nteedb_put_batch_bin (h : Z) (metaJSON blob : gostring) (blobLen : Z) : ML gostring :=
  with_handle h (fun p =>
    with_json (unmarshal_slice (mkBinBatchItem [] 0 ∅) (dec_struct set_bb_field) (GoString metaJSON)) (fun metas =>
      buf <- GoBytes blob blobLen ;;
      match slice_items metas buf 0 with
      | SlicePanic => merr EPanic
      | Mismatch => refuse ABlobMismatch
      | Items items => op p (PutBatch items) (fun _ => answer (doc_int (zlen items)))
      end)).

Definition nteedb_remove_by_pk_less (h : Z) (cutoff : gostring) : ML gostring :=
  with_handle h (fun p => op p (RemoveByPkLess (GoString cutoff)) (fun n => answer (doc_int n))).

Definition nteedb_remove_by_pk_greater (h : Z) (cutoff : gostring) : ML gostring :=
  with_handle h (fun p => op p (RemoveByPkGreater (GoString cutoff)) (fun n => answer (doc_int n))).

(** ** Reading *)

Definition nteedb_get_json (h : Z) (key : gostring) : ML gostring :=
  with_handle h (fun p => op p (Get (GoString key)) (fun v => answer (encodeValJSON v))).

Definition nteedb_get_many_json (h : Z) (keysJSON : gostring) : ML gostring :=
  with_handle h (fun p =>
    with_json (unmarshal_slice [] dec_string (GoString keysJSON)) (fun keys =>
      op p (GetMany keys) (fun vs => answer (DArr (encodeValJSON <$> vs))))).

Definition nteedb_has (h : Z) (key : gostring) : ML gostring :=
  with_handle h (fun p => op p (Has (GoString key)) (fun b => answer (doc_bool b))).

Definition nteedb_prefix_scan (h : Z) (prefix : gostring) : ML gostring :=
  with_handle h (fun p => op p (PrefixScan (GoString prefix)) (fun keys => answer (doc_keys keys))).

Definition nteedb_by_index (h : Z) (name valJSON : gostring) (limit : Z) : ML gostring :=
  with_handle h (fun p =>
    with_json (unmarshal_any (GoString valJSON)) (fun val =>
      op p (ByIndex (GoString name) val [limit]) (fun keys => answer (doc_keys keys)))).

Definition nteedb_by_index_has (h : Z) (name valJSON : gostring) : ML gostring :=
  with_handle h (fun p =>
    with_json (unmarshal_any (GoString valJSON)) (fun val =>
      op p (ByIndexHas (GoString name) val) (fun b => answer (doc_bool b)))).

Definition nteedb_by_index_prefix (h : Z) (name prefix : gostring) (limit : Z) : ML gostring :=
  with_handle h (fun p => op p (ByIndexPrefix (GoString name) (GoString prefix) [limit]) (fun keys => answer (doc_keys keys))).

Definition nteedb_by_index_range (h : Z) (name loJSON hiJSON : gostring) : ML gostring :=
  with_handle h (fun p =>
    with_json (unmarshal_any (GoString loJSON)) (fun lo =>
    with_json (unmarshal_any (GoString hiJSON)) (fun hi =>
      op p (ByIndexRange (GoString name) lo hi) (fun keys => answer (doc_keys keys))))).

(** [readRecordsReply], the query that found the keys included. *)
Definition readRecordsReply (p : N) (query : M DB (list gostring)) : ML gostring :=
  op p query (fun keys => op p (GetMany keys) (fun values => answer (encodeRecords keys values))).

Definition nteedb_by_index_records_json (h : Z) (name valJSON : gostring) (limit : Z) : ML gostring :=
  with_handle h (fun p =>
    with_json (unmarshal_any (GoString valJSON)) (fun val => readRecordsReply p (ByIndex (GoString name) val [limit]))).

Definition nteedb_by_index_prefix_records_json (h : Z) (name prefix : gostring) (limit : Z) : ML gostring :=
  with_handle h (fun p => readRecordsReply p (ByIndexPrefix (GoString name) (GoString prefix) [limit])).

Definition nteedb_prefix_scan_records_json (h : Z) (prefix : gostring) : ML gostring :=
  with_handle h (fun p => readRecordsReply p (PrefixScan (GoString prefix))).

(** ** Maintenance and introspection *)

Definition nteedb_compact (h : Z) : ML gostring := with_handle h (fun p => op_ p Compact).
Definition nteedb_reindex (h : Z) : ML gostring := with_handle h (fun p => op_ p Reindex).
Definition nteedb_relieve (h : Z) : ML gostring := with_handle h (fun p => op_ p BlobsRelieve).

(** A getter of the store, without an error. *)
Definition getter {A} (f : DB -> A) : M DB A := s <- mget ;; mok (f s).

Definition nteedb_stats (h : Z) : ML gostring :=
  with_handle h (fun p => op p (getter getStats) (fun st => answer (stats_doc st))).

Definition nteedb_blob_usage (h : Z) : ML gostring :=
  with_handle h (fun p => op p getBlobUsage (fun u => answer (usage_doc u))).

Definition nteedb_details (h : Z) : ML gostring :=
  with_handle h (fun p =>
    op p (getter getStats) (fun st =>
    op p getBlobUsage (fun u =>
    op p (getter LiveBytes) (fun live =>
      answer (doc_map [
        (bs "records", doc_int (st_Records st)); (bs "mainBytes", doc_int (st_MainBytes st)); (bs "liveBytes", doc_int live);
        (bs "blobBytes", doc_int (st_BlobBytes st)); (bs "blobLiveBytes", doc_int (bu_LiveBytes u));
        (bs "blobOrphanedBytes", doc_int (bu_OrphanedBytes u)); (bs "blobGenerations", doc_int (bu_Generations u))]))))).

Definition nteedb_dropped_indexes (h : Z) : ML gostring :=
  with_handle h (fun p => op p (getter DroppedIndexes) (fun l => answer (doc_keys l))).

Definition nteedb_prospective_indexes (h : Z) : ML gostring :=
  with_handle h (fun p => op p (getter ProspectiveIndexes) (fun l => answer (doc_keys l))).
End capi.
