(* ===== verification/CApiProofs.v ===== *)
(** * The table of handles

    The calls of the interface as data, sequences of them with the background
    work of the stores in between, and what every sequence keeps: no two open
    stores share a directory, handles name different stores, a call touches
    the store its handle names and no other, and a released handle stays
    dead. *)

From S2P Require Import Prelude Floats Types Json Record BTree PkIndex SecIndex Hint Meta Store Ops Load PutProofs Batch Compact Destroy Text Proto ServerSchema Server AuthProofs COptions CApi.
#[local] Open Scope Z_scope.

(** ** Calls *)

(** The exported functions that take a handle, close and drop apart. *)
Inductive data_call :=
  | DPut (key val : gostring) (valLen : Z) (ixJSON : gostring) (ttlMillis : Z)
  | DIncr (key : gostring) (delta ttlMillis : Z)
  | DTopup (key : gostring) (amount max ttlMillis : Z)
  | DTake (key : gostring) (amount left_ ttlMillis : Z)
  | DDelete (key : gostring)
  | DPutBatch (itemsJSON : gostring)
  | DPutBatchBin (metaJSON blob : gostring) (blobLen : Z)
  | DRemoveLess (cutoff : gostring)
  | DRemoveGreater (cutoff : gostring)
  | DGet (key : gostring)
  | DGetMany (keysJSON : gostring)
  | DHas (key : gostring)
  | DPrefixScan (prefix : gostring)
  | DByIndex (name valJSON : gostring) (limit : Z)
  | DByIndexHas (name valJSON : gostring)
  | DByIndexPrefix (name prefix : gostring) (limit : Z)
  | DByIndexRange (name loJSON hiJSON : gostring)
  | DByIndexRecords (name valJSON : gostring) (limit : Z)
  | DByIndexPrefixRecords (name prefix : gostring) (limit : Z)
  | DPrefixScanRecords (prefix : gostring)
  | DCompact | DReindex | DRelieve | DStats | DBlobUsage | DDetails | DDropped | DProspective.

Inductive call :=
  | COpenStore (dir optsJSON : gostring)
  | CCloseStore (h : Z)
  | CDropStore (h : Z)
  | CDestroyDir (dir : gostring)
  | CData (h : Z) (d : data_call).

(** What happens to a library: a call, or a turn of a store's reaper or hint
    writer. *)
Inductive event := Call (c : call) | Reap (p : N) | WriteHint (p : N).

Section proofs.
Context {BT : BTreeG} {E : Env}.
Context (dir_of : gostring -> gostring) (error_text : apiError -> gostring).

#[local] Notation ML := (M library).

Definition run_data (h : Z) (d : data_call) : ML gostring :=
  match d with
  | DPut key val n ix ttl => nteedb_put error_text h key val n ix ttl
  | DIncr key delta ttl => nteedb_incr error_text h key delta ttl
  | DTopup key amount max ttl => nteedb_topup error_text h key amount max ttl
  | DTake key amount lft ttl => nteedb_take error_text h key amount lft ttl
  | DDelete key => nteedb_delete error_text h key
  | DPutBatch items => nteedb_put_batch error_text h items
  | DPutBatchBin metas blob n => nteedb_put_batch_bin error_text h metas blob n
  | DRemoveLess cutoff => nteedb_remove_by_pk_less error_text h cutoff
  | DRemoveGreater cutoff => nteedb_remove_by_pk_greater error_text h cutoff
  | DGet key => nteedb_get_json error_text h key
  | DGetMany keys => nteedb_get_many_json error_text h keys
  | DHas key => nteedb_has error_text h key
  | DPrefixScan p => nteedb_prefix_scan error_text h p
  | DByIndex name v limit => nteedb_by_index error_text h name v limit
  | DByIndexHas name v => nteedb_by_index_has error_text h name v
  | DByIndexPrefix name p limit => nteedb_by_index_prefix error_text h name p limit
  | DByIndexRange name lo hi => nteedb_by_index_range error_text h name lo hi
  | DByIndexRecords name v limit => nteedb_by_index_records_json error_text h name v limit
  | DByIndexPrefixRecords name p limit => nteedb_by_index_prefix_records_json error_text h name p limit
  | DPrefixScanRecords p => nteedb_prefix_scan_records_json error_text h p
  | DCompact => nteedb_compact error_text h
  | DReindex => nteedb_reindex error_text h
  | DRelieve => nteedb_relieve error_text h
  | DStats => nteedb_stats error_text h
  | DBlobUsage => nteedb_blob_usage error_text h
  | DDetails => nteedb_details error_text h
  | DDropped => nteedb_dropped_indexes error_text h
  | DProspective => nteedb_prospective_indexes error_text h
  end.

Definition exec (c : call) : ML gostring :=
  match c with
  | COpenStore dir opts => nteedb_open dir_of error_text dir opts
  | CCloseStore h => nteedb_close error_text h
  | CDropStore h => nteedb_drop error_text h
  | CDestroyDir dir => nteedb_destroy dir_of error_text dir
  | CData h d => run_data h d
  end.

(** A store waits for its background work before it is closed. *)
Definition background (p : N) (m : M DB unit) (l : library) : option library :=
  match lb_heap l !! p with
  | Some st => if db_closed (op_db st) then None
               else match db_op p m l with (Ok _, l') => Some l' | _ => None end
  | None => None
  end.

(** A run of the process, while it lives and its callers keep the documented
    preconditions. *)
Definition happen (e : event) (l : library) : option library :=
  match e with
  | Call c => match exec c l with (Ok _, l') => Some l' | _ => None end
  | Reap p => background p reapCycle l
  | WriteHint p => background p writeHintAsync l
  end.

Fixpoint history (es : list event) (l : library) : option library :=
  match es with
  | [] => Some l
  | e :: es' => match happen e l with Some l' => history es' l' | None => None end
  end.

Definition fresh_library (dirs : gmap gostring Disk) : library := mkLibrary dirs ∅ 0%N 0 ∅ 0.

(** ** A closed store is inert *)

(** On a closed store, the operation leaves it closed and changes no file. *)
Definition inert {A} (m : M DB A) : Prop := forall s r s', db_closed s = true -> m s = (r, s') ->
  db_closed s' = true /\ db_disk s' = db_disk s.

Lemma inert_gate {A} (k : M DB A) : inert (check_open ;;; k).
Proof. intros s r s' Hc. rewrite (closed_bnd (fun _ => k) s Hc). by intros [= _ <-]. Qed.

Lemma inert_ttl {A} ttl (k : Z -> M DB A) : inert (exp <- resolveTTL ttl ;; check_open ;;; k exp).
Proof.
  intros s r s' Hc H. destruct (resolveTTL_tick ttl s) as [t Ht]. unfold mbnd at 1 in H. rewrite Ht in H.
  destruct (resolveTTL ttl s).1 as [e|e].
  - rewrite (closed_bnd (fun _ => k e) (set_tick t s) Hc) in H. by injection H as _ <-.
  - by injection H as _ <-.
Qed.

Lemma inert_getter {A} (f : DB -> A) : inert (getter f).
Proof. by intros s r s' Hc [= _ <-]. Qed.

Lemma inert_has key : inert (Has key).
Proof. intros s r s' Hc. unfold Has. rewrite mget_bnd, Hc. by intros [= _ <-]. Qed.

Lemma inert_close : inert Close.
Proof. intros s r s' Hc. unfold Close. rewrite mget_bnd, Hc. by intros [= _ <-]. Qed.

Lemma inert_amount {A} amount (m : M DB A) : inert m -> inert (if amount <? 0 then merr ErrNegativeAmount else m).
Proof. intros Hm s r s' Hc. destruct (amount <? 0); [by intros [= _ <-]|]. by apply Hm. Qed.

(** ** What a call on a store changes *)

(** [l'] differs from [l] in the store at [p] and in its directory at most. *)
Record touches (p : N) (l l' : library) : Prop := Touches {
  to_reg : lb_reg l' = lb_reg l /\ lb_next l' = lb_next l /\ lb_alloc l' = lb_alloc l;
  to_other : forall q, q <> p -> lb_heap l' !! q = lb_heap l !! q;
  to_store : forall st, lb_heap l !! p = Some st -> exists db, lb_heap l' !! p = Some (mkOpened (op_dir st) db)
    /\ (forall d, d <> op_dir st -> files l' d = files l d)
    /\ (l' = l \/ db_disk db = files l' (op_dir st))
    /\ (db_closed (op_db st) = true -> db_closed db = true /\ files l' (op_dir st) = files l (op_dir st));
  to_none : lb_heap l !! p = None -> l' = l
}.

Lemma touches_refl p l : touches p l l.
Proof.
  split; [done|done| |done]. intros [dir db] Hst. exists db. cbn. split_and!; [done|done|by left|done].
Qed.

Lemma touches_trans p l1 l2 l3 : touches p l1 l2 -> touches p l2 l3 -> touches p l1 l3.
Proof.
  intros [(R1 & N1 & A1) O1 S1 Z1] [(R2 & N2 & A2) O2 S2 Z2]. split.
  - split_and!; congruence.
  - intros q Hq. by rewrite O2, O1.
  - intros st Hst. destruct (S1 st Hst) as (db1 & H1 & F1 & Y1 & C1). destruct (S2 _ H1) as (db2 & H2 & F2 & Y2 & C2). cbn in *.
    exists db2. split_and!; [done|intros d Hd; by rewrite F2, F1| |].
    + destruct Y2 as [->|Y2]; [|by right]. rewrite H1 in H2. injection H2 as <-. destruct Y1; [by left|by right].
    + intros Hc. destruct (C1 Hc) as [Hc1 Hf1]. destruct (C2 Hc1) as [Hc2 Hf2]. split; [done|congruence].
  - intros Hn. pose proof (Z1 Hn) as ->. by apply Z2.
Qed.

Lemma files_insert l dir d d' h a n r t : files (mkLibrary (<[dir := d]> (lb_dirs l)) h a n r t) d' = if decide (d' = dir) then d else files l d'.
Proof.
  unfold files. cbn. destruct (decide (d' = dir)) as [->|Hne]; [by rewrite lookup_insert_eq|by rewrite lookup_insert_ne by done].
Qed.

Lemma db_op_settle {A} p (m : M DB A) l r l' st : lb_heap l !! p = Some st -> db_op p m l = (r, l') ->
  exists r1 db, m (view l st) = (r1, db) /\ l' = settle p (op_dir st) db l.
Proof.
  intros Hst. unfold db_op. rewrite Hst. destruct (m (view l st)) as [r1 db]. intros H. exists r1, db. split; [done|].
  by destruct r1 as [|[]]; injection H as _ <-.
Qed.

Lemma settle_touches p l st db : lb_heap l !! p = Some st ->
  (db_closed (op_db st) = true -> db_closed db = true /\ db_disk db = files l (op_dir st)) -> touches p l (settle p (op_dir st) db l).
Proof.
  intros Hst Hc. split; [done| | |congruence].
  - intros q Hq. cbn. by rewrite lookup_insert_ne.
  - intros st' Hst'. rewrite Hst in Hst'. injection Hst' as <-. exists db. unfold settle. split_and!.
    + apply lookup_insert_eq.
    + intros d Hd. by rewrite files_insert, decide_False.
    + right. by rewrite files_insert, decide_True.
    + by rewrite files_insert, decide_True.
Qed.

Lemma db_op_touches {A} p (m : M DB A) l r l' : inert m -> db_op p m l = (r, l') -> touches p l l'.
Proof.
  intros Hm H. destruct (lb_heap l !! p) as [st|] eqn:Hst.
  - destruct (db_op_settle _ _ _ _ _ _ Hst H) as (r1 & db & Hrun & ->). apply settle_touches; [done|].
    intros Hc. exact (Hm (view l st) r1 db Hc Hrun).
  - unfold db_op in H. rewrite Hst in H. injection H as _ <-. apply touches_refl.
Qed.

(** Any operation on an open store touches that store only. *)
Lemma db_op_open {A} p (m : M DB A) l r l' st : lb_heap l !! p = Some st -> db_closed (op_db st) = false ->
  db_op p m l = (r, l') -> touches p l l'.
Proof.
  intros Hst Ho H. destruct (db_op_settle _ _ _ _ _ _ Hst H) as (r1 & db & _ & ->). apply settle_touches; [done|congruence].
Qed.

(** A computation that only works through the store at [p]. *)
Definition local_to {A} (p : N) (m : ML A) : Prop := forall l r l', m l = (r, l') -> touches p l l'.

Lemma local_ok {A} p (a : A) : local_to p (mok a).
Proof. intros l r l' [= _ <-]. apply touches_refl. Qed.

Lemma local_err {A} p e : local_to p (merr e : ML A).
Proof. intros l r l' [= _ <-]. apply touches_refl. Qed.

Lemma local_bnd {A B} p (m : ML A) (k : A -> ML B) : local_to p m -> (forall a, local_to p (k a)) -> local_to p (mbnd m k).
Proof.
  intros Hm Hk l r l'. unfold mbnd. destruct (m l) as [[a|e] l1] eqn:H1.
  - intros H2. eapply touches_trans; [by eapply Hm|by eapply Hk].
  - intros [= _ <-]. by eapply Hm.
Qed.

Lemma local_op {A} p (m : M DB A) (k : A -> ML gostring) : inert m -> (forall a, local_to p (k a)) -> local_to p (op error_text p m k).
Proof.
  intros Hm Hk. apply local_bnd; [intros l r l'; by apply db_op_touches|]. intros [a|e]; [apply Hk|apply local_ok].
Qed.

Lemma local_op_ p m : inert m -> local_to p (op_ error_text p m).
Proof. intros Hm. apply local_op; [done|]. intros _. apply local_ok. Qed.

Lemma local_json {A} p (o : option A) (k : A -> ML gostring) : (forall a, local_to p (k a)) -> local_to p (with_json error_text o k).
Proof. intros Hk. destruct o; [apply Hk|apply local_ok]. Qed.

Lemma local_bytes p mem n (k : gostring -> ML gostring) : (forall v, local_to p (k v)) -> local_to p (v <- GoBytes mem n ;; k v).
Proof.
  intros Hk. apply local_bnd; [|done]. unfold GoBytes. destruct (n <? 0); [apply local_err|]. destruct (zlen mem <? n); [apply local_err|apply local_ok].
Qed.


(** Methods begin with their time to live, if any, and the look at [closed]. *)
Ltac inert_tac :=
  unfold Put, PutIndexed, Incr, Topup, Take, Delete, PutBatch, RemoveByPkLess, RemoveByPkGreater, Get, GetMany, PrefixScan,
    ByIndex, ByIndexHas, ByIndexPrefix, ByIndexRange, with_index, Compact, Reindex, BlobsRelieve, getBlobUsage;
  first [ apply inert_gate | apply (inert_ttl _ (fun _ => _)) | apply inert_getter | apply inert_has | apply inert_close
        | apply inert_amount; apply (inert_ttl _ (fun _ => _)) ].

Ltac local_tac :=
  repeat first
    [ apply local_ok | apply local_err
    | apply local_bytes; intros ?
    | apply local_json; intros ?
    | apply local_op_; [inert_tac]
    | apply local_op; [inert_tac|intros ?]
    | case_match ].

(** Every such function looks its handle up and then works on that store. *)
Lemma run_data_local h d : exists k, run_data h d = with_handle error_text h k /\ forall p, local_to p (k p).
Proof.
  destruct d; (eexists; split; [reflexivity|]); intros q; cbv beta; unfold readRecordsReply; local_tac.
Qed.

(** ** The invariant of a library *)

Definition is_open (st : opened) : Prop := db_closed (op_db st) = false.

Record lib_ok (l : library) : Prop := LibOk {
  lo_reg : forall h p, lb_reg l !! h = Some p -> is_Some (lb_heap l !! p);
  lo_inj : forall h1 h2 p, lb_reg l !! h1 = Some p -> lb_reg l !! h2 = Some p -> h1 = h2;
  lo_alloc : forall p, is_Some (lb_heap l !! p) -> (p < lb_alloc l)%N;
  lo_next : 0 <= lb_next l < 2 ^ 32;
  lo_alone : forall p q st st', lb_heap l !! p = Some st -> lb_heap l !! q = Some st' -> is_open st -> is_open st' ->
    op_dir st = op_dir st' -> p = q;
  lo_sync : forall p st, lb_heap l !! p = Some st -> is_open st -> db_disk (op_db st) = files l (op_dir st)
}.

Lemma held_spec l d : held l d = true <-> exists p st, lb_heap l !! p = Some st /\ op_dir st = d /\ is_open st.
Proof.
  unfold held. rewrite existsb_exists. split.
  - intros (st & Hin & Hd). apply list_elem_of_In, list_elem_of_fmap in Hin as ([p st1] & -> & Hin). apply elem_of_map_to_list in Hin.
    apply andb_true_iff in Hd as [Hd%bool_decide_eq_true Hc%negb_true_iff]. by exists p, st1.
  - intros (p & st & Hst & Hd & Hc). exists st. split.
    + apply list_elem_of_In, list_elem_of_fmap. exists (p, st). split; [done|]. by apply elem_of_map_to_list.
    + rewrite bool_decide_eq_true_2, Hc by done. done.
Qed.

Lemma not_held l d p st : held l d = false -> lb_heap l !! p = Some st -> is_open st -> op_dir st <> d.
Proof. intros Hh Hst Ho Hd. assert (held l d = true) by (apply held_spec; eauto). congruence. Qed.

Lemma fresh_ok dirs : lib_ok (fresh_library dirs).
Proof. split; intros *; rewrite ?lookup_empty; try done. by intros [? ?]. Qed.

(** The store a touching step leaves at an address. *)
Lemma touches_store p l l' q st' : touches p l l' -> lb_heap l' !! q = Some st' ->
  exists st, lb_heap l !! q = Some st /\ op_dir st' = op_dir st /\ (is_open st' -> is_open st) /\ (q <> p -> st' = st).
Proof.
  intros T H. destruct (decide (q = p)) as [->|Hq].
  - destruct (lb_heap l !! p) as [st|] eqn:Hst.
    + destruct (to_store _ _ _ T st Hst) as (db & Hdb & _ & _ & Hc). rewrite Hdb in H. injection H as <-.
      exists st. split_and!; [done|done| |done]. unfold is_open. cbn. destruct (db_closed (op_db st)); [|done]. by destruct (Hc eq_refl) as [-> _].
    + pose proof (to_none _ _ _ T Hst) as ->. congruence.
  - exists st'. rewrite <- (to_other _ _ _ T q Hq). done.
Qed.

(** Its directory is the only one with other files, and only when it is open. *)
Lemma touches_files p l l' q st : lib_ok l -> touches p l l' -> lb_heap l !! q = Some st -> is_open st -> q <> p ->
  files l' (op_dir st) = files l (op_dir st).
Proof.
  intros L T Hst Ho Hq. destruct (lb_heap l !! p) as [sp|] eqn:Hp; [|by rewrite (to_none _ _ _ T Hp)].
  destruct (to_store _ _ _ T sp Hp) as (db & _ & Hf & _ & Hc). destruct (decide (op_dir st = op_dir sp)) as [Hd|Hd]; [|by apply Hf].
  destruct (db_closed (op_db sp)) eqn:Hcl; [rewrite Hd; by apply Hc|]. exfalso. apply Hq. by eapply (lo_alone _ L).
Qed.

(** What a step on the store at [p] may do, seen from the other stores. *)
Record alters (p : N) (l l' : library) : Prop := Alters {
  al_reg : lb_reg l' = lb_reg l /\ lb_next l' = lb_next l /\ lb_alloc l' = lb_alloc l;
  al_other : forall q, q <> p -> lb_heap l' !! q = lb_heap l !! q;
  al_dom : is_Some (lb_heap l !! p) -> is_Some (lb_heap l' !! p);
  al_store : forall st', lb_heap l' !! p = Some st' -> exists st, lb_heap l !! p = Some st /\ op_dir st' = op_dir st
    /\ (is_open st' -> is_open st /\ db_disk (op_db st') = files l' (op_dir st'));
  al_files : forall q st, q <> p -> lb_heap l !! q = Some st -> is_open st -> files l' (op_dir st) = files l (op_dir st)
}.

Lemma touches_alters p l l' : lib_ok l -> touches p l l' -> alters p l l'.
Proof.
  intros L T. split; [apply T|apply T| | |by intros; eapply touches_files].
  - intros [st Hst]. destruct (to_store _ _ _ T st Hst) as (db & -> & _). done.
  - intros st' Hq. destruct (touches_store _ _ _ _ _ T Hq) as (st & Hst & Hd & Hop & _). exists st. split_and!; [done|done|].
    intros Ho. split; [auto|]. rewrite Hd. destruct (to_store _ _ _ T st Hst) as (db & Hdb & _ & Hsy & _). rewrite Hdb in Hq. injection Hq as <-.
    destruct Hsy as [->|Hsy]; [|done]. rewrite Hdb in Hst. injection Hst as <-. by apply (lo_sync _ L p _ Hdb).
Qed.

Lemma alters_ok p l l' : lib_ok l -> alters p l l' -> lib_ok l'.
Proof.
  intros L [(Hr & Hn & Ha) Oth Dom Sto Fil].
  assert (Hback : forall q st', lb_heap l' !! q = Some st' -> exists st, lb_heap l !! q = Some st /\ op_dir st' = op_dir st /\ (is_open st' -> is_open st)).
  { intros q st' Hq. destruct (decide (q = p)) as [->|Hne]; [|rewrite <- (Oth q Hne); by eauto].
    destruct (Sto st' Hq) as (st & ? & ? & Ho). exists st. split_and!; [done|done|]. by intros [? _]%Ho. }
  split; rewrite ?Hr, ?Hn, ?Ha; try apply L.
  - intros h q Hq. destruct (decide (q = p)) as [->|Hne]; [by eapply Dom, (lo_reg _ L)|]. rewrite (Oth q Hne). by eapply (lo_reg _ L).
  - intros q [st' Hq]. destruct (Hback q st' Hq) as (st & Hst & _). apply (lo_alloc _ L). eauto.
  - intros q1 q2 s1 s2 H1 H2 O1 O2 Hd. destruct (Hback _ _ H1) as (t1 & G1 & D1 & P1). destruct (Hback _ _ H2) as (t2 & G2 & D2 & P2).
    eapply (lo_alone _ L); [exact G1|exact G2|auto..|congruence].
  - intros q st' Hq Ho. destruct (decide (q = p)) as [->|Hne]; [destruct (Sto st' Hq) as (st & _ & _ & Hs); by apply Hs|].
    rewrite (Oth q Hne) in Hq. rewrite (Fil q st' Hne Hq Ho). by apply (lo_sync _ L q).
Qed.

Lemma reg_delete_ok h l : lib_ok l -> lib_ok (set_reg (delete h (lb_reg l)) l).
Proof.
  intros L. split; try apply L; cbn.
  - intros h' p [_ H]%lookup_delete_Some. by apply (lo_reg _ L h').
  - intros h1 h2 p [_ H1]%lookup_delete_Some [_ H2]%lookup_delete_Some. by apply (lo_inj _ L h1 h2 p).
Qed.


(** ** Every call keeps it *)

(** A step: the invariant is kept, and stores other than [t] with their
    directories, when they are open, are as before. *)
Record effect (t : option N) (l l' : library) : Prop := Effect {
  ef_ok : lib_ok l';
  ef_spared : forall q st, lb_heap l !! q = Some st -> t <> Some q ->
    lb_heap l' !! q = Some st /\ (is_open st -> files l' (op_dir st) = files l (op_dir st))
}.

Lemma alters_effect p l l' : lib_ok l -> alters p l l' -> effect (Some p) l l'.
Proof.
  intros L A. split; [by eapply alters_ok|]. intros q st Hst Hq. assert (q <> p) as Hne by congruence.
  split; [by rewrite (al_other _ _ _ A q Hne)|]. intros Ho. by apply (al_files _ _ _ A q).
Qed.

Lemma data_effect h d l r l' : lib_ok l -> run_data h d l = (r, l') -> effect (lb_reg l !! h) l l' /\ lb_reg l' = lb_reg l /\ lb_next l' = lb_next l.
Proof.
  intros L. destruct (run_data_local h d) as (k & -> & Hk). unfold with_handle, regGet, mbnd.
  destruct (lb_reg l !! h) as [p|].
  - intros H%Hk. split; [by apply alters_effect, touches_alters|]. destruct (to_reg _ _ _ H) as (? & ? & _). done.
  - intros [= _ <-]. done.
Qed.

Lemma effect_reg_delete t h l l' : lib_ok l -> effect t (set_reg (delete h (lb_reg l)) l) l' -> effect t l l'.
Proof. intros L [H1 H2]. by split. Qed.

Lemma close_effect h l r l' : lib_ok l -> nteedb_close error_text h l = (r, l') ->
  effect (lb_reg l !! h) l l' /\ lb_reg l' = delete h (lb_reg l) /\ lb_next l' = lb_next l.
Proof.
  intros L. unfold nteedb_close, regDelete, mbnd at 1. destruct (lb_reg l !! h) as [p|] eqn:Hh.
  - intros H. pose proof (reg_delete_ok h l L) as L0. assert (T : touches p (set_reg (delete h (lb_reg l)) l) l') by (eapply local_op_; [apply inert_close|exact H]).
    split; [by eapply effect_reg_delete, alters_effect, touches_alters|]. by destruct (to_reg _ _ _ T) as (? & ? & _).
  - intros [= _ <-]. split; [|done]. apply (effect_reg_delete None h); [done|]. split; [by apply reg_delete_ok|done].
Qed.

Lemma op_unit_state p m l : (op_ error_text p m l).2 = (db_op p m l).2.
Proof. unfold op_, op, mbnd. by destruct (db_op p m l) as [[[]|] l1]. Qed.

Lemma destroy_closed s r s' : Destroy s = (r, s') -> db_closed s' = db_closed s.
Proof.
  set (I := fun t : DB => db_closed t = db_closed s).
  assert (Hrm : forall f (t : DB) r t', I t -> remove_file f t = (r, t') -> I t').
  { intros f t r0 t' Ht. unfold remove_file, fs_call, tick, mmodify, mbnd. by destruct (env_fs (db_tick t)); intros [= _ <-]. }
  unfold Destroy. destruct (mfor remove_file storeFiles s) as [r1 s1] eqn:H1. unfold mbnd at 1. rewrite H1.
  assert (I s1) by (by eapply (mfor_inv I remove_file storeFiles s); [intros; eapply Hrm; eauto|..]).
  destruct r1; [|by intros [= _ <-]]. rewrite mget_bnd. intros H2.
  eapply (mfor_inv I (fun g => remove_file (rm_blob g)) _ s1); [intros; eapply Hrm; eauto|done|exact H2].
Qed.

Lemma drop_closed s : db_closed s = true -> db_closed (Drop s).2 = true.
Proof.
  intros Hc. unfold Drop, Close, mbnd at 1. rewrite mget_bnd, Hc. cbn. destruct (Destroy s) as [r s'] eqn:H.
  apply destroy_closed in H. cbn. congruence.
Qed.

(** Dropping a store that was disabled before: nobody else has its directory. *)
Lemma drop_disabled_alters p l st : lib_ok l -> lb_heap l !! p = Some st -> db_closed (op_db st) = true -> held l (op_dir st) = false ->
  alters p l (db_op p Drop l).2.
Proof.
  intros L Hst Hc Hh. destruct (db_op p Drop l) as [r l'] eqn:H. destruct (db_op_settle _ _ _ _ _ _ Hst H) as (r1 & db & Hrun & ->).
  assert (Hdb : db_closed db = true) by (pose proof (drop_closed (view l st) Hc) as Hd; by rewrite Hrun in Hd).
  cbn [snd]. split; [done| | | |].
  - intros q Hq. cbn. by rewrite lookup_insert_ne.
  - intros _. cbn. rewrite lookup_insert_eq. done.
  - intros st'. cbn. rewrite lookup_insert_eq. intros [= <-]. exists st. split_and!; [done|done|]. unfold is_open. cbn. congruence.
  - intros q sq Hq Hsq Ho. unfold settle. rewrite files_insert, decide_False; [done|]. by eapply not_held.
Qed.

Lemma drop_effect h l r l' : lib_ok l -> nteedb_drop error_text h l = (r, l') ->
  effect (lb_reg l !! h) l l' /\ lb_reg l' = delete h (lb_reg l) /\ lb_next l' = lb_next l.
Proof.
  intros L. unfold nteedb_drop, regDelete, mbnd at 1. destruct (lb_reg l !! h) as [p|] eqn:Hh.
  2: { intros [= _ <-]. split; [|done]. apply (effect_reg_delete None h); [done|]. split; [by apply reg_delete_ok|done]. }
  rewrite mget_bnd. pose proof (reg_delete_ok h l L) as L0. set (l0 := set_reg _ l) in *.
  destruct (drops_other l0 p) eqn:Hdo; intros H.
  { injection H as _ <-. split; [|done]. apply (effect_reg_delete _ h); [done|]. by split. }
  assert (Ha : alters p l0 l').
  { destruct (lo_reg _ L h p Hh) as [st Hst]. pose proof (op_unit_state p Drop l0) as Hs. rewrite H in Hs. cbn in Hs. subst l'.
    destruct (db_closed (op_db st)) eqn:Hc.
    - apply (drop_disabled_alters p l0 st); [done|done|done|]. unfold drops_other in Hdo. cbn in Hdo. by rewrite Hst, Hc in Hdo.
    - destruct (db_op p Drop l0) as [r1 l1] eqn:Hop. apply touches_alters; [done|]. by eapply db_op_open. }
  split; [by eapply effect_reg_delete, alters_effect|]. by destruct (al_reg _ _ _ Ha) as (? & ? & _).
Qed.

(** A directory nobody has open gets other files. *)
Lemma unheld_effect l d disk t : lib_ok l -> held l d = false ->
  effect None l (mkLibrary (<[d := disk]> (lb_dirs l)) (lb_heap l) (lb_alloc l) (lb_next l) (lb_reg l) t).
Proof.
  intros L Hh. assert (Hf : forall q st, lb_heap l !! q = Some st -> is_open st ->
    files (mkLibrary (<[d := disk]> (lb_dirs l)) (lb_heap l) (lb_alloc l) (lb_next l) (lb_reg l) t) (op_dir st) = files l (op_dir st)).
  { intros q st Hst Ho. rewrite files_insert, decide_False; [done|]. by eapply not_held. }
  split.
  - split; try apply L. intros q st Hst Ho. rewrite (Hf q st Hst Ho). by apply (lo_sync _ L q).
  - intros q st Hst _. split; [done|]. by apply (Hf q).
Qed.

(** A new store in a directory nobody has open. *)
Lemma alloc_effect l d db t : lib_ok l -> held l d = false ->
  effect None l (mkLibrary (<[d := db_disk db]> (lb_dirs l)) (<[lb_alloc l := mkOpened d db]> (lb_heap l)) (lb_alloc l + 1)%N (lb_next l) (lb_reg l) t).
Proof.
  intros L Hh. assert (Hnew : lb_heap l !! lb_alloc l = None).
  { destruct (lb_heap l !! lb_alloc l) eqn:Hn; [|done]. assert (lb_alloc l < lb_alloc l)%N by (apply (lo_alloc _ L); eauto). lia. }
  assert (Hlook : forall q st, (<[lb_alloc l := mkOpened d db]> (lb_heap l)) !! q = Some st ->
    (q = lb_alloc l /\ st = mkOpened d db) \/ (q <> lb_alloc l /\ lb_heap l !! q = Some st)).
  { intros q st [[<- <-]|[? ?]]%lookup_insert_Some; auto. }
  split.
  - split; cbn; try apply L.
    + intros h q Hq. apply lookup_insert_is_Some'. right. by eapply (lo_reg _ L).
    + intros q [<-|Hq]%lookup_insert_is_Some'; [lia|]. apply (lo_alloc _ L) in Hq. lia.
    + intros q1 q2 s1 s2 [[-> ->]|[N1 H1]]%Hlook [[-> ->]|[N2 H2]]%Hlook O1 O2 Hd; [done|..].
      * exfalso. by apply (not_held l d q2 s2 Hh H2 O2).
      * exfalso. by apply (not_held l d q1 s1 Hh H1 O1).
      * by eapply (lo_alone _ L).
    + intros q st [[-> ->]|[Nq Hq]]%Hlook Ho; rewrite files_insert; cbn; [by rewrite decide_True|].
      rewrite decide_False by (by eapply not_held). by apply (lo_sync _ L q).
  - intros q st Hst _. assert (q <> lb_alloc l) by congruence. cbn. rewrite lookup_insert_ne by done. split; [done|].
    intros Ho. rewrite files_insert, decide_False; [done|]. by eapply not_held.
Qed.

Lemma tick_effect t l : lib_ok l -> effect None l (mkLibrary (lb_dirs l) (lb_heap l) (lb_alloc l) (lb_next l) (lb_reg l) t).
Proof. intros L. by split; [split; apply L|]. Qed.

Lemma open_store_effect dir opts l r l' : lib_ok l -> open_store dir_of dir opts l = (r, l') ->
  effect None l l' /\ lb_reg l' = lb_reg l /\ lb_next l' = lb_next l
  /\ (forall p, r = Ok (Ok p) -> is_Some (lb_heap l' !! p) /\ lb_heap l !! p = None).
Proof.
  intros L. unfold open_store. destruct (decide (dir = [])); [by intros [= <- <-]|]. destruct (held l (dir_of dir)) eqn:Hh.
  - destruct (open_locked _) as [r1 s1] eqn:Hrun. intros [= <- <-]. split_and!; [by apply tick_effect|done|done|].
    intros p [= ->]. exfalso. unfold open_locked, mbnd, merr in Hrun. destruct (fs_call _) as [[] s2]; [|done]. by destruct (fs_call s2) as [[] s3].
  - destruct (Open opts _ _) as [r1 s1] eqn:Hop. destruct r1 as [db|e].
    + assert (s1 = db) as ->. { unfold Open in Hop. destruct (Open_body _) as [[] ?]; congruence. }
      intros [= <- <-]. split_and!; [by apply alloc_effect|done|done|]. intros p [= <-]. cbn. rewrite lookup_insert_eq. split; [done|].
      destruct (lb_heap l !! lb_alloc l) eqn:Hn; [|done]. assert (lb_alloc l < lb_alloc l)%N by (apply (lo_alloc _ L); eauto). lia.
    + intros H. assert (l' = mkLibrary (<[dir_of dir := db_disk s1]> (lb_dirs l)) (lb_heap l) (lb_alloc l) (lb_next l) (lb_reg l) (db_tick s1)
        /\ forall p, r <> Ok (Ok p)) as [-> Hr] by (by destruct e; injection H as <- <-).
      split_and!; [by apply unheld_effect|done|done|]. by intros p ?%Hr.
Qed.

Lemma uwrap32_range z : 0 <= uwrap32 z < 2 ^ 32.
Proof. unfold uwrap32. apply Z.mod_pos_bound. lia. Qed.

Lemma regPut_ok p l : lib_ok l -> is_Some (lb_heap l !! p) -> (forall h, lb_reg l !! h <> Some p) -> lib_ok (regPut p l).2.
Proof.
  intros L Hp Hnew. split; cbn; try apply L.
  - intros h q [[_ <-]|[_ Hq]]%lookup_insert_Some; [done|]. by eapply (lo_reg _ L).
  - intros h1 h2 q [[<- <-]|[N1 H1]]%lookup_insert_Some [[<- E2]|[N2 H2]]%lookup_insert_Some; [done|..].
    + by apply Hnew in H2.
    + subst q. by apply Hnew in H1.
    + by eapply (lo_inj _ L).
  - apply uwrap32_range.
Qed.

(** What [nteedb_open] does to the table: nothing, or one more handle. *)
Definition registers (l l' : library) : Prop :=
  exists p, lb_next l' = uwrap32 (lb_next l + 1) /\ lb_reg l' = <[lb_next l' := p]> (lb_reg l).

Lemma open_effect dir opts l r l' : lib_ok l -> nteedb_open dir_of error_text dir opts l = (r, l') ->
  effect None l l' /\ ((lb_reg l' = lb_reg l /\ lb_next l' = lb_next l) \/ registers l l').
Proof.
  intros L. unfold nteedb_open, with_json. destruct (parseOptions _ _) as [[d o]|]; [|intros [= _ <-]; split; [by split|by left]].
  unfold mbnd at 1. destruct (open_store dir_of _ _ l) as [r1 l1] eqn:Hop.
  destruct (open_store_effect _ _ _ _ _ L Hop) as ([L1 Hsp] & Hr & Hn & Hp).
  destruct r1 as [[p|e]|e]; [|intros [= _ <-]; split; [by split|by left]..].
  unfold mbnd, answer, mok. destruct (regPut p l1) as [r2 l2] eqn:Hput. intros H. assert (r2 = Ok (uwrap32 (lb_next l1 + 1))) as -> by (by injection Hput).
  injection H as _ <-. destruct (Hp p eq_refl) as [Hin Hout].
  assert (Hnew : forall h, lb_reg l1 !! h <> Some p). { intros h Hh. rewrite Hr in Hh. destruct (lo_reg _ L h p Hh). congruence. }
  assert (l2 = (regPut p l1).2) as -> by (by rewrite Hput). split.
  - split; [by apply regPut_ok|]. intros q st Hst Hq. by destruct (Hsp q st Hst Hq).
  - right. exists p. cbn. by rewrite Hr, Hn.
Qed.

Lemma destroy_effect dir l r l' : lib_ok l -> nteedb_destroy dir_of error_text dir l = (r, l') ->
  effect None l l' /\ lb_reg l' = lb_reg l /\ lb_next l' = lb_next l.
Proof.
  intros L. unfold nteedb_destroy. destruct (held _ _) eqn:Hh; [by intros [= _ <-]|].
  destruct (Destroy _) as [r1 s1]. intros [= _ <-]. split; [by apply unheld_effect|done].
Qed.

(** The store a call is about. *)
Definition target (c : call) (l : library) : option N :=
  match c with
  | CData h _ | CCloseStore h | CDropStore h => lb_reg l !! h
  | COpenStore _ _ | CDestroyDir _ => None
  end.

Definition opens_store (e : event) : bool := match e with Call (COpenStore _ _) => true | _ => false end.

(** What a step does to the table: handles go away, or one is added. *)
Definition table_step (opening : bool) (l l' : library) : Prop :=
  (lb_next l' = lb_next l /\ lb_reg l' ⊆ lb_reg l) \/ (opening = true /\ registers l l').

Lemma exec_effect c l r l' : lib_ok l -> exec c l = (r, l') -> effect (target c l) l l' /\ table_step (opens_store (Call c)) l l'.
Proof.
  intros L. destruct c as [dir opts|h|h|dir|h d]; cbn [exec target opens_store].
  - intros H. destruct (open_effect _ _ _ _ _ L H) as (? & [[Hr Hn]|?]); (split; [done|]); [left; by rewrite Hr|by right].
  - intros H. destruct (close_effect _ _ _ _ L H) as (? & Hr & Hn). split; [done|]. left. split; [done|]. rewrite Hr. apply delete_subseteq.
  - intros H. destruct (drop_effect _ _ _ _ L H) as (? & Hr & Hn). split; [done|]. left. split; [done|]. rewrite Hr. apply delete_subseteq.
  - intros H. destruct (destroy_effect _ _ _ _ L H) as (? & Hr & Hn). split; [done|]. left. by rewrite Hr.
  - intros H. destruct (data_effect _ _ _ _ _ L H) as (? & Hr & Hn). split; [done|]. left. by rewrite Hr.
Qed.

Lemma background_effect p m l l' : lib_ok l -> background p m l = Some l' -> lib_ok l' /\ table_step false l l'.
Proof.
  intros L. unfold background. destruct (lb_heap l !! p) as [st|] eqn:Hst; [|done]. destruct (db_closed (op_db st)) eqn:Hc; [done|].
  destruct (db_op p m l) as [[r|e] l1] eqn:Hop; [|done]. intros [= <-]. pose proof (db_op_open _ _ _ _ _ _ Hst Hc Hop) as T.
  split; [by eapply alters_ok, touches_alters|]. left. destruct (to_reg _ _ _ T) as (-> & -> & _). done.
Qed.

Lemma happen_effect e l l' : lib_ok l -> happen e l = Some l' -> lib_ok l' /\ table_step (opens_store e) l l'.
Proof.
  intros L. destruct e as [c|p|p]; cbn [happen]; [|by apply background_effect..].
  destruct (exec c l) as [[r|e] l1] eqn:Hc; [|done]. intros [= <-]. destruct (exec_effect _ _ _ _ L Hc) as ([? _] & ?). done.
Qed.

Lemma history_ok es : forall l l', lib_ok l -> history es l = Some l' -> lib_ok l'.
Proof.
  induction es as [|e es IH]; intros l l' L; cbn [history]; [by intros [= <-]|]. destruct (happen e l) as [l1|] eqn:He; [|done].
  apply IH. by destruct (happen_effect _ _ _ L He).
Qed.

(** Handles are given out in increasing order until the counter wraps. *)
Definition handles_below (l : library) : Prop := forall h, is_Some (lb_reg l !! h) -> 1 <= h <= lb_next l.

Definition count_opens (es : list event) : Z := zlen (filter (fun e => opens_store e = true) es).

Lemma table_step_below e l l' : lib_ok l -> lb_next l + (if opens_store e then 1 else 0) < 2 ^ 32 -> table_step (opens_store e) l l' ->
  lb_next l <= lb_next l' <= lb_next l + (if opens_store e then 1 else 0)
  /\ (handles_below l -> handles_below l')
  /\ forall h, h <= lb_next l -> lb_reg l !! h = None -> lb_reg l' !! h = None.
Proof.
  intros L Hw [[Hn Hs]|[Ho (p & Hn & Hr)]].
  - rewrite Hn. split_and!; [lia|destruct (opens_store e); lia| |].
    + intros Hb h [q Hq]. rewrite Hn. apply Hb. exists q. by eapply lookup_weaken.
    + intros h _ Hh. destruct (lb_reg l' !! h) as [q|] eqn:Hq; [|done]. by rewrite (lookup_weaken _ _ _ _ Hq Hs) in Hh.
  - rewrite Ho in *. pose proof (lo_next _ L). assert (lb_next l' = lb_next l + 1) as Hn' by (rewrite Hn; unfold uwrap32; rewrite Z.mod_small; lia).
    rewrite Hr, Hn'. split_and!; [lia|lia| |].
    + intros Hb h. rewrite Hr, Hn'. intros [<-|Hq]%lookup_insert_is_Some'; [lia|]. apply Hb in Hq. lia.
    + intros h Hh Hnone. by rewrite lookup_insert_ne by lia.
Qed.

Lemma count_opens_cons e es : count_opens (e :: es) = (if opens_store e then 1 else 0) + count_opens es.
Proof.
  unfold count_opens. rewrite filter_cons. destruct (decide (opens_store e = true)) as [Ho|Ho].
  - rewrite Ho. unfold zlen. cbn [length]. lia.
  - apply not_true_is_false in Ho. by rewrite Ho.
Qed.

Lemma count_opens_nonneg es : 0 <= count_opens es.
Proof. apply zlen_nonneg. Qed.

Lemma history_table es : forall l l', lib_ok l -> lb_next l + count_opens es < 2 ^ 32 -> history es l = Some l' ->
  lb_next l <= lb_next l' <= lb_next l + count_opens es /\ (handles_below l -> handles_below l')
  /\ forall h, h <= lb_next l -> lb_reg l !! h = None -> lb_reg l' !! h = None.
Proof.
  induction es as [|e es IH]; intros l l' L; cbn [history].
  { change (count_opens []) with 0. intros _ [= <-]. split_and!; [lia|lia|done|done]. }
  rewrite count_opens_cons. pose proof (count_opens_nonneg es). intros Hw. destruct (happen e l) as [l1|] eqn:He; [|done].
  destruct (happen_effect _ _ _ L He) as [L1 T]. destruct (table_step_below e l l1 L ltac:(lia) T) as (Hn & Hb & Hd). intros H2.
  destruct (IH l1 l' L1 ltac:(lia) H2) as (Hn2 & Hb2 & Hd2). split_and!; [lia|lia|auto|]. intros h Hh Hnone. apply Hd2; [lia|auto].
Qed.

Lemma fresh_below dirs : handles_below (fresh_library dirs).
Proof. intros h. cbn. by rewrite lookup_empty; intros [? ?]. Qed.

Lemma run_data_invalid h d l : lb_reg l !! h = None -> run_data h d l = (Ok (reply error_text None (Some AInvalidHandle)), l).
Proof.
  intros Hh. destruct (run_data_local h d) as (k & -> & _). unfold with_handle, regGet, mbnd. by rewrite Hh.
Qed.

Lemma set_reg_id l h : lb_reg l !! h = None -> set_reg (delete h (lb_reg l)) l = l.
Proof. intros Hh. unfold set_reg. rewrite delete_id by done. by destruct l. Qed.

(** Claims. *)



(** C21. A released handle stays dead: once it was closed or dropped, whatever
    the process does afterwards, every call on it is refused as invalid, a
    second close or drop succeeds, and none of them has any effect, as long as
    the process opens fewer than 2^32 stores. *)
Theorem released_handle_dead dirs es1 es2 h l0 l1 l2 c :
  history es1 (fresh_library dirs) = Some l0 -> is_Some (lb_reg l0 !! h) -> c = CCloseStore h \/ c = CDropStore h ->
  happen (Call c) l0 = Some l1 -> history es2 l1 = Some l2 -> count_opens es1 + count_opens es2 < 2 ^ 32 ->
  (forall d, exec (CData h d) l2 = (Ok (reply error_text None (Some AInvalidHandle)), l2))
  /\ exec (CCloseStore h) l2 = (Ok (reply error_text None None), l2)
  /\ exec (CDropStore h) l2 = (Ok (reply error_text None None), l2).
Proof.
  intros H0 Hreg Hc H1 H2 Hw. pose proof (fresh_ok dirs) as Lf. pose proof (count_opens_nonneg es2) as Hn2.
  pose proof (history_ok _ _ _ Lf H0) as L0. destruct (history_table es1 _ _ Lf ltac:(cbn; lia) H0) as (Hn0 & Hb0 & _). cbn in Hn0.
  destruct (happen_effect _ _ _ L0 H1) as [L1 _].
  assert (lb_reg l1 !! h = None /\ lb_next l1 = lb_next l0) as [Hd1 Hnx1].
  { cbn [happen] in H1. destruct (exec c l0) as [[r|e] lx] eqn:Hx; [|done]. injection H1 as ->.
    destruct Hc as [-> | ->]; [destruct (close_effect _ _ _ _ L0 Hx) as (_ & -> & ?)|destruct (drop_effect _ _ _ _ L0 Hx) as (_ & -> & ?)];
      by rewrite lookup_delete_eq. }
  assert (lb_reg l2 !! h = None) as Hd2.
  { destruct (history_table es2 l1 l2 L1 ltac:(lia) H2) as (_ & _ & Hdead). apply Hdead; [|done].
    rewrite Hnx1. apply (Hb0 (fresh_below dirs) h Hreg). }
  split_and!.
  - intros d. by apply run_data_invalid.
  - cbn. unfold nteedb_close, regDelete, mbnd. rewrite Hd2. by rewrite set_reg_id.
  - cbn. unfold nteedb_drop, regDelete, mbnd. rewrite Hd2. by rewrite set_reg_id.
Qed.
End proofs.
