(* ===== verification/CApiData.v ===== *)
(** * Data across the C interface

    A binary batch is cut into exactly the values it was made of; a value that
    was put is what [nteedb_get_json] answers; and every answer is one line of
    JSON without a NUL, so that the C string is all of it. *)

From S2P Require Import Prelude Floats Types Json Base64 Record BTree PkIndex SecIndex Hint Meta Store SecMaint IndexStep LogSpec Invariant Ops Contents Caps PutProofs Load Batch Compact Destroy Text Proto Embed DocParse ServerSchema Server ServerProofs COptions CApi CApiProofs.
#[local] Open Scope Z_scope.

(** ** Binary batches *)

(** What the caller sends for an item: its key, the length of its value, its
    index values. *)
Definition meta_of (it : PutItem) : binBatchItem := mkBinBatchItem (pi_Key it) (zlen (pi_Value it)) (pi_IX it).

Definition blob_of (items : list PutItem) : gostring := concat (pi_Value <$> items).

Definition plain_item (it : PutItem) : Prop := pi_TTL it = 0.

Definition sum_lens (metas : list binBatchItem) : Z := foldr (fun m n => bb_N m + n) 0 metas.

(** The lengths up to some item are good, but the sum with its own passes
    [int64]. *)
Definition overflows (metas : list binBatchItem) (buf : gostring) (off : Z) : Prop :=
  exists pre m post, metas = pre ++ m :: post /\ Forall (fun x => 0 <= bb_N x) pre /\ off + sum_lens pre <= zlen buf
    /\ MaxInt64 < off + sum_lens pre + bb_N m.

Lemma wrap64_sum off n : 0 <= off <= MaxInt64 -> 0 <= n <= MaxInt64 ->
  wrap64 (off + n) = if MaxInt64 <? off + n then off + n - 2 ^ 64 else off + n.
Proof.
  unfold wrap64, MaxInt64. intros. destruct (Z.ltb_spec (2 ^ 63 - 1) (off + n)).
  - replace (off + n + 2 ^ 63) with (off + n - 2 ^ 63 + 1 * 2 ^ 64) by lia. rewrite Z.mod_add, Z.mod_small; lia.
  - rewrite Z.mod_small; lia.
Qed.

(** One turn of the loop. *)
Lemma slice_step m metas buf off : 0 <= off <= zlen buf -> zlen buf <= MaxInt64 -> bb_N m <= MaxInt64 ->
  slice_items (m :: metas) buf off =
    if bb_N m <? 0 then Mismatch
    else if MaxInt64 <? off + bb_N m then SlicePanic
    else if zlen buf <? off + bb_N m then Mismatch
    else match slice_items metas buf (off + bb_N m) with
         | Items l => Items (mkPutItem (bb_K m) (take (Z.to_nat (bb_N m)) (drop (Z.to_nat off) buf)) (bb_IX m) 0 :: l)
         | r => r
         end.
Proof.
  intros Ho Hb Hm. cbn [slice_items]. destruct (Z.ltb_spec (bb_N m) 0); [done|]. cbn [orb].
  rewrite wrap64_sum by lia. destruct (Z.ltb_spec MaxInt64 (off + bb_N m)) as [Hov|Hov].
  - rewrite (proj2 (Z.ltb_ge _ _)), (proj2 (Z.ltb_lt _ off)) by (unfold MaxInt64 in *; lia). done.
  - destruct (Z.ltb_spec (zlen buf) (off + bb_N m)); [done|]. by rewrite (proj2 (Z.ltb_ge _ off)) by lia.
Qed.

Lemma zlen_drop_split (buf : gostring) off n : 0 <= off -> 0 <= n -> off + n <= zlen buf ->
  drop (Z.to_nat off) buf = take (Z.to_nat n) (drop (Z.to_nat off) buf) ++ drop (Z.to_nat (off + n)) buf.
Proof.
  intros. rewrite Z2Nat.inj_add, <- drop_drop by lia. symmetry. apply take_drop.
Qed.

(** The cut succeeds exactly on what was joined. *)
Lemma slice_items_joined metas buf : zlen buf <= MaxInt64 -> Forall (fun m => bb_N m <= MaxInt64) metas -> forall off items,
  0 <= off <= zlen buf ->
  slice_items metas buf off = Items items <-> metas = meta_of <$> items /\ drop (Z.to_nat off) buf = blob_of items /\ Forall plain_item items.
Proof.
  intros Hb HF. induction HF as [|m metas Hm HF IH]; intros off items Ho.
  - cbn [slice_items]. destruct (Z.eqb_spec off (zlen buf)) as [->|Hne].
    + unfold zlen. rewrite Nat2Z.id, drop_all. split.
      * intros [= <-]. by split_and!.
      * intros (He & _). symmetry in He. apply fmap_nil_inv in He. by subst.
    + split; [done|]. intros (He & Hd & _). symmetry in He. apply fmap_nil_inv in He. subst. exfalso. apply Hne.
      apply (f_equal zlen) in Hd. unfold zlen in *. rewrite length_drop in Hd. cbn in Hd. lia.
  - rewrite slice_step by lia. split.
    + destruct (Z.ltb_spec (bb_N m) 0); [done|]. destruct (MaxInt64 <? off + bb_N m); [done|].
      destruct (Z.ltb_spec (zlen buf) (off + bb_N m)); [done|].
      destruct (slice_items metas buf (off + bb_N m)) as [l| |] eqn:Hl; [|done..]. intros [= <-].
      apply IH in Hl as (-> & Hd & Hp); [|lia]. split_and!.
      * cbn. f_equal. unfold meta_of. cbn. destruct m as [k n ix]. cbn in *. f_equal.
        unfold zlen in *. rewrite length_take, length_drop. lia.
      * rewrite (zlen_drop_split buf off (bb_N m)) at 1 by lia. unfold blob_of in *. cbn [fmap list_fmap pi_Value concat]. by rewrite Hd.
      * by constructor.
    + intros (He & Hd & Hp). destruct items as [|it items]; [done|]. cbn in He. injection He as -> ->. cbn [bb_N bb_K bb_IX meta_of] in *.
      apply Forall_cons in Hp as [Hp0 Hp]. unfold blob_of in Hd. cbn [fmap list_fmap concat] in Hd.
      pose proof (f_equal zlen Hd) as Hlen. rewrite zlen_app in Hlen. pose proof (zlen_nonneg (pi_Value it)). pose proof (zlen_nonneg (concat (pi_Value <$> items))).
      assert (zlen (drop (Z.to_nat off) buf) = zlen buf - off) as Hz by (unfold zlen in *; rewrite length_drop; lia).
      rewrite (proj2 (Z.ltb_ge _ _)), (proj2 (Z.ltb_ge MaxInt64 _)), (proj2 (Z.ltb_ge (zlen buf) _)) by lia.
      assert (Hrest : slice_items (meta_of <$> items) buf (off + zlen (pi_Value it)) = Items items).
      { apply IH; [lia|]. split_and!; [done| |done]. rewrite Z2Nat.inj_add, <- drop_drop by lia. rewrite Hd. unfold zlen. rewrite Nat2Z.id. apply drop_app_length. }
      rewrite Hrest. rewrite Hd. unfold zlen. rewrite Nat2Z.id, take_app_length. destruct it as [k v ix ttl]. cbn in *. unfold plain_item in Hp0. cbn in Hp0. by subst.
Qed.

(** It panics exactly when the sum of lengths overflows. *)
Lemma slice_items_panic metas buf : zlen buf <= MaxInt64 -> Forall (fun m => bb_N m <= MaxInt64) metas -> forall off,
  0 <= off <= zlen buf -> slice_items metas buf off = SlicePanic <-> overflows metas buf off.
Proof.
  intros Hb HF. induction HF as [|m metas Hm HF IH]; intros off Ho.
  - cbn [slice_items]. split; [by destruct (off =? zlen buf)|]. intros ([|] & ? & ? & ? & _); done.
  - rewrite slice_step by lia. split.
    + destruct (Z.ltb_spec (bb_N m) 0); [done|]. destruct (Z.ltb_spec MaxInt64 (off + bb_N m)) as [Hov|Hov].
      { intros _. exists [], m, metas. cbn. split_and!; [done|by constructor|lia|lia]. }
      destruct (Z.ltb_spec (zlen buf) (off + bb_N m)); [done|]. intros Hs.
      assert (slice_items metas buf (off + bb_N m) = SlicePanic) as Hp by (by destruct (slice_items metas buf _)).
      apply IH in Hp as (pre & x & post & -> & Hpre & Hle & Hgt); [|lia]. exists (m :: pre), x, post. cbn [sum_lens foldr app] in *.
      fold (sum_lens pre) in *. split_and!; [done|by constructor|lia|lia].
    + intros (pre & x & post & He & Hpre & Hle & Hgt). destruct pre as [|y pre]; cbn [app] in He; injection He as -> ->.
      * cbn in Hle, Hgt. rewrite (proj2 (Z.ltb_ge _ _)), (proj2 (Z.ltb_lt _ _)) by lia. done.
      * apply Forall_cons in Hpre as [Hy Hpre]. cbn [sum_lens foldr] in *. fold (sum_lens pre) in *.
        assert (0 <= sum_lens pre) by (clear -Hpre; induction Hpre; cbn; [lia|unfold sum_lens in *; lia]).
        rewrite (proj2 (Z.ltb_ge _ _)), (proj2 (Z.ltb_ge MaxInt64 _)), (proj2 (Z.ltb_ge (zlen buf) _)) by lia.
        assert (slice_items (pre ++ x :: post) buf (off + bb_N y) = SlicePanic) as ->; [|done].
        apply IH; [lia|]. exists pre, x, post. split_and!; [done|done|lia|lia].
Qed.

(** ** Decoded lengths are in range *)

Lemma set_fields_inv {R} (I : R -> Prop) (f : R -> gostring * json -> option R) l : (forall r kj r', I r -> f r kj = Some r' -> I r') ->
  forall r r', I r -> set_fields f l r = Some r' -> I r'.
Proof.
  intros Hf. induction l as [|kj l IH]; intros r r' Hr; cbn; [by intros [= <-]|]. destruct (f r kj) as [r1|] eqn:H1; [|done]. eauto.
Qed.

Lemma dec_elems_inv {R} (I : R -> Prop) (zero : R) dec l : I zero -> (forall r j r', I r -> dec r j = Some r' -> I r') ->
  forall array xs, Forall I array -> dec_elems zero dec array l = Some xs -> Forall I xs.
Proof.
  intros Hz Hd. induction l as [|j l IH]; intros array xs Ha; cbn; [by intros [= <-]|].
  destruct (dec (default zero (head array)) j) as [x|] eqn:Hx; [|done]. destruct (dec_elems zero dec (tail array) l) as [ys|] eqn:Hy; [|done].
  intros [= <-]. constructor.
  - eapply Hd; [|exact Hx]. destruct array; [done|by apply Forall_cons in Ha as [? _]].
  - eapply IH; [|exact Hy]. destruct array; [done|by apply Forall_cons in Ha as [_ ?]].
Qed.

Definition len_fits (m : binBatchItem) : Prop := bb_N m <= MaxInt64.

Lemma set_bb_fits r kj r' : len_fits r -> set_bb_field r kj = Some r' -> len_fits r'.
Proof.
  destruct kj as [k j]. unfold len_fits, set_bb_field. intros Hr. repeat destruct (decide _).
  - by destruct (dec_string _ _); intros [= <-].
  - destruct (dec_int _ _ _ j) as [z0|] eqn:Hn; [|done]. intros [= <-]. cbn. unfold dec_int in Hn. destruct j; try done.
    + by injection Hn as <-.
    + destruct (lit_int lit) as [z|]; [|done]. destruct (_ && _) eqn:Hz; [|done]. injection Hn as <-. lia.
  - by destruct (dec_ix _ _); intros [= <-].
  - by intros [= <-].
Qed.

Lemma decoded_fits text metas : unmarshal_slice (mkBinBatchItem [] 0 ∅) (dec_struct set_bb_field) text = Some metas -> Forall len_fits metas.
Proof.
  unfold unmarshal_slice. destruct (json_parse text) as [[]|]; try done; [by intros [= <-]|].
  apply dec_elems_inv; [done| |done]. intros r j r' Hr. destruct j as [| | | | |fs]; try done; [by intros [= <-]|].
  exact (set_fields_inv len_fits _ fs set_bb_fits r r' Hr).
Qed.

Section data.
Context {BT : BTreeG} {BL : BTreeGLaws BT} {E : Env} {EL : EnvLaws E}.
Context (error_text : apiError -> gostring).

Lemma with_handle_run h p k l : lb_reg l !! h = Some p -> with_handle error_text h k l = k p l.
Proof. intros Hp. unfold with_handle, regGet, mbnd. by rewrite Hp. Qed.

Lemma GoBytes_all {S} (v : gostring) (s : S) : GoBytes v (zlen v) s = (Ok v, s).
Proof.
  unfold GoBytes. pose proof (zlen_nonneg v). rewrite (proj2 (Z.ltb_ge _ 0)), (proj2 (Z.ltb_ge _ _)) by lia.
  unfold mok, zlen. by rewrite Nat2Z.id, firstn_all.
Qed.

(** C23. A binary batch: when the announced lengths and the blob are those of
    some items, the store gets exactly these items; otherwise the batch is
    refused as a whole and nothing is changed, except that lengths whose sum
    leaves int64 take the process down. *)
Theorem put_batch_bin_exact h p metaJSON metas blob l :
  lb_reg l !! h = Some p -> zlen blob < 2 ^ 31 ->
  unmarshal_slice (mkBinBatchItem [] 0 ∅) (dec_struct set_bb_field) (GoString metaJSON) = Some metas ->
  (forall items, Forall plain_item items -> metas = meta_of <$> items -> blob = blob_of items ->
     nteedb_put_batch_bin error_text h metaJSON blob (zlen blob) l =
       op error_text p (PutBatch items) (fun _ => answer error_text (doc_int (zlen items))) l)
  /\ ((forall items, Forall plain_item items -> metas = meta_of <$> items -> blob <> blob_of items) ->
       (overflows metas blob 0 -> nteedb_put_batch_bin error_text h metaJSON blob (zlen blob) l = (Err EPanic, l))
       /\ (~ overflows metas blob 0 ->
            nteedb_put_batch_bin error_text h metaJSON blob (zlen blob) l = (Ok (reply error_text None (Some ABlobMismatch)), l))).
Proof.
  intros Hp Hb Hm. pose proof (decoded_fits _ _ Hm) as Hfit. pose proof (zlen_nonneg blob) as H0.
  assert (Hb64 : zlen blob <= MaxInt64) by (unfold MaxInt64; lia).
  pose proof (slice_items_joined metas blob Hb64 Hfit 0) as Hjoin. pose proof (slice_items_panic metas blob Hb64 Hfit 0 ltac:(lia)) as Hpanic.
  assert (Hrun : nteedb_put_batch_bin error_text h metaJSON blob (zlen blob) l =
    match slice_items metas blob 0 with
    | SlicePanic => (Err EPanic, l)
    | Mismatch => (Ok (reply error_text None (Some ABlobMismatch)), l)
    | Items items => op error_text p (PutBatch items) (fun _ => answer error_text (doc_int (zlen items))) l
    end).
  { unfold nteedb_put_batch_bin. rewrite (with_handle_run h p) by done. unfold with_json. rewrite Hm. rewrite (mbnd_ok _ _ _ _ _ (GoBytes_all blob l)).
    by destruct (slice_items metas blob 0). }
  split.
  - intros items Hpl -> ->. rewrite Hrun. rewrite (proj2 (Hjoin items ltac:(lia))); [done|]. by split_and!.
  - intros Hno. rewrite Hrun. destruct (slice_items metas blob 0) as [items| |] eqn:Hs.
    + destruct (proj1 (Hjoin items ltac:(lia)) eq_refl) as (He & Hd & Hpl). exfalso. by apply (Hno items).
    + split; [by intros Hov%Hpanic|done].
    + split; [done|]. intros Hov. exfalso. by apply Hov, Hpanic.
Qed.

(** ** What was put is answered *)

(** [decodeJson] of index.js: what JavaScript makes of one element. *)
Inductive jsValue := JsNull | JsJson (j : json) | JsBuffer (bytes : gostring).

Definition field (name : gostring) (l : list (gostring * json)) : option json :=
  snd <$> List.find (fun kv => bool_decide (kv.1 = name)) l.

Definition decodeJson (rec : json) : option jsValue :=
  match rec with
  | JObj l =>
      match field (bs "found") l with
      | Some (JBool true) =>
          match field (bs "json") l, field (bs "v") l with
          | Some j, _ => Some (JsJson j)
          | None, Some (JStr t) => JsBuffer <$> b64_decode t
          | None, None => Some (JsBuffer [])
          | None, Some _ => None
          end
      | _ => Some JsNull
      end
  | _ => None
  end.

Definition stored (value : gostring) : jsValue :=
  match json_parse value with Some j => JsJson j | None => JsBuffer value end.

Lemma encodeValJSON_decodes value : decodeJson (doc_json (encodeValJSON (Some value))) = Some (stored value).
Proof.
  unfold encodeValJSON, valJSON_fields, json_valid, stored. destruct (json_parse value) as [j|] eqn:Hp.
  - cbn [doc_json List.map app fst snd]. rewrite Hp. done.
  - destruct (b64_encode value) as [|b t] eqn:Hb.
    + apply b64_encode_nil in Hb as ->. done.
    + rewrite <- Hb. clear Hb. generalize (b64_decode_encode value). generalize (b64_encode value). intros enc Henc.
      cbv -[b64_decode]. by rewrite Henc.
Qed.

Lemma encodeValJSON_faithful v : doc_faithful (encodeValJSON v) = true.
Proof.
  destruct v as [value|]; [|done]. unfold encodeValJSON, valJSON_fields. destruct (json_valid value) eqn:Hv.
  - cbn. by rewrite Hv.
  - destruct (b64_encode value) as [|b t] eqn:Hb; [done|]. cbn [doc_faithful forallb app fst snd doc_str json_ok]. by rewrite <- Hb, b64_utf8.
Qed.

Lemma view_settle p dir db l : view (settle p dir db l) (mkOpened dir db) = db.
Proof.
  unfold view, settle. cbn [op_dir op_db lb_tick]. rewrite files_insert, decide_True by done. by destruct db.
Qed.

Lemma db_op_ok {A} p (m : M DB A) l st r db : lb_heap l !! p = Some st -> m (view l st) = (r, db) -> r <> Err EPanic ->
  db_op p m l = (Ok r, settle p (op_dir st) db l).
Proof. intros Hst Hm Hr. unfold db_op. rewrite Hst, Hm. by destruct r as [|[]]. Qed.

Lemma reply_not_err d e : reply error_text d (Some e) <> reply error_text None None.
Proof. unfold reply. cbn [dprint List.map join]. intros H. apply (f_equal length) in H. rewrite !length_app in H. cbn in H. lia. Qed.

(** An accepted [nteedb_put] ran [PutIndexed] with success. *)
Lemma nteedb_put_accepted h p st key value ixJSON ttl l l1 : lb_reg l !! h = Some p -> lb_heap l !! p = Some st ->
  nteedb_put error_text h key value (zlen value) ixJSON ttl l = (Ok (reply error_text None None), l1) ->
  exists ix db, PutIndexed (GoString key) value ix (ttlArg ttl) (view l st) = (Ok tt, db) /\ l1 = settle p (op_dir st) db l
    /\ (GoString ixJSON = [] /\ ix = ∅ \/ GoString ixJSON <> [] /\ unmarshal_ix (GoString ixJSON) = Some ix).
Proof.
  intros Hp Hst. unfold nteedb_put. rewrite (with_handle_run h p) by done. rewrite (mbnd_ok _ _ _ _ _ (GoBytes_all value l)).
  assert (Hop : forall (m : M DB unit) l2, op_ error_text p m l = (Ok (reply error_text None None), l2) ->
    exists db, m (view l st) = (Ok tt, db) /\ l2 = settle p (op_dir st) db l).
  { intros m l2. unfold op_, op, mbnd, db_op. rewrite Hst. destruct (m (view l st)) as [[[]|e] db].
    - intros [= <-]. by exists db.
    - destruct e; cbn; intros H; try done; exfalso; injection H as H _; by apply reply_not_err in H. }
  destruct (decide (GoString ixJSON = [])) as [Hix|Hix].
  - intros H. destruct (Hop _ _ H) as (db & Hrun & ->). exists ∅, db. split_and!; [exact Hrun|done|by left].
  - unfold with_json. destruct (unmarshal_ix (GoString ixJSON)) as [ix|] eqn:Hu.
    + intros H. destruct (Hop _ _ H) as (db & Hrun & ->). exists ix, db. split_and!; [done|done|by right].
    + by intros [= H _].
Qed.

(** The index values of a [nteedb_put]. *)
Definition put_values (ixJSON : gostring) : option IndexValues :=
  if decide (GoString ixJSON = []) then Some ∅ else unmarshal_ix (GoString ixJSON).

(** C22. A value that [nteedb_put] accepted is the value [nteedb_get_json]
    answers: through the store, the envelope and the client's decoding, a JSON
    text comes back as its JSON value and anything else as exactly its bytes,
    the empty value included (JSON up to two levels below the parser's nesting
    limit). *)
Theorem put_get_roundtrip l h p st log key value ixJSON l1 :
  clean_faults E -> lb_reg l !! h = Some p -> lb_heap l !! p = Some st -> Inv (view l st) log -> cap_inv (view l st) ->
  (forall t ix idx, put_values ixJSON = Some idx -> (buildIndexValues (GoString key) value idx (set_tick t (view l st))).1 = Ok ix ->
     write_fits (view l st) (GoString key) value ix 0 false) ->
  nteedb_put error_text h key value (zlen value) ixJSON 0 l = (Ok (reply error_text None None), l1) ->
  db_closed (op_db st) = false ->
  exists text l2, nteedb_get_json error_text h key l1 = (Ok text, l2)
    /\ ((json_depth (doc_json (encodeValJSON (Some value))) < maxNestingDepth)%N ->
         exists rec, json_parse text = Some (JObj [(bs "result", rec)]) /\ decodeJson rec = Some (stored value)).
Proof.
  intros Hcf Hp Hst HI HC Hfit Hput Hcl.
  destruct (nteedb_put_accepted _ _ _ _ _ _ _ _ _ Hp Hst Hput) as (ix & db & Hrun & -> & Hix).
  assert (Hpv : put_values ixJSON = Some ix).
  { unfold put_values. destruct Hix as [[H ->]|[H Hu]]; [by rewrite decide_True|by rewrite decide_False]. }
  destruct (PutIndexed_outcome (view l st) log (GoString key) value ix (ttlArg 0) 0 (Ok tt) db Hcf HI HC eq_refl
    (fun t ix' => Hfit t ix' ix Hpv) Hrun) as [(e & t & ? & _)|(ix' & Ho)]; [done|].
  destruct Ho as (gone & log' & HI' & Hgrow & Hg & Hcase & _). destruct Hcase as [(Hct & Hl & _)|(_ & _ & [? _])]; [|done].
  assert (Hopen : db_closed db = false) by (destruct Hgrow as (_ & _ & _ & -> & _); done).
  assert (Hvis : visible db (env_now (db_tick db)) (GoString key) = Some value).
  { unfold visible, expired_at. destruct (live db !! GoString key) as [e|]; [|done]. cbn in Hl. injection Hl as _ He.
    unfold expiredAt. rewrite He. cbn. rewrite Hct, lookup_drop_keys, decide_False by (by apply key_survives). by rewrite lookup_insert_eq. }
  destruct (Get_run db log' (GoString key) HI' Hopen) as (Hget & _ & _). rewrite Hvis in Hget.
  destruct (Get (GoString key) db) as [r db2] eqn:Hg2. cbn in Hget. subst r.
  eexists (reply error_text (Some (encodeValJSON (Some value))) None), (settle p (op_dir st) db2 (settle p (op_dir st) db l)). split.
  - unfold nteedb_get_json. rewrite (with_handle_run h p) by done. unfold op.
    rewrite (mbnd_ok _ _ _ (Ok (Some value)) (settle p (op_dir st) db2 (settle p (op_dir st) db l))); [done|].
    apply (db_op_ok p _ _ (mkOpened (op_dir st) db)); [apply lookup_insert_eq| |done]. by rewrite view_settle.
  - intros Hd. exists (doc_json (encodeValJSON (Some value))). split; [|apply encodeValJSON_decodes].
    unfold reply. rewrite doc_parse; [done|cbn [doc_faithful forallb fst snd]; by rewrite encodeValJSON_faithful|].
    cbn [doc_json List.map fst snd]. rewrite json_depth_obj. cbn [fold_right snd]. lia.
Qed.

(** ** Every answer *)

(** A computation whose answers are complete lines. *)
Definition tidy {S} (m : M S gostring) : Prop := forall l t l', m l = (Ok t, l') -> no_ctl t = true.

Lemma reply_tidy d e : (forall x, d = Some x -> doc_ok x = true) -> no_ctl (reply error_text d e) = true.
Proof.
  intros Hd. unfold reply. apply dprint_line. destruct e; [done|]. destruct d as [x|]; [|done]. cbn. by rewrite Hd.
Qed.

Lemma tidy_answer d : doc_ok d = true -> tidy (answer error_text d : M library gostring).
Proof. intros Hd l t l' [= <- _]. apply reply_tidy. by intros x [= <-]. Qed.

Lemma tidy_refuse e : tidy (refuse error_text e : M library gostring).
Proof. intros l t l' [= <- _]. by apply reply_tidy. Qed.

Lemma tidy_done : tidy (mok (reply error_text None None) : M library gostring).
Proof. intros l t l' [= <- _]. by apply reply_tidy. Qed.

Lemma tidy_err {S} e : tidy (merr e : M S gostring).
Proof. by intros l t l'. Qed.

Lemma tidy_bnd {A} (m : M library A) k : (forall a, tidy (k a)) -> tidy (mbnd m k).
Proof. intros Hk l t l'. unfold mbnd. destruct (m l) as [[a|e] l1]; [apply Hk|done]. Qed.

Lemma tidy_op {A} p (m : M DB A) k : (forall a, tidy (k a)) -> tidy (op error_text p m k).
Proof. intros Hk. apply tidy_bnd. intros [a|e]; [apply Hk|apply tidy_refuse]. Qed.

Lemma tidy_op_ p m : tidy (op_ error_text p m).
Proof. apply tidy_op. intros _. apply tidy_done. Qed.

Lemma tidy_json {A} (o : option A) k : (forall a, tidy (k a)) -> tidy (with_json error_text o k).
Proof. intros Hk. destruct o; [apply Hk|apply tidy_refuse]. Qed.

Lemma tidy_handle h k : (forall p, tidy (k p)) -> tidy (with_handle error_text h k).
Proof. intros Hk. apply tidy_bnd. intros [p|]; [apply Hk|apply tidy_refuse]. Qed.

Lemma valJSON_ok v : forallb (fun kv => doc_ok (snd kv)) (valJSON_fields v) = true.
Proof. destruct v as [x|]; [|done]. cbn. destruct (json_valid x) eqn:Hx; cbn; [by rewrite Hx|]. by destruct (b64_encode x). Qed.

Lemma encodeRecords_ok keys values : doc_ok (encodeRecords keys values) = true.
Proof. apply forallb_fmap_ok. intros [k v]. cbn. apply valJSON_ok. Qed.

Lemma doc_ints_ok l : forallb (fun kv : gostring * doc => doc_ok kv.2) l = true -> doc_ok (DObj l) = true.
Proof. done. Qed.

Ltac tidy_step :=
  lazymatch goal with
  | |- tidy (with_handle _ _ _) => apply tidy_handle; intros ?
  | |- tidy (with_json _ _ _) => apply tidy_json; intros ?
  | |- tidy (op_ _ _ _) => apply tidy_op_
  | |- tidy (op _ _ _ _) => apply tidy_op; intros ?
  | |- tidy (refuse _ _) => apply tidy_refuse
  | |- tidy (merr _) => apply tidy_err
  | |- tidy (answer _ _) => apply tidy_answer
  | |- tidy (mok _) => apply tidy_done
  | |- tidy (mbnd _ _) => apply tidy_bnd; intros ?
  | |- tidy (let _ := _ in _) => cbv zeta
  | |- tidy (match _ with _ => _ end) => case_match
  end.

Ltac tidy_tac := repeat tidy_step.

Lemma run_data_tidy h d : tidy (run_data error_text h d).
Proof.
  destruct d; cbn [run_data];
    cbv delta [nteedb_put nteedb_incr nteedb_topup nteedb_take nteedb_delete nteedb_put_batch nteedb_put_batch_bin nteedb_remove_by_pk_less
      nteedb_remove_by_pk_greater nteedb_get_json nteedb_get_many_json nteedb_has nteedb_prefix_scan nteedb_by_index nteedb_by_index_has
      nteedb_by_index_prefix nteedb_by_index_range nteedb_by_index_records_json nteedb_by_index_prefix_records_json nteedb_prefix_scan_records_json
      nteedb_compact nteedb_reindex nteedb_relieve nteedb_stats nteedb_blob_usage nteedb_details nteedb_dropped_indexes
      nteedb_prospective_indexes readRecordsReply]; cbv beta; tidy_tac;
    lazymatch goal with
    | |- doc_ok (doc_int _) = _ => apply doc_int_ok
    | |- doc_ok (doc_bool _) = _ => reflexivity
    | |- doc_ok (doc_keys _) = _ => apply doc_keys_ok
    | |- doc_ok (encodeValJSON _) = _ => apply valJSON_ok
    | |- doc_ok (encodeRecords _ _) = _ => apply encodeRecords_ok
    | |- doc_ok (DArr _) = _ => apply forallb_fmap_ok; intros ?; apply valJSON_ok
    | |- doc_ok (doc_map _) = _ => apply doc_map_ok; cbn [forallb snd]; by rewrite !doc_int_ok
    | |- _ => apply doc_ints_ok; cbn [forallb snd]; by rewrite !doc_int_ok
    end.
Qed.

Lemma no_ctl_GoString t rest : no_ctl t = true -> GoString (t ++ Byte.x00 :: rest) = t.
Proof.
  induction t as [|b t IH]; [done|]. rewrite no_ctl_cons. intros [Hb Ht]%andb_true_iff. cbn [app GoString].
  rewrite decide_False; [by rewrite IH|]. by intros ->.
Qed.

(** Every answer of the interface is one line of text without control
    characters: the NUL that ends the C string is its first, and the caller
    reads exactly the envelope. *)
Theorem reply_complete (dir_of : gostring -> gostring) c l text l' rest : exec dir_of error_text c l = (Ok text, l') ->
  no_ctl text = true /\ GoString (text ++ Byte.x00 :: rest) = text.
Proof.
  cut (tidy (exec dir_of error_text c)); [intros Ht H; pose proof (Ht _ _ _ H); split; [done|by apply no_ctl_GoString]|].
  destruct c as [dir opts|h|h|dir|h d]; cbn [exec]; [| | | |by apply run_data_tidy].
  - unfold nteedb_open. tidy_tac. apply doc_int_ok.
  - unfold nteedb_close. tidy_tac.
  - unfold nteedb_drop. tidy_tac.
  - intros l1 t l2. unfold nteedb_destroy. destruct (held _ _); [done|]. destruct (Destroy _) as [r s]. intros [= <- _]. by apply reply_tidy.
Qed.
End data.
