(* ===== verification/Samples.v ===== *)
(** * A concrete store

    An environment without failures and a small directory: a log with an
    indexed object, a blob, a counter, a deletion and a torn tail.  The theorems
    about stores are applied to the store [Open] makes of it. *)

From S2P Require Import Prelude Floats Types Counter Json Record BTree PkIndex SecIndex Hint Store SecMaint IndexStep LogSpec Invariant Ops Contents Caps PutProofs Load Recovery CounterProofs RangeProofs Query Batch BatchProofs Compact CompactProofs RelieveProofs Destroy.
#[local] Open Scope Z_scope.

#[export] Instance quiet : Env := {|
  env_now _ := 1000;
  env_write _ := None;
  env_sync _ := false;
  env_fs _ := false;
  env_range _ ix := map_to_list ix
|}.

#[export] Instance quiet_laws : EnvLaws quiet.
Proof. by constructor. Qed.

Lemma quiet_no_faults : no_faults quiet.
Proof. by split_and!. Qed.

Lemma quiet_clean : clean_faults quiet.
Proof. apply no_faults_clean, quiet_no_faults. Qed.

Definition sample_opts : Options :=
  mkOptions 16 true 100 [mkIndexDef (bs "n") KindNumber None 2; mkIndexDef (bs "tag") KindString None 0].

Definition sample_log : list record :=
  [MkRecord (bs "a") [] (qs "{'x':1}") None false {[ bs "n" := AInt 5; bs "tag" := AString (bs "red") ]} false 0;
   MkRecord (bs "z") [] (bs "gone") None false ∅ false 0;
   MkRecord (bs "b") [] [] (Some (BlobRef 0 20 0)) false ∅ false 0;
   MkRecord (bs "c") [] (formatCounter 7) None false ∅ true 5000;
   tombstone (bs "z")].

Definition sample_torn : gostring := qs "{'k':'q','v':'tru".

Definition sample_disk : Disk :=
  mkDisk (Some (enc sample_log ++ sample_torn)) None None {[ 0 := bs "twenty bytes of blob" ]}.

Definition sample_store : DB := (Open sample_opts sample_disk 0).2.

#[export] Instance write_fits_dec s key value ix exp counter : Decision (write_fits s key value ix exp counter).
Proof. unfold write_fits. destruct (r_Blob _); apply _. Defined.

Lemma sample_good : Forall rec_good sample_log.
Proof. decide_now. Qed.

Lemma sample_on_disk : on_disk sample_disk [] sample_log sample_torn.
Proof.
  split_and!; [done|by left|by vm_compute|exact sample_good|decide_now|]. unfold gens_ok. decide_now.
Qed.

Lemma sample_open : exists s, Open sample_opts sample_disk 0 = (Ok s, s) /\ Inv s sample_log /\ db_closed s = false.
Proof.
  destruct (declare (o_Indexes sample_opts) ∅) as [sec|] eqn:Hd; [|done].
  destruct (open_run sample_opts sample_disk [] sample_log sample_torn sec 0 quiet_no_faults Hd sample_on_disk)
    as (s & Hrun & HI & Hcl & _). exists s. auto.
Qed.

Lemma sample_Inv : Inv sample_store sample_log.
Proof. unfold sample_store. destruct sample_open as (s & -> & HI & _). exact HI. Qed.

(** A store whose capped indexes hold no more than their caps in all. *)
Lemma small_caps s log : Inv s log ->
  map_Forall (fun _ si => si_max si <= 0 \/ zlen (bt_scan (si_tree si)) <= si_max si) (db_sec s) -> cap_inv s.
Proof.
  intros HI Hsm name si Hsi Hm probe Hp. destruct (Hsm name si Hsi) as [?|Hle]; [lia|].
  etrans; [|exact Hle]. unfold group_keys, group, zlen. rewrite length_fmap. apply inj_le, length_filter.
Qed.

Lemma sample_caps : cap_inv sample_store.
Proof. apply (small_caps _ sample_log sample_Inv). decide_now. Qed.

Lemma sample_is_open : db_closed sample_store = false.
Proof. by vm_compute. Qed.

(** ** Writing to it *)

Definition sample_idx : IndexValues := {[ bs "n" := AInt 5 ]}.

Definition put_sample : res unit * DB := PutIndexed (bs "d") (qs "{'y':2}") sample_idx [] sample_store.

Lemma put_sample_fits : forall t ix,
  (buildIndexValues (bs "d") (qs "{'y':2}") sample_idx (set_tick t sample_store)).1 = Ok ix ->
  write_fits sample_store (bs "d") (qs "{'y':2}") ix 0 false.
Proof.
  intros t ix H.
  assert (Hc : (buildIndexValues (bs "d") (qs "{'y':2}") sample_idx (set_tick t sample_store)).1 = Ok sample_idx)
    by (vm_compute; reflexivity).
  rewrite Hc in H. assert (Heq : sample_idx = ix) by exact (f_equal (fun r => match r with Ok x => x | Err _ => ∅ end) H).
  rewrite <- Heq. decide_now.
Qed.

Lemma put_correct_witness : exists gone log', Inv put_sample.2 log' /\ cap_inv put_sample.2
  /\ contents put_sample.2 = drop_keys gone (<[bs "d" := qs "{'y':2}"]> (contents sample_store))
  /\ Forall (fun k => str_ltb k (bs "d") = true) gone
  /\ contents put_sample.2 !! bs "d" = Some (qs "{'y':2}") /\ e_exp <$> live put_sample.2 !! bs "d" = Some 0.
Proof.
  apply (put_correct sample_store sample_log (bs "d") (qs "{'y':2}") sample_idx [] 0 put_sample.2 quiet_clean sample_Inv sample_caps).
  - done.
  - exact put_sample_fits.
  - assert (H : put_sample.1 = Ok tt) by (by vm_compute). unfold put_sample in *. by destruct (PutIndexed _ _ _ _ _) as [r s']; cbn in H; subst.
Defined.


Lemma delete_correct_witness : exists log', Inv (Delete (bs "b") sample_store).2 log'
  /\ ((Delete (bs "b") sample_store).1 = Ok tt /\ contents (Delete (bs "b") sample_store).2 = delete (bs "b") (contents sample_store)
      \/ failed quiet (Delete (bs "b") sample_store).1 /\ contents (Delete (bs "b") sample_store).2 = contents sample_store).
Proof.
  apply (delete_correct sample_store sample_log (bs "b") _ _ quiet_clean sample_Inv sample_is_open). by destruct (Delete _ _).
Defined.

Lemma byIndex_scan_witness : ByIndex (bs "tag") (AString (bs "red")) [-3] sample_store = (Ok [bs "a"], sample_store).
Proof.
  etrans; [apply (byIndex_scan sample_store sample_log (bs "tag") (AString (bs "red")) [-3] sample_Inv); done|].
  f_equal; vm_compute; reflexivity.
Defined.

Lemma byIndexRange_scan_witness : ByIndexRange (bs "n") (AInt 5) (AInt 9) sample_store = (Ok [bs "a"], sample_store).
Proof.
  etrans; [apply (byIndexRange_scan sample_store sample_log (bs "n") (AInt 5) (AInt 9) sample_Inv); vm_compute; reflexivity|].
  f_equal; vm_compute; reflexivity.
Defined.

Lemma get_correct_witness : (Get (bs "b") sample_store).1 = Ok (Some (bs "twenty bytes of blob")).
Proof.
  destruct (get_correct sample_store sample_log (bs "b") sample_Inv sample_is_open) as [-> _]. by vm_compute.
Defined.

Lemma prefixScan_correct_witness : (PrefixScan [] sample_store).1 = Ok [bs "a"; bs "b"; bs "c"].
Proof.
  destruct (prefixScan_correct sample_store [] (proj1 (proj1 (proj2 (proj2 (proj2 (proj2 sample_Inv)))))) sample_is_open) as [-> _].
  by vm_compute.
Defined.

(** ** Recovering it *)

Lemma open_recovers_witness : exists s, Open sample_opts sample_disk 0 = (Ok s, s) /\ Inv s sample_log
  /\ db_closed s = false /\ d_main (db_disk s) = Some (enc sample_log)
  /\ forall k, contents s !! k = log_value sample_disk sample_log k.
Proof.
  destruct (declare (o_Indexes sample_opts) ∅) as [sec|] eqn:Hd; [|done].
  exact (open_recovers sample_opts sample_disk [] sample_log sample_torn sec 0 quiet_no_faults Hd sample_on_disk).
Defined.

(** The log cut in the middle of its third record. *)
Definition crash_disk : Disk := set_d_main (Some (take 160 (enc sample_log))) sample_disk.


(** The directory with a hint over its first three records. *)
Definition hint_tree : pkIndex := db_pk (Open sample_opts (set_d_main (Some (enc (take 3 sample_log))) sample_disk) 0).2.

Definition hinted_disk : Disk :=
  set_d_hint (hint_text (pk_scan hint_tree) (zlen (enc (take 3 sample_log)))) sample_disk.

Lemma hinted_on_disk : on_disk hinted_disk (take 3 sample_log) (drop 3 sample_log) sample_torn.
Proof.
  destruct (declare (o_Indexes sample_opts) ∅) as [sec|] eqn:Hd; [|done].
  destruct (open_run sample_opts (set_d_main (Some (enc (take 3 sample_log))) sample_disk) [] (take 3 sample_log) [] sec 0
    quiet_no_faults Hd) as (s & Hrun & HI & _).
  { split_and!; [by rewrite app_nil_r|by left|done|decide_now|decide_now|unfold gens_ok; decide_now]. }
  assert (Ht : hint_tree = db_pk s) by (unfold hint_tree; by rewrite Hrun).
  split_and!; [done| |by vm_compute|exact sample_good|decide_now|unfold gens_ok; decide_now].
  right. exists hint_tree. pose proof HI as (_ & _ & _ & Ha & (Hpk & _) & _). cbn [app] in Ha. rewrite Ht at 1 2. split_and!; [done|exact Ha|apply hint_ix_ok; [by rewrite Ht|decide_now]|].
  destruct (hint_read_back (pk_scan hint_tree) (zlen (enc (take 3 sample_log)))) as (text & Htext & Hload); [decide_now..|].
  unfold hinted_disk. cbn [d_hint set_d_hint]. by rewrite Htext.
Qed.

Lemma hint_transparent_witness : exists s s', Open sample_opts hinted_disk 0 = (Ok s, s)
  /\ Open sample_opts (set_d_hint None hinted_disk) 0 = (Ok s', s') /\ contents s = contents s'
  /\ (forall k, e_exp <$> live s !! k = e_exp <$> live s' !! k).
Proof.
  destruct (declare (o_Indexes sample_opts) ∅) as [sec|] eqn:Hd; [|done].
  exact (hint_transparent sample_opts hinted_disk _ _ sample_torn sec 0 quiet_no_faults Hd hinted_on_disk).
Defined.

Lemma close_open_roundtrip_witness : exists s1 s2, Close sample_store = (Ok tt, s1)
  /\ Open sample_opts (db_disk s1) 9 = (Ok s2, s2) /\ Inv s2 sample_log /\ contents s2 = contents sample_store
  /\ (forall k, e_exp <$> live s2 !! k = e_exp <$> live sample_store !! k).
Proof.
  destruct (declare (o_Indexes sample_opts) ∅) as [sec|] eqn:Hd; [|done].
  assert (H1 : gens_ok (db_disk sample_store)) by (unfold gens_ok; decide_now).
  assert (H2 : Forall hint_entry_ok (pk_scan (db_pk sample_store))) by decide_now.
  assert (H3 : in64 (db_size sample_store)) by decide_now.
  exact (close_open_roundtrip sample_store sample_log sample_opts sec 9 quiet_no_faults sample_Inv sample_is_open H1 H2 H3 Hd).
Defined.

(** ** Counting on it *)

Lemma sample_counters_fit : counters_fit sample_store (bs "c") 0.
Proof.
  split; [unfold counter_fits; decide_now|].
  assert (H : e_exp <$> live sample_store !! bs "c" = Some 5000) by (by vm_compute).
  destruct (live sample_store !! bs "c") as [e|]; [|done]. injection H as ->. unfold counter_fits. decide_now.
Qed.

Lemma incr_correct_witness : exists s' log', Incr (bs "c") (-9) [] sample_store = (Ok (-2), s') /\ Inv s' log'
  /\ contents s' = <[bs "c" := formatCounter (-2)]> (contents sample_store)
  /\ e_exp <$> live s' !! bs "c" = Some 5000.
Proof.
  destruct (incr_correct sample_store sample_log (bs "c") (-9) [] 0 quiet_no_faults sample_Inv sample_is_open eq_refl sample_counters_fit)
    as (out & s' & log' & Hrun & HI & H); [decide_now|].
  assert (Hc : cur_of sample_store (now_after [] sample_store) (bs "c") = Ok 7) by (by vm_compute).
  assert (He : exp_after sample_store (now_after [] sample_store) (bs "c") 0 = 5000) by (by vm_compute).
  rewrite Hc, He, decide_True in H by decide_now. destruct H as (-> & H1 & H2). exists s', log'. by split_and!.
Defined.

Lemma topup_correct_witness : exists s' log', Topup (bs "c") 5 10 [] sample_store = (Ok 2, s') /\ Inv s' log'
  /\ contents s' = <[bs "c" := formatCounter 10]> (contents sample_store).
Proof.
  destruct (topup_correct sample_store sample_log (bs "c") 5 10 [] 0 quiet_no_faults sample_Inv sample_is_open eq_refl sample_counters_fit)
    as (out & s' & log' & Hrun & HI & H); [decide_now|decide_now|].
  assert (Hc : cur_of sample_store (now_after [] sample_store) (bs "c") = Ok 7) by (by vm_compute).
  rewrite Hc in H. destruct H as (-> & H1 & _). exists s', log'. by split_and!.
Defined.

Lemma take_correct_witness : exists s' log', Take (bs "c") 8 0 [] sample_store = (Ok false, s') /\ Inv s' log'
  /\ contents s' = contents sample_store.
Proof.
  destruct (take_correct sample_store sample_log (bs "c") 8 0 [] 0 quiet_no_faults sample_Inv sample_is_open eq_refl sample_counters_fit)
    as (out & s' & log' & Hrun & HI & H); [decide_now|decide_now|].
  assert (Hc : cur_of sample_store (now_after [] sample_store) (bs "c") = Ok 7) by (by vm_compute).
  rewrite Hc, decide_False in H by lia. destruct H as (-> & H1). exists s', log'. split_and!; [done|done|].
  rewrite H1. unfold purged. assert (Hx : expired_at sample_store (now_after [] sample_store) (bs "c") = false) by (by vm_compute).
  by rewrite Hx.
Defined.

(** ** Rewriting it *)

#[export] Instance rewrite_fits_dec log : Decision (rewrite_fits log).
Proof. unfold rewrite_fits. apply _. Defined.

Lemma compact_correct_witness : exists s', Compact sample_store = (Ok tt, s') /\ Inv s' (compacted sample_store)
  /\ contents s' = unexpired sample_store (env_now (S (db_tick sample_store)))
  /\ keeps_exps sample_store s' (env_now (S (db_tick sample_store)))
  /\ NoDup (r_Key <$> compacted sample_store) /\ Forall (fun r => isTombstone r = false) (compacted sample_store).
Proof.
  assert (H : rewrite_fits (compacted sample_store)) by decide_now.
  exact (compact_correct sample_store sample_log quiet_no_faults sample_Inv sample_is_open H).
Defined.

(** The same directory opened with an index over the first byte of a value. *)
Definition first_byte : option (gostring -> gostring -> option any) :=
  Some (fun _ v => match v with b :: _ => Some (AString [b]) | [] => None end).

Definition extract_opts : Options := mkOptions 16 true 100 [mkIndexDef (bs "first") KindString first_byte 0].

Definition extract_store : DB := (Open extract_opts sample_disk 0).2.

Lemma extract_Inv : Inv extract_store sample_log.
Proof.
  destruct (declare (o_Indexes extract_opts) ∅) as [sec|] eqn:Hd; [|done]. unfold extract_store.
  destruct (open_run extract_opts sample_disk [] sample_log sample_torn sec 0 quiet_no_faults Hd sample_on_disk)
    as (s & -> & HI & _). exact HI.
Qed.

Lemma extract_extracts : extracts_ok extract_store sample_log.
Proof.
  assert (H : map_Forall (fun _ x => is_ok (reindex_ix extract_store (norm_record x.2)) = true) (lidx sample_log)) by decide_now.
  intros k off r Hl. exact (H k (off, r) Hl).
Qed.


(** ** Removing from it *)

Lemma removeByPkLess_correct_witness : exists n s' log', RemoveByPkLess (bs "b") sample_store = (Ok n, s') /\ Inv s' log'
  /\ contents s' = filter (fun kv => str_ltb kv.1 (bs "b") = false) (contents sample_store)
  /\ n = Z.of_nat (size (contents sample_store)) - Z.of_nat (size (contents s')).
Proof.
  apply (removeByPkLess_correct sample_store sample_log (bs "b") quiet_no_faults sample_Inv sample_is_open).
  unfold range_fits. decide_now.
Defined.

Lemma removeByPkGreater_correct_witness : exists n s' log', RemoveByPkGreater (bs "a") sample_store = (Ok n, s') /\ Inv s' log'
  /\ contents s' = filter (fun kv => str_ltb (bs "a") kv.1 = false) (contents sample_store)
  /\ n = Z.of_nat (size (contents sample_store)) - Z.of_nat (size (contents s')).
Proof.
  apply (removeByPkGreater_correct sample_store sample_log (bs "a") quiet_no_faults sample_Inv sample_is_open).
  unfold range_fits. decide_now.
Defined.

(** A clock on which the counter has expired, with a request queued for it. *)
Definition late : Env :=
  {| env_now _ := 9000; env_write _ := None; env_sync _ := false; env_fs _ := false; env_range _ ix := map_to_list ix |}.

Definition late_laws : EnvLaws late := {| range_perm _ _ := reflexivity _ |}.

Definition queued_store : DB := set_reap [ReapReq (bs "c") (zlen (enc (take 3 sample_log)))] sample_store.

Lemma Inv_set_reap s log q : Inv s log -> Inv (set_reap q s) log.
Proof. by intros. Qed.

Lemma queued_Inv : Inv queued_store sample_log.
Proof. unfold queued_store. apply Inv_set_reap, sample_Inv. Qed.

Lemma reapCycle_invisible_witness : exists log', Inv (reapCycle (E := late) queued_store).2 log'
  /\ (reapCycle (E := late) queued_store).1 = Ok tt
  /\ (forall key, is_Some (contents queued_store !! key) -> contents (reapCycle (E := late) queued_store).2 !! key = None ->
       expired_at queued_store 9000 key = true)
  /\ forall now key, 9000 <= now ->
       visible (reapCycle (E := late) queued_store).2 now key = visible queued_store now key.
Proof.
  apply (reapCycle_invisible (EL := late_laws) queued_store sample_log _ _); [|exact queued_Inv|by destruct (reapCycle _)].
  apply no_faults_clean. by split_and!.
Defined.

(** ** A batch of two items *)

Definition sample_items : list PutItem :=
  [mkPutItem (bs "e") (qs "{'w':1}") {[ bs "n" := AInt 8 ]} 0; mkPutItem (bs "f") (bs "plain text of some size") ∅ 5000000].

#[export] Instance batch_fits_dec l : forall s, Decision (batch_fits s l).
Proof. induction l as [|[it [ix exp]] l IH]; intros s; cbn [batch_fits]; apply _. Defined.


(** ** A key that is not UTF-8

    [Put] accepts it; the log has U+FFFD in its place, so a reopened store knows
    the value under another name, which every such key shares. *)

Definition stray_store : DB := (Put [Byte.xff] (bs "v") [] (Open extract_opts empty_disk 0).2).2.

Example invalid_key_renamed :
  (Get [Byte.xff] stray_store).1 = Ok (Some (bs "v"))
  /\ let again := (Open extract_opts (db_disk (Close stray_store).2) 9).2 in
     (Get [Byte.xff] again).1 = Ok None /\ (PrefixScan [] again).1 = Ok [[Byte.xef; Byte.xbf; Byte.xbd]].
Proof. cbv zeta. split_and!; vm_compute; reflexivity. Qed.

(** ** Relieving and dropping it *)

Lemma sample_relieve_fits : rewrite_fits (relieve_result sample_store).1 /\ zlen (relieve_result sample_store).2 = 20
  /\ blob_total (relieve_result sample_store).1 = 20.
Proof. split; [decide_now|]. by vm_compute. Qed.

Lemma relieve_correct_witness : exists s', BlobsRelieve sample_store = (Ok tt, s') /\ Inv s' (relieve_result sample_store).1
  /\ contents s' = unexpired sample_store (env_now (S (S (S (db_tick sample_store)))))
  /\ db_blobs s' = {[db_curGen sample_store + 1 := zlen (relieve_result sample_store).2]}.
Proof.
  destruct sample_relieve_fits as (H1 & H2 & _).
  assert (H3 : db_blobs sample_store !! (db_curGen sample_store + 1) = None) by (by vm_compute).
  assert (H4 : in64 (db_curGen sample_store + 1)) by decide_now.
  assert (H5 : zlen (relieve_result sample_store).2 <= MaxInt64) by (rewrite H2; done).
  destruct (relieve_correct sample_store sample_log quiet_no_faults sample_Inv sample_is_open H3 H4 H1 H5)
    as (s' & Hr & HI & Hc & _ & Hb & _). exists s'. exact (conj Hr (conj HI (conj Hc Hb))).
Defined.

