(* ===== verification/TimedMapSamples.v ===== *)
(** * A history of a concrete store

    A store without capped indexes, opened on the sample directory under a
    clock that moves, goes through every kind of operation: a snapshot is handed
    to the background writer and left behind by a rewrite, another one is
    written, and the process is killed in the middle of a write. *)

From S2P Require Import Prelude Floats Types Counter Json Record BTree PkIndex SecIndex Hint Store SecMaint IndexStep LogSpec Invariant Ops Contents Caps PutProofs Load Recovery CounterProofs RangeProofs Batch BatchProofs Compact CompactProofs RelieveProofs Frame HintInv Crash TimedMap Samples.
#[local] Open Scope Z_scope.

(** Ten milliseconds pass between two readings of the clock. *)
Definition ticking : Env :=
  {| env_now n := 1000 + 10 * Z.of_nat n; env_write _ := None; env_sync _ := false; env_fs _ := false;
     env_range _ ix := map_to_list ix |}.

Definition ticking_laws : EnvLaws ticking := {| range_perm _ _ := reflexivity _ |}.

Lemma ticking_no_faults : no_faults ticking.
Proof. by split_and!. Qed.

(** Every second write hands over a snapshot. *)
Definition timed_opts : Options := mkOptions 16 true 2 [mkIndexDef (bs "first") KindString first_byte 0].

Definition opened_store : DB := (Open (E := ticking) timed_opts sample_disk 0).2.

Lemma opened_Inv : Inv opened_store sample_log.
Proof.
  destruct (declare (o_Indexes timed_opts) ∅) as [sec|] eqn:Hd; [|done]. unfold opened_store.
  destruct (open_run (E := ticking) (EL := ticking_laws) timed_opts sample_disk [] sample_log sample_torn sec 0 ticking_no_faults Hd sample_on_disk)
    as (s & -> & HI & _). exact HI.
Qed.

Lemma opened_hint : d_hint (db_disk opened_store) = None.
Proof. vm_cast_no_check (eq_refl (None : option gostring)). Qed.

Lemma opened_inflight : db_inflight opened_store = None.
Proof. vm_cast_no_check (eq_refl (None : option hintSnapshot)). Qed.

Lemma opened_holds : holds opened_store (dated opened_store).
Proof.
  split; [eexists; apply opened_Inv|]. split; [by vm_compute|]. split; [unfold uncapped; decide_now|]. split; [|done].
  split; [unfold hint_right; by rewrite opened_hint|unfold snap_right; by rewrite opened_inflight].
Qed.

(** Five milliseconds. *)
Definition brief : list Z := [5 * millisecond].

Definition before_kill : list op :=
  [OReindex;
   OPut (bs "d") (qs "{'y':2}") ∅ [];
   OPut (bs "t") (bs "short") ∅ brief;
   OGet (bs "t");
   OReap;
   OIncr (bs "c") 3 [];
   OTopup (bs "c") 5 12 [];
   OTake (bs "c") 20 0 [];
   OIncr (bs "d") 1 [];
   OIncr (bs "n") 1 [0];
   OBatch [mkPutItem (bs "e") (bs "one") ∅ 0; mkPutItem (bs "f") (bs "two") ∅ 7];
   ODelete (bs "e");
   ORemoveLess (bs "b");
   ORemoveGreater (bs "d");
   OCompact;
   ORelieve;
   OHint;
   OPut (bs "p") (bs "one") ∅ [];
   OIncr (bs "c") 1 [];
   OPut (bs "q") (bs "two") ∅ [];
   OHint;
   OIncr (bs "c") 1 [];
   OPut (bs "p") (bs "three") ∅ []].

(** Killed while it appended the record of [r] and the blob of a fourth value. *)
Definition killed (s : DB) : Disk :=
  set_d_blobs ((fun b => b ++ bs "four") <$> d_blobs (db_disk s))
    (set_d_main (Some (main_bytes (db_disk s) ++ qs "{'k':'r','v':'fo")) (db_disk s)).

Definition killed_disk : Disk := killed (run_ops (E := ticking) before_kill opened_store).2.

Definition after_ops : list op :=
  [OKill timed_opts killed_disk;
   OGet (bs "p");
   OIncr (bs "c") 1 [];
   OGet (bs "r");
   ORestart timed_opts;
   OGet (bs "b")].

Definition sample_ops : list op := before_kill ++ after_ops.

(** The hint the killed process leaves covers a part of its log. *)
Example hint_left : fmap (M := option) (fun x => (x.2 <? zlen (main_bytes killed_disk), length x.1)) (loadIndexHint (d_hint killed_disk))
  = Some (true, 5%nat).
Proof. vm_compute. reflexivity. Qed.

Example sample_answers : (run_ops (E := ticking) sample_ops opened_store).1.*2
  = [OutUnit (Ok tt); OutUnit (Ok tt); OutUnit (Ok tt); OutValue (Ok None); OutUnit (Ok tt);
     OutInt (Ok 10); OutInt (Ok 3); OutBool (Ok false); OutInt (Err ErrNotCounter); OutInt (Err ErrInvalidTTL);
     OutUnit (Ok tt); OutUnit (Ok tt); OutInt (Ok 1); OutInt (Ok 1); OutUnit (Ok tt); OutUnit (Ok tt);
     OutUnit (Ok tt); OutUnit (Ok tt); OutInt (Ok 13); OutUnit (Ok tt); OutUnit (Ok tt); OutInt (Ok 14); OutUnit (Ok tt);
     OutUnit (Ok tt); OutValue (Ok (Some (bs "three"))); OutInt (Ok 15); OutValue (Ok None); OutUnit (Ok tt);
     OutValue (Ok (Some (bs "twenty bytes of blob")))].
Proof. vm_compute. reflexivity. Qed.

Lemma opened_extracts : extracts_ok opened_store sample_log.
Proof.
  assert (H : map_Forall (fun _ x => is_ok (reindex_ix opened_store (norm_record x.2)) = true) (lidx sample_log)) by decide_now.
  intros k off r Hl. exact (H k (off, r) Hl).
Qed.

(** The ranges over maps do not depend on when they happen. *)
Lemma build_any key value idx t s :
  (buildIndexValues (E := ticking) key value idx (set_tick t s)).1 = (buildIndexValues (E := ticking) key value idx s).1.
Proof.
  unfold buildIndexValues. rewrite !mget_bnd. cbn [db_sec set_tick db_opts]. case_decide; [done|]. destruct (negb _); [by case_decide|].
  unfold range_ix, tick, mbnd, mok. cbn. by destruct (explicit_values _ _ _ _).
Qed.

Lemma put_ok s key value idx ttl ix exp : (buildIndexValues (E := ticking) key value idx s).1 = Ok ix ->
  deadline ttl (env_now (Env := ticking) (db_tick s)) = Ok exp -> write_fits s key value ix exp false -> op_ok (E := ticking) s (OPut key value idx ttl).
Proof.
  intros Hb Hd Hf exp' t. rewrite resolveTTL_deadline, Hd. intros [= <-]. exists ix. split; [by rewrite build_any|done].
Qed.

Lemma count_ok s key ttl exp : deadline ttl (env_now (Env := ticking) (db_tick s)) = exp ->
  Forall (fun y => rec_good (counter_rec key 0 y)) (option_list (e_exp <$> live s !! key) ++ match exp with Ok x => [x] | Err _ => [] end) ->
  forall x, (resolveTTL (E := ticking) ttl s).1 = Ok x -> counters_fit s key x.
Proof.
  intros Hd Hf x. rewrite resolveTTL_deadline, Hd. cbn [fst]. intros ->. apply Forall_app in Hf as [Hs Hx].
  split; [exact (proj1 (Forall_singleton _ _) Hx)|]. destruct (live s !! key); [|done].
  exact (proj1 (Forall_singleton _ _) Hs).
Qed.

Lemma batch_ok s items ies : (validate (E := ticking) 0 items s).1 = Ok ies ->
  batch_fits (E := ticking) (validate (E := ticking) 0 items s).2 (zip items ies) -> op_ok (E := ticking) s (OBatch items).
Proof. intros Hv Hf. exists ies, (validate (E := ticking) 0 items s).2. split; [|done]. rewrite <- Hv. by destruct (validate _ _ _). Qed.

Lemma restart_ok s opts sec : gens_ok (db_disk s) -> Forall hint_entry_ok (pk_scan (db_pk s)) -> in64 (db_size s) ->
  declare (o_Indexes opts) ∅ = Ok sec -> map_Forall (fun _ si => si_max si <= 0) sec -> op_ok (E := ticking) s (ORestart opts).
Proof. intros. split_and!; try done. by exists sec. Qed.

(** The store after the first [n] operations. *)
Definition after (n : nat) : DB := (run_ops (E := ticking) (take n sample_ops) opened_store).2.

Lemma ops_ok_each os : forall s, (forall i o, os !! i = Some o -> op_ok (E := ticking) (run_ops (E := ticking) (take i os) s).2 o) ->
  ops_ok (E := ticking) s os.
Proof.
  induction os as [|o os IH]; intros s H; [done|]. split; [exact (H 0%nat o eq_refl)|]. apply IH. intros i o' Ho.
  specialize (H (S i) o' Ho). cbn [take run_ops] in H. destruct (run_op o s) as [r s1]. cbn [snd].
  by destruct (run_ops (take i os) s1).
Qed.

Lemma after_kill : after 23 = (run_ops (E := ticking) before_kill opened_store).2.
Proof. reflexivity. Qed.

Lemma killed_after : killed_disk = killed (after 23).
Proof. unfold killed_disk. by rewrite after_kill. Qed.
#[local] Opaque after killed_disk.

Lemma killed_survives s : torn (killed s) (qs "{'k':'r','v':'fo") = true -> gens_ok (killed s) -> survives (db_disk s) (killed s).
Proof.
  intros Ht Hg. split; [done|]. split; [by eexists|]. split; [|split; [|done]]; intros g; unfold blob_bytes; cbn; rewrite lookup_fmap;
    destruct (d_blobs (db_disk s) !! g); cbn; first [done | by apply prefix_app_r | eauto].
Qed.

Lemma kill_ok s d opts : d = killed s -> torn (killed s) (qs "{'k':'r','v':'fo") = true -> gens_ok (killed s) -> declares_uncapped opts ->
  op_ok (E := ticking) s (OKill opts d).
Proof. intros ->. split; [by apply killed_survives|done]. Qed.

#[export] Instance snap_fits_dec s : Decision (snap_fits s).
Proof. unfold snap_fits. destruct (db_inflight s); apply _. Defined.

Ltac each i := destruct i as [|i]; [intros [= <-]|first [discriminate 1|each i]].

Lemma before_kill_ok i o : before_kill !! i = Some o -> op_ok (E := ticking) (after i) o.
Proof.
  unfold before_kill. each i.
  - split; [exists sample_log; split; [exact opened_Inv|exact opened_extracts]|]. split; decide_now.
  - apply (put_ok _ _ _ _ _ {[ bs "first" := AString (bs "{") ]} 0); [|vm_compute; reflexivity|decide_now].
    vm_cast_no_check (eq_refl (Ok {[ bs "first" := AString (bs "{") ]} : res IndexValues)).
  - apply (put_ok _ _ _ _ _ ∅ 1545); [|vm_compute; reflexivity|decide_now].
    vm_cast_no_check (eq_refl (Ok ∅ : res IndexValues)).
  - done.
  - done.
  - split; [decide_now|]. eapply count_ok; [vm_compute; reflexivity|decide_now].
  - split_and!; [decide_now..|]. eapply count_ok; [vm_compute; reflexivity|decide_now].
  - split_and!; [decide_now..|]. eapply count_ok; [vm_compute; reflexivity|decide_now].
  - split; [decide_now|]. eapply count_ok; [vm_compute; reflexivity|decide_now].
  - split; [decide_now|]. eapply count_ok; [vm_compute; reflexivity|decide_now].
  - apply (batch_ok _ _ [(∅, 0); (∅, 1750)]); [|decide_now].
    vm_cast_no_check (eq_refl (Ok [(∅ : IndexValues, 0); (∅ : IndexValues, 1750)] : res (list (IndexValues * Z)))).
  - done.
  - unfold op_ok, range_fits. decide_now.
  - unfold op_ok, range_fits. decide_now.
  - unfold op_ok. decide_now.
  - unfold op_ok. decide_now.
  - unfold op_ok. decide_now.
  - apply (put_ok _ _ _ _ _ ∅ 0); [|vm_compute; reflexivity|decide_now].
    vm_cast_no_check (eq_refl (Ok ∅ : res IndexValues)).
  - split; [decide_now|]. eapply count_ok; [vm_compute; reflexivity|decide_now].
  - apply (put_ok _ _ _ _ _ ∅ 0); [|vm_compute; reflexivity|decide_now].
    vm_cast_no_check (eq_refl (Ok ∅ : res IndexValues)).
  - unfold op_ok. decide_now.
  - split; [decide_now|]. eapply count_ok; [vm_compute; reflexivity|decide_now].
  - apply (put_ok _ _ _ _ _ ∅ 0); [|vm_compute; reflexivity|decide_now].
    vm_cast_no_check (eq_refl (Ok ∅ : res IndexValues)).
Qed.

Lemma after_kill_ok i o : after_ops !! i = Some o -> op_ok (E := ticking) (after (23 + i)) o.
Proof.
  unfold after_ops. each i.
  - apply (kill_ok (after 23) killed_disk timed_opts killed_after); [by vm_compute|unfold gens_ok; decide_now|].
    eexists. split; [reflexivity|decide_now].
  - done.
  - split; [decide_now|]. eapply count_ok; [vm_compute; reflexivity|decide_now].
  - done.
  - eapply restart_ok; [unfold gens_ok; decide_now|decide_now|decide_now|reflexivity|decide_now].
  - done.
Qed.

Lemma sample_ops_ok : ops_ok (E := ticking) opened_store sample_ops.
Proof.
  apply ops_ok_each. intros i o. change (run_ops (take i sample_ops) opened_store).2 with (after i). unfold sample_ops.
  intros [Ho|[Hle Ho]]%lookup_app_Some; [by apply before_kill_ok|]. apply after_kill_ok in Ho. change (length before_kill) with 23%nat in *.
  by replace (23 + (i - 23))%nat with i in Ho by lia.
Qed.

Lemma history_refines_witness : exists m', history (fun n => 1000 + 10 * Z.of_nat n) (db_tick opened_store) (dated opened_store) (run_ops (E := ticking) sample_ops opened_store).1 m'
  /\ holds (run_ops (E := ticking) sample_ops opened_store).2 m'.
Proof. exact (history_refines (EL := ticking_laws) sample_ops opened_store (dated opened_store) ticking_no_faults opened_holds sample_ops_ok). Defined.
