(* ===== verification/Findings.v ===== *)
(** * Where the code does not do what it says

    Each example runs the model on a small store and shows what a comment, a
    document or the intent of the code rules out; the theorem before the first
    one says when the danger it shows is absent. *)

From S2P Require Import Prelude Floats Types Counter Json Record BTree PkIndex SecIndex Hint Store SecMaint IndexStep LogSpec Invariant Ops Contents Caps PutProofs Load Recovery CounterProofs RangeProofs Query Batch BatchProofs Compact CompactProofs RelieveProofs Destroy Samples.
#[local] Open Scope Z_scope.

(** ** A kill between the rename and the new hint (compact.go) *)

Section rename.
Context {BT : BTreeG} {BL : BTreeGLaws BT} {E : Env} {EL : EnvLaws E}.

(** What is on the disk then: the new log and the old hint. *)
Definition renamed (s : DB) : Disk := set_d_main (Some (enc (compacted s))) (db_disk s).

(** The old hint is not used when it covers more bytes than the new log has. *)
Definition hint_too_long (s : DB) : Prop :=
  match loadIndexHint (d_hint (db_disk s)) with Some (_, n) => zlen (enc (compacted s)) < n | None => True end.

(** A process killed at that moment loses nothing if the old hint covers more
    than the new log holds: the next one finds the contents [Compact] leaves. *)
Theorem rename_kill_safe s log opts sec t : no_faults E -> Inv s log -> gens_ok (db_disk s) -> rewrite_fits (compacted s) ->
  hint_too_long s -> declare (o_Indexes opts) ∅ = Ok sec ->
  exists s2, Open opts (renamed s) t = (Ok s2, s2) /\ Inv s2 (compacted s)
    /\ contents s2 = unexpired s (env_now (S (db_tick s))).
Proof.
  intros Hnf HI Hgens (Hg & _ & _) Hh Hd. pose proof HI as (_ & _ & _ & _ & (Hpk & _) & _).
  assert (Htr : forall k off r, lidx log !! k = Some (off, r) -> exists ix, compact_tr s (norm_record r) = with_ix ix r) by (intros; eexists; done).
  destruct (open_run opts (renamed s) [] (compacted s) [] sec t Hnf Hd) as (s2 & H2 & HI2 & _ & Hb2 & _).
  { unfold on_disk. rewrite app_nil_r. split_and!; try done; [left; split; [done|exact Hh]|].
    apply Forall_forall. intros r' (k & off & r & e & Hl & _ & _ & ->)%(rewritten_elem _ s log _ _ HI). destruct (Htr _ _ _ Hl) as [ix ->].
    apply lidx_elem in Hl as (Hin & _). pose proof (Inv_blob_there s log HI) as Hb. rewrite Forall_forall in Hb. exact (Hb r Hin). }
  exists s2. split; [done|]. split; [done|]. by apply (rewritten_contents (compact_tr s) s s2 log).
Qed.
End rename.

#[export] Instance hint_too_long_dec {BT : BTreeG} {E : Env} s : Decision (hint_too_long s).
Proof. unfold hint_too_long. destruct (loadIndexHint _) as [[? ?]|]; apply _. Defined.

(** ** Stores *)

Definition plain_opts : Options := mkOptions 16 false 0 [].
Definition new_store (o : Options) : DB := (Open o empty_disk 0).2.
Definition put (k v : string) (s : DB) : DB := (Put (bs k) (bs v) [] s).2.
Definition got (k : string) (s : DB) : res (option gostring) := (Get (bs k) s).1.

(** The [k]th call into the file system fails, or the [k]th write stops after
    [n] bytes. *)
Definition breaks (k : nat) : Env :=
  {| env_now _ := 1000; env_write _ := None; env_sync _ := false; env_fs n := (n =? k)%nat; env_range _ ix := map_to_list ix |}.

Definition stops (k n : nat) : Env :=
  {| env_now _ := 1000; env_write i := if (i =? k)%nat then Some n else None; env_sync _ := false; env_fs _ := false;
     env_range _ ix := map_to_list ix |}.

(** A key written twice, a clean shutdown, and two more keys. *)
Definition grown_store : DB :=
  put "c" "4" (put "b" "3" (Open plain_opts (db_disk (Close (put "a" "2" (put "a" "1" (new_store plain_opts)))).2) 50).2).

(** Otherwise the old hint is believed.  Here the call after the rename fails
    (a kill there leaves the same files): the next process reads the value of
    another key under "a" and does not know "b" any more. *)
Example stale_hint_misleads :
  let r := Compact (E := breaks (db_tick grown_store + 9)) grown_store in
  let again := (Open plain_opts (db_disk r.2) 0).2 in
  r.1 = Err (EFailStop EIO) /\ db_disk r.2 = renamed (E := breaks (db_tick grown_store + 9)) grown_store
  /\ (got "a" grown_store, got "b" grown_store) = (Ok (Some (bs "2")), Ok (Some (bs "3")))
  /\ (got "a" again, got "b" again) = (Ok (Some (bs "3")), Ok None).
Proof. cbv zeta. split_and!; vm_compute; reflexivity. Qed.

(** A hint that was too long for the new log is not used by the next process,
    but it stays: once the log has grown to what the hint covers, a process that
    starts after another kill believes it. *)
Definition shrunk_store : DB :=
  (Open plain_opts (db_disk (Close (put "a" "4" (put "a" "3" (put "a" "2" (put "a" "1" (new_store plain_opts)))))).2) 50).2.

Example stale_hint_returns :
  let r := Compact (E := breaks (db_tick shrunk_store + 7)) shrunk_store in
  let next := (Open plain_opts (db_disk r.2) 0).2 in
  let later := put "d" "7" (put "c" "6" (put "b" "5" next)) in
  let again := (Open plain_opts (db_disk later) 0).2 in
  db_disk r.2 = renamed (E := breaks (db_tick shrunk_store + 7)) shrunk_store
  /\ bool_decide (hint_too_long (E := breaks (db_tick shrunk_store + 7)) shrunk_store) = true
  /\ got "a" next = Ok (Some (bs "4"))
  /\ (got "a" later, got "b" later) = (Ok (Some (bs "4")), Ok (Some (bs "5")))
  /\ (got "a" again, got "b" again) = (Ok (Some (bs "7")), Ok None).
Proof. cbv zeta. split_and!; vm_compute; reflexivity. Qed.

(** ** A write that stops half-way (mainlog.go)

    The bytes that reached the file are not counted, so the next record is
    looked for in front of where it is. *)
Example torn_append_hides_next :
  let s := Put (E := stops (S (db_tick grown_store)) 5) (bs "d") (bs "5") [] grown_store in
  let s' := Put (bs "d") (bs "6") [] s.2 in
  s.1 = Err EIO /\ s'.1 = Ok tt /\ got "d" s'.2 = Err EUnmarshal.
Proof. cbv zeta. split_and!; vm_compute; reflexivity. Qed.

(** ** Relieving the blobs when the last hint cannot be written (compact.go)

    The new log is in place and the store stays open, but the generation the
    log refers to is removed: the value is gone, after a restart too. *)
Example relieve_loses_blobs :
  let s := put "x" "sixteen bytes ok" grown_store in
  let r := BlobsRelieve (E := breaks (db_tick s + 23)) s in
  got "x" s = Ok (Some (bs "sixteen bytes ok"))
  /\ r.1 = Err EIO /\ db_closed r.2 = false /\ is_ok (got "x" r.2) = false
  /\ got "x" (Open plain_opts (db_disk r.2) 0).2 = Ok None.
Proof. cbv zeta. split_and!; vm_compute; reflexivity. Qed.

(** ** A time to live below a millisecond (ttl.go) *)
Example brief_ttl_is_none : got "k" (Put (bs "k") (bs "v") [999999] grown_store).2 = Ok None.
Proof. vm_compute. reflexivity. Qed.

(** ** Two texts of one counter value (counter.go) *)
Example minus_zero : parseCounter (bs "-0000000000000000000") = Some 0 /\ formatCounter 0 = bs "+0000000000000000000".
Proof. split; vm_compute; reflexivity. Qed.

(** ** Capped indexes (batch.go, secindex.go) *)

Definition capped_opts (n : Z) : Options := mkOptions 16 false 0 [mkIndexDef (bs "n") KindNumber None n].
Definition item_n (k : string) (n : Z) : PutItem := mkPutItem (bs k) (bs "{}") {[ bs "n" := AInt n ]} 0.
Definition put_n (k : string) (n : Z) (s : DB) : DB := (PutIndexed (bs k) (bs "{}") {[ bs "n" := AInt n ]} [] s).2.

(** A batch enforces the caps once, at its end: a key that a single write would
    have evicted stays. *)
Example batch_evicts_less :
  let batch := (PutBatch [item_n "a" 1; item_n "b" 1; item_n "b" 2] (new_store (capped_opts 1))).2 in
  let single := put_n "b" 2 (put_n "b" 1 (put_n "a" 1 (new_store (capped_opts 1)))) in
  (got "a" batch, got "a" single) = (Ok (Some (bs "{}")), Ok None)
  /\ got "b" batch = got "b" single.
Proof. cbv zeta. split; vm_compute; reflexivity. Qed.

(** Two keys with one value, reopened with a cap of one. *)
Definition lowered_store : DB :=
  (Open (capped_opts 1) (db_disk (put_n "b" 5 (put_n "a" 5 (new_store (capped_opts 2))))) 50).2.

(** Overwriting the lower one succeeds and evicts it. *)
Example overwrite_evicts :
  let r := PutIndexed (bs "a") (bs "{}") {[ bs "n" := AInt 5 ]} [] lowered_store in
  got "a" lowered_store = Ok (Some (bs "{}")) /\ r.1 = Ok tt /\ got "a" r.2 = Ok None.
Proof. cbv zeta. split_and!; vm_compute; reflexivity. Qed.

(** The smallest limit has no opposite. *)
Example smallest_limit_panics :
  (ByIndex (bs "n") (AInt 5) [MinInt64] lowered_store).1 = Err EPanic
  /\ (ByIndex (bs "n") (AInt 5) [MinInt64 + 1] lowered_store).1 = Ok [bs "b"; bs "a"].
Proof. split; vm_compute; reflexivity. Qed.

(** ** Extraction from immediate values (reindex.go)

    Neither a counter nor a string is indexed when it is written; [Reindex] does
    index them. *)
Example reindex_extracts_immediates :
  let s := put "k" "+ a string" (Incr (bs "c") 7 [] (new_store extract_opts)).2 in
  (ByIndex (bs "first") (AString (bs "+")) [] s).1 = Ok []
  /\ (ByIndex (bs "first") (AString (bs "+")) [] (Reindex s).2).1 = Ok [bs "c"; bs "k"].
Proof. cbv zeta. split; vm_compute; reflexivity. Qed.
