(* ===== verification/ServerSamples.v ===== *)
(** * A server over the sample store

    The theorems about connections applied to a server with a shared password
    and the store of [Samples] behind it. *)

From S2P Require Import Prelude Floats Types Counter Json Record BTree PkIndex SecIndex Hint Store Invariant Ops Load Contents Compact CompactProofs RelieveProofs Text Net Proto Embed Auth ServerSchema Server ServerProofs AuthProofs Framing Query Records Flags Startup CommandLine Policy Samples.
#[local] Open Scope Z_scope.

Definition some_text (_ : failure) : gostring := bs "failed".

Definition sample_schema : Schema :=
  mkSchema (bs "d") 16 true 100 [mkSchemaIndex (bs "n") (bs "number") [] 2; mkSchemaIndex (bs "tag") (bs "string") [] 0] zero_autocompact.

Definition zero_config : Config := mkConfig (bs "127.0.0.1:6666") [] false 0 0 0 false 0 f64_zero 0 false f64_zero 0.

Definition sample_server : Server := NewServer zero_config sample_store (authPassword (bs "pw")) sample_schema.

Definition session_of (st : connState) (text : gostring) : session := mkSession sample_server (mkStream text EEOF) st [].

Definition admin_state : connState := mkConnState true roleAdmin.
Definition user_state : connState := mkConnState true roleUser.

Definition ping_session : session := session_of admin_state (bs "ping" ++ newline).

Lemma one_response_per_command_witness : exists e,
  ss_out (serve_one some_text ping_session).2 = response_line e /\ no_ctl (dprint (envelope_doc e)) = true.
Proof.
  apply (one_response_per_command some_text ping_session Byte.x70 (bs "ing") (mkStream [] EEOF) (serve_one some_text ping_session).1).
  - apply quiet_no_faults.
  - by vm_compute.
  - by destruct (serve_one some_text ping_session).
  - intros H. assert (Hok : is_ok (serve_one some_text ping_session).1 = true) by (by vm_compute). by rewrite H in Hok.
Defined.

(** A client that guesses, asks for the greeting and tries to read and write. *)
Definition guess : stream :=
  mkStream (bs "auth wrong" ++ newline ++ bs "hello" ++ newline ++ bs "get a" ++ newline ++ bs "del a" ++ newline) EEOF.

Definition guess_end : res unit * session := conn_loop some_text (S (length (in_bytes guess))) (open_session guess sample_server).

Lemma unauth_isolated_witness : untouched (sv_db sample_server) (ss_db guess_end.2)
  /\ (no_faults quiet -> forall v2, sv_cfg v2 = sv_cfg sample_server -> sv_auth v2 = sv_auth sample_server ->
      (handleConn some_text guess v2).1 = guess_end.1 /\ (handleConn some_text guess v2).2.2 = ss_out guess_end.2).
Proof.
  pose proof (unauth_isolated some_text guess sample_server guess_end.1 guess_end.2 eq_refl) as H.
  assert (Ha : st_authed (ss_st guess_end.2) = false) by (by vm_compute). rewrite Ha in H. apply H.
  unfold guess_end. by destruct (conn_loop _ _ _).
Defined.

Definition user_session : session := session_of user_state [].

Lemma admin_required_witness : exists f, dispatch some_text (bs "Compact now") user_session = fail some_text f user_session
  /\ (f = FAuthRequired \/ exists name, f = FPermission name)
  /\ forall r s', dispatch some_text (bs "Compact now") user_session = (r, s') ->
       untouched (ss_db user_session) (ss_db s') /\ ss_in s' = ss_in user_session /\ ss_st s' = ss_st user_session.
Proof.
  apply (admin_required some_text (bs "Compact now") user_session (bs "compact") [bs "now"]); [by vm_compute..|done].
Defined.

(** ** Framed requests *)

Definition binary : gostring := [Byte.x00; Byte.x0a; Byte.xff; Byte.x0d].

Definition put_session : session :=
  session_of user_state (put_line (bs "k1") binary ++ Byte.x0a :: block binary ++ bs "ping").

Lemma framed_put_correct_witness : exists s', serve_one some_text put_session = (Ok true, s')
  /\ ss_in s' = mkStream (bs "ping") EEOF /\ ss_st s' = user_state
  /\ untouched (Put (bs "k1") binary [] sample_store).2 (ss_db s')
  /\ ss_out s' = response_line (reply_of some_text (Put (bs "k1") binary [] sample_store).1 (fun _ => doc_bool true)).
Proof.
  apply (framed_put_correct some_text put_session (bs "k1") binary (bs "ping") EEOF (Put (bs "k1") binary [] sample_store).1
    (Put (bs "k1") binary [] sample_store).2).
  - apply quiet_no_faults.
  - done.
  - by split.
  - by vm_compute.
  - by vm_compute.
  - by vm_compute.
  - done.
  - change (ss_db put_session) with sample_store. by destruct (Put (bs "k1") binary [] sample_store).
  - intros H. assert (Hok : is_ok (Put (bs "k1") binary [] sample_store).1 = true) by (by vm_compute). by rewrite H in Hok.
Defined.

(** A [putx] whose time to live is no number: its blocks are skipped. *)
Definition putx_session : session :=
  session_of user_state (putx_line (bs "k1") (bs "{}") binary [bs "soon"] ++ Byte.x0a :: block (bs "{}") ++ block binary ++ bs "ping").

Lemma putx_stays_in_sync_witness : exists s', serve_one some_text putx_session = (Ok true, s')
  /\ ss_in s' = mkStream (bs "ping") EEOF /\ ss_st s' = user_state /\ untouched sample_store (ss_db s')
  /\ ss_out s' = response_line (fail_env (bs "failed")).
Proof.
  apply (putx_stays_in_sync some_text putx_session (bs "k1") (bs "{}") binary [bs "soon"] (bs "ping") EEOF _ _ quiet_no_faults); try done.
  by repeat constructor.
Defined.

Definition ixrec_session : session := session_of user_state (spaced [bs "ixrec"; bs "tag"; bs "red"] ++ Byte.x0a :: bs "ping").

Lemma ixrec_answers_scan_witness : exists s' line, serve_one some_text ixrec_session = (Ok true, s')
  /\ ss_in s' = mkStream (bs "ping") EEOF /\ ss_out s' = line ++ [Byte.x0a]
  /\ json_parse line = Some (JObj [(bs "ok", JBool true); (bs "result", JArr [JObj [(bs "key", JStr (bs "a")); (bs "value", JObj [(bs "x", JNum (bs "1"))])]])]).
Proof.
  destruct (ixrec_answers_scan some_text ixrec_session (bs "tag") (bs "red") (AString (bs "red")) [bs "a"] sample_log (bs "ping") EEOF)
    as (s' & vs & line & H1 & H2 & _ & _ & H3 & H4 & H5).
  - apply quiet_no_faults.
  - done.
  - by split.
  - by split.
  - by vm_compute.
  - done.
  - by vm_compute.
  - done.
  - exact sample_Inv.
  - vm_compute. reflexivity.
  - constructor; [|done]. vm_compute. reflexivity.
  - exists s', line. split_and!; [exact H1|exact H2|exact H3|].
    apply Forall2_cons_inv_l in H4 as (v & vs' & (t & _ & Hv) & Hn & ->). apply Forall2_nil_inv_l in Hn as ->.
    assert (Hv' : v = Some (qs "{'x':1}")) by (rewrite Hv; vm_compute; reflexivity). rewrite Hv' in H5. apply H5. vm_compute. discriminate.
Defined.

Definition get_session : session := session_of user_state (spaced [bs "get"; bs "a"] ++ Byte.x0a :: bs "ping").

Lemma get_response_roundtrip_witness : exists s' line, serve_one some_text get_session = (Ok true, s')
  /\ ss_out s' = line ++ [Byte.x0a] /\ no_ctl line = true
  /\ json_parse (line ++ [Byte.x0a]) = Some (JObj [(bs "ok", JBool true); (bs "found", JBool true); (bs "result", JObj [(bs "x", JNum (bs "1"))])]).
Proof.
  destruct (get_response_roundtrip some_text get_session (bs "a") (qs "{'x':1}") (bs "ping") EEOF (Get (bs "a") sample_store).2)
    as (s' & line & H1 & _ & _ & H2 & H3 & H4 & _).
  - apply quiet_no_faults.
  - done.
  - by split.
  - by vm_compute.
  - done.
  - change (ss_db get_session) with sample_store.
    assert (H : (Get (bs "a") sample_store).1 = Ok (Some (qs "{'x':1}"))) by (by vm_compute).
    destruct (Get (bs "a") sample_store) as [r db]. cbn in H. by subst r.
  - exists s', line. split_and!; [exact H1|exact H2|exact H3|]. apply H4. by vm_compute.
Defined.

(** ** Starting up *)

Definition sample_host : Host :=
  mkHost (fun name => if decide (name = bs "schema.json") then Some (qs "{'dir':'d'}") else None)
    (fun _ _ => true) (fun _ => sample_disk) (fun a => Some a) 0.

(** A plain listener on a loopback address and a TLS listener on IPv6. *)
Definition sample_cli (addr : gostring) : cliOptions :=
  mkCli addr (bs "[::1]:6667") (bs "cert.pem") (bs "key.pem") (bs "schema.json") [] [] [] false 0.

Definition is_inl {A B} (x : A + B) : bool := match x with inl _ => true | inr _ => false end.

Example run_refuses : match run sample_host (sample_cli (bs "0.0.0.0:6666")) with inr (RunProtected a) => a = bs "0.0.0.0:6666" | _ => False end.
Proof. by vm_compute. Qed.

Lemma protected_mode_witness : exists srv lns, run sample_host (sample_cli (bs "127.0.0.1:6666")) = inl (srv, lns)
  /\ loopback_address (cfg_Addr (sv_cfg srv)) /\ loopback_address (cfg_TLSAddr (sv_cfg srv)).
Proof.
  destruct (run sample_host (sample_cli (bs "127.0.0.1:6666"))) as [[srv lns]|e] eqn:Hr.
  2: { exfalso. apply (f_equal is_inl) in Hr. by vm_compute in Hr. }
  assert (Ha : st_authed (initial_state (sv_auth srv)) = true /\ lns.1 <> None /\ lns.2 <> None).
  { assert (Hc : match run sample_host (sample_cli (bs "127.0.0.1:6666")) with
                 | inl (v, l) => st_authed (initial_state (sv_auth v)) && bool_decide (l.1 <> None) && bool_decide (l.2 <> None)
                 | inr _ => false end = true) by (by vm_compute).
    rewrite Hr in Hc. apply andb_true_iff in Hc as [[H1 H2]%andb_true_iff H3].
    split; [exact H1|]. split; [by apply bool_decide_eq_true in H2|by apply bool_decide_eq_true in H3]. }
  destruct Ha as (Ha & H1 & H2). destruct (protected_mode sample_host (sample_cli (bs "127.0.0.1:6666")) srv lns Hr eq_refl Ha) as [G1 G2].
  exists srv, lns. split; [reflexivity|]. split; [exact (G1 H1)|exact (G2 H2)].
Defined.

(** The same from a command line, with flags in both spellings. *)
Definition sample_args : list gostring :=
  bs <$> ["-schema=schema.json"; "--addr"; "127.0.0.1:6666"; "-tls-cert=cert.pem"; "-tls-key"; "key.pem"; "--tls-addr=[::1]:6667"; "-idle"; "1.5h"; "rest"]%string.

Definition reads_insecure (s : gostring) : bool :=
  match argument_of s with ArgFlag n _ => bool_decide (n = bs "insecure") | _ => false end.

Definition serves (s : started_as) : bool := match s with Serving _ _ _ => true | _ => false end.

Lemma main_protected_witness : exists v lns log, main sample_host [] sample_args = Serving v lns log
  /\ log = [bs "listening on 127.0.0.1:6666 (store d, auth none, 0 indexes, auto-compact off)"; bs "tls on [::1]:6667 (cert cert.pem)"]
  /\ loopback_address (cfg_Addr (sv_cfg v)) /\ loopback_address (cfg_TLSAddr (sv_cfg v)).
Proof.
  destruct (main sample_host [] sample_args) as [v lns log| | |] eqn:Hr.
  2-4: exfalso; apply (f_equal serves) in Hr; by vm_compute in Hr.
  assert (Hc : match main sample_host [] sample_args with
               | Serving v l g => st_authed (initial_state (sv_auth v)) && bool_decide (l.1 <> None) && bool_decide (l.2 <> None)
                   && bool_decide (g = [bs "listening on 127.0.0.1:6666 (store d, auth none, 0 indexes, auto-compact off)"; bs "tls on [::1]:6667 (cert cert.pem)"])
               | _ => false end = true) by (by vm_compute).
  rewrite Hr in Hc. apply andb_true_iff in Hc as [[[Ha H1]%andb_true_iff H2]%andb_true_iff Hg%bool_decide_eq_true].
  apply bool_decide_eq_true in H1, H2.
  destruct (main_protected sample_host [] sample_args v lns log Hr) as [G1 G2]; [|exact Ha|].
  { intros (s & x & Hin & Hs). assert (Hf : forallb (fun s => negb (reads_insecure s)) sample_args = true) by (by vm_compute).
    apply Is_true_true, forallb_True in Hf. rewrite Forall_forall in Hf. specialize (Hf s Hin). unfold reads_insecure in Hf. by rewrite Hs in Hf. }
  exists v, lns, log. split; [reflexivity|]. split; [exact Hg|]. split; [exact (G1 H1)|exact (G2 H2)].
Defined.

Example main_ends :
  main sample_host [] (bs <$> ["-schema"; "schema.json"; "-addr=0.0.0.0:6666"]%string) = FatalExit (RunProtected (bs "0.0.0.0:6666"))
  /\ main sample_host [] (bs <$> ["-schema"]%string) = UsageExit (FlagNeedsArg (bs "schema")) 2
  /\ main sample_host [] (bs <$> ["-insecure=maybe"]%string) = UsageExit (FlagInvalid (bs "insecure") (bs "maybe")) 2
  /\ main sample_host [] (bs <$> ["-addr"; "-h"; "-h"]%string) = UsageExit FlagHelp 0
  /\ main sample_host [] (bs <$> ["--version"; "--"; "-x"]%string) = PrintedVersion (bs "nteedb-server dev")
  /\ main sample_host [] (bs <$> ["-insecure"; "false"]%string) = FatalExit RunNoSchema.
Proof. split_and!; vm_compute; reflexivity. Qed.

(** ** Reclaiming *)

(** Compacts a log of a byte or more that is an eighth dead. *)
Definition eighth : f64 := SpecFloat.S754_finite false (2 ^ 52) (-55).

Definition eager_config : Config := mkConfig (bs "127.0.0.1:6666") [] false 0 0 0 true 0 eighth 1 false half 0.

Definition eager_server : Server := NewServer eager_config sample_store authNone sample_schema.


(** ** A tab after the key

    The tokens of a command line are separated by any white space, the value
    of an inline [put] is found by skipping spaces only: with a tab after the
    command the value is lost and the empty string is stored. *)
Definition tab_session : session := session_of user_state (bs "put" ++ [Byte.x09] ++ bs "k v" ++ newline).

Example put_after_tab_loses_value :
  ss_out (serve_one some_text tab_session).2 = qs "{'ok':true,'result':true}" ++ newline
  /\ contents (ss_db (serve_one some_text tab_session).2) !! bs "k" = Some []
  /\ contents (ss_db (serve_one some_text (session_of user_state (bs "put k v" ++ newline))).2) !! bs "k" = Some (bs "v").
Proof. by vm_compute. Qed.

(** ** A long time to live

    584 years, in milliseconds, come out as less than one of them. *)
Example long_ttl_wraps : parseTTLMillis (bs "put") (bs "18446744073710") = inl 448384 /\ 448384 < millisecond.
Proof. split; [by vm_compute|done]. Qed.
