(* ===== verification/GateSamples.v ===== *)
(** * Executions of the locking protocol on a small store

    A scheduler that runs a given interleaving, and interleavings of concrete
    calls: they show that the theorems on the gate speak about executions that
    exist, and one of them is a defect of [Reindex]. *)

From S2P Require Import Prelude Gate GateProofs GateLive.
#[local] Open Scope nat_scope.

Section runner.
Context {D L Q : Type} (closed : D -> bool) (of_batch : list Q -> L).
Context (reap_body : list (@stmt D L)) (reap_cap : nat).

(** Who moves: goroutine [i], or the hint writer. *)
Inductive turn := T (i : nat) | TC (i : nat) | TH.

Definition turn_step (t : turn) (σ : @state D L Q) : option (list (nat * event) * state) :=
  match t with
  | T i => '(e, σ') ← thread_step closed of_batch reap_body reap_cap i false σ; Some (option_list (e' ← e; Some (i, e')), σ')
  | TC i => '(e, σ') ← thread_step closed of_batch reap_body reap_cap i true σ; Some (option_list (e' ← e; Some (i, e')), σ')
  | TH => σ' ← writeHintAsync false σ; Some ([], σ')
  end.

(** Plays the turns in order, passing over a goroutine that cannot move;
    returns the number of steps made, the events and the state reached. *)
Fixpoint play (ts : list turn) (σ : @state D L Q) : nat * list (nat * event) * state :=
  match ts with
  | [] => (0, [], σ)
  | t :: ts' =>
      match turn_step t σ with
      | Some (tr1, σ1) => let '(n, tr2, σ2) := play ts' σ1 in (S n, tr1 ++ tr2, σ2)
      | None => play ts' σ
      end
  end.

Lemma turn_step_step t σ tr σ' : turn_step t σ = Some (tr, σ') ->
  exists e, tr = option_list e /\ step closed of_batch reap_body reap_cap σ e σ'.
Proof.
  destruct t as [i|i|]; cbn [turn_step]; intros H.
  - destruct (thread_step _ _ _ _ _ _ _) as [[e σ1]|] eqn:E; [|done]. injection H as <- <-. eexists. split; [done|]. by eapply step_thread.
  - destruct (thread_step _ _ _ _ _ _ _) as [[e σ1]|] eqn:E; [|done]. injection H as <- <-. eexists. split; [done|]. by eapply step_thread.
  - destruct (writeHintAsync false σ) as [σ1|] eqn:E; [|done]. injection H as <- <-. exists None. split; [done|]. by eapply step_hint.
Qed.

Lemma play_exec ts σ0 n0 tr0 σ : exec closed of_batch reap_body reap_cap σ0 n0 tr0 σ ->
  exec closed of_batch reap_body reap_cap σ0 (n0 + (play ts σ).1.1) (tr0 ++ (play ts σ).1.2) (play ts σ).2.
Proof.
  revert n0 tr0 σ. induction ts as [|t ts IH]; intros n0 tr0 σ He; cbn [play]; [cbn; by rewrite Nat.add_0_r, app_nil_r|].
  destruct (turn_step t σ) as [[tr1 σ1]|] eqn:Et; [|by apply IH].
  destruct (turn_step_step _ _ _ _ Et) as (e & -> & Hs).
  specialize (IH (S n0) (tr0 ++ option_list e) σ1 ltac:(by econstructor)).
  destruct (play ts σ1) as [[n tr2] σ2]. cbn in *. by rewrite app_assoc, Nat.add_succ_r.
Qed.
End runner.

(** ** A cell with a flag *)

(** The value of the cell, [db.closed], and whether the store was written
    after it was closed. *)
Record cell := Cell { c_val : nat; c_closed : bool; c_late : bool }.

Definition write_cell (n : nat) (c : cell) : cell := Cell n (c_closed c) (c_late c || c_closed c).

(** An increment in two accesses, a read, a rebuild that doubles, [Close] and
    [Reindex]. *)
Definition incr_call : @call cell nat unit :=
  [(fun _ => true, SecWrite true [Act (fun c _ => (c, c_val c)); Act (fun c l => (write_cell (S l) c, S l));
                                  MaybeHint (fun _ _ => true)])].

Definition read_call : @call cell nat unit := [(fun _ => true, SecRead [Look (fun c _ => c_val c); ReapAsync (fun _ _ => Some tt)])].

Definition double : @rewrite cell nat :=
  Rewrite_ [fun c _ => c_val c; fun c l => l + c_val c] (fun _ => false) [Act (fun c l => (write_cell l c, l))] None.

Definition double_call : @call cell nat unit := [(fun _ => true, SecRewrite double)].

Definition close_call : @call cell nat unit :=
  [(fun _ => true, SecStopReaper);
   (fun _ => true, SecWrite true [Act (fun c l => (Cell (c_val c) true (c_late c), l)); WaitHint (fun _ _ => true);
                                  BumpHint (fun _ _ => true); WriteHint (fun _ _ => true)])].

Definition reindex_call : @call cell nat unit :=
  [(fun _ => true, SecRewrite double); (fun _ => true, SecWrite false [Act (fun c l => (write_cell (c_val c) c, l))])].

Definition cell_play := play c_closed (fun _ : list unit => 0) [Act (fun c _ => (c, 7))] 1.
Definition cell_exec := exec c_closed (fun _ : list unit => 0) [Act (fun c _ => (c, 7))] 1.

Definition many (n i : nat) : list turn := repeat (T i) n.

(** Two increments, a rebuild and a reader, interleaved: the rebuild builds
    while the second increment parks, the reader reads beside the rebuild, and
    the hint writer and the reaper run to the end. *)
Definition mixed : @state cell nat unit := init (Cell 5 false false) [(incr_call, 0); (incr_call, 0); (double_call, 0); (read_call, 0)].

Definition mixed_turns : list turn :=
  many 8 1 ++ many 4 3 ++ many 4 2 ++ many 3 4 ++ many 2 3 ++ many 5 4 ++ many 9 3 ++ [TH; TH; TH] ++ many 12 2 ++ many 12 0.

Definition mixed_end := (cell_play mixed_turns mixed).2.

Lemma mixed_exec : cell_exec mixed (cell_play mixed_turns mixed).1.1 (cell_play mixed_turns mixed).1.2 mixed_end.
Proof. apply (play_exec _ _ _ _ mixed_turns mixed 0 [] mixed). constructor. Qed.

Lemma mixed_runs : c_val (data mixed_end) = 13 /\ owner mixed_end = None /\ compacting mixed_end = false
  /\ (cell_play mixed_turns mixed).1.2.*1 = [1; 4; 3; 2; 0; 0].
Proof. vm_compute. done. Qed.

Lemma gate_serializable_witness : owner mixed_end = None /\
  exists m, seq_run (fun _ : list unit => 0) (Cell 5 false false, init_locals [(incr_call, 0); (incr_call, 0); (double_call, 0); (read_call, 0)])
      (cell_play mixed_turns mixed).1.2 = Some (data mixed_end, m)
    /\ forall i ok l, threads mixed_end !! i = Some (Done ok l) -> m !! i = Some l.
Proof.
  assert (owner mixed_end = None) as Ho by (vm_compute; reflexivity). split; [exact Ho|].
  exact (gate_serializable _ _ _ _ _ _ _ _ _ mixed_exec Ho).
Defined.

(** In the middle of the rebuild: the second increment is parked. *)
Definition parked_end := (cell_play (many 8 1 ++ many 5 3 ++ many 4 2) mixed).2.

Lemma parked_exec : cell_exec mixed (cell_play (many 8 1 ++ many 5 3 ++ many 4 2) mixed).1.1
  (cell_play (many 8 1 ++ many 5 3 ++ many 4 2) mixed).1.2 parked_end.
Proof. apply (play_exec _ _ _ _ (many 8 1 ++ many 5 3 ++ many 4 2) mixed 0 [] mixed). constructor. Qed.

Lemma gate_invariant_witness : compacting parked_end = true
  /\ (exists w k l, threads parked_end !! 2 = Some (Parked w k l))
  /\ (forall i w k l, threads parked_end !! i = Some (Parked w k l) -> exists j q, threads parked_end !! j = Some q /\ gated q = true).
Proof.
  split; [vm_compute; reflexivity|]. split; [eexists _, _, _; vm_compute; reflexivity|].
  exact (proj1 (proj2 (proj2 (proj2 (gate_invariant _ _ _ _ _ _ _ _ _ parked_exec))))).
Defined.

Lemma gate_liveness_witness : compacting parked_end = true
  /\ exists m tr' σ', cell_exec mixed ((cell_play (many 8 1 ++ many 5 3 ++ many 4 2) mixed).1.1 + m)
         ((cell_play (many 8 1 ++ many 5 3 ++ many 4 2) mixed).1.2 ++ tr') σ' /\ quiescent σ'.
Proof.
  split; [vm_compute; reflexivity|]. exact (proj2 (proj2 (gate_liveness _ _ _ _ _ _ _ _ _ parked_exec))).
Defined.

(** ** Reindex after Close

    [Reindex] takes the lock a second time to record what it did, and does not
    look at [db.closed] then: when [Close] gets in between, the store is
    written after it was closed (and after its directory lock was released). *)
Definition late_turns : list turn := many 14 1 ++ [T 2; TC 0] ++ many 20 2 ++ many 12 1.

Definition late_start : @state cell nat unit := init (Cell 5 false false) [(reindex_call, 0); (close_call, 0)].

Lemma reindex_writes_closed_store :
  cell_exec late_start (cell_play late_turns late_start).1.1 (cell_play late_turns late_start).1.2 (cell_play late_turns late_start).2
  /\ data (cell_play late_turns late_start).2 = Cell 10 true true
  /\ threads (cell_play late_turns late_start).2 = [Gone; Done true 10; Done true 0].
Proof.
  split; [apply (play_exec _ _ _ _ late_turns late_start 0 [] late_start); constructor|]. vm_compute. done.
Qed.
