(* ===== verification/CApiSamples.v ===== *)
(** * A concrete process

    Two stores opened through the C interface, one of them the directory of
    [Samples]; the theorems about the table of handles and about data crossing
    the interface are applied to them. *)

From S2P Require Import Prelude Floats Types Counter Json Base64 Record BTree PkIndex SecIndex Hint Meta Store SecMaint IndexStep LogSpec Invariant Ops Contents Caps PutProofs Load Batch Compact Destroy Text Proto Embed DocParse ServerSchema Server Samples COptions CApi CApiProofs CApiData.
#[local] Open Scope Z_scope.

Definition plain_text (e : apiError) : gostring :=
  match e with AInvalidHandle => bs "invalid handle" | ABlobMismatch => bs "mismatch" | AErr ErrLocked => bs "locked" | _ => bs "failed" end.

Definition same_path (dir : gostring) : gostring := dir.

#[local] Notation run := (history same_path plain_text).
#[local] Notation call_ := (exec same_path plain_text).

Definition disks : gmap gostring Disk := {[ bs "d" := sample_disk ]}.

Definition two_opens : list event :=
  [Call (COpenStore (bs "d") (qs "{'blobThreshold':16,'indexes':[{'name':'n','kind':'number','maxPerValue':2}]}"));
   Call (COpenStore (bs "e") []);
   Call (CData 1 (DPut (bs "k") (bs "v1") 2 [] 0)); Reap 0; Call (CData 2 (DPut (bs "k") (bs "v2") 2 [] 0))].

Definition process : library := default (fresh_library disks) (run two_opens (fresh_library disks)).

Definition some_b {A} (o : option A) : bool := match o with Some _ => true | None => false end.

Lemma some_default {A} (o : option A) d : some_b o = true -> o = Some (default d o).
Proof. by destruct o. Qed.

Lemma process_run : run two_opens (fresh_library disks) = Some process.
Proof. apply some_default. by vm_compute. Qed.


(** The store of the second handle. *)
Definition other : opened := default (mkOpened [] sample_store) (lb_heap process !! 1%N).

Lemma other_there : lb_heap process !! 1%N = Some other.
Proof. apply some_default. by vm_compute. Qed.

Definition deleted : library := (call_ (CData 1 (DDelete (bs "k"))) process).2.


(** After the first handle was closed, its directory is opened again. *)
Definition closed1 : library := default process (happen same_path plain_text (Call (CCloseStore 1)) process).
Definition again : list event := [Call (COpenStore (bs "d") []); Call (CData 3 (DDelete (bs "a")))].
Definition later : library := default process (run again closed1).

Lemma released_handle_dead_witness :
  call_ (CData 1 (DGet (bs "k"))) later = (Ok (qs "{'err':'invalid handle'}"), later) /\ call_ (CCloseStore 1) later = (Ok (bs "{}"), later).
Proof.
  destruct (released_handle_dead same_path plain_text disks two_opens again 1 process closed1 later (CCloseStore 1) process_run) as (Hd & Hc & _).
  - by vm_compute; eauto.
  - by left.
  - apply some_default. by vm_compute.
  - apply some_default. by vm_compute.
  - by vm_compute.
  - split; [rewrite (Hd (DGet (bs "k")))|rewrite Hc]; f_equal; f_equal; by vm_compute.
Defined.

(** ** One store, with the contents of [Samples] *)

Definition holder : library := settle 0 (bs "d") sample_store (mkLibrary disks ∅ 1 1 {[1 := 0%N]} 0).

Definition batch_items : list PutItem :=
  [mkPutItem (bs "x") (qs "{'p':1}") {[ bs "n" := AFloat64 half ]} 0; mkPutItem (bs "y") [] ∅ 0; mkPutItem (bs "w") [Byte.xff; Byte.x00] ∅ 0].

Definition batch_meta : gostring := qs "[{'k':'x','n':7,'ix':{'n':0.5}},{'k':'y','n':0},{'n':2,'K':'w','other':1}]".

Lemma put_batch_bin_exact_witness :
  nteedb_put_batch_bin plain_text 1 batch_meta (blob_of batch_items) (zlen (blob_of batch_items)) holder =
    op plain_text 0%N (PutBatch batch_items) (fun _ => answer plain_text (doc_int 3)) holder
  /\ nteedb_put_batch_bin plain_text 1 batch_meta (bs "short") (zlen (bs "short")) holder = (Ok (qs "{'err':'mismatch'}"), holder).
Proof.
  assert (Hm : unmarshal_slice (mkBinBatchItem [] 0 ∅) (dec_struct set_bb_field) (GoString batch_meta) = Some (meta_of <$> batch_items)) by (by vm_compute).
  split.
  - destruct (put_batch_bin_exact plain_text 1 0%N batch_meta (meta_of <$> batch_items) (blob_of batch_items) holder) as [Hok _];
      [by vm_compute|by vm_compute|exact Hm|]. apply (Hok batch_items); [by repeat constructor|done|done].
  - destruct (put_batch_bin_exact plain_text 1 0%N batch_meta (meta_of <$> batch_items) (bs "short") holder) as [_ Hbad];
      [by vm_compute|by vm_compute|exact Hm|]. destruct Hbad as [_ Hmis].
    + intros items _ He Hb. apply (f_equal (fun l => sum_lens l)) in He. apply (f_equal zlen) in Hb.
      assert (forall l, zlen (blob_of l) = sum_lens (meta_of <$> l)) as Hsum.
      { induction l as [|it l IH]; [done|]. unfold blob_of in *. cbn. rewrite zlen_app. unfold sum_lens in IH. by rewrite IH. }
      rewrite Hsum, <- He in Hb. by vm_compute in Hb.
    + rewrite Hmis; [f_equal; f_equal; by vm_compute|]. intros (pre & m & post & He & Hpre & Hle & Hgt).
      assert (Forall (fun x => bb_N x <= 7) (meta_of <$> batch_items)) as HF by decide_now. rewrite He in HF.
      apply Forall_app in HF as [_ [Hm7 _]%Forall_cons]. assert (zlen (bs "short") = 5) as Hz by done. unfold MaxInt64 in Hgt. lia.
Defined.

(** Lengths whose sum passes int64 slip past the check and take the process
    down. *)
Example batch_bin_overflow :
  nteedb_put_batch_bin plain_text 1 (qs "[{'k':'x','n':1},{'k':'y','n':9223372036854775807}]") (bs "abc") 3 holder = (Err EPanic, holder).
Proof. by vm_compute. Qed.

(** ** Put, then get *)

Definition blob_value : gostring := [Byte.xff; Byte.x00; Byte.x41].

Definition put_held : res gostring * library := nteedb_put plain_text 1 (bs "d") blob_value (zlen blob_value) [] 0 holder.

Lemma put_get_roundtrip_witness : exists text l2 rec, nteedb_get_json plain_text 1 (bs "d") put_held.2 = (Ok text, l2)
  /\ json_parse text = Some (JObj [(bs "result", rec)]) /\ decodeJson rec = Some (JsBuffer blob_value).
Proof.
  assert (Hv : view holder (mkOpened (bs "d") sample_store) = sample_store) by apply view_settle.
  destruct (put_get_roundtrip plain_text holder 1 0%N (mkOpened (bs "d") sample_store) sample_log (bs "d") blob_value [] put_held.2 quiet_clean)
    as (text & l2 & Hget & Hrest).
  - by vm_compute.
  - apply lookup_insert_eq.
  - rewrite Hv. exact sample_Inv.
  - rewrite Hv. exact sample_caps.
  - rewrite Hv. intros t ix idx Hidx. injection Hidx as <-. intros H.
    assert (Hc : (buildIndexValues (GoString (bs "d")) blob_value ∅ (set_tick t sample_store)).1 = Ok ∅) by (vm_compute; reflexivity).
    rewrite Hc in H. assert (Heq : ∅ = ix) by exact (f_equal (fun r => match r with Ok x => x | Err _ => ix end) H). rewrite <- Heq. decide_now.
  - unfold put_held. assert (Hok : (nteedb_put plain_text 1 (bs "d") blob_value (zlen blob_value) [] 0 holder).1 = Ok (reply plain_text None None))
      by (by vm_compute). destruct (nteedb_put _ _ _ _ _ _ _ _) as [r l1]. cbn [fst snd] in *. by rewrite Hok.
  - exact sample_is_open.
  - destruct Hrest as (rec & Hp & Hd); [by vm_compute|]. exists text, l2, rec. split; [exact Hget|]. split; [exact Hp|exact Hd].
Defined.

Lemma reply_complete_witness : let text := qs "{'result':true}" in
  call_ (CData 1 (DHas (bs "a"))) holder = (Ok text, (call_ (CData 1 (DHas (bs "a"))) holder).2)
  /\ GoString (text ++ [Byte.x00]) = text.
Proof.
  intros text. assert (H : call_ (CData 1 (DHas (bs "a"))) holder = (Ok text, (call_ (CData 1 (DHas (bs "a"))) holder).2)).
  { assert (Hok : (call_ (CData 1 (DHas (bs "a"))) holder).1 = Ok text) by (by vm_compute). destruct (call_ _ _) as [r l]. cbn [fst snd] in *. by rewrite Hok. }
  split; [exact H|]. exact (proj2 (reply_complete plain_text same_path _ _ _ _ [] H)).
Defined.

(** A directory is opened once; a handle counter that wraps gives out the
    handle 0. *)
Example open_twice_locked : (call_ (COpenStore (bs "e") []) process).1 = Ok (qs "{'err':'locked'}").
Proof. by vm_compute. Qed.

Example handles_wrap : (regPut 5%N (mkLibrary disks ∅ 6 (2 ^ 32 - 1) ∅ 0)).1 = Ok 0.
Proof. by vm_compute. Qed.

(** Milliseconds that wrap around: a long time to live is nearly none, or
    refused as negative. *)
Example ttlArg_wraps : ttlArg 18446744073710 = [448384] /\ ttlArg 9223372036855 = [-9223372036854551616].
Proof. by vm_compute. Qed.
