(* ===== verification/ShutdownSamples.v ===== *)
(** * Shutting down: executions

    Executions of a server on one or two listeners, and the theorems about
    shutting down applied to them: a complete shutdown, and those that a
    connection accepted at the wrong moment or a second call of [Close]
    disturbs. *)

From S2P Require Import Prelude Shutdown ShutdownProofs ShutdownLive.
#[local] Open Scope nat_scope.

(** A step by name. *)
Inductive move :=
  | Acc (i : nat) | Han (c : nat) | Auto | Serve | Main
  | Connect (i : nat) | AcceptError (i : nat) | Request (c : nat) | Leave (c : nat) | Tick | Signal.

Definition play (m : move) (σ : srv) : option srv :=
  match m with
  | Acc i => acc_next i σ
  | Han c => han_next c σ
  | Auto => auto_next σ
  | Serve => serve_next σ
  | Main => main_next σ
  | Connect i =>
      match v_acc σ !! i with
      | Some AAccept =>
          if ln_open i σ then
            Some (set_acc i (AGot (v_fresh σ)) (set_fresh (S (v_fresh σ))
              (set_net (v_conns σ) ({[ v_fresh σ ]} ∪ v_open σ) (v_swept σ) (v_late σ) σ)))
          else None
      | _ => None
      end
  | AcceptError i => match v_acc σ !! i with Some AAccept => Some (set_acc i AFailed σ) | _ => None end
  | Request c =>
      match v_han σ !! c with
      | Some (HServe n) => if decide (c ∈ v_open σ) then Some (set_han c (HServe (S n)) σ) else None
      | _ => None
      end
  | Leave c => match v_han σ !! c with Some (HServe 0) => Some (set_han c HEnding σ) | _ => None end
  | Tick => match v_auto σ with LIdle => Some (set_work (v_wg σ) (v_han σ) LWork σ) | _ => None end
  | Signal => match v_main σ with MSelect => Some (set_top (v_errc σ) (v_serve σ) (MClosing KCas) (v_db σ) σ) | _ => None end
  end.

Fixpoint plays (ms : list move) (σ : srv) : option srv :=
  match ms with [] => Some σ | m :: ms => play m σ ≫= plays ms end.

Lemma play_step m σ σ' : play m σ = Some σ' -> step σ σ'.
Proof.
  intros H. destruct m as [i|c| | | |i|i|c|c| |]; cbn in H; try (left; econstructor; eassumption); right;
    repeat (case_match; try done); injection H as <-; by econstructor.
Qed.

Lemma plays_reachable n auto ms σ : plays ms (started n auto) = Some σ -> reachable n auto σ.
Proof.
  unfold reachable. generalize (started n auto) as s. induction ms as [|m ms IH]; cbn; intros s; [by intros [= ->]|].
  intros (s1 & H & Hs)%bind_Some. eapply rtc_l; [by eapply play_step|by apply IH].
Qed.

(** Where an execution ends; one that cannot be played ends where it began. *)
Definition after (n : nat) (auto : bool) (ms : list move) : srv := default (started n auto) (plays ms (started n auto)).

Lemma after_reachable n auto ms : reachable n auto (after n auto ms).
Proof. unfold after. destruct (plays ms (started n auto)) eqn:H; [by eapply plays_reachable|constructor]. Qed.

Fixpoint times {A} (n : nat) (x : A) : list A := match n with O => [] | S n => x :: times n x end.

(** ** A complete shutdown

    Two listeners and automatic compaction; a client with an unserved request
    when the signal arrives. *)
Definition busy : list move := [Connect 0; Acc 0; Acc 0; Request 0; Tick; Signal; Main].

Definition orderly : list move :=
  busy ++ times 5 Main ++ [Auto; Auto] ++ times 5 (Han 0) ++ [Main; Acc 0; Acc 0; Acc 1; Acc 1] ++ times 3 Serve ++ [Main; Main].

Example orderly_shutdown : let σ := after 2 true orderly in
  plays orderly (started 2 true) = Some σ /\ v_main σ = MExit /\ v_db σ = true /\ v_done σ = true /\ v_serve σ = SReturned false
  /\ v_han σ = ∅ /\ v_conns σ = ∅ /\ v_open σ = ∅ /\ v_acc σ = [AReturned false; AReturned false].
Proof. vm_compute. split_and!; reflexivity. Qed.

(** ** Late connections

    Accepted before [Close] and entered in the table after [Close] had gone
    through it, a connection makes [Close] wait for as long as the client
    stays. *)
Definition late_blocks : list move :=
  [Connect 0; Signal] ++ times 5 Main ++ [Acc 0; Acc 0; Acc 0; Acc 0; Serve; Serve].

Definition blocked : srv := after 1 false late_blocks.

Lemma blocked_fields : plays late_blocks (started 1 false) = Some blocked /\ v_main blocked = MClosing KWait /\ v_acc blocked = [AReturned false]
  /\ v_han blocked = {[ 0 := HServe 0 ]} /\ v_open blocked = {[ 0 ]} /\ v_late blocked = {[ 0 ]} /\ v_wg blocked = 1 /\ v_auto blocked = LDone
  /\ v_serve blocked = SReturned false.
Proof. vm_compute. split_and!; reflexivity. Qed.

Example late_connection_blocks : reachable 1 false blocked /\ v_main blocked = MClosing KWait /\ stuck blocked.
Proof.
  destruct blocked_fields as (_ & Em & Ea & Eh & Eo & _ & Ew & Eu & Es).
  split; [apply after_reachable|]. split; [done|]. intros σ' [i H|c H|c H|H|H|H].
  - unfold acc_next in H. rewrite Ea in H. by destruct i as [|[|i]].
  - unfold han_next in H. rewrite Eh, Eo in H. destruct (decide (c = 0)) as [->|Hc]; [done|]. by rewrite lookup_singleton_ne in H.
  - unfold quit_next in H. rewrite Eh in H. destruct (decide (c = 0)) as [->|Hc]; [done|]. by rewrite lookup_singleton_ne in H.
  - unfold auto_next in H. by rewrite Eu in H.
  - unfold serve_next in H. by rewrite Es in H.
  - unfold main_next, close_next in H. by rewrite Em, Ew in H.
Qed.

(** Or it is not waited for at all, and is served after the store was closed. *)
Definition late_escapes : list move := [Connect 0; Signal] ++ times 8 Main ++ [Acc 0; Acc 0; Request 0].

Example late_connection_escapes : let σ := after 1 false late_escapes in
  plays late_escapes (started 1 false) = Some σ /\ v_done σ = true /\ v_db σ = true /\ v_main σ = MExit
  /\ v_han σ !! 0 = Some (HServe 1) /\ v_open σ = {[ 0 ]} /\ v_late σ = {[ 0 ]}.
Proof. vm_compute. split_and!; reflexivity. Qed.

(** ** A second call of [Close]

    [Serve] tears the server down after a failure of one listener; a signal
    arrives, and [run]'s [Close] returns at once: the store is closed while a
    connection is open and served. *)
Definition overtaken : list move :=
  [Connect 0; Acc 0; Acc 0; AcceptError 1; Acc 1; Serve; Serve; Signal; Main; Main; Main; Request 0].

Example close_overtaken : let σ := after 2 false overtaken in
  plays overtaken (started 2 false) = Some σ /\ v_db σ = true /\ v_main σ = MExit /\ v_done σ = false
  /\ v_serve σ = SClosing KStop 1 /\ v_han σ !! 0 = Some (HServe 1) /\ v_open σ = {[ 0 ]}.
Proof. vm_compute. split_and!; reflexivity. Qed.

(** ** The theorems at work *)

Lemma close_stops_witness : let σ := after 1 false late_escapes in
  v_done σ = true /\ (size (v_late σ) <= 1)%nat /\ ln_open 0 σ = false.
Proof.
  pose proof (close_stops 1 false _ (after_reachable 1 false late_escapes)) as [H _].
  split; [vm_compute; reflexivity|]. destruct (H ltac:(vm_compute; reflexivity)) as (Hl & _ & _ & Hs & _). split; [exact Hs|apply Hl].
Defined.

Lemma shutdown_completes_witness : let σ := after 2 true busy in
  v_closed σ = true /\ (exists σ', rtc internal σ σ' /\ stuck σ') /\ forall m σ', nsteps internal m σ σ' -> (m <= 40)%nat.
Proof.
  pose proof (shutdown_completes 2 true _ (after_reachable 2 true busy)) as H. specialize (H ltac:(vm_compute; reflexivity)).
  destruct H as (Hb & He & _). split; [vm_compute; reflexivity|]. split; [exact He|]. intros m σ' Hm. specialize (Hb m σ' Hm).
  assert (E : shut_work (after 2 true busy) = 40) by (vm_compute; reflexivity). rewrite E in Hb. lia.
Defined.
